(* ===== verification/_CoqProject ===== *)
-Q . S2P
Prelude.v
Text.v
Typestate.v
Ident.v
Key.v
Capability.v
Route.v
Dispatch.v
Table.v
Cache.v
Sled.v
CacheTrait.v
LimitCore.v
Limiter.v
SledCounters.v
PluginCore.v
Account.v
Config.v
Auth.v
Login.v
Sse.v
RespCache.v
Chains.v
Measure.v
Gate.v
Recorder.v
Flow.v
HeaderBlock.v
Host.v
Sql.v
Schema.v
Integrity.v
Named.v
IdentityStore.v
IdentitySpec.v
Workflow.v
PluginStore.v
RouteStore.v
LimitStore.v
ListStore.v
Store.v
Revision.v
Typed.v
Contract.v
Access.v
Ledger.v
Routes.v
Owned.v
Backends.v
Rely.v
Publication.v
Cluster.v
Nodes.v
Manage.v
Web.v
Feed.v
Follow.v
Startup.v
Open.v
TenantRoutes.v
MemberRoutes.v
UserRoutes.v
GrantRoutes.v
RouteRoutes.v
LimitRoutes.v
PluginRoutes.v
UsageRoutes.v
KeyRoutes.v
Front.v
Caller.v
Admin.v
Policy.v
Governed.v
Keys.v
Confined.v
