(* ===== verification/Prelude.v ===== *)
(** * Verification of intelli-prism, an AI proxy and gateway

    The program sits between callers and LLM upstreams: it authenticates each signed request,
    decides what the caller may reach and spend, routes it to one endpoint behind a rule, runs
    plugins over request and response, and answers a repeated request from its cache.  Tenants,
    accounts, grants, rules and limits are kept in a sql database and managed over an http api;
    every node of a cluster holds the rules in memory and follows their revision.  This library
    models the parts that carry those decisions, from the Rust sources under [src/crates] and
    [src/src], and proves what makes them correct.

    ** Parts and files, in dependency order

    - [Prelude]: the [result] monad, validated newtypes ([refined]: a value with a proof that
      its constructor's check accepts it), machine integers, the stable sort, byte order,
      literals, the hint database [prism] and the tactics [inv_ok], [case_if],
      [by_computation], [unfold_bounds].
    - [Text]: what the sources use of Rust's [str], [char], UTF-8, decimal numbers, splitting
      and [std::net].
    - [Typestate]: [typestate-txn], the macro [transaction!]: parsing a workflow, expanding it,
      which calls on the expansion compile and what running it does, over the classes [Syn] and
      [CharCase].
    - [Ident], [Key], [Capability], [Route]: [ip-core]'s errors, identifiers, keys and
      signatures, capabilities and grants, endpoints and rules.
    - [Dispatch], [Table]: [ip-gateway/src/dispatch.rs] and [table.rs].  A dispatcher's shared
      counters are a state changed by [dispatch_step]; the table is built from rules and
      resolved.
    - [Config]: [ip-config], and the rules and table that come of it, over the classes [Toml]
      and [UrlLib].
    - [Cache], [Sled], [CacheTrait]: [ip-cache].  [Sled] is [SledCache] over the class of a
      sled database, each operation the sequence of indivisible sled calls it makes, so that
      races are step relations ([claim_step], [publish_step]).  [CacheTrait] states the trait
      [Cache] as a class and discharges it with [Sled].
    - [LimitCore], [Limiter], [SledCounters]: [ip-core/src/limit.rs], [timestamp.rs] and
      [ip-gateway/src/limit.rs] over the class [Counters], discharged by the standalone cache.
    - [PluginCore], [Account]: plugin rules, usage counts, the stored records and how the sql
      backends spell them in columns.
    - [Auth], [Login]: [ip-auth], over the classes [Storage], [Cache], [Argon2] and
      [TokenCodec].
    - [Sse], [RespCache], [Chains], [Measure], [Gate], [Recorder]: the parts of [ip-gateway] a
      request passes, and [ip-plugin/src/chains.rs].
    - [Flow]: [flow/stages.rs], [run.rs] and [gateway.rs]: [handle] composes every component
      above, as [Gateway::handle] does, in a monad of its own ([M]: the state of a node, an
      error, or a panic).
    - [HeaderBlock], [Host]: [ip-plugin]: the header block, the abi, the host that loads and
      runs wasm and the processors over it, over the class [Wasmtime].
    - [Sql], [Rely], [Schema]: programs that send statements to a database ([sql], with the run
      in which nothing fails, [exec], all runs, [runs], and the interleaved steps of many
      programs, [pool_step]); the tables, cascades and triggers of [ip-storage/migrations] and
      the write statements.  [Integrity] and [Named] are the invariant of the tables and their
      content by name.
    - [IdentityStore], [Workflow], [PluginStore], [RouteStore], [LimitStore], [ListStore],
      [Store]: every call of [ip-storage/src/sqlite] and its typestate transactions;
      [Store.Call] is any write call.  [IdentitySpec] is the abstract store.
      [Backends] is [ip-storage/src/postgres].
    - [Revision], [Typed], [Contract], [Access], [Ledger], [Routes], [Owned]: facts about the
      stores, alone and with the verifier.
    - [Publication], [Cluster], [Nodes]: what is published, as a class; [RedisCache] of
      [ip-cache/src/cluster.rs] with its scripts over the class [Redis], discharging [Cache] and
      [Publication]; and verifiers on several nodes.
    - [Manage], [Web]: who calls the management api ([src/src/manage.rs], [auth.rs],
      [cookie.rs]), and the programs its endpoints are.  [Front] and [TenantRoutes],
      [MemberRoutes], [UserRoutes], [GrantRoutes], [RouteRoutes], [LimitRoutes], [PluginRoutes],
      [UsageRoutes], [KeyRoutes]: the handlers of [src/src/routes].  [Admin]: [src/src/admin.rs].
    - [Feed], [Follow], [Startup], [Open]: [src/src/rules.rs], the part of [AppState::open]
      that puts the first rules in force, [src/src/usage.rs], and the whole of [AppState::open].
    - [Caller], [Policy], [Governed], [Keys], [Confined]: facts about the management api.

    ** How code becomes definitions

    Pure functions are functions; a struct is a record and an enum an inductive type with the
    source's constructors (renamed where two files share a name).  Fallible code returns
    [result]; an [unreachable!] or an index out of range is [None], and theorems show it does
    not happen.  Code that changes shared state threads that state; a reading of a clock, a
    random draw and the order of a [HashMap] are arguments.  Integers are [Z] with the width
    written out ([sat_add], [wrap64], [try_unsigned]); a revision in the database is a number
    of any size, and its reading is checked.  Crates outside the repository are classes with
    their documented laws ([Crypto], [Sled], [Redis], [Chrono], [Argon2], [TokenCodec],
    [HeaderText], [HeaderLines], [Json], [HttpLib], [SnapshotCodec], [Wasmtime], [UrlLib],
    [Toml], [Syn], [SynText], [CharCase]), each with a concrete instance the witnesses run on, [Toml] apart, of which nothing
    is assumed.  [Engine] holds what differs between sqlite and postgres.

    A statement of the database is one step, and so is a whole transaction; texts are ordered
    by their bytes.  Store calls of any number of connections interleave statement by statement
    ([store_sound], [same_revision_same_rules], [published_current], [startup_current]); of the
    management api, [Policy] and [Governed] speak of requests that follow one another, with any
    statement failing, and what a race can do is shown on concrete interleavings.

    Loops that are not structural take fuel.  [Sled.evict_loop] needs one more than the
    entries held, which [put_within_limit] assumes of its fuel and then proves the loop ends;
    the loops that retry a compare and swap need one turn when calls follow one another
    ([CacheTrait], [SledCounters]), and their races are the step relations.  [Sse.scan] and
    [Sse.forward_loop] are given the length of the buffer, and [scan_enough] and
    [forward_enough] show that no more changes anything.  [Host.utf8_chars] takes the number of
    bytes, and [Typestate.parse_terminated] and [parse_steps] the number of tokens, each turn
    reading one at least; [workflow_read_back] shows that is enough for every workflow.

    ** What the theorems show

    - Who a request is from: [verify_sound], [replay_refused], [cluster_replay_refused],
      [claim_once], [nonce_isolated], [access_lost], [session_authentic], [session_roundtrip],
      [ended_stays_ended], [lockout].
    - What it may do: [allows_spec], [revoke_spec], [grant_row_roundtrip].
    - What it may spend: [admit_exact], [admit_sound], [rate_admits_allowance],
      [spend_counts], [narrowest_decides], [counter_keys_distinct], [periods_tile],
      [counts_add], [seeds_agree].
    - Where it goes: [validate_spec], [upstream_answers], [resolve_spec], [config_wins],
      [reserved_refused], [dispatch_resolved], [split_authority_roundtrip], [rewrite_spec], and
      for the dispatcher [dispatch_never_stuck], [in_flight_exact], [round_robin_fair],
      [ratio_exact], [lightest_least], [latency_between].
    - What runs over it: [chains_exact], [rule_row_roundtrip], [chunking_irrelevant],
      [stream_passthrough], [error_event_framed], [loaded_vetted], [run_confined],
      [unpack_exact], [header_block_roundtrip], [log_line_capped].
    - What it is answered from: [put_within_limit], [put_then_get], [claim_exclusive],
      [publish_spec], [publication_forward], [response_kept], [response_key_isolates].
    - The whole of it: [unauthorized_untouched], [refused_goes_no_further], [repeat_answered],
      [handle_answers], [in_flight_restored], [proxied_proved], and of the record it leaves
      [one_record], [recorded_once], [measured_largest], [settled_returns].
    - What is stored: [store_sound], [store_atomic], [identity_refines], [backends_agree],
      [every_row_reads], [route_roundtrip], [routes_gathered], [rules_owned], [disown_spec],
      [usage_recorded], [pages_tile], [sweep_exact]; and of the macro its transactions are
      written with [workflow_read_back], [order_enforced], [run_in_order].
    - Who may change it: [caller_established], [login_opens_session], [logout_closes_session],
      [management_permitted], [management_well_run], [usage_confined], [chain_is_own],
      [user_key_shown], [tenant_key_shown].
    - How the nodes agree on the rules: [same_revision_same_rules], [published_current],
      [heal_catches_up], [reload_serves_storage], [node_converges], [startup_current],
      [following_keeps_up], [jitter_within], [waits_double].
    - How a node opens: [opened_as_configured], [unbuilt_refused], [startup_current].

    Some lemmas record behaviour that departs from what the code means to do or says:
    [claims_undercounted] and [put_spins] of [Sled], [spend_forgets_rows] of [Limiter],
    [no_store_case_kept] of [RespCache], [whole_seconds_zero] of [Cache],
    [split_answer_unmeasured] of [Measure], [ipv6_target_refused] of [Gate],
    [query_shares_answer] of [Flow], [trailing_slash_displaces] of [Config],
    [log_import_loads] of [Host], [grant_lands_on_another], [overlapping_rule_unowned] and
    [deleted_tenant_leaves_wasm] of [Owned], [limit_keeps_first_date] of [Ledger],
    [grant_outlives_detach] of [Governed], [change_before_following_missed] and
    [lost_announcement_missed] of [Follow], [workflows_collide] and [input_shadowed] of
    [Typestate].

    ** What is not modelled, and what comes next

    The transport (hyper, tls), sled, redis, wasm and the sql engines themselves, toml and
    serde, the axum router, the pool and the epoch clock of the wasm host, timers, telemetry,
    the command line and process start-up are left out: they are I/O or other people's code.  One request runs through [handle] at a time: requests that
    interleave are covered where they meet, by the step relations of [Dispatch], [Sled] and
    [Recorder].
    Next in line: the management api's requests interleaved in general, and [telemetry.rs]'s
    spans. *)
From stdpp Require Export strings base tactics option list list_numbers numbers gmap sorting.
From Stdlib Require Export ZArith Lia.
From Stdlib Require Import Ascii Eqdep_dec.

#[global] Open Scope Z_scope.
#[global] Set Default Goal Selector "!".
#[global] Set Warnings "-clear-no-such-hyp".

(** * Results: fallible code *)

(** A Rust [Result<A, E>]; the error type comes first so that [result E] is a monad. *)
Inductive result (E A : Type) : Type :=
  | Ok (a : A)
  | Err (e : E).
Arguments Ok {E A} _.
Arguments Err {E A} _.

#[export] Instance result_ret E : MRet (result E) := λ A a, Ok a.
#[export] Instance result_bind E : MBind (result E) := λ A B f m,
  match m with Ok a => f a | Err e => Err e end.
#[export] Instance result_fmap E : FMap (result E) := λ A B f m,
  match m with Ok a => Ok (f a) | Err e => Err e end.

#[export] Instance result_eq_dec E A `{!EqDecision E, !EqDecision A} :
  EqDecision (result E A).
Proof. solve_decision. Defined.

Definition is_ok {E A} (m : result E A) : bool :=
  match m with Ok _ => true | Err _ => false end.

(** [Result::ok]. *)
Definition ok {E A} (m : result E A) : option A :=
  match m with Ok a => Some a | Err _ => None end.

(** [Result::map_err], which is also what [?] does through [From]. *)
Definition map_err {E F A} (f : E → F) (m : result E A) : result F A :=
  match m with Ok a => Ok a | Err e => Err (f e) end.

(** [Option::ok_or]. *)
Definition ok_or {E A} (e : E) (o : option A) : result E A :=
  match o with Some a => Ok a | None => Err e end.

(** [Option::transpose] of an optional result. *)
Definition transpose {E A} (o : option (result E A)) : result E (option A) :=
  match o with
  | Some (Ok a) => Ok (Some a)
  | Some (Err e) => Err e
  | None => Ok None
  end.

(** Collecting an iterator of results stops at the first error. *)
Fixpoint try_map {E A B} (f : A → result E B) (l : list A) : result E (list B) :=
  match l with
  | [] => Ok []
  | x :: l => y ← f x; ys ← try_map f l; Ok (y :: ys)
  end.

#[export] Instance Ok_inj E A : Inj (=) (=) (@Ok E A).
Proof. by intros a b [= ->]. Qed.

Lemma bind_ok {E A B} (m : result E A) (f : A → result E B) b :
  (m ≫= f) = Ok b ↔ ∃ a, m = Ok a ∧ f a = Ok b.
Proof. destruct m; cbn; naive_solver. Qed.

Lemma bind_err {E A B} (m : result E A) (f : A → result E B) e :
  (m ≫= f) = Err e ↔ m = Err e ∨ ∃ a, m = Ok a ∧ f a = Err e.
Proof. destruct m; cbn; naive_solver. Qed.

Lemma map_err_ok {E F A} (f : E → F) (m : result E A) a :
  map_err f m = Ok a ↔ m = Ok a.
Proof. destruct m; cbn; naive_solver. Qed.

Lemma ok_or_ok {E A} (e : E) (o : option A) a : ok_or e o = Ok a ↔ o = Some a.
Proof. destruct o; cbn; naive_solver. Qed.

Lemma ok_Some {E A} (m : result E A) a : ok m = Some a ↔ m = Ok a.
Proof. destruct m; cbn; naive_solver. Qed.

Lemma is_ok_true {E A} (m : result E A) : is_ok m = true ↔ ∃ a, m = Ok a.
Proof. destruct m; cbn; naive_solver. Qed.

Lemma try_map_ok {E A B} (f : A → result E B) l ys :
  try_map f l = Ok ys ↔ Forall2 (λ x y, f x = Ok y) l ys.
Proof.
  revert ys. induction l as [|x l IH]; intros ys; cbn.
  - split; [by intros [= <-]|]. by inversion 1.
  - rewrite bind_ok. setoid_rewrite bind_ok. split.
    + intros (y & Hy & ys' & Hys & [= <-]). constructor; [done|]. by apply IH.
    + inversion 1; subst. eexists; split; [done|]. eexists; split; [by apply IH|done].
Qed.

(** * Values that only exist once checked *)

(** A Rust newtype whose only constructors run a validation: the value together with the
    fact that the validation accepted it.  The proof component is an equality of booleans,
    so two values are equal exactly when what they wrap is. *)
Section refined.
Context {V E : Type} (check : V → result E unit).

Record refined : Type := MkRefined {
  val : V;
  val_ok : is_ok (check val) = true
}.

Definition refine_as (v : V) (r : result E unit) : check v = r → result E refined :=
  match r with
  | Ok _ => λ H, Ok (MkRefined v (f_equal is_ok H))
  | Err e => λ _, Err e
  end.

(** Validate and wrap. *)
Definition refine (v : V) : result E refined := refine_as v (check v) eq_refl.

Lemma refined_eq (x y : refined) : val x = val y → x = y.
Proof.
  destruct x as [v H], y as [w H']. cbn. intros ->. f_equal.
  apply UIP_dec. apply Bool.bool_dec.
Qed.

#[export] Instance val_inj : Inj (=) (=) val.
Proof. intros x y. apply refined_eq. Qed.

Lemma refine_as_ok v r H x : refine_as v r H = Ok x ↔ r = Ok tt ∧ val x = v.
Proof.
  destruct r as [[]|e]; cbn; split.
  - by intros [= <-].
  - intros [_ Hx]. f_equal. by apply refined_eq.
  - done.
  - by intros [? _].
Qed.

Lemma refine_ok v x : refine v = Ok x ↔ check v = Ok tt ∧ val x = v.
Proof. apply refine_as_ok. Qed.

Lemma refine_err v e : refine v = Err e ↔ check v = Err e.
Proof.
  unfold refine. generalize (eq_refl (check v)).
  generalize (check v) at 2 3 4. intros [[]|e'] H; cbn; naive_solver.
Qed.

Lemma val_checked (x : refined) : check (val x) = Ok tt.
Proof. destruct x as [v H]. cbn. destruct (check v) as [[]|]; done. Qed.

Lemma refine_val (x : refined) : refine (val x) = Ok x.
Proof. apply refine_ok. split; [apply val_checked|done]. Qed.

#[export] Instance refined_eq_dec `{!EqDecision V} : EqDecision refined.
Proof.
  intros x y. destruct (decide (val x = val y)) as [H|H].
  - left. by apply refined_eq.
  - right. by intros ->.
Defined.

#[export, program] Instance refined_countable `{Countable V} : Countable refined :=
  {| encode x := encode (val x);
     decode p := v ← decode p; ok (refine v) |}.
Next Obligation.
  intros ? ? x. cbn. rewrite decode_encode. cbn. by rewrite refine_val.
Qed.
End refined.
Arguments val {V E check} _.
Arguments MkRefined {V E check} _ _.

(** * Machine integers *)

(** Rust's fixed-width integers are kept as [Z] with their bounds written out. *)
Definition u8_max : Z := 2 ^ 8 - 1.
Definition u16_max : Z := 2 ^ 16 - 1.
Definition u32_max : Z := 2 ^ 32 - 1.
Definition u64_max : Z := 2 ^ 64 - 1.
Definition i64_max : Z := 2 ^ 63 - 1.
Definition i64_min : Z := - 2 ^ 63.

Definition is_u8 (z : Z) : Prop := 0 ≤ z ≤ u8_max.
Definition is_u16 (z : Z) : Prop := 0 ≤ z ≤ u16_max.
Definition is_u32 (z : Z) : Prop := 0 ≤ z ≤ u32_max.
Definition is_u64 (z : Z) : Prop := 0 ≤ z ≤ u64_max.
Definition is_i64 (z : Z) : Prop := i64_min ≤ z ≤ i64_max.

(** [u16::try_from] and its siblings: the value, or nothing outside the range. *)
Definition try_unsigned (max z : Z) : option Z :=
  if (0 <=? z) && (z <=? max) then Some z else None.

(** Saturating arithmetic on an unsigned type bounded by [u64::MAX]. *)
Definition sat_add (a b : Z) : Z := Z.min (a + b) u64_max.
Definition sat_sub (a b : Z) : Z := Z.max (a - b) 0.

(** Wrapping arithmetic at 64 bits, which is what [fetch_add] does. *)
Definition wrap64 (z : Z) : Z := z mod 2 ^ 64.

(** [u128::div_ceil] and [u64::div_ceil] on unsigned operands. *)
Definition div_ceil (a b : Z) : Z := (a + b - 1) / b.

Ltac unfold_bounds :=
  unfold is_u8, is_u16, is_u32, is_u64, is_i64, u8_max, u16_max, u32_max, u64_max,
    i64_max, i64_min in *.

Lemma try_unsigned_Some max z z' :
  try_unsigned max z = Some z' ↔ z' = z ∧ 0 ≤ z ≤ max.
Proof.
  unfold try_unsigned. destruct (0 <=? z) eqn:?, (z <=? max) eqn:?; cbn; naive_solver lia.
Qed.

Lemma default_try_unsigned max z :
  0 ≤ max → 0 ≤ default max (try_unsigned max z) ≤ max.
Proof. intros Hm. unfold try_unsigned. destruct (_ && _) eqn:Hb; cbn; lia. Qed.

(** What a value held as a [u32] satisfies. *)
Definition check_u32 (z : Z) : result unit unit :=
  match try_unsigned u32_max z with Some _ => Ok tt | None => Err tt end.

Lemma check_u32_ok z : check_u32 z = Ok tt ↔ is_u32 z.
Proof.
  unfold check_u32, try_unsigned, is_u32.
  destruct (0 <=? z) eqn:?, (z <=? u32_max) eqn:?; cbn; naive_solver lia.
Qed.

Lemma sat_sub_exact a b : b ≤ a → sat_sub a b = a - b.
Proof. unfold sat_sub. lia. Qed.

Lemma sat_add_exact a b : a + b ≤ u64_max → sat_add a b = a + b.
Proof. unfold sat_add. lia. Qed.

(** * Lists *)

(** Rust's [slice::sort_by] is stable; so is this insertion sort, which keeps an element in
    front of the later ones it may stand before. *)
Section stable_sort.
Context {A : Type} (le : A → A → bool).

Fixpoint insert_by (x : A) (l : list A) : list A :=
  match l with
  | [] => [x]
  | y :: l' => if le x y then x :: y :: l' else y :: insert_by x l'
  end.

Fixpoint sort_by (l : list A) : list A :=
  match l with
  | [] => []
  | x :: l => insert_by x (sort_by l)
  end.

Lemma insert_by_perm x l : insert_by x l ≡ₚ x :: l.
Proof.
  induction l as [|y l IH]; cbn; [done|].
  destruct (le x y); [done|]. rewrite IH. apply Permutation_swap.
Qed.

Lemma sort_by_perm l : sort_by l ≡ₚ l.
Proof. induction l as [|x l IH]; cbn; [done|]. by rewrite insert_by_perm, IH. Qed.

Lemma elem_of_sort_by l x : x ∈ sort_by l ↔ x ∈ l.
Proof. by rewrite sort_by_perm. Qed.

Section ordered.
Context (le_trans : ∀ x y z, le x y = true → le y z = true → le x z = true).
Context (le_total : ∀ x y, le x y = true ∨ le y x = true).

Lemma insert_by_sorted x l :
  StronglySorted (λ a b, le a b = true) l →
  StronglySorted (λ a b, le a b = true) (insert_by x l).
Proof using le_trans le_total.
  induction 1 as [|y l Hl IH Hy]; cbn.
  { repeat constructor. }
  destruct (le x y) eqn:Hxy.
  - constructor; [by constructor|]. constructor; [done|].
    rewrite Forall_forall in *. intros z Hz. eauto.
  - constructor; [done|]. rewrite insert_by_perm. constructor; [|done].
    destruct (le_total x y); congruence.
Qed.

Lemma sort_by_sorted l : StronglySorted (λ a b, le a b = true) (sort_by l).
Proof using le_trans le_total.
  induction l as [|x l IH]; cbn; [constructor|]. by apply insert_by_sorted.
Qed.
End ordered.

Lemma insert_by_filter (P : A → Prop) `{∀ x, Decision (P x)} x l :
  (∀ y, P x → P y → le x y = true) →
  filter P (insert_by x l) = filter P (x :: l).
Proof.
  intros HP. induction l as [|y l IH]; cbn; [done|].
  destruct (le x y) eqn:Hxy; [done|].
  rewrite !filter_cons in *. rewrite IH.
  destruct (decide (P x)); [|done].
  destruct (decide (P y)); [|done].
  rewrite HP in Hxy; done.
Qed.

(** Stability: elements the order does not tell apart keep their relative order. *)
Lemma sort_by_filter (P : A → Prop) `{∀ x, Decision (P x)} l :
  (∀ x y, P x → P y → le x y = true) → filter P (sort_by l) = filter P l.
Proof.
  intros HP. induction l as [|x l IH]; cbn; [done|].
  rewrite insert_by_filter by eauto. rewrite !filter_cons, IH. done.
Qed.
End stable_sort.

(** The order of byte strings. *)
Fixpoint lex_leb (a b : list Z) : bool :=
  match a, b with
  | [], _ => true
  | _ :: _, [] => false
  | x :: a, y :: b => if x <? y then true else if y <? x then false else lex_leb a b
  end.

Lemma lex_leb_total a b : lex_leb a b = true ∨ lex_leb b a = true.
Proof.
  revert b. induction a as [|x a IH]; intros [|y b]; cbn; auto.
  destruct (x <? y) eqn:?, (y <? x) eqn:?; auto.
Qed.

Lemma lex_leb_trans a b c : lex_leb a b = true → lex_leb b c = true → lex_leb a c = true.
Proof.
  revert b c. induction a as [|x a IH]; intros [|y b] [|z c]; cbn; try done.
  destruct (x <? y) eqn:?, (y <? x) eqn:?, (y <? z) eqn:?, (z <? y) eqn:?, (x <? z) eqn:?,
    (z <? x) eqn:?; try done; try lia. apply IH.
Qed.

(** [Iterator::find] on a list of candidates returns the first that satisfies the test. *)
Lemma find_Some_app {A} (p : A → bool) l x :
  List.find p l = Some x ↔
  p x = true ∧ ∃ l1 l2, l = l1 ++ x :: l2 ∧ Forall (λ y, p y = false) l1.
Proof.
  split.
  - induction l as [|y l IH]; cbn; [done|]. destruct (p y) eqn:Hy.
    + intros [= ->]. split; [done|]. by exists [], l.
    + intros (Hx & l1 & l2 & -> & Hl1)%IH. split; [done|].
      exists (y :: l1), l2. split; [done|]. by constructor.
  - intros (Hx & l1 & l2 & -> & Hl1). induction Hl1 as [|y l1 Hy _ IH]; cbn.
    + by rewrite Hx.
    + by rewrite Hy.
Qed.

Lemma find_None_Forall {A} (p : A → bool) l :
  List.find p l = None ↔ Forall (λ y, p y = false) l.
Proof.
  induction l as [|y l IH]; cbn; [naive_solver|]. destruct (p y) eqn:Hy.
  - split; [done|]. inversion 1. congruence.
  - rewrite IH. split; [by constructor|]. by inversion 1.
Qed.

Lemma find_elem_of {A} (p : A → bool) l x : List.find p l = Some x → x ∈ l ∧ p x = true.
Proof. intros [Hx Hp]%List.find_some. by rewrite list_elem_of_In. Qed.

(** Sorting a mapped list by an order the map respects. *)
Lemma sort_by_map {A B} (f : A → B) (le : A → A → bool) (le' : B → B → bool) l :
  (∀ x y, le' (f x) (f y) = le x y) → sort_by le' (map f l) = map f (sort_by le l).
Proof.
  intros Hf. induction l as [|x l IH]; cbn; [done|]. rewrite IH.
  generalize (sort_by le l). intros k. induction k as [|y k IHk]; cbn; [done|].
  rewrite Hf. destruct (le x y); [done|]. cbn. by rewrite IHk.
Qed.

(** The first match of a list sorted by a key, largest first, is the first of the matches
    whose key is largest. *)
Section find_sorted.
Context {A : Type} (key : A → Z) (p : A → bool).
Let le (x y : A) : bool := key y <=? key x.

Lemma le_key_sorted l : StronglySorted (λ x y, le x y = true) (sort_by le l).
Proof using. apply sort_by_sorted; unfold le; intros; lia. Qed.

Lemma find_insert_by x s :
  StronglySorted (λ x y, le x y = true) s →
  List.find p (insert_by le x s) =
  if p x then
    match List.find p s with
    | Some b => if key b <=? key x then Some x else Some b
    | None => Some x
    end
  else List.find p s.
Proof using.
  induction 1 as [|y s Hs IH Hy]; cbn; [done|].
  unfold le at 1. destruct (key y <=? key x) eqn:Hxy; cbn.
  - destruct (p x); [|done]. destruct (p y); [by rewrite Hxy|].
    destruct (List.find p s) as [b|] eqn:Hb; [|done].
    apply find_elem_of in Hb as [Hb _]. rewrite Forall_forall in Hy.
    specialize (Hy b Hb). unfold le in Hy. by replace (key b <=? key x) with true by lia.
  - destruct (p y); [|done]. destruct (p x); [|done]. by rewrite Hxy.
Qed.

Lemma find_sort_by l x :
  List.find p (sort_by le l) = Some x ↔
  ∃ l1 l2, l = l1 ++ x :: l2 ∧ p x = true ∧
    (∀ y, y ∈ l1 → p y = true → key y < key x) ∧
    (∀ y, y ∈ l2 → p y = true → key y ≤ key x).
Proof using.
  revert x. induction l as [|z l IH]; intros x; cbn.
  { split; [done|]. intros ([|] & ? & [=] & _). }
  rewrite find_insert_by by apply le_key_sorted. split.
  - assert (List.find p (sort_by le l) = Some x → (p z = true → key z < key x) →
      ∃ l1 l2, z :: l = l1 ++ x :: l2 ∧ p x = true ∧
        (∀ y, y ∈ l1 → p y = true → key y < key x) ∧
        (∀ y, y ∈ l2 → p y = true → key y ≤ key x)) as Hlater.
    { intros (l1 & l2 & -> & ? & H1 & H2)%IH Hz. exists (z :: l1), l2.
      split; [done|]. split; [done|]. split; [|done].
      intros y [->|Hy]%elem_of_cons; auto. }
    destruct (p z) eqn:Hz; [|by intros; apply Hlater].
    destruct (List.find p (sort_by le l)) as [b|] eqn:Hb.
    + destruct (key b <=? key z) eqn:Hbz; [|intros [= ->]; apply Hlater; [done|lia]].
      intros [= <-]. exists [], l. split; [done|]. split; [done|]. split; [set_solver|].
      destruct (proj1 (IH b) eq_refl) as (l1 & l2 & -> & ? & H1 & H2).
      intros y [Hy|[->|Hy]%elem_of_cons]%elem_of_app Hpy;
        [specialize (H1 y Hy Hpy)|..|specialize (H2 y Hy Hpy)]; lia.
    + intros [= <-]. exists [], l. split; [done|]. split; [done|]. split; [set_solver|].
      apply find_None_Forall in Hb. rewrite sort_by_perm, Forall_forall in Hb.
      intros y Hy Hpy. rewrite (Hb y Hy) in Hpy. done.
  - intros ([|z' l1] & l2 & [= <- ->] & Hx & H1 & H2).
    + rewrite Hx. destruct (List.find p (sort_by le l2)) as [b|] eqn:Hb; [|done].
      apply find_elem_of in Hb as [Hb Hpb]. rewrite elem_of_sort_by in Hb.
      specialize (H2 b Hb Hpb). by replace (key b <=? key z) with true by lia.
    + assert (List.find p (sort_by le (l1 ++ x :: l2)) = Some x) as ->.
      { apply IH. exists l1, l2. split; [done|]. split; [done|]. split; [set_solver|done]. }
      destruct (p z) eqn:Hz; [|done].
      assert (key z < key x) by (apply H1; [set_solver|done]).
      by replace (key x <=? key z) with false by lia.
Qed.
End find_sorted.

Lemma forallb_Forall_true {A} (p : A → bool) l :
  forallb p l = true ↔ Forall (λ x, p x = true) l.
Proof. rewrite List.forallb_forall, Forall_forall. setoid_rewrite list_elem_of_In. done. Qed.

Lemma filter_all {A} (P : A → Prop) `{∀ x, Decision (P x)} l :
  Forall P l → filter P l = l.
Proof. induction 1; [done|]. rewrite filter_cons, decide_True by done. by f_equal. Qed.

Lemma filter_none {A} (P : A → Prop) `{∀ x, Decision (P x)} l :
  Forall (λ x, ¬ P x) l → filter P l = [].
Proof. induction 1; [done|]. by rewrite filter_cons, decide_False by done. Qed.

Lemma filter_ext_in {A} (P Q : A → Prop) `{∀ x, Decision (P x), ∀ x, Decision (Q x)}
    (l : list A) :
  (∀ x, x ∈ l → P x ↔ Q x) → filter P l = filter Q l.
Proof.
  induction l as [|x l IH]; intros HPQ; [done|]. rewrite !filter_cons, IH by set_solver.
  specialize (HPQ x). repeat case_decide; set_solver.
Qed.

(** A weaker order between the elements of a sorted list. *)
Lemma sorted_weaken {A} (P Q : A → A → Prop) (l : list A) :
  (∀ a b, a ∈ l → b ∈ l → P a b → Q a b) → StronglySorted P l → StronglySorted Q l.
Proof.
  intros HPQ Hl. induction Hl as [|a l _ IH Ha]; constructor.
  - apply IH. intros x y Hx Hy. by apply HPQ; apply list_elem_of_further.
  - apply Forall_forall. intros b Hb. apply HPQ; [apply list_elem_of_here|by apply list_elem_of_further|].
    by apply (proj1 (Forall_forall _ _) Ha).
Qed.

Lemma filter_split_inv {A} (P : A → Prop) `{∀ x, Decision (P x)} (l l1 l2 : list A) x :
  filter P l = l1 ++ x :: l2 →
  ∃ k1 k2, l = k1 ++ x :: k2 ∧ filter P k1 = l1 ∧ filter P k2 = l2 ∧ P x.
Proof.
  revert l1. induction l as [|y l IH]; intros l1 Hl.
  { by destruct l1. }
  rewrite filter_cons in Hl. case_decide as Hy.
  - destruct l1 as [|z l1]; injection Hl as -> Hl.
    + by exists [], l.
    + destruct (IH _ Hl) as (k1 & k2 & -> & <- & <- & Hx). exists (z :: k1), k2.
      by rewrite filter_cons, decide_True.
  - destruct (IH _ Hl) as (k1 & k2 & -> & <- & <- & Hx). exists (y :: k1), k2.
    by rewrite filter_cons, decide_False.
Qed.

(** Sum of a list of integers. *)
Fixpoint zsum (l : list Z) : Z :=
  match l with [] => 0 | x :: l => x + zsum l end.

Lemma zsum_app l k : zsum (l ++ k) = zsum l + zsum k.
Proof. induction l; cbn; lia. Qed.

#[export] Instance zsum_perm : Proper ((≡ₚ) ==> (=)) zsum.
Proof. induction 1; cbn; lia. Qed.

Lemma zsum_nonneg l : Forall (λ x, 0 ≤ x) l → 0 ≤ zsum l.
Proof. induction 1; cbn; lia. Qed.

Lemma zsum_elem l x : Forall (λ x, 0 ≤ x) l → x ∈ l → x ≤ zsum l.
Proof.
  intros H Hx. apply list_elem_of_split in Hx as (l1 & l2 & ->).
  apply Forall_app in H as [H1 H2]. inversion H2; subst. rewrite zsum_app. cbn.
  pose proof (zsum_nonneg l1 H1). pose proof (zsum_nonneg l2). naive_solver lia.
Qed.

(** * Text literals *)

(** A Rust [str] is a sequence of Unicode scalar values; a [char] is one of them. *)
Abbreviation char := Z (only parsing).
Abbreviation str := (list Z) (only parsing).

(** An ascii literal as the characters it holds. *)
Definition lit (s : String.string) : list Z :=
  map (λ c, Z.of_N (N_of_ascii c)) (String.list_ascii_of_string s).

Definition ch (s : String.string) : Z := default 0 (head (lit s)).

Declare Scope prism_scope.
Delimit Scope prism_scope with prism.
Notation "# s" := (lit s%string) (at level 8, s at level 0, format "# s") : prism_scope.
#[global] Open Scope prism_scope.

(** * Automation *)

Create HintDb prism discriminated.
#[export] Hint Resolve zsum_nonneg : prism.

(** Takes a successful chain of fallible steps apart, one bind at a time. *)
Ltac inv_ok :=
  repeat match goal with
  | H : (_ ≫= _) = Ok _ |- _ => apply bind_ok in H as (? & ? & H)
  | H : map_err _ _ = Ok _ |- _ => apply map_err_ok in H
  | H : ok_or _ _ = Ok _ |- _ => apply ok_or_ok in H
  | H : ok _ = Some _ |- _ => apply ok_Some in H
  | H : Ok _ = Ok _ |- _ => injection H as H; try subst
  | H : Err _ = Ok _ |- _ => discriminate H
  | H : Ok _ = Err _ |- _ => discriminate H
  | H : refine _ _ = Ok _ |- _ => apply refine_ok in H as [? H]
  end.

(** Decides a closed proposition by running its decision procedure; the types involved are
    never normalised. *)
Ltac by_computation := refine (bool_decide_eq_true_1 _ _); vm_compute; reflexivity.

(** Splits on the condition of every [if] and [match] in the goal or a hypothesis. *)
Ltac case_if :=
  match goal with
  | |- context [if ?b then _ else _] => destruct b eqn:?
  | H : context [if ?b then _ else _] |- _ => destruct b eqn:?
  end.
