(* ===== verification/Text.v ===== *)
(** * Text: what the program uses of Rust's [char], [str] and [std::net]

    A [str] is the list of its Unicode scalar values.  Byte lengths go through the UTF-8
    width of each character, so [len] is what [str::len] counts.  Everything here is the
    standard library's; nothing of it is the program's own code. *)
From S2P Require Import Prelude.

(** ** Characters *)

Definition in_range (lo hi c : Z) : bool := (lo <=? c) && (c <=? hi).

Definition is_ascii_digit (c : char) : bool := in_range 48 57 c.
Definition is_ascii_upper (c : char) : bool := in_range 65 90 c.
Definition is_ascii_lower (c : char) : bool := in_range 97 122 c.
Definition is_ascii_alphanumeric (c : char) : bool :=
  is_ascii_digit c || is_ascii_upper c || is_ascii_lower c.

(** [char::is_ascii_graphic]: [!] to [~]. *)
Definition is_ascii_graphic (c : char) : bool := in_range 33 126 c.

(** The Unicode [White_Space] property. *)
Definition is_whitespace (c : char) : bool :=
  in_range 9 13 c || (c =? 32) || (c =? 133) || (c =? 160) || (c =? 5760)
  || in_range 8192 8202 c || (c =? 8232) || (c =? 8233) || (c =? 8239)
  || (c =? 8287) || (c =? 12288).

(** The Unicode general category [Cc]. *)
Definition is_control (c : char) : bool := in_range 0 31 c || in_range 127 159 c.

(** [char::to_ascii_lowercase]. *)
Definition lower (c : char) : char := if is_ascii_upper c then c + 32 else c.
Definition to_ascii_lowercase (s : str) : str := map lower s.

(** ** Bytes *)

(** Bytes a character takes in UTF-8. *)
Definition utf8_width (c : char) : Z :=
  if c <? 128 then 1 else if c <? 2048 then 2 else if c <? 65536 then 3 else 4.

(** [str::len]. *)
Definition len (s : str) : Z := zsum (map utf8_width s).

Definition utf8_char (c : char) : list Z :=
  if c <? 128 then [c]
  else if c <? 2048 then [192 + c / 64; 128 + c mod 64]
  else if c <? 65536 then [224 + c / 4096; 128 + (c / 64) mod 64; 128 + c mod 64]
  else [240 + c / 262144; 128 + (c / 4096) mod 64; 128 + (c / 64) mod 64; 128 + c mod 64].

(** [str::as_bytes]. *)
Definition as_bytes (s : str) : list Z := s ≫= utf8_char.

(** [u64::to_be_bytes] and its inverse, for any width. *)
Fixpoint be_bytes (n : nat) (z : Z) : list Z :=
  match n with
  | O => []
  | S n => (z / 256 ^ Z.of_nat n) mod 256 :: be_bytes n z
  end.

Definition of_be_bytes (l : list Z) : Z := fold_left (λ acc b, acc * 256 + b) l 0.

(** ** Searching and splitting *)

Fixpoint strip_prefix (p s : str) : option str :=
  match p, s with
  | [], _ => Some s
  | _ :: _, [] => None
  | c :: p, d :: s => if c =? d then strip_prefix p s else None
  end.

Definition starts_with (p s : str) : bool :=
  match strip_prefix p s with Some _ => true | None => false end.

Definition strip_suffix (p s : str) : option str :=
  reverse <$> strip_prefix (reverse p) (reverse s).

Definition ends_with (p s : str) : bool :=
  match strip_suffix p s with Some _ => true | None => false end.

(** [str::split] on characters satisfying a test: always at least one piece. *)
Fixpoint split_on (p : char → bool) (s : str) : list str :=
  match s with
  | [] => [[]]
  | c :: s =>
      if p c then [] :: split_on p s
      else match split_on p s with
           | [] => [[c]]
           | w :: ws => (c :: w) :: ws
           end
  end.

(** [str::split_once] and [str::rsplit_once] on one character. *)
Fixpoint split_once (d : char) (s : str) : option (str * str) :=
  match s with
  | [] => None
  | c :: s =>
      if c =? d then Some ([], s)
      else '(a, b) ← split_once d s; Some (c :: a, b)
  end.

Definition rsplit_once (d : char) (s : str) : option (str * str) :=
  '(a, b) ← split_once d (reverse s); Some (reverse b, reverse a).

Definition contains_char (d : char) (s : str) : bool := existsb (Z.eqb d) s.

Fixpoint drop_while (p : char → bool) (s : str) : str :=
  match s with
  | [] => []
  | c :: s' => if p c then drop_while p s' else s
  end.

Definition trim_by (p : char → bool) (s : str) : str :=
  reverse (drop_while p (reverse (drop_while p s))).

(** [str::trim]. *)
Definition trim (s : str) : str := trim_by is_whitespace s.

(** [[u8]::trim_ascii]: ascii whitespace only, vertical tab excluded. *)
Definition is_ascii_whitespace (c : Z) : bool :=
  (c =? 9) || (c =? 10) || (c =? 12) || (c =? 13) || (c =? 32).
Definition trim_ascii (s : list Z) : list Z := trim_by is_ascii_whitespace s.

Definition eq_ignore_ascii_case (a b : str) : bool :=
  bool_decide (to_ascii_lowercase a = to_ascii_lowercase b).

(** ** Numbers as text *)

(** Decimal digits of a natural number, most significant first, in front of [acc]. *)
Fixpoint push_digits (fuel : nat) (z : Z) (acc : str) : str :=
  match fuel with
  | O => acc
  | S fuel =>
      if z <? 10 then 48 + z :: acc else push_digits fuel (z / 10) (48 + z mod 10 :: acc)
  end.

Definition dec_abs (z : Z) : str := push_digits (S (Z.to_nat (Z.log2 z))) z [].

(** How an integer is displayed. *)
Definition dec (z : Z) : str := if z <? 0 then 45 :: dec_abs (- z) else dec_abs z.

Fixpoint parse_digits (acc : Z) (s : str) : option Z :=
  match s with
  | [] => Some acc
  | c :: s => if is_ascii_digit c then parse_digits (acc * 10 + (c - 48)) s else None
  end.

(** [str::parse] for an unsigned integer bounded by [max]: an optional [+], at least one
    digit, nothing else, and no value past the bound. *)
Definition parse_unsigned (max : Z) (s : str) : option Z :=
  let digits := match s with c :: s' => if c =? 43 then s' else s | [] => s end in
  match digits with
  | [] => None
  | _ => z ← parse_digits 0 digits; if z <=? max then Some z else None
  end.

(** ** Addresses: [std::net] *)

Inductive IpAddr : Type :=
  | V4 (a b c d : Z)
  | V6 (groups : list Z).

#[export] Instance IpAddr_eq_dec : EqDecision IpAddr.
Proof. solve_decision. Defined.

(** [IpAddr::is_loopback]. *)
Definition is_loopback (ip : IpAddr) : bool :=
  match ip with
  | V4 a _ _ _ => a =? 127
  | V6 groups => bool_decide (groups = [0; 0; 0; 0; 0; 0; 0; 1])
  end.

(** A parser over what is left of the input, which it gives back on success. *)
Definition parser (A : Type) : Type := str → option (A * str).

Definition read_char (c : char) : parser unit := λ s,
  match s with d :: s => if c =? d then Some (tt, s) else None | [] => None end.

Definition digit_of (radix : Z) (c : char) : option Z :=
  if is_ascii_digit c then Some (c - 48)
  else if (radix =? 16) && in_range 97 102 c then Some (c - 87)
  else if (radix =? 16) && in_range 65 70 c then Some (c - 55)
  else None.

(** At most [fuel] digits, and none past the largest value allowed. *)
Fixpoint read_digits (fuel : nat) (radix max acc : Z) (count : nat) (s : str)
    : option (Z * nat * str) :=
  match s with
  | [] => Some (acc, count, [])
  | c :: s' =>
      match digit_of radix c with
      | None => Some (acc, count, s)
      | Some d =>
          match fuel with
          | O => None
          | S fuel =>
              let acc := acc * radix + d in
              if acc <=? max then read_digits fuel radix max acc (S count) s' else None
          end
      end
  end.

Definition read_number (radix max : Z) (digits : nat) (leading_zero : bool) : parser Z :=
  λ s,
  match read_digits digits radix max 0 0 s with
  | Some (z, S n, rest) =>
      if negb leading_zero && bool_decide (head s = Some 48) && (0 <? Z.of_nat n)
      then None else Some (z, rest)
  | _ => None
  end.

Definition read_octet : parser Z := read_number 10 255 3 false.

Definition read_ipv4_addr : parser (Z * Z * Z * Z) := λ s,
  '(a, s) ← read_octet s; '(_, s) ← read_char 46 s;
  '(b, s) ← read_octet s; '(_, s) ← read_char 46 s;
  '(c, s) ← read_octet s; '(_, s) ← read_char 46 s;
  '(d, s) ← read_octet s; Some ((a, b, c, d), s).

(** [read_separator]: a colon in front of every group but the first. *)
Definition after_separator {A} (i : nat) (p : parser A) : parser A := λ s,
  match i with O => p s | S _ => '(_, s) ← read_char 58 s; p s end.

(** Up to [left] groups; the count read, whether an ipv4 address closed them, the rest. *)
Fixpoint read_groups (left i : nat) (acc : list Z) (s : str) : list Z * bool * str :=
  match left with
  | O => (acc, false, s)
  | S left' =>
      let group :=
        match after_separator i (read_number 16 65535 4 true) s with
        | Some (g, s') => read_groups left' (S i) (acc ++ [g]) s'
        | None => (acc, false, s)
        end in
      match left' with
      | O => group
      | S _ =>
          match after_separator i read_ipv4_addr s with
          | Some ((a, b, c, d), s') => (acc ++ [a * 256 + b; c * 256 + d], true, s')
          | None => group
          end
      end
  end.

Definition read_ipv6_addr : parser (list Z) := λ s,
  let '(head, head_ipv4, rest) := read_groups 8 0 [] s in
  if Nat.eqb (length head) 8 then Some (head, rest)
  else if (head_ipv4 : bool) then None
  else
    '(_, s1) ← read_char 58 rest; '(_, s2) ← read_char 58 s1;
    let '(tail, _, s3) := read_groups (8 - (length head + 1)) 0 [] s2 in
    Some (head ++ repeat 0 (8 - length head - length tail) ++ tail, s3).

Definition whole {A} (p : parser A) (s : str) : option A :=
  match p s with Some (a, []) => Some a | _ => None end.

(** [str::parse::<IpAddr>]. *)
Definition parse_ip (s : str) : option IpAddr :=
  match whole read_ipv4_addr s with
  | Some (a, b, c, d) => Some (V4 a b c d)
  | None => V6 <$> whole read_ipv6_addr s
  end.

(** An address a server listens on or a peer connects from.  The address is kept with its
    text, which is what [IpAddr]'s [Display] prints. *)
Record SocketAddr : Type := MkSocketAddr {
  socket_ip : IpAddr;
  socket_ip_text : str;
  socket_text : str;
  socket_port : Z
}.

Example parse_ip_v4 : parse_ip #"192.0.2.1" = Some (V4 192 0 2 1).
Proof. vm_compute. reflexivity. Qed.
Example parse_ip_leading_zero : parse_ip #"192.0.02.1" = None.
Proof. vm_compute. reflexivity. Qed.
Example parse_ip_v6 : parse_ip #"2001:db8::1" = Some (V6 [8193; 3512; 0; 0; 0; 0; 0; 1]).
Proof. vm_compute. reflexivity. Qed.
Example parse_ip_mapped : parse_ip #"::ffff:127.0.0.1" = Some (V6 [0;0;0;0;0;65535;32512;1]).
Proof. vm_compute. reflexivity. Qed.
Example parse_ip_bad : parse_ip #"1::2::3" = None.
Proof. vm_compute. reflexivity. Qed.
Example parse_ip_name : parse_ip #"api.example.com" = None.
Proof. vm_compute. reflexivity. Qed.

(** ** Lemmas *)

Lemma strip_prefix_Some p s r : strip_prefix p s = Some r ↔ s = p ++ r.
Proof.
  revert s. induction p as [|c p IH]; intros [|d s]; cbn; [naive_solver..|].
  destruct (Z.eqb_spec c d) as [->|]; [rewrite IH|]; naive_solver.
Qed.

Lemma strip_prefix_app p r : strip_prefix p (p ++ r) = Some r.
Proof. by apply strip_prefix_Some. Qed.

Lemma starts_with_true p s : starts_with p s = true ↔ ∃ r, s = p ++ r.
Proof.
  unfold starts_with. setoid_rewrite <-strip_prefix_Some.
  destruct (strip_prefix p s); naive_solver.
Qed.

Lemma strip_suffix_Some p s r : strip_suffix p s = Some r ↔ s = r ++ p.
Proof.
  unfold strip_suffix. rewrite fmap_Some. setoid_rewrite strip_prefix_Some. split.
  - intros (x & Hs & ->). rewrite <-(reverse_involutive s), Hs, reverse_app.
    by rewrite reverse_involutive.
  - intros ->. exists (reverse r). by rewrite reverse_app, reverse_involutive.
Qed.

Lemma ends_with_true p s : ends_with p s = true ↔ ∃ r, s = r ++ p.
Proof.
  unfold ends_with. setoid_rewrite <-strip_suffix_Some.
  destruct (strip_suffix p s); naive_solver.
Qed.

Lemma split_once_Some d s a b : split_once d s = Some (a, b) ↔ s = a ++ d :: b ∧ d ∉ a.
Proof.
  revert a b. induction s as [|c s IH]; intros a b; cbn.
  { split; [done|]. intros [H _]. by destruct a. }
  destruct (Z.eqb_spec c d) as [->|Hcd].
  - split.
    + intros [= <- <-]. split; [done|]. set_solver.
    + intros [H Ha]. destruct a as [|x a]; cbn in H; simplify_eq; [done|]. set_solver.
  - rewrite bind_Some. split.
    + intros ([a' b'] & [-> Ha']%IH & [= <- <-]). split; [done|]. set_solver.
    + intros [H Ha]. destruct a as [|x a]; cbn in H; simplify_eq.
      exists (a, b). split; [|done]. apply IH. set_solver.
Qed.

Lemma split_once_None d s : split_once d s = None ↔ d ∉ s.
Proof.
  split.
  - intros H (a & b & -> & Ha)%list_elem_of_split_l.
    rewrite (proj2 (split_once_Some d _ a b)) in H; done.
  - intros Hd. destruct (split_once d s) as [[a b]|] eqn:H; [|done].
    apply split_once_Some in H as [-> _]. set_solver.
Qed.

Lemma rsplit_once_Some d s a b : rsplit_once d s = Some (a, b) ↔ s = a ++ d :: b ∧ d ∉ b.
Proof.
  unfold rsplit_once. rewrite bind_Some. split.
  - intros ([x y] & [Hs Hx]%split_once_Some & [= <- <-]). split.
    + rewrite <-(reverse_involutive s), Hs, reverse_app, reverse_cons, <-app_assoc. done.
    + by rewrite elem_of_reverse.
  - intros [-> Hb]. exists (reverse b, reverse a). split.
    + apply split_once_Some. rewrite reverse_app, reverse_cons, <-app_assoc.
      split; [done|]. by rewrite elem_of_reverse.
    + by rewrite !reverse_involutive.
Qed.

(** Text in front of the first separator, and after it, is determined. *)
Lemma sep_inj (d : Z) a a' b b' :
  d ∉ a → d ∉ a' → a ++ d :: b = a' ++ d :: b' → a = a' ∧ b = b'.
Proof.
  intros Ha Ha' H. assert (split_once d (a ++ d :: b) = Some (a, b)) as H1
    by by apply split_once_Some.
  rewrite H, (proj2 (split_once_Some d _ a' b')) in H1 by done. naive_solver.
Qed.

Lemma sep_inj_r (d : Z) a a' b b' :
  d ∉ b → d ∉ b' → a ++ d :: b = a' ++ d :: b' → a = a' ∧ b = b'.
Proof.
  intros Ha Ha' H. assert (rsplit_once d (a ++ d :: b) = Some (a, b)) as H1
    by by apply rsplit_once_Some.
  rewrite H, (proj2 (rsplit_once_Some d _ a' b')) in H1 by done. naive_solver.
Qed.

Lemma contains_char_true d s : contains_char d s = true ↔ d ∈ s.
Proof.
  unfold contains_char. rewrite existsb_exists. setoid_rewrite <-list_elem_of_In.
  setoid_rewrite Z.eqb_eq. naive_solver.
Qed.

Lemma contains_char_false d s : contains_char d s = false ↔ d ∉ s.
Proof. by rewrite <-not_true_iff_false, contains_char_true. Qed.

Lemma utf8_width_pos c : 1 ≤ utf8_width c ≤ 4.
Proof. unfold utf8_width. repeat case_if; lia. Qed.

Lemma len_app s t : len (s ++ t) = len s + len t.
Proof. unfold len. by rewrite map_app, zsum_app. Qed.

Lemma len_length s : Z.of_nat (length s) ≤ len s.
Proof.
  unfold len. induction s as [|c s IH]; cbn; [lia|]. pose proof (utf8_width_pos c). lia.
Qed.

Lemma len_nonneg s : 0 ≤ len s.
Proof. pose proof (len_length s). lia. Qed.

Lemma as_bytes_length s : Z.of_nat (length (as_bytes s)) = len s.
Proof.
  induction s as [|c s IH]; [done|]. unfold as_bytes, len in *. rewrite bind_cons, length_app.
  cbn [map zsum]. rewrite <-IH, Nat2Z.inj_add. f_equal. clear IH.
  unfold utf8_char, utf8_width. repeat case_if; done.
Qed.

Lemma is_ascii_digit_spec c : is_ascii_digit c = true ↔ 48 ≤ c ≤ 57.
Proof. unfold is_ascii_digit, in_range. lia. Qed.

Lemma push_digits_digits fuel z acc :
  0 ≤ z → Forall (λ c, is_ascii_digit c = true) acc →
  Forall (λ c, is_ascii_digit c = true) (push_digits fuel z acc).
Proof.
  revert z acc. induction fuel as [|fuel IH]; intros z acc Hz Hacc; cbn; [done|].
  destruct (z <? 10) eqn:Hlt.
  - constructor; [|done]. apply is_ascii_digit_spec. lia.
  - apply IH; [apply Z.div_pos; lia|]. constructor; [|done].
    apply is_ascii_digit_spec. pose proof (Z.mod_pos_bound z 10). lia.
Qed.

Lemma parse_push_digits fuel z acc :
  0 ≤ z < 2 ^ Z.of_nat fuel →
  parse_digits 0 (push_digits fuel z acc) = parse_digits z acc.
Proof.
  revert z acc. induction fuel as [|fuel IH]; intros z acc Hz; cbn.
  { replace z with 0 by (cbn in Hz; lia). done. }
  destruct (z <? 10) eqn:Hlt.
  - cbn. replace (is_ascii_digit (48 + z)) with true
      by (symmetry; apply is_ascii_digit_spec; lia). f_equal. lia.
  - rewrite IH.
    + cbn. pose proof (Z.mod_pos_bound z 10). pose proof (Z.div_mod z 10).
      replace (is_ascii_digit (48 + z mod 10)) with true
        by (symmetry; apply is_ascii_digit_spec; lia). f_equal. lia.
    + rewrite Nat2Z.inj_succ, Z.pow_succ_r in Hz by lia.
      split; [apply Z.div_pos; lia|]. apply Z.div_lt_upper_bound; lia.
Qed.

Lemma parse_dec_abs z : 0 ≤ z → parse_digits 0 (dec_abs z) = Some z.
Proof.
  intros Hz. unfold dec_abs. rewrite parse_push_digits; [done|]. split; [done|].
  rewrite Nat2Z.inj_succ, Z2Nat.id by apply Z.log2_nonneg.
  destruct (decide (z = 0)) as [->|]; [done|]. apply Z.log2_spec. lia.
Qed.

Lemma dec_digits z : 0 ≤ z → Forall (λ c, is_ascii_digit c = true) (dec z).
Proof.
  intros Hz. unfold dec. replace (z <? 0) with false by lia.
  by apply push_digits_digits.
Qed.

Lemma parse_dec z : 0 ≤ z → parse_digits 0 (dec z) = Some z.
Proof.
  intros Hz. unfold dec. replace (z <? 0) with false by lia. by apply parse_dec_abs.
Qed.

(** A separator that is not a digit never occurs in a displayed number. *)
Lemma dec_no_sep z d : 0 ≤ z → is_ascii_digit d = false → d ∉ dec z.
Proof.
  intros Hz Hd Hin. pose proof (dec_digits z Hz) as H. rewrite Forall_forall in H.
  rewrite (H _ Hin) in Hd. done.
Qed.

(** A displayed integer is digits, after a minus sign when it is negative. *)
Lemma dec_chars z : Forall (λ c, is_ascii_digit c = true ∨ c = 45) (dec z).
Proof.
  assert (∀ z, 0 ≤ z → Forall (λ c, is_ascii_digit c = true ∨ c = 45) (dec_abs z)) as H.
  { intros w Hw. eapply Forall_impl; [by apply push_digits_digits|]. by left. }
  unfold dec. case_if; [constructor; [by right|]|]; apply H; lia.
Qed.

Lemma dec_nonempty z : dec z ≠ [].
Proof.
  assert (∀ fuel z acc, acc ≠ [] → push_digits fuel z acc ≠ []) as H.
  { induction fuel as [|fuel IH]; intros w acc Ha; cbn; [done|].
    case_if; [done|]. by apply IH. }
  unfold dec, dec_abs. repeat case_if; [done|]. cbn. case_if; [done|]. by apply H.
Qed.

#[export] Instance dec_inj : Inj (=) (=) dec.
Proof.
  assert (∀ z, 0 < z → dec_abs z = dec z) as Habs.
  { intros z Hz. unfold dec. by replace (z <? 0) with false by lia. }
  assert (∀ z w, z < 0 → 0 ≤ w → dec z ≠ dec w) as Hneg.
  { intros z w Hz Hw H. apply (dec_no_sep w 45 Hw); [done|]. rewrite <-H. unfold dec.
    replace (z <? 0) with true by lia. set_solver. }
  intros x y H. destruct (decide (x < 0)), (decide (y < 0)).
  - unfold dec in H. replace (x <? 0) with true in H by lia.
    replace (y <? 0) with true in H by lia. injection H as H.
    pose proof (parse_dec_abs (- x)) as Hx. rewrite H, parse_dec_abs in Hx by lia.
    injection (Hx ltac:(lia)). lia.
  - destruct (Hneg x y); [lia..|done].
  - destruct (Hneg y x); [lia..|done].
  - pose proof (parse_dec x) as Hx. rewrite H, parse_dec in Hx by lia.
    injection (Hx ltac:(lia)). lia.
Qed.

(** Printing a number and parsing it back. *)
Lemma parse_unsigned_dec max z : 0 ≤ z ≤ max → parse_unsigned max (dec z) = Some z.
Proof.
  intros Hz. unfold parse_unsigned. pose proof (dec_nonempty z) as Hne.
  pose proof (dec_digits z ltac:(lia)) as Hd. pose proof (parse_dec z ltac:(lia)) as Hp.
  destruct (dec z) as [|c s] eqn:He; [done|].
  inversion Hd as [|? ? Hc]; subst. apply is_ascii_digit_spec in Hc.
  replace (c =? 43) with false by lia. rewrite Hp. cbn.
  by replace (z <=? max) with true by lia.
Qed.

Lemma be_bytes_length n z : length (be_bytes n z) = n.
Proof. induction n; cbn; congruence. Qed.

Lemma be_bytes_bytes n z : Forall is_u8 (be_bytes n z).
Proof.
  induction n as [|n IH]; cbn; constructor; [|done].
  pose proof (Z.mod_pos_bound (z / 256 ^ Z.of_nat n) 256). unfold_bounds. lia.
Qed.

Lemma of_be_bytes_acc l acc :
  fold_left (λ acc b, acc * 256 + b) l acc = acc * 256 ^ Z.of_nat (length l) + of_be_bytes l.
Proof.
  unfold of_be_bytes. revert acc. induction l as [|b l IH]; intros acc; [cbn; lia|].
  cbn [fold_left]. rewrite IH, (IH (0 * 256 + b)). cbn [length].
  rewrite Nat2Z.inj_succ, Z.pow_succ_r by lia. lia.
Qed.

Lemma of_be_bytes_app l k :
  of_be_bytes (l ++ k) = of_be_bytes l * 256 ^ Z.of_nat (length k) + of_be_bytes k.
Proof. unfold of_be_bytes at 1. rewrite fold_left_app. apply of_be_bytes_acc. Qed.

(** Reading back the big-endian bytes of a number keeps what fits the width. *)
Lemma of_be_bytes_be_bytes n z : of_be_bytes (be_bytes n z) = z mod 256 ^ Z.of_nat n.
Proof.
  induction n as [|n IH]; [by rewrite Z.mod_1_r|].
  cbn [be_bytes]. change (?a :: ?l) with ([a] ++ l).
  rewrite of_be_bytes_app, IH, be_bytes_length, Nat2Z.inj_succ, Z.pow_succ_r by lia.
  change (of_be_bytes [?a]) with (0 * 256 + a).
  rewrite (Z.mul_comm 256), Z.rem_mul_r by lia. lia.
Qed.

Lemma of_be_bytes_bound l :
  Forall is_u8 l → 0 ≤ of_be_bytes l < 256 ^ Z.of_nat (length l).
Proof.
  induction 1 as [|b l Hb Hl IH]; [done|]. change (b :: l) with ([b] ++ l).
  rewrite of_be_bytes_app, length_app, Nat2Z.inj_add, Z.pow_add_r by lia.
  change (of_be_bytes [b]) with (0 * 256 + b). unfold_bounds.
  change (256 ^ Z.of_nat (length [b])) with 256. nia.
Qed.

#[export] Hint Resolve len_nonneg dec_no_sep utf8_width_pos : prism.

(** The pieces of a split. *)
Lemma drop_while_none p s : Forall (λ c, p c = false) s → drop_while p s = s.
Proof. intros Hs. by destruct Hs as [|c s Hc Hs]; cbn; [|rewrite Hc]. Qed.
Lemma trim_by_none p s : Forall (λ c, p c = false) s → trim_by p s = s.
Proof.
  intros Hs. unfold trim_by. rewrite (drop_while_none p s Hs), drop_while_none, reverse_involutive; [done|].
  by apply Forall_reverse.
Qed.

Lemma split_on_none p s : Forall (λ c, p c = false) s → split_on p s = [s].
Proof. induction 1 as [|c s Hc _ IH]; [done|]. cbn. by rewrite Hc, IH. Qed.

Lemma split_on_app p a d b :
  Forall (λ c, p c = false) a → p d = true → split_on p (a ++ d :: b) = a :: split_on p b.
Proof.
  intros Ha Hd. induction Ha as [|c a Hc _ IH]; cbn; [by rewrite Hd|]. by rewrite Hc, IH.
Qed.

Lemma split_on_nonempty p s : split_on p s ≠ [].
Proof. destruct s as [|c s]; cbn; [done|]. destruct (p c); [done|]. by destruct (split_on p s). Qed.

(** The first piece runs up to the first separator, and the rest are the pieces after it. *)
Lemma split_on_inv d s x xs :
  split_on (Z.eqb d) s = x :: xs →
  xs = [] ∧ s = x ∨ ∃ r, s = x ++ d :: r ∧ split_on (Z.eqb d) r = xs.
Proof.
  revert x. induction s as [|c s IH]; intros x; cbn [split_on]; [naive_solver|].
  destruct (d =? c) eqn:E.
  - apply Z.eqb_eq in E as <-. intros [= <- Hs]. right. by exists s.
  - destruct (split_on (Z.eqb d) s) as [|w ws] eqn:Hs; [by apply split_on_nonempty in Hs|].
    intros [= <- <-].
    destruct (IH w eq_refl) as [[-> ->]|(r & -> & Hr)]; [by left|]. right. by exists r.
Qed.

Lemma split_on_three d s a b c :
  split_on (Z.eqb d) s = [a; b; c] → s = a ++ d :: b ++ d :: c.
Proof.
  intros [[? _]|(r & -> & Hr)]%split_on_inv; [done|].
  apply split_on_inv in Hr as [[? _]|(r' & -> & Hr)]; [done|].
  by apply split_on_inv in Hr as [[_ ->]|(r'' & -> & Hr)]; [|apply split_on_nonempty in Hr].
Qed.

Lemma as_bytes_app s t : as_bytes (s ++ t) = as_bytes s ++ as_bytes t.
Proof. unfold as_bytes. apply bind_app. Qed.

Lemma split_on_pieces p s : Forall (Forall (λ c, p c = false)) (split_on p s).
Proof.
  induction s as [|c s IH]; cbn [split_on]; [by repeat constructor|].
  destruct (p c) eqn:Hc; [by constructor|].
  destruct (split_on p s) as [|w ws]; [by repeat constructor|].
  apply Forall_cons in IH as [Hw Hws]. by repeat constructor.
Qed.
