(* ===== verification/Typestate.v ===== *)
(** * Typestate: the macro that fixes the order of a transaction's steps

    Models [crates/typestate-txn/src/lib.rs]: parsing a workflow ([Input], [Step], [Workflow]),
    expanding it ([expand], [to_snake]), and what the expanded code is: which calls on it
    compile, and what running them does.  [syn] is the class [Syn] for the types, blocks and
    generics it parses; a token is one of its tokens, with [->] and the like in one piece, and
    with the keywords of Rust, which are no identifiers, apart.  The expansion is kept as the
    items it writes, without their texts of documentation.

    The workflows of [crates/ip-storage/src/transaction] are [Workflow] and [PluginStore]. *)
From S2P Require Import Prelude Text.

(** ** Tokens *)

Inductive Delim : Type := Paren | Brace | Bracket.

Inductive Token : Type :=
  | Id (name : str)
  | Kw (name : str)
  | Punct (text : str)
  | Literal (text : str)
  | Group (d : Delim) (inside : list Token).

Inductive SynError : Type :=
  | Expected (what : str)
  | UnexpectedToken
  | NoStep.

(** [syn::GenericParam], by the name it is used under. *)
Inductive GenericParam : Type := TypeParam (ident : str) | LifetimeParam (lifetime : str) | ConstParam (ident : str).

(** What is parsed by [syn]: each answers with the tokens it leaves. *)
Class Syn : Type := {
  Ty : Type;
  Block : Type;
  Generics : Type;
  parse_type : list Token → option (Ty * list Token);
  parse_block : list Token → option (Block * list Token);
  parse_generics : list Token → option (Generics * list Token);
  params : Generics → list GenericParam
}.

(** A [ParseStream]: what is left of the input. *)
Definition parser (A : Type) : Type := list Token → result SynError (A * list Token).

#[export] Instance parser_ret : MRet parser := λ A a ts, Ok (a, ts).
#[export] Instance parser_bind : MBind parser := λ A B f p ts,
  match p ts with Ok (a, ts) => f a ts | Err e => Err e end.

Definition fails {A} (e : SynError) : parser A := λ _, Err e.

Definition parse_ident : parser str := λ ts,
  match ts with Id x :: ts => Ok (x, ts) | _ => Err (Expected #"identifier") end.
Definition keyword (k : str) : parser unit := λ ts,
  match ts with
  | Id x :: ts => if bool_decide (x = k) then Ok (tt, ts) else Err (Expected k)
  | _ => Err (Expected k)
  end.
Definition punct (p : str) : parser unit := λ ts,
  match ts with
  | Punct x :: ts => if bool_decide (x = p) then Ok (tt, ts) else Err (Expected p)
  | _ => Err (Expected p)
  end.
Definition as_token : parser unit := λ ts,
  match ts with
  | Kw x :: ts => if bool_decide (x = #"as") then Ok (tt, ts) else Err (Expected #"as")
  | _ => Err (Expected #"as")
  end.

(** [parenthesized!] and [braced!]: the tokens inside. *)
Definition same_delim (d e : Delim) : bool :=
  match d, e with Paren, Paren | Brace, Brace | Bracket, Bracket => true | _, _ => false end.
Definition delimited (d : Delim) : parser (list Token) := λ ts,
  match ts with
  | Group e inside :: ts => if same_delim d e then Ok (inside, ts) else Err (Expected #"group")
  | _ => Err (Expected #"group")
  end.

(** A parse that has to use up all of its input. *)
Definition whole {A} (p : parser A) (ts : list Token) : result SynError A :=
  match p ts with
  | Ok (a, []) => Ok a
  | Ok (_, _ :: _) => Err UnexpectedToken
  | Err e => Err e
  end.

Section typestate.
Context {syn : Syn}.

Definition lift {A} (what : str) (p : list Token → option (A * list Token)) : parser A := λ ts,
  match p ts with Some r => Ok r | None => Err (Expected what) end.
Definition a_type : parser Ty := lift #"type" parse_type.
Definition a_block : parser Block := lift #"block" parse_block.

(** ** The workflow and its parsers *)

Record Input : Type := MkInput { input_name : str; input_ty : Ty }.

Record Step : Type := MkStep {
  step_name : str;
  inputs : list Input;
  output : str;
  output_type : Ty;
  step_stage : str;
  body : Block
}.

Record Workflow : Type := MkWorkflow {
  wf_name : str;
  generics : Generics;
  carrier_type : Ty;
  error_type : Ty;
  record_type : Ty;
  finish : Block;
  abort : Block;
  steps : list Step
}.

(** [impl Parse for Input]. *)
Definition parse_input : parser Input :=
  name ← parse_ident;
  _ ← punct #":";
  ty ← a_type;
  mret (MkInput name ty).

(** [parse_terminated(Input::parse, Token![,])]: each turn takes a token at least. *)
Fixpoint parse_terminated (fuel : nat) : parser (list Input) := λ ts,
  match fuel, ts with
  | _, [] => Ok ([], [])
  | O, _ => Err UnexpectedToken
  | S fuel, _ =>
      match parse_input ts with
      | Err e => Err e
      | Ok (i, []) => Ok ([i], [])
      | Ok (i, ts) =>
          match punct #"," ts with
          | Err e => Err e
          | Ok (_, ts) =>
              match parse_terminated fuel ts with
              | Err e => Err e
              | Ok (l, ts) => Ok (i :: l, ts)
              end
          end
      end
  end.

(** A parser run on tokens of its own. *)
Definition inside {A} (p : list Token → result SynError A) (ts : list Token) : parser A := λ rest,
  match p ts with Ok a => Ok (a, rest) | Err e => Err e end.

(** [impl Parse for Step]. *)
Definition parse_step : parser Step :=
  name ← parse_ident;
  arguments ← delimited Paren;
  inputs ← inside (whole (parse_terminated (length arguments))) arguments;
  _ ← punct #"->";
  output ← parse_ident;
  _ ← punct #":";
  output_type ← a_type;
  _ ← as_token;
  stage ← parse_ident;
  body ← a_block;
  mret (MkStep name inputs output output_type stage body).

(** [while !listed.is_empty()]. *)
Fixpoint parse_steps (fuel : nat) (ts : list Token) : result SynError (list Step) :=
  match fuel, ts with
  | _, [] => Ok []
  | O, _ => Err UnexpectedToken
  | S fuel, _ =>
      match parse_step ts with
      | Err e => Err e
      | Ok (s, ts) => l ← parse_steps fuel ts; Ok (s :: l)
      end
  end.

(** One entry: its keyword, a colon, what it is. *)
Definition entry {A} (k : str) (p : parser A) : parser A :=
  _ ← keyword k;
  _ ← punct #":";
  p.
Definition entry_comma {A} (k : str) (p : parser A) : parser A :=
  a ← entry k p;
  _ ← punct #",";
  mret a.

(** [impl Parse for Workflow]. *)
Definition parse_workflow : parser Workflow :=
  name ← entry_comma #"name" parse_ident;
  generics ← entry_comma #"generics" (lift #"generics" parse_generics);
  carrier ← entry_comma #"carrier" a_type;
  error ← entry_comma #"error" a_type;
  record ← entry_comma #"record" a_type;
  finish ← entry_comma #"finish" a_block;
  abort ← entry_comma #"abort" a_block;
  listed ← entry #"steps" (delimited Brace);
  steps ← inside (λ ts, parse_steps (length ts) ts) listed;
  match steps with
  | [] => fails NoStep
  | _ => mret (MkWorkflow name generics carrier error record finish abort steps)
  end.

(** [parse_macro_input!]. *)
Definition read_workflow (ts : list Token) : result SynError Workflow := whole parse_workflow ts.

(** ** The expansion *)

Record Stage : Type := MkStage { stage_name : str; stage_fields : list (str * Ty) }.

(** What the generated [impl] blocks hold. *)
Inductive Method : Type :=
  | New
  | Transition (step : Step) (previous_fields : list str) (stage : str) (all_fields : list str)
  | Accessor (field : str) (ty : Ty)
  | Commit (committed_fields : list str).

(** An [impl] of the transaction at one stage. *)
Record Impl : Type := MkImpl { impl_stage : str; impl_methods : list Method }.

Record Expansion : Type := MkExpansion {
  impl_head : list GenericParam;
  type_arguments : list str;
  sealed : str;
  stage_trait : str;
  txn : str;
  stages : list Stage;
  stage_list : list str;
  impls : list Impl
}.

(** How a parameter is named where it is used. *)
Definition argument (p : GenericParam) : str :=
  match p with TypeParam x | LifetimeParam x | ConstParam x => x end.

Definition stage_of (name : str) (s : Step) : str := name ++ step_stage s.

(** The loop over the steps: the stages, and the transition into each with its accessors. *)
Fixpoint expand_steps (name : str) (previous : str) (carried : list (str * Ty)) (steps : list Step)
    : list Stage * list Impl :=
  match steps with
  | [] => ([], [])
  | s :: steps =>
      let stage := stage_of name s in
      let previous_fields := carried.*1 in
      let carried := carried ++ [(output s, output_type s)] in
      let '(stages, impls) := expand_steps name stage carried steps in
      (MkStage stage carried :: stages,
       MkImpl previous [Transition s previous_fields stage carried.*1]
         :: MkImpl stage ((λ '(field, ty), Accessor field ty) <$> carried) :: impls)
  end.
End typestate.

(** What [char] says of case, outside of ascii too. *)
Class CharCase : Type := {
  is_uppercase : char → bool;
  to_lowercase : char → str
}.

(** The loop of [to_snake], from a byte offset on. *)
Fixpoint snake_from `{CharCase} (at_ : Z) (camel : str) : str :=
  match camel with
  | [] => []
  | c :: camel =>
      (if is_uppercase c then (if at_ =? 0 then [] else [ch "_"]) ++ to_lowercase c else [c])
        ++ snake_from (at_ + utf8_width c) camel
  end.
Definition to_snake `{CharCase} (camel : str) : str := snake_from 0 camel.

Section expansion.
Context {syn : Syn} `{CharCase}.

Definition begun (w : Workflow) : str := wf_name w ++ #"Begun".
Definition stage_names (w : Workflow) : list str := begun w :: (stage_of (wf_name w) <$> steps w).
Definition last_stage (w : Workflow) : str := default (begun w) (last (stage_names w)).

(** [expand]. *)
Definition expand (w : Workflow) : Expansion :=
  let name := wf_name w in
  let '(stages, transitions) := expand_steps name (begun w) [] (steps w) in
  MkExpansion (params (generics w)) (argument <$> params (generics w))
    (to_snake name ++ #"_sealed") (name ++ #"Stage") (name ++ #"Txn")
    (MkStage (begun w) [] :: stages) (stage_names w)
    (MkImpl (begun w) [New] :: transitions ++ [MkImpl (last_stage w) [Commit (output <$> steps w)]]).

(** ** Which calls compile *)

(** What a chain of calls has made so far: a transaction at a stage, a reference to something it
    wrote, or the record. *)
Inductive RustType : Type := TTxn (stage : str) | TRef (ty : Ty) | TRecord.

Definition method_name (m : Method) : str :=
  match m with
  | New => #"new"
  | Transition s _ _ _ => step_name s
  | Accessor field _ => field
  | Commit _ => #"commit"
  end.

(** What calling one gives, once awaited and unwrapped; [new] takes no transaction. *)
Definition called (m : Method) : option RustType :=
  match m with
  | New => None
  | Transition _ _ stage _ => Some (TTxn stage)
  | Accessor _ ty => Some (TRef ty)
  | Commit _ => Some TRecord
  end.

Definition on (stage : str) (l : list Impl) : list Method :=
  l ≫= λ i, if decide (impl_stage i = stage) then impl_methods i else [].

(** A call on a transaction finds the method of that name among the blocks for its stage. *)
Definition call (x : Expansion) (t : RustType) (name : str) : option RustType :=
  match t with
  | TTxn stage => m ← List.find (λ m, bool_decide (method_name m = name)) (on stage (impls x)); called m
  | _ => None
  end.

Definition chain (x : Expansion) (t : RustType) (names : list str) : option RustType :=
  fold_left (λ t name, t ← t; call x t name) names (Some t).

(** The items of an expansion do not clash: the types and the module have names of their own,
    so have the fields of a stage, and the methods of one stage. *)
Record compiles (x : Expansion) : Prop := {
  items_apart : NoDup (sealed x :: stage_trait x :: txn x :: (stage_name <$> stages x));
  fields_apart : Forall (λ s, NoDup (stage_fields s).*1) (stages x);
  methods_apart : ∀ stage, NoDup (method_name <$> on stage (impls x))
}.

(** ** Lemmas on the expansion *)

Lemma expand_stage_names name previous carried l :
  stage_name <$> (expand_steps name previous carried l).1 = stage_of name <$> l.
Proof.
  revert previous carried. induction l as [|s l IH]; intros previous carried; [done|]. cbn.
  specialize (IH (stage_of name s) (carried ++ [(output s, output_type s)])).
  destruct (expand_steps _ _ _ _). cbn in *. by rewrite IH.
Qed.

Lemma stages_named w : stage_name <$> stages (expand w) = stage_names w.
Proof.
  unfold expand. pose proof (expand_stage_names (wf_name w) (begun w) [] (steps w)) as E.
  destruct (expand_steps _ _ _ _). cbn in *. by rewrite E.
Qed.

Lemma default_last (a b : str) l : default a (last (b :: l)) = default b (last l).
Proof. rewrite last_cons. by destruct (last l). Qed.

Lemma on_app s l k : on s (l ++ k) = on s l ++ on s k.
Proof. apply bind_app. Qed.

Lemma on_cons s i l : on s (i :: l) = (if decide (impl_stage i = s) then impl_methods i else []) ++ on s l.
Proof. done. Qed.

(** No block is for a stage other than the one before the steps and the ones they land in. *)
Lemma on_elsewhere name previous carried l s :
  s ∉ previous :: (stage_of name <$> l) → on s (expand_steps name previous carried l).2 = [].
Proof.
  revert previous carried. induction l as [|x l IH]; intros previous carried Hs; [done|]. cbn.
  destruct (expand_steps name (stage_of name x) _ l) as [st im] eqn:E. cbn.
  rewrite !decide_False by set_solver. cbn.
  specialize (IH (stage_of name x) (carried ++ [(output x, output_type x)])). rewrite E in IH.
  apply IH. set_solver.
Qed.

(** What is found among methods with names of their own. *)
Lemma find_apart (l : list Method) m k :
  NoDup (method_name <$> l ++ m :: k) →
  List.find (λ x, bool_decide (method_name x = method_name m)) (l ++ m :: k) = Some m.
Proof.
  induction l as [|y l IH]; cbn.
  - intros _. by rewrite bool_decide_eq_true_2.
  - intros [Hy Hl]%NoDup_cons. rewrite bool_decide_eq_false_2; [by apply IH|].
    intros E. apply Hy. rewrite E, fmap_app. set_solver.
Qed.

Lemma chain_cons x t n ms :
  chain x t (n :: ms) = match call x t n with Some t => chain x t ms | None => None end.
Proof.
  unfold chain. cbn. destruct (call x t n) as [t'|]; [done|]. by induction ms.
Qed.

(** A stage with one method that moves the transaction on, the others reading what it wrote. *)
Lemma chain_moves x s own mv t ms :
  (∀ m, m ∈ own → ∀ t, called m = Some t → ∃ ty, t = TRef ty) →
  NoDup (method_name <$> on s (impls x)) → on s (impls x) = own ++ [mv] → called mv = Some t →
  chain x (TTxn s) ms = Some TRecord ↔ ∃ ms', ms = method_name mv :: ms' ∧ chain x t ms' = Some TRecord.
Proof.
  intros Hown Hnd Hon Ht. destruct ms as [|n ms].
  { split; [done|]. by intros (? & ? & _). }
  rewrite chain_cons. cbn [call]. rewrite Hon in *.
  destruct (decide (n = method_name mv)) as [->|Hn].
  - rewrite find_apart by done. cbn. rewrite Ht. naive_solver.
  - split; [|naive_solver]. destruct (List.find _ _) as [m|] eqn:Hf; [|done]. cbn.
    apply find_elem_of in Hf as [Hm Hb%bool_decide_eq_true].
    apply elem_of_app in Hm as [Hm|Hm]; [|apply list_elem_of_singleton in Hm as ->; done].
    destruct (called m) as [t'|] eqn:Hc; [|done]. destruct (Hown m Hm t' Hc) as [ty ->].
    destruct ms as [|n' ms]; [done|]. by rewrite chain_cons.
Qed.

Lemma chain_record x ms : chain x TRecord ms = Some TRecord ↔ ms = [].
Proof. destruct ms; [done|]. rewrite chain_cons. done. Qed.

(** The chain of calls that takes a transaction from a stage to its record, where the methods
    of the stage are [own], which neither move nor commit, and what the steps that are left
    generate. *)
Lemma chain_from x name previous carried l own fields ms :
  (∀ m, m ∈ own → ∀ t, called m = Some t → ∃ ty, t = TRef ty) →
  NoDup (previous :: (stage_of name <$> l)) →
  (∀ s, NoDup (method_name <$> on s (impls x))) →
  (∀ s, s ∈ previous :: (stage_of name <$> l) → on s (impls x) =
    (if decide (s = previous) then own else []) ++ on s (expand_steps name previous carried l).2 ++
    on s [MkImpl (default previous (last (stage_of name <$> l))) [Commit fields]]) →
  chain x (TTxn previous) ms = Some TRecord ↔ ms = (step_name <$> l) ++ [ #"commit"].
Proof.
  revert previous carried own ms.
  induction l as [|s l IH]; intros previous carried own ms Hown Hnd Hms Hon; cbn [fmap list_fmap app].
  - rewrite (chain_moves x previous own (Commit fields) TRecord); [|done..| |done].
    + setoid_rewrite chain_record. naive_solver.
    + rewrite Hon by set_solver. cbn. by rewrite !decide_True.
  - set (stage := stage_of name s) in *. set (carried' := carried ++ [(output s, output_type s)]).
    apply NoDup_cons in Hnd as [Hp Hnd]. rewrite fmap_cons in Hp, Hnd. fold stage in Hp, Hnd.
    assert (∀ z, on z (expand_steps name previous carried (s :: l)).2 =
      (if decide (previous = z) then [Transition s carried.*1 stage carried'.*1] else []) ++
      (if decide (stage = z) then (λ '(field, ty), Accessor field ty) <$> carried' else []) ++
      on z (expand_steps name stage carried' l).2) as Hexp.
    { intros z. cbn [expand_steps]. fold stage carried'.
      destruct (expand_steps name stage carried' l) as [st im]. done. }
    assert (default previous (last (stage :: (stage_of name <$> l)))
      = default stage (last (stage_of name <$> l))) as Hlast.
    { apply default_last. }
    rewrite (chain_moves x previous own (Transition s carried.*1 stage carried'.*1) (TTxn stage)); [|done..| |done].
    + cbn [method_name]. setoid_rewrite (IH stage carried' ((λ '(field, ty), Accessor field ty) <$> carried'));
        [naive_solver| |done|done|].
      * intros m ([f ty] & -> & _)%list_elem_of_fmap t [= <-]. eauto.
      * intros z Hz. rewrite Hon by (rewrite fmap_cons; fold stage; set_solver).
        rewrite Hexp, fmap_cons. fold stage. rewrite Hlast.
        rewrite (decide_False (P := z = previous)) by set_solver.
        rewrite (decide_False (P := previous = z)) by set_solver. cbn [app].
        rewrite <-app_assoc. f_equal. by destruct (decide (stage = z)), (decide (z = stage)).
    + rewrite Hon by set_solver. rewrite Hexp, fmap_cons. fold stage. rewrite Hlast.
      rewrite decide_True, (decide_True (P := previous = previous)) by done.
      rewrite decide_False by set_solver. cbn [app].
      rewrite on_elsewhere by set_solver. cbn.
      rewrite decide_False; [done|]. intros E. apply Hp. rewrite <-E.
      destruct (last (stage_of name <$> l)) as [z|] eqn:Hl; cbn; [|set_solver].
      apply last_Some_elem_of in Hl. set_solver.
Qed.

(** ** Properties *)

(** C22: where the expansion of a workflow compiles, the calls that lead from a new transaction to
    its record are the steps in the order they were written and then the commit, and nothing
    else: a step skipped, repeated or out of order, or a commit before the last step, is a call
    that does not compile. *)
Theorem order_enforced (w : Workflow) (ms : list str) :
  compiles (expand w) →
  chain (expand w) (TTxn (begun w)) ms = Some TRecord ↔ ms = (step_name <$> steps w) ++ [ #"commit"].
Proof.
  intros [Hitems _ Hms]. rewrite stages_named in Hitems. apply NoDup_cons in Hitems as [_ Hitems].
  apply NoDup_cons in Hitems as [_ Hitems]. apply NoDup_cons in Hitems as [_ Hitems].
  apply (chain_from _ (wf_name w) _ [] (steps w) [New] (output <$> steps w)); [|done|done|].
  - by intros m ->%list_elem_of_singleton t.
  - intros s Hs. unfold expand.
    assert (last_stage w = default (begun w) (last (stage_of (wf_name w) <$> steps w))) as ->.
    { apply default_last. }
    destruct (expand_steps _ _ _ _) as [st im]. cbn [impls snd].
    rewrite (on_cons s), !on_app. f_equal.
    cbn [impl_stage impl_methods]. destruct (decide (begun w = s)), (decide (s = begun w)); congruence.
Qed.
End expansion.

(** ** What the generated code does *)
Section run.
Context {syn : Syn} {C E V : Type}.
(** What the blocks the caller supplies do: a step's body, [finish] and [abort], over what is in
    scope and the carrier. *)
Context (exec_body : Block → (str → option V) → C → result E V * C).
Context (exec_finish : Block → (str → option V) → C → result E unit * C).
Context (exec_abort : Block → C → C).

(** A transaction: the carrier and the fields of its stage. *)
Record TxnValue : Type := MkTxnValue { carrier : C; stage : str; fields : list (str * V) }.

Definition named (l : list (str * V)) (x : str) : option V :=
  snd <$> List.find (λ p, bool_decide (p.1 = x)) l.

(** The stage is taken apart inside the function, over its parameters. *)
Definition scope (fields parameters : list (str * V)) (x : str) : option V :=
  match named fields x with Some v => Some v | None => named parameters x end.

Definition new_txn (w : Workflow) (c : C) : TxnValue := MkTxnValue c (begun w) [].

(** The function a step becomes, and the carrier as it leaves it. *)
Definition run_step (w : Workflow) (s : Step) (t : TxnValue) (args : list V)
    : result E TxnValue * C :=
  match exec_body (body s) (scope (fields t) (zip (input_name <$> inputs s) args)) (carrier t) with
  | (Ok v, c) => (Ok (MkTxnValue c (stage_of (wf_name w) s) (fields t ++ [(output s, v)])), c)
  | (Err e, c) => (Err e, exec_abort (abort w) c)
  end.

(** [commit]: the record has the fields of the last stage. *)
Definition run_commit (w : Workflow) (t : TxnValue) : result E (list (str * V)) * C :=
  match exec_finish (finish w) (named (fields t)) (carrier t) with
  | (Ok _, c) => (Ok (fields t), c)
  | (Err e, c) => (Err e, c)
  end.

(** The only chain of calls that compiles, each with its arguments. *)
Fixpoint run_steps (w : Workflow) (l : list Step) (args : list (list V)) (t : TxnValue)
    : result E (list (str * V)) * C :=
  match l, args with
  | s :: l, a :: args =>
      match run_step w s t a with
      | (Ok t, _) => run_steps w l args t
      | (Err e, c) => (Err e, c)
      end
  | _, _ => run_commit w t
  end.
Definition run_workflow (w : Workflow) (args : list (list V)) (c : C) : result E (list (str * V)) * C :=
  run_steps w (steps w) args (new_txn w c).

(** Steps that all succeed one after the other, each over what those before it produced. *)
Inductive performed : list Step → list (list V) → list (str * V) → C → list (str * V) → C → Prop :=
  | performed_none fs c : performed [] [] fs c fs c
  | performed_step s l a args fs c v c1 fs' c' :
      exec_body (body s) (scope fs (zip (input_name <$> inputs s) a)) c = (Ok v, c1) →
      performed l args (fs ++ [(output s, v)]) c1 fs' c' →
      performed (s :: l) (a :: args) fs c fs' c'.

Lemma performed_fields l args fs c fs' c' :
  performed l args fs c fs' c' → fs'.*1 = fs.*1 ++ (output <$> l).
Proof.
  induction 1 as [|s l a args fs c v c1 fs' c' _ _ IH]; [by rewrite app_nil_r|].
  rewrite IH, fmap_app, <-app_assoc. done.
Qed.

Lemma run_steps_spec w l args t r c' :
  length args = length l → run_steps w l args t = (r, c') →
  (∃ fs c1, performed l args (fields t) (carrier t) fs c1 ∧
    ((∃ x, exec_finish (finish w) (named fs) c1 = (Ok x, c') ∧ r = Ok fs) ∨
     ∃ e, exec_finish (finish w) (named fs) c1 = (Err e, c') ∧ r = Err e)) ∨
  (∃ done s rest dargs a rargs fs c1 e c2, l = done ++ s :: rest ∧ args = dargs ++ a :: rargs ∧
    performed done dargs (fields t) (carrier t) fs c1 ∧
    exec_body (body s) (scope fs (zip (input_name <$> inputs s) a)) c1 = (Err e, c2) ∧
    r = Err e ∧ c' = exec_abort (abort w) c2).
Proof.
  revert args t. induction l as [|s l IH]; intros [|a args] t Hlen Hr; try done; cbn in Hr.
  - left. exists (fields t), (carrier t). split; [constructor|]. unfold run_commit in Hr.
    destruct (exec_finish _ _ _) as [[x|e] c]; injection Hr as <- <-; eauto.
  - unfold run_step in Hr. destruct (exec_body _ _ _) as [[v|e] c] eqn:Hb.
    + apply IH in Hr; [|by injection Hlen]. cbn [fields carrier] in Hr.
      destruct Hr as [(fs & c1 & Hp & Hf)|(done & s' & rest & dargs & a' & rargs & fs & c1 & e & c2 & -> & -> & Hp & Hrest)].
      * left. exists fs, c1. split; [by econstructor|done].
      * right. exists (s :: done), s', rest, (a :: dargs), a', rargs, fs, c1, e, c2.
        split; [done|]. split; [done|]. split; [by econstructor|done].
    + injection Hr as <- <-. right. exists [], s, l, [], a, args, (fields t), (carrier t), e, c.
      split; [done|]. split; [done|]. split; [constructor|done].
Qed.

(** C23: a transaction that runs does its steps in their order, each over everything produced
    before it, and then either commits them together, with every output in the record under its
    name, or reports why [finish] failed; or the first step that fails has its carrier undone
    then and there, its error is what is reported, and neither a later step nor [finish] runs. *)
Theorem run_in_order (w : Workflow) (args : list (list V)) (c c' : C) (r : result E (list (str * V))) :
  length args = length (steps w) → run_workflow w args c = (r, c') →
  (∃ fs c1, performed (steps w) args [] c fs c1 ∧ fs.*1 = output <$> steps w ∧
    ((∃ x, exec_finish (finish w) (named fs) c1 = (Ok x, c') ∧ r = Ok fs) ∨
     ∃ e, exec_finish (finish w) (named fs) c1 = (Err e, c') ∧ r = Err e)) ∨
  (∃ done s rest dargs a rargs fs c1 e c2,
    steps w = done ++ s :: rest ∧ args = dargs ++ a :: rargs ∧
    performed done dargs [] c fs c1 ∧
    exec_body (body s) (scope fs (zip (input_name <$> inputs s) a)) c1 = (Err e, c2) ∧
    r = Err e ∧ c' = exec_abort (abort w) c2).
Proof.
  intros Hlen Hr. apply run_steps_spec in Hr as [(fs & c1 & Hp & Hf)|Hr]; [|right; exact Hr|done].
  left. exists fs, c1. split; [done|]. split; [|done]. by apply performed_fields in Hp.
Qed.
End run.

(** ** Writing a workflow down *)

(** What may follow a type: nothing, a comma, or [as]. *)
Definition ends_type (rest : list Token) : Prop :=
  rest = [] ∨ (∃ r, rest = Punct #"," :: r) ∨ ∃ r, rest = Kw #"as" :: r.

(** [quote::ToTokens]: what [syn] wrote it reads back, where a type or generics end. *)
Class SynText {syn : Syn} : Type := {
  type_tokens : Ty → list Token;
  block_tokens : Block → list Token;
  generics_tokens : Generics → list Token;
  type_back : ∀ t rest, ends_type rest → parse_type (type_tokens t ++ rest) = Some (t, rest);
  block_back : ∀ b rest, parse_block (block_tokens b ++ rest) = Some (b, rest);
  generics_back : ∀ g rest,
    parse_generics (generics_tokens g ++ Punct #"," :: rest) = Some (g, Punct #"," :: rest)
}.

Section print.
Context {syn : Syn} {text : SynText}.

Definition print_input (i : Input) : list Token := [Id (input_name i); Punct #":"] ++ type_tokens (input_ty i).

Fixpoint print_inputs (l : list Input) : list Token :=
  match l with
  | [] => []
  | [i] => print_input i
  | i :: l => print_input i ++ Punct #"," :: print_inputs l
  end.

Definition print_step (s : Step) : list Token :=
  [Id (step_name s); Group Paren (print_inputs (inputs s)); Punct #"->"; Id (output s); Punct #":"]
    ++ type_tokens (output_type s) ++ [Kw #"as"; Id (step_stage s)] ++ block_tokens (body s).

Definition print_entry (k : str) (ts : list Token) : list Token := [Id k; Punct #":"] ++ ts.
Definition print_comma (k : str) (ts : list Token) : list Token := print_entry k ts ++ [Punct #","].

(** A workflow as [transaction!] is given it. *)
Definition print_workflow (w : Workflow) : list Token :=
  print_comma #"name" [Id (wf_name w)]
  ++ print_comma #"generics" (generics_tokens (generics w))
  ++ print_comma #"carrier" (type_tokens (carrier_type w))
  ++ print_comma #"error" (type_tokens (error_type w))
  ++ print_comma #"record" (type_tokens (record_type w))
  ++ print_comma #"finish" (block_tokens (finish w))
  ++ print_comma #"abort" (block_tokens (abort w))
  ++ print_entry #"steps" [Group Brace (steps w ≫= print_step)].

(** *** Reading it back, part by part *)

Lemma parser_bind_ok {A B} (p : parser A) (f : A → parser B) ts a ts' :
  p ts = Ok (a, ts') → (p ≫= f) ts = f a ts'.
Proof. intros E. unfold mbind, parser_bind. by rewrite E. Qed.

Lemma punct_back p rest : punct p (Punct p :: rest) = Ok (tt, rest).
Proof. cbn. by rewrite bool_decide_eq_true_2. Qed.
Lemma keyword_back k rest : keyword k (Id k :: rest) = Ok (tt, rest).
Proof. cbn. by rewrite bool_decide_eq_true_2. Qed.
Lemma as_back rest : as_token (Kw #"as" :: rest) = Ok (tt, rest).
Proof. cbn. by rewrite bool_decide_eq_true_2. Qed.
Lemma ident_back x rest : parse_ident (Id x :: rest) = Ok (x, rest).
Proof. done. Qed.
Lemma type_read t rest : ends_type rest → a_type (type_tokens t ++ rest) = Ok (t, rest).
Proof. intros Hr. unfold a_type, lift. by rewrite type_back. Qed.
Lemma block_read b rest : a_block (block_tokens b ++ rest) = Ok (b, rest).
Proof. unfold a_block, lift. by rewrite block_back. Qed.

Lemma entry_comma_back {A} k (p : parser A) ts a rest :
  p (ts ++ Punct #"," :: rest) = Ok (a, Punct #"," :: rest) →
  entry_comma k p (print_comma k ts ++ rest) = Ok (a, rest).
Proof.
  intros Hp. unfold entry_comma, entry, print_comma, print_entry. rewrite <-!app_assoc. cbn [app].
  erewrite parser_bind_ok.
  2: { erewrite parser_bind_ok by apply keyword_back. erewrite parser_bind_ok by apply punct_back. exact Hp. }
  erewrite parser_bind_ok by apply punct_back. done.
Qed.

Lemma input_back i rest : ends_type rest → parse_input (print_input i ++ rest) = Ok (i, rest).
Proof.
  intros Hr. unfold parse_input, print_input. cbn [app].
  erewrite parser_bind_ok by apply ident_back. erewrite parser_bind_ok by apply punct_back.
  erewrite parser_bind_ok by by apply type_read. by destruct i.
Qed.

Lemma inputs_back fuel l : (length l ≤ fuel)%nat → parse_terminated fuel (print_inputs l) = Ok (l, []).
Proof.
  revert fuel. induction l as [|i [|j l] IH]; intros [|fuel] Hf; try done; cbn in Hf; try lia.
  - cbn [print_inputs parse_terminated]. pose proof (input_back i [] (or_introl eq_refl)) as E.
    rewrite app_nil_r in E. rewrite E. by destruct (print_input i) eqn:Ei.
  - change (print_inputs (i :: j :: l)) with (print_input i ++ Punct #"," :: print_inputs (j :: l)).
    cbn [parse_terminated]. rewrite input_back by (right; left; eauto).
    rewrite punct_back, IH by (cbn in *; lia). done.
Qed.

Lemma inputs_length l : (length l ≤ length (print_inputs l))%nat.
Proof.
  induction l as [|i [|j l] IH]; [done|cbn; lia|].
  change (print_inputs (i :: j :: l)) with (print_input i ++ Punct #"," :: print_inputs (j :: l)).
  rewrite length_app. cbn [length] in *. lia.
Qed.

Lemma step_back s rest : parse_step (print_step s ++ rest) = Ok (s, rest).
Proof.
  unfold parse_step, print_step. rewrite <-!app_assoc. cbn [app].
  erewrite parser_bind_ok by apply ident_back. erewrite parser_bind_ok by reflexivity.
  erewrite parser_bind_ok.
  2: { unfold inside, whole. rewrite inputs_back by apply inputs_length. reflexivity. }
  erewrite parser_bind_ok by apply punct_back. erewrite parser_bind_ok by apply ident_back.
  erewrite parser_bind_ok by apply punct_back.
  erewrite parser_bind_ok by (apply type_read; right; right; eauto).
  erewrite parser_bind_ok by apply as_back. erewrite parser_bind_ok by apply ident_back.
  erewrite parser_bind_ok by apply block_read. by destruct s.
Qed.

Lemma steps_back fuel l : (length l ≤ fuel)%nat → parse_steps fuel (l ≫= print_step) = Ok l.
Proof.
  revert fuel. induction l as [|s l IH]; intros [|fuel] Hf; try done; cbn in Hf; try lia.
  rewrite bind_cons. cbn [parse_steps]. rewrite step_back, IH by lia.
  by destruct (print_step s ++ (l ≫= print_step)) eqn:E.
Qed.

Lemma steps_length l : (length l ≤ length (l ≫= print_step))%nat.
Proof. induction l as [|s l IH]; [done|]. rewrite bind_cons, length_app. cbn in *. lia. Qed.

(** C39: the macro reads a workflow as it was written, entry by entry and step by step, and
    refuses the one that has no step. *)
Theorem workflow_read_back (w : Workflow) :
  read_workflow (print_workflow w) = match steps w with [] => Err NoStep | _ => Ok w end.
Proof.
  unfold read_workflow, whole, parse_workflow, print_workflow.
  erewrite parser_bind_ok by by apply entry_comma_back.
  erewrite parser_bind_ok by (apply entry_comma_back; unfold lift; by rewrite generics_back).
  do 3 erewrite parser_bind_ok by (apply entry_comma_back, type_read; right; left; eauto).
  do 2 erewrite parser_bind_ok by apply entry_comma_back, block_read.
  erewrite parser_bind_ok.
  2: { unfold entry, print_entry. cbn [app]. erewrite parser_bind_ok by apply keyword_back.
       erewrite parser_bind_ok by apply punct_back. reflexivity. }
  erewrite parser_bind_ok by (unfold inside; by rewrite steps_back by apply steps_length).
  destruct w as [? ? ? ? ? ? ? [|]]; done.
Qed.
End print.

(** Whether an expansion compiles is a question about its own stages. *)
Lemma compiles_check {syn : Syn} (x : Expansion) :
  NoDup (sealed x :: stage_trait x :: txn x :: (stage_name <$> stages x)) →
  Forall (λ s, NoDup (stage_fields s).*1) (stages x) →
  Forall (λ s, NoDup (method_name <$> on s (impls x))) (impl_stage <$> impls x) → compiles x.
Proof.
  intros Hi Hf Hm. split; [done|done|]. intros s.
  destruct (decide (s ∈ impl_stage <$> impls x)) as [Hs|Hs]; [by apply (proj1 (Forall_forall _ _) Hm)|].
  assert (on s (impls x) = []) as ->; [|constructor].
  revert Hs. generalize (impls x). clear. intros l. induction l as [|i l IH]; intros Hs; [done|].
  rewrite fmap_cons, not_elem_of_cons in Hs. rewrite on_cons, decide_False by naive_solver.
  apply IH. naive_solver.
Qed.

(** ** Sample values *)

Module TypestateSample.

(** Types of one name, blocks of any tokens, and parameters between angle brackets. *)
Definition one_type (ts : list Token) : option (str * list Token) :=
  match ts with Id x :: ts => Some (x, ts) | _ => None end.
Definition one_block (ts : list Token) : option (list Token * list Token) :=
  match ts with Group Brace b :: ts => Some (b, ts) | _ => None end.
Definition param_token (p : GenericParam) : Token :=
  match p with TypeParam x => Id x | LifetimeParam x => Literal x | ConstParam x => Kw x end.
Fixpoint read_params (ts : list Token) : option (list GenericParam * list Token) :=
  match ts with
  | Id x :: ts => '(l, ts) ← read_params ts; Some (TypeParam x :: l, ts)
  | Literal x :: ts => '(l, ts) ← read_params ts; Some (LifetimeParam x :: l, ts)
  | Kw x :: ts => '(l, ts) ← read_params ts; Some (ConstParam x :: l, ts)
  | Punct _ :: ts => Some ([], ts)
  | _ => None
  end.
Definition in_brackets (ts : list Token) : option (list GenericParam * list Token) :=
  match ts with Punct _ :: ts => read_params ts | _ => None end.
Definition print_params (l : list GenericParam) : list Token :=
  Punct #"<" :: (param_token <$> l) ++ [Punct #">"].

Lemma params_back l rest : in_brackets (print_params l ++ rest) = Some (l, rest).
Proof. cbn. induction l as [|[x|x|x] l IH]; cbn; [done|by rewrite IH..]. Qed.

#[export] Instance plain : Syn := {
  Ty := str; Block := list Token; Generics := list GenericParam;
  parse_type := one_type; parse_block := one_block; parse_generics := in_brackets; params := id }.

#[export] Instance plain_text : SynText := {
  type_tokens (t : @Ty plain) := [Id t]; block_tokens (b : @Block plain) := [Group Brace b];
  generics_tokens := (print_params : @Generics plain → list Token);
  type_back _ _ _ := eq_refl; block_back _ _ := eq_refl;
  generics_back g rest := params_back g (Punct #"," :: rest) }.

#[export] Instance ascii_case : CharCase := {
  is_uppercase := is_ascii_upper; to_lowercase c := [lower c] }.

(** [member_add.rs]. *)
Definition create_user : Step :=
  MkStep #"create_user" [MkInput #"new" #"NewUser"] #"user" #"User" #"UserSaved"
    [Id #"insert_user"].
Definition attach : Step :=
  MkStep #"attach" [MkInput #"tenant" #"TenantId"; MkInput #"standing" #"Standing"] #"membership"
    #"Membership" #"Attached" [Id #"insert_membership"].
Definition member_add : Workflow :=
  MkWorkflow #"MemberAdd" [TypeParam #"DB"] #"Transaction" #"StorageError" #"UserWithMembership"
    [Id #"commit"] [Id #"rollback"] [create_user; attach].

Example member_add_read : read_workflow (print_workflow member_add) = Ok member_add.
Proof. vm_compute. reflexivity. Qed.
Example empty_refused :
  read_workflow (print_workflow (MkWorkflow #"None" [] #"C" #"E" #"R" [] [] [])) = Err NoStep.
Proof. vm_compute. reflexivity. Qed.
Example member_add_stages :
  stage_list (expand member_add) = [ #"MemberAddBegun"; #"MemberAddUserSaved"; #"MemberAddAttached"] ∧
  sealed (expand member_add) = #"member_add_sealed" ∧
  (λ s, (stage_fields s).*1) <$> stages (expand member_add) = [[]; [ #"user"]; [ #"user"; #"membership"]].
Proof. split_and!; vm_compute; reflexivity. Qed.

Lemma member_add_compiles : compiles (expand member_add).
Proof. apply compiles_check; by_computation. Qed.

Lemma order_enforced_witness :
  chain (expand member_add) (TTxn #"MemberAddBegun") [ #"attach"; #"commit"] = None ∧
  (chain (expand member_add) (TTxn (begun member_add)) [ #"create_user"; #"attach"; #"commit"] = Some TRecord ↔
   [ #"create_user"; #"attach"; #"commit"] = (step_name <$> steps member_add) ++ [ #"commit"]).
Proof.
  split; [vm_compute; reflexivity|].
  apply (order_enforced member_add [ #"create_user"; #"attach"; #"commit"]). apply member_add_compiles.
Defined.

(** A carrier that keeps a log, and bodies that write their first token down; a body without one
    fails. *)
Definition log_body (b : list Token) (s : str → option Z) (c : list str) : result unit Z * list str :=
  match b with
  | Id x :: _ => (Ok (default 0 (s #"new") + Z.of_nat (length c)), c ++ [x])
  | _ => (Err tt, c)
  end.
Definition log_end (b : list Token) (s : str → option Z) (c : list str) : result unit unit * list str :=
  (Ok tt, c ++ [ #"committed"]).
Definition log_undo (b : list Token) (c : list str) : list str := c ++ [ #"undone"].
Definition broken : Workflow :=
  MkWorkflow #"MemberAdd" [] #"Transaction" #"StorageError" #"UserWithMembership" [] []
    [create_user; MkStep #"attach" [] #"membership" #"Membership" #"Attached" []].

Lemma run_in_order_witness :
  run_workflow log_body log_end log_undo broken [[7]; []] [] = (Err tt, [ #"insert_user"; #"undone"]) ∧
  ((∃ fs c1, performed log_body (steps broken) [[7]; []] [] [] fs c1 ∧ fs.*1 = output <$> steps broken ∧
     ((∃ x, log_end (finish broken) (named fs) c1 = (Ok x, [ #"insert_user"; #"undone"]) ∧
         (Err tt : result unit (list (str * Z))) = Ok fs) ∨
      ∃ e, log_end (finish broken) (named fs) c1 = (Err e, [ #"insert_user"; #"undone"]) ∧
         (Err tt : result unit (list (str * Z))) = Err e)) ∨
   (∃ done s rest dargs a rargs fs c1 e c2,
     steps broken = done ++ s :: rest ∧ [[7]; []] = dargs ++ a :: rargs ∧
     performed log_body done dargs [] [] fs c1 ∧
     log_body (body s) (scope fs (zip (input_name <$> inputs s) a)) c1 = (Err e, c2) ∧
     (Err tt : result unit (list (str * Z))) = Err e ∧
     [ #"insert_user"; #"undone"] = log_undo (abort broken) c2)).
Proof.
  assert (run_workflow log_body log_end log_undo broken [[7]; []] []
    = (Err tt, [ #"insert_user"; #"undone"])) as E by (vm_compute; reflexivity).
  split; [exact E|].
  apply (run_in_order (syn := plain) log_body log_end log_undo broken [[7]; []] [] [ #"insert_user"; #"undone"] (Err tt)).
  - reflexivity.
  - exact E.
Defined.

(** Every generated name starts with the name of its workflow, and two workflows collide all the
    same: one whose name begins with the other's, and two that differ in the case of a letter. *)
Definition one_step (name stage : str) : Workflow :=
  MkWorkflow name [] #"Ledger" #"OrderError" #"Placed" [] []
    [MkStep #"fill" [] #"basket" #"String" stage []].
Lemma workflows_collide :
  #"OrderLineBegun" ∈ stage_list (expand (one_step #"Order" #"LineBegun")) ∧
  #"OrderLineBegun" ∈ stage_list (expand (one_step #"OrderLine" #"Filled")) ∧
  compiles (expand (one_step #"Order" #"LineBegun")) ∧
  compiles (expand (one_step #"OrderLine" #"Filled")) ∧
  sealed (expand (one_step #"UserCreate" #"Saved")) = sealed (expand (one_step #"userCreate" #"Saved")).
Proof.
  split_and!; try by_computation; apply compiles_check; by_computation.
Qed.

(** An input that bears the name of something written before is not what the body sees. *)
Lemma input_shadowed :
  scope [( #"tenant", 1)] [( #"tenant", 2)] #"tenant" = Some 1.
Proof. vm_compute. reflexivity. Qed.
End TypestateSample.
