(* ===== verification/Ident.v ===== *)
(** * Ident: the errors, identifiers and other validated names of [ip-core]

    Models [crates/ip-core/src/error.rs], [id.rs], [model.rs] and the verifier of
    [passphrase.rs], with the two enumerations of [capability.rs] an error names.  A Rust
    newtype whose constructor validates its text is [refined] by that validation; the macro
    [declare_id!] is the family [ident] indexed by the kind it is declared with. *)
From S2P Require Import Prelude Text.

(** ** Capabilities, as an error names them: capability.rs *)

Inductive Capability : Type :=
  | TenantMgr | UserMgr | ApiAccess | ApiAdvMgr | LimitMgr | SysAgent | Observer.

Inductive ScopeKind : Type := KUser | KTenant | KApi.

#[export] Instance Capability_eq_dec : EqDecision Capability.
Proof. solve_decision. Defined.
#[export] Instance ScopeKind_eq_dec : EqDecision ScopeKind.
Proof. solve_decision. Defined.

(** ** error.rs *)

Inductive CoreError : Type :=
  | Empty (kind : string)
  | TooLong (kind : string) (len max : Z)
  | TooShort (kind : string) (len min : Z)
  | IllegalChar (kind : string) (ch : char)
  | HexLength (kind : string) (expected : Z)
  | HexDigit (kind : string)
  | MustStartWith (kind : string) (expected : char)
  | UnknownProtocol (value : str)
  | UnknownPluginKind (value : str)
  | UnknownCounted (value : str)
  | UnknownStrategy (value : str)
  | UnknownPeriod (value : str)
  | OrderOutOfScope (order : Z) (scope : string)
  | NoEndpoint
  | ZeroPort
  | PortOutOfRange (value : Z)
  | TimestampOutOfRange (seconds : Z)
  | ScopeMismatch (capability : Capability) (expected actual : ScopeKind).

#[export] Instance CoreError_eq_dec : EqDecision CoreError.
Proof. solve_decision. Defined.

(** ** Shared checks *)

Definition is_empty {A} (l : list A) : bool := match l with [] => true | _ => false end.

(** [match raw.chars().find(bad) { Some(ch) => Err(IllegalChar), None => Ok(()) }] *)
Definition refuse_chars (kind : string) (bad : char → bool) (raw : str)
    : result CoreError unit :=
  match List.find bad raw with
  | Some c => Err (IllegalChar kind c)
  | None => Ok tt
  end.

Lemma refuse_chars_ok kind bad raw :
  refuse_chars kind bad raw = Ok tt ↔ Forall (λ c, bad c = false) raw.
Proof.
  unfold refuse_chars. rewrite <-find_None_Forall.
  destruct (List.find bad raw); naive_solver.
Qed.

Lemma is_empty_true {A} (l : list A) : is_empty l = true ↔ l = [].
Proof. destruct l; naive_solver. Qed.

(** ** id.rs *)

Definition ID_MAX_BYTES : Z := 64.
Definition NONCE_MIN_BYTES : Z := 8.
Definition NONCE_MAX_BYTES : Z := 128.

Definition id_char (c : char) : bool :=
  is_ascii_alphanumeric c || (c =? ch "-") || (c =? ch "_") || (c =? ch ".").

Definition validate_id (kind : string) (raw : str) : result CoreError unit :=
  if is_empty raw then Err (Empty kind)
  else if ID_MAX_BYTES <? len raw then Err (TooLong kind (len raw) ID_MAX_BYTES)
  else refuse_chars kind (λ c, negb (id_char c)) raw.

(** What [declare_id!] declares for one kind: the type and its validating constructor. *)
Definition ident (kind : string) : Type := refined (validate_id kind).

Definition new_ident {kind : string} (raw : str) : result CoreError (ident kind) :=
  refine (validate_id kind) raw.

Definition TenantId : Type := ident "tenant id".
Definition UserId : Type := ident "user id".
Definition ApiId : Type := ident "api id".
Definition TurnId : Type := ident "turn id".

#[export] Instance ident_eq_dec kind : EqDecision (ident kind) := refined_eq_dec _.
#[export] Instance ident_countable kind : Countable (ident kind) := refined_countable _.
#[export] Instance TenantId_eq_dec : EqDecision TenantId := ident_eq_dec _.
#[export] Instance UserId_eq_dec : EqDecision UserId := ident_eq_dec _.
#[export] Instance ApiId_eq_dec : EqDecision ApiId := ident_eq_dec _.
#[export] Instance TenantId_countable : Countable TenantId := ident_countable _.
#[export] Instance UserId_countable : Countable UserId := ident_countable _.
#[export] Instance ApiId_countable : Countable ApiId := ident_countable _.

Definition validate_nonce (raw : str) : result CoreError unit :=
  let kind := "nonce"%string in
  if len raw <? NONCE_MIN_BYTES then Err (TooShort kind (len raw) NONCE_MIN_BYTES)
  else if NONCE_MAX_BYTES <? len raw then Err (TooLong kind (len raw) NONCE_MAX_BYTES)
  else refuse_chars kind (λ c, negb (is_ascii_graphic c)) raw.

Definition Nonce : Type := refined validate_nonce.
Definition new_nonce (raw : str) : result CoreError Nonce := refine validate_nonce raw.
#[export] Instance Nonce_eq_dec : EqDecision Nonce := refined_eq_dec _.

(** ** model.rs *)

Definition MODEL_NAME_MAX_BYTES : Z := 128.

Definition validate_model_name (raw : str) : result CoreError unit :=
  let kind := "model name"%string in
  if is_empty raw then Err (Empty kind)
  else if MODEL_NAME_MAX_BYTES <? len raw
  then Err (TooLong kind (len raw) MODEL_NAME_MAX_BYTES)
  else refuse_chars kind (λ c, negb (is_ascii_graphic c)) raw.

Definition ModelName : Type := refined validate_model_name.
Definition new_model_name (raw : str) : result CoreError ModelName :=
  refine validate_model_name raw.
#[export] Instance ModelName_eq_dec : EqDecision ModelName := refined_eq_dec _.

(** ** passphrase.rs *)

Definition HASH_MAX_BYTES : Z := 256.

Definition validate_hash (raw : str) : result CoreError unit :=
  let kind := "passphrase hash"%string in
  if is_empty raw then Err (Empty kind)
  else if HASH_MAX_BYTES <? len raw then Err (TooLong kind (len raw) HASH_MAX_BYTES)
  else if negb (starts_with #"$" raw) then Err (IllegalChar kind (default 0 (head raw)))
  else refuse_chars kind (λ c, negb (is_ascii_graphic c)) raw.

Definition PassphraseHash : Type := refined validate_hash.
Definition new_passphrase_hash (raw : str) : result CoreError PassphraseHash :=
  refine validate_hash raw.
#[export] Instance PassphraseHash_eq_dec : EqDecision PassphraseHash := refined_eq_dec _.

(** ** What validation guarantees *)

(** Every character is ascii, so the bytes of the text are its characters. *)
Definition ascii_text (s : str) : Prop := Forall (λ c, 0 ≤ c < 128) s.

Lemma as_bytes_ascii s : ascii_text s → as_bytes s = s.
Proof.
  induction 1 as [|c s Hc _ IH]; [done|]. unfold as_bytes in *. rewrite bind_cons, IH.
  unfold utf8_char. by replace (c <? 128) with true by lia.
Qed.

Lemma validate_id_ok kind raw :
  validate_id kind raw = Ok tt ↔
  raw ≠ [] ∧ len raw ≤ ID_MAX_BYTES ∧ Forall (λ c, id_char c = true) raw.
Proof.
  unfold validate_id. destruct (is_empty raw) eqn:He.
  { apply is_empty_true in He. naive_solver. }
  rewrite <-not_true_iff_false, is_empty_true in He. case_if; [naive_solver lia|].
  rewrite refuse_chars_ok. setoid_rewrite negb_false_iff. naive_solver lia.
Qed.

Lemma validate_nonce_ok raw :
  validate_nonce raw = Ok tt ↔
  NONCE_MIN_BYTES ≤ len raw ≤ NONCE_MAX_BYTES ∧
  Forall (λ c, is_ascii_graphic c = true) raw.
Proof.
  unfold validate_nonce. cbn zeta. do 2 (case_if; [naive_solver lia|]).
  rewrite refuse_chars_ok. setoid_rewrite negb_false_iff. naive_solver lia.
Qed.

Lemma id_char_graphic c : id_char c = true → is_ascii_graphic c = true.
Proof.
  unfold id_char, is_ascii_alphanumeric, is_ascii_digit, is_ascii_upper, is_ascii_lower,
    is_ascii_graphic, in_range.
  change (ch "-") with 45. change (ch "_") with 95. change (ch ".") with 46. lia.
Qed.

Lemma graphic_ascii s : Forall (λ c, is_ascii_graphic c = true) s → ascii_text s.
Proof.
  intros H. eapply Forall_impl; [exact H|]. intros c. unfold is_ascii_graphic, in_range.
  cbn. lia.
Qed.

Lemma ident_chars {kind} (i : ident kind) : Forall (λ c, id_char c = true) (val i).
Proof. apply (validate_id_ok kind), val_checked. Qed.

Lemma ident_nonempty {kind} (i : ident kind) : val i ≠ [].
Proof. apply (validate_id_ok kind), val_checked. Qed.

Lemma ident_ascii {kind} (i : ident kind) : ascii_text (val i).
Proof. apply graphic_ascii. eapply Forall_impl; [apply ident_chars|]. apply id_char_graphic. Qed.

(** Characters that separate identifiers in a key never occur inside one. *)
Lemma ident_no_char {kind} (i : ident kind) c : id_char c = false → c ∉ val i.
Proof.
  intros Hc Hin. pose proof (ident_chars i) as H. rewrite Forall_forall in H.
  rewrite (H _ Hin) in Hc. done.
Qed.

Lemma nonce_graphic (n : Nonce) : Forall (λ c, is_ascii_graphic c = true) (val n).
Proof. apply validate_nonce_ok, val_checked. Qed.

Lemma nonce_ascii (n : Nonce) : ascii_text (val n).
Proof. apply graphic_ascii, nonce_graphic. Qed.

#[export] Hint Resolve ident_ascii nonce_ascii ident_nonempty ident_no_char : prism.
