(* ===== verification/Key.v ===== *)
(** * Key: the secrets and digests of [ip-core]

    Models [crates/ip-core/src/key.rs], [trace.rs] and [Checksum] of [plugin.rs].  The
    crates [sha2], [hex] and [subtle] are the class [Crypto]: the functions the code calls
    with what their documentation promises of them. *)
From S2P Require Import Prelude Text Ident.

(** ** Fixed-width byte arrays *)

Definition is_byte (z : Z) : bool := (0 <=? z) && (z <=? 255).

Definition check_bytes (n : nat) (l : list Z) : result unit unit :=
  if Nat.eqb (length l) n && forallb is_byte l then Ok tt else Err tt.

(** Rust's [[u8; N]]. *)
Definition bytes (n : nat) : Type := refined (check_bytes n).
#[export] Instance bytes_eq_dec n : EqDecision (bytes n) := refined_eq_dec _.
#[export] Instance bytes_countable n : Countable (bytes n) := refined_countable _.

Lemma is_byte_spec z : is_byte z = true ↔ is_u8 z.
Proof. unfold is_byte. unfold_bounds. lia. Qed.

Lemma check_bytes_ok n l : check_bytes n l = Ok tt ↔ length l = n ∧ Forall is_u8 l.
Proof.
  unfold check_bytes. rewrite <-(Forall_iff _ l _ is_byte_spec), <-forallb_Forall_true.
  destruct (Nat.eqb_spec (length l) n), (forallb is_byte l); cbn; naive_solver.
Qed.

Lemma bytes_length {n} (b : bytes n) : length (val b) = n.
Proof. by apply (check_bytes_ok n), val_checked. Qed.

Lemma bytes_u8 {n} (b : bytes n) : Forall is_u8 (val b).
Proof. by apply (check_bytes_ok n), val_checked. Qed.

(** ** The crates the keys are built on *)

Class Crypto : Type := {
  (** [sha2::Sha256] over the concatenation of every [update]. *)
  sha256 : list Z → bytes 32;
  (** [hex::encode]: two lowercase digits a byte. *)
  hex_encode : list Z → str;
  (** [hex::decode_to_slice]: the bytes, or nothing when a digit is not one. *)
  hex_decode : str → option (list Z);
  hex_decode_encode : ∀ l, Forall is_u8 l → hex_decode (hex_encode l) = Some l;
  hex_encode_len : ∀ l, len (hex_encode l) = 2 * Z.of_nat (length l);
  hex_encode_chars : ∀ l, Forall (λ c, is_ascii_alphanumeric c = true) (hex_encode l);
  (** [subtle::ConstantTimeEq]: equality, in time that tells nothing of the operands. *)
  ct_eq : list Z → list Z → bool;
  ct_eq_spec : ∀ a b, ct_eq a b = true ↔ a = b
}.

Section key.
Context `{Crypto}.

(** ** key.rs *)

Definition decode_hex (n : nat) (kind : string) (raw : str) : result CoreError (bytes n) :=
  if negb (len raw =? Z.of_nat n * 2) then Err (HexLength kind (Z.of_nat n * 2))
  else
    out ← ok_or (HexDigit kind) (hex_decode raw);
    map_err (λ _, HexDigit kind) (refine (check_bytes n) out).

Definition TN_KEY_BYTES : nat := 16.
Definition DIGEST_BYTES : nat := 32.

Definition TnKey : Type := bytes TN_KEY_BYTES.
Definition UtKey : Type := bytes DIGEST_BYTES.
Definition Signature : Type := bytes DIGEST_BYTES.

Definition digest_of (secret : list Z) (nonce : Nonce) : bytes DIGEST_BYTES :=
  sha256 (secret ++ as_bytes (val nonce)).

Definition TnKey_from_hex (raw : str) : result CoreError TnKey :=
  decode_hex TN_KEY_BYTES "tenant key" raw.
Definition TnKey_to_hex (k : TnKey) : str := hex_encode (val k).

(** [sha256(user_id || tn_key)] *)
Definition derive (user : UserId) (tn_key : TnKey) : UtKey :=
  sha256 (as_bytes (val user) ++ val tn_key).

Definition UtKey_from_hex (raw : str) : result CoreError UtKey :=
  decode_hex DIGEST_BYTES "user tenant key" raw.

Definition of_user (ut_key : UtKey) (nonce : Nonce) : Signature :=
  digest_of (val ut_key) nonce.
Definition of_tenant_owner (tn_key : TnKey) (nonce : Nonce) : Signature :=
  digest_of (val tn_key) nonce.

Definition Signature_from_hex (raw : str) : result CoreError Signature :=
  decode_hex DIGEST_BYTES "signature" raw.
Definition Signature_to_hex (s : Signature) : str := hex_encode (val s).

(** [Signature::verify]. *)
Definition sig_verify (expected candidate : Signature) : bool :=
  ct_eq (val expected) (val candidate).

(** ** trace.rs and the checksum of plugin.rs *)

Definition TraceId : Type := bytes 16.
Definition TraceId_from_hex (raw : str) : result CoreError TraceId :=
  decode_hex 16 "trace id" raw.

Definition Checksum : Type := bytes DIGEST_BYTES.
Definition Checksum_of (wasm : list Z) : Checksum := sha256 wasm.
Definition Checksum_from_hex (raw : str) : result CoreError Checksum :=
  decode_hex DIGEST_BYTES "plugin checksum" raw.
Definition Checksum_matches (c : Checksum) (wasm : list Z) : bool :=
  bool_decide (Checksum_of wasm = c).

(** ** Lemmas *)

(** The hex form reads back as the bytes it was written from, whatever is being read. *)
Lemma decode_hex_encode n kind (b : bytes n) :
  decode_hex n kind (hex_encode (val b)) = Ok b.
Proof.
  unfold decode_hex. rewrite hex_encode_len, bytes_length.
  replace (2 * Z.of_nat n =? Z.of_nat n * 2) with true by lia. cbn.
  rewrite hex_decode_encode by apply bytes_u8. cbn. by rewrite refine_val.
Qed.

(** A text of the wrong length never reaches the decoder. *)
Lemma decode_hex_length n kind raw b :
  decode_hex n kind raw = Ok b → len raw = Z.of_nat n * 2.
Proof. unfold decode_hex. case_if; [done|]. intros _. lia. Qed.

Lemma sig_verify_true a b : sig_verify a b = true ↔ a = b.
Proof.
  unfold sig_verify. rewrite ct_eq_spec. split; [|by intros ->].
  apply (refined_eq (check_bytes DIGEST_BYTES)).
Qed.

(** The message hashed for a user's key is not that of any other user under any other key:
    the tenant key closes it at a fixed width. *)
Lemma derive_message_inj (u u' : UserId) (k k' : TnKey) :
  as_bytes (val u) ++ val k = as_bytes (val u') ++ val k' → u = u' ∧ k = k'.
Proof.
  intros E. rewrite !as_bytes_ascii in E by apply ident_ascii.
  apply app_inj_2 in E as [E1 E2]; [|by rewrite !bytes_length].
  split; by apply val_inj.
Qed.

(** The message signed is not that of any other secret of the same width or nonce. *)
Lemma digest_message_inj {n} (s s' : bytes n) (c c' : Nonce) :
  val s ++ as_bytes (val c) = val s' ++ as_bytes (val c') → s = s' ∧ c = c'.
Proof.
  intros E. rewrite !as_bytes_ascii in E by apply nonce_ascii.
  apply app_inj_1 in E as [E1 E2]; [|by rewrite !bytes_length].
  split; by apply val_inj.
Qed.
End key.

(** ** A concrete instance: real hex, and a digest that pads or cuts its message *)
Module SampleCrypto.
Definition hex_digit (z : Z) : Z := if z <? 10 then 48 + z else 87 + z.
Definition encode (l : list Z) : str := l ≫= λ b, [hex_digit ((b / 16) mod 16); hex_digit (b mod 16)].
Fixpoint decode (s : str) : option (list Z) :=
  match s with
  | [] => Some []
  | a :: b :: s =>
      x ← digit_of 16 a; y ← digit_of 16 b; l ← decode s; Some (x * 16 + y :: l)
  | [_] => None
  end.

(** A byte array of the right width out of any list: cut, padded and reduced. *)
Definition fit (n : nat) (l : list Z) : list Z :=
  take n (map (λ z, z mod 256) l ++ repeat 0 n).

Lemma fit_ok n l : is_ok (check_bytes n (fit n l)) = true.
Proof.
  apply is_ok_true. exists tt. apply check_bytes_ok. unfold fit. split.
  - rewrite length_take, length_app, repeat_length. lia.
  - apply Forall_take, Forall_app. split.
    + apply Forall_map, Forall_true. intros z.
      pose proof (Z.mod_pos_bound z 256). unfold_bounds. cbn. lia.
    + apply Forall_forall. intros z Hz%list_elem_of_In%repeat_spec. subst. done.
Qed.

Lemma digit_of_hex_digit z : 0 ≤ z < 16 → digit_of 16 (hex_digit z) = Some z.
Proof.
  intros Hz. unfold hex_digit, digit_of, is_ascii_digit, in_range.
  destruct (z <? 10) eqn:?.
  - replace (48 <=? 48 + z) with true by lia. replace (48 + z <=? 57) with true by lia.
    cbn. f_equal. lia.
  - replace (87 + z <=? 57) with false by lia. replace (97 <=? 87 + z) with true by lia.
    replace (87 + z <=? 102) with true by lia. rewrite andb_false_r. cbn. f_equal. lia.
Qed.

Lemma hex_digit_alnum z : 0 ≤ z < 16 → is_ascii_alphanumeric (hex_digit z) = true.
Proof.
  intros Hz. unfold hex_digit, is_ascii_alphanumeric, is_ascii_digit, is_ascii_lower, in_range.
  case_if; lia.
Qed.

Lemma decode_encode l : Forall is_u8 l → decode (encode l) = Some l.
Proof.
  induction 1 as [|b l Hb _ IH]; [done|]. unfold encode. rewrite bind_cons. cbn [app decode].
  unfold_bounds. rewrite !digit_of_hex_digit by (apply Z.mod_pos_bound; lia).
  fold (encode l). rewrite IH. cbn. do 2 f_equal.
  rewrite (Z.mod_small (b / 16))
    by (split; [apply Z.div_pos|apply Z.div_lt_upper_bound]; lia). pose proof (Z.div_mod b 16). lia.
Qed.

Lemma encode_len l : len (encode l) = 2 * Z.of_nat (length l).
Proof.
  induction l as [|b l IH]; [done|]. unfold encode. rewrite bind_cons, len_app.
  fold (encode l). rewrite IH. cbn [length].
  assert (∀ z, 0 ≤ z < 16 → utf8_width (hex_digit z) = 1) as Hw.
  { intros z Hz. unfold utf8_width, hex_digit. destruct (z <? 10); by case_if; [|lia]. }
  unfold len. cbn [map zsum]. rewrite !Hw by (apply Z.mod_pos_bound; lia). lia.
Qed.

Lemma encode_chars l : Forall (λ c, is_ascii_alphanumeric c = true) (encode l).
Proof.
  induction l as [|b l IH]; [constructor|]. unfold encode. rewrite bind_cons.
  repeat constructor; [apply hex_digit_alnum, Z.mod_pos_bound; lia..|done].
Qed.

#[export] Program Instance crypto : Crypto := {|
  sha256 m := MkRefined (fit 32 m) (fit_ok 32 m);
  hex_encode := encode;
  hex_decode := decode;
  hex_decode_encode := decode_encode;
  hex_encode_len := encode_len;
  hex_encode_chars := encode_chars;
  ct_eq a b := bool_decide (a = b)
|}.
Next Obligation. intros a b. apply bool_decide_eq_true. Qed.
End SampleCrypto.
