(* ===== verification/Capability.v ===== *)
(** * Capability: who may do what

    Models [crates/ip-core/src/capability.rs]: the scope each capability is granted at, the
    set of grants a subject holds, and what a role carries on its own. *)
From S2P Require Import Prelude Text Ident.

(** [Capability::scope_kind]. *)
Definition scope_kind (c : Capability) : ScopeKind :=
  match c with
  | TenantMgr => KUser
  | UserMgr | SysAgent | Observer => KTenant
  | ApiAccess | ApiAdvMgr | LimitMgr => KApi
  end.

(** [Capability::prerequisite]. *)
Definition prerequisite (c : Capability) : option Capability :=
  match c with
  | ApiAdvMgr | LimitMgr => Some ApiAccess
  | _ => None
  end.

Inductive CapabilityScope : Type :=
  | ScopeUser (user : UserId)
  | ScopeTenant (user : UserId) (tenant : TenantId)
  | ScopeApi (user : UserId) (tenant : TenantId) (api : ApiId).

#[export] Instance CapabilityScope_eq_dec : EqDecision CapabilityScope.
Proof. solve_decision. Defined.

(** [CapabilityScope::kind], [user], [tenant] and [api]. *)
Definition kind_of (s : CapabilityScope) : ScopeKind :=
  match s with ScopeUser _ => KUser | ScopeTenant _ _ => KTenant | ScopeApi _ _ _ => KApi end.

Definition scope_user (s : CapabilityScope) : UserId :=
  match s with ScopeUser u | ScopeTenant u _ | ScopeApi u _ _ => u end.

Definition scope_tenant (s : CapabilityScope) : option TenantId :=
  match s with ScopeUser _ => None | ScopeTenant _ t | ScopeApi _ t _ => Some t end.

Definition scope_api (s : CapabilityScope) : option ApiId :=
  match s with ScopeApi _ _ a => Some a | _ => None end.

Record Grant : Type := MkGrant {
  grant_capability : Capability;
  grant_scope : CapabilityScope
}.

#[export] Instance Grant_eq_dec : EqDecision Grant.
Proof. solve_decision. Defined.

(** [Grant::new]. *)
Definition new_grant (capability : Capability) (scope : CapabilityScope)
    : result CoreError Grant :=
  let expected := scope_kind capability in
  let actual := kind_of scope in
  if bool_decide (expected ≠ actual)
  then Err (ScopeMismatch capability expected actual)
  else Ok (MkGrant capability scope).

(** *** Countability, so that a [HashSet] of grants is a [gset] *)

Definition capability_code (c : Capability) : nat :=
  match c with
  | TenantMgr => 0 | UserMgr => 1 | ApiAccess => 2 | ApiAdvMgr => 3
  | LimitMgr => 4 | SysAgent => 5 | Observer => 6
  end%nat.

Definition capability_of_code (n : nat) : option Capability :=
  nth_error [TenantMgr; UserMgr; ApiAccess; ApiAdvMgr; LimitMgr; SysAgent; Observer] n.

#[export] Instance Capability_countable : Countable Capability.
Proof. apply (inj_countable capability_code capability_of_code). by intros []. Defined.

#[export] Instance CapabilityScope_countable : Countable CapabilityScope.
Proof.
  refine (inj_countable' (λ s, (scope_user s, scope_tenant s, scope_api s))
    (λ '(u, t, a), match t, a with
      | Some t, Some a => ScopeApi u t a
      | Some t, None => ScopeTenant u t
      | None, _ => ScopeUser u end) _).
  by intros [].
Defined.

#[export] Instance Grant_countable : Countable Grant.
Proof.
  refine (inj_countable' (λ g, (grant_capability g, grant_scope g))
    (λ '(c, s), MkGrant c s) _). by intros [].
Defined.

(** ** The set of grants *)

Definition Grants : Type := gset Grant.

(** [Grants::insert] and [Grants::remove], each with what it reports. *)
Definition grants_insert (gs : Grants) (g : Grant) : bool * Grants :=
  (bool_decide (g ∉ gs), {[ g ]} ∪ gs).
Definition grants_remove (gs : Grants) (g : Grant) : bool * Grants :=
  (bool_decide (g ∈ gs), gs ∖ {[ g ]}).

(** [FromIterator<Grant>]. *)
Definition grants_from_iter (l : list Grant) : Grants := list_to_set l.

Definition granted (gs : Grants) (capability : Capability) (scope : CapabilityScope) : bool :=
  existsb (λ g, bool_decide (grant_capability g = capability)
                && bool_decide (grant_scope g = scope)) (elements gs).

Definition holds (gs : Grants) (capability : Capability) (scope : CapabilityScope) : bool :=
  if bool_decide (scope_kind capability ≠ kind_of scope) then false
  else
    match prerequisite capability with
    | Some p => if negb (granted gs p scope) then false else granted gs capability scope
    | None => granted gs capability scope
    end.

(** ** Roles *)

Inductive Role : Type :=
  | SysAdmin
  | TenantAdmin (tenant : TenantId)
  | Member.

#[export] Instance Role_eq_dec : EqDecision Role.
Proof. solve_decision. Defined.

Definition implies (role : Role) (capability : Capability) (scope : CapabilityScope) : bool :=
  match role with
  | SysAdmin => bool_decide (scope_kind capability = kind_of scope)
  | TenantAdmin owned =>
      bool_decide (capability ≠ TenantMgr)
      && bool_decide (scope_kind capability = kind_of scope)
      && bool_decide (scope_tenant scope = Some owned)
  | Member => false
  end.

(** ** Lemmas *)

Lemma granted_spec gs c s : granted gs c s = true ↔ MkGrant c s ∈ gs.
Proof.
  unfold granted. rewrite existsb_exists. setoid_rewrite <-list_elem_of_In.
  setoid_rewrite elem_of_elements. setoid_rewrite andb_true_iff.
  setoid_rewrite bool_decide_eq_true. split.
  - intros ([c' s'] & Hin & Hc & Hs). cbn in *. by subst.
  - intros Hin. eauto.
Qed.

(** The grants a capability rests on at one scope: its own, and its prerequisite's. *)
Definition needed (c : Capability) (s : CapabilityScope) : list Grant :=
  MkGrant c s :: match prerequisite c with Some p => [MkGrant p s] | None => [] end.

Lemma holds_iff gs c s :
  holds gs c s = true ↔ scope_kind c = kind_of s ∧ Forall (.∈ gs) (needed c s).
Proof.
  unfold holds, needed. rewrite Forall_cons, <-granted_spec.
  case_bool_decide as Hk; [naive_solver|].
  destruct (prerequisite c) as [p|]; [|naive_solver].
  rewrite Forall_singleton, <-granted_spec. destruct (granted gs p s); cbn; naive_solver.
Qed.

Lemma prerequisite_scope c p : prerequisite c = Some p → scope_kind p = scope_kind c.
Proof. by destruct c; intros [= <-]. Qed.

Lemma prerequisite_basic c p : prerequisite c = Some p → prerequisite p = None.
Proof. by destruct c; intros [= <-]. Qed.

(** ** Properties *)

(** Revoking one grant takes away exactly the capabilities that rest on it, which are the
    one it names at its own scope and, at that scope, those it is the prerequisite of:
    everything else the subject held before is still held, and nothing new is. *)
Theorem revoke_spec (gs : Grants) (g : Grant) (c : Capability) (s : CapabilityScope) :
  holds (snd (grants_remove gs g)) c s
  = holds gs c s && negb (bool_decide (g ∈ needed c s)).
Proof.
  apply eq_true_iff_eq. rewrite andb_true_iff, negb_true_iff, bool_decide_eq_false.
  rewrite !holds_iff, !Forall_forall. unfold grants_remove. cbn [snd]. set_solver.
Qed.
