(* ===== verification/Route.v ===== *)
(** * Route: endpoints, targets and rules

    Models [crates/ip-core/src/route.rs]: protocols, hosts, ports, paths, the endpoint a
    request arrives at and the endpoints it may be sent to.  Hosts are held folded to
    lowercase, which is part of what the type [Host] guarantees. *)
From S2P Require Import Prelude Text Ident.

Definition RESERVED_PATH_PREFIX : str := #"/_ip".
Definition HOST_MAX_BYTES : Z := 253.
Definition HOST_LABEL_MAX_BYTES : Z := 63.
Definition PATH_MAX_BYTES : Z := 2048.

(** ** Protocol *)

Inductive Protocol : Type := Http | Https | Ws | Wss | Tcp.
#[export] Instance Protocol_eq_dec : EqDecision Protocol.
Proof. solve_decision. Defined.

Definition protocol_name (p : Protocol) : str :=
  match p with
  | Http => #"http" | Https => #"https" | Ws => #"ws" | Wss => #"wss" | Tcp => #"tcp"
  end.

Definition protocol_as_str (p : Protocol) : str :=
  match p with
  | Http => #"http://" | Https => #"https://" | Ws => #"ws://" | Wss => #"wss://"
  | Tcp => #"tcp"
  end.

Definition is_forwarded (p : Protocol) : bool :=
  match p with Http | Https => true | _ => false end.
Definition is_secure (p : Protocol) : bool :=
  match p with Https | Wss => true | _ => false end.

Definition among (raw : str) (l : list str) : bool := bool_decide (raw ∈ l).

(** [impl FromStr for Protocol]. *)
Definition parse_protocol (raw : str) : result CoreError Protocol :=
  if among raw [ #"http://"; #"http"] then Ok Http
  else if among raw [ #"https://"; #"https"] then Ok Https
  else if among raw [ #"ws://"; #"ws"] then Ok Ws
  else if among raw [ #"wss://"; #"wss"] then Ok Wss
  else if among raw [ #"tcp"; #"tcp://"] then Ok Tcp
  else Err (UnknownProtocol raw).

(** ** Host *)

Definition check_label (label : str) : result CoreError unit :=
  if is_empty label then Err (Empty "host label")
  else if HOST_LABEL_MAX_BYTES <? len label
  then Err (TooLong "host label" (len label) HOST_LABEL_MAX_BYTES)
  else if starts_with #"-" label || ends_with #"-" label
  then Err (IllegalChar "host label" (ch "-"))
  else refuse_chars "host label" (λ c, negb (is_ascii_alphanumeric c || (c =? ch "-"))) label.

(** The [for] loop over the labels, which returns at the first that is refused. *)
Fixpoint check_labels (labels : list str) : result CoreError unit :=
  match labels with
  | [] => Ok tt
  | label :: labels => check_label label;; check_labels labels
  end.

Definition validate_host (raw : str) : result CoreError unit :=
  if is_empty raw then Err (Empty "host")
  else if HOST_MAX_BYTES <? len raw then Err (TooLong "host" (len raw) HOST_MAX_BYTES)
  else match parse_ip raw with
       | Some _ => Ok tt
       | None => check_labels (split_on (Z.eqb (ch ".")) raw)
       end.

(** Text a [Host] may hold: validated, and folded. *)
Definition check_host (s : str) : result CoreError unit :=
  match List.find is_ascii_upper s with
  | Some c => Err (IllegalChar "host" c)
  | None => validate_host s
  end.

Definition Host : Type := refined check_host.
#[export] Instance Host_eq_dec : EqDecision Host := refined_eq_dec _.
#[export] Instance Host_countable : Countable Host := refined_countable _.

(** [Host::new] and [Host::as_ip]. *)
Definition new_host (raw : str) : result CoreError Host :=
  refine check_host (to_ascii_lowercase raw).
Definition as_ip (h : Host) : option IpAddr := parse_ip (val h).

(** ** Port *)

Definition check_port (value : Z) : result CoreError unit :=
  if value =? 0 then Err ZeroPort
  else match try_unsigned u16_max value with
       | Some _ => Ok tt
       | None => Err (PortOutOfRange value)
       end.

Definition Port : Type := refined check_port.
#[export] Instance Port_eq_dec : EqDecision Port := refined_eq_dec _.
#[export] Instance Port_countable : Countable Port := refined_countable _.

(** [Port::new], which is given a [u16]. *)
Definition new_port (value : Z) : result CoreError Port := refine check_port value.

(** [impl TryFrom<i64> for Port]. *)
Definition port_of_i64 (value : Z) : result CoreError Port :=
  narrowed ← ok_or (PortOutOfRange value) (try_unsigned u16_max value);
  new_port narrowed.

(** [Protocol::default_port]. *)
Definition default_port (p : Protocol) : option Port :=
  match p with
  | Http | Ws => ok (new_port 80)
  | Https | Wss => ok (new_port 443)
  | Tcp => None
  end.

(** ** AbsPath *)

Definition validate_path (raw : str) : result CoreError unit :=
  let kind := "path"%string in
  if is_empty raw then Err (Empty kind)
  else if negb (starts_with #"/" raw) then Err (MustStartWith kind (ch "/"))
  else if PATH_MAX_BYTES <? len raw then Err (TooLong kind (len raw) PATH_MAX_BYTES)
  else refuse_chars kind
    (λ c, negb (is_ascii_graphic c) || (c =? ch "?") || (c =? ch "#")) raw.

Definition AbsPath : Type := refined validate_path.
#[export] Instance AbsPath_eq_dec : EqDecision AbsPath := refined_eq_dec _.
#[export] Instance AbsPath_countable : Countable AbsPath := refined_countable _.

Definition new_path (raw : str) : result CoreError AbsPath := refine validate_path raw.

(** [AbsPath::is_reserved]. *)
Definition is_reserved (p : AbsPath) : bool :=
  match strip_prefix RESERVED_PATH_PREFIX (val p) with
  | Some rest => is_empty rest || starts_with #"/" rest
  | None => false
  end.

(** ** Endpoints *)

Record Endpoint : Type := MkEndpoint {
  protocol : Protocol;
  host : Host;
  port : Port;
  path : AbsPath
}.
#[export] Instance Endpoint_eq_dec : EqDecision Endpoint.
Proof. solve_decision. Defined.

(** [Endpoint::from_parts]. *)
Definition endpoint_from_parts (protocol host : str) (port : Z) (path : str)
    : result CoreError Endpoint :=
  p ← parse_protocol protocol;
  h ← new_host host;
  n ← port_of_i64 port;
  a ← new_path path;
  Ok (MkEndpoint p h n a).

(** [impl Display for Endpoint]. *)
Definition show_endpoint (e : Endpoint) : str :=
  protocol_as_str (protocol e) ++ val (host e) ++ #":" ++ dec (val (port e)) ++ val (path e).

Record Replica : Type := MkReplica { replica_host : Host; replica_port : Port }.
#[export] Instance Replica_eq_dec : EqDecision Replica.
Proof. solve_decision. Defined.

Definition replica_of (e : Endpoint) : Replica := MkReplica (host e) (port e).
Definition show_replica (r : Replica) : str :=
  val (replica_host r) ++ #":" ++ dec (val (replica_port r)).

(** [RouteKey] wraps the endpoint a request arrives at. *)
Record RouteKey : Type := MkRouteKey { key_endpoint : Endpoint }.
#[export] Instance RouteKey_eq_dec : EqDecision RouteKey.
Proof. solve_decision. Defined.

(** ** Targets and rules *)

(** A share of a rule's traffic, a [u32]. *)
Definition Weight : Type := refined check_u32.
#[export] Instance Weight_eq_dec : EqDecision Weight := refined_eq_dec _.

Definition is_drained (w : Weight) : bool := val w =? 0.
Definition default_weight : Weight := MkRefined (check:=check_u32) 1 eq_refl.

Record Weighted : Type := MkWeighted { endpoint : Endpoint; weight : Weight }.
#[export] Instance Weighted_eq_dec : EqDecision Weighted.
Proof. solve_decision. Defined.

Inductive Strategy : Type := RoundRobin | LeastLoad | Ratio.
#[export] Instance Strategy_eq_dec : EqDecision Strategy.
Proof. solve_decision. Defined.

Definition strategy_name (s : Strategy) : str :=
  match s with
  | RoundRobin => #"round_robin" | LeastLoad => #"least_load" | Ratio => #"ratio"
  end.

Definition strategy_named (name : str) : result CoreError Strategy :=
  if among name [ #"round_robin"] then Ok RoundRobin
  else if among name [ #"least_load"] then Ok LeastLoad
  else if among name [ #"ratio"] then Ok Ratio
  else Err (UnknownStrategy name).

Definition check_target (weighted : list Weighted) : result CoreError unit :=
  if is_empty weighted then Err NoEndpoint else Ok tt.

Definition RouteTarget : Type := refined check_target.
#[export] Instance RouteTarget_eq_dec : EqDecision RouteTarget := refined_eq_dec _.

Definition from_weighted (weighted : list Weighted) : result CoreError RouteTarget :=
  refine check_target weighted.
Definition from_endpoints (endpoints : list Endpoint) : result CoreError RouteTarget :=
  from_weighted (map (λ e, MkWeighted e default_weight) endpoints).

Record RouteRule : Type := MkRouteRule {
  rule_api : ApiId;
  rule_key : RouteKey;
  rule_target : RouteTarget;
  rule_strategy : Strategy
}.
#[export] Instance RouteRule_eq_dec : EqDecision RouteRule.
Proof. solve_decision. Defined.

(** ** Lemmas *)

Lemma lower_upper c : is_ascii_upper (lower c) = false.
Proof.
  unfold lower. destruct (is_ascii_upper c) eqn:H; [|done].
  unfold is_ascii_upper, in_range in *. lia.
Qed.

Lemma lower_id c : is_ascii_upper c = false → lower c = c.
Proof. unfold lower. by intros ->. Qed.

Lemma find_upper_lowercase s : List.find is_ascii_upper (to_ascii_lowercase s) = None.
Proof.
  apply find_None_Forall, Forall_map, Forall_true. intros c. apply lower_upper.
Qed.

Lemma lowercase_id s : List.find is_ascii_upper s = None → to_ascii_lowercase s = s.
Proof.
  rewrite find_None_Forall. unfold to_ascii_lowercase.
  induction 1 as [|c s Hc _ IH]; cbn; [done|].
  by rewrite lower_id, IH.
Qed.

Lemma check_host_lowercase s :
  check_host (to_ascii_lowercase s) = validate_host (to_ascii_lowercase s).
Proof. unfold check_host. by rewrite find_upper_lowercase. Qed.

Lemma check_host_ok s :
  check_host s = Ok tt ↔ List.find is_ascii_upper s = None ∧ validate_host s = Ok tt.
Proof. unfold check_host. destruct (List.find _ _); naive_solver. Qed.

Lemma host_lowercase (h : Host) : to_ascii_lowercase (val h) = val h.
Proof.
  apply lowercase_id. apply check_host_ok, val_checked.
Qed.

Lemma new_host_val (h : Host) : new_host (val h) = Ok h.
Proof. unfold new_host. rewrite host_lowercase. apply refine_val. Qed.

Lemma check_port_ok z : check_port z = Ok tt ↔ 1 ≤ z ≤ u16_max.
Proof.
  unfold check_port, try_unsigned.
  destruct (z =? 0) eqn:?, (0 <=? z) eqn:?, (z <=? u16_max) eqn:?; cbn; naive_solver lia.
Qed.

Lemma port_range (p : Port) : 1 ≤ val p ≤ u16_max.
Proof. apply check_port_ok, val_checked. Qed.

Lemma port_of_i64_val (p : Port) : port_of_i64 (val p) = Ok p.
Proof.
  pose proof (port_range p). unfold port_of_i64.
  rewrite (proj2 (try_unsigned_Some u16_max (val p) (val p))) by lia. cbn. apply refine_val.
Qed.

Lemma parse_protocol_name p : parse_protocol (protocol_name p) = Ok p.
Proof. by destruct p; vm_compute. Qed.

Lemma strategy_named_name s : strategy_named (strategy_name s) = Ok s.
Proof. by destruct s; vm_compute. Qed.

Lemma weight_range (w : Weight) : is_u32 (val w).
Proof. apply check_u32_ok, val_checked. Qed.

Lemma check_target_ok l : check_target l = Ok tt ↔ l ≠ [].
Proof. by destruct l. Qed.

Lemma target_nonempty (t : RouteTarget) : val t ≠ [].
Proof. apply check_target_ok, val_checked. Qed.

Lemma validate_path_ok raw :
  validate_path raw = Ok tt ↔
  (∃ rest, raw = #"/" ++ rest) ∧ len raw ≤ PATH_MAX_BYTES ∧
  Forall (λ c, is_ascii_graphic c = true ∧ c ≠ ch "?" ∧ c ≠ ch "#") raw.
Proof.
  unfold validate_path. cbn zeta. destruct (is_empty raw) eqn:He.
  { apply is_empty_true in He as ->. split; [done|]. by intros ([? [=]] & _). }
  destruct (starts_with #"/" raw) eqn:Hs; cbn [negb].
  2: { rewrite <-not_true_iff_false, starts_with_true in Hs. naive_solver. }
  apply starts_with_true in Hs. case_if; [naive_solver lia|].
  rewrite refuse_chars_ok.
  rewrite (Forall_iff _ _ (λ c, is_ascii_graphic c = true ∧ c ≠ ch "?" ∧ c ≠ ch "#")).
  - naive_solver lia.
  - intros c. destruct (is_ascii_graphic c), (Z.eqb_spec c (ch "?")), (Z.eqb_spec c (ch "#"));
      cbn; naive_solver.
Qed.

Lemma path_slash (p : AbsPath) : ∃ rest, val p = #"/" ++ rest.
Proof. apply validate_path_ok, val_checked. Qed.

Lemma path_no_query (p : AbsPath) : (ch "?" ∉ val p) ∧ (ch "#" ∉ val p).
Proof.
  pose proof (val_checked validate_path p) as (_ & _ & H)%validate_path_ok.
  rewrite Forall_forall in H. split; intros Hin; apply H in Hin; naive_solver.
Qed.

Lemma is_reserved_spec p :
  is_reserved p = true ↔ val p = #"/_ip" ∨ ∃ rest, val p = #"/_ip/" ++ rest.
Proof.
  unfold is_reserved, RESERVED_PATH_PREFIX.
  destruct (strip_prefix #"/_ip" (val p)) as [rest|] eqn:Hs.
  - apply strip_prefix_Some in Hs. rewrite Hs, orb_true_iff, is_empty_true, starts_with_true.
    change (#"/_ip/") with (#"/_ip" ++ #"/"). setoid_rewrite <-app_assoc. split.
    + intros [->|[r ->]]; [left; by rewrite app_nil_r|right; eauto].
    + intros [H|[r H]]; [left|right].
      * rewrite <-(app_nil_r #"/_ip") in H at 2. by apply app_inv_head in H.
      * apply app_inv_head in H. eauto.
  - split; [done|]. intros H. exfalso. destruct H as [H|[r H]].
    + rewrite H in Hs. done.
    + change (#"/_ip/") with (#"/_ip" ++ #"/") in H.
      rewrite H, <-app_assoc, strip_prefix_app in Hs. done.
Qed.

#[export] Hint Resolve port_range weight_range target_nonempty : prism.

(** ** Properties *)

(** What a stored row or a configuration holds of an endpoint (the protocol's name, the
    host, the port and the path) rebuilds that endpoint. *)
Theorem endpoint_roundtrip (e : Endpoint) :
  endpoint_from_parts (protocol_name (protocol e)) (val (host e)) (val (port e)) (val (path e))
  = Ok e.
Proof.
  unfold endpoint_from_parts. rewrite parse_protocol_name, new_host_val, port_of_i64_val. cbn.
  unfold new_path. rewrite refine_val. by destruct e.
Qed.

(** ** Sample values *)
Module Sample.
Definition host_of (s : str) (H : is_ok (check_host s) = true) : Host :=
  MkRefined (check := check_host) s H.
Definition port_of (z : Z) (H : is_ok (check_port z) = true) : Port :=
  MkRefined (check := check_port) z H.
Definition path_of (s : str) (H : is_ok (validate_path s) = true) : AbsPath :=
  MkRefined (check := validate_path) s H.
Definition api_of (s : str) (H : is_ok (validate_id "api id" s) = true) : ApiId :=
  MkRefined (check := validate_id "api id") s H.
Definition weight_of (z : Z) : Weight := default default_weight (ok (refine check_u32 z)).

Definition endpoint_a : Endpoint :=
  MkEndpoint Https (host_of #"a.example.com" eq_refl) (port_of 443 eq_refl) (path_of #"/v1" eq_refl).
Definition endpoint_b : Endpoint :=
  MkEndpoint Https (host_of #"b.example.com" eq_refl) (port_of 443 eq_refl) (path_of #"/v1" eq_refl).
Definition endpoint_c : Endpoint :=
  MkEndpoint Http (host_of #"10.0.0.7" eq_refl) (port_of 8080 eq_refl) (path_of #"/" eq_refl).
End Sample.
