(* ===== verification/Dispatch.v ===== *)
(** * Dispatch: which endpoint behind a rule a request is sent to

    Models [crates/ip-gateway/src/dispatch.rs].  A [Plan] is shared and changed in place, so
    every operation that touches its atomics takes the plan and gives the next one back;
    an index out of range is a panic, which is [None].  The counters keep their widths:
    [in_flight] is a [u32], [latency] and [turn] are [u64], and [fetch_add] wraps. *)
From S2P Require Import Prelude Text Ident Route.

Definition UNKNOWN_LATENCY : Z := 1000.
Definition SMOOTHING : Z := 5.
Definition BATCH : nat := 128.

Definition wrap32 (z : Z) : Z := z mod 2 ^ 32.

Record EndpointLoad : Type := MkLoad { in_flight : Z; latency : Z }.

#[export] Instance EndpointLoad_eq_dec : EqDecision EndpointLoad.
Proof. solve_decision. Defined.

Definition default_load : EndpointLoad := MkLoad 0 0.

Definition score (l : EndpointLoad) : Z :=
  let latency := match latency l with 0 => UNKNOWN_LATENCY | latency => latency end in
  wrap64 ((in_flight l + 1) * latency).

Definition answered (l : EndpointLoad) (micros : Z) : EndpointLoad :=
  let next :=
    match latency l with
    | 0 => micros
    | held => wrap64 (held - held / SMOOTHING + micros / SMOOTHING)
    end in
  MkLoad (in_flight l) next.

Record Plan : Type := MkPlan {
  live : list nat;
  shares : list Z;
  turn : Z;
  load : list EndpointLoad
}.

#[export] Instance Plan_eq_dec : EqDecision Plan.
Proof. solve_decision. Defined.

(** The running totals a [map] closure accumulates. *)
Fixpoint running_shares (running : Z) (ws : list Z) : list Z :=
  match ws with
  | [] => []
  | w :: ws => let running := wrap64 (running + w) in running :: running_shares running ws
  end.

Definition share_of (targets : list Weighted) (at_ : nat) : Z :=
  match targets !! at_ with Some t => val (weight t) | None => 0 end.

(** Positions of the endpoints with a share: [enumerate], [filter] and [map]. *)
Definition undrained (targets : list Weighted) : list nat :=
  map fst (filter (λ it, is_drained (weight it.2) = false) (imap pair targets)).

Definition live_of (targets : list Weighted) : list nat :=
  let live := undrained targets in
  if is_empty live then seq 0 (length targets) else live.

(** [Plan::of]. *)
Definition plan_of (targets : list Weighted) : Plan :=
  let live := live_of targets in
  MkPlan live (running_shares 0 (map (share_of targets) live)) 0
    (map (λ _, default_load) targets).

(** [Plan::total]. *)
Definition total (p : Plan) : Z := default 0 (last (shares p)).

(** [Plan::in_turn]. *)
Definition in_turn (p : Plan) : option (nat * Plan) :=
  at_ ← live p !! Z.to_nat (turn p mod Z.of_nat (length (live p)));
  Some (at_, MkPlan (live p) (shares p) (wrap64 (turn p + 1)) (load p)).

(** [slice::partition_point] of a slice the test partitions. *)
Fixpoint partition_point (test : Z → bool) (l : list Z) : nat :=
  match l with
  | [] => 0
  | x :: l => if test x then S (partition_point test l) else 0
  end.

(** [Plan::at_share]. *)
Definition at_share (p : Plan) (rolled : Z) : option nat :=
  live p !! Nat.min (partition_point (λ running, running <=? rolled) (shares p))
                    (length (live p) - 1).

(** [Plan::lightest]: the scan, with what it has found so far. *)
Fixpoint scan (loads : list EndpointLoad) (at_ : list nat) (lightest : nat) (least : Z)
    : option nat :=
  match at_ with
  | [] => Some lightest
  | i :: at_ =>
      l ← loads !! i;
      let score := score l in
      if score <? least then scan loads at_ i score else scan loads at_ lightest least
  end.

Definition lightest (p : Plan) : option nat :=
  first ← live p !! 0%nat;
  scan (load p) (live p) first u64_max.

(** [roll]: eight bytes of entropy, when there are any. *)
Definition roll (total : Z) (entropy : option Z) : Z :=
  match entropy with
  | None => total / 2
  | Some drawn => drawn mod total
  end.

(** [Dispatcher::by_share]. *)
Definition by_share (p : Plan) (entropy : option Z) : option nat :=
  match total p with
  | 0 => live p !! 0%nat
  | total => at_share p (roll total entropy)
  end.

Definition on_load (i : nat) (f : EndpointLoad → EndpointLoad) (p : Plan) : option Plan :=
  l ← load p !! i;
  Some (MkPlan (live p) (shares p) (turn p) (<[i := f l]> (load p))).

Definition arrive (l : EndpointLoad) : EndpointLoad := MkLoad (wrap32 (in_flight l + 1)) (latency l).
Definition leave (l : EndpointLoad) : EndpointLoad := MkLoad (wrap32 (in_flight l - 1)) (latency l).

(** Where the strategy sends the next request, before it is counted. *)
Definition pick (s : Strategy) (p : Plan) (entropy : option Z) : option (nat * Plan) :=
  match s with
  | RoundRobin => in_turn p
  | Ratio => at_ ← by_share p entropy; Some (at_, p)
  | LeastLoad => at_ ← lightest p; Some (at_, p)
  end.

(** [Dispatcher::choose]: the endpoint's index, counted against it. *)
Definition choose (s : Strategy) (p : Plan) (entropy : option Z) : option (nat * Plan) :=
  '(at_, p) ← pick s p entropy;
  p ← on_load at_ arrive p;
  Some (at_, p).

(** How long a request waited, as [Chosen::drop] reports it. *)
Definition waited (elapsed_micros : Z) : Z :=
  Z.max (default u64_max (try_unsigned u64_max elapsed_micros)) 1.

(** One rule's dispatching as a whole: its plan, the requests sent and not yet done with (the
    [Chosen]s alive), and the answers waiting for the folder. *)
Record Dispatching : Type := MkDispatching {
  plan : Plan;
  outstanding : list nat;
  answers : list (nat * Z)
}.

(** [Chosen::drop] on the request at position [k]. *)
Definition finish (k : nat) (elapsed_micros : Z) (d : Dispatching) : option Dispatching :=
  i ← outstanding d !! k;
  p ← on_load i leave (plan d);
  Some (MkDispatching p (delete k (outstanding d)) (answers d ++ [(i, waited elapsed_micros)])).

(** [Folding::fold] over what has arrived, at most a batch of it. *)
Fixpoint fold_answers (batch : list (nat * Z)) (p : Plan) : option Plan :=
  match batch with
  | [] => Some p
  | (i, micros) :: batch => p ← on_load i (λ l, answered l micros) p; fold_answers batch p
  end.

Definition fold (d : Dispatching) : option (nat * Dispatching) :=
  let batch := take BATCH (answers d) in
  p ← fold_answers batch (plan d);
  Some (length batch, MkDispatching p (outstanding d) (drop BATCH (answers d))).

Definition send (s : Strategy) (entropy : option Z) (d : Dispatching) : option Dispatching :=
  '(i, p) ← choose s (plan d) entropy;
  Some (MkDispatching p (i :: outstanding d) (answers d)).

(** What may happen to one rule's dispatching, in any order. *)
Inductive dispatch_step (s : Strategy) : Dispatching → Dispatching → Prop :=
  | step_send entropy d d' : send s entropy d = Some d' → dispatch_step s d d'
  | step_finish k micros d d' : finish k micros d = Some d' → dispatch_step s d d'
  | step_fold n d d' : fold d = Some (n, d') → dispatch_step s d d'.

Definition fresh (targets : list Weighted) : Dispatching :=
  MkDispatching (plan_of targets) [] [].

(** ** The plan of a rule *)


Lemma elem_of_undrained targets i :
  i ∈ undrained targets ↔ ∃ t, targets !! i = Some t ∧ is_drained (weight t) = false.
Proof.
  unfold undrained. change (map fst) with (fmap (M:=list) (@fst nat Weighted)).
  rewrite list_elem_of_fmap. setoid_rewrite list_elem_of_filter.
  setoid_rewrite elem_of_lookup_imap. split.
  - intros ([j t] & -> & Hd & j' & t' & [= <- <-] & Hl). eauto.
  - intros (t & Hl & Hd). exists (i, t). eauto 10.
Qed.

Lemma undrained_NoDup targets : NoDup (undrained targets).
Proof.
  unfold undrained. change (map fst) with (fmap (M:=list) (@fst nat Weighted)).
  apply NoDup_fmap_fst.
  - intros i t1 t2 [_ H1]%list_elem_of_filter [_ H2]%list_elem_of_filter.
    apply elem_of_lookup_imap in H1 as (? & ? & [= <- <-] & H1).
    apply elem_of_lookup_imap in H2 as (? & ? & [= <- <-] & H2). congruence.
  - apply NoDup_filter, (NoDup_fmap_1 fst). rewrite fmap_imap.
    change (NoDup (imap (λ j (_ : Weighted), id j) targets)).
    rewrite imap_seq_0, list_fmap_id. apply NoDup_seq.
Qed.

Lemma live_of_NoDup targets : NoDup (live_of targets).
Proof. unfold live_of. case_if; [apply NoDup_seq|apply undrained_NoDup]. Qed.

Lemma live_of_nonempty targets : targets ≠ [] → live_of targets ≠ [].
Proof.
  intros Ht. unfold live_of. destruct (undrained targets); cbn; [|done].
  by destruct targets.
Qed.

Lemma live_of_bound targets : Forall (λ i, (i < length targets)%nat) (live_of targets).
Proof.
  apply Forall_forall. intros i. unfold live_of. case_if.
  - rewrite elem_of_seq. lia.
  - rewrite elem_of_undrained. intros (t & H & _). by eapply lookup_lt_Some.
Qed.

(** Which endpoints may be sent to: those with a share, or all of them when none has any. *)
Definition sendable (targets : list Weighted) (i : nat) : Prop :=
  ∃ t, targets !! i = Some t ∧
    (is_drained (weight t) = false ∨ Forall (λ t, is_drained (weight t) = true) targets).

Lemma elem_of_live_of targets i : i ∈ live_of targets ↔ sendable targets i.
Proof.
  unfold live_of, sendable. destruct (undrained targets) as [|j l] eqn:He; cbn [is_empty].
  - assert (Forall (λ t, is_drained (weight t) = true) targets) as Hall.
    { apply Forall_lookup. intros k t Hk. destruct (is_drained (weight t)) eqn:Hd; [done|].
      assert (k ∈ undrained targets) as Hin by (apply elem_of_undrained; eauto).
      rewrite He in Hin. by apply not_elem_of_nil in Hin. }
    rewrite elem_of_seq. split; [|intros (t & Ht & _); apply lookup_lt_Some in Ht; lia].
    intros Hi. destruct (lookup_lt_is_Some_2 targets i) as [t Ht]; [lia|]. eauto.
  - rewrite <-He, elem_of_undrained. split; [naive_solver|].
    intros (t & Ht & [?|Hall]); [eauto|].
    assert (j ∈ undrained targets) as (t' & Hj & Hd)%elem_of_undrained
      by (rewrite He; set_solver).
    eapply Forall_lookup_1 in Hall; [|exact Hj]. cbn in Hall. congruence.
Qed.

(** ** What every operation keeps *)

Definition load_ok (l : EndpointLoad) : Prop := is_u32 (in_flight l) ∧ is_u64 (latency l).

Record plan_ok (targets : list Weighted) (p : Plan) : Prop := {
  ok_live : live p = live_of targets;
  ok_shares : shares p = running_shares 0 (map (share_of targets) (live_of targets));
  ok_turn : 0 ≤ turn p < 2 ^ 64;
  ok_load_length : length (load p) = length targets;
  ok_load : Forall load_ok (load p)
}.

Lemma plan_of_ok targets : plan_ok targets (plan_of targets).
Proof.
  split; cbn; [done|done|lia|by rewrite length_map|].
  apply Forall_map, Forall_true. intros _. split; cbn; unfold_bounds; lia.
Qed.

Lemma wrap64_bound z : 0 ≤ wrap64 z < 2 ^ 64.
Proof. apply Z.mod_pos_bound. lia. Qed.

Lemma running_shares_length r ws : length (running_shares r ws) = length ws.
Proof. revert r. induction ws; intros; cbn; auto. Qed.

Section operations.
Context (targets : list Weighted) (Hne : targets ≠ []).

Lemma live_lookup p k :
  plan_ok targets p → (k < length (live p))%nat → ∃ i, live p !! k = Some i ∧ i ∈ live_of targets.
Proof using.
  intros Hp Hk. destruct (lookup_lt_is_Some_2 (live p) k Hk) as [i Hi].
  exists i. split; [done|]. rewrite <-(ok_live _ _ Hp). by eapply list_elem_of_lookup_2.
Qed.

Lemma live_pos p : plan_ok targets p → (0 < length (live p))%nat.
Proof using Hne.
  intros Hp. rewrite (ok_live _ _ Hp). pose proof (live_of_nonempty _ Hne).
  destruct (live_of targets); [done|cbn; lia].
Qed.

Lemma in_turn_ok p :
  plan_ok targets p →
  ∃ i, in_turn p = Some (i, MkPlan (live p) (shares p) (wrap64 (turn p + 1)) (load p)) ∧
       i ∈ live_of targets.
Proof using Hne.
  intros Hp. pose proof (live_pos p Hp).
  pose proof (Z.mod_pos_bound (turn p) (Z.of_nat (length (live p)))).
  destruct (live_lookup p (Z.to_nat (turn p mod Z.of_nat (length (live p)))))
    as (i & Hi & Hin); [done|lia|].
  exists i. unfold in_turn. by rewrite Hi.
Qed.

Lemma by_share_ok p entropy :
  plan_ok targets p → ∃ i, by_share p entropy = Some i ∧ i ∈ live_of targets.
Proof using Hne.
  intros Hp. pose proof (live_pos p Hp). unfold by_share, at_share.
  destruct (total p); (destruct (live_lookup p 0 Hp) as (i & ? & ?); [lia|]);
    [by eauto|apply live_lookup; [done|lia]..].
Qed.

Lemma scan_ok p at_ i least :
  plan_ok targets p → Forall (.∈ live_of targets) at_ → i ∈ live_of targets →
  ∃ j, scan (load p) at_ i least = Some j ∧ j ∈ live_of targets.
Proof using.
  intros Hp Hat. revert i least. induction Hat as [|k at_ Hk _ IH]; intros i least Hi; cbn.
  { eauto. }
  destruct (lookup_lt_is_Some_2 (load p) k) as [l Hl].
  { rewrite (ok_load_length _ _ Hp). pose proof (live_of_bound targets) as Hb.
    rewrite Forall_forall in Hb. auto. }
  rewrite Hl. cbn. case_if; auto.
Qed.

Lemma lightest_ok p : plan_ok targets p → ∃ i, lightest p = Some i ∧ i ∈ live_of targets.
Proof using Hne.
  intros Hp. pose proof (live_pos p Hp). destruct (live_lookup p 0 Hp) as (i & Hi & Hin); [lia|].
  unfold lightest. rewrite Hi. cbn. apply scan_ok; [done| |done].
  rewrite (ok_live _ _ Hp). by apply Forall_forall.
Qed.

(** Every strategy finds an endpoint that may be sent to, and changes nothing but the turn. *)
Lemma pick_ok s p entropy :
  plan_ok targets p →
  ∃ i p', pick s p entropy = Some (i, p') ∧ i ∈ live_of targets ∧
    plan_ok targets p' ∧ load p' = load p.
Proof using Hne.
  intros Hp. destruct s; cbn.
  - destruct (in_turn_ok p Hp) as (i & -> & Hi). do 2 eexists. split; [done|].
    split; [done|]. split; [|done]. destruct Hp. split; cbn; auto. apply wrap64_bound.
  - destruct (lightest_ok p Hp) as (i & -> & Hi). cbn. eauto 10.
  - destruct (by_share_ok p entropy Hp) as (i & -> & Hi). cbn. eauto 10.
Qed.

Lemma on_load_ok i f p :
  plan_ok targets p → (i < length targets)%nat → (∀ l, load_ok l → load_ok (f l)) →
  ∃ l, load p !! i = Some l ∧
    on_load i f p = Some (MkPlan (live p) (shares p) (turn p) (<[i := f l]> (load p))) ∧
    plan_ok targets (MkPlan (live p) (shares p) (turn p) (<[i := f l]> (load p))).
Proof using.
  intros Hp Hi Hf. destruct (lookup_lt_is_Some_2 (load p) i) as [l Hl].
  { by rewrite (ok_load_length _ _ Hp). }
  exists l. unfold on_load. rewrite Hl. cbn. split; [done|]. split; [done|].
  destruct Hp as [? ? ? ? Hlo]. split; cbn; auto.
  - by rewrite length_insert.
  - apply Forall_insert; [done|]. apply Hf. by eapply Forall_lookup_1.
Qed.
End operations.

(** ** Latency *)

Lemma answered_between l micros :
  1 ≤ latency l ≤ u64_max → 1 ≤ micros ≤ u64_max →
  Z.min (latency l) micros ≤ latency (answered l micros) ≤ Z.max (latency l) micros.
Proof.
  intros Hl Hm. unfold answered, SMOOTHING. cbn [latency].
  set (held := latency l) in *. unfold u64_max in *.
  assert (Z.min held micros ≤ held - held / 5 + micros / 5 ≤ Z.max held micros) as H.
  { pose proof (Z.div_mod held 5). pose proof (Z.div_mod micros 5).
    pose proof (Z.mod_pos_bound held 5). pose proof (Z.mod_pos_bound micros 5). lia. }
  destruct held as [|h|h] eqn:Hh; [lia| |lia].
  unfold wrap64. rewrite Z.mod_small; lia.
Qed.

Lemma answered_ok l micros :
  load_ok l → 1 ≤ micros ≤ u64_max →
  load_ok (answered l micros) ∧ 1 ≤ latency (answered l micros).
Proof.
  intros [Hf Hl] Hm. destruct (decide (latency l = 0)) as [H0|H0].
  - unfold load_ok, answered. rewrite H0. cbn. unfold_bounds. lia.
  - pose proof (answered_between l micros) as Hb. unfold load_ok, answered in *.
    cbn [in_flight latency] in *. unfold_bounds. lia.
Qed.

Lemma waited_range e : 1 ≤ waited e ≤ u64_max.
Proof.
  unfold waited, try_unsigned, u64_max. destruct (0 <=? e) eqn:?, (e <=? 2 ^ 64 - 1) eqn:?;
    cbn; lia.
Qed.

(** ** The whole state *)

Definition sent_to (i : nat) (l : list nat) : Z := Z.of_nat (length (filter (i =.) l)).

Record dispatching_ok (targets : list Weighted) (d : Dispatching) : Prop := {
  ok_plan : plan_ok targets (plan d);
  ok_outstanding : Forall (.∈ live_of targets) (outstanding d);
  ok_answers : Forall (λ a, (a.1 < length targets)%nat ∧ 1 ≤ a.2 ≤ u64_max) (answers d);
  ok_in_flight : ∀ i l, load (plan d) !! i = Some l →
    in_flight l = wrap32 (sent_to i (outstanding d))
}.

Lemma arrive_ok l : load_ok l → load_ok (arrive l).
Proof.
  intros [_ Hl]. split; [|done]. unfold arrive, wrap32. cbn. unfold_bounds.
  pose proof (Z.mod_pos_bound (in_flight l + 1) (2 ^ 32)). lia.
Qed.

Lemma leave_ok l : load_ok l → load_ok (leave l).
Proof.
  intros [_ Hl]. split; [|done]. unfold leave, wrap32. cbn. unfold_bounds.
  pose proof (Z.mod_pos_bound (in_flight l - 1) (2 ^ 32)). lia.
Qed.

Lemma wrap32_add a b : wrap32 (wrap32 a + b) = wrap32 (a + b).
Proof. unfold wrap32. by rewrite Zplus_mod_idemp_l. Qed.

Lemma sent_to_cons i j l :
  sent_to i (j :: l) = (if decide (i = j) then 1 else 0) + sent_to i l.
Proof. unfold sent_to. rewrite filter_cons. case_decide; cbn [length]; lia. Qed.

Lemma sent_to_delete k l i j :
  l !! k = Some j → sent_to i l = (if decide (i = j) then 1 else 0) + sent_to i (delete k l).
Proof.
  intros H. rewrite <-sent_to_cons. unfold sent_to. f_equal.
  by rewrite <-(delete_Permutation _ _ _ H).
Qed.

Section dispatching.
Context (targets : list Weighted) (Hne : targets ≠ []).

Lemma live_lt i : i ∈ live_of targets → (i < length targets)%nat.
Proof using. pose proof (live_of_bound targets) as H. rewrite Forall_forall in H. auto. Qed.

Lemma fresh_ok : dispatching_ok targets (fresh targets).
Proof using.
  split; cbn; [apply plan_of_ok|constructor|constructor|].
  intros i l (t & -> & _)%list_lookup_fmap_Some. done.
Qed.

(** A request can always be sent, and it goes to a live endpoint. *)
Lemma send_ok s entropy d :
  dispatching_ok targets d →
  ∃ i p, send s entropy d = Some (MkDispatching p (i :: outstanding d) (answers d)) ∧
    i ∈ live_of targets ∧ dispatching_ok targets (MkDispatching p (i :: outstanding d) (answers d)).
Proof using Hne.
  intros Hd. destruct (pick_ok targets Hne s (plan d) entropy (ok_plan _ _ Hd))
    as (i & p & Hp & Hi & Hok & Hload).
  destruct (on_load_ok targets i arrive p Hok (live_lt i Hi) arrive_ok) as (l & Hl & Ho & Hok').
  exists i. eexists. unfold send, choose. rewrite Hp. cbn. rewrite Ho. cbn. split; [done|].
  split; [done|]. destruct Hd as [_ Hout Hans Hin]. split; cbn; [done|by constructor|done|].
  intros j lj Hj. rewrite sent_to_cons.
  destruct (decide (j = i)) as [->|Hji].
  - rewrite list_lookup_insert_eq in Hj by (by eapply lookup_lt_Some). injection Hj as <-.
    rewrite Hload in Hl. cbn. rewrite (Hin _ _ Hl), wrap32_add. f_equal. lia.
  - rewrite list_lookup_insert_ne in Hj by done. rewrite Hload in Hj. by rewrite (Hin _ _ Hj).
Qed.

(** Every request that is out can be finished, and is counted off. *)
Lemma finish_ok k micros d :
  dispatching_ok targets d → (k < length (outstanding d))%nat →
  ∃ d', finish k micros d = Some d' ∧ dispatching_ok targets d' ∧
    outstanding d' = delete k (outstanding d).
Proof using.
  intros Hd Hk. destruct (lookup_lt_is_Some_2 _ _ Hk) as [i Hi].
  pose proof (Forall_lookup_1 _ _ _ _ (ok_outstanding _ _ Hd) Hi) as Hlive.
  destruct (on_load_ok targets i leave (plan d) (ok_plan _ _ Hd) (live_lt i Hlive) leave_ok)
    as (l & Hl & Ho & Hok).
  eexists. unfold finish. rewrite Hi. cbn. rewrite Ho. cbn. split; [done|]. split; [|done].
  destruct Hd as [_ Hout Hans Hin]. split; cbn; [done|by apply Forall_delete| |].
  - apply Forall_app. split; [done|]. apply Forall_singleton. cbn.
    split; [by apply live_lt|apply waited_range].
  - intros j lj Hj. destruct (decide (j = i)) as [->|Hji].
    + rewrite list_lookup_insert_eq in Hj by (by eapply lookup_lt_Some). injection Hj as <-.
      cbn. rewrite (Hin _ _ Hl), (sent_to_delete _ _ i _ Hi), <-Z.add_opp_r, wrap32_add.
      rewrite decide_True by done. f_equal. lia.
    + rewrite list_lookup_insert_ne in Hj by done.
      rewrite (Hin _ _ Hj), (sent_to_delete _ _ j _ Hi), decide_False by done. done.
Qed.

(** Folding in any answers that name endpoints keeps the counts and loses no latency. *)
Lemma fold_answers_ok batch p :
  plan_ok targets p →
  Forall (λ a, (a.1 < length targets)%nat ∧ 1 ≤ a.2 ≤ u64_max) batch →
  ∃ p', fold_answers batch p = Some p' ∧ plan_ok targets p' ∧
    (∀ i l', load p' !! i = Some l' → ∃ l, load p !! i = Some l ∧
      in_flight l' = in_flight l ∧
      (latency l ≠ 0 ∨ i ∈ batch.*1 → latency l' ≠ 0)).
Proof using Hne.
  intros Hp Hb. revert p Hp. induction Hb as [|[i micros] batch [Hi Hm] _ IH]; intros p Hp; cbn.
  { eexists. split; [done|]. split; [done|]. intros i l Hl. exists l. set_solver. }
  cbn in Hi, Hm. destruct (lookup_lt_is_Some_2 (load p) i) as [l Hl].
  { by rewrite (ok_load_length _ _ Hp). }
  pose proof (Forall_lookup_1 _ _ _ _ (ok_load _ _ Hp) Hl) as Hlok.
  destruct (answered_ok l micros Hlok Hm) as [Ha Ha1].
  unfold on_load. rewrite Hl. cbn. destruct (IH (MkPlan (live p) (shares p) (turn p)
    (<[i := answered l micros]> (load p)))) as (p' & Hf & Hok & Hkeep).
  { destruct Hp. split; cbn; auto; [by rewrite length_insert|]. by apply Forall_insert. }
  exists p'. split; [done|]. split; [done|]. intros j l' Hj.
  destruct (Hkeep j l' Hj) as (l1 & Hl1 & Hin & Hlat). cbn in Hl1.
  destruct (decide (j = i)) as [->|Hji].
  - rewrite list_lookup_insert_eq in Hl1 by (by eapply lookup_lt_Some). injection Hl1 as <-.
    exists l. split; [done|]. split; [done|]. intros _. apply Hlat. left. lia.
  - rewrite list_lookup_insert_ne in Hl1 by done. exists l1. split; [done|]. split; [done|].
    intros [?|?]; apply Hlat; [by left|right; set_solver].
Qed.

Lemma fold_ok d :
  dispatching_ok targets d →
  ∃ n d', fold d = Some (n, d') ∧ dispatching_ok targets d'.
Proof using Hne.
  intros Hd. destruct (fold_answers_ok (take BATCH (answers d)) (plan d) (ok_plan _ _ Hd))
    as (p' & Hf & Hok & Hkeep).
  { apply Forall_take, (ok_answers _ _ Hd). }
  eexists _, _. unfold fold. rewrite Hf. cbn. split; [done|].
  destruct Hd as [_ Hout Hans Hin]. split; cbn; [done|done|by apply Forall_drop|].
  intros i l Hl. destruct (Hkeep i l Hl) as (l0 & Hl0 & -> & _). eauto.
Qed.

Lemma step_ok s d d' :
  dispatching_ok targets d → dispatch_step s d d' → dispatching_ok targets d'.
Proof using Hne.
  intros Hd Hstep. destruct Hstep as [entropy d d' H|k micros d d' H|n d d' H].
  - destruct (send_ok s entropy d Hd) as (i & p & Hs & _ & Hok).
    rewrite Hs in H. by injection H as <-.
  - destruct (decide (k < length (outstanding d))%nat) as [Hk|Hk].
    + destruct (finish_ok k micros d Hd Hk) as (d1 & Hs & Hok & _).
      rewrite Hs in H. by injection H as <-.
    + unfold finish in H. rewrite lookup_ge_None_2 in H by lia. done.
  - destruct (fold_ok d Hd) as (n' & d1 & Hs & Hok).
    rewrite Hs in H. by injection H as _ <-.
Qed.

Lemma reachable_ok s d :
  rtc (dispatch_step s) (fresh targets) d → dispatching_ok targets d.
Proof using Hne.
  generalize fresh_ok. generalize (fresh targets). intros d0 H0 Hr. revert H0.
  induction Hr as [|d0 d1 d2 Hs _ IH]; [done|]. eauto using step_ok.
Qed.
End dispatching.

(** ** Round robin *)

(** The endpoints [k] consecutive requests are sent to. *)
Fixpoint turns (k : nat) (p : Plan) : option (list nat * Plan) :=
  match k with
  | O => Some ([], p)
  | S k => '(i, p) ← in_turn p; '(l, p) ← turns k p; Some (i :: l, p)
  end.

(** A list read round and round, and [k] consecutive readings of it from the [t]-th on. *)
Definition round {A} (l : list A) (t : Z) : option A :=
  l !! Z.to_nat (t mod Z.of_nat (length l)).
Definition window {A} (l : list A) (t : Z) (k : nat) : list (option A) :=
  map (λ j, round l (t + Z.of_nat j)) (seq 0 k).

Section window.
Context {A : Type} (l : list A).
Let n : nat := length l.

Lemma window_S t k : window l t (S k) = round l t :: window l (t + 1) k.
Proof using.
  unfold window. cbn [seq map]. rewrite Z.add_0_r. f_equal.
  rewrite <-seq_shift, map_map. apply map_ext. intros j. f_equal. lia.
Qed.

Lemma window_app t k1 k2 :
  window l t (k1 + k2) = window l t k1 ++ window l (t + Z.of_nat k1) k2.
Proof using.
  revert t. induction k1 as [|k1 IH]; intros t; cbn [Nat.add app].
  - by rewrite Z.add_0_r.
  - rewrite !window_S, IH. cbn [app]. do 3 f_equal. lia.
Qed.

Lemma round_period t : round l (t + Z.of_nat n) = round l t.
Proof using.
  unfold round, n. destruct l as [|x l']; [done|].
  rewrite <-(Z.mul_1_l (Z.of_nat _)) at 1. by rewrite Z_mod_plus_full.
Qed.

Lemma window_first : window l 0 n = map Some l.
Proof using.
  apply list_eq_same_length with (n := n).
  - by rewrite length_map.
  - unfold window. by rewrite length_map, length_seq.
  - intros i x y Hi Hx Hy. apply list_lookup_fmap_Some in Hx as (j & -> & Hj).
    apply lookup_seq in Hj as [-> _]. apply list_lookup_fmap_Some in Hy as (z & -> & Hz).
    unfold round. rewrite Z.add_0_l, Z.mod_small by lia. by rewrite Nat2Z.id.
Qed.

(** Any [n] consecutive readings are the whole list, in some order. *)
Lemma window_perm t : 0 ≤ t → window l t n ≡ₚ map Some l.
Proof using.
  revert t. apply natlike_ind; [by rewrite window_first|]. intros t Ht IH.
  rewrite <-IH. apply (Permutation_cons_inv (a := round l t)).
  change (Z.succ t) with (t + 1). rewrite <-window_S, <-Nat.add_1_r, window_app.
  rewrite window_S, round_period. cbn. symmetry. apply Permutation_cons_append.
Qed.
End window.

Lemma turns_window k p :
  live p ≠ [] → 0 ≤ turn p → turn p + Z.of_nat k ≤ 2 ^ 64 →
  ∃ l p', turns k p = Some (l, p') ∧ map Some l = window (live p) (turn p) k.
Proof.
  revert p. induction k as [|k IH]; intros p Hl Ht Hk; [by exists [], p|].
  destruct (lookup_lt_is_Some_2 (live p)
    (Z.to_nat (turn p mod Z.of_nat (length (live p))))) as [i Hi].
  { assert (0 < Z.of_nat (length (live p))) by (destruct (live p); [done|cbn; lia]).
    pose proof (Z.mod_pos_bound (turn p) (Z.of_nat (length (live p)))). lia. }
  set (p1 := MkPlan (live p) (shares p) (wrap64 (turn p + 1)) (load p)).
  assert (turn p1 = turn p + 1 ∨ k = 0%nat) as Hp1.
  { destruct k; [by right|left]. cbn. unfold wrap64. rewrite Z.mod_small; lia. }
  destruct (IH p1) as (l & p' & Ht' & Hw); [done|apply wrap64_bound|destruct Hp1 as [->| ->];
    [lia|pose proof (wrap64_bound (turn p + 1)); cbn; lia]|].
  exists (i :: l), p'. split.
  - cbn [turns]. unfold in_turn. rewrite Hi. cbn. fold p1. by rewrite Ht'.
  - rewrite window_S. cbn [map]. rewrite Hw. unfold round at 1. rewrite Hi. f_equal.
    destruct Hp1 as [->| ->]; done.
Qed.

Lemma sent_to_perm i l k : l ≡ₚ k → sent_to i l = sent_to i k.
Proof. intros H. unfold sent_to. by rewrite H. Qed.

Lemma sent_to_app i l k : sent_to i (l ++ k) = sent_to i l + sent_to i k.
Proof. unfold sent_to. rewrite filter_app, length_app. lia. Qed.

Lemma sent_to_NoDup i l : NoDup l → i ∈ l → sent_to i l = 1.
Proof.
  intros Hn (l1 & l2 & ->)%list_elem_of_split.
  apply NoDup_app in Hn as (_ & Hd & (Hn & _)%NoDup_cons).
  rewrite sent_to_app, sent_to_cons, decide_True by done.
  assert (∀ k, i ∉ k → sent_to i k = 0) as H0.
  { intros k Hk. induction k as [|j k IH]; [done|]. rewrite sent_to_cons.
    rewrite decide_False, IH; set_solver. }
  rewrite !H0; set_solver.
Qed.

Lemma sent_to_map i l k : map Some l ≡ₚ map Some k → sent_to i l = sent_to i k.
Proof.
  intros H. apply sent_to_perm. apply (Permutation_map (default i)) in H.
  rewrite !map_map in H. cbn in H. by rewrite !map_id in H.
Qed.

(** Whole rounds: [q] times round a list without duplicates reads each element [q] times. *)
Lemma window_rounds {l : list nat} q t k i :
  NoDup l → i ∈ l → 0 ≤ t → map Some k = window l t (q * length l) →
  sent_to i k = Z.of_nat q.
Proof.
  intros Hn Hi. revert t k. induction q as [|q IH]; intros t k Ht Hk.
  { destruct k; [done|discriminate Hk]. }
  cbn [Nat.mul] in Hk. rewrite window_app in Hk.
  apply map_eq_app in Hk as (k1 & k2 & -> & H1 & H2). rewrite sent_to_app.
  rewrite (sent_to_map i k1 l), (sent_to_NoDup i l) by (rewrite ?H1; auto using window_perm).
  rewrite (IH (t + Z.of_nat (length l)) k2) by (done || lia). lia.
Qed.

(** ** Shares *)

Lemma running_shares_last r ws :
  0 ≤ r → Forall (λ w, 0 ≤ w) ws → r + zsum ws < 2 ^ 64 → ws ≠ [] →
  last (running_shares r ws) = Some (r + zsum ws).
Proof.
  revert r. induction ws as [|w ws IH]; intros r Hr Hw Hs Hne; [done|].
  inversion Hw as [|? ? Hw0 Hws]; subst. pose proof (zsum_nonneg ws Hws). cbn [zsum] in Hs.
  cbn [running_shares zsum]. assert (wrap64 (r + w) = r + w) as ->
    by (unfold wrap64; rewrite Z.mod_small; lia).
  destruct ws as [|w' ws]; [cbn; f_equal; lia|]. rewrite last_cons, IH by (done || lia).
  f_equal. lia.
Qed.

Lemma zsum_take_mono ws j k :
  Forall (λ w, 0 ≤ w) ws → (j ≤ k)%nat → zsum (take j ws) ≤ zsum (take k ws).
Proof.
  intros Hw Hjk. replace (take j ws) with (take j (take k ws))
    by (rewrite take_take; f_equal; lia).
  rewrite <-(take_drop j (take k ws)) at 2. rewrite zsum_app.
  pose proof (zsum_nonneg (drop j (take k ws))) as H.
  assert (0 ≤ zsum (drop j (take k ws))) by (apply H, Forall_drop, Forall_take, Hw). lia.
Qed.

(** Where a draw falls: the position whose share it is inside. *)
Lemma partition_point_running r ws rolled :
  0 ≤ r ≤ rolled → Forall (λ w, 0 ≤ w) ws → r + zsum ws < 2 ^ 64 → rolled < r + zsum ws →
  let k := partition_point (λ running, running <=? rolled) (running_shares r ws) in
  (k < length ws)%nat ∧ r + zsum (take k ws) ≤ rolled < r + zsum (take (S k) ws).
Proof.
  revert r. induction ws as [|w ws IH]; intros r Hr Hw Hs Hlt; cbn in Hs, Hlt; [lia|].
  inversion Hw as [|? ? Hw0 Hws]; subst. pose proof (zsum_nonneg ws Hws).
  cbn [running_shares partition_point]. assert (wrap64 (r + w) = r + w) as ->
    by (unfold wrap64; rewrite Z.mod_small; lia).
  destruct (r + w <=? rolled) eqn:Hle.
  - destruct (IH (r + w)) as [Hk Hb]; [lia|done|lia|lia|].
    cbn [length take zsum]. split; [lia|]. cbn [take zsum] in Hb. lia.
  - cbn [length take zsum]. rewrite firstn_O. cbn [zsum]. lia.
Qed.

(** Drawing below the total, a position is hit as often as its share. *)
Lemma partition_point_count ws k w :
  Forall (λ w, 0 ≤ w) ws → zsum ws < 2 ^ 64 → ws !! k = Some w →
  length (filter (λ rolled,
    partition_point (λ running, running <=? rolled) (running_shares 0 ws) = k)
    (seqZ 0 (zsum ws))) = Z.to_nat w.
Proof.
  intros Hw Hs Hk. pose proof (Forall_lookup_1 _ _ _ _ Hw Hk) as Hw0. cbn in Hw0.
  set (a := zsum (take k ws)).
  assert (zsum (take (S k) ws) = a + w) as Ha
    by (rewrite (take_S_r _ _ _ Hk), zsum_app; cbn; lia).
  assert (0 ≤ a) by apply zsum_nonneg, Forall_take, Hw.
  assert (a + w ≤ zsum ws).
  { pose proof (zsum_app (take (S k) ws) (drop (S k) ws)) as Hsum. rewrite take_drop in Hsum.
    pose proof (zsum_nonneg (drop (S k) ws) (Forall_drop _ _ _ Hw)). lia. }
  assert (∀ rolled, 0 ≤ rolled < zsum ws →
    partition_point (λ running, running <=? rolled) (running_shares 0 ws) = k ↔
    a ≤ rolled < a + w) as Hiff.
  { intros rolled Hr. destruct (partition_point_running 0 ws rolled) as [Hlt Hb];
      [lia|done|lia|lia|]. set (k' := partition_point _ _) in *. split.
    - intros <-. fold a in Hb. rewrite Ha in Hb. lia.
    - intros Hin. destruct (decide (k' < k)%nat).
      { pose proof (zsum_take_mono ws (S k') k Hw) as Hm. fold a in Hm. lia. }
      destruct (decide (k < k')%nat); [|lia].
      pose proof (zsum_take_mono ws (S k) k' Hw). lia. }
  replace (zsum ws) with (a + (w + (zsum ws - a - w))) at 1 by lia.
  rewrite !seqZ_app by lia. rewrite !filter_app.
  rewrite (filter_none _ (seqZ 0 a)), (filter_all _ (seqZ (0 + a) w)),
    (filter_none _ (seqZ (0 + a + w) _)).
  - cbn. rewrite length_app, length_seqZ. cbn. lia.
  - apply Forall_forall. intros r Hr%elem_of_seqZ. rewrite Hiff by lia. lia.
  - apply Forall_forall. intros r Hr%elem_of_seqZ. rewrite Hiff by lia. lia.
  - apply Forall_forall. intros r Hr%elem_of_seqZ. rewrite Hiff by lia. lia.
Qed.

Lemma share_of_range targets i : is_u32 (share_of targets i).
Proof.
  unfold share_of. destruct (targets !! i); [apply weight_range|unfold_bounds; lia].
Qed.

Lemma shares_nonneg targets l : Forall (λ w, 0 ≤ w) (map (share_of targets) l).
Proof. apply Forall_map, Forall_true. intros i. apply (share_of_range targets i). Qed.

Lemma shares_bound targets l :
  zsum (map (share_of targets) l) ≤ Z.of_nat (length l) * u32_max.
Proof.
  induction l as [|i l IH]; [done|]. cbn [map zsum length].
  pose proof (share_of_range targets i). unfold_bounds. lia.
Qed.

Lemma live_of_length targets : (length (live_of targets) ≤ length targets)%nat.
Proof.
  rewrite <-(length_seq (length targets) 0). apply NoDup_incl_length; [apply NoDup_ListNoDup, live_of_NoDup|].
  intros i Hi%list_elem_of_In%live_lt. apply in_seq. lia.
Qed.

(** ** Least load *)

Lemma scan_least loads at_ i li least j :
  loads !! i = Some li → score li ≤ least → scan loads at_ i least = Some j →
  ∃ lj, loads !! j = Some lj ∧ score lj ≤ least ∧
    ∀ k lk, k ∈ at_ → loads !! k = Some lk → score lj ≤ score lk.
Proof.
  revert i li least. induction at_ as [|k at_ IH]; intros i li least Hi Hle Hs; cbn in Hs.
  { injection Hs as <-. exists li. set_solver. }
  destruct (loads !! k) as [lk|] eqn:Hk; [cbn in Hs|done].
  destruct (score lk <? least) eqn:Hlt.
  - destruct (IH k lk (score lk)) as (lj & Hj & Hjl & Hall); [done|lia|done|].
    exists lj. split; [done|]. split; [lia|]. intros m lm [->|Hm]%elem_of_cons Hlm.
    + rewrite Hk in Hlm. by injection Hlm as <-.
    + by apply (Hall m).
  - destruct (IH i li least) as (lj & Hj & Hjl & Hall); [done|done|done|].
    exists lj. split; [done|]. split; [lia|]. intros m lm [->|Hm]%elem_of_cons Hlm.
    + rewrite Hk in Hlm. injection Hlm as <-. lia.
    + by apply (Hall m).
Qed.

(** What a new request would wait behind everything in front of it, at no particular width. *)
Definition wait (l : EndpointLoad) : Z :=
  (in_flight l + 1) * (if decide (latency l = 0) then UNKNOWN_LATENCY else latency l).

Lemma score_wait l : load_ok l → wait l ≤ u64_max → score l = wait l.
Proof.
  intros [Hf Hl] Hw. unfold score, wait, wrap64 in *. unfold_bounds.
  destruct (latency l) as [|x|x] eqn:Hlat; [| |lia].
  - rewrite decide_True in * by done. rewrite Z.mod_small; unfold UNKNOWN_LATENCY in *; lia.
  - rewrite decide_False in * by done. rewrite Z.mod_small; nia.
Qed.

Lemma score_le l : score l ≤ u64_max.
Proof. unfold score. pose proof (wrap64_bound ((in_flight l + 1) * match latency l with 0 => UNKNOWN_LATENCY | x => x end)). unfold_bounds. lia. Qed.

(** ** Properties *)

(** Whatever requests, completions and folds came before, the next request always finds an
    endpoint (no strategy indexes out of range), and that endpoint has a share of the traffic
    unless every endpoint of the rule is drained; every request that is out can be counted
    off, and the folder never fails. *)
Theorem dispatch_never_stuck (targets : list Weighted) (s : Strategy) (d : Dispatching) :
  targets ≠ [] → rtc (dispatch_step s) (fresh targets) d →
  (∀ entropy, ∃ i p, choose s (plan d) entropy = Some (i, p) ∧ sendable targets i) ∧
  (∀ k micros, (k < length (outstanding d))%nat → is_Some (finish k micros d)) ∧
  is_Some (fold d).
Proof.
  intros Hne Hr. pose proof (reachable_ok targets Hne s d Hr) as Hd. split; [|split].
  - intros entropy. destruct (send_ok targets Hne s entropy d Hd) as (i & p & Hs & Hi & _).
    unfold send in Hs. apply bind_Some in Hs as ([j q] & Hc & [= <- <-]).
    exists j, q. split; [done|]. by apply elem_of_live_of.
  - intros k micros Hk. destruct (finish_ok targets k micros d Hd Hk) as (d' & -> & _). eauto.
  - destruct (fold_ok targets Hne d Hd) as (n & d' & -> & _). eauto.
Qed.

(** The number of requests counted against each endpoint is the number sent to it and not
    yet done with, for as long as fewer than 2^32 requests are out at once. *)
Theorem in_flight_exact (targets : list Weighted) (s : Strategy) (d : Dispatching) :
  targets ≠ [] → rtc (dispatch_step s) (fresh targets) d →
  Z.of_nat (length (outstanding d)) < 2 ^ 32 →
  ∀ i l, load (plan d) !! i = Some l → in_flight l = sent_to i (outstanding d).
Proof.
  intros Hne Hr Hlen i l Hl. pose proof (reachable_ok targets Hne s d Hr) as Hd.
  rewrite (ok_in_flight _ _ Hd i l Hl). unfold wrap32, sent_to. apply Z.mod_small.
  pose proof (length_filter (i =.) (outstanding d)). lia.
Qed.

(** Round robin is fair: any run of [q] whole rounds sends exactly [q] requests to each
    live endpoint, wherever the turn had reached, until the 64-bit turn counter wraps. *)
Theorem round_robin_fair (targets : list Weighted) (p : Plan) (q : nat) :
  targets ≠ [] → plan_ok targets p →
  turn p + Z.of_nat (q * length (live_of targets)) ≤ 2 ^ 64 →
  ∃ sent p', turns (q * length (live_of targets)) p = Some (sent, p') ∧
    length sent = (q * length (live_of targets))%nat ∧
    ∀ i, i ∈ live_of targets → sent_to i sent = Z.of_nat q.
Proof.
  intros Hne Hp Hq. pose proof (live_of_nonempty targets Hne). rewrite <-(ok_live _ _ Hp) in *.
  destruct (turns_window (q * length (live p)) p) as (l & p' & Ht & Hw);
    [done|apply Hp|done|].
  exists l, p'. split; [done|]. split.
  - apply (f_equal length) in Hw. unfold window in Hw. by rewrite !length_map, length_seq in Hw.
  - intros i Hi. eapply window_rounds; [|done|apply Hp|exact Hw].
    rewrite (ok_live _ _ Hp). apply live_of_NoDup.
Qed.

(** Ratio dispatch is exact: of the draws below the total of the live shares, the number
    that send a request to an endpoint is that endpoint's weight. *)
Theorem ratio_exact (targets : list Weighted) (p : Plan) (i : nat) :
  plan_ok targets p → Z.of_nat (length targets) ≤ 2 ^ 32 → i ∈ live_of targets →
  total p = zsum (map (share_of targets) (live_of targets)) ∧
  length (filter (λ rolled, at_share p rolled = Some i) (seqZ 0 (total p)))
  = Z.to_nat (share_of targets i).
Proof.
  intros Hp Hlen Hi. set (ws := map (share_of targets) (live_of targets)).
  pose proof (shares_nonneg targets (live_of targets)) as Hnn. fold ws in Hnn.
  pose proof (shares_bound targets (live_of targets)) as Hsb. fold ws in Hsb.
  pose proof (live_of_length targets). assert (zsum ws < 2 ^ 64) by (unfold_bounds; lia).
  assert (total p = zsum ws) as Ht.
  { unfold total. rewrite (ok_shares _ _ Hp). fold ws. rewrite running_shares_last; [done|lia|done|lia|].
    unfold ws. intros He. apply map_eq_nil in He. rewrite He in Hi. by apply not_elem_of_nil in Hi. }
  split; [done|]. rewrite Ht. apply list_elem_of_lookup in Hi as [k Hk].
  rewrite <-(partition_point_count ws k (share_of targets i)); [|done|done|].
  2: { unfold ws. change (map ?f ?l) with (f <$> l). by rewrite list_lookup_fmap, Hk. }
  f_equal. apply filter_ext_in. intros rolled Hr%elem_of_seqZ.
  destruct (partition_point_running 0 ws rolled) as [Hlt _]; [lia|done|lia|lia|].
  unfold at_share. rewrite (ok_shares _ _ Hp), (ok_live _ _ Hp). fold ws.
  unfold ws in Hlt at 2. rewrite length_map in Hlt.
  rewrite Nat.min_l by lia. split.
  - intros Hj. by eapply NoDup_lookup; [apply live_of_NoDup|..].
  - by intros ->.
Qed.

(** Least load is least: the endpoint chosen is live, and no live endpoint would keep a new
    request waiting for less (as long as the waits themselves fit 64 bits). *)
Theorem lightest_least (targets : list Weighted) (p : Plan) :
  targets ≠ [] → plan_ok targets p → Forall (λ l, wait l ≤ u64_max) (load p) →
  ∃ i l, lightest p = Some i ∧ sendable targets i ∧ load p !! i = Some l ∧
    ∀ k lk, sendable targets k → load p !! k = Some lk → wait l ≤ wait lk.
Proof.
  intros Hne Hp Hw. destruct (lightest_ok targets Hne p Hp) as (i & Hi & Hlive).
  pose proof Hi as Hi'. unfold lightest in Hi'. apply bind_Some in Hi' as (f & Hf & Hs).
  assert (is_Some (load p !! f)) as [lf Hlf].
  { apply lookup_lt_is_Some_2. rewrite (ok_load_length _ _ Hp). apply live_lt.
    rewrite <-(ok_live _ _ Hp). by eapply list_elem_of_lookup_2. }
  destruct (scan_least _ _ _ _ _ _ Hlf (score_le lf) Hs) as (l & Hl & _ & Hall).
  exists i, l. split; [done|]. split; [by apply elem_of_live_of|]. split; [done|].
  intros k lk Hk%elem_of_live_of Hlk. rewrite <-(ok_live _ _ Hp) in Hk.
  specialize (Hall k lk Hk Hlk). pose proof (ok_load _ _ Hp) as Hlo.
  rewrite Forall_lookup in Hw, Hlo. rewrite !score_wait in Hall; eauto.
Qed.

(** An answer moves what its endpoint is taken to need towards the answer's own latency
    and never past either: the estimate stays between what it was and what was measured, so
    it neither overflows nor falls back to the zero that marks an untried endpoint. *)
Theorem latency_between (l : EndpointLoad) (elapsed : Z) :
  load_ok l → latency l ≠ 0 →
  Z.min (latency l) (waited elapsed) ≤ latency (answered l (waited elapsed))
    ≤ Z.max (latency l) (waited elapsed) ∧
  latency (answered l (waited elapsed)) ≠ 0.
Proof.
  intros Hl H0. pose proof (waited_range elapsed).
  pose proof (answered_between l (waited elapsed)). destruct Hl as [_ Hl]. unfold_bounds. lia.
Qed.

(** ** Witnesses *)

Definition sample_targets : list Weighted :=
  [MkWeighted Sample.endpoint_a (Sample.weight_of 3); MkWeighted Sample.endpoint_b (Sample.weight_of 0);
   MkWeighted Sample.endpoint_c (Sample.weight_of 2)].

Lemma sample_targets_ne : sample_targets ≠ [].
Proof. done. Qed.

(** A run of the dispatcher, event by event. *)
Inductive event : Type := ESend (entropy : option Z) | EFinish (k : nat) (micros : Z) | EFold.

Fixpoint run_events (s : Strategy) (es : list event) (d : Dispatching) : option Dispatching :=
  match es with
  | [] => Some d
  | e :: es =>
      d ← match e with
          | ESend entropy => send s entropy d
          | EFinish k micros => finish k micros d
          | EFold => snd <$> fold d
          end;
      run_events s es d
  end.

Lemma run_events_rtc s es d d' : run_events s es d = Some d' → rtc (dispatch_step s) d d'.
Proof.
  revert d. induction es as [|e es IH]; intros d; cbn; [intros [= ->]; apply rtc_refl|].
  rewrite bind_Some. intros (d1 & He & Hr). eapply rtc_l; [|by apply IH]. destruct e.
  - by eapply step_send.
  - by eapply step_finish.
  - apply fmap_Some in He as ([n d2] & Hf & ->). by eapply step_fold.
Qed.

Definition sample_events : list event := [ESend None; ESend None; EFinish 1 250; EFold].
Definition sample_dispatching : Dispatching :=
  default (fresh sample_targets) (run_events RoundRobin sample_events (fresh sample_targets)).

Lemma sample_reachable : rtc (dispatch_step RoundRobin) (fresh sample_targets) sample_dispatching.
Proof. apply (run_events_rtc _ sample_events). vm_compute. reflexivity. Qed.

Lemma dispatch_never_stuck_witness :
  ∃ i p, choose RoundRobin (plan sample_dispatching) None = Some (i, p) ∧
    sendable sample_targets i.
Proof.
  apply (dispatch_never_stuck sample_targets RoundRobin sample_dispatching
    sample_targets_ne sample_reachable).
Defined.

Lemma in_flight_exact_witness :
  (in_flight <$> load (plan sample_dispatching) !! 2%nat) = Some 1 ∧
  ∀ i l, load (plan sample_dispatching) !! i = Some l →
    in_flight l = sent_to i (outstanding sample_dispatching).
Proof.
  split; [vm_compute; reflexivity|].
  apply (in_flight_exact sample_targets RoundRobin); [apply sample_targets_ne|apply sample_reachable|].
  vm_compute. reflexivity.
Defined.

Lemma round_robin_fair_witness :
  ∃ sent p', turns (2 * length (live_of sample_targets)) (plan_of sample_targets) = Some (sent, p') ∧
    length sent = (2 * length (live_of sample_targets))%nat ∧
    ∀ i, i ∈ live_of sample_targets → sent_to i sent = 2.
Proof.
  apply (round_robin_fair sample_targets (plan_of sample_targets) 2);
    [apply sample_targets_ne|apply plan_of_ok|vm_compute; congruence].
Defined.

Lemma ratio_exact_witness :
  total (plan_of sample_targets) = 5 ∧
  length (filter (λ rolled, at_share (plan_of sample_targets) rolled = Some 0%nat)
    (seqZ 0 (total (plan_of sample_targets)))) = 3%nat.
Proof.
  apply (ratio_exact sample_targets (plan_of sample_targets) 0);
    [apply plan_of_ok|vm_compute; congruence|vm_compute; left].
Defined.

Lemma lightest_least_witness :
  ∃ i l, lightest (plan_of sample_targets) = Some i ∧ sendable sample_targets i ∧
    load (plan_of sample_targets) !! i = Some l ∧
    ∀ k lk, sendable sample_targets k → load (plan_of sample_targets) !! k = Some lk →
      wait l ≤ wait lk.
Proof.
  apply (lightest_least sample_targets (plan_of sample_targets));
    [apply sample_targets_ne|apply plan_of_ok|].
  apply Forall_map, Forall_true. intros _. vm_compute. congruence.
Defined.

Lemma latency_between_witness :
  latency (answered (MkLoad 2 4000) (waited 9000)) = 5000 ∧
  Z.min 4000 9000 ≤ latency (answered (MkLoad 2 4000) (waited 9000)) ≤ Z.max 4000 9000 ∧
  latency (answered (MkLoad 2 4000) (waited 9000)) ≠ 0.
Proof.
  split; [vm_compute; reflexivity|]. apply (latency_between (MkLoad 2 4000) 9000).
  - split; unfold_bounds; cbn; lia.
  - done.
Defined.
