(* ===== verification/Table.v ===== *)
(** * Table: which rule carries a request

    Models [crates/ip-gateway/src/table.rs]: the rules in force, grouped by the authority
    that must match exactly and ordered longest path first, the lookup of a request among
    them, and the key a request is looked up by. *)
From S2P Require Import Prelude Text Ident Route Dispatch.

Definition Authority : Type := Protocol * Host * Port.

Definition authority (e : Endpoint) : Authority := (protocol e, host e, port e).

#[export] Instance Protocol_countable : Countable Protocol.
Proof.
  refine (inj_countable (λ p, match p with
      | Http => 0 | Https => 1 | Ws => 2 | Wss => 3 | Tcp => 4 end%nat)
    (nth_error [Http; Https; Ws; Wss; Tcp]) _). by intros [].
Defined.
#[export] Instance Authority_eq_dec : EqDecision Authority := _.
#[export] Instance Authority_countable : Countable Authority := _.

(** A rule and what a dispatcher needs to know about its endpoints. *)
Record Planned : Type := MkPlanned { planned_rule : RouteRule; planned_plan : Plan }.

#[export] Instance Planned_eq_dec : EqDecision Planned.
Proof. solve_decision. Defined.

(** [impl From<RouteRule> for Planned]. *)
Definition planned (r : RouteRule) : Planned := MkPlanned r (plan_of (val (rule_target r))).

Record Resolution : Type := MkResolution {
  res_rule : RouteRule;
  res_targets : list Weighted;
  res_plan : Plan
}.

#[export] Instance Resolution_eq_dec : EqDecision Resolution.
Proof. solve_decision. Defined.

Abbreviation RoutingTable := (gmap Authority (list Planned)).

(** ** Building the table *)

Definition rule_endpoint (r : RouteRule) : Endpoint := key_endpoint (rule_key r).
Definition rule_path (r : RouteRule) : AbsPath := path (rule_endpoint r).

(** [.entry(authority).or_default().push(..)] *)
Definition push_rule (t : RoutingTable) (r : RouteRule) : RoutingTable :=
  let a := authority (rule_endpoint r) in
  <[a := default [] (t !! a) ++ [planned r]]> t.

(** The comparison [sort_by] is given, as "does not come after". *)
Definition longer_first (left right : Planned) : bool :=
  len (val (rule_path (planned_rule right))) <=? len (val (rule_path (planned_rule left))).

Definition from_rules (rules : list RouteRule) : RoutingTable :=
  sort_by longer_first <$> fold_left push_rule rules ∅.

Inductive RouteError : Type :=
  | ReservedPath (path : AbsPath).

#[export] Instance RouteError_eq_dec : EqDecision RouteError.
Proof. solve_decision. Defined.

(** The loop that adds every stored rule under a key nothing before it claims. *)
Definition add_dynamic (rules : list RouteRule) (rule : RouteRule) : list RouteRule :=
  if negb (existsb (λ r, bool_decide (rule_key r = rule_key rule)) rules)
  then rules ++ [rule] else rules.

Definition merge (configured dynamic : list RouteRule) : list RouteRule :=
  fold_left add_dynamic dynamic configured.

(** [RoutingTable::assemble]. *)
Definition assemble (configured dynamic : list RouteRule) : result RouteError RoutingTable :=
  let rules := merge configured dynamic in
  match List.find (λ r, is_reserved (rule_path r)) rules with
  | Some r => Err (ReservedPath (rule_path r))
  | None => Ok (from_rules rules)
  end.

(** ** Looking a request up *)

Definition strip_slash (s : str) : str := default s (strip_suffix #"/" s).

Definition remainder_of (rule requested : str) : option str :=
  if bool_decide (rule = #"/") then Some requested
  else
    let rule := strip_slash rule in
    if bool_decide (requested = rule) then Some []
    else
      rest ← strip_prefix rule requested;
      if starts_with #"/" rest then Some rest else None.

Definition join (target remainder : str) : str :=
  if is_empty remainder then target else strip_slash target ++ remainder.

(** The endpoints of a target with the remainder appended, or nothing when one is no path. *)
Definition carried (remainder : str) (w : Weighted) : option Weighted :=
  let e := endpoint w in
  p ← ok (new_path (join (val (path e)) remainder));
  Some (MkWeighted (MkEndpoint (protocol e) (host e) (port e) p) (weight w)).

Fixpoint resolve_in (group : list Planned) (requested : str) : option Resolution :=
  match group with
  | [] => None
  | p :: group =>
      let rule := planned_rule p in
      match remainder_of (val (rule_path rule)) requested with
      | None => resolve_in group requested
      | Some remainder =>
          targets ← mapM (carried remainder) (val (rule_target rule));
          Some (MkResolution rule targets (planned_plan p))
      end
  end.

(** [RoutingTable::resolve]. *)
Definition resolve (t : RoutingTable) (key : RouteKey) : option Resolution :=
  let requested := key_endpoint key in
  group ← t !! authority requested;
  resolve_in group (val (path requested)).

(** [RoutingTable::len]. *)
Definition table_len (t : RoutingTable) : nat :=
  sum_list (map (λ kv, length kv.2) (map_to_list t)).

(** [Dispatcher::choose] on a resolution: the strategy of its rule picks an index into the
    plan, which is an index into the resolved targets.  The plan is the one the rule shares
    with every request before this one. *)
Definition dispatch (res : Resolution) (p : Plan) (entropy : option Z)
    : option (Endpoint * nat * Plan) :=
  '(at_, p) ← choose (rule_strategy (res_rule res)) p entropy;
  w ← res_targets res !! at_;
  Some (endpoint w, at_, p).

(** ** The key of a request *)

Definition split_authority (raw : str) (default_port : Z) : str * Z :=
  match (rest ← strip_prefix #"[" raw; split_once (ch "]") rest) with
  | Some (inside, after) =>
      (inside, default default_port
        (port ← strip_prefix #":" after; parse_unsigned u16_max port))
  | None =>
      match rsplit_once (ch ":") raw with
      | Some (name, port) =>
          if negb (contains_char (ch ":") name)
          then (name, default default_port (parse_unsigned u16_max port))
          else (raw, default_port)
      | None => (raw, default_port)
      end
  end.

Definition request_key (p : Protocol) (raw_host : str) (listen_port : Z) (raw_path : str)
    : result CoreError RouteKey :=
  let '(host, port) := split_authority raw_host listen_port in
  h ← new_host host;
  n ← new_port port;
  a ← new_path raw_path;
  Ok (MkRouteKey (MkEndpoint p h n a)).

(** ** What a lookup should find *)

(** A rule claims a path on a segment boundary: the path is the rule's own, less a closing
    slash, followed by nothing or by a slash and more. *)
Definition claims (rule requested remainder : str) : Prop :=
  requested = strip_slash rule ++ remainder ∧ (remainder = [] ∨ ∃ r, remainder = #"/" ++ r).

Definition carries (key : RouteKey) (r : RouteRule) (remainder : str) : Prop :=
  authority (rule_endpoint r) = authority (key_endpoint key) ∧
  claims (val (rule_path r)) (val (path (key_endpoint key))) remainder.

Definition path_len (r : RouteRule) : Z := len (val (rule_path r)).

(** The rule that ought to carry a request: none is longer, and of those as long it is the
    first. *)
Definition first_longest (rules : list RouteRule) (key : RouteKey) (r : RouteRule)
    (remainder : str) : Prop :=
  ∃ before after, rules = before ++ r :: after ∧ carries key r remainder ∧
    (∀ r' m, r' ∈ before → carries key r' m → path_len r' < path_len r) ∧
    (∀ r' m, r' ∈ after → carries key r' m → path_len r' ≤ path_len r).

(** ** Lemmas *)

Lemma remainder_of_spec (rule requested : AbsPath) rem :
  remainder_of (val rule) (val requested) = Some rem ↔
  claims (val rule) (val requested) rem.
Proof.
  unfold remainder_of, claims. case_bool_decide as Hr.
  - assert (strip_slash (val rule) = []) as -> by (by rewrite Hr). cbn [app].
    split; [intros [= <-]|by intros [-> _]]. split; [done|right; apply path_slash].
  - cbn zeta. case_bool_decide as He.
    + rewrite He. split; [intros [= <-]|].
      * split; [by rewrite app_nil_r|by left].
      * intros [H _]. rewrite <-(app_nil_r (strip_slash _)) in H at 1.
        apply app_inv_head in H. by subst.
    + rewrite bind_Some. setoid_rewrite strip_prefix_Some. split.
      * intros (rest & Hq & Hs). case_if; simplify_eq. split; [done|right].
        by apply starts_with_true.
      * intros [Hq [->|[r ->]]]; [by rewrite app_nil_r in Hq|].
        eexists. split; [done|]. by rewrite (proj2 (starts_with_true _ _)) by eauto.
Qed.

Lemma push_rules_lookup rules t a :
  fold_left push_rule rules t !! a =
  match filter (λ r, authority (rule_endpoint r) = a) rules with
  | [] => t !! a
  | g => Some (default [] (t !! a) ++ map planned g)
  end.
Proof.
  revert t. induction rules as [|r rules IH]; intros t; [done|]. cbn [fold_left].
  rewrite IH, filter_cons. unfold push_rule. cbv zeta. case_decide as Ha.
  - rewrite Ha, lookup_insert_eq. destruct (filter _ rules); cbn; [done|].
    by rewrite <-app_assoc.
  - by rewrite lookup_insert_ne.
Qed.

Definition rule_longer (left right : RouteRule) : bool := path_len right <=? path_len left.

Lemma from_rules_lookup rules a :
  from_rules rules !! a =
  match filter (λ r, authority (rule_endpoint r) = a) rules with
  | [] => None
  | g => Some (map planned (sort_by rule_longer g))
  end.
Proof.
  unfold from_rules. rewrite lookup_fmap, push_rules_lookup.
  destruct (filter _ rules) as [|r g] eqn:Hg; [done|]. cbn [fmap option_fmap option_map].
  rewrite lookup_empty. cbn [default app]. f_equal. by apply (sort_by_map planned rule_longer).
Qed.

(** The rest of a lookup once its rule is known. *)
Definition resolution_of (requested : str) (r : RouteRule) : option Resolution :=
  remainder ← remainder_of (val (rule_path r)) requested;
  targets ← mapM (carried remainder) (val (rule_target r));
  Some (MkResolution r targets (plan_of (val (rule_target r)))).

Definition claimed (requested : str) (r : RouteRule) : bool :=
  match remainder_of (val (rule_path r)) requested with Some _ => true | None => false end.

Lemma resolve_in_find l requested :
  resolve_in (map planned l) requested
  = (r ← List.find (claimed requested) l; resolution_of requested r).
Proof.
  induction l as [|r l IH]; [done|]. cbn [map resolve_in List.find planned_rule planned].
  unfold claimed at 1. destruct (remainder_of (val (rule_path r)) requested) eqn:Hr; [|done].
  cbn [mbind option_bind]. unfold resolution_of. by rewrite Hr.
Qed.

Lemma resolve_find rules key :
  let requested := val (path (key_endpoint key)) in
  resolve (from_rules rules) key
  = (r ← List.find (claimed requested) (sort_by rule_longer
       (filter (λ r, authority (rule_endpoint r) = authority (key_endpoint key)) rules));
     resolution_of requested r).
Proof.
  cbn zeta. unfold resolve. rewrite from_rules_lookup.
  destruct (filter _ rules) as [|r g]; [done|]. cbn [mbind option_bind].
  apply resolve_in_find.
Qed.

Lemma claimed_true key r :
  claimed (val (path (key_endpoint key))) r = true ↔
  ∃ m, claims (val (rule_path r)) (val (path (key_endpoint key))) m.
Proof.
  unfold claimed. setoid_rewrite <-remainder_of_spec.
  destruct (remainder_of _ _); naive_solver.
Qed.

(** The rule a lookup finds is the one that ought to carry the request. *)
Lemma find_first_longest rules key r :
  List.find (claimed (val (path (key_endpoint key)))) (sort_by rule_longer
    (filter (λ r, authority (rule_endpoint r) = authority (key_endpoint key)) rules)) = Some r ↔
  ∃ m, first_longest rules key r m.
Proof.
  rewrite (find_sort_by path_len). setoid_rewrite claimed_true. unfold first_longest, carries.
  split.
  - intros (l1 & l2 & Hf & [m Hm] & H1 & H2).
    apply filter_split_inv in Hf as (k1 & k2 & -> & <- & <- & Ha).
    exists m, k1, k2. split; [done|]. split; [done|]. split.
    + intros r' m' Hr' [Ha' Hm']. apply H1; [by apply list_elem_of_filter|eauto].
    + intros r' m' Hr' [Ha' Hm']. apply H2; [by apply list_elem_of_filter|eauto].
  - intros (m & k1 & k2 & -> & [Ha Hm] & H1 & H2).
    rewrite filter_app, filter_cons_True by done. eexists _, _. split; [done|].
    split; [eauto|]. split.
    + intros r' [Ha' Hr']%list_elem_of_filter [m' Hm']. by eapply H1.
    + intros r' [Ha' Hr']%list_elem_of_filter [m' Hm']. by eapply H2.
Qed.

(** The endpoints a rule's target becomes once the remainder is appended. *)
Definition forwarded (remainder : str) (w w' : Weighted) : Prop :=
  protocol (endpoint w') = protocol (endpoint w) ∧ host (endpoint w') = host (endpoint w) ∧
  port (endpoint w') = port (endpoint w) ∧ weight w' = weight w ∧
  val (path (endpoint w')) = join (val (path (endpoint w))) remainder.

Lemma carried_Some m w w' : carried m w = Some w' ↔ forwarded m w w'.
Proof.
  unfold carried, forwarded. rewrite bind_Some. setoid_rewrite ok_Some. split.
  - intros (p & Hp & [= <-]). apply refine_ok in Hp as [_ Hp]. by cbn.
  - destruct w as [[p h n a] k], w' as [[p' h' n' a'] k']. cbn.
    intros (-> & -> & -> & -> & Ha). exists a'. split; [|done]. rewrite <-Ha. apply refine_val.
Qed.

(** The rule and its whole target, or nothing: a remainder that makes one endpoint's path too
    long fails the lookup. *)
Lemma resolution_of_Some key r res :
  resolution_of (val (path (key_endpoint key))) r = Some res ↔
  ∃ m, claims (val (rule_path r)) (val (path (key_endpoint key))) m ∧
    res_rule res = r ∧ res_plan res = plan_of (val (rule_target r)) ∧
    Forall2 (forwarded m) (val (rule_target r)) (res_targets res).
Proof.
  unfold resolution_of. rewrite bind_Some. setoid_rewrite bind_Some.
  setoid_rewrite remainder_of_spec. setoid_rewrite mapM_Some.
  assert (∀ m l k, Forall2 (λ x y, carried m x = Some y) l k ↔ Forall2 (forwarded m) l k) as Hc.
  { intros m l k. split; intros H; eapply Forall2_impl; try exact H; intros ? ?;
      apply carried_Some. }
  setoid_rewrite Hc. split.
  - intros (m & Hm & ts & Hts & [= <-]). eauto.
  - intros (m & Hm & Hr & Hp & Hts). exists m. split; [done|]. exists (res_targets res).
    split; [done|]. destruct res; cbn in *. by subst.
Qed.

Lemma claims_unique rule requested m m' :
  claims rule requested m → claims rule requested m' → m = m'.
Proof. intros [-> _] [H _]. by apply app_inv_head in H. Qed.

(** ** Properties *)

(** C27: the table built by grouping and sorting finds the rule a reader of the plain rule list
    would: of the rules whose authority is the request's and whose path claims it on a segment
    boundary, the first of the longest.  Its whole target comes back with the unclaimed
    remainder appended to every endpoint's path and nothing else of it changed. *)
Theorem resolve_spec (rules : list RouteRule) (key : RouteKey) (res : Resolution) :
  resolve (from_rules rules) key = Some res ↔
  ∃ m, first_longest rules key (res_rule res) m ∧
    res_plan res = plan_of (val (rule_target (res_rule res))) ∧
    Forall2 (forwarded m) (val (rule_target (res_rule res))) (res_targets res).
Proof.
  rewrite resolve_find, bind_Some. setoid_rewrite find_first_longest.
  setoid_rewrite resolution_of_Some. split.
  - intros (r & (m & Hf) & m' & Hc & -> & Hp & Hts). exists m. split; [done|].
    split; [done|]. destruct Hf as (k1 & k2 & _ & [_ Hm] & _).
    by rewrite (claims_unique _ _ _ _ Hm Hc).
  - intros (m & Hf & Hp & Hts). exists (res_rule res). split; [eauto|].
    exists m. destruct Hf as (k1 & k2 & _ & [_ Hm] & _). eauto.
Qed.

(** ** Merging *)

Lemma merge_cons configured rule dynamic :
  merge configured (rule :: dynamic) = merge (add_dynamic configured rule) dynamic.
Proof. done. Qed.

Lemma merge_app configured dynamic :
  ∃ added, merge configured dynamic = configured ++ added ∧
    (∀ r, r ∈ added → r ∈ dynamic ∧ Forall (λ c, rule_key c ≠ rule_key r) configured).
Proof.
  revert configured. induction dynamic as [|d dynamic IH]; intros configured.
  { exists []. split; [by rewrite app_nil_r|]. set_solver. }
  rewrite merge_cons. unfold add_dynamic.
  destruct (existsb _ configured) eqn:He; cbn [negb].
  - destruct (IH configured) as (added & -> & Ha). exists added. split; [done|]. set_solver.
  - destruct (IH (configured ++ [d])) as (added & -> & Ha). exists (d :: added).
    rewrite <-app_assoc. split; [done|]. intros r [->|Hr]%elem_of_cons.
    + split; [set_solver|]. apply Forall_forall. intros c Hc Hk.
      rewrite <-not_true_iff_false, existsb_exists in He. apply He. exists c.
      rewrite <-list_elem_of_In. split; [done|]. by apply bool_decide_eq_true.
    + destruct (Ha r Hr) as [Hd Hf]. apply Forall_app in Hf as [Hf _]. set_solver.
Qed.

Lemma merge_covers configured dynamic d :
  d ∈ dynamic → ∃ r, r ∈ merge configured dynamic ∧ rule_key r = rule_key d.
Proof.
  revert configured. induction dynamic as [|d' dynamic IH]; intros configured; [set_solver|].
  rewrite merge_cons. intros [->|Hd]%elem_of_cons; [|by apply IH].
  destruct (merge_app (add_dynamic configured d') dynamic) as (added & -> & _).
  unfold add_dynamic. destruct (existsb _ configured) eqn:He; cbn [negb].
  - apply existsb_exists in He as (c & Hc & Hk%bool_decide_eq_true). rewrite <-list_elem_of_In in Hc.
    exists c. set_solver.
  - exists d'. set_solver.
Qed.

Lemma first_longest_elem rules key r m : first_longest rules key r m → r ∈ rules.
Proof. intros (k1 & k2 & -> & _). set_solver. Qed.

(** A table that builds routes by configuration first and never from the gateway's own
    prefix: every stored rule is in force or gives way to one under the very same key, the
    rule a lookup finds is a configured one whenever the configuration has its key, and no
    rule in force claims a path under [/_ip]. *)
Theorem config_wins (configured dynamic : list RouteRule) (t : RoutingTable) (key : RouteKey)
    (res : Resolution) :
  assemble configured dynamic = Ok t → resolve t key = Some res →
  (∀ c, c ∈ configured → rule_key c = rule_key (res_rule res) → res_rule res ∈ configured) ∧
  (res_rule res ∈ configured ∨ res_rule res ∈ dynamic) ∧
  (∀ d, d ∈ dynamic → ∃ r, r ∈ merge configured dynamic ∧ rule_key r = rule_key d) ∧
  is_reserved (rule_path (res_rule res)) = false.
Proof.
  pose proof (merge_covers configured dynamic). unfold assemble. destruct (List.find _ _) as [r|] eqn:Hf; [done|]. intros [= <-] Hres.
  apply find_None_Forall in Hf. rewrite Forall_forall in Hf.
  rewrite resolve_find in Hres. apply bind_Some in Hres as (r & [m Hr]%find_first_longest & Hr2).
  apply resolution_of_Some in Hr2 as (_ & _ & -> & _).
  apply first_longest_elem in Hr. specialize (Hf r Hr).
  destruct (merge_app configured dynamic) as (added & He & Ha). rewrite He in Hr.
  apply elem_of_app in Hr as [Hr|Hr]; [naive_solver|].
  destruct (Ha r Hr) as [Hd Hk]. rewrite Forall_forall in Hk. naive_solver.
Qed.

(** A rule under the gateway's own prefix is refused, wherever it comes from, and nothing
    else is: the table is built exactly when no rule in force claims a path under [/_ip]. *)
Theorem reserved_refused (configured dynamic : list RouteRule) :
  (∃ p, assemble configured dynamic = Err (ReservedPath p)) ↔
  ∃ r, r ∈ merge configured dynamic ∧
    (val (rule_path r) = #"/_ip" ∨ ∃ rest, val (rule_path r) = #"/_ip/" ++ rest).
Proof.
  setoid_rewrite <-is_reserved_spec. unfold assemble.
  destruct (List.find _ _) as [r|] eqn:Hf.
  - apply find_elem_of in Hf. naive_solver.
  - apply find_None_Forall in Hf. rewrite Forall_forall in Hf. split; [naive_solver|].
    intros (r & Hr & Hres). rewrite (Hf r Hr) in Hres. done.
Qed.

(** A request that resolves can always be sent: whatever its rule's plan has been through,
    dispatch picks an endpoint of the rule's own target that is not drained unless all are,
    with the unclaimed remainder of the request appended to its path. *)
Theorem dispatch_resolved (rules : list RouteRule) (key : RouteKey) (res : Resolution)
    (d : Dispatching) (entropy : option Z) :
  let targets := val (rule_target (res_rule res)) in
  resolve (from_rules rules) key = Some res →
  rtc (dispatch_step (rule_strategy (res_rule res))) (fresh targets) d →
  ∃ i e p w m, dispatch res (plan d) entropy = Some (e, i, p) ∧
    sendable targets i ∧ targets !! i = Some w ∧
    carries key (res_rule res) m ∧
    protocol e = protocol (endpoint w) ∧ host e = host (endpoint w) ∧
    port e = port (endpoint w) ∧ val (path e) = join (val (path (endpoint w))) m.
Proof.
  intros targets Hres Hreach. rewrite resolve_find in Hres.
  apply bind_Some in Hres as (r & [m Hr]%find_first_longest & Hr2).
  apply resolution_of_Some in Hr2 as (m' & Hc & <- & Hp & Hts).
  pose proof (reachable_ok targets (target_nonempty _) _ d Hreach) as Hd.
  destruct (send_ok targets (target_nonempty _) (rule_strategy (res_rule res)) entropy d Hd)
    as (i & p & Hs & Hi & _). unfold send in Hs.
  apply bind_Some in Hs as ([j q] & Hch & [= <- <-]).
  apply elem_of_live_of in Hi as Hsend. destruct Hsend as (w & Hw & Hs').
  destruct (Forall2_lookup_l _ _ _ _ _ Hts Hw) as (w' & Hw' & Hf1 & Hf2 & Hf3 & _ & Hf5).
  exists j, (endpoint w'), q, w, m'. unfold dispatch. rewrite Hch. cbn. rewrite Hw'. cbn.
  destruct Hr as (k1 & k2 & _ & [Ha _] & _).
  repeat split; try done; [exists w; done|apply Hc..].
Qed.

(** How a caller writes an authority: an address with colons in brackets, then the port. *)
Definition write_authority (host : str) (port : Z) : str :=
  (if contains_char (ch ":") host then #"[" ++ host ++ #"]" else host) ++ #":" ++ dec port.

Lemma split_authority_bracketed inside after listen :
  ch "]" ∉ inside →
  split_authority (#"[" ++ inside ++ #"]" ++ after) listen
  = (inside, default listen (port ← strip_prefix #":" after; parse_unsigned u16_max port)).
Proof.
  intros Hin. unfold split_authority. rewrite strip_prefix_app. cbn [mbind option_bind].
  by rewrite (proj2 (split_once_Some (ch "]") _ inside after)).
Qed.

Lemma split_authority_plain raw listen :
  ch "[" ∉ raw →
  split_authority raw listen
  = match rsplit_once (ch ":") raw with
    | Some (name, port) =>
        if negb (contains_char (ch ":") name)
        then (name, default listen (parse_unsigned u16_max port)) else (raw, listen)
    | None => (raw, listen)
    end.
Proof.
  intros Hraw. unfold split_authority.
  destruct (strip_prefix #"[" raw) as [rest|] eqn:Hs; [|done].
  apply strip_prefix_Some in Hs as ->. destruct Hraw. by left.
Qed.

(** The host and port a caller writes in its [Host] header are the ones the request is
    looked up by, an ipv6 literal in brackets included, and a host without a port is looked
    up under the port the gateway listens on. *)
Theorem split_authority_roundtrip (host : str) (port listen : Z) :
  ch "]" ∉ host → ch "[" ∉ host → is_u16 port →
  split_authority (write_authority host port) listen = (host, port) ∧
  (ch ":" ∉ host → split_authority host listen = (host, listen)).
Proof.
  intros Hclose Hopen Hport.
  assert (ch ":" ∉ dec port) as Hdec by (apply dec_no_sep; [apply Hport|done]).
  assert (parse_unsigned u16_max (dec port) = Some port) as Hparse
    by (by apply parse_unsigned_dec).
  unfold write_authority. destruct (contains_char (ch ":") host) eqn:Hcolon.
  - apply contains_char_true in Hcolon. split; [|done].
    rewrite <-!app_assoc, split_authority_bracketed by done.
    rewrite strip_prefix_app. cbn [mbind option_bind]. by rewrite Hparse.
  - apply contains_char_false in Hcolon. split.
    + rewrite split_authority_plain.
      2: { rewrite !not_elem_of_app. split; [done|]. split; [by intros [=]%list_elem_of_singleton|].
           apply dec_no_sep; [apply Hport|done]. }
      rewrite (proj2 (rsplit_once_Some (ch ":") _ host (dec port))) by done.
      rewrite (proj2 (contains_char_false _ _)) by done.
      cbn. by rewrite Hparse.
    + intros _. rewrite split_authority_plain by done.
      destruct (rsplit_once (ch ":") host) as [[a b]|] eqn:Hr; [|done].
      apply rsplit_once_Some in Hr as [-> _]. set_solver.
Qed.

(** ** Witnesses *)
Module TableSample.
Import Route.Sample.
Definition at_path (s : str) (H : is_ok (validate_path s) = true) : RouteKey :=
  MkRouteKey (MkEndpoint Http (host_of #"gateway.local" eq_refl) (port_of 8080 eq_refl)
    (path_of s H)).
Definition target : RouteTarget :=
  MkRefined (check := check_target) sample_targets eq_refl.
Definition wide : RouteRule :=
  MkRouteRule (api_of #"wide" eq_refl) (at_path #"/llm" eq_refl) target RoundRobin.
Definition narrow : RouteRule :=
  MkRouteRule (api_of #"narrow" eq_refl) (at_path #"/llm/chat/" eq_refl) target LeastLoad.
Definition shadowed : RouteRule :=
  MkRouteRule (api_of #"stored" eq_refl) (at_path #"/llm/chat/" eq_refl) target Ratio.
Definition key : RouteKey := at_path #"/llm/chat/v1/messages" eq_refl.
Definition found : Resolution :=
  default (MkResolution wide [] (plan_of [])) (resolve (from_rules [wide; narrow]) key).

Example finds_the_longest :
  (val ∘ rule_api ∘ res_rule) <$> resolve (from_rules [wide; narrow]) key = Some #"narrow".
Proof. by_computation. Qed.

Example never_inside_a_segment :
  resolve (from_rules [wide]) (at_path #"/llmx" eq_refl) = None.
Proof. by_computation. Qed.

Lemma assembled : assemble [narrow] [wide; shadowed] = Ok (from_rules [narrow; wide]).
Proof. by_computation. Qed.

Lemma resolved : resolve (from_rules [narrow; wide]) key = Some found.
Proof. by_computation. Qed.

Lemma config_wins_witness :
  res_rule found = narrow ∧
  (∀ c, c ∈ [narrow] → rule_key c = rule_key (res_rule found) → res_rule found ∈ [narrow]) ∧
  (res_rule found ∈ [narrow] ∨ res_rule found ∈ [wide; shadowed]) ∧
  (∀ d, d ∈ [wide; shadowed] →
    ∃ r, r ∈ merge [narrow] [wide; shadowed] ∧ rule_key r = rule_key d) ∧
  is_reserved (rule_path (res_rule found)) = false.
Proof.
  split; [by_computation|].
  apply (config_wins [narrow] [wide; shadowed] (from_rules [narrow; wide]) key found).
  - exact assembled.
  - exact resolved.
Defined.

Lemma dispatch_resolved_witness :
  ∃ i e p w m, dispatch found (plan (fresh (val (rule_target (res_rule found))))) None
      = Some (e, i, p) ∧
    sendable (val (rule_target (res_rule found))) i ∧
    val (rule_target (res_rule found)) !! i = Some w ∧
    carries key (res_rule found) m ∧
    protocol e = protocol (endpoint w) ∧ host e = host (endpoint w) ∧
    port e = port (endpoint w) ∧ val (path e) = join (val (path (endpoint w))) m.
Proof.
  apply (dispatch_resolved [narrow; wide] key found).
  - exact resolved.
  - apply rtc_refl.
Defined.

Lemma split_authority_roundtrip_witness :
  split_authority (write_authority #"2001:db8::1" 8443) 80 = (#"2001:db8::1", 8443) ∧
  (ch ":" ∉ #"2001:db8::1" → split_authority #"2001:db8::1" 80 = (#"2001:db8::1", 80)).
Proof.
  apply (split_authority_roundtrip #"2001:db8::1" 8443 80).
  - apply contains_char_false. reflexivity.
  - apply contains_char_false. reflexivity.
  - unfold_bounds. lia.
Defined.
End TableSample.
