(* ===== verification/Cache.v ===== *)
(** * Cache: keys, spans, stamped entries and published values of [ip-cache]

    Models [crates/ip-cache/src/error.rs], [key.rs], [ttl.rs], [limits.rs], [counter.rs] and
    the codecs of [publication.rs], with the entry codec of [standalone.rs].  A [Duration] is
    its count of nanoseconds; every reading of the clock is an argument. *)
From S2P Require Import Prelude Text Ident.

Inductive CacheError : Type :=
  | EmptyKey
  | UnusableKey (id : str)
  | UnusablePrefix (prefix : str)
  | ZeroLimit
  | ZeroTtl
  | MalformedPublication (bytes : Z)
  | MalformedCount (bytes : Z)
  | BackendFailed.

#[export] Instance CacheError_eq_dec : EqDecision CacheError.
Proof. solve_decision. Defined.

(** ** key.rs *)

Inductive CacheLevel : Type := Response | Semantic | System.
#[export] Instance CacheLevel_eq_dec : EqDecision CacheLevel.
Proof. solve_decision. Defined.

Definition level_as_str (l : CacheLevel) : str :=
  match l with Response => #"resp" | Semantic => #"sem" | System => #"sys" end.

Record CacheKey : Type := MkCacheKey { ck_key : str; ck_level : CacheLevel }.
#[export] Instance CacheKey_eq_dec : EqDecision CacheKey.
Proof. solve_decision. Defined.

(** [CacheKey::new]. *)
Definition new_cache_key (level : CacheLevel) (id : str) : result CacheError CacheKey :=
  if is_empty id then Err EmptyKey
  else if existsb (λ c, is_whitespace c || is_control c) id then Err (UnusableKey id)
  else Ok (MkCacheKey (#"ip:" ++ level_as_str level ++ #":" ++ id) level).

(** [cluster.rs]: the prefix deployments sharing one redis tell their keys apart by. *)
Definition new_prefix (prefix : str) : result CacheError str :=
  if is_empty prefix || existsb (λ c, is_whitespace c || is_control c) prefix
  then Err (UnusablePrefix prefix) else Ok prefix.

Definition scoped (prefix : option str) (key : CacheKey) : str :=
  match prefix with Some p => p ++ #":" ++ ck_key key | None => ck_key key end.

(** ** ttl.rs *)

Definition check_span (nanos : Z) : result CacheError unit :=
  if nanos <=? 0 then Err ZeroTtl else Ok tt.

Definition Ttl : Type := refined check_span.
#[export] Instance Ttl_eq_dec : EqDecision Ttl := refined_eq_dec _.

Definition new_ttl (nanos : Z) : result CacheError Ttl := refine check_span nanos.
Definition ttl_seconds (seconds : Z) : result CacheError Ttl := new_ttl (seconds * 10 ^ 9).
Definition as_millis (nanos : Z) : Z := nanos / 10 ^ 6.
Definition whole_seconds (t : Ttl) : Z :=
  default u64_max (try_unsigned u64_max (div_ceil (as_millis (val t)) 1000)).

(** ** limits.rs *)

(** [MaxBytes::new] is given a [u64] and refuses zero. *)
Definition check_max_bytes (bytes : Z) : result CacheError unit :=
  match try_unsigned u64_max bytes with
  | Some (Zpos _) => Ok tt
  | _ => Err ZeroLimit
  end.
Definition MaxBytes : Type := refined check_max_bytes.
Definition new_max_bytes (bytes : Z) : result CacheError MaxBytes := refine check_max_bytes bytes.

Record LevelLimits : Type := MkLimits {
  limit_response : option MaxBytes;
  limit_semantic : option MaxBytes;
  limit_system : option MaxBytes
}.

Definition no_limits : LevelLimits := MkLimits None None None.
Definition limit_of (l : LevelLimits) (level : CacheLevel) : option MaxBytes :=
  match level with
  | Response => limit_response l | Semantic => limit_semantic l | System => limit_system l
  end.
Definition any_limit (l : LevelLimits) : bool :=
  match limit_response l, limit_semantic l, limit_system l with
  | None, None, None => false | _, _, _ => true
  end.

(** ** counter.rs *)

Definition counted_bytes (count : Z) : list Z := be_bytes 8 count.

Definition count_of (stored : list Z) : result CacheError Z :=
  if Nat.eqb (length stored) 8 then Ok (of_be_bytes stored)
  else Err (MalformedCount (Z.of_nat (length stored))).

(** ** publication.rs *)

Record Published : Type := MkPublished { revision : Z; pub_value : list Z }.
#[export] Instance Published_eq_dec : EqDecision Published.
Proof. solve_decision. Defined.

(** [announce]: what the follower has seen next, and whether that was news. *)
Definition announce (seen revision : Z) : bool * Z :=
  let newer := seen <? revision in
  (newer, if newer then revision else seen).

Definition encode_published (revision : Z) (value : list Z) : list Z :=
  be_bytes 8 revision ++ value.

Definition decode_published (stored : list Z) : result CacheError Published :=
  if Nat.leb 8 (length stored)
  then Ok (MkPublished (of_be_bytes (take 8 stored)) (drop 8 stored))
  else Err (MalformedPublication (Z.of_nat (length stored))).

(** ** The entries of standalone.rs *)

Definition STAMP : nat := 8.
Definition NEVER : Z := u64_max.

(** [entry]: a value stamped with when its ttl runs out. *)
Definition entry (now : Z) (value : list Z) (ttl : option Ttl) : list Z :=
  let expires_at :=
    match ttl with
    | Some ttl => sat_add now (default u64_max (try_unsigned u64_max (as_millis (val ttl))))
    | None => NEVER
    end in
  be_bytes 8 expires_at ++ value.

(** [value_of]. *)
Definition value_of (entry : list Z) (now : Z) : option (list Z) :=
  if Nat.leb STAMP (length entry) then
    let expires_at := of_be_bytes (take STAMP entry) in
    if now <? expires_at then Some (drop STAMP entry) else None
  else None.

(** ** Lemmas *)

Lemma be_bytes_8 z : is_u64 z → of_be_bytes (be_bytes 8 z) = z.
Proof.
  intros Hz. rewrite of_be_bytes_be_bytes. apply Z.mod_small. unfold_bounds.
  change (256 ^ Z.of_nat 8) with (2 ^ 64). lia.
Qed.

Lemma be_bytes_split n z l : take n (be_bytes n z ++ l) = be_bytes n z ∧ drop n (be_bytes n z ++ l) = l.
Proof.
  split; [apply take_app_length'|apply drop_app_length']; by rewrite be_bytes_length.
Qed.

Lemma decode_encode_published r v :
  is_u64 r → decode_published (encode_published r v) = Ok (MkPublished r v).
Proof.
  intros Hr. unfold decode_published, encode_published.
  rewrite length_app, be_bytes_length. cbn [Nat.add Nat.leb].
  destruct (be_bytes_split 8 r v) as [-> ->]. by rewrite be_bytes_8.
Qed.

Lemma count_of_bytes c : is_u64 c → count_of (counted_bytes c) = Ok c.
Proof.
  intros Hc. unfold count_of, counted_bytes. rewrite be_bytes_length. cbn.
  f_equal. by apply be_bytes_8.
Qed.

(** When an entry written now stops being read. *)
Definition expiry (now : Z) (ttl : option Ttl) : Z :=
  match ttl with
  | Some ttl => sat_add now (default u64_max (try_unsigned u64_max (as_millis (val ttl))))
  | None => NEVER
  end.

Lemma expiry_u64 now ttl : 0 ≤ now → is_u64 (expiry now ttl).
Proof.
  intros Hn. unfold expiry. destruct ttl as [t|]; [|unfold NEVER; unfold_bounds; lia].
  pose proof (default_try_unsigned u64_max (as_millis (val t)) ltac:(done)).
  unfold sat_add. unfold_bounds. lia.
Qed.

(** An entry reads back as its value until it expires, and as nothing from then on. *)
Lemma value_of_entry written now value ttl :
  0 ≤ written →
  value_of (entry written value ttl) now
  = if now <? expiry written ttl then Some value else None.
Proof.
  intros Hw. unfold value_of, entry. fold (expiry written ttl).
  rewrite length_app, be_bytes_length. cbn [STAMP Nat.add Nat.leb].
  unfold STAMP. destruct (be_bytes_split 8 (expiry written ttl) value) as [-> ->].
  by rewrite be_bytes_8 by by apply expiry_u64.
Qed.

Lemma new_cache_key_ok level id k :
  new_cache_key level id = Ok k ↔
  id ≠ [] ∧ Forall (λ c, is_whitespace c = false ∧ is_control c = false) id ∧
  k = MkCacheKey (#"ip:" ++ level_as_str level ++ #":" ++ id) level.
Proof.
  unfold new_cache_key. destruct (is_empty id) eqn:He.
  { apply is_empty_true in He. naive_solver. }
  rewrite <-not_true_iff_false, is_empty_true in He.
  destruct (existsb _ id) eqn:Hx.
  - apply existsb_exists in Hx as (c & Hc%list_elem_of_In & Hb). split; [done|].
    intros (_ & Hf & _). rewrite Forall_forall in Hf. specialize (Hf c Hc).
    destruct (is_whitespace c), (is_control c); naive_solver.
  - assert (Forall (λ c, is_whitespace c = false ∧ is_control c = false) id) as Hf.
    { apply Forall_forall. intros c Hc. rewrite <-not_true_iff_false, existsb_exists in Hx.
      destruct (is_whitespace c) eqn:Hw, (is_control c) eqn:Hcc; try done; destruct Hx;
        exists c; (split; [by apply list_elem_of_In|]); by rewrite Hw, Hcc. }
    naive_solver.
Qed.

(** Ids of printable ascii always make a key. *)
Lemma new_cache_key_graphic level id :
  id ≠ [] → Forall (λ c, is_ascii_graphic c = true) id →
  new_cache_key level id = Ok (MkCacheKey (#"ip:" ++ level_as_str level ++ #":" ++ id) level).
Proof.
  intros Hne Hg. apply new_cache_key_ok. split; [done|]. split; [|done].
  eapply Forall_impl; [exact Hg|]. intros c. cbn.
  unfold is_ascii_graphic, is_whitespace, is_control, in_range. lia.
Qed.

(** Two keys are the same entry only when their levels and ids are. *)
Lemma new_cache_key_inj level level' id id' k k' :
  new_cache_key level id = Ok k → new_cache_key level' id' = Ok k' →
  ck_key k = ck_key k' → level = level' ∧ id = id'.
Proof.
  intros (_ & _ & ->)%new_cache_key_ok (_ & _ & ->)%new_cache_key_ok Hk. cbn [ck_key] in Hk.
  apply app_inv_head in Hk. change (#":" ++ ?x) with (ch ":" :: x) in Hk.
  apply sep_inj in Hk as [Hl Hid]; [|by apply contains_char_false; destruct level..|
    by apply contains_char_false; destruct level'].
  split; [|done]. by destruct level, level'.
Qed.

Lemma ttl_pos (t : Ttl) : 0 < val t.
Proof.
  assert (∀ n, check_span n = Ok tt → 0 < n) as H
    by (intros n; unfold check_span; case_if; [done|lia]).
  apply H, val_checked.
Qed.

Lemma max_bytes_pos (m : MaxBytes) : 0 < val m ≤ u64_max.
Proof.
  assert (∀ n, check_max_bytes n = Ok tt → 0 < n ≤ u64_max) as H.
  { intros n. unfold check_max_bytes. destruct (try_unsigned u64_max n) as [z|] eqn:Ht; [|done].
    apply try_unsigned_Some in Ht as [-> Hn]. destruct n; [done|lia|lia]. }
  apply H, val_checked.
Qed.

(** A span shorter than a millisecond is a ttl, and is no whole second at all. *)
Theorem whole_seconds_zero : whole_seconds (MkRefined (check := check_span) 999999 eq_refl) = 0.
Proof. reflexivity. Qed.

#[export] Hint Resolve be_bytes_8 decode_encode_published count_of_bytes expiry_u64 ttl_pos : prism.
