(* ===== verification/Sled.v ===== *)
(** * Sled: the standalone cache

    Models [SledCache] of [crates/ip-cache/src/standalone.rs].  [sled] itself is the class
    [Sled]: a database denotes five finite maps of bytes, and a call on it (a read, a compare
    and swap, a transaction) either fails, leaving what it holds alone, or happens as one
    indivisible step.  Every operation below is the sequence of such steps the code makes;
    readings of the clock are arguments, in the unit the code reads them in. *)
From S2P Require Import Prelude Text Ident Cache.

Record View : Type := MkView {
  entries : gmap (list Z) (list Z);
  used : gmap (list Z) (list Z);
  index : gmap (list Z) (list Z);
  sizes : gmap (list Z) (list Z);
  published : gmap (list Z) (list Z)
}.

#[export] Instance View_eq_dec : EqDecision View.
Proof. solve_decision. Defined.

Class Sled (db : Type) : Type := {
  view : db → View;
  atomically : ∀ {A : Type}, (View → A * View) → db → result CacheError (A * db);
  atomically_ok : ∀ {A} (f : View → A * View) d a d',
    atomically f d = Ok (a, d') → f (view d) = (a, view d')
}.

Definition INDEX_PREFIX : nat := 9.
Definition REFRESH_AFTER_MICROS : Z := 1000000.

Definition weigh (key : list Z) (entry : nat) : Z :=
  default u64_max (try_unsigned u64_max (Z.of_nat (length key + entry))).

(** [counted]: eight bytes, or nothing. *)
Definition counted_of (bytes : list Z) : option Z :=
  if Nat.eqb (length bytes) 8 then Some (of_be_bytes bytes) else None.

Definition tag_of (level : CacheLevel) : Z :=
  match level with Response => 0 | Semantic => 1 | System => 2 end.

Definition index_key (level : CacheLevel) (last_used key : list Z) : list Z :=
  tag_of level :: last_used ++ key.

(** What a level holds, as its size entry says. *)
Definition held_in (v : View) (level : CacheLevel) : Z :=
  default 0 (sizes v !! [tag_of level] ≫= counted_of).

(** ** The bodies of the transactions *)

Definition set_size (v : View) (level : CacheLevel) (held : Z) : View :=
  MkView (entries v) (used v) (index v) (<[[tag_of level] := be_bytes 8 held]> (sizes v))
    (published v).

(** The use of a key recorded as [stamped], in place of the one before. *)
Definition restamp (level : CacheLevel) (key stamped : list Z) (v : View) : View :=
  let index1 :=
    match used v !! key with
    | Some last_used => delete (index_key level last_used key) (index v)
    | None => index v
    end in
  MkView (entries v) (<[key := stamped]> (used v))
    (<[index_key level stamped key := []]> index1) (sizes v) (published v).

Definition write_body (level : CacheLevel) (key entry : list Z) (now_micros : Z) (v : View)
    : unit * View :=
  let stamped := be_bytes 8 now_micros in
  let replaced := entries v !! key in
  let v1 := MkView (<[key := entry]> (entries v)) (used v) (index v) (sizes v) (published v) in
  let held := held_in v1 level in
  let held :=
    match replaced with
    | Some r => sat_sub held (weigh key (length r))
    | None => held
    end in
  let v2 := restamp level key stamped v1 in
  (tt, set_size v2 level (sat_add held (weigh key (length entry)))).

Definition drop_body (level : CacheLevel) (key : list Z) (v : View)
    : option (list Z) * View :=
  match entries v !! key with
  | None => (None, v)
  | Some entry =>
      let v1 := MkView (delete key (entries v)) (delete key (used v))
        (match used v !! key with
         | Some last_used => delete (index_key level last_used key) (index v)
         | None => index v
         end) (sizes v) (published v) in
      let size := weigh key (length entry) in
      (Some entry, set_size v1 level (sat_sub (held_in v1 level) size))
  end.

(** [scan_prefix(tag).next()]: the least key that opens with the byte. *)
Definition oldest_of (tag : Z) (m : gmap (list Z) (list Z)) : option (list Z) :=
  head (sort_by lex_leb (filter (λ k, head k = Some tag) (map fst (map_to_list m)))).

(** A compare and swap on the entries. *)
Definition swap_body (key : list Z) (expected : option (list Z)) (entry : list Z) (v : View)
    : bool * View :=
  if bool_decide (entries v !! key = expected)
  then (true, MkView (<[key := entry]> (entries v)) (used v) (index v) (sizes v) (published v))
  else (false, v).

Definition get_body (key : list Z) (v : View) : option (list Z) * View := (entries v !! key, v).

Definition key_bytes (k : CacheKey) : list Z := as_bytes (ck_key k).

Section sled_cache.
Context {db : Type} `{!Sled db} (limits : LevelLimits).

Definition M (A : Type) : Type := db → result CacheError (A * db).

(** One turn of the loop of [evict]: nothing when the loop ends, and otherwise whether the
    oldest entry of the index was there to drop. *)
Definition evict_turn (limit : MaxBytes) (level : CacheLevel) : M (option bool) := λ d,
  '(held, d) ← atomically (λ v, (held_in v level, v)) d;
  if val limit <? held then
    '(oldest, d) ← atomically (λ v, (oldest_of (tag_of level) (index v), v)) d;
    match oldest with
    | None => Ok (None, d)
    | Some oldest =>
        '(dropped, d) ← atomically (drop_body level (drop INDEX_PREFIX oldest)) d;
        Ok (Some (match dropped with Some _ => true | None => false end), d)
    end
  else Ok (None, d).

(** The loop itself; [None] when the fuel runs out before the loop ends. *)
Fixpoint evict_loop (fuel : nat) (limit : MaxBytes) (level : CacheLevel) (d : db)
    : option (result CacheError db) :=
  match fuel with
  | O => None
  | S fuel =>
      match evict_turn limit level d with
      | Err e => Some (Err e)
      | Ok (None, d) => Some (Ok d)
      | Ok (Some _, d) => evict_loop fuel limit level d
      end
  end.

Definition evict (fuel : nat) (level : CacheLevel) (d : db) : option (result CacheError db) :=
  match limit_of limits level with
  | None => Some (Ok d)
  | Some limit => evict_loop fuel limit level d
  end.

Definition write (fuel : nat) (level : CacheLevel) (key entry : list Z) (now_micros : Z) (d : db)
    : option (result CacheError db) :=
  match atomically (write_body level key entry now_micros) d with
  | Err e => Some (Err e)
  | Ok (_, d) => evict fuel level d
  end.

(** [drop_entry]: whether a live entry was there. *)
Definition drop_entry (level : CacheLevel) (key : list Z) (now : Z) : M bool := λ d,
  '(dropped, d) ← atomically (drop_body level key) d;
  Ok (match dropped with
      | Some entry => bool_decide (is_Some (value_of entry now))
      | None => false
      end, d).

Definition touch (level : CacheLevel) (key : list Z) (now_micros : Z) : M unit := λ d,
  if negb (any_limit limits) then Ok (tt, d)
  else
    '(last_used, d) ← atomically (λ v, (used v !! key, v)) d;
    match last_used ≫= counted_of with
    | Some last =>
        if sat_sub now_micros last <? REFRESH_AFTER_MICROS then Ok (tt, d)
        else atomically (λ v, (tt, restamp level key (be_bytes 8 now_micros) v)) d
    | None => atomically (λ v, (tt, restamp level key (be_bytes 8 now_micros) v)) d
    end.

(** [Cache::get]. *)
Definition get (k : CacheKey) (now now_micros : Z) : M (option (list Z)) := λ d,
  let key := key_bytes k in
  '(held, d) ← atomically (get_body key) d;
  match held with
  | None => Ok (None, d)
  | Some entry =>
      match value_of entry now with
      | Some value => '(_, d) ← touch (ck_level k) key now_micros d; Ok (Some value, d)
      | None => '(_, d) ← drop_entry (ck_level k) key now d; Ok (None, d)
      end
  end.

(** [Cache::put]. *)
Definition put (fuel : nat) (k : CacheKey) (value : list Z) (ttl : option Ttl)
    (now now_micros : Z) (d : db) : option (result CacheError db) :=
  write fuel (ck_level k) (key_bytes k) (entry now value ttl) now_micros d.

(** One turn of the loop of [Cache::claim]: an answer, or another turn. *)
Definition claim_turn (fuel : nat) (k : CacheKey) (entry : list Z) (now now_micros : Z) (d : db)
    : option (result CacheError (option bool * db)) :=
  let key := key_bytes k in
  match atomically (get_body key) d with
  | Err e => Some (Err e)
  | Ok (held, d) =>
      match held ≫= λ e, value_of e now with
      | Some _ => Some (Ok (Some false, d))
      | None =>
          match atomically (swap_body key held entry) d with
          | Err e => Some (Err e)
          | Ok (false, d) => Some (Ok (None, d))
          | Ok (true, d) =>
              r ← write fuel (ck_level k) key entry now_micros d;
              Some (d ← r; Ok (Some true, d))
          end
      end
  end.

(** [Cache::claim]. *)
Fixpoint claim_loop (fuel : nat) (k : CacheKey) (entry : list Z) (now now_micros : Z) (d : db)
    : option (result CacheError (bool * db)) :=
  match fuel with
  | O => None
  | S fuel' =>
      match claim_turn fuel k entry now now_micros d with
      | None => None
      | Some (Err e) => Some (Err e)
      | Some (Ok (Some taken, d)) => Some (Ok (taken, d))
      | Some (Ok (None, d)) => claim_loop fuel' k entry now now_micros d
      end
  end.

Definition claim (fuel : nat) (k : CacheKey) (ttl : option Ttl) (now now_micros : Z) (d : db)
    : option (result CacheError (bool * db)) :=
  claim_loop fuel k (entry now [] ttl) now now_micros d.

(** [Cache::remove]. *)
Definition remove (k : CacheKey) (now : Z) : M bool :=
  drop_entry (ck_level k) (key_bytes k) now.

(** One turn of the loop of [counting]. *)
Definition counting_turn (fuel : nat) (k : CacheKey) (ttl : Ttl) (next : option Z → Z)
    (now now_micros : Z) (d : db) : option (result CacheError (option Z * db)) :=
  let key := key_bytes k in
  match atomically (get_body key) d with
  | Err e => Some (Err e)
  | Ok (held, d) =>
      match transpose (count_of <$> (held ≫= λ e, value_of e now)) with
      | Err e => Some (Err e)
      | Ok counted =>
          let total := next counted in
          let written := entry now (counted_bytes total) (Some ttl) in
          match atomically (swap_body key held written) d with
          | Err e => Some (Err e)
          | Ok (false, d) => Some (Ok (None, d))
          | Ok (true, d) =>
              r ← write fuel (ck_level k) key written now_micros d;
              Some (d ← r; Ok (Some total, d))
          end
      end
  end.

Fixpoint counting (fuel : nat) (k : CacheKey) (ttl : Ttl) (next : option Z → Z)
    (now now_micros : Z) (d : db) : option (result CacheError (Z * db)) :=
  match fuel with
  | O => None
  | S fuel' =>
      match counting_turn fuel k ttl next now now_micros d with
      | None => None
      | Some (Err e) => Some (Err e)
      | Some (Ok (Some total, d)) => Some (Ok (total, d))
      | Some (Ok (None, d)) => counting fuel' k ttl next now now_micros d
      end
  end.

(** [Counters::count], [seed] and [counted]. *)
Definition count (fuel : nat) (k : CacheKey) (by_ : Z) (ttl : Ttl) (now now_micros : Z) (d : db) :=
  counting fuel k ttl (λ counted, sat_add (default 0 counted) by_) now now_micros d.

Definition seed (fuel : nat) (k : CacheKey) (from : Z) (ttl : Ttl) (now now_micros : Z) (d : db) :=
  counting fuel k ttl (λ counted, default from counted) now now_micros d.

Definition counted (k : CacheKey) (now : Z) : M (option Z) := λ d,
  let key := key_bytes k in
  '(held, d) ← atomically (get_body key) d;
  match held ≫= λ e, value_of e now with
  | Some counted => c ← count_of counted; Ok (Some c, d)
  | None => '(_, d) ← drop_entry (ck_level k) key now d; Ok (None, d)
  end.

(** ** Publications *)

Definition published_of (topic : list Z) (v : View) : option (list Z) * View :=
  (published v !! topic, v).

Definition publish_swap (topic : list Z) (expected : option (list Z)) (replacement : list Z)
    (v : View) : bool * View :=
  if bool_decide (published v !! topic = expected)
  then (true, MkView (entries v) (used v) (index v) (sizes v)
         (<[topic := replacement]> (published v)))
  else (false, v).

(** Whether what is published is as new as [revision_] already. *)
Definition as_new (current : option (list Z)) (revision_ : Z) : result CacheError bool :=
  match current with
  | Some current => p ← decode_published current; Ok (revision_ <=? revision p)
  | None => Ok false
  end.

(** One turn of the loop of [Publication::publish]. *)
Definition publish_turn (topic : CacheKey) (revision_ : Z) (value : list Z) (d : db)
    : result CacheError (option bool * db) :=
  let key := key_bytes topic in
  '(current, d) ← atomically (published_of key) d;
  newer ← as_new current revision_;
  if (newer : bool) then Ok (Some false, d)
  else
    '(swapped, d) ← atomically (publish_swap key current (encode_published revision_ value)) d;
    Ok (if (swapped : bool) then Some true else None, d).

Fixpoint publish (fuel : nat) (topic : CacheKey) (revision_ : Z) (value : list Z) (d : db)
    : option (result CacheError (bool * db)) :=
  match fuel with
  | O => None
  | S fuel =>
      match publish_turn topic revision_ value d with
      | Err e => Some (Err e)
      | Ok (Some landed, d) => Some (Ok (landed, d))
      | Ok (None, d) => publish fuel topic revision_ value d
      end
  end.

Definition published_now (topic : CacheKey) : M (option Published) := λ d,
  '(stored, d) ← atomically (published_of (key_bytes topic)) d;
  p ← transpose (decode_published <$> stored);
  Ok (p, d).

End sled_cache.

(** ** Accounting *)

(** The level a stored key was written under, which its own text says. *)
Definition level_of (key : list Z) : CacheLevel :=
  if starts_with #"ip:resp:" key then Response
  else if starts_with #"ip:sem:" key then Semantic else System.

Definition well_keyed (k : CacheKey) : Prop := ∃ id, new_cache_key (ck_level k) id = Ok k.

Lemma level_of_key k : well_keyed k → level_of (key_bytes k) = ck_level k.
Proof.
  intros [id (_ & _ & ->)%new_cache_key_ok]. unfold key_bytes. cbn [ck_key ck_level].
  rewrite !app_assoc, as_bytes_app. generalize (as_bytes id). intros t.
  by destruct (ck_level k).
Qed.

Definition weight_in (l : CacheLevel) (ke : list Z * list Z) : Z :=
  if decide (level_of ke.1 = l) then weigh ke.1 (length ke.2) else 0.

(** What the entries of a level weigh together. *)
Definition weight_of (m : gmap (list Z) (list Z)) (l : CacheLevel) : Z :=
  zsum (map (weight_in l) (map_to_list m)).

Lemma weigh_range k n : is_u64 (weigh k n).
Proof. by apply default_try_unsigned. Qed.

Lemma weight_in_nonneg l ke : 0 ≤ weight_in l ke.
Proof.
  unfold weight_in. case_decide; [|lia]. apply (weigh_range ke.1 (length ke.2)).
Qed.

Lemma weight_of_nonneg m l : 0 ≤ weight_of m l.
Proof. apply zsum_nonneg, Forall_map, Forall_true. intros. apply weight_in_nonneg. Qed.

Lemma weight_of_insert m l k e :
  m !! k = None → weight_of (<[k := e]> m) l = weight_in l (k, e) + weight_of m l.
Proof. intros Hk. unfold weight_of. by rewrite map_to_list_insert. Qed.

Lemma weight_of_delete m l k e :
  m !! k = Some e → weight_of m l = weight_in l (k, e) + weight_of (delete k m) l.
Proof. intros Hk. unfold weight_of. by rewrite <-(map_to_list_delete m k e). Qed.

Lemma weight_of_replace m l k e :
  weight_of (<[k := e]> m) l = weight_in l (k, e) + weight_of (delete k m) l.
Proof. rewrite <-insert_delete_eq. apply weight_of_insert, lookup_delete_eq. Qed.

(** What the trees say of each other: a use and an index entry for every entry and for
    nothing else. *)
Record linked (v : View) : Prop := {
  acc_used : ∀ k, is_Some (used v !! k) ↔ is_Some (entries v !! k);
  acc_stamp : ∀ k s, used v !! k = Some s → length s = 8%nat ∧ Forall is_u8 s;
  acc_index : ∀ i, is_Some (index v !! i) ↔
    ∃ k s, used v !! k = Some s ∧ i = index_key (level_of k) s k
}.

(** And the size of every level exact. *)
Record accounted (v : View) : Prop := {
  acc_linked :> linked v;
  acc_sizes : ∀ l, held_in v l = weight_of (entries v) l;
  acc_small : ∀ l, weight_of (entries v) l ≤ u64_max
}.

Definition empty_view : View := MkView ∅ ∅ ∅ ∅ ∅.

Lemma empty_accounted : accounted empty_view.
Proof.
  split; [split|..]; cbn.
  - intros k. by rewrite !lookup_empty.
  - intros k s. by rewrite lookup_empty.
  - intros i. rewrite lookup_empty. split; [by intros []|]. intros (k & s & H & _).
    by rewrite lookup_empty in H.
  - done.
  - intros l. unfold weight_of. rewrite map_to_list_empty. done.
Qed.

Lemma index_key_inj l l' s s' k k' :
  length s = 8%nat → length s' = 8%nat →
  index_key l s k = index_key l' s' k' → s = s' ∧ k = k'.
Proof.
  intros Hs Hs' H. unfold index_key in H. injection H as _ H.
  apply app_inj_1 in H; [done|congruence].
Qed.

Lemma held_in_set_size v l l' h :
  is_u64 h → held_in (set_size v l h) l' = if decide (l' = l) then h else held_in v l'.
Proof.
  intros Hh. unfold held_in, set_size. cbn [sizes]. case_decide as Hl.
  - subst. rewrite lookup_insert_eq. cbn [mbind option_bind]. unfold counted_of.
    rewrite be_bytes_length. cbn [Nat.eqb]. by apply be_bytes_8.
  - rewrite lookup_insert_ne; [done|]. intros [= Ht]. apply Hl. by destruct l, l'.
Qed.

Lemma be_bytes_stamp z : length (be_bytes 8 z) = 8%nat ∧ Forall is_u8 (be_bytes 8 z).
Proof. split; [apply be_bytes_length|apply be_bytes_bytes]. Qed.

(** The index of a key taken out, by the use recorded for it. *)
Lemma index_without v k i :
  linked v →
  is_Some (match used v !! k with
           | Some s => delete (index_key (level_of k) s k) (index v)
           | None => index v end !! i) ↔
  ∃ k' s', k' ≠ k ∧ used v !! k' = Some s' ∧ i = index_key (level_of k') s' k'.
Proof.
  intros Hv. destruct (used v !! k) as [s|] eqn:Hs.
  - destruct (acc_stamp _ Hv _ _ Hs) as [Hlen _].
    destruct (decide (i = index_key (level_of k) s k)) as [->|Hi].
    + rewrite lookup_delete_eq. split; [by intros []|]. intros (k' & s' & Hne & Hk' & He).
      destruct (acc_stamp _ Hv _ _ Hk') as [Hlen' _].
      apply index_key_inj in He as [_ ->]; done.
    + rewrite lookup_delete_ne by done. rewrite (acc_index _ Hv). split.
      * intros (k' & s' & Hk' & ->). exists k', s'. split; [|done]. intros ->. congruence.
      * naive_solver.
  - rewrite (acc_index _ Hv). split; [|naive_solver].
    intros (k' & s' & Hk' & ->). exists k', s'. split; [|done]. congruence.
Qed.

(** Writing an entry and recording its use keeps the trees linked. *)
Lemma restamp_linked v k e t :
  linked v →
  linked (restamp (level_of k) k (be_bytes 8 t)
    (MkView (<[k := e]> (entries v)) (used v) (index v) (sizes v) (published v))).
Proof.
  intros Hv. split; cbn [entries used index restamp].
  - intros k'. destruct (decide (k' = k)) as [->|]; [rewrite !lookup_insert_eq; by eauto|].
    rewrite !lookup_insert_ne by done. apply (acc_used _ Hv).
  - intros k' s. destruct (decide (k' = k)) as [->|]; [rewrite lookup_insert_eq|].
    + intros [= <-]. apply be_bytes_stamp.
    + rewrite lookup_insert_ne by done. apply (acc_stamp _ Hv).
  - intros i. destruct (decide (i = index_key (level_of k) (be_bytes 8 t) k)) as [->|Hi].
    + rewrite lookup_insert_eq. split; [|by eauto]. intros _. exists k, (be_bytes 8 t).
      by rewrite lookup_insert_eq.
    + rewrite lookup_insert_ne by done. rewrite (index_without v k i Hv). split.
      * intros (k' & s' & Hne & Hk' & ->). exists k', s'. by rewrite lookup_insert_ne.
      * intros (k' & s' & Hk' & ->). destruct (decide (k' = k)) as [->|Hne].
        { rewrite lookup_insert_eq in Hk'. by injection Hk' as <-. }
        rewrite lookup_insert_ne in Hk' by done. eauto.
Qed.

Lemma restamp_accounted v k t :
  accounted v → is_Some (entries v !! k) → accounted (restamp (level_of k) k (be_bytes 8 t) v).
Proof.
  intros Hv [e He]. split; [|apply (acc_sizes _ Hv)|apply (acc_small _ Hv)].
  pose proof (restamp_linked v k e t Hv) as Hl. rewrite (insert_id (entries v) k e He) in Hl.
  destruct v. exact Hl.
Qed.

Lemma drop_body_accounted v k e v' :
  accounted v → drop_body (level_of k) k v = (e, v') →
  accounted v' ∧ e = entries v !! k ∧ entries v' = delete k (entries v) ∧
  published v' = published v.
Proof.
  intros Hv. unfold drop_body. destruct (entries v !! k) as [e0|] eqn:He.
  2: { intros [= <- <-]. rewrite delete_id by done. done. }
  intros [= <- <-]. split; [|done].
  pose proof (weight_of_nonneg (delete k (entries v)) (level_of k)) as Hnn.
  pose proof (weight_of_delete _ (level_of k) _ _ He) as Hdel.
  assert (weight_in (level_of k) (k, e0) = weigh k (length e0)) as Hw
    by (unfold weight_in; by rewrite decide_True).
  pose proof (acc_small _ Hv (level_of k)). pose proof (weight_in_nonneg (level_of k) (k, e0)).
  change (held_in (MkView _ _ _ (sizes v) _) (level_of k)) with (held_in v (level_of k)).
  rewrite (acc_sizes _ Hv), sat_sub_exact by lia. split; [split|..].
  - cbn. intros k'. destruct (decide (k' = k)) as [->|]; [by rewrite !lookup_delete_eq|].
    rewrite !lookup_delete_ne by done. apply (acc_used _ Hv).
  - cbn. intros k' s [_ Hs]%lookup_delete_Some. by apply (acc_stamp _ Hv) in Hs.
  - cbn. intros i. rewrite (index_without v k i Hv). split.
    + intros (k' & s' & Hne & Hk' & ->). exists k', s'. by rewrite lookup_delete_ne.
    + intros (k' & s' & [Hne Hk']%lookup_delete_Some & ->). eauto.
  - intros l. rewrite held_in_set_size by (unfold_bounds; lia). cbn [entries set_size].
    case_decide as Hl; [subst; lia|].
    change (held_in (MkView _ _ _ (sizes v) _) l) with (held_in v l).
    rewrite (acc_sizes _ Hv), (weight_of_delete _ l _ _ He).
    unfold weight_in. by rewrite decide_False.
  - intros l. cbn [entries set_size]. pose proof (acc_small _ Hv l).
    rewrite (weight_of_delete _ l _ _ He) in H1. pose proof (weight_in_nonneg l (k, e0)). lia.
Qed.

Lemma write_body_accounted v k e t :
  accounted v →
  weight_of (delete k (entries v)) (level_of k) + weigh k (length e) ≤ u64_max →
  accounted (write_body (level_of k) k e t v).2 ∧
  entries (write_body (level_of k) k e t v).2 = <[k := e]> (entries v).
Proof.
  intros Hv Hsmall. split; [|done]. unfold write_body. cbn [snd].
  set (v1 := MkView (<[k := e]> (entries v)) (used v) (index v) (sizes v) (published v)).
  change (held_in v1 (level_of k)) with (held_in v (level_of k)).
  pose proof (weight_of_nonneg (delete k (entries v)) (level_of k)) as Hnn.
  pose proof (weigh_range k (length e)) as Hwr.
  assert (match entries v !! k with
          | Some r => sat_sub (held_in v (level_of k)) (weigh k (length r))
          | None => held_in v (level_of k)
          end = weight_of (delete k (entries v)) (level_of k)) as ->.
  { rewrite (acc_sizes _ Hv). destruct (entries v !! k) as [r|] eqn:Hr.
    - rewrite (weight_of_delete _ _ _ _ Hr). unfold weight_in. rewrite decide_True by done.
      cbn [fst snd]. rewrite sat_sub_exact; lia.
    - by rewrite delete_id. }
  rewrite sat_add_exact by lia.
  assert (∀ l, weight_of (<[k := e]> (entries v)) l
    = if decide (l = level_of k) then weight_of (delete k (entries v)) (level_of k) + weigh k (length e)
      else weight_of (entries v) l) as Hweight.
  { intros l. rewrite weight_of_replace. unfold weight_in. cbn [fst snd].
    case_decide as Hl; [subst; rewrite decide_True by done; lia|].
    rewrite decide_False by done. destruct (entries v !! k) as [r|] eqn:Hr.
    - rewrite (weight_of_delete _ l _ _ Hr). unfold weight_in. by rewrite decide_False.
    - by rewrite delete_id. }
  split.
  - destruct (restamp_linked v k e t Hv) as [H1 H2 H3]. by split.
  - intros l. rewrite held_in_set_size by (unfold_bounds; lia). cbn [entries set_size restamp v1].
    rewrite Hweight. case_decide; [done|].
    change (held_in (restamp _ _ _ v1) l) with (held_in v l). apply (acc_sizes _ Hv).
  - intros l. cbn [entries set_size restamp v1]. rewrite Hweight.
    case_decide; [done|apply (acc_small _ Hv)].
Qed.

(** ** The oldest entry *)

Lemma oldest_of_spec tag m :
  match oldest_of tag m with
  | Some i => is_Some (m !! i) ∧ head i = Some tag ∧
      ∀ j, is_Some (m !! j) → head j = Some tag → lex_leb i j = true
  | None => ∀ j, is_Some (m !! j) → head j ≠ Some tag
  end.
Proof.
  unfold oldest_of. set (l := filter _ _).
  assert (∀ j, j ∈ l ↔ is_Some (m !! j) ∧ head j = Some tag) as Hl.
  { intros j. unfold l. rewrite list_elem_of_filter. change (map fst) with (fmap (M:=list) (@fst (list Z) (list Z))).
    rewrite list_elem_of_fmap. setoid_rewrite elem_of_map_to_list'.
    split; [intros (? & [j' e] & -> & Hj); eauto|].
    intros ([e He] & Hh). split; [done|]. by exists (j, e). }
  pose proof (sort_by_sorted lex_leb lex_leb_trans lex_leb_total l) as Hs.
  destruct (sort_by lex_leb l) as [|i s] eqn:He; cbn.
  - intros j Hj Hh. assert (j ∈ sort_by lex_leb l) as Hin
      by (apply elem_of_sort_by; by apply Hl).
    rewrite He in Hin. by apply not_elem_of_nil in Hin.
  - assert (i ∈ l) as [Hi Hh]%Hl by (rewrite <-(elem_of_sort_by lex_leb), He; by left).
    split; [done|]. split; [done|]. intros j Hj Hhj.
    assert (j ∈ sort_by lex_leb l) as Hin by (apply elem_of_sort_by; by apply Hl).
    rewrite He in Hin. apply elem_of_cons in Hin as [->|Hin].
    + destruct (lex_leb_total i i); done.
    + inversion Hs as [|? ? _ Hall]; subst. rewrite Forall_forall in Hall. auto.
Qed.

(** Stamps of one width are ordered as the moments they hold. *)
Lemma of_be_bytes_cons b l :
  of_be_bytes (b :: l) = b * 256 ^ Z.of_nat (length l) + of_be_bytes l.
Proof. change (b :: l) with ([b] ++ l). by rewrite of_be_bytes_app. Qed.

Lemma lex_stamp s s' k k' :
  length s = length s' → Forall is_u8 s → Forall is_u8 s' →
  lex_leb (s ++ k) (s' ++ k') = true → of_be_bytes s ≤ of_be_bytes s'.
Proof.
  revert s'. induction s as [|x s IH]; intros [|y s'] Hlen Hs Hs' Hlex; try done.
  cbn [app lex_leb] in Hlex. injection Hlen as Hlen.
  inversion Hs as [|? ? Hx Hs1]; subst. inversion Hs' as [|? ? Hy Hs1']; subst.
  rewrite !of_be_bytes_cons, <-Hlen.
  pose proof (of_be_bytes_bound s Hs1). pose proof (of_be_bytes_bound s' Hs1') as Hb'.
  rewrite <-Hlen in Hb'. destruct (x <? y) eqn:Hxy; [nia|].
  destruct (y <? x) eqn:Hyx; [done|]. assert (x = y) as -> by lia.
  specialize (IH s' Hlen Hs1 Hs1' Hlex). lia.
Qed.

(** When a key was last used, as the trees record it. *)
Definition last_used (v : View) (k : list Z) : option Z := of_be_bytes <$> used v !! k.

Lemma tag_of_inj l l' : tag_of l = tag_of l' → l = l'.
Proof. by destruct l, l'. Qed.

(** The index's oldest entry of a level names a key of that level that is there, and that was
    used no later than any other of the level. *)
Lemma oldest_entry v level :
  linked v →
  match oldest_of (tag_of level) (index v) with
  | Some i => ∃ k e t, drop INDEX_PREFIX i = k ∧ entries v !! k = Some e ∧
      level_of k = level ∧ last_used v k = Some t ∧
      ∀ k' t', level_of k' = level → last_used v k' = Some t' → t ≤ t'
  | None => ∀ k, is_Some (entries v !! k) → level_of k ≠ level
  end.
Proof.
  intros Hv. pose proof (oldest_of_spec (tag_of level) (index v)) as Ho.
  destruct (oldest_of _ _) as [i|].
  - destruct Ho as (Hi & Hh & Hmin). apply (acc_index _ Hv) in Hi as (k & s & Hs & ->).
    destruct (acc_stamp _ Hv _ _ Hs) as [Hlen Hu8].
    assert (is_Some (entries v !! k)) as [e He] by (apply (acc_used _ Hv); eauto).
    exists k, e, (of_be_bytes s). split.
    { unfold INDEX_PREFIX, index_key. cbn [drop]. by rewrite drop_app_length'. }
    split; [done|]. split; [apply tag_of_inj; by injection Hh|].
    split; [unfold last_used; by rewrite Hs|].
    intros k' t' Hl' (s' & Hs' & ->)%fmap_Some.
    destruct (acc_stamp _ Hv _ _ Hs') as [Hlen' Hu8'].
    specialize (Hmin (index_key (level_of k') s' k')).
    unfold index_key in Hmin. cbn [lex_leb head] in Hmin.
    apply (lex_stamp s s' k k'); [congruence|done|done|].
    assert (tag_of (level_of k) = tag_of (level_of k')) as Ht by (injection Hh as ->; by rewrite Hl').
    rewrite Ht in Hmin. rewrite Z.ltb_irrefl in Hmin. apply Hmin; [|by rewrite Hl'].
    apply (acc_index _ Hv). eauto.
  - intros k Hk Hl. apply (acc_used _ Hv) in Hk as [s Hs].
    apply (Ho (index_key (level_of k) s k)); [apply (acc_index _ Hv); eauto|].
    unfold index_key. cbn. by rewrite Hl.
Qed.

(** ** Eviction *)

(** One entry goes: of its level, none was used longer ago. *)
Definition lru_step (level : CacheLevel) (v v' : View) : Prop :=
  ∃ k t, level_of k = level ∧ last_used v k = Some t ∧ is_Some (entries v !! k) ∧
    (∀ k' t', level_of k' = level → last_used v k' = Some t' → t ≤ t') ∧
    v' = (drop_body level k v).2.

Lemma lru_step_accounted level v v' :
  accounted v → lru_step level v v' → accounted v' ∧ (size (entries v') < size (entries v))%nat.
Proof.
  intros Hv (k & t & <- & _ & [e He] & _ & ->).
  destruct (drop_body (level_of k) k v) as [e' v'] eqn:Hd.
  destruct (drop_body_accounted v k e' v' Hv Hd) as (Hv' & _ & He' & _). cbn [snd].
  split; [done|]. rewrite He'. rewrite map_size_delete_Some by eauto.
  assert (size (entries v) ≠ 0)%nat by (apply map_size_ne_0_lookup; eauto). lia.
Qed.

Lemma weight_of_none m level :
  (∀ k, is_Some (m !! k) → level_of k ≠ level) → weight_of m level = 0.
Proof.
  intros Hn. unfold weight_of.
  assert (Forall (λ ke, weight_in level ke = 0) (map_to_list m)) as Hf.
  { apply Forall_forall. intros [k e] Hke%elem_of_map_to_list. unfold weight_in.
    rewrite decide_False; [done|]. cbn. apply Hn. eauto. }
  induction Hf as [|ke l Hke _ IH]; cbn; [done|]. lia.
Qed.

Section evict.
Context {db : Type} `{!Sled db} (limits : LevelLimits).

Lemma evict_turn_ok limit level d r d' :
  accounted (view d) → evict_turn limit level d = Ok (r, d') →
  (r = None ∧ view d' = view d ∧ held_in (view d) level ≤ val limit) ∨
  (r = Some true ∧ lru_step level (view d) (view d')).
Proof using.
  intros Hd Ht. unfold evict_turn in Ht.
  apply bind_ok in Ht as ([held d1] & H1%atomically_ok & Ht). injection H1 as <- Hv1.
  destruct (val limit <? held_in (view d) level) eqn:Hlim.
  2: { injection Ht as <- <-. left. split; [done|]. split; [done|lia]. }
  apply bind_ok in Ht as ([o d2] & H2%atomically_ok & Ht). injection H2 as <- Hv2.
  rewrite <-Hv1 in *. pose proof (oldest_entry (view d) level Hd) as Ho.
  destruct (oldest_of _ _) as [i|].
  - apply bind_ok in Ht as ([e d3] & H3%atomically_ok & Ht). injection Ht as <- <-. right.
    destruct Ho as (k & e' & t & Hk & He & Hl & Hu & Hmin). rewrite Hk, <-Hv2 in H3.
    assert (e = Some e') as ->.
    { subst level. apply drop_body_accounted in H3 as (_ & -> & _); done. }
    split; [done|]. exists k, t. repeat split; eauto. by rewrite H3.
  - exfalso. rewrite (acc_sizes _ Hd), (weight_of_none _ _ Ho) in Hlim.
    pose proof (max_bytes_pos limit). lia.
Qed.

Lemma evict_loop_ok fuel limit level d :
  accounted (view d) → (size (entries (view d)) < fuel)%nat →
  ∃ r, evict_loop fuel limit level d = Some r ∧
    ∀ d', r = Ok d' → accounted (view d') ∧ rtc (lru_step level) (view d) (view d') ∧
      held_in (view d') level ≤ val limit.
Proof using.
  revert d. induction fuel as [|fuel IH]; intros d Hd Hf; [lia|]. cbn.
  destruct (evict_turn limit level d) as [[r d1]|e] eqn:Ht; [|naive_solver].
  destruct (evict_turn_ok _ _ _ _ _ Hd Ht) as [(-> & Hv & Hle)|(-> & Hs)].
  - eexists. split; [done|]. intros d' [= <-]. rewrite Hv. split; [done|]. split; [apply rtc_refl|done].
  - destruct (lru_step_accounted _ _ _ Hd Hs) as [Hd1 Hsz].
    destruct (IH d1 Hd1) as (r & Hr & Hok); [lia|]. exists r. split; [done|].
    intros d' Hd'. destruct (Hok d' Hd') as (? & ? & ?). split; [done|].
    split; [by eapply rtc_l|done].
Qed.

Lemma evict_ok fuel level d :
  accounted (view d) → (size (entries (view d)) < fuel)%nat →
  ∃ r, evict limits fuel level d = Some r ∧
    ∀ d', r = Ok d' → accounted (view d') ∧ rtc (lru_step level) (view d) (view d') ∧
      (∀ limit, limit_of limits level = Some limit → held_in (view d') level ≤ val limit) ∧
      (limit_of limits level = None → view d' = view d).
Proof using.
  intros Hd Hf. unfold evict. destruct (limit_of limits level) as [limit|].
  - destruct (evict_loop_ok fuel limit level d Hd Hf) as (r & Hr & Hok). exists r.
    split; [done|]. intros d' Hd'. destruct (Hok d' Hd') as (? & ? & ?). naive_solver.
  - eexists. split; [done|]. intros d' [= <-]. split; [done|]. split; [apply rtc_refl|naive_solver].
Qed.
End evict.

(** ** The operations, one at a time *)

Section operations.
Context {db : Type} `{!Sled db} (limits : LevelLimits).

Lemma drop_entry_ok k now d b d' :
  well_keyed k → accounted (view d) →
  drop_entry (ck_level k) (key_bytes k) now d = Ok (b, d') →
  accounted (view d') ∧ entries (view d') = delete (key_bytes k) (entries (view d)) ∧
  b = bool_decide (is_Some (entries (view d) !! key_bytes k ≫= λ e, value_of e now)).
Proof using.
  intros Hk Hd Hr. unfold drop_entry in Hr. rewrite <-(level_of_key k Hk) in Hr.
  apply bind_ok in Hr as ([e d1] & H1%atomically_ok & Hr). injection Hr as <- <-.
  apply drop_body_accounted in H1 as (Hd1 & -> & He & _); [|done].
  split; [done|]. split; [done|]. by destruct (entries (view d) !! key_bytes k).
Qed.

Lemma touch_ok k now d d' :
  well_keyed k → accounted (view d) → is_Some (entries (view d) !! key_bytes k) →
  touch limits (ck_level k) (key_bytes k) now d = Ok (tt, d') →
  accounted (view d') ∧ entries (view d') = entries (view d).
Proof using.
  intros Hk Hd He Hr. unfold touch in Hr. rewrite <-(level_of_key k Hk) in Hr.
  destruct (negb (any_limit limits)); [by injection Hr as <-|].
  apply bind_ok in Hr as ([u d1] & H1%atomically_ok & Hr). injection H1 as _ Hv.
  assert (∀ r, atomically (λ v, (tt, restamp (level_of (key_bytes k)) (key_bytes k) (be_bytes 8 now) v)) d1
    = Ok (tt, r) → accounted (view r) ∧ entries (view r) = entries (view d)) as Hstamp.
  { intros r Ha%atomically_ok. injection Ha as <-. rewrite <-Hv.
    split; [by apply restamp_accounted|done]. }
  destruct (u ≫= counted_of) as [last|]; [|by apply Hstamp].
  destruct (_ <? _); [|by apply Hstamp]. injection Hr as <-. by rewrite <-Hv.
Qed.

(** What a read finds, and what it leaves. *)
Lemma get_ok k now micros d o d' :
  well_keyed k → accounted (view d) → get limits k now micros d = Ok (o, d') →
  o = (entries (view d) !! key_bytes k ≫= λ e, value_of e now) ∧ accounted (view d') ∧
  entries (view d') = (match o with
    | Some _ => entries (view d) | None => delete (key_bytes k) (entries (view d)) end).
Proof using.
  intros Hk Hd Hg. unfold get in Hg.
  apply bind_ok in Hg as ([h d1] & H1%atomically_ok & Hg). injection H1 as <- Hv.
  destruct (entries (view d) !! key_bytes k) as [e|] eqn:He; cbn [mbind option_bind].
  2: { injection Hg as <- <-. rewrite <-Hv. by rewrite delete_id. }
  destruct (value_of e now) as [value|] eqn:Hval.
  - apply bind_ok in Hg as ([[] d2] & Ht & Hg). injection Hg as <- <-. rewrite Hv in *.
    apply touch_ok in Ht as [? ?]; eauto.
  - apply bind_ok in Hg as ([b d2] & Ht & Hg). injection Hg as <- <-. rewrite Hv in *.
    apply drop_entry_ok in Ht as (? & ? & _); eauto.
Qed.

(** A write lands whole, and only then are entries evicted. *)
Lemma write_ok fuel k e micros d :
  well_keyed k → accounted (view d) →
  weight_of (delete (key_bytes k) (entries (view d))) (ck_level k)
    + weigh (key_bytes k) (length e) ≤ u64_max →
  (S (size (entries (view d))) < fuel)%nat →
  let written := (write_body (ck_level k) (key_bytes k) e micros (view d)).2 in
  ∃ r, write limits fuel (ck_level k) (key_bytes k) e micros d = Some r ∧
    ∀ d', r = Ok d' → accounted (view d') ∧
      entries written = <[key_bytes k := e]> (entries (view d)) ∧
      rtc (lru_step (ck_level k)) written (view d') ∧
      (∀ limit, limit_of limits (ck_level k) = Some limit →
        held_in (view d') (ck_level k) ≤ val limit) ∧
      (limit_of limits (ck_level k) = None → view d' = written).
Proof using.
  intros Hk Hd Hsmall Hfuel written. rewrite <-(level_of_key k Hk) in Hsmall.
  destruct (write_body_accounted (view d) (key_bytes k) e micros Hd Hsmall) as [Hw He].
  rewrite level_of_key in Hw, He by done. unfold write.
  destruct (atomically _ d) as [[[] d1]|er] eqn:Ha; [|naive_solver].
  apply atomically_ok in Ha. fold written in Hw, He.
  assert (view d1 = written) as Hv1 by (unfold written; by rewrite Ha).
  destruct (evict_ok limits fuel (ck_level k) d1) as (r & Hr & Hok).
  { by rewrite Hv1. }
  { rewrite Hv1, He, map_size_insert. destruct (entries (view d) !! key_bytes k); cbn; lia. }
  exists r. split; [done|]. intros d' Hd'. destruct (Hok d' Hd') as (? & ? & ? & ?).
  rewrite Hv1 in *. auto.
Qed.
End operations.

(** ** Properties *)

Section properties.
Context {db : Type} `{!Sled db} (limits : LevelLimits).


(** What is put is what is read: in a level nothing evicts from, a value reads back under
    its key until its ttl has passed and as nothing from then on, and every other key reads as
    it did before the write. *)
Theorem put_then_get (fuel : nat) (k k' : CacheKey) (value : list Z) (ttl : option Ttl)
    (written micros later later_micros : Z) (d d1 d2 : db) (o : option (list Z)) :
  well_keyed k → well_keyed k' → accounted (view d) → 0 ≤ written →
  limit_of limits (ck_level k) = None →
  weight_of (delete (key_bytes k) (entries (view d))) (ck_level k)
    + weigh (key_bytes k) (length (entry written value ttl)) ≤ u64_max →
  (S (size (entries (view d))) < fuel)%nat →
  put limits fuel k value ttl written micros d = Some (Ok d1) →
  get limits k' later later_micros d1 = Ok (o, d2) →
  o = (if decide (key_bytes k' = key_bytes k)
       then if later <? expiry written ttl then Some value else None
       else entries (view d) !! key_bytes k' ≫= λ e, value_of e later).
Proof using.
  intros Hk Hk' Hd Hw Hlim Hsmall Hfuel Hput Hget. unfold put in Hput.
  destruct (write_ok limits fuel k (entry written value ttl) micros d Hk Hd Hsmall Hfuel)
    as (r & Hr & Hok). rewrite Hr in Hput. injection Hput as ->.
  destruct (Hok d1 eq_refl) as (Hacc & He & _ & _ & Hv). specialize (Hv Hlim).
  destruct (get_ok limits k' later later_micros d1 o d2 Hk' Hacc Hget) as (-> & _).
  rewrite Hv, He. case_decide as Hkk.
  - rewrite Hkk, lookup_insert_eq. cbn [mbind option_bind]. by apply value_of_entry.
  - by rewrite lookup_insert_ne.
Qed.
End properties.

(** ** Races: callers interleaved at every call they make on the database *)

(** Where one caller of [claim] has got to in its loop. *)
Inductive claimant : Type :=
  | Reading
  | Swapping (held : option (list Z))
  | Writing
  | Answered (taken : bool).

Record claim_call : Type := MkClaim { cc_entry : list Z; cc_at : claimant }.

Definition moves (c : claim_call) (at_ : claimant) : claim_call := MkClaim (cc_entry c) at_.

Section race.
Context (level : CacheLevel) (key : list Z) (from until : Z).

(** One call of one caller, or anything at all that leaves the key alone. *)
Inductive claim_step : View * list claim_call → View * list claim_call → Prop :=
  | claim_reads v cs i c now held :
      cs !! i = Some c → cc_at c = Reading → from ≤ now < until →
      get_body key v = (held, v) →
      claim_step (v, cs)
        (v, <[i := moves c (match held ≫= λ e, value_of e now with
                            | Some _ => Answered false | None => Swapping held end)]> cs)
  | claim_swaps v v' cs i c held swapped :
      cs !! i = Some c → cc_at c = Swapping held →
      swap_body key held (cc_entry c) v = (swapped, v') →
      claim_step (v, cs) (v', <[i := moves c (if swapped then Writing else Reading)]> cs)
  | claim_writes v v' cs i c micros :
      cs !! i = Some c → cc_at c = Writing →
      write_body level key (cc_entry c) micros v = (tt, v') →
      claim_step (v, cs) (v', <[i := moves c (Answered true)]> cs)
  | claim_elsewhere v v' cs :
      entries v' !! key = entries v !! key → claim_step (v, cs) (v', cs).

(** Past the swap that took the key. *)
Definition took (c : claim_call) : Prop := cc_at c = Writing ∨ cc_at c = Answered true.

Context (stale : option (list Z))
  (Hstale : ∀ now, from ≤ now < until → (stale ≫= λ e, value_of e now) = None).

Definition live_through (c : claim_call) : Prop :=
  ∀ now, from ≤ now < until → is_Some (value_of (cc_entry c) now).

(** What holds however the callers are interleaved. *)
Record race_ok (s : View * list claim_call) : Prop := {
  race_live : Forall live_through s.2;
  race_swapping : ∀ i c held, s.2 !! i = Some c → cc_at c = Swapping held →
    held = stale ∧ from < until;
  race_state :
    (entries s.1 !! key = stale ∧
      ∀ i c, s.2 !! i = Some c → cc_at c = Reading ∨ ∃ held, cc_at c = Swapping held) ∨
    (∃ w c, s.2 !! w = Some c ∧ took c ∧ entries s.1 !! key = Some (cc_entry c) ∧
      ∀ i c', s.2 !! i = Some c' → took c' → i = w)
}.

Lemma stale_not_live c : live_through c → from < until → stale ≠ Some (cc_entry c).
Proof using Hstale.
  intros Hl Hlt ->. specialize (Hstale from ltac:(lia)). cbn in Hstale.
  destruct (Hl from ltac:(lia)) as [x Hx]. congruence.
Qed.

(** Updating one caller's place keeps the rest of the callers as they were. *)
Lemma race_live_insert i c at_ cs :
  cs !! i = Some c → Forall live_through cs → Forall live_through (<[i := moves c at_]> cs).
Proof using.
  intros Hi Hf. apply Forall_insert; [done|]. exact (Forall_lookup_1 _ _ _ _ Hf Hi).
Qed.

Lemma lookup_moves (i : nat) c at_ (cs : list claim_call) (j : nat) c' :
  cs !! i = Some c → <[i := moves c at_]> cs !! j = Some c' →
  (j = i ∧ c' = moves c at_) ∨ (j ≠ i ∧ cs !! j = Some c').
Proof using.
  intros Hi Hj. destruct (decide (j = i)) as [->|Hne].
  - rewrite list_lookup_insert_eq in Hj by (by eapply lookup_lt_Some). naive_solver.
  - rewrite list_lookup_insert_ne in Hj by done. auto.
Qed.

(** A caller that has taken nothing leaves whoever took the key alone. *)
Lemma race_other v (cs : list claim_call) i c at_ w cw :
  cs !! i = Some c → ¬ took c → ¬ took (moves c at_) →
  cs !! w = Some cw → took cw → entries v !! key = Some (cc_entry cw) →
  (∀ j c', cs !! j = Some c' → took c' → j = w) →
  ∃ w' c', <[i := moves c at_]> cs !! w' = Some c' ∧ took c' ∧
    entries v !! key = Some (cc_entry c') ∧
    ∀ j cj, <[i := moves c at_]> cs !! j = Some cj → took cj → j = w'.
Proof using.
  intros Hi Hc Hm Hw Htw He Huniq. assert (w ≠ i) by congruence.
  exists w, cw. rewrite list_lookup_insert_ne by done. split; [done|]. split; [done|].
  split; [done|]. intros j c' Hj Ht.
  apply (lookup_moves i c) in Hj as [[-> ->]|[_ Hj]]; [done|eauto|done].
Qed.

Lemma race_reads v cs i c now :
  race_ok (v, cs) → cs !! i = Some c → cc_at c = Reading → from ≤ now < until →
  race_ok (v, <[i := moves c (match entries v !! key ≫= λ e, value_of e now with
    | Some _ => Answered false | None => Swapping (entries v !! key) end)]> cs).
Proof using Hstale.
  intros [Hlive Hsw Hst] Hi Hat Hnow. cbn [fst snd] in *.
  destruct Hst as [[He Hall]|(w & cw & Hw & Htw & He & Huniq)].
  - rewrite He, Hstale by done. split; cbn [fst snd].
    + by apply race_live_insert.
    + intros j c' h Hj Hc'. apply (lookup_moves i c) in Hj as [[-> ->]|[_ Hj]]; [|eauto|done].
      cbn in Hc'. injection Hc' as <-. split; [done|lia].
    + left. split; [done|]. intros j c' Hj.
      apply (lookup_moves i c) in Hj as [[-> ->]|[_ Hj]]; cbn; eauto.
  - assert (is_Some (entries v !! key ≫= λ e, value_of e now)) as [x Hx].
    { rewrite He. exact (Forall_lookup_1 _ _ _ _ Hlive Hw now Hnow). }
    rewrite Hx. split; cbn [fst snd].
    + by apply race_live_insert.
    + intros j c' h Hj Hc'. apply (lookup_moves i c) in Hj as [[-> ->]|[_ Hj]]; [done|eauto|done].
    + right. apply (race_other v cs i c _ w cw); try done;
      [by intros [?|?]; congruence|by intros [[=]|[=]]].
Qed.

Lemma race_swaps v v' cs i c held swapped :
  race_ok (v, cs) → cs !! i = Some c → cc_at c = Swapping held →
  swap_body key held (cc_entry c) v = (swapped, v') →
  race_ok (v', <[i := moves c (if swapped then Writing else Reading)]> cs).
Proof using Hstale.
  intros [Hlive Hsw Hst] Hi Hat Hg. cbn [fst snd] in *.
  destruct (Hsw i c held Hi Hat) as [-> Hlt]. unfold swap_body in Hg. case_bool_decide as Heq;
    injection Hg as <- <-; split; cbn [fst snd].
  - by apply race_live_insert.
  - intros j c' h Hj Hc'. apply (lookup_moves i c) in Hj as [[-> ->]|[_ Hj]]; [done|eauto|done].
  - destruct Hst as [[He Hall]|(w & cw & Hw & Htw & He & Huniq)].
    2: { exfalso. rewrite He in Heq. symmetry in Heq.
         apply (stale_not_live cw (Forall_lookup_1 _ _ _ _ Hlive Hw) Hlt Heq). }
    right. exists i, (moves c Writing).
    rewrite list_lookup_insert_eq by (by eapply lookup_lt_Some).
    split; [done|]. split; [by left|]. split; [apply lookup_insert_eq|].
    intros j c' Hj Ht. apply (lookup_moves i c) in Hj as [[-> ->]|[_ Hj]]; [done| |done].
    destruct (Hall j c' Hj) as [Hr|[h Hr]]; destruct Ht; congruence.
  - by apply race_live_insert.
  - intros j c' h Hj Hc'. apply (lookup_moves i c) in Hj as [[-> ->]|[_ Hj]]; [done|eauto|done].
  - destruct Hst as [[He Hall]|(w & cw & Hw & Htw & He & Huniq)]; [congruence|].
    right. apply (race_other v cs i c _ w cw); try done;
      [by intros [?|?]; congruence|by intros [[=]|[=]]].
Qed.

Lemma race_writes v v' cs i c micros :
  race_ok (v, cs) → cs !! i = Some c → cc_at c = Writing →
  write_body level key (cc_entry c) micros v = (tt, v') →
  race_ok (v', <[i := moves c (Answered true)]> cs).
Proof using.
  intros [Hlive Hsw Hst] Hi Hat Hg. cbn [fst snd] in *.
  destruct Hst as [[He Hall]|(w & cw & Hw & Htw & He & Huniq)].
  { destruct (Hall i c Hi) as [Hr|[h Hr]]; congruence. }
  assert (i = w) as -> by (apply (Huniq i c Hi); by left).
  rewrite Hi in Hw. injection Hw as <-. injection Hg as <-. split; cbn [fst snd].
  - by apply race_live_insert.
  - intros j c' h Hj Hc'. apply (lookup_moves w c) in Hj as [[-> ->]|[_ Hj]]; [done|eauto|done].
  - right. exists w, (moves c (Answered true)).
    rewrite list_lookup_insert_eq by (by eapply lookup_lt_Some).
    split; [done|]. split; [by right|]. split; [apply lookup_insert_eq|].
    intros j c' Hj Ht. apply (lookup_moves w c) in Hj as [[-> ->]|[_ Hj]]; [done|eauto|done].
Qed.

Lemma race_step s s' : race_ok s → claim_step s s' → race_ok s'.
Proof using Hstale.
  intros Hok Hs. destruct Hs as [v cs i c now held Hi Hat Hnow Hg
    |v v' cs i c held swapped Hi Hat Hg|v v' cs i c micros Hi Hat Hg|v v' cs He].
  - injection Hg as <-. by apply race_reads.
  - by eapply race_swaps.
  - by eapply race_writes.
  - destruct Hok as [Hlive Hsw Hst]. split; cbn [fst snd] in *; [done|done|]. by rewrite He.
Qed.

Lemma race_start v cs :
  entries v !! key = stale → Forall (λ c, cc_at c = Reading ∧ live_through c) cs →
  race_ok (v, cs).
Proof using.
  intros He Hcs. rewrite Forall_lookup in Hcs. split; cbn [fst snd].
  - apply Forall_lookup. intros i c Hi. by apply (Hcs i).
  - intros i c held Hi Hat. destruct (Hcs i c Hi) as [Hr _]. congruence.
  - left. split; [done|]. intros i c Hi. left. by apply (Hcs i).
Qed.

Lemma race_reachable s s' : race_ok s → rtc claim_step s s' → race_ok s'.
Proof using Hstale. intros Hok Hr. induction Hr; eauto using race_step. Qed.
End race.

(** C10: however many callers race to claim one key of the standalone cache, and however their
    calls on the database interleave with each other and with every other use of it, at most
    one of them is told it took the key; and once all of them have their answer exactly one
    has been.  (The key is free when they start, nothing removes it while they race, and the
    entries they write outlive the race.) *)
Theorem claim_exclusive (level : CacheLevel) (key : list Z) (from until : Z) (v v' : View)
    (cs cs' : list claim_call) :
  (∀ now, from ≤ now < until → (entries v !! key ≫= λ e, value_of e now) = None) →
  Forall (λ c, cc_at c = Reading ∧ live_through from until c) cs → cs' ≠ [] →
  rtc (claim_step level key from until) (v, cs) (v', cs') →
  (∀ i j c c', cs' !! i = Some c → cs' !! j = Some c' →
    cc_at c = Answered true → cc_at c' = Answered true → i = j) ∧
  (Forall (λ c, ∃ b, cc_at c = Answered b) cs' →
    ∃ i c, cs' !! i = Some c ∧ cc_at c = Answered true).
Proof.
  intros Hfree Hcs Hne Hr.
  pose proof (race_start key from until (entries v !! key) v cs eq_refl Hcs) as Hok.
  eapply (race_reachable level key from until (entries v !! key) Hfree) in Hok; [|exact Hr].
  destruct Hok as [_ _ [[_ Hall]|(w & cw & Hw & Htw & _ & Huniq)]]; cbn [fst snd] in *.
  - split.
    + intros i j c c' Hi _ Ht _. destruct (Hall i c Hi) as [?|[? ?]]; congruence.
    + destruct cs' as [|c cs']; [done|]. intros Hf. inversion Hf as [|? ? [b Hb] _]; subst.
      destruct (Hall 0%nat c eq_refl) as [?|[? ?]]; congruence.
  - split.
    + intros i j c c' Hi Hj Ht Ht'. rewrite (Huniq i c Hi), (Huniq j c' Hj); unfold took; auto.
    + intros Hf. exists w, cw. split; [done|]. rewrite Forall_lookup in Hf.
      destruct (Hf w cw Hw) as [b Hb]. destruct Htw; congruence.
Qed.

(** What is published under a topic, when it can be read. *)
Definition publication_of (v : View) (topic : list Z) : option Published :=
  published v !! topic ≫= λ stored, ok (decode_published stored).

(** One publisher's swap landing, after a read of its own at whatever moment before, or
    anything that leaves the topic alone. *)
Inductive publish_step (topic : list Z) : View → View → Prop :=
  | publish_lands before v v' r value current :
      is_u64 r → published_of topic before = (current, before) → as_new current r = Ok false →
      publish_swap topic current (encode_published r value) v = (true, v') →
      publish_step topic v v'
  | publish_elsewhere v v' :
      published v' !! topic = published v !! topic → publish_step topic v v'.

Definition revision_at (v : View) (topic : list Z) : Z :=
  match publication_of v topic with Some p => revision p | None => -1 end.

Lemma publish_step_forward topic v v' :
  publish_step topic v v' →
  revision_at v topic < revision_at v' topic ∨ published v' !! topic = published v !! topic.
Proof.
  intros [before v1 v1' r value current Hr Hb Hnew Hs|v1 v1' He]; [left|by right].
  unfold publish_swap in Hs. case_bool_decide as Heq; [|done]. injection Hs as <-.
  unfold revision_at, publication_of. cbn [published]. rewrite lookup_insert_eq. cbn [mbind option_bind].
  rewrite decode_encode_published by done. cbn [ok revision]. rewrite Heq.
  unfold as_new in Hnew. destruct current as [c|]; cbn [mbind option_bind]; [|unfold_bounds; lia].
  apply bind_ok in Hnew as (p & Hp & [= Hle]). rewrite Hp. cbn. lia.
Qed.

(** A publication never goes back: whatever publishers race on a topic of the standalone
    cache, and however old the reads their swaps rest on, the revision every node can read
    only ever grows, and a publication that lands is newer than everything before it. *)
Theorem publication_forward (topic : list Z) (v v' : View) :
  rtc (publish_step topic) v v' →
  revision_at v topic ≤ revision_at v' topic ∧
  (published v' !! topic ≠ published v !! topic → revision_at v topic < revision_at v' topic).
Proof.
  induction 1 as [v|v v1 v' Hs _ [IH1 IH2]]; [naive_solver lia|].
  destruct (publish_step_forward _ _ _ Hs) as [Hlt|He]; [lia|].
  assert (revision_at v1 topic = revision_at v topic) as Hrev
    by (unfold revision_at, publication_of; by rewrite He).
  rewrite <-Hrev, <-He. auto.
Qed.

Section publishing.
Context {db : Type} `{!Sled db}.

(** With nobody else publishing, one turn of the loop decides. *)
Lemma publish_turn_ok topic r value d a d' :
  publish_turn topic r value d = Ok (a, d') →
  ∃ newer, as_new (published (view d) !! key_bytes topic) r = Ok newer ∧ a = Some (negb newer) ∧
    published (view d') !! key_bytes topic
    = if newer then published (view d) !! key_bytes topic else Some (encode_published r value).
Proof using.
  intros Ht. unfold publish_turn in Ht.
  apply bind_ok in Ht as ([current d2] & H1%atomically_ok & Ht). injection H1 as <- Hv.
  apply bind_ok in Ht as (newer & Hn & Ht). exists newer. split; [done|]. destruct newer.
  - injection Ht as <- <-. by rewrite Hv.
  - apply bind_ok in Ht as ([sw d3] & H2%atomically_ok & Ht). rewrite <-Hv in H2.
    unfold publish_swap in H2. rewrite bool_decide_eq_true_2 in H2 by done.
    injection H2 as <- H2. injection Ht as <- <-. rewrite <-H2. split; [done|].
    apply lookup_insert_eq.
Qed.

Lemma as_new_revision v topic r newer :
  as_new (published v !! topic) r = Ok newer → is_u64 r →
  newer = negb (revision_at v topic <? r).
Proof using.
  unfold as_new, revision_at, publication_of.
  destruct (published v !! topic) as [s|]; cbn [mbind option_bind].
  - intros (p & Hp & [= <-])%bind_ok _. rewrite Hp. cbn. lia.
  - intros [= <-] Hr. unfold_bounds. lia.
Qed.

(** Publishing at a revision lands exactly when nothing as new is published: then the value
    is what every node reads, and otherwise what was published stays; the loop takes one turn
    when nobody else is publishing. *)
Theorem publish_spec (topic : CacheKey) (r : Z) (value : list Z) (d d' : db) (landed : bool) (n : nat) :
  is_u64 r → publish (S n) topic r value d = Some (Ok (landed, d')) →
  landed = (revision_at (view d) (key_bytes topic) <? r) ∧
  publication_of (view d') (key_bytes topic)
  = (if landed then Some (MkPublished r value) else publication_of (view d) (key_bytes topic)).
Proof using.
  intros Hr Hp. cbn [publish] in Hp.
  destruct (publish_turn topic r value d) as [[a d1]|e] eqn:Ht; [|done].
  apply publish_turn_ok in Ht as (newer & Hn & -> & Hpub). injection Hp as <- <-.
  apply as_new_revision in Hn as ->; [|done]. rewrite negb_involutive. split; [done|].
  unfold publication_of. rewrite Hpub. destruct (_ <? r); cbn [negb]; [|done].
  cbn [mbind option_bind]. by rewrite decode_encode_published.
Qed.
End publishing.

(** ** A database that never fails *)
Module Memory.
#[export, program] Instance sled : Sled View := {|
  view v := v;
  atomically A f v := Ok (f v)
|}.
Next Obligation. intros A f d a d' H. by injection H. Qed.

Definition resp_key : CacheKey := MkCacheKey #"ip:resp:aa" Response.
Definition nonce_key : CacheKey := MkCacheKey #"ip:sys:n1" System.
Definition nonce_key' : CacheKey := MkCacheKey #"ip:sys:n2" System.
Definition minute : Ttl := MkRefined (check := check_span) 60000000000 eq_refl.
Definition small : MaxBytes := MkRefined (check := check_max_bytes) 30 eq_refl.
Definition limited : LevelLimits := MkLimits (Some small) None (Some small).

Lemma resp_key_ok : well_keyed resp_key.
Proof. exists #"aa". reflexivity. Qed.


Definition after_put : View :=
  match put no_limits 5 resp_key [1; 2; 3] (Some minute) 1000 1000000 empty_view with
  | Some (Ok d) => d | _ => empty_view
  end.

Lemma put_then_get_witness :
  Some [1; 2; 3]
  = (if decide (key_bytes resp_key = key_bytes resp_key)
     then if 2000 <? expiry 1000 (Some minute) then Some [1; 2; 3] else None
     else entries empty_view !! key_bytes resp_key ≫= λ e, value_of e 2000).
Proof.
  apply (put_then_get no_limits 5 resp_key resp_key [1; 2; 3] (Some minute) 1000 1000000 2000 2000000
    empty_view after_put after_put).
  - exact resp_key_ok.
  - exact resp_key_ok.
  - exact empty_accounted.
  - lia.
  - reflexivity.
  - vm_compute. congruence.
  - vm_compute. lia.
  - by_computation.
  - by_computation.
Defined.
(** Two callers race for one nonce: both read it free before either swaps. *)
Definition caller : claim_call := MkClaim (entry 1000 [] (Some minute)) Reading.

Lemma caller_live : cc_at caller = Reading ∧ live_through 1000 2000 caller.
Proof.
  split; [done|]. intros now Hnow. cbn [cc_entry caller]. rewrite value_of_entry by lia.
  replace (expiry 1000 (Some minute)) with 61000 by (vm_compute; reflexivity).
  replace (now <? 61000) with true by lia. eauto.
Qed.

Definition nonce : list Z := key_bytes nonce_key.
Definition swapped_view : View := (swap_body nonce None (cc_entry caller) empty_view).2.
Definition written_view : View := (write_body System nonce (cc_entry caller) 1000000 swapped_view).2.

Lemma race_run :
  rtc (claim_step System nonce 1000 2000) (empty_view, [caller; caller])
    (written_view, [moves caller (Answered true); moves caller (Answered false)]).
Proof.
  eapply rtc_l; [apply (claim_reads _ _ _ _ _ _ 0 caller 1000 None); by try lia|].
  eapply rtc_l; [apply (claim_reads _ _ _ _ _ _ 1 caller 1001 None); by try lia|].
  eapply rtc_l; [apply (claim_swaps _ _ _ _ _ swapped_view _ 0 (moves caller (Swapping None)) None true);
    [reflexivity|reflexivity|by_computation]|].
  eapply rtc_l; [apply (claim_swaps _ _ _ _ _ swapped_view _ 1 (moves caller (Swapping None)) None false);
    [reflexivity|reflexivity|by_computation]|].
  eapply rtc_l; [apply (claim_reads _ _ _ _ _ _ 1 caller 1002 (Some (cc_entry caller)));
    [reflexivity|reflexivity|lia|by_computation]|].
  eapply rtc_l; [apply (claim_writes _ _ _ _ _ written_view _ 0 (moves caller Writing) 1000000);
    [reflexivity|reflexivity|by_computation]|].
  apply rtc_refl.
Qed.

Lemma claim_exclusive_witness :
  (∀ i j c c',
    [moves caller (Answered true); moves caller (Answered false)] !! i = Some c →
    [moves caller (Answered true); moves caller (Answered false)] !! j = Some c' →
    cc_at c = Answered true → cc_at c' = Answered true → i = j) ∧
  (Forall (λ c, ∃ b, cc_at c = Answered b)
    [moves caller (Answered true); moves caller (Answered false)] →
    ∃ i c, [moves caller (Answered true); moves caller (Answered false)] !! i = Some c ∧
      cc_at c = Answered true).
Proof.
  apply (claim_exclusive System nonce 1000 2000 empty_view written_view [caller; caller]
    [moves caller (Answered true); moves caller (Answered false)]).
  - intros now _. reflexivity.
  - repeat constructor; apply caller_live.
  - done.
  - exact race_run.
Defined.

Definition topic : CacheKey := MkCacheKey #"ip:sys:rules" System.
Definition published_view : View :=
  (publish_swap (key_bytes topic) None (encode_published 7 [9]) empty_view).2.

Lemma publication_forward_witness :
  revision_at empty_view (key_bytes topic) ≤ revision_at published_view (key_bytes topic) ∧
  (published published_view !! key_bytes topic ≠ published empty_view !! key_bytes topic →
    revision_at empty_view (key_bytes topic) < revision_at published_view (key_bytes topic)).
Proof.
  apply (publication_forward (key_bytes topic)). apply rtc_once.
  apply (publish_lands _ empty_view empty_view published_view 7 [9] None).
  - unfold_bounds. lia.
  - reflexivity.
  - reflexivity.
  - by_computation.
Defined.

Lemma publish_spec_witness :
  false = (revision_at (view published_view) (key_bytes topic) <? 7) ∧
  publication_of (view published_view) (key_bytes topic)
  = (if false then Some (MkPublished 7 [4]) else publication_of (view published_view) (key_bytes topic)).
Proof.
  apply (publish_spec topic 7 [4] published_view published_view false 0).
  - unfold_bounds. lia.
  - by_computation.
Defined.

(** *** Two things the code does that its comments do not say *)

(** The entry a claim swaps in is already there when [write] looks for what it replaces, so
    its own weight is taken off the level before it is put on: two claims, each of a nine byte
    key and an eight byte stamp, leave the level at the weight of one. *)
Definition two_claims : View :=
  match claim no_limits 5 nonce_key (Some minute) 1000 1000000 empty_view with
  | Some (Ok (true, d)) =>
      match claim no_limits 5 nonce_key' (Some minute) 1001 1001000 d with
      | Some (Ok (true, d)) => d | _ => empty_view
      end
  | _ => empty_view
  end.

Theorem claims_undercounted :
  size (entries two_claims) = 2%nat ∧ held_in two_claims System = 17 ∧
  weight_of (entries two_claims) System = 34.
Proof. repeat split; by_computation. Qed.

(** A read looks its entry up, the entry is removed, and only then does the read record its
    use: a use and an index entry are left for a key that is not there. *)
Definition raced : View :=
  match put limited 5 resp_key [1; 2; 3] None 1000 1000000 empty_view with
  | Some (Ok d) =>
      match touch limited Response (key_bytes resp_key) 1002000
        (drop_body Response (key_bytes resp_key) d).2 with
      | Ok (_, d) => d | Err _ => empty_view
      end
  | _ => empty_view
  end.

Definition other_key : CacheKey := MkCacheKey #"ip:resp:bb" Response.
Definition large : list Z := repeat 0 20.
Definition over : View :=
  (write_body Response (key_bytes other_key) (entry 1003 large None) 1003000 raced).2.

(** The next write that takes the level past its limit never ends: the oldest index entry
    names nothing to drop, and it stays the oldest. *)
Theorem put_spins (fuel : nat) : put limited fuel other_key large None 1003 1003000 raced = None.
Proof.
  change (evict_loop fuel small Response over = None). induction fuel as [|fuel IH]; [done|].
  cbn [evict_loop].
  assert (evict_turn small Response over = Ok (Some false, over)) as -> by by_computation.
  exact IH.
Qed.
End Memory.
