(* ===== verification/CacheTrait.v ===== *)
(** * CacheTrait: what every cache backend does

    Models the trait [Cache] of [crates/ip-cache/src/cache.rs] as the class [Cache]: what a
    state holds under a key at a moment, and what each operation promises of it.  The clients
    of the cache ([Auth], [RespCache]) are proved against the class; [sled_cache] discharges it with the
    operations of [Sled] for levels nothing evicts from, as [SledCache::open] builds them.

    The operations of one state are calls that follow one another.  A call that fails promises
    nothing of what the cache then holds. *)
From S2P Require Import Prelude Text Ident Cache Sled.

(** [held s now b] is what a reader at [now], in milliseconds, finds under the bytes [b]. *)
Class Cache (St : Type) : Type := {
  cache_ok : St → Prop;
  held : St → Z → list Z → option (list Z);
  k_get : CacheKey → Z → St → result CacheError (option (list Z)) * St;
  k_put : CacheKey → list Z → option Ttl → Z → St → result CacheError unit * St;
  k_claim : CacheKey → option Ttl → Z → St → result CacheError bool * St;
  k_remove : CacheKey → Z → St → result CacheError bool * St;
  (** Whether an entry written at [now] is still there at [t]: until its ttl is over, and no
      longer than the millisecond the clock of the backend may lag. *)
  stays : Z → option Ttl → Z → bool;
  stays_until : ∀ now ttl t, t < expiry now ttl → stays now ttl t = true;
  stays_over : ∀ now ttl t, stays now (Some ttl) t = true → t ≤ expiry now (Some ttl);
  (** An entry only ever ages out. *)
  held_ages : ∀ s now later b, now ≤ later → held s now b = None → held s later b = None;
  k_get_ok : ∀ k now s o s', cache_ok s → 0 ≤ now → k_get k now s = (Ok o, s') →
    o = held s now (key_bytes k) ∧ cache_ok s' ∧
    ∀ t b, now ≤ t → held s' t b = held s t b;
  k_put_ok : ∀ k v ttl now s s', cache_ok s → 0 ≤ now → k_put k v ttl now s = (Ok tt, s') →
    cache_ok s' ∧
    ∀ t b, now ≤ t → held s' t b =
      if decide (b = key_bytes k) then if stays now ttl t then Some v else None
      else held s t b;
  k_claim_ok : ∀ k ttl now s taken s', cache_ok s → 0 ≤ now →
    k_claim k ttl now s = (Ok taken, s') →
    taken = bool_decide (held s now (key_bytes k) = None) ∧ cache_ok s' ∧
    ∀ t b, now ≤ t → held s' t b =
      if decide (b = key_bytes k ∧ taken = true) then if stays now ttl t then Some [] else None
      else held s t b;
  k_remove_ok : ∀ k now s found s', cache_ok s → 0 ≤ now → k_remove k now s = (Ok found, s') →
    found = bool_decide (is_Some (held s now (key_bytes k))) ∧ cache_ok s' ∧
    ∀ t b, now ≤ t → held s' t b = if decide (b = key_bytes k) then None else held s t b
}.

(** The outcome of an operation that may fail or, in principle, never end. *)
Definition settled {db A : Type} (d : db) (r : option (result CacheError (A * db)))
    : result CacheError A * db :=
  match r with
  | Some (Ok (a, d)) => (Ok a, d)
  | Some (Err e) => (Err e, d)
  | None => (Err BackendFailed, d)
  end.

Lemma settled_ok {db A} (d : db) (r : option (result CacheError (A * db))) a d' :
  settled d r = (Ok a, d') → r = Some (Ok (a, d')).
Proof. destruct r as [[[? ?]|]|]; cbn; naive_solver. Qed.

Section sled_cache.
Context {db : Type} `{!Sled db} (micros : Z).

(** What a database's entries hold for a reader. *)
Definition read_at (m : gmap (list Z) (list Z)) (now : Z) (b : list Z) : option (list Z) :=
  m !! b ≫= λ e, value_of e now.

Lemma value_of_ages e now later : now ≤ later → value_of e now = None → value_of e later = None.
Proof using.
  intros Hle. unfold value_of. destruct (Nat.leb STAMP (length e)); [|done].
  destruct (now <? _) eqn:Hn; [done|]. by replace (later <? _) with false by lia.
Qed.

Lemma read_at_ages m now later b : now ≤ later → read_at m now b = None → read_at m later b = None.
Proof using.
  intros Hle. unfold read_at. destruct (m !! b) as [e|]; [|done]. by apply value_of_ages.
Qed.

Lemma read_at_insert m k now v ttl t b :
  0 ≤ now →
  read_at (<[k := entry now v ttl]> m) t b
  = if decide (b = k) then if t <? expiry now ttl then Some v else None else read_at m t b.
Proof using.
  intros Hn. unfold read_at. case_decide as Hb.
  - subst. rewrite lookup_insert_eq. cbn [mbind option_bind]. by apply value_of_entry.
  - by rewrite lookup_insert_ne.
Qed.

Lemma read_at_delete m k t b :
  read_at (delete k m) t b = if decide (b = k) then None else read_at m t b.
Proof using.
  unfold read_at. case_decide as Hb; subst; [by rewrite lookup_delete_eq|by rewrite lookup_delete_ne].
Qed.

(** Dropping what no reader finds any more changes nothing a later reader finds. *)
Lemma read_at_drop_dead m k now t b :
  now ≤ t → read_at m now k = None → read_at (delete k m) t b = read_at m t b.
Proof using.
  intros Ht Hk. rewrite read_at_delete. case_decide; [subst|done].
  symmetry. by eapply read_at_ages.
Qed.

Lemma drop_entry_entries level key now d b d' :
  drop_entry level key now d = Ok (b, d') →
  entries (view d') = delete key (entries (view d)) ∧
  b = bool_decide (is_Some (read_at (entries (view d)) now key)).
Proof using.
  intros Hr. unfold drop_entry in Hr.
  apply bind_ok in Hr as ([e d1] & H1%atomically_ok & Hr). injection Hr as <- <-.
  unfold drop_body in H1. unfold read_at. destruct (entries (view d) !! key) eqn:Hk.
  - injection H1 as <- <-. done.
  - injection H1 as <- <-. by rewrite delete_id.
Qed.

Lemma get_entries k now d o d' :
  Sled.get no_limits k now micros d = Ok (o, d') →
  o = read_at (entries (view d)) now (key_bytes k) ∧
  ∀ t b, now ≤ t → read_at (entries (view d')) t b = read_at (entries (view d)) t b.
Proof using.
  intros Hg. unfold Sled.get in Hg.
  apply bind_ok in Hg as ([h d1] & H1%atomically_ok & Hg). injection H1 as <- Hv.
  assert (entries (view d1) = entries (view d)) as He1 by by rewrite Hv.
  unfold read_at at 1. destruct (entries (view d) !! key_bytes k) as [e|] eqn:He.
  2: { injection Hg as <- <-. by rewrite He1. }
  cbn [mbind option_bind]. destruct (value_of e now) as [v|] eqn:Hval.
  - cbn in Hg. injection Hg as <- <-. by rewrite He1.
  - apply bind_ok in Hg as ([b d2] & Ht & Hg). injection Hg as <- <-.
    apply drop_entry_entries in Ht as [Hd2 _]. split; [done|]. intros t b' Hle.
    rewrite Hd2, He1. apply (read_at_drop_dead _ _ now); [done|]. unfold read_at. by rewrite He.
Qed.

Lemma write_entries fuel level key e d d' :
  write no_limits fuel level key e micros d = Some (Ok d') →
  entries (view d') = <[key := e]> (entries (view d)).
Proof using.
  unfold write. destruct (atomically _ d) as [[[] d1]|] eqn:Ha; [|done].
  apply atomically_ok in Ha. destruct level; cbn; intros [= <-];
    by apply (f_equal (entries ∘ snd)) in Ha.
Qed.

(** With calls that follow one another, the first turn of [claim] settles it. *)
Lemma claim_entries k ttl now d taken d' :
  Sled.claim no_limits 1 k ttl now micros d = Some (Ok (taken, d')) →
  taken = bool_decide (read_at (entries (view d)) now (key_bytes k) = None) ∧
  entries (view d') = if taken then <[key_bytes k := entry now [] ttl]> (entries (view d))
                      else entries (view d).
Proof using.
  unfold Sled.claim. cbn [claim_loop].
  destruct (claim_turn _ _ _ _ _ _ _) as [[[[b|] d0]|]|] eqn:Ht; try done.
  intros [= -> ->]. unfold claim_turn in Ht.
  destruct (atomically (get_body _) d) as [[h d1]|] eqn:Hg; [|done].
  apply atomically_ok in Hg. injection Hg as <- Hv. fold (read_at (entries (view d)) now (key_bytes k)) in Ht.
  destruct (read_at (entries (view d)) now (key_bytes k)) as [v|] eqn:Hr.
  { injection Ht as <- <-. by rewrite <-Hv. }
  destruct (atomically (swap_body _ _ _) d1) as [[[] d2]|] eqn:Hs; [|done|done].
  apply atomically_ok in Hs. rewrite <-Hv in Hs. unfold swap_body in Hs.
  rewrite bool_decide_eq_true_2 in Hs by done. injection Hs as Hs.
  destruct (write _ _ _ _ _ _ _) as [[d3|]|] eqn:Hw; try done. injection Ht as <- <-.
  apply write_entries in Hw. split; [done|]. rewrite Hw, <-Hs. cbn. apply insert_insert_eq.
Qed.

#[export, program] Instance sled_cache : Cache db := {|
  cache_ok _ := True;
  held d now b := read_at (entries (view d)) now b;
  k_get k now d := settled d (Some (Sled.get no_limits k now micros d));
  k_put k v ttl now d := settled d
    (option_map (mbind (λ d, Ok (tt, d))) (Sled.put no_limits 1 k v ttl now micros d));
  k_claim k ttl now d := settled d (Sled.claim no_limits 1 k ttl now micros d);
  k_remove k now d := settled d (Some (Sled.remove k now d));
  stays now ttl t := t <? expiry now ttl
|}.
Next Obligation. intros. by apply Z.ltb_lt. Qed.
Next Obligation. intros now ttl t Ht%Z.ltb_lt. lia. Qed.
Next Obligation. intros. by eapply read_at_ages. Qed.
Next Obligation.
  intros k now d o d' _ _ Hg%settled_ok. injection Hg as Hg. by apply get_entries in Hg as [? ?].
Qed.
Next Obligation.
  intros k v ttl now d d' _ Hn Hp%settled_ok. unfold Sled.put in Hp.
  destruct (write _ _ _ _ _ _ _) as [[d1|]|] eqn:Hw; try done. injection Hp as <-.
  apply write_entries in Hw. split; [done|]. intros t b _. rewrite Hw. by apply read_at_insert.
Qed.
Next Obligation.
  intros k ttl now d taken d' _ Hn Hc%settled_ok. apply claim_entries in Hc as [Htaken He].
  split; [done|]. split; [done|]. intros t b _. rewrite He. destruct taken.
  - rewrite read_at_insert by done. repeat case_decide; naive_solver.
  - case_decide; naive_solver.
Qed.
Next Obligation.
  intros k now d found d' _ _ Hr%settled_ok. injection Hr as Hr. unfold Sled.remove in Hr.
  apply drop_entry_entries in Hr as [He ->]. split; [done|]. split; [done|].
  intros t b _. rewrite He. apply read_at_delete.
Qed.
End sled_cache.
