(* ===== verification/LimitCore.v ===== *)
(** * LimitCore: scopes, periods and allowances

    Models [crates/ip-core/src/limit.rs] and [timestamp.rs].  A [Timestamp] holds whole
    seconds, so it is its count of unix seconds; [chrono]'s calendar is the class [Chrono]. *)
From S2P Require Import Prelude Text Ident.

(** ** timestamp.rs *)

Definition Timestamp : Type := Z.

Class Chrono : Type := {
  (** The moments [DateTime<Utc>] can hold. *)
  earliest : Z;
  latest : Z;
  (** [with_day], then [with_time(MIN)], [month], [year], [with_month] and [with_year] on a
      moment of whole seconds. *)
  with_day : Z → Z → option Z;
  at_midnight : Z → option Z;
  month_of : Z → Z;
  year_of : Z → Z;
  with_month : Z → Z → option Z;
  with_year : Z → Z → option Z
}.

Definition MINUTE : Z := 60.
Definition HOUR : Z := 60 * MINUTE.
Definition DAY : Z := 24 * HOUR.

Section timestamp.
Context `{Chrono}.

Definition from_unix_seconds (seconds : Z) : result CoreError Timestamp :=
  if (earliest <=? seconds) && (seconds <=? latest) then Ok seconds
  else Err (TimestampOutOfRange seconds).

Definition month_began (at_ : Timestamp) : Timestamp :=
  default at_ (first ← with_day at_ 1; at_midnight first).

Definition next_month (at_ : Timestamp) : Timestamp :=
  let first := month_began at_ in
  default first
    (match month_of first with
     | 12 => y ← with_year first (year_of first + 1); with_month y 1
     | month => with_month first (month + 1)
     end).
End timestamp.

(** ** limit.rs *)

Record LimitScope : Type := MkScope {
  limit_tenant : TenantId;
  limit_user : option UserId;
  limit_api : option ApiId
}.
#[export] Instance LimitScope_eq_dec : EqDecision LimitScope.
Proof. solve_decision. Defined.

(** [Option::is_none_or] against one value. *)
Definition none_or {A} `{EqDecision A} (o : option A) (x : A) : bool :=
  match o with Some y => bool_decide (y = x) | None => true end.

Definition scope_holds (s : LimitScope) (tenant : TenantId) (user : UserId) (api : ApiId)
    : bool :=
  bool_decide (limit_tenant s = tenant) && none_or (limit_user s) user
  && none_or (limit_api s) api.

Definition narrowness (s : LimitScope) : Z :=
  (match limit_user s with Some _ => 1 | None => 0 end) * 2
  + (match limit_api s with Some _ => 1 | None => 0 end).

(** What a scope is narrowed to, or a star. *)
Definition show_narrowed {kind} (o : option (ident kind)) : str :=
  match o with Some i => #"/" ++ val i | None => #"/*" end.

(** [impl Display for LimitScope]. *)
Definition show_scope (s : LimitScope) : str :=
  val (limit_tenant s) ++ show_narrowed (limit_user s) ++ show_narrowed (limit_api s).

Inductive Counted : Type := Tokens | Requests.
#[export] Instance Counted_eq_dec : EqDecision Counted.
Proof. solve_decision. Defined.

Definition counted_name (c : Counted) : str :=
  match c with Tokens => #"tokens" | Requests => #"requests" end.
Definition counted_named (name : str) : result CoreError Counted :=
  if bool_decide (name = #"tokens") then Ok Tokens
  else if bool_decide (name = #"requests") then Ok Requests
  else Err (UnknownCounted name).

Inductive Period : Type := Minute | Hour | Day | Month.
#[export] Instance Period_eq_dec : EqDecision Period.
Proof. solve_decision. Defined.

Definition period_name (p : Period) : str :=
  match p with Minute => #"minute" | Hour => #"hour" | Day => #"day" | Month => #"month" end.
Definition period_named (name : str) : result CoreError Period :=
  if bool_decide (name = #"minute") then Ok Minute
  else if bool_decide (name = #"hour") then Ok Hour
  else if bool_decide (name = #"day") then Ok Day
  else if bool_decide (name = #"month") then Ok Month
  else Err (UnknownPeriod name).

(** Seconds of the periods that all last as long. *)
Definition period_seconds (p : Period) : option Z :=
  match p with Minute => Some MINUTE | Hour => Some HOUR | Day => Some DAY | Month => None end.

Section period.
Context `{Chrono}.

(** [Period::began]; on a positive divisor [div_euclid] is [Z.div]. *)
Definition began (p : Period) (at_ : Timestamp) : Timestamp :=
  match p with
  | Minute => default at_ (ok (from_unix_seconds (at_ / MINUTE * MINUTE)))
  | Hour => default at_ (ok (from_unix_seconds (at_ / HOUR * HOUR)))
  | Day => default at_ (ok (from_unix_seconds (at_ / DAY * DAY)))
  | Month => month_began at_
  end.

Definition ends (p : Period) (at_ : Timestamp) : Timestamp :=
  let began := began p at_ in
  match p with
  | Minute => default at_ (ok (from_unix_seconds (began + MINUTE)))
  | Hour => default at_ (ok (from_unix_seconds (began + HOUR)))
  | Day => default at_ (ok (from_unix_seconds (began + DAY)))
  | Month => next_month began
  end.

(** Moments far enough inside what the calendar holds that every period around them is. *)
Definition inside (at_ : Timestamp) : Prop := earliest + DAY ≤ at_ ≤ latest - DAY.

Lemma from_unix_seconds_inside s :
  earliest ≤ s ≤ latest → from_unix_seconds s = Ok s.
Proof using.
  intros Hs. unfold from_unix_seconds.
  replace (earliest <=? s) with true by lia. by replace (s <=? latest) with true by lia.
Qed.

Lemma period_seconds_pos p n : period_seconds p = Some n → 0 < n ≤ DAY.
Proof using. by destruct p; intros [= <-]. Qed.

Lemma aligned_inside n at_ :
  0 < n ≤ DAY → inside at_ →
  from_unix_seconds (at_ / n * n) = Ok (at_ / n * n) ∧
  from_unix_seconds (at_ / n * n + n) = Ok (at_ / n * n + n).
Proof using.
  intros Hn Hat. unfold inside in *. pose proof (Z.div_mod at_ n).
  pose proof (Z.mod_pos_bound at_ n). split; apply from_unix_seconds_inside; lia.
Qed.

Lemma began_fixed p n at_ :
  period_seconds p = Some n → inside at_ → began p at_ = at_ / n * n.
Proof using.
  intros Hp Hat. pose proof (period_seconds_pos p n Hp) as Hn.
  destruct (aligned_inside n at_ Hn Hat) as [Hb _].
  destruct p; [| | |done]; injection Hp as <-; unfold began; by rewrite Hb.
Qed.

Lemma ends_fixed p n at_ :
  period_seconds p = Some n → inside at_ → ends p at_ = at_ / n * n + n.
Proof using.
  intros Hp Hat. unfold ends. rewrite (began_fixed p n at_ Hp Hat).
  pose proof (period_seconds_pos p n Hp) as Hn.
  destruct (aligned_inside n at_ Hn Hat) as [_ He].
  destruct p; [| | |done]; injection Hp as <-; by rewrite He.
Qed.
End period.

Definition check_allowance (allowed : Z) : result CoreError unit :=
  match try_unsigned u64_max allowed with
  | Some (Zpos _) => Ok tt
  | _ => Err (Empty "allowance")
  end.

(** [Allowance::new] is given a [u64] and refuses zero. *)
Definition Allowance : Type := refined check_allowance.
#[export] Instance Allowance_eq_dec : EqDecision Allowance := refined_eq_dec _.
Definition new_allowance (allowed : Z) : result CoreError Allowance :=
  refine check_allowance allowed.
Definition is_spent (a : Allowance) (spent : Z) : bool := val a <=? spent.

Lemma allowance_range (a : Allowance) : 1 ≤ val a ≤ u64_max.
Proof.
  assert (∀ n, check_allowance n = Ok tt → 1 ≤ n ≤ u64_max) as H.
  { intros n. unfold check_allowance. destruct (try_unsigned u64_max n) as [z|] eqn:Ht; [|done].
    apply try_unsigned_Some in Ht as [-> Hn]. destruct n; [done|lia|lia]. }
  apply H, val_checked.
Qed.

(** ** Lemmas *)

Lemma counted_named_name c : counted_named (counted_name c) = Ok c.
Proof. by destruct c. Qed.
Lemma period_named_name p : period_named (period_name p) = Ok p.
Proof. by destruct p. Qed.

(** What is narrowed to, after the slash. *)
Definition narrowed {kind} (o : option (ident kind)) : str :=
  match o with Some i => val i | None => #"*" end.

Lemma show_narrowed_eq {kind} (o : option (ident kind)) : show_narrowed o = ch "/" :: narrowed o.
Proof. by destruct o. Qed.

Lemma narrowed_no_slash {kind} (o : option (ident kind)) : ch "/" ∉ narrowed o.
Proof. destruct o as [i|]; [by apply ident_no_char|by apply contains_char_false]. Qed.

#[export] Instance narrowed_inj {kind} : Inj (=) (=) (@narrowed kind).
Proof.
  assert (∀ i : ident kind, val i ≠ #"*") as Hstar.
  { intros i Hi. apply (ident_no_char i (ch "*")); [done|]. rewrite Hi. by left. }
  intros [i|] [i'|] E; cbn [narrowed] in E;
    [f_equal; by apply val_inj|by destruct (Hstar i)|by destruct (Hstar i')|done].
Qed.

(** The text of a scope determines the scope: no identifier holds a slash or is a star. *)
Lemma show_scope_inj s s' : show_scope s = show_scope s' → s = s'.
Proof.
  destruct s as [t u a], s' as [t' u' a']. unfold show_scope.
  cbn [limit_tenant limit_user limit_api]. rewrite !show_narrowed_eq. intros E.
  apply sep_inj in E as [Et E]; [|by apply ident_no_char..].
  apply sep_inj in E as [Eu Ea]; [|apply narrowed_no_slash..].
  f_equal; [by apply val_inj|by apply narrowed_inj|by apply narrowed_inj].
Qed.

Lemma ident_graphic {kind} (i : ident kind) : Forall (λ c, is_ascii_graphic c = true) (val i).
Proof. eapply Forall_impl; [apply ident_chars|apply id_char_graphic]. Qed.

(** Characters a scope is written with, none of which a cache key refuses. *)
Lemma show_scope_graphic s : Forall (λ c, is_ascii_graphic c = true) (show_scope s).
Proof.
  assert (∀ kind (o : option (ident kind)),
    Forall (λ c, is_ascii_graphic c = true) (show_narrowed o)) as Ho.
  { intros kind [i|]; [|by repeat constructor]. apply Forall_app.
    split; [by repeat constructor|apply ident_graphic]. }
  unfold show_scope. rewrite !Forall_app. split; [apply ident_graphic|].
  split; apply Ho.
Qed.

(** ** Properties *)

Section period_properties.
Context `{Chrono}.

(** The periods of fixed length tile the clock: every moment lies in its own period, any
    moment of a period has that period's start and end, and the next period begins exactly
    where it ends. *)
Theorem periods_tile (p : Period) (n : Z) (at_ at' : Timestamp) :
  period_seconds p = Some n → inside at_ → inside at' →
  began p at_ ≤ at_ < ends p at_ ∧ ends p at_ = began p at_ + n ∧
  (began p at_ ≤ at' < ends p at_ ↔ began p at' = began p at_) ∧
  (inside (ends p at_) → began p (ends p at_) = ends p at_).
Proof using.
  intros Hp Hat Hat'. pose proof (period_seconds_pos p n Hp) as [Hn _].
  rewrite (ends_fixed p n at_ Hp Hat), !(began_fixed p n _ Hp) by done.
  pose proof (Z.div_mod at_ n). pose proof (Z.mod_pos_bound at_ n Hn).
  pose proof (Z.div_mod at' n). pose proof (Z.mod_pos_bound at' n Hn).
  split; [lia|]. split; [done|]. split.
  - split; [|lia]. intros Hin. f_equal. symmetry. apply (Z.div_unique_pos _ _ _ (at' - at_ / n * n)); lia.
  - intros Hin. rewrite (began_fixed p n _ Hp Hin).
    rewrite (Z.div_add_l (at_ / n) n n) by lia. rewrite Z.div_same by lia. lia.
Qed.
End period_properties.

(** ** Sample values *)
Module SampleChrono.
(** A calendar of months of thirty days, which is enough of one for the periods below. *)
#[export] Instance chrono : Chrono := {|
  earliest := - 10 ^ 12;
  latest := 10 ^ 12;
  with_day t d := Some ((t / DAY / 30 * 30 + d - 1) * DAY + t mod DAY);
  at_midnight t := Some (t / DAY * DAY);
  month_of t := (t / DAY / 30) mod 12 + 1;
  year_of t := t / DAY / 360;
  with_month t m := Some ((t / DAY / 360 * 360 + (m - 1) * 30) * DAY);
  with_year t y := Some (y * 360 * DAY)
|}.

Lemma periods_tile_witness :
  began Hour 7322 ≤ 7322 < ends Hour 7322 ∧ ends Hour 7322 = began Hour 7322 + 3600 ∧
  (began Hour 7322 ≤ 10799 < ends Hour 7322 ↔ began Hour 10799 = began Hour 7322) ∧
  (inside (ends Hour 7322) → began Hour (ends Hour 7322) = ends Hour 7322).
Proof.
  apply (periods_tile Hour 3600 7322 10799).
  - reflexivity.
  - unfold inside, DAY, HOUR, MINUTE. cbn. lia.
  - unfold inside, DAY, HOUR, MINUTE. cbn. lia.
Defined.

Definition tenant : TenantId := MkRefined (check := validate_id "tenant id") #"acme" eq_refl.
Definition user : UserId := MkRefined (check := validate_id "user id") #"ada" eq_refl.
Definition api : ApiId := MkRefined (check := validate_id "api id") #"chat" eq_refl.
Definition two : Allowance := MkRefined (check := check_allowance) 2 eq_refl.
Definition hundred : Allowance := MkRefined (check := check_allowance) 100 eq_refl.
End SampleChrono.
