(* ===== verification/Limiter.v ===== *)
(** * Limiter: what a request is allowed to spend

    Models [crates/ip-gateway/src/limit.rs] with [Limit] and [UsageFilter] of
    [crates/ip-storage/src/limit.rs] and [usage.rs].  The counts live behind the trait
    [Counters] of [ip-cache], here the class [Counters] with what the trait promises; what a
    lost count is seeded from is the usage store's [spent], an argument.  A [HashMap] gives
    its values in no particular order, so the order is an argument too. *)
From S2P Require Import Prelude Text Ident LimitCore Cache.

Record Limit : Type := MkLimit {
  scope : LimitScope;
  counted : Counted;
  period : Period;
  allowance : Allowance;
  created_at : Timestamp
}.
#[export] Instance Limit_eq_dec : EqDecision Limit.
Proof. solve_decision. Defined.

Record UsageFilter : Type := MkUsageFilter {
  filter_tenant : option TenantId;
  filter_user : option UserId;
  filter_api : option ApiId
}.

(** Who is asking, which is what a limit's scope is matched against. *)
Record Asking : Type := MkAsking {
  ask_tenant : TenantId;
  ask_user : UserId;
  ask_api : ApiId
}.

(** ** The traits *)

(** A count is named by the bytes of its key.  What an implementation keeps true of its state
    is its own; a call that fails promises nothing of what the counts then are. *)
Class Counters (St : Type) : Type := {
  counters_ok : St → Prop;
  count_at : St → list Z → option Z;
  c_count : CacheKey → Z → Ttl → St → result CacheError Z * St;
  c_counted : CacheKey → St → result CacheError (option Z) * St;
  c_seed : CacheKey → Z → Ttl → St → result CacheError Z * St;
  count_ok : ∀ k by_ ttl s n s', counters_ok s → is_u64 by_ → 10 ^ 9 ≤ val ttl →
    c_count k by_ ttl s = (Ok n, s') →
    n = sat_add (default 0 (count_at s (as_bytes (ck_key k)))) by_ ∧ counters_ok s' ∧
    ∀ b, count_at s' b = if decide (b = as_bytes (ck_key k)) then Some n else count_at s b;
  counted_ok : ∀ k s o s', counters_ok s → c_counted k s = (Ok o, s') →
    o = count_at s (as_bytes (ck_key k)) ∧ counters_ok s' ∧ ∀ b, count_at s' b = count_at s b;
  seed_ok : ∀ k from ttl s n s', counters_ok s → is_u64 from → 10 ^ 9 ≤ val ttl →
    c_seed k from ttl s = (Ok n, s') →
    n = default from (count_at s (as_bytes (ck_key k))) ∧ counters_ok s' ∧
    ∀ b, count_at s' b = if decide (b = as_bytes (ck_key k)) then Some n else count_at s b
}.

(** Why a count could not be read. *)
Inductive Unreadable : Type := CacheUnreadable (e : CacheError) | StoreUnreadable.
#[export] Instance Unreadable_eq_dec : EqDecision Unreadable.
Proof. solve_decision. Defined.

(** [Decision]: what a check decided about one request. *)
Inductive LimitDecision : Type :=
  | Allowed
  | Spent (counted : Counted) (period : Period) (allowance : Allowance) (ends : Timestamp)
  | Unknown (why : Unreadable).
#[export] Instance LimitLimitDecisioneq_dec : EqDecision LimitDecision.
Proof. solve_decision. Defined.

(** ** Limits::applying_to *)

#[export] Instance Counted_countable : Countable Counted.
Proof.
  refine (inj_countable (λ c, match c with Tokens => 0 | Requests => 1 end%nat)
    (nth_error [Tokens; Requests]) _). by intros [].
Defined.
#[export] Instance Period_countable : Countable Period.
Proof.
  refine (inj_countable (λ p, match p with Minute => 0 | Hour => 1 | Day => 2 | Month => 3 end%nat)
    (nth_error [Minute; Hour; Day; Month]) _). by intros [].
Defined.

Definition holds_for (asking : Asking) (l : Limit) : bool :=
  scope_holds (scope l) (ask_tenant asking) (ask_user asking) (ask_api asking).

(** The body of the loop: [entry], [and_modify], [or_insert]. *)
Definition consider (asking : Asking) (deciding : gmap (Counted * Period) Limit) (l : Limit)
    : gmap (Counted * Period) Limit :=
  if negb (holds_for asking l) then deciding
  else
    let key := (counted l, period l) in
    match deciding !! key with
    | Some held =>
        if narrowness (scope held) <? narrowness (scope l) then <[key := l]> deciding else deciding
    | None => <[key := l]> deciding
    end.

Definition deciding (limits : list Limit) (asking : Asking) : gmap (Counted * Period) Limit :=
  fold_left (consider asking) limits ∅.

Section limiter.
Context `{Chrono}.
Context (into_values : gmap (Counted * Period) Limit → list Limit).
Context (into_values_ok : ∀ m, into_values m ≡ₚ (map_to_list m).*2).
Context {St : Type} `{!Counters St}.
(** [UsageStore::spent] as the store answers it. *)
Context (usage_spent : UsageFilter → Counted → Timestamp → result unit Z).

Definition applying_to (limits : list Limit) (asking : Asking) : list Limit :=
  into_values (deciding limits asking).

(** [filter]: the usage rows a limit's scope covers. *)
Definition usage_filter (s : LimitScope) : UsageFilter :=
  MkUsageFilter (Some (limit_tenant s)) (limit_user s) (limit_api s).

(** The id a count is kept under. *)
Definition counter_id (l : Limit) (now : Timestamp) : str :=
  #"limit:" ++ show_scope (scope l) ++ #":" ++ counted_name (counted l) ++ #":"
  ++ period_name (period l) ++ #":" ++ dec (began (period l) now).

(** [counter]; an [unreachable!] is [None]. *)
Definition counter (l : Limit) (now : Timestamp) : option (CacheKey * Ttl) :=
  key ← ok (new_cache_key System (counter_id l now));
  let left := ends (period l) now - now in
  ttl ← ok (ttl_seconds (Z.max (default 1 (try_unsigned u64_max left)) 1));
  Some (key, ttl).

Definition spent (l : Limit) (now : Timestamp) : LimitDecision :=
  Spent (counted l) (period l) (allowance l) (ends (period l) now).

(** [seeded]: what is counted under a limit now. *)
Definition seeded (l : Limit) (now : Timestamp) (key : CacheKey) (ttl : Ttl) (s : St)
    : result Unreadable Z * St :=
  match c_counted key s with
  | (Err e, s) => (Err (CacheUnreadable e), s)
  | (Ok (Some counted), s) => (Ok counted, s)
  | (Ok None, s) =>
      match usage_spent (usage_filter (scope l)) (counted l) (began (period l) now) with
      | Err _ => (Err StoreUnreadable, s)
      | Ok spent =>
          match c_seed key spent ttl s with
          | (Err e, s) => (Err (CacheUnreadable e), s)
          | (Ok n, s) => (Ok n, s)
          end
      end
  end.

Definition rate (l : Limit) (now : Timestamp) (s : St) : option (LimitDecision * St) :=
  '(key, ttl) ← counter l now;
  Some (match seeded l now key ttl s with
        | (Err _, s) => (Allowed, s)
        | (Ok _, s) =>
            match c_count key 1 ttl s with
            | (Ok made, s) => (if val (allowance l) <? made then spent l now else Allowed, s)
            | (Err _, s) => (Allowed, s)
            end
        end).

Definition quota (l : Limit) (now : Timestamp) (s : St) : option (LimitDecision * St) :=
  '(key, ttl) ← counter l now;
  Some (match seeded l now key ttl s with
        | (Err why, s) => (Unknown why, s)
        | (Ok read, s) => (if is_spent (allowance l) read then spent l now else Allowed, s)
        end).

Definition decide_one (l : Limit) (now : Timestamp) (s : St) : option (LimitDecision * St) :=
  match counted l with Requests => rate l now s | Tokens => quota l now s end.

(** The loop of [Limiter::admit], which returns at the first limit that is not allowed. *)
Fixpoint admit_all (ls : list Limit) (now : Timestamp) (s : St) : option (LimitDecision * St) :=
  match ls with
  | [] => Some (Allowed, s)
  | l :: ls =>
      '(decided, s) ← decide_one l now s;
      if bool_decide (decided ≠ Allowed) then Some (decided, s) else admit_all ls now s
  end.

Definition admit_request (limits : list Limit) (asking : Asking) (now : Timestamp) (s : St)
    : option (LimitDecision * St) :=
  admit_all (applying_to limits asking) now s.

(** The loop of [Limiter::spend]. *)
Fixpoint spend_all (ls : list Limit) (tokens : Z) (now : Timestamp) (s : St) : option St :=
  match ls with
  | [] => Some s
  | l :: ls =>
      if bool_decide (counted l ≠ Tokens) then spend_all ls tokens now s
      else
        '(key, ttl) ← counter l now;
        spend_all ls tokens now (c_count key tokens ttl s).2
  end.

Definition spend (limits : list Limit) (asking : Asking) (tokens : Z) (now : Timestamp) (s : St)
    : option St :=
  if tokens =? 0 then Some s else spend_all (applying_to limits asking) tokens now s.
End limiter.

(** ** Which limit decides *)

Definition decides_key (l : Limit) : Counted * Period := (counted l, period l).

(** Of the limits that hold a request and count the same thing over the same stretch, none is
    narrower, and of those as narrow it is the first. *)
Definition narrowest (limits : list Limit) (asking : Asking) (l : Limit) : Prop :=
  ∃ before after, limits = before ++ l :: after ∧ holds_for asking l = true ∧
    (∀ l', l' ∈ before → holds_for asking l' = true → decides_key l' = decides_key l →
      narrowness (scope l') < narrowness (scope l)) ∧
    (∀ l', l' ∈ after → holds_for asking l' = true → decides_key l' = decides_key l →
      narrowness (scope l') ≤ narrowness (scope l)).

Lemma deciding_snoc limits l asking :
  deciding (limits ++ [l]) asking = consider asking (deciding limits asking) l.
Proof. unfold deciding. by rewrite fold_left_app. Qed.

(** A limit that does not outrank the one that decides changes nothing. *)
Lemma narrowest_snoc limits asking l x :
  narrowest limits asking l →
  (holds_for asking x = true → decides_key x = decides_key l →
    narrowness (scope x) ≤ narrowness (scope l)) →
  narrowest (limits ++ [x]) asking l.
Proof.
  intros (b & a & -> & Hl & Hb & Ha) Hx. exists b, (a ++ [x]).
  split; [by rewrite <-app_assoc|]. split; [done|]. split; [done|].
  intros l' [Hl'|Hl'%list_elem_of_singleton]%elem_of_app; [auto|by subst].
Qed.

Lemma deciding_spec limits asking kp :
  match deciding limits asking !! kp with
  | Some l => decides_key l = kp ∧ narrowest limits asking l
  | None => ∀ l, l ∈ limits → holds_for asking l = true → decides_key l ≠ kp
  end.
Proof.
  induction limits as [|x limits IH] using rev_ind; [by set_solver|].
  rewrite deciding_snoc. unfold consider. destruct (holds_for asking x) eqn:Hx; cbn [negb].
  2: { destruct (deciding limits asking !! kp) as [l|].
       - destruct IH as [-> Hn]. split; [done|]. apply narrowest_snoc; [done|congruence].
       - intros l [Hl|Hl%list_elem_of_singleton]%elem_of_app; [auto|congruence]. }
  fold (decides_key x). destruct (decide (kp = decides_key x)) as [->|Hne].
  - destruct (deciding limits asking !! decides_key x) as [held|] eqn:Hheld.
    + destruct IH as [Hk Hn]. destruct (narrowness (scope held) <? narrowness (scope x)) eqn:Hlt.
      * rewrite lookup_insert_eq. split; [done|]. destruct Hn as (b & a & -> & Hl & Hb & Ha).
        exists (b ++ held :: a), []. split; [done|]. split; [done|]. split; [|set_solver].
        intros l' [Hl'|[->|Hl']%elem_of_cons]%elem_of_app Hh Hk';
          [specialize (Hb l' Hl' Hh)|..|specialize (Ha l' Hl' Hh)]; rewrite ?Hk in *;
          [specialize (Hb Hk'); lia|lia|specialize (Ha Hk'); lia].
      * rewrite Hheld. split; [done|]. apply narrowest_snoc; [done|lia].
    + rewrite lookup_insert_eq. split; [done|]. exists limits, [].
      split; [done|]. split; [done|]. split; [|set_solver].
      intros l' Hl' Hh Hk'. by destruct (IH l' Hl' Hh).
  - assert (match deciding limits asking !! decides_key x with
      | Some held => if narrowness (scope held) <? narrowness (scope x)
                     then <[decides_key x := x]> (deciding limits asking) else deciding limits asking
      | None => <[decides_key x := x]> (deciding limits asking)
      end !! kp = deciding limits asking !! kp) as ->.
    { destruct (_ !! decides_key x); [case_if|]; by rewrite ?lookup_insert_ne by done. }
    destruct (deciding limits asking !! kp) as [l|].
    + destruct IH as [<- Hn]. split; [done|]. apply narrowest_snoc; [done|]. intros _ E. by destruct Hne.
    + intros l [Hl|Hl%list_elem_of_singleton]%elem_of_app; [auto|by subst].
Qed.

(** For each thing counted over each stretch, the one limit that decides is the narrowest of
    those whose scope holds the request, and none decides only when none holds it. *)
Theorem narrowest_decides (limits : list Limit) (asking : Asking) (c : Counted) (p : Period) :
  match deciding limits asking !! (c, p) with
  | Some l => counted l = c ∧ period l = p ∧ narrowest limits asking l
  | None => ∀ l, l ∈ limits → counted l = c → period l = p → holds_for asking l = false
  end.
Proof.
  pose proof (deciding_spec limits asking (c, p)) as Hs.
  destruct (deciding limits asking !! (c, p)) as [l|].
  - destruct Hs as [[= <- <-] Hn]. done.
  - intros l Hl <- <-. apply not_true_iff_false. intros Hh. by apply (Hs l Hl Hh).
Qed.

(** ** Where a count is kept *)

Section counter_key.
Context `{Chrono}.

Lemma counter_id_graphic l now : Forall (λ c, is_ascii_graphic c = true) (counter_id l now).
Proof using.
  assert (∀ s, forallb is_ascii_graphic s = true → Forall (λ c, is_ascii_graphic c = true) s) as Hb
    by (intros s; apply forallb_Forall_true).
  assert (Forall (λ c, is_ascii_graphic c = true) (dec (began (period l) now))) as Hd.
  { eapply Forall_impl; [apply dec_chars|]. intros c. cbn.
    unfold is_ascii_digit, is_ascii_graphic, in_range. lia. }
  unfold counter_id. rewrite !Forall_app.
  repeat split; try (by apply Hb); [apply show_scope_graphic|destruct (counted l)
    |destruct (period l)|done]; by apply Hb.
Qed.

(** The [unreachable!]s are: a count always has a key and a stretch of time left. *)
Lemma counter_total l now :
  ∃ ttl, counter l now
    = Some (MkCacheKey (#"ip:sys:" ++ counter_id l now) System, ttl) ∧
    val ttl = Z.max (default 1 (try_unsigned u64_max (ends (period l) now - now))) 1 * 10 ^ 9 ∧
    10 ^ 9 ≤ val ttl.
Proof using.
  unfold counter. rewrite new_cache_key_graphic; [|by unfold counter_id|apply counter_id_graphic].
  cbn [ok mbind option_bind]. unfold ttl_seconds.
  set (n := Z.max _ _). destruct (new_ttl (n * 10 ^ 9)) as [ttl|e] eqn:Ht.
  - exists ttl. split; [done|]. apply refine_ok in Ht as [_ ->]. split; [done|]. lia.
  - exfalso. apply refine_err in Ht. unfold check_span in Ht. case_if; [|done]. lia.
Qed.

Lemma show_scope_no_colon s : ch ":" ∉ show_scope s.
Proof using.
  unfold show_scope. rewrite !show_narrowed_eq, !not_elem_of_app, !not_elem_of_cons.
  assert (∀ kind (o : option (ident kind)), ch ":" ∉ narrowed o) as Ho.
  { intros kind [i|]; [by apply ident_no_char|by apply contains_char_false]. }
  split; [by apply ident_no_char|]. split; (split; [done|apply Ho]).
Qed.

Lemma counter_id_inj l l' now now' :
  counter_id l now = counter_id l' now' →
  scope l = scope l' ∧ counted l = counted l' ∧ period l = period l' ∧
  began (period l) now = began (period l') now'.
Proof using.
  unfold counter_id. intros E. apply app_inv_head in E.
  apply (sep_inj (ch ":")) in E as [Es E]; [|apply show_scope_no_colon..].
  apply (sep_inj (ch ":")) in E as [Ec E];
    [|by apply contains_char_false; destruct (counted l), (counted l')..].
  apply (sep_inj (ch ":")) in E as [Ep E];
    [|by apply contains_char_false; destruct (period l), (period l')..].
  split; [by apply show_scope_inj|]. split; [by destruct (counted l), (counted l')|].
  split; [by destruct (period l), (period l')|]. by apply dec_inj.
Qed.

(** Every limit counts on its own: two counts share a key only when they are the same scope
    counting the same thing over the same stretch of the clock, whoever is asking, and the key
    can always be built. *)
Theorem counter_keys_distinct (l l' : Limit) (now now' : Timestamp) :
  ∃ k k' ttl ttl', counter l now = Some (k, ttl) ∧ counter l' now' = Some (k', ttl') ∧
    (k = k' ↔ scope l = scope l' ∧ counted l = counted l' ∧ period l = period l' ∧
      began (period l) now = began (period l') now').
Proof using.
  destruct (counter_total l now) as (ttl & Hc & _), (counter_total l' now') as (ttl' & Hc' & _).
  do 4 eexists. split; [exact Hc|]. split; [exact Hc'|]. split.
  - intros E. apply (f_equal ck_key) in E. apply app_inv_head in E. by apply counter_id_inj.
  - intros (Hs & Hco & Hp & Hb). unfold counter_id. by rewrite Hs, Hco, Hb, Hp.
Qed.
End counter_key.

(** ** Checking a request *)

Section checking.
Context `{Chrono}.
Context {St : Type} `{!Counters St}.
Context (usage_spent : UsageFilter → Counted → Timestamp → result unit Z).

(** Nothing fails: the cache answers, and so does the store. *)
Record reliable : Prop := {
  up_count : ∀ k by_ ttl s, is_ok (c_count k by_ ttl s).1 = true;
  up_counted : ∀ k s, is_ok (c_counted k s).1 = true;
  up_seed : ∀ k from ttl s, is_ok (c_seed k from ttl s).1 = true;
  up_spent : ∀ f c at_, ∃ u, usage_spent f c at_ = Ok u ∧ is_u64 u
}.

Definition count_name (l : Limit) (now : Timestamp) : list Z :=
  as_bytes (#"ip:sys:" ++ counter_id l now).

(** What a count stands at: what is counted already, or what the rows say. *)
Definition standing (l : Limit) (now : Timestamp) (s : St) : Z :=
  default (default 0 (ok (usage_spent (usage_filter (scope l)) (counted l) (began (period l) now))))
    (count_at s (count_name l now)).

Lemma pair_ok {E A B} (p : result E A * B) : is_ok p.1 = true → ∃ a, p = (Ok a, p.2).
Proof using. destruct p as [[a|e] b]; [eauto|done]. Qed.

Lemma seeded_ok (Hup : reliable) l now ttl s :
  counters_ok s → 10 ^ 9 ≤ val ttl →
  ∃ s', seeded usage_spent l now (MkCacheKey (#"ip:sys:" ++ counter_id l now) System) ttl s
    = (Ok (standing l now s), s') ∧ counters_ok s' ∧
    count_at s' (count_name l now) = Some (standing l now s) ∧
    ∀ b, b ≠ count_name l now → count_at s' b = count_at s b.
Proof using.
  intros Hok Httl. unfold seeded, standing, count_name. set (k := MkCacheKey _ System).
  change (#"ip:sys:" ++ counter_id l now) with (ck_key k).
  destruct (pair_ok _ (up_counted Hup k s)) as [o Ho]. rewrite Ho.
  apply counted_ok in Ho as (-> & Hok1 & Hs1); [|done]. set (s1 := (c_counted k s).2) in *.
  destruct (count_at s (as_bytes (ck_key k))) as [c|] eqn:Hc.
  { exists s1. cbn. rewrite Hs1. auto. }
  destruct (up_spent Hup (usage_filter (scope l)) (counted l) (began (period l) now))
    as (u & Hu & Hur). rewrite Hu. cbn [ok from_option].
  destruct (pair_ok _ (up_seed Hup k u ttl s1)) as [n Hn]. rewrite Hn.
  apply seed_ok in Hn as (-> & Hok2 & Hs2); [|done..]. exists (c_seed k u ttl s1).2.
  rewrite Hs1, Hc. cbn. rewrite Hs1, Hc in Hs2. cbn in Hs2. split; [done|]. split; [done|]. split.
  - by rewrite Hs2, decide_True.
  - intros b Hb. rewrite Hs2, decide_False by done. apply Hs1.
Qed.

Lemma spent_not_allowed l now : spent l now ≠ Allowed.
Proof using. done. Qed.

(** One request counted against a rate. *)
Lemma rate_ok (Hup : reliable) l now s :
  counters_ok s →
  ∃ s', rate usage_spent l now s
    = Some (if val (allowance l) <? sat_add (standing l now s) 1 then spent l now else Allowed, s') ∧
    counters_ok s' ∧ count_at s' (count_name l now) = Some (sat_add (standing l now s) 1) ∧
    ∀ b, b ≠ count_name l now → count_at s' b = count_at s b.
Proof using.
  intros Hok. destruct (counter_total l now) as (ttl & Hc & _ & Httl).
  unfold rate. rewrite Hc. cbn [mbind option_bind].
  destruct (seeded_ok Hup l now ttl s Hok Httl) as (s1 & -> & Hok1 & Hs1 & Hframe).
  set (k := MkCacheKey _ System). destruct (pair_ok _ (up_count Hup k 1 ttl s1)) as [n Hn].
  rewrite Hn. apply count_ok in Hn as (-> & Hok2 & Hs2); [|done|unfold_bounds; lia|done].
  change (as_bytes (ck_key k)) with (count_name l now) in *.
  rewrite Hs1 in *. cbn [from_option id] in *. eexists. split; [done|]. split; [done|].
  split; [by rewrite Hs2, decide_True|].
  intros b Hb. rewrite Hs2, decide_False by done. by apply Hframe.
Qed.

(** One request read against a quota. *)
Lemma quota_ok (Hup : reliable) l now s :
  counters_ok s →
  ∃ s', quota usage_spent l now s
    = Some (if is_spent (allowance l) (standing l now s) then spent l now else Allowed, s') ∧
    counters_ok s' ∧ count_at s' (count_name l now) = Some (standing l now s) ∧
    ∀ b, b ≠ count_name l now → count_at s' b = count_at s b.
Proof using.
  intros Hok. destruct (counter_total l now) as (ttl & Hc & _ & Httl).
  unfold quota. rewrite Hc. cbn [mbind option_bind].
  destruct (seeded_ok Hup l now ttl s Hok Httl) as (s1 & -> & ?). eauto.
Qed.

(** Whether a limit leaves room for one more request, and what its count is once it was let
    through. *)
Definition room (l : Limit) (now : Timestamp) (s : St) : bool :=
  match counted l with
  | Requests => sat_add (standing l now s) 1 <=? val (allowance l)
  | Tokens => standing l now s <? val (allowance l)
  end.
Definition counts_then (l : Limit) (now : Timestamp) (s : St) : Z :=
  match counted l with Requests => sat_add (standing l now s) 1 | Tokens => standing l now s end.

Lemma decide_one_ok (Hup : reliable) l now s :
  counters_ok s →
  ∃ s', decide_one usage_spent l now s
    = Some (if room l now s then Allowed else spent l now, s') ∧
    counters_ok s' ∧ count_at s' (count_name l now) = Some (counts_then l now s) ∧
    ∀ b, b ≠ count_name l now → count_at s' b = count_at s b.
Proof using.
  intros Hok. unfold decide_one, room, counts_then. destruct (counted l).
  - destruct (quota_ok Hup l now s Hok) as (s' & -> & ?). exists s'. split; [|done].
    unfold is_spent. rewrite Z.ltb_antisym. by destruct (_ <=? _).
  - destruct (rate_ok Hup l now s Hok) as (s' & -> & ?). exists s'. split; [|done].
    rewrite Z.ltb_antisym. by destruct (_ <=? _).
Qed.

(** Limits that decide for different things keep different counts. *)
Lemma count_names_differ l l' now :
  decides_key l ≠ decides_key l' → count_name l now ≠ count_name l' now.
Proof using.
  intros Hne E. apply Hne. unfold count_name in E.
  rewrite !as_bytes_ascii in E by (apply graphic_ascii, Forall_app;
    split; [by repeat constructor|apply counter_id_graphic]).
  apply app_inv_head, counter_id_inj in E as (_ & E1 & E2 & _). unfold decides_key. congruence.
Qed.

Lemma keys_differ (l l' : Limit) (ls : list Limit) :
  decides_key l ∉ (decides_key <$> ls) → l' ∈ ls → decides_key l ≠ decides_key l'.
Proof using. intros Hl Hl' E. apply Hl. rewrite E. by apply list_elem_of_fmap_2. Qed.

Lemma admit_all_exact (Hup : reliable) ls now s :
  counters_ok s → NoDup (decides_key <$> ls) →
  ∃ d s', admit_all usage_spent ls now s = Some (d, s') ∧ counters_ok s' ∧
    (d = Allowed ↔ ∀ l, l ∈ ls → room l now s = true) ∧
    (d ≠ Allowed → ∃ l, l ∈ ls ∧ room l now s = false ∧ d = spent l now) ∧
    (d = Allowed → ∀ l, l ∈ ls → count_at s' (count_name l now) = Some (counts_then l now s)) ∧
    (∀ b, (∀ l, l ∈ ls → b ≠ count_name l now) → count_at s' b = count_at s b).
Proof using.
  revert s. induction ls as [|l ls IH]; intros s Hok Hnd; cbn [admit_all].
  { exists Allowed, s. split_and!; try done; set_solver. }
  apply NoDup_cons in Hnd as [Hl Hnd].
  destruct (decide_one_ok Hup l now s Hok) as (s1 & -> & Hok1 & Hs1 & Hframe).
  cbn [mbind option_bind]. destruct (room l now s) eqn:Hroom; cycle 1.
  { rewrite bool_decide_eq_true_2 by apply spent_not_allowed. exists (spent l now), s1.
    split_and!; try done.
    - split; [done|]. intros Hall. rewrite (Hall l) in Hroom by set_solver. done.
    - intros _. exists l. split_and!; [set_solver|done..].
    - intros b Hb. apply Hframe. apply Hb. set_solver. }
  rewrite bool_decide_eq_false_2 by (by intros []).
  assert (∀ l', l' ∈ ls → count_name l now ≠ count_name l' now) as Hne.
  { intros l' Hl'. apply count_names_differ. by eapply keys_differ. }
  assert (∀ l', l' ∈ ls → standing l' now s1 = standing l' now s) as Hst.
  { intros l' Hl'. unfold standing. rewrite Hframe; [done|]. apply not_eq_sym. auto. }
  destruct (IH s1 Hok1 Hnd) as (d & s' & -> & Hok' & Hiff & Hno & Hyes & Hout).
  exists d, s'. split; [done|]. split; [done|].
  assert (∀ l', l' ∈ ls → room l' now s1 = room l' now s ∧ counts_then l' now s1 = counts_then l' now s)
    as Hsame by (intros l' Hl'; unfold room, counts_then; by rewrite (Hst l' Hl')).
  split_and!.
  - rewrite Hiff. split; intros Hall l'.
    + intros [->|Hl']%elem_of_cons; [done|]. destruct (Hsame l' Hl') as [<- _]. auto.
    + intros Hl'. destruct (Hsame l' Hl') as [-> _]. apply Hall. by right.
  - intros Hd. destruct (Hno Hd) as (l' & Hl' & Hr & ->). exists l'.
    destruct (Hsame l' Hl') as [<- _]. split_and!; [by right|done..].
  - intros Hd l' [->|Hl']%elem_of_cons.
    + by rewrite Hout.
    + rewrite (Hyes Hd l' Hl'). by destruct (Hsame l' Hl') as [_ ->].
  - intros b Hb. rewrite Hout by set_solver. apply Hframe. apply Hb. by left.
Qed.

(** The decisions on requests made one after another against one rate. *)
Fixpoint rates (l : Limit) (nows : list Timestamp) (s : St) : option (list LimitDecision * St) :=
  match nows with
  | [] => Some ([], s)
  | now :: nows =>
      '(d, s) ← rate usage_spent l now s;
      '(ds, s) ← rates l nows s;
      Some (d :: ds, s)
  end.

Definition allowed_count (ds : list LimitDecision) : Z :=
  Z.of_nat (length (filter (λ d, d = Allowed) ds)).

Lemma same_stretch_name l now now' :
  began (period l) now' = began (period l) now → count_name l now' = count_name l now.
Proof using. intros E. unfold count_name, counter_id. by rewrite E. Qed.

Lemma rates_from (Hup : reliable) l b nows s n :
  counters_ok s → Forall (λ now, began (period l) now = b) nows →
  (∀ now, began (period l) now = b → count_at s (count_name l now) = Some n) →
  0 ≤ n → n + Z.of_nat (length nows) ≤ u64_max →
  ∃ ds s', rates l nows s = Some (ds, s') ∧ length ds = length nows ∧
    allowed_count ds = Z.min (Z.of_nat (length nows)) (Z.max 0 (val (allowance l) - n)).
Proof using.
  revert s n. induction nows as [|now nows IH]; intros s n Hok Hall Hs Hn Hlen.
  { exists [], s. split; [done|]. split; [done|]. unfold allowed_count. cbn. lia. }
  inversion Hall as [|? ? Hnow Hrest]; subst. cbn [length] in Hlen.
  destruct (rate_ok Hup l now s Hok) as (s1 & Hr & Hok1 & Hs1 & _).
  assert (standing l now s = n) as Hst by (unfold standing; by rewrite (Hs now)).
  rewrite Hst, sat_add_exact in Hr, Hs1 by lia.
  destruct (IH s1 (n + 1)) as (ds & s' & Hds & Hl & Hc); [done|done| |lia|lia|].
  { intros now' Hb'. by rewrite (same_stretch_name l now now') by done. }
  cbn [rates]. rewrite Hr. cbn [mbind option_bind]. rewrite Hds. cbn [mbind option_bind].
  eexists _, _. split; [done|]. split; [cbn; congruence|].
  unfold allowed_count in *. rewrite filter_cons. cbn [length].
  destruct (val (allowance l) <? n + 1) eqn:Hlt.
  - rewrite decide_False by apply spent_not_allowed. lia.
  - rewrite decide_True by done. cbn [length]. lia.
Qed.

(** A request rate admits exactly what it allows: of the requests counted one after another
    inside one stretch, as many pass as the allowance leaves over what the stretch had already
    counted (in the cache, or in the usage rows when the cache had lost it), and no more. *)
Theorem rate_admits_allowance (l : Limit) (b : Timestamp) (first : Timestamp)
    (nows : list Timestamp) (s : St) :
  reliable → counters_ok s → Forall (λ now, began (period l) now = b) (first :: nows) →
  0 ≤ standing l first s → standing l first s + Z.of_nat (length (first :: nows)) ≤ u64_max →
  ∃ ds s', rates l (first :: nows) s = Some (ds, s') ∧ length ds = length (first :: nows) ∧
    allowed_count ds = Z.min (Z.of_nat (length (first :: nows)))
      (Z.max 0 (val (allowance l) - standing l first s)).
Proof using.
  intros Hup Hok Hall Hn Hlen. inversion Hall as [|? ? Hfirst Hrest]; subst.
  destruct (rate_ok Hup l first s Hok) as (s1 & Hr & Hok1 & Hs1 & _).
  rewrite sat_add_exact in Hr, Hs1 by (cbn [length] in Hlen; lia).
  destruct (rates_from Hup l (began (period l) first) nows s1 (standing l first s + 1))
    as (ds & s' & Hds & Hl & Hc); [done|done| |lia|cbn [length] in Hlen; lia|].
  { intros now' Hb'. by rewrite (same_stretch_name l first now') by done. }
  cbn [rates]. rewrite Hr. cbn [mbind option_bind]. rewrite Hds. cbn [mbind option_bind].
  eexists _, _. split; [done|]. split; [cbn; congruence|].
  unfold allowed_count in *. rewrite filter_cons. cbn [length] in *.
  destruct (val (allowance l) <? standing l first s + 1) eqn:Hlt.
  - rewrite decide_False by apply spent_not_allowed. lia.
  - rewrite decide_True by done. cbn [length]. lia.
Qed.

(** ** Recording what was spent *)

Lemma spend_all_ok (Hup : reliable) ls tokens now s :
  counters_ok s → is_u64 tokens → NoDup (decides_key <$> ls) →
  ∃ s', spend_all ls tokens now s = Some s' ∧ counters_ok s' ∧
    (∀ l, l ∈ ls → counted l = Tokens →
      count_at s' (count_name l now)
      = Some (sat_add (default 0 (count_at s (count_name l now))) tokens)) ∧
    (∀ b, (∀ l, l ∈ ls → counted l = Tokens → b ≠ count_name l now) →
      count_at s' b = count_at s b).
Proof using.
  intros Hok Htok. revert s Hok. induction ls as [|l ls IH]; intros s Hok Hnd; cbn [spend_all].
  { exists s. split; [done|]. split; [done|]. split; [set_solver|done]. }
  apply NoDup_cons in Hnd as [Hl Hnd]. case_bool_decide as Ht.
  - destruct (IH s Hok Hnd) as (s' & -> & Hok' & Hin & Hout). exists s'. split; [done|].
    split; [done|]. split.
    + intros l' [->|Hl']%elem_of_cons Ht'; [done|auto].
    + intros b Hb. apply Hout. set_solver.
  - destruct (counter_total l now) as (ttl & -> & _ & Httl). cbn [mbind option_bind].
    set (k := MkCacheKey _ System). destruct (pair_ok _ (up_count Hup k tokens ttl s)) as [n Hn].
    apply count_ok in Hn as (-> & Hok1 & Hs1); [|done..].
    set (s1 := (c_count k tokens ttl s).2) in *.
    change (as_bytes (ck_key k)) with (count_name l now) in *.
    assert (∀ l', l' ∈ ls → count_name l now ≠ count_name l' now) as Hne.
    { intros l' Hl'. apply count_names_differ. by eapply keys_differ. }
    destruct (IH s1 Hok1 Hnd) as (s' & -> & Hok' & Hin & Hout). exists s'. split; [done|].
    split; [done|]. split.
    + intros l' [->|Hl']%elem_of_cons Ht'.
      * rewrite Hout by (intros; auto). by rewrite Hs1, decide_True.
      * rewrite (Hin l' Hl' Ht'), Hs1, decide_False by (symmetry; auto). done.
    + intros b Hb. rewrite Hout by set_solver. rewrite Hs1, decide_False; [done|].
      apply Hb; [set_solver|done].
Qed.

Context (into_values : gmap (Counted * Period) Limit → list Limit).
Context (into_values_ok : ∀ m, into_values m ≡ₚ (map_to_list m).*2).

Lemma decide_one_total l now s : ∃ d s', decide_one usage_spent l now s = Some (d, s').
Proof using.
  destruct (counter_total l now) as (ttl & Hc & _).
  unfold decide_one, rate, quota. rewrite Hc. cbn [mbind option_bind].
  destruct (counted l); eexists _, _; f_equal; apply surjective_pairing.
Qed.

Lemma admit_all_total ls now s : ∃ d s', admit_all usage_spent ls now s = Some (d, s').
Proof using.
  revert s. induction ls as [|l ls IH]; intros s; cbn; [eauto|].
  destruct (decide_one_total l now s) as (d & s' & ->). cbn. case_bool_decide; eauto.
Qed.

(** A loop that lets a request through let it through at every limit, each asked where the
    ones before it had left the counts. *)
Lemma admit_all_allowed ls now s s' l :
  admit_all usage_spent ls now s = Some (Allowed, s') → l ∈ ls →
  ∃ before after s0 s1, ls = before ++ l :: after ∧
    admit_all usage_spent before now s = Some (Allowed, s0) ∧
    decide_one usage_spent l now s0 = Some (Allowed, s1).
Proof using.
  revert s. induction ls as [|l' ls IH]; intros s Ha Hl; [by apply elem_of_nil in Hl|].
  cbn [admit_all] in Ha. apply bind_Some in Ha as ([d s1] & Hd & Ha). case_bool_decide as Hdn.
  { injection Ha as -> _. done. }
  subst d. apply elem_of_cons in Hl as [->|Hl].
  - exists [], ls, s, s1. done.
  - destruct (IH s1 Ha Hl) as (before & after & s0 & s2 & -> & Hb & Hone).
    exists (l' :: before), after, s0, s2. split; [done|]. split; [|done].
    cbn [admit_all]. rewrite Hd. cbn [mbind option_bind]. by rewrite bool_decide_eq_false_2 by (by intros []).
Qed.

Lemma elem_of_applying limits asking l :
  l ∈ applying_to into_values limits asking ↔ deciding limits asking !! decides_key l = Some l.
Proof using into_values_ok.
  unfold applying_to. rewrite into_values_ok, list_elem_of_fmap. split.
  - intros ([kp l'] & -> & Hl%elem_of_map_to_list). cbn.
    pose proof (deciding_spec limits asking kp) as Hs. rewrite Hl in Hs.
    destruct Hs as [Hk _]. by rewrite Hk.
  - intros Hl. exists (decides_key l, l). split; [done|]. by apply elem_of_map_to_list.
Qed.

Lemma applying_NoDup limits asking :
  NoDup (decides_key <$> applying_to into_values limits asking).
Proof using into_values_ok.
  unfold applying_to. rewrite into_values_ok, <-list_fmap_compose.
  assert ((decides_key ∘ snd) <$> map_to_list (deciding limits asking)
    = fst <$> map_to_list (deciding limits asking)) as ->; [|apply NoDup_fst_map_to_list].
  apply list_fmap_ext. intros i [kp l] Hl%list_elem_of_lookup_2%elem_of_map_to_list. cbn.
  pose proof (deciding_spec limits asking kp) as Hs. rewrite Hl in Hs. by destruct Hs.
Qed.

(** C28: while the cache and the store answer, a request is let through exactly when every limit
    that decides for it has room (a rate for one more request, a quota for any more tokens);
    letting it through counts it once against each of those rates and leaves each quota's count
    as it stood, and a refusal names a limit that had none left. *)
Theorem admit_exact (limits : list Limit) (asking : Asking) (now : Timestamp) (s : St) :
  reliable → counters_ok s →
  ∃ d s', admit_request into_values usage_spent limits asking now s = Some (d, s') ∧
    (d = Allowed ↔
      ∀ l, deciding limits asking !! decides_key l = Some l → room l now s = true) ∧
    (d ≠ Allowed → ∃ l, deciding limits asking !! decides_key l = Some l ∧
      room l now s = false ∧ d = spent l now) ∧
    (d = Allowed → ∀ l, deciding limits asking !! decides_key l = Some l →
      count_at s' (count_name l now) = Some (counts_then l now s)).
Proof using into_values_ok.
  intros Hup Hok.
  destruct (admit_all_exact Hup (applying_to into_values limits asking) now s Hok
    (applying_NoDup limits asking)) as (d & s' & Ha & _ & Hiff & Hno & Hyes & _).
  exists d, s'. setoid_rewrite elem_of_applying in Hiff. setoid_rewrite elem_of_applying in Hno.
  setoid_rewrite elem_of_applying in Hyes. auto.
Qed.

(** Whatever fails, the check answers: it never panics, and a request it lets through had,
    at the point each deciding limit was asked, a token quota that could be read and was not
    yet spent, and a request rate that counting it did not pass, or that could not be
    counted. *)
Theorem admit_sound (limits : list Limit) (asking : Asking) (now : Timestamp) (s : St) :
  ∃ d s', admit_request into_values usage_spent limits asking now s = Some (d, s') ∧
  (d = Allowed → ∀ l, deciding limits asking !! decides_key l = Some l →
    ∃ before after k ttl s0,
    applying_to into_values limits asking = before ++ l :: after ∧
    admit_all usage_spent before now s = Some (Allowed, s0) ∧
    counter l now = Some (k, ttl) ∧
    match counted l, seeded usage_spent l now k ttl s0 with
    | Tokens, (Ok read, _) => read < val (allowance l)
    | Tokens, (Err _, _) => False
    | Requests, (Ok _, s2) =>
        ∀ made s3, c_count k 1 ttl s2 = (Ok made, s3) → made ≤ val (allowance l)
    | Requests, (Err _, _) => True
    end).
Proof using into_values_ok.
  unfold admit_request. destruct (admit_all_total (applying_to into_values limits asking) now s)
    as (d & s' & Ha). exists d, s'. split; [done|]. intros -> l Hl%elem_of_applying.
  destruct (admit_all_allowed _ _ _ _ l Ha Hl) as (before & after & s0 & s1 & Hls & Hb & Hd).
  destruct (counter_total l now) as (ttl & Hc & _). eexists before, after, _, ttl, s0.
  split; [done|]. split; [done|]. split; [exact Hc|].
  unfold decide_one, rate, quota in Hd. rewrite Hc in Hd. cbn [mbind option_bind] in Hd.
  destruct (counted l); destruct (seeded _ _ _ _ _ _) as [[read|why] s2]; try done.
  - injection Hd as Hd _. unfold is_spent in Hd. case_if; [done|lia].
  - intros made s3 Hm. rewrite Hm in Hd. injection Hd as Hd _. case_if; [done|lia].
Qed.

(** What an answer spent is added, once, to the count of every token quota that decides for
    the caller, and to no other count. *)
Theorem spend_counts (limits : list Limit) (asking : Asking) (tokens : Z) (now : Timestamp) (s : St) :
  reliable → counters_ok s → 0 < tokens ≤ u64_max →
  ∃ s', spend into_values limits asking tokens now s = Some s' ∧
    (∀ l, deciding limits asking !! decides_key l = Some l → counted l = Tokens →
      count_at s' (count_name l now)
      = Some (sat_add (default 0 (count_at s (count_name l now))) tokens)) ∧
    (∀ b, (∀ l, deciding limits asking !! decides_key l = Some l → counted l = Tokens →
      b ≠ count_name l now) → count_at s' b = count_at s b).
Proof using into_values_ok.
  intros Hup Hok Ht. unfold spend. replace (tokens =? 0) with false by lia.
  destruct (spend_all_ok Hup (applying_to into_values limits asking) tokens now s
    Hok ltac:(unfold is_u64; lia) (applying_NoDup limits asking)) as (s' & Hs' & _ & Hin & Hout).
  exists s'. split; [done|]. split.
  - intros l Hl. apply Hin. by apply elem_of_applying.
  - intros b Hb. apply Hout. intros l Hl%elem_of_applying. auto.
Qed.

(** A count the cache has lost is seeded from the usage rows when it is next read, but not
    when it is next spent against: after a spend finds no count, the quota stands at that
    spend alone, whatever the rows say was spent before it. *)
Theorem spend_forgets_rows (limits : list Limit) (asking : Asking) (tokens : Z) (now : Timestamp)
    (s : St) (l : Limit) :
  reliable → counters_ok s → 0 < tokens ≤ u64_max →
  deciding limits asking !! decides_key l = Some l → counted l = Tokens →
  count_at s (count_name l now) = None →
  ∃ s', spend into_values limits asking tokens now s = Some s' ∧ standing l now s' = tokens.
Proof using into_values_ok.
  intros Hup Hok Ht Hl Hc Hnone. unfold spend. replace (tokens =? 0) with false by lia.
  destruct (spend_all_ok Hup (applying_to into_values limits asking) tokens now s
    Hok ltac:(unfold is_u64; lia) (applying_NoDup limits asking)) as (s' & Hs' & _ & Hin & _).
  exists s'. split; [done|]. unfold standing.
  rewrite (Hin l) by (try done; by apply elem_of_applying).
  rewrite Hnone. cbn. rewrite sat_add_exact; lia.
Qed.
End checking.

(** ** Witnesses *)
Module LimiterSample.
Import SampleChrono.

(** Counts held in a map, which nothing loses. *)
#[export, program] Instance map_counters : Counters (gmap (list Z) Z) := {|
  counters_ok _ := True;
  count_at m b := m !! b;
  c_count k by_ _ m :=
    let n := sat_add (default 0 (m !! as_bytes (ck_key k))) by_ in
    (Ok n, <[as_bytes (ck_key k) := n]> m);
  c_counted k m := (Ok (m !! as_bytes (ck_key k)), m);
  c_seed k from _ m :=
    let n := default from (m !! as_bytes (ck_key k)) in
    (Ok n, <[as_bytes (ck_key k) := n]> m)
|}.
Next Obligation.
  intros k by_ ttl m n m' _ _ _ [= <- <-]. split; [done|]. split; [done|].
  intros b. case_decide; [subst; apply lookup_insert_eq|by rewrite lookup_insert_ne].
Qed.
Next Obligation. intros k m o m' _ [= <- <-]. done. Qed.
Next Obligation.
  intros k from ttl m n m' _ _ _ [= <- <-]. split; [done|]. split; [done|].
  intros b. case_decide; [subst; apply lookup_insert_eq|by rewrite lookup_insert_ne].
Qed.

Definition rows (f : UsageFilter) (c : Counted) (at_ : Timestamp) : result unit Z := Ok 60.
Definition values (m : gmap (Counted * Period) Limit) : list Limit := (map_to_list m).*2.

Lemma rows_reliable : reliable (St := gmap (list Z) Z) rows.
Proof. split; [done|done|done|]. intros f c at_. exists 60. split; [done|]. unfold_bounds. lia. Qed.

Definition no_rows (f : UsageFilter) (c : Counted) (at_ : Timestamp) : result unit Z := Ok 0.
Lemma no_rows_reliable : reliable (St := gmap (list Z) Z) no_rows.
Proof. split; [done|done|done|]. intros f c at_. exists 0. split; [done|]. unfold_bounds. lia. Qed.

Definition per_minute : Limit := MkLimit (MkScope tenant None None) Requests Minute two 0.
Definition per_day : Limit := MkLimit (MkScope tenant None None) Tokens Day hundred 0.
Definition asking : Asking := MkAsking tenant user api.

Lemma rate_admits_allowance_witness :
  ∃ ds s', rates no_rows per_minute [120; 130; 179] (∅ : gmap (list Z) Z) = Some (ds, s') ∧
    length ds = 3%nat ∧
    allowed_count ds = Z.min (Z.of_nat 3)
      (Z.max 0 (val (allowance per_minute) - standing no_rows per_minute 120 ∅)).
Proof.
  apply (rate_admits_allowance no_rows per_minute 120 120 [130; 179] ∅).
  - exact no_rows_reliable.
  - exact I.
  - repeat constructor.
  - vm_compute. congruence.
  - vm_compute. congruence.
Defined.

Lemma values_ok m : values m ≡ₚ (map_to_list m).*2.
Proof. done. Qed.

Lemma admit_sound_witness :
  ∃ d s', admit_request values rows [per_minute; per_day] asking 120 (∅ : gmap (list Z) Z) = Some (d, s') ∧
  (d = Allowed → ∀ l, deciding [per_minute; per_day] asking !! decides_key l = Some l →
    ∃ before after k ttl s0,
    applying_to values [per_minute; per_day] asking = before ++ l :: after ∧
    admit_all rows before 120 (∅ : gmap (list Z) Z) = Some (Allowed, s0) ∧
    counter l 120 = Some (k, ttl) ∧
    match counted l, seeded rows l 120 k ttl s0 with
    | Tokens, (Ok read, _) => read < val (allowance l)
    | Tokens, (Err _, _) => False
    | Requests, (Ok _, s2) =>
        ∀ made s3, c_count k 1 ttl s2 = (Ok made, s3) → made ≤ val (allowance l)
    | Requests, (Err _, _) => True
    end).
Proof. apply (admit_sound rows values values_ok [per_minute; per_day] asking 120 ∅). Defined.

Lemma admit_exact_witness :
  ∃ d s', admit_request values rows [per_minute; per_day] asking 120 (∅ : gmap (list Z) Z) = Some (d, s') ∧
    (d = Allowed ↔ ∀ l, deciding [per_minute; per_day] asking !! decides_key l = Some l →
      room rows l 120 (∅ : gmap (list Z) Z) = true) ∧
    (d ≠ Allowed → ∃ l, deciding [per_minute; per_day] asking !! decides_key l = Some l ∧
      room rows l 120 (∅ : gmap (list Z) Z) = false ∧ d = spent l 120) ∧
    (d = Allowed → ∀ l, deciding [per_minute; per_day] asking !! decides_key l = Some l →
      count_at s' (count_name l 120) = Some (counts_then rows l 120 (∅ : gmap (list Z) Z))).
Proof.
  apply (admit_exact rows values values_ok [per_minute; per_day] asking 120 ∅).
  - exact rows_reliable.
  - exact I.
Defined.

Lemma spend_counts_witness :
  ∃ s', spend values [per_minute; per_day] asking 7 120 (∅ : gmap (list Z) Z) = Some s' ∧
    (∀ l, deciding [per_minute; per_day] asking !! decides_key l = Some l → counted l = Tokens →
      count_at s' (count_name l 120)
      = Some (sat_add (default 0 (count_at (∅ : gmap (list Z) Z) (count_name l 120))) 7)) ∧
    (∀ b, (∀ l, deciding [per_minute; per_day] asking !! decides_key l = Some l → counted l = Tokens →
      b ≠ count_name l 120) → count_at s' b = count_at (∅ : gmap (list Z) Z) b).
Proof.
  apply (spend_counts rows values values_ok [per_minute; per_day] asking 7 120 ∅).
  - exact rows_reliable.
  - exact I.
  - unfold u64_max. lia.
Defined.

Lemma spend_forgets_rows_witness :
  ∃ s', spend values [per_minute; per_day] asking 7 120 (∅ : gmap (list Z) Z) = Some s' ∧
    standing rows per_day 120 s' = 7.
Proof.
  apply (spend_forgets_rows rows values values_ok [per_minute; per_day] asking 7 120 ∅ per_day).
  - exact rows_reliable.
  - exact I.
  - unfold u64_max. lia.
  - by_computation.
  - reflexivity.
  - reflexivity.
Defined.
End LimiterSample.
