(* ===== verification/SledCounters.v ===== *)
(** * SledCounters: the standalone cache keeps the promises of [Counters]

    Discharges the class [Counters] of [Limiter] with the operations of [Sled], for a cache
    whose levels nothing evicts from, as [SledCache::open] builds it.  A count is what the
    entry under its key holds, until the entry's ttl has passed. *)
From S2P Require Import Prelude Text Ident Cache Sled CacheTrait LimitCore Limiter.

Section sled_counters.
Context {db : Type} `{!Sled db}.
(** The moment the calls are made at: well before the end of the 64-bit clock. *)
Context (now micros : Z) (Hnow : 0 ≤ now) (Hlate : now + 1000 ≤ u64_max).

(** Every stored entry is bytes. *)
Definition bytes_stored (d : db) : Prop :=
  ∀ k e, entries (view d) !! k = Some e → Forall is_u8 e.

Definition stored_count (m : gmap (list Z) (list Z)) (b : list Z) : option Z :=
  m !! b ≫= λ e, value_of e now ≫= λ c, ok (count_of c).

Lemma value_of_bytes e t c : Forall is_u8 e → value_of e t = Some c → Forall is_u8 c.
Proof using.
  intros He. unfold value_of. repeat case_if; try done. intros [= <-]. by apply Forall_drop.
Qed.

Lemma count_of_u64 c n : Forall is_u8 c → count_of c = Ok n → is_u64 n.
Proof using.
  intros Hc. unfold count_of. destruct (Nat.eqb_spec (length c) 8) as [Hl|]; [|done].
  intros [= <-]. pose proof (of_be_bytes_bound c Hc) as Hb. rewrite Hl in Hb.
  change (256 ^ Z.of_nat 8) with (2 ^ 64) in Hb. unfold_bounds. lia.
Qed.

(** A count written now can be read now: its ttl leaves it at least a second. *)
Lemma written_count_live (ttl : Ttl) n :
  10 ^ 9 ≤ val ttl → is_u64 n →
  value_of (entry now (counted_bytes n) (Some ttl)) now ≫= (λ c, ok (count_of c)) = Some n.
Proof using Hnow Hlate.
  intros Ht Hn. rewrite value_of_entry by done.
  assert (now < expiry now (Some ttl)) as Hlt.
  { assert (1000 ≤ as_millis (val ttl)) as Hm
      by (unfold as_millis; apply Z.div_le_lower_bound; lia).
    unfold expiry, try_unsigned. replace (0 <=? as_millis (val ttl)) with true by lia.
    unfold sat_add. cbn [andb]. destruct (as_millis (val ttl) <=? u64_max); cbn; lia. }
  replace (now <? expiry now (Some ttl)) with true by lia. cbn [mbind option_bind].
  by rewrite count_of_bytes.
Qed.

(** With nobody else writing, one turn of [counting] is enough, and the entry it leaves is the
    count it answers. *)
Lemma counting_entries k ttl next d n d' :
  counting no_limits 1 k ttl next now micros d = Some (Ok (n, d')) →
  ∃ o, transpose (count_of <$> (entries (view d) !! key_bytes k ≫= λ e, value_of e now)) = Ok o ∧
    n = next o ∧
    entries (view d') = <[key_bytes k := entry now (counted_bytes n) (Some ttl)]> (entries (view d)).
Proof using.
  intros Hc. cbn [counting] in Hc.
  destruct (counting_turn _ _ _ _ _ _ _ _) as [[[[t|] d0]|e]|] eqn:Ht; [| |done|done].
  all: unfold counting_turn in Ht.
  all: destruct (atomically (get_body (key_bytes k)) d) as [[held d1]|e] eqn:Hg; [|done].
  all: apply atomically_ok in Hg; injection Hg as <- Hv1.
  all: destruct (transpose _) as [o|e] eqn:Ho; [|done].
  all: destruct (atomically (swap_body _ _ _) d1) as [[sw d2]|e] eqn:Hs; [|done].
  all: apply atomically_ok in Hs; rewrite <-Hv1 in Hs; unfold swap_body in Hs.
  all: rewrite bool_decide_eq_true_2 in Hs by done; injection Hs as <- Hv2.
  - unfold write in Ht. destruct (atomically (write_body _ _ _ _) d2) as [[u d3]|e] eqn:Hw; [|done].
    apply atomically_ok in Hw. replace (evict no_limits 1 (ck_level k) d3) with (Some (Ok (E:=CacheError) d3)) in Ht
      by (by destruct (ck_level k)).
    injection Ht as <- <-. injection Hc as <- <-. exists o. split; [done|]. split; [done|].
    apply (f_equal (entries ∘ snd)) in Hw. cbn in Hw. rewrite <-Hw, <-Hv2. cbn. apply insert_insert_eq.
  - destruct (write _ _ _ _ _ _ _) as [[?|?]|]; done.
Qed.
Lemma transpose_count (e : option (list Z)) o :
  transpose (count_of <$> e) = Ok o → o = (e ≫= λ c, ok (count_of c)).
Proof using. destruct e as [c|]; cbn; [|by intros [= <-]]. destruct (count_of c); naive_solver. Qed.

Lemma counting_ok k ttl next d n d' :
  bytes_stored d → 10 ^ 9 ≤ val ttl →
  (∀ o, (∀ c, o = Some c → is_u64 c) → is_u64 (next o)) →
  counting no_limits 1 k ttl next now micros d = Some (Ok (n, d')) →
  n = next (stored_count (entries (view d)) (key_bytes k)) ∧ bytes_stored d' ∧
  ∀ b, stored_count (entries (view d')) b
       = if decide (b = key_bytes k) then Some n else stored_count (entries (view d)) b.
Proof using Hnow Hlate.
  intros Hd Ht Hnext Hc. destruct (counting_entries _ _ _ _ _ _ Hc) as (o & Ho & -> & He).
  pose proof (transpose_count _ _ Ho) as Heq.
  assert (o = stored_count (entries (view d)) (key_bytes k)) as ->.
  { rewrite Heq. unfold stored_count. by destruct (entries (view d) !! key_bytes k). }
  assert (is_u64 (next (stored_count (entries (view d)) (key_bytes k)))) as Hu.
  { apply Hnext. unfold stored_count. intros c (e & Hk & (v & Hv & Hcnt%ok_Some)%bind_Some)%bind_Some.
    eapply count_of_u64; [|exact Hcnt]. eapply value_of_bytes; [|exact Hv]. by eapply Hd. }
  split; [done|]. split.
  - intros b e. rewrite He. intros [[<- <-]|[_ Hb]]%lookup_insert_Some; [|by eapply Hd].
    unfold entry. apply Forall_app. split; apply be_bytes_bytes.
  - intros b. unfold stored_count at 1. rewrite He. case_decide as Hb.
    + subst. rewrite lookup_insert_eq. cbn [mbind option_bind]. by apply written_count_live.
    + by rewrite lookup_insert_ne.
Qed.

(** Dropping an entry that cannot be read any more changes no count. *)
Lemma counted_same k d o d' :
  bytes_stored d → Sled.counted k now d = Ok (o, d') →
  o = stored_count (entries (view d)) (key_bytes k) ∧ bytes_stored d' ∧
  ∀ b, stored_count (entries (view d')) b = stored_count (entries (view d)) b.
Proof using.
  intros Hd Hc. unfold Sled.counted in Hc.
  apply bind_ok in Hc as ([held d1] & H1%atomically_ok & Hc). injection H1 as <- Hv1.
  unfold stored_count at 1. destruct (entries (view d) !! key_bytes k ≫= λ e, value_of e now) as [c|] eqn:Hval.
  - apply bind_ok in Hc as (n & Hn & [= <- <-]). apply bind_Some in Hval as (e & He & Hval).
    rewrite He. cbn [mbind option_bind]. rewrite Hval. cbn [mbind option_bind]. rewrite Hn.
    unfold bytes_stored. rewrite <-Hv1. done.
  - apply bind_ok in Hc as ([b d2] & Hdrop & [= <- <-]). unfold drop_entry in Hdrop.
    apply bind_ok in Hdrop as ([e d3] & H2%atomically_ok & [= _ <-]). rewrite <-Hv1 in H2.
    assert (entries (view d3) = delete (key_bytes k) (entries (view d))) as He.
    { unfold drop_body in H2. destruct (entries (view d) !! key_bytes k) eqn:Hk.
      - injection H2 as _ <-. done.
      - injection H2 as _ <-. by rewrite delete_id. }
    split; [|split].
    + destruct (entries (view d) !! key_bytes k) as [e'|]; [|done].
      cbn [mbind option_bind] in *. by rewrite Hval.
    + intros b' e'. rewrite He. intros [_ Hb]%lookup_delete_Some. by eapply Hd.
    + intros b'. unfold stored_count. rewrite He. destruct (decide (b' = key_bytes k)) as [->|].
      * rewrite lookup_delete_eq. cbn. destruct (entries (view d) !! key_bytes k); [|done].
        cbn [mbind option_bind] in *. by rewrite Hval.
      * by rewrite lookup_delete_ne.
Qed.

#[export, program] Instance sled_counters : Counters db := {|
  counters_ok := bytes_stored;
  count_at d b := stored_count (entries (view d)) b;
  c_count k by_ ttl d := settled d (Sled.count no_limits 1 k by_ ttl now micros d);
  c_counted k d := settled d (Some (Sled.counted k now d));
  c_seed k from ttl d := settled d (Sled.seed no_limits 1 k from ttl now micros d)
|}.
Next Obligation.
  intros k by_ ttl d n d' Hd Hby Ht Hc%settled_ok. unfold Sled.count in Hc.
  apply counting_ok in Hc; [done|done|done|]. intros o Ho. unfold sat_add. unfold_bounds.
  destruct o as [c|]; cbn; [specialize (Ho c eq_refl)|]; lia.
Qed.
Next Obligation. intros k d o d' Hd Hc%settled_ok. injection Hc as Hc. by apply counted_same. Qed.
Next Obligation.
  intros k from ttl d n d' Hd Hby Ht Hc%settled_ok. unfold Sled.seed in Hc.
  apply counting_ok in Hc; [done|done|done|]. intros [c|] Ho; cbn; [by apply Ho|done].
Qed.
End sled_counters.
