(* ===== verification/PluginCore.v ===== *)
(** * PluginCore: plugin rules, and what one request costs

    Models the rules of [crates/ip-core/src/plugin.rs] (its [Checksum] is in [Key]) and the
    counts of [crates/ip-core/src/usage.rs]. *)
From S2P Require Import Prelude Text Ident Key LimitCore.

(** ** plugin.rs *)

Definition PRIMARY_ORDER_MAX : Z := 63.

(** A [u8]. *)
Definition check_order_width (n : Z) : result unit unit :=
  if (0 <=? n) && (n <=? 255) then Ok tt else Err tt.
Definition PluginOrder : Type := refined check_order_width.
#[export] Instance PluginOrder_eq_dec : EqDecision PluginOrder := refined_eq_dec _.

Definition is_primary (o : PluginOrder) : bool := val o <=? PRIMARY_ORDER_MAX.

Inductive PluginKind : Type := ReqHeader | ReqBody | RespHeader | RespBody | RespChunk.
#[export] Instance PluginKind_eq_dec : EqDecision PluginKind.
Proof. solve_decision. Defined.

Definition kind_name (k : PluginKind) : str :=
  match k with
  | ReqHeader => #"req_header"
  | ReqBody => #"req_body"
  | RespHeader => #"resp_header"
  | RespBody => #"resp_body"
  | RespChunk => #"resp_chunk"
  end.

Definition is_header (k : PluginKind) : bool :=
  match k with ReqHeader | RespHeader => true | _ => false end.

Definition kind_from_str (raw : str) : result CoreError PluginKind :=
  if bool_decide (raw = #"req_header") then Ok ReqHeader
  else if bool_decide (raw = #"req_body") then Ok ReqBody
  else if bool_decide (raw = #"resp_header") then Ok RespHeader
  else if bool_decide (raw = #"resp_body") then Ok RespBody
  else if bool_decide (raw = #"resp_chunk") then Ok RespChunk
  else Err (UnknownPluginKind raw).

Inductive PluginScope : Type :=
  | GlobalScope
  | TenantScope (tenant : TenantId) (user : option UserId) (api : option ApiId).
#[export] Instance PluginScope_eq_dec : EqDecision PluginScope.
Proof. solve_decision. Defined.

Definition plugin_scope_name (s : PluginScope) : string :=
  match s with GlobalScope => "global" | TenantScope _ _ _ => "tenant" end.

Definition plugin_scope_tenant (s : PluginScope) : option TenantId :=
  match s with GlobalScope => None | TenantScope tenant _ _ => Some tenant end.

Definition scope_contains (s : PluginScope) (tenant : TenantId) (user : UserId) (api : ApiId)
    : bool :=
  match s with
  | GlobalScope => true
  | TenantScope owner only_user only_api =>
      bool_decide (owner = tenant) && none_or only_user user && none_or only_api api
  end.

Definition check_order (order : PluginOrder) (scope : PluginScope) : result CoreError unit :=
  let global := bool_decide (scope = GlobalScope) in
  if Bool.eqb (is_primary order) global then Ok tt
  else Err (OrderOutOfScope (val order) (plugin_scope_name scope)).

Record NewPluginRule : Type := MkNewPluginRule {
  new_checksum : Checksum;
  new_order : PluginOrder;
  new_scope : PluginScope
}.

Record PluginRule : Type := MkPluginRule {
  rule_checksum : Checksum;
  rule_kind : PluginKind;
  rule_order : PluginOrder;
  rule_scope : PluginScope
}.
#[export] Instance PluginRule_eq_dec : EqDecision PluginRule.
Proof. solve_decision. Defined.

Definition new_plugin_rule (checksum : Checksum) (order : PluginOrder) (scope : PluginScope)
    : result CoreError NewPluginRule :=
  _ ← check_order order scope;
  Ok (MkNewPluginRule checksum order scope).

Definition with_kind (r : NewPluginRule) (kind : PluginKind) : PluginRule :=
  MkPluginRule (new_checksum r) kind (new_order r) (new_scope r).

Definition plugin_rule (checksum : Checksum) (kind : PluginKind) (order : PluginOrder)
    (scope : PluginScope) : result CoreError PluginRule :=
  _ ← check_order order scope;
  Ok (MkPluginRule checksum kind order scope).

Definition applies_to (r : PluginRule) (tenant : TenantId) (user : UserId) (api : ApiId) : bool :=
  scope_contains (rule_scope r) tenant user api.

(** ** usage.rs *)

Definition TokenCount : Type := refined check_u32.
#[export] Instance TokenCount_eq_dec : EqDecision TokenCount := refined_eq_dec _.

Record TokensSpent : Type := MkTokens { tokens_input : TokenCount; tokens_output : TokenCount }.
#[export] Instance TokensSpent_eq_dec : EqDecision TokensSpent.
Proof. solve_decision. Defined.

(** [Tokens::total]: the sum of two [u32]s as a [u64]. *)
Definition total (t : TokensSpent) : Z := val (tokens_input t) + val (tokens_output t).

Inductive Served : Type := FromUpstream | FromCache.
#[export] Instance Served_eq_dec : EqDecision Served.
Proof. solve_decision. Defined.

(** [Latency::from_millis]: a [u32] of milliseconds, the longest it can hold for a longer span. *)
Definition from_millis (millis : Z) : Z := default u32_max (try_unsigned u32_max millis).

(** ** Lemmas *)

Lemma check_order_ok o s : check_order o s = Ok tt ↔ (is_primary o = true ↔ s = GlobalScope).
Proof.
  unfold check_order. case_bool_decide; destruct (is_primary o); cbn; naive_solver.
Qed.

Lemma kind_from_name k : kind_from_str (kind_name k) = Ok k.
Proof. destruct k; by_computation. Qed.

(** The sum of two counts never leaves its width. *)
Lemma total_u64 t : is_u64 (total t).
Proof.
  assert (∀ c : TokenCount, is_u32 (val c)) as Hc by (intros c; apply check_u32_ok, val_checked).
  pose proof (Hc (tokens_input t)). pose proof (Hc (tokens_output t)).
  unfold total. unfold_bounds. lia.
Qed.
