(* ===== verification/Account.v ===== *)
(** * Account: stored identities and the columns they are spelled in

    Models [crates/ip-storage/src/error.rs], [model.rs] and [codec.rs], with the rows the sql
    backends build grants and plugin rules from ([sqlite/identity.rs], [sqlite/plugin.rs]).
    What an error says is kept to its constructor and the entity it is about: the texts
    [detail] and [id] are for a reader and nothing branches on them. *)
From S2P Require Import Prelude Text Ident Key Capability LimitCore PluginCore.

(** ** error.rs *)

Inductive Entity : Type :=
  | ETenant | EUser | EMembership | EGrant | ERoute | EPlugin | EPluginRule | ERuleRevision
  | EUsage | ELimit.
#[export] Instance Entity_eq_dec : EqDecision Entity.
Proof. solve_decision. Defined.

Inductive StorageError : Type :=
  | NotFound (entity : Entity)
  | Conflict (entity : Entity)
  | InUse (entity : Entity)
  | StoredValue (e : CoreError)
  | Malformed (entity : Entity)
  | Backend.
#[export] Instance StorageError_eq_dec : EqDecision StorageError.
Proof. solve_decision. Defined.

(** ** model.rs *)

Inductive AccountKind : Type := SystemAdministrator | Regular.
#[export] Instance AccountKind_eq_dec : EqDecision AccountKind.
Proof. solve_decision. Defined.

Inductive Standing : Type := Owner | OrdinaryMember.
#[export] Instance Standing_eq_dec : EqDecision Standing.
Proof. solve_decision. Defined.

Record Tenant : Type := MkTenant {
  tenant_row_id : Z;
  tenant_id : TenantId;
  tenant_key : TnKey;
  tenant_created_at : Timestamp
}.

Record User : Type := MkUser {
  user_row_id : Z;
  user_id : UserId;
  user_passphrase : PassphraseHash;
  user_kind : AccountKind;
  user_created_at : Timestamp
}.

Record Membership : Type := MkMembership {
  member_user : UserId;
  member_tenant : TenantId;
  member_standing : Standing
}.

(** ** codec.rs *)

Definition stored_tenant_key (bytes : list Z) : result StorageError TnKey :=
  map_err (λ _, Malformed ETenant) (refine (check_bytes TN_KEY_BYTES) bytes).

Definition account_kind_name (k : AccountKind) : str :=
  match k with SystemAdministrator => #"sysadmin" | Regular => #"regular" end.
Definition account_kind (name : str) : result StorageError AccountKind :=
  if bool_decide (name = #"sysadmin") then Ok SystemAdministrator
  else if bool_decide (name = #"regular") then Ok Regular
  else Err (Malformed EUser).

Definition standing_name (s : Standing) : str :=
  match s with Owner => #"owner" | OrdinaryMember => #"member" end.
Definition standing (name : str) : result StorageError Standing :=
  if bool_decide (name = #"owner") then Ok Owner
  else if bool_decide (name = #"member") then Ok OrdinaryMember
  else Err (Malformed EMembership).

Definition capability_name (c : Capability) : str :=
  match c with
  | TenantMgr => #"tenant_mgr"
  | UserMgr => #"user_mgr"
  | ApiAccess => #"api_access"
  | ApiAdvMgr => #"api_adv_mgr"
  | LimitMgr => #"limit_mgr"
  | SysAgent => #"sys_agent"
  | Observer => #"observer"
  end.
Definition capability (name : str) : result StorageError Capability :=
  if bool_decide (name = #"tenant_mgr") then Ok TenantMgr
  else if bool_decide (name = #"user_mgr") then Ok UserMgr
  else if bool_decide (name = #"api_access") then Ok ApiAccess
  else if bool_decide (name = #"api_adv_mgr") then Ok ApiAdvMgr
  else if bool_decide (name = #"limit_mgr") then Ok LimitMgr
  else if bool_decide (name = #"sys_agent") then Ok SysAgent
  else if bool_decide (name = #"observer") then Ok Observer
  else Err (Malformed EGrant).

(** [?] on a [CoreError]: [StorageError::Value]. *)
Definition stored {A} (r : result CoreError A) : result StorageError A := map_err StoredValue r.

Definition stored_scope (user : UserId) (tenant api : option str)
    : result StorageError CapabilityScope :=
  match tenant, api with
  | None, None => Ok (ScopeUser user)
  | Some tenant, None =>
      t ← stored (new_ident tenant);
      Ok (ScopeTenant user t)
  | Some tenant, Some api =>
      t ← stored (new_ident tenant);
      a ← stored (new_ident api);
      Ok (ScopeApi user t a)
  | None, Some _ => Err (Malformed EGrant)
  end.

(** A [usize] is 64 bits wide. *)
Definition plugin_size (size : Z) : result StorageError Z :=
  ok_or (Malformed EPlugin) (try_unsigned u64_max size).

Definition plugin_order (position : Z) : result StorageError PluginOrder :=
  map_err (λ _, Malformed EPluginRule) (refine check_order_width position).

Definition plugin_scope (tenant user api : option str) : result StorageError PluginScope :=
  match tenant with
  | None =>
      match user, api with
      | None, None => Ok GlobalScope
      | _, _ => Err (Malformed EPluginRule)
      end
  | Some tenant =>
      t ← stored (new_ident tenant);
      u ← stored (transpose (new_ident <$> user));
      a ← stored (transpose (new_ident <$> api));
      Ok (TenantScope t u a)
  end.

Definition served_name (s : Served) : str :=
  match s with FromUpstream => #"upstream" | FromCache => #"cache" end.
Definition served (name : str) : result StorageError Served :=
  if bool_decide (name = #"upstream") then Ok FromUpstream
  else if bool_decide (name = #"cache") then Ok FromCache
  else Err (Malformed EUsage).

Definition token_count (count : Z) : result StorageError TokenCount :=
  map_err (λ _, Malformed EUsage) (refine check_u32 count).

(** A [u128] from an [i64], then [Latency::from_millis]. *)
Definition latency (millis : Z) : result StorageError Z :=
  if millis <? 0 then Err (Malformed EUsage) else Ok (from_millis millis).

(** ** Rows *)

(** The columns a grant is written to and read from; the row ids of its user and tenant stand
    for the ids the query joins them back to. *)
Record GrantRow : Type := MkGrantRow {
  grant_tenant : option str;
  grant_api : option str;
  grant_capability_name : str
}.

(** What [GrantStore::grant] binds. *)
Definition grant_row (g : Grant) : GrantRow :=
  MkGrantRow (val <$> scope_tenant (grant_scope g)) (val <$> scope_api (grant_scope g))
    (capability_name (grant_capability g)).

(** What [grants_of] makes of a row. *)
Definition grant_of_row (user : UserId) (row : GrantRow) : result StorageError Grant :=
  s ← stored_scope user (grant_tenant row) (grant_api row);
  c ← capability (grant_capability_name row);
  stored (new_grant c s).

Record RuleRow : Type := MkRuleRow {
  row_checksum : str;
  row_kind : str;
  row_position : Z;
  row_tenant : option str;
  row_user : option str;
  row_api : option str
}.

Section rule_rows.
Context `{Crypto}.

(** What [put_rule] binds, and the checksum its query joins back. *)
Definition rule_row (r : PluginRule) : RuleRow :=
  let '(tenant, user, api) :=
    match rule_scope r with
    | GlobalScope => (None, None, None)
    | TenantScope tenant user api => (Some (val tenant), val <$> user, val <$> api)
    end in
  MkRuleRow (hex_encode (val (rule_checksum r))) (kind_name (rule_kind r)) (val (rule_order r))
    tenant user api.

(** [plugin_rule] of [sqlite/plugin.rs]. *)
Definition rule_of_row (row : RuleRow) : result StorageError PluginRule :=
  order ← plugin_order (row_position row);
  scope ← plugin_scope (row_tenant row) (row_user row) (row_api row);
  checksum ← stored (Checksum_from_hex (row_checksum row));
  kind ← stored (kind_from_str (row_kind row));
  stored (plugin_rule checksum kind order scope).
End rule_rows.

(** ** Lemmas *)

Lemma stored_ok {A} (r : result CoreError A) a : stored r = Ok a ↔ r = Ok a.
Proof. apply map_err_ok. Qed.

Lemma new_ident_ok {kind} (raw : str) (i : ident kind) : new_ident raw = Ok i ↔ raw = val i.
Proof.
  etransitivity; [apply refine_ok|]. split; [by intros [_ <-]|].
  intros ->. split; [apply val_checked|done].
Qed.

Lemma stored_ident {kind} (raw : str) (i : ident kind) :
  stored (new_ident raw) = Ok i ↔ raw = val i.
Proof. by rewrite stored_ok, new_ident_ok. Qed.

Lemma capability_ok name c : capability name = Ok c ↔ name = capability_name c.
Proof.
  split; [|intros ->; destruct c; by_computation].
  unfold capability. repeat (case_bool_decide; [by intros [= <-]|]). done.
Qed.

Lemma stored_scope_ok user t a s :
  stored_scope user t a = Ok s ↔
  scope_user s = user ∧ t = val <$> scope_tenant s ∧ a = val <$> scope_api s.
Proof.
  unfold stored_scope. destruct t as [t|], a as [a|].
  - rewrite bind_ok. setoid_rewrite bind_ok. setoid_rewrite stored_ident. split.
    + intros (? & -> & ? & -> & [= <-]). done.
    + destruct s; cbn; intros (<- & [= ->] & [= ->]); eauto 6.
  - rewrite bind_ok. setoid_rewrite stored_ident. split.
    + intros (? & -> & [= <-]). done.
    + destruct s; cbn; intros (<- & [= ->] & ?); naive_solver.
  - destruct s; cbn; naive_solver.
  - destruct s; cbn; naive_solver.
Qed.

Lemma new_grant_ok c s g :
  new_grant c s = Ok g ↔ scope_kind c = kind_of s ∧ g = MkGrant c s.
Proof. unfold new_grant. case_bool_decide; naive_solver. Qed.

Lemma transpose_ident {kind} (o : option (ident kind)) :
  stored (transpose (new_ident <$> (val <$> o))) = Ok o.
Proof.
  rewrite stored_ok. destruct o as [i|]; [|done]. cbn.
  by rewrite (proj2 (new_ident_ok (val i) i) eq_refl).
Qed.

Section rule_rows_ok.
Context `{Crypto}.

(** Whatever row reads back as a rule, the rule keeps its order inside what its scope may use,
    and belongs to the tenant the row names. *)
Lemma rule_of_row_sound (row : RuleRow) (r : PluginRule) :
  rule_of_row row = Ok r →
  (is_primary (rule_order r) = true ↔ rule_scope r = GlobalScope) ∧
  row_tenant row = val <$> plugin_scope_tenant (rule_scope r).
Proof using.
  unfold rule_of_row. intros (o & _ & Hr)%bind_ok.
  apply bind_ok in Hr as (s & Hs & (c & _ & (k & _ & (u & Hu & [= <-])%stored_ok%bind_ok)%bind_ok)%bind_ok).
  destruct u. apply check_order_ok in Hu. split; [done|]. cbn.
  unfold plugin_scope in Hs. destruct (row_tenant row) as [t|].
  - apply bind_ok in Hs as (t' & ->%stored_ident & (? & _ & (? & _ & [= <-])%bind_ok)%bind_ok). done.
  - destruct (row_user row), (row_api row); try done. by injection Hs as <-.
Qed.

Lemma plugin_scope_columns s :
  (match s with
   | GlobalScope => plugin_scope None None None
   | TenantScope t u a => plugin_scope (Some (val t)) (val <$> u) (val <$> a)
   end) = Ok s.
Proof using.
  destruct s as [|t u a]; [done|]. unfold plugin_scope.
  rewrite (proj2 (stored_ident (val t) t) eq_refl).
  rewrite (transpose_ident u).
  by assert (stored (transpose (new_ident (kind := "api id") <$> (val <$> a))) = Ok a) as -> by apply transpose_ident.
Qed.
End rule_rows_ok.

(** ** Properties *)

(** A stored row reads back as a grant exactly when it is the row that grant is written
    to: every grant a user holds survives storage unchanged, a row no grant could have written
    (an api without a tenant, a capability at a scope of another kind, a name that is not one)
    is refused, and no two grants of one user share a row. *)
Theorem grant_row_roundtrip (user : UserId) (row : GrantRow) (g : Grant) :
  grant_of_row user row = Ok g ↔
  scope_user (grant_scope g) = user ∧ scope_kind (grant_capability g) = kind_of (grant_scope g) ∧
  row = grant_row g.
Proof.
  unfold grant_of_row. rewrite bind_ok. setoid_rewrite bind_ok.
  setoid_rewrite stored_ok. setoid_rewrite new_grant_ok. setoid_rewrite capability_ok.
  setoid_rewrite stored_scope_ok. destruct row as [t a n]. cbn. split.
  - intros (s & (<- & -> & ->) & c & -> & Hk & ->). done.
  - destruct g as [c s]. unfold grant_row. cbn. intros (<- & Hk & [= -> -> ->]). eauto 10.
Qed.

(** A plugin rule reads back from the row it is written to as itself when its scope may
    use its order, and is refused with that very complaint when it may not: the database can
    hold no rule that runs a tenant's plugin at an order reserved for the system's. *)
Theorem rule_row_roundtrip `{Crypto} (r : PluginRule) :
  rule_of_row (rule_row r)
  = match check_order (rule_order r) (rule_scope r) with
    | Ok _ => Ok r
    | Err e => Err (StoredValue e)
    end.
Proof.
  destruct r as [c k o s]. unfold rule_of_row. cbn [rule_order rule_scope].
  assert (∀ row, row = rule_row (MkPluginRule c k o s) →
    plugin_order (row_position row) = Ok o ∧
    plugin_scope (row_tenant row) (row_user row) (row_api row) = Ok s ∧
    stored (Checksum_from_hex (row_checksum row)) = Ok c ∧
    stored (kind_from_str (row_kind row)) = Ok k) as Hrow.
  { intros row ->. pose proof (plugin_scope_columns s) as Hs. unfold rule_row.
    rewrite !stored_ok. destruct s; cbn; (split; [apply map_err_ok, refine_val|]);
      (split; [exact Hs|]); (split; [apply decode_hex_encode|apply kind_from_name]). }
  destruct (Hrow _ eq_refl) as (-> & -> & -> & ->). cbn [mbind result_bind].
  unfold plugin_rule. by destruct (check_order o s).
Qed.
