(* ===== verification/Config.v ===== *)
(** * Config: what an operator writes down, and the rules it becomes

    Models [crates/ip-config/src/config.rs], [upstream.rs], [secret.rs] and [error.rs], and
    [RoutingTable::build] of [crates/ip-gateway/src/table.rs]: the configuration and its
    validation, the two bounded numbers read from it, the key and the target an upstream
    contributes, and the table that comes of them and of the stored rules.

    The file is read and parsed by [toml] and [serde], which are the class [Toml]; urls are
    parsed by the [url] crate, which is the class [UrlLib].  A double is the bit-exact value of
    [SpecFloat]. *)
From Stdlib Require Import SpecFloat.
From S2P Require Import Prelude Text Ident Route Dispatch Table Account.

(** A credential: [secret.rs]. *)
Record Secret : Type := MkSecret { expose : str }.

Definition secret_len (s : Secret) : Z := len (expose s).

Definition JWT_SECRET_MIN_BYTES : Z := 32.

(** What [url::Url] is asked for. *)
Class UrlLib : Type := {
  Url : Type;
  host_str : Url → option str;
  port_or_known_default : Url → option Z;
  scheme : Url → str;
  url_path : Url → str
}.

Inductive ConfigError : Type :=
  | Read (path : str)
  | Parse
  | Value (e : CoreError)
  | DuplicateUpstream (id : ApiId)
  | WeakJwtSecret (len min : Z)
  | UpstreamHost (id : ApiId)
  | UpstreamPort (id : ApiId)
  | TemperatureOutside (value : spec_float)
  | SampleRatioOutside (value : spec_float).

#[export] Instance spec_float_eq_dec : EqDecision spec_float.
Proof. solve_decision. Defined.
#[export] Instance ConfigError_eq_dec : EqDecision ConfigError.
Proof. solve_decision. Defined.

(** ** Bounded numbers *)

Definition is_finite (value : spec_float) : bool :=
  match value with S754_zero _ | S754_finite _ _ _ => true | _ => false end.

(** The doubles 0.0, 1.0 and 2.0. *)
Definition f64_zero : spec_float := S754_zero false.
Definition f64_one : spec_float := S754_finite false 4503599627370496 (-52).
Definition f64_two : spec_float := S754_finite false 4503599627370496 (-51).

(** [value as f32]: rounded to nearest, ties to even. *)
Definition as_f32 (value : spec_float) : spec_float :=
  match value with
  | S754_finite s m e => binary_normalize 24 128 (if s then Z.neg m else Z.pos m) e s
  | _ => value
  end.

(** [SampleRatio::new]. *)
Definition new_sample_ratio (value : spec_float) : result ConfigError spec_float :=
  if negb (is_finite value) || negb (SFleb f64_zero value && SFleb value f64_one)
  then Err (SampleRatioOutside value) else Ok value.

(** [Temperature::new]. *)
Definition new_temperature (value : spec_float) : result ConfigError spec_float :=
  if negb (is_finite value) || SFltb value f64_zero || SFltb f64_two value
  then Err (TemperatureOutside value) else Ok (as_f32 value).

(** ** The configuration *)

(** [Seconds]: a whole number of seconds, at the width of a [u64]. *)
Abbreviation Seconds := Z (only parsing).

Inductive StorageConfig : Type :=
  | Sqlite (path : str)
  | Postgres (url : Secret).

Inductive CacheConfig : Type :=
  | SledCache (path : str) (response_ttl : option Seconds)
      (response_max_bytes semantic_max_bytes system_max_bytes : option Z)
  | RedisCache (url : Secret) (response_ttl : option Seconds).

Definition response_ttl (c : CacheConfig) : option Seconds :=
  match c with SledCache _ ttl _ _ _ => ttl | RedisCache _ ttl => ttl end.

Record JwtConfig : Type := MkJwtConfig { issuer : str; jwt_secret : Secret; jwt_ttl : Seconds }.
Record AuthConfig : Type := MkAuthConfig { jwt : JwtConfig; nonce_ttl : Seconds }.
Record UsageConfig : Type := MkUsageConfig { retention : option Seconds; sweep_every : Seconds }.

Definition default_sweep_every : Seconds := 3600.
Definition default_nonce_ttl : Seconds := 300.
Definition default_jwt_ttl : Seconds := 6 * 3600.
Definition default_usage : UsageConfig := MkUsageConfig None default_sweep_every.

Record RouteOverride : Type := MkRouteOverride {
  over_protocol : option Protocol;
  over_host : option Host;
  over_port : option Port;
  over_path : option AbsPath
}.

Definition no_override : RouteOverride := MkRouteOverride None None None None.

Inductive LogLevel : Type := Trace | Debug | Info | Warn | Error.

Section Config.
Context {ul : UrlLib}.

Record TelemetryConfig : Type := MkTelemetryConfig {
  log_level : LogLevel;
  otlp_endpoint : option Url;
  sample_ratio : spec_float
}.

Record UpstreamTarget : Type := MkUpstreamTarget { target_url : Url; target_weight : Weight }.

Record UpstreamConfig : Type := MkUpstreamConfig {
  up_id : ApiId;
  base_url : Url;
  api_key : Secret;
  up_model : ModelName;
  temperature : option spec_float;
  up_route : option RouteOverride;
  up_weight : Weight;
  up_strategy : Strategy;
  up_targets : list UpstreamTarget
}.

Record Config : Type := MkConfig {
  listen : SocketAddr;
  storage : StorageConfig;
  cache : CacheConfig;
  auth : AuthConfig;
  telemetry : TelemetryConfig;
  usage : UsageConfig;
  upstreams : list UpstreamConfig
}.

(** The loop of [validate]: an upstream any earlier one shares its id with. *)
Fixpoint first_repeated (earlier upstreams : list UpstreamConfig) : option UpstreamConfig :=
  match upstreams with
  | [] => None
  | u :: upstreams =>
      if existsb (λ e, bool_decide (up_id e = up_id u)) earlier then Some u
      else first_repeated (earlier ++ [u]) upstreams
  end.

(** [Config::validate]. *)
Definition validate (c : Config) : result ConfigError unit :=
  let secret_len := secret_len (jwt_secret (jwt (auth c))) in
  if secret_len <? JWT_SECRET_MIN_BYTES
  then Err (WeakJwtSecret secret_len JWT_SECRET_MIN_BYTES)
  else match first_repeated [] (upstreams c) with
       | Some u => Err (DuplicateUpstream (up_id u))
       | None => Ok tt
       end.

(** The file system and [toml::from_str]. *)
Class Toml : Type := {
  read_to_string : str → option str;
  toml_from_str : str → option Config
}.

(** [Config::parse]. *)
Definition parse `{!Toml} (text : str) : result ConfigError Config :=
  config ← ok_or Parse (toml_from_str text);
  _ ← validate config;
  Ok config.

(** [Config::load]. *)
Definition load_config `{!Toml} (path : str) : result ConfigError Config :=
  text ← ok_or (Read path) (read_to_string path);
  parse text.

(** ** What an upstream contributes *)

(** [UpstreamConfig::route_key]. *)
Definition route_key (u : UpstreamConfig) (listen : SocketAddr) : result ConfigError RouteKey :=
  let o := default no_override (up_route u) in
  let protocol := default Http (over_protocol o) in
  host ← match over_host o with
         | Some host => Ok host
         | None => map_err Value (new_host (socket_ip_text listen))
         end;
  port ← match over_port o with
         | Some port => Ok port
         | None => map_err Value (new_port (socket_port listen))
         end;
  path ← match over_path o with
         | Some path => Ok path
         | None => map_err Value (new_path (#"/" ++ val (up_id u)))
         end;
  Ok (MkRouteKey (MkEndpoint protocol host port path)).

(** [UpstreamConfig::endpoint]. *)
Definition upstream_endpoint (u : UpstreamConfig) (url : Url) : result ConfigError Endpoint :=
  host ← ok_or (UpstreamHost (up_id u)) (host_str url);
  port ← ok_or (UpstreamPort (up_id u)) (port_or_known_default url);
  map_err Value (
    p ← parse_protocol (scheme url);
    h ← new_host host;
    n ← new_port port;
    a ← new_path (url_path url);
    Ok (MkEndpoint p h n a)).

(** [UpstreamConfig::route_target]. *)
Definition route_target (u : UpstreamConfig) : result ConfigError RouteTarget :=
  first ← upstream_endpoint u (base_url u);
  others ← try_map (λ t, e ← upstream_endpoint u (target_url t);
                         Ok (MkWeighted e (target_weight t))) (up_targets u);
  map_err Value (from_weighted (MkWeighted first (up_weight u) :: others)).

(** [UpstreamConfig::route_rule]. *)
Definition route_rule (listen : SocketAddr) (u : UpstreamConfig) : result ConfigError RouteRule :=
  key ← route_key u listen;
  target ← route_target u;
  Ok (MkRouteRule (up_id u) key target (up_strategy u)).

(** What [RoutingTable::build] can fail with, and [RoutingTable::load], which reads the stored
    rules for it. *)
Inductive BuildError : Type :=
  | BuildConfig (e : ConfigError)
  | BuildStorage (e : StorageError)
  | BuildRoute (e : RouteError).

#[export] Instance BuildError_eq_dec : EqDecision BuildError.
Proof using. solve_decision. Defined.

(** The rules every upstream contributes, as [build] and [AppState::open] collect them. *)
Definition configured_rules (c : Config) : result ConfigError (list RouteRule) :=
  try_map (route_rule (listen c)) (upstreams c).

(** [RoutingTable::build]. *)
Definition build (c : Config) (dynamic : list RouteRule) : result BuildError RoutingTable :=
  configured ← map_err BuildConfig (configured_rules c);
  map_err BuildRoute (assemble configured dynamic).

(** ** Lemmas *)

Abbreviation ids l := (up_id <$> (l : list UpstreamConfig)).

Lemma existsb_ids l u : existsb (λ e, bool_decide (up_id e = up_id u)) l = true ↔ up_id u ∈ ids l.
Proof using.
  rewrite existsb_exists, list_elem_of_fmap. setoid_rewrite bool_decide_eq_true.
  setoid_rewrite <-list_elem_of_In. naive_solver.
Qed.

Lemma first_repeated_Some earlier l u :
  NoDup (ids earlier) →
  first_repeated earlier l = Some u ↔
  ∃ before after, l = before ++ u :: after ∧ NoDup (ids (earlier ++ before)) ∧
    up_id u ∈ ids (earlier ++ before).
Proof using.
  revert earlier. induction l as [|x l IH]; intros earlier Hd; cbn [first_repeated].
  { split; [done|]. by intros ([|] & ? & ? & _). }
  destruct (existsb _ earlier) eqn:He.
  - apply existsb_ids in He. split.
    + intros [= <-]. exists [], l. by rewrite app_nil_r.
    + intros ([|y b] & a & [= -> ->] & Hn & Hu); [done|]. exfalso. revert Hn.
      rewrite fmap_app, NoDup_app. cbn. set_solver.
  - apply not_true_iff_false in He. rewrite existsb_ids in He.
    assert (NoDup (ids (earlier ++ [x]))) as Hd'.
    { rewrite fmap_app. apply NoDup_app. cbn. split_and!; [done|set_solver|apply NoDup_singleton]. }
    rewrite IH by done. split.
    + intros (b & a & -> & ?). exists (x :: b), a. by rewrite <-app_assoc in *.
    + intros ([|y b] & a & [= -> ->] & Hn & Hu); [by rewrite app_nil_r in Hu|].
      exists b, a. by rewrite <-app_assoc.
Qed.

Lemma first_repeated_None earlier l :
  NoDup (ids earlier) → first_repeated earlier l = None ↔ NoDup (ids (earlier ++ l)).
Proof using.
  revert earlier. induction l as [|x l IH]; intros earlier Hd; cbn [first_repeated].
  { by rewrite app_nil_r. }
  destruct (existsb _ earlier) eqn:He.
  - apply existsb_ids in He. split; [done|]. rewrite fmap_app, NoDup_app. cbn. set_solver.
  - apply not_true_iff_false in He. rewrite existsb_ids in He.
    rewrite IH; [by rewrite <-app_assoc|].
    rewrite fmap_app. apply NoDup_app. cbn. split_and!; [done|set_solver|apply NoDup_singleton].
Qed.

Lemma try_map_split {E A B} (f : A → result E B) before x after ys :
  try_map f (before ++ x :: after) = Ok ys →
  ∃ bs y as_, ys = bs ++ y :: as_ ∧ f x = Ok y ∧
    Forall2 (λ x y, f x = Ok y) before bs ∧ Forall2 (λ x y, f x = Ok y) after as_.
Proof using.
  intros H%try_map_ok. apply Forall2_app_inv_l in H as (bs & r & Hb & Hr & ->).
  apply Forall2_cons_inv_l in Hr as (y & as_ & Hy & Ha & ->). eauto 10.
Qed.

(** Two names without a slash that begin the same path up to a segment boundary are one. *)
Lemma segment_unique (a b m m' : str) :
  ch "/" ∉ a → ch "/" ∉ b → a ++ m = b ++ m' →
  (m = [] ∨ ∃ r, m = #"/" ++ r) → (m' = [] ∨ ∃ r, m' = #"/" ++ r) → a = b.
Proof using.
  revert b. change #"/" with [ch "/"].
  induction a as [|c a IH]; intros [|d b] Ha Hb E Hm Hm'; cbn in *; try done.
  - destruct Hm as [->|[r ->]]; [done|]. injection E as E _. set_solver.
  - destruct Hm' as [->|[r ->]]; [done|]. injection E as E _. set_solver.
  - injection E as -> E. f_equal. apply (IH b); set_solver.
Qed.

Lemma id_no_slash (i : ApiId) : ch "/" ∉ val i.
Proof using. by apply ident_no_char. Qed.

Lemma strip_slash_id (i : ApiId) : strip_slash (#"/" ++ val i) = #"/" ++ val i.
Proof using.
  unfold strip_slash. destruct (strip_suffix _ _) as [r|] eqn:Hs; [|done].
  apply strip_suffix_Some in Hs. exfalso. change #"/" with [ch "/"] in Hs.
  pose proof (id_no_slash i). destruct r as [|c r]; cbn in Hs.
  - injection Hs as Hn. by apply (ident_nonempty i).
  - injection Hs as _ Hn. rewrite Hn in H. set_solver.
Qed.

(** The rule an upstream without a [route] block contributes answers under its own id. *)
Lemma route_rule_path l u r :
  up_route u = None → route_rule l u = Ok r →
  rule_api r = up_id u ∧ val (rule_path r) = #"/" ++ val (up_id u).
Proof using.
  intros Hu. unfold route_rule, route_key. rewrite Hu. cbn [default from_option no_override over_host over_port over_path].
  intros (k & Hk & H)%bind_ok. apply bind_ok in H as (t & _ & H). injection H as <-. cbn.
  apply bind_ok in Hk as (h & _ & Hk). apply bind_ok in Hk as (n & _ & Hk).
  apply bind_ok in Hk as (p & Hp & Hk). injection Hk as <-. cbn.
  apply map_err_ok, refine_ok in Hp as [_ Hp]. done.
Qed.

(** No two upstreams without a [route] block answer the same request. *)
Lemma upstreams_apart l u v r r' key m m' :
  up_route u = None → up_route v = None → route_rule l u = Ok r → route_rule l v = Ok r' →
  carries key r m → carries key r' m' → up_id u = up_id v.
Proof using.
  intros Hu Hv Hr Hr' [_ [E Hm]] [_ [E' Hm']].
  apply route_rule_path in Hr as [_ Hp]; [|done]. apply route_rule_path in Hr' as [_ Hp']; [|done].
  rewrite Hp, strip_slash_id in E. rewrite Hp', strip_slash_id in E'. rewrite E in E'.
  rewrite <-!app_assoc in E'. apply app_inv_head in E'.
  apply refined_eq. eapply segment_unique; try done; apply id_no_slash.
Qed.

(** The others of a valid configuration leave a request an upstream answers alone. *)
Lemma others_apart l us rs u r key m :
  Forall (λ u, up_route u = None) us → up_route u = None → up_id u ∉ ids us →
  Forall2 (λ u r, route_rule l u = Ok r) us rs → route_rule l u = Ok r → carries key r m →
  ∀ r' m', r' ∈ rs → ¬ carries key r' m'.
Proof using.
  intros Hn Hu Hid Hf Hr Hc r' m' (i & Hi)%list_elem_of_lookup Hc'.
  destruct (Forall2_lookup_r _ _ _ _ _ Hf Hi) as (v & Hv & Hr').
  apply list_elem_of_lookup_2 in Hv. rewrite Forall_forall in Hn. apply Hid.
  rewrite (upstreams_apart l u v r r' key m m'); auto. by apply list_elem_of_fmap_2.
Qed.

(** ** Properties *)

(** A configuration is accepted exactly when its signing secret has its 32 bytes and no two
    upstreams share an id; the secret is judged first, and the id reported is that of the first
    upstream that repeats an earlier one. *)
Theorem validate_spec (c : Config) :
  let strong := JWT_SECRET_MIN_BYTES ≤ secret_len (jwt_secret (jwt (auth c))) in
  (validate c = Ok tt ↔ strong ∧ NoDup (ids (upstreams c))) ∧
  (∀ id, validate c = Err (DuplicateUpstream id) ↔
    strong ∧ ∃ before u after, upstreams c = before ++ u :: after ∧ up_id u = id ∧
      NoDup (ids before) ∧ id ∈ ids before) ∧
  ((∃ len min, validate c = Err (WeakJwtSecret len min)) ↔ ¬ strong).
Proof using.
  cbn zeta. unfold validate. pose proof (first_repeated_None [] (upstreams c) (NoDup_nil_2)) as Hn.
  pose proof (λ u, first_repeated_Some [] (upstreams c) u (NoDup_nil_2)) as Hs. cbn [app] in *.
  destruct (Z.ltb_spec (secret_len (jwt_secret (jwt (auth c)))) JWT_SECRET_MIN_BYTES) as [Hl|Hl].
  { split_and!; [naive_solver lia..|]. split; [lia|]. eauto. }
  destruct (first_repeated [] (upstreams c)) as [u|]; split_and!.
  - naive_solver.
  - intros id. destruct (proj1 (Hs u) eq_refl) as (b & a & E & Hd & Hu). split.
    + intros [= <-]. split; [done|]. by exists b, u, a.
    + intros (_ & b' & u' & a' & E' & <- & Hd' & Hu').
      assert (Some u = Some u') as [= ->]; [|done]. apply Hs. eauto 10.
  - split; [by intros (? & ? & ?)|lia].
  - naive_solver.
  - intros id. split; [done|]. intros (_ & b' & u' & a' & E' & <- & Hd' & Hu').
    assert (None = Some u'); [|done]. apply Hs. eauto 10.
  - split; [by intros (? & ? & ?)|lia].
Qed.

(** C40: under a valid configuration that leaves every key to be derived, a request under an
    upstream's id is carried by that upstream's own rule and by nothing else, whatever rules
    are stored, as long as none of those that claim the request is longer: the endpoints are the
    upstream's, each with the rest of the path appended. *)
Theorem upstream_answers (c : Config) (dynamic : list RouteRule) (t : RoutingTable)
    (u : UpstreamConfig) (rule : RouteRule) (key : RouteKey) (m : str) :
  validate c = Ok tt → Forall (λ u, up_route u = None) (upstreams c) → build c dynamic = Ok t →
  u ∈ upstreams c → route_rule (listen c) u = Ok rule → carries key rule m →
  (∀ d m', d ∈ dynamic → carries key d m' → path_len d ≤ path_len rule) →
  ∀ res, resolve t key = Some res ↔
    res_rule res = rule ∧ res_plan res = plan_of (val (rule_target rule)) ∧
    Forall2 (forwarded m) (val (rule_target rule)) (res_targets res).
Proof using.
  intros Hv Hn Hb Hu Hr Hc Hd res. apply bind_ok in Hb as (rs & Hrs & Ht).
  apply map_err_ok in Hrs, Ht. unfold assemble in Ht.
  destruct (List.find _ _); [done|]. injection Ht as <-.
  unfold validate in Hv. destruct (_ <? _); [done|]. destruct (first_repeated _ _) eqn:Hf; [done|].
  apply first_repeated_None in Hf; [|constructor]. cbn [app] in Hf.
  apply list_elem_of_split in Hu as (b & a & E). unfold configured_rules in Hrs. rewrite E in *.
  apply try_map_split in Hrs as (bs & r & as_ & -> & Hr' & Hbs & Has).
  assert (r = rule) as -> by congruence. clear Hr'.
  rewrite fmap_app, fmap_cons, NoDup_app, NoDup_cons in Hf. destruct Hf as (_ & Hbu & Hua & _).
  apply Forall_app in Hn as [Hnb Hn]. apply Forall_cons in Hn as [Hnu Hna].
  assert (first_longest (merge (bs ++ rule :: as_) dynamic) key rule m) as Hfl.
  { destruct (merge_app (bs ++ rule :: as_) dynamic) as (added & -> & Hadd).
    exists bs, (as_ ++ added). split; [by rewrite <-app_assoc|]. split; [done|]. split.
    - intros r' m' Hin Hc'. exfalso. eapply (others_apart _ b bs u rule); try done. set_solver.
    - intros r' m' [Hin|Hin]%elem_of_app Hc'; [|by eapply Hd; [apply Hadd|]].
      exfalso. by eapply (others_apart _ a as_ u rule). }
  rewrite resolve_find, (proj2 (find_first_longest _ _ _) (ex_intro _ m Hfl)). cbn [mbind option_bind].
  rewrite resolution_of_Some. destruct Hc as [_ Hc]. split.
  - intros (m' & Hm' & ? & ? & ?). by rewrite (claims_unique _ _ _ _ Hc Hm').
  - intros (? & ? & ?). by exists m.
Qed.
End Config.

(** ** Sample values *)

Module ConfigSample.
Import Route.Sample.

(** A url, already taken apart. *)
Record Parts : Type := MkParts {
  u_scheme : str; u_host : option str; u_port : option Z; u_path : str }.
#[export] Instance parts_url : UrlLib := {
  Url := Parts; host_str := u_host; port_or_known_default := u_port; scheme := u_scheme;
  url_path := u_path }.

Definition vendor (host path : str) : Parts := MkParts #"https" (Some host) (Some 443) path.
Definition listening : SocketAddr :=
  MkSocketAddr (V4 192 0 2 10) #"192.0.2.10" #"192.0.2.10:8080" 8080.
Definition model : ModelName := MkRefined (check := validate_model_name) #"gpt" eq_refl.
Definition upstream (id : ApiId) (others : list UpstreamTarget) : UpstreamConfig :=
  MkUpstreamConfig id (vendor #"one.example" #"/v1") (MkSecret #"sk") model None None default_weight
    RoundRobin others.
Definition llm : UpstreamConfig :=
  upstream (api_of #"llm" eq_refl) [MkUpstreamTarget (vendor #"two.example" #"/") default_weight].
Definition draw : UpstreamConfig := upstream (api_of #"draw" eq_refl) [].
Definition config (secret : str) (us : list UpstreamConfig) : Config :=
  MkConfig listening (Sqlite #"prism.db") (SledCache #"cache" (Some 60) None None None)
    (MkAuthConfig (MkJwtConfig #"prism" (MkSecret secret) default_jwt_ttl) default_nonce_ttl)
    (MkTelemetryConfig Info None f64_one) default_usage us.
Definition secret : str := #"0123456789abcdef0123456789abcdef".

Example short_secret : validate (config #"short" []) = Err (WeakJwtSecret 5 32).
Proof. by_computation. Qed.
Example repeated_id :
  validate (config secret [llm; draw; llm]) = Err (DuplicateUpstream (up_id llm)).
Proof. by_computation. Qed.

Definition at_path (s : str) (H : is_ok (validate_path s) = true) : RouteKey :=
  MkRouteKey (MkEndpoint Http (host_of #"192.0.2.10" eq_refl) (port_of 8080 eq_refl) (path_of s H)).
Definition target : RouteTarget :=
  MkRefined (check := check_target) [MkWeighted endpoint_a default_weight] eq_refl.
Definition stored (s : str) (H : is_ok (validate_path s) = true) : RouteRule :=
  MkRouteRule (api_of #"stored" eq_refl) (at_path s H) target RoundRobin.
Definition llm_rule : RouteRule :=
  default (stored #"/llm" eq_refl) (ok (route_rule (listen (config secret [])) llm)).
Definition chat : RouteKey := at_path #"/llm/chat" eq_refl.
Definition table (dynamic : list RouteRule) : RoutingTable :=
  default ∅ (ok (build (config secret [draw; llm]) dynamic)).

(** A stored rule under the very key of an upstream, and one for everything, leave the upstream
    its requests. *)
Lemma upstream_answers_witness :
  is_Some (resolve (table [stored #"/llm" eq_refl; stored #"/" eq_refl]) chat) ∧
  ∀ res, resolve (table [stored #"/llm" eq_refl; stored #"/" eq_refl]) chat = Some res ↔
    res_rule res = llm_rule ∧ res_plan res = plan_of (val (rule_target llm_rule)) ∧
    Forall2 (forwarded #"/chat") (val (rule_target llm_rule)) (res_targets res).
Proof.
  split; [by_computation|].
  apply (upstream_answers (config secret [draw; llm]) [stored #"/llm" eq_refl; stored #"/" eq_refl]
    _ llm).
  - reflexivity.
  - by repeat constructor.
  - by_computation.
  - by do 2 constructor.
  - by_computation.
  - split; [by_computation|]. split; [by_computation|]. right. by exists #"chat".
  - intros d m' Hd _. apply (bool_decide_eq_true_1 (path_len d ≤ path_len llm_rule)).
    apply elem_of_cons in Hd as [->|Hd]; [vm_compute; reflexivity|].
    apply list_elem_of_singleton in Hd as ->. vm_compute. reflexivity.
Defined.

(** A stored rule whose path differs by a closing slash alone is another key, and a longer one:
    it takes every request of the upstream, the one for its exact path too. *)
Lemma trailing_slash_displaces :
  (val ∘ rule_api ∘ res_rule) <$> resolve (table [stored #"/llm/" eq_refl]) chat = Some #"stored" ∧
  (val ∘ rule_api ∘ res_rule) <$> resolve (table [stored #"/llm/" eq_refl]) (at_path #"/llm" eq_refl)
    = Some #"stored" ∧
  (val ∘ rule_api ∘ res_rule) <$> resolve (table [stored #"/llm" eq_refl]) chat = Some #"llm".
Proof. split_and!; by_computation. Qed.

(** An upstream may take the key of another with its [route] block; nothing refuses that, and
    the one declared first answers. *)
Lemma override_takes_key :
  let thief := MkUpstreamConfig (up_id draw) (base_url draw) (api_key draw) model None
    (Some (MkRouteOverride None None None (Some (path_of #"/llm" eq_refl)))) default_weight
    RoundRobin [] in
  let c := config secret [thief; llm] in
  validate c = Ok tt ∧
  (val ∘ rule_api ∘ res_rule) <$> resolve (default ∅ (ok (build c []))) chat = Some #"draw".
Proof. split; by_computation. Qed.

(** The bounded numbers: the ends are in, anything past them and what is no number is out. *)
Example ratio_ends : (new_sample_ratio f64_zero, new_sample_ratio f64_one) = (Ok f64_zero, Ok f64_one).
Proof. by_computation. Qed.
Example ratio_past : is_ok (new_sample_ratio (S754_finite false 4503599627370497 (-52))) = false.
Proof. by_computation. Qed.
Example ratio_nan : is_ok (new_sample_ratio S754_nan) = false.
Proof. by_computation. Qed.
Example temperature_two : new_temperature f64_two = Ok (S754_finite false 8388608 (-22)).
Proof. by_computation. Qed.
Example temperature_minus_zero : new_temperature (S754_zero true) = Ok (S754_zero true).
Proof. by_computation. Qed.
Example temperature_infinite : is_ok (new_temperature (S754_infinity false)) = false.
Proof. by_computation. Qed.
End ConfigSample.
