(* ===== verification/Auth.v ===== *)
(** * Auth: who a signed request is from

    Models [crates/ip-auth/src/error.rs] and [request.rs].  The store is the class [Storage],
    what [TenantStore], [UserStore], [MembershipStore] and [GrantStore] answer while one call
    reads it; the cache is the class [Cache].  A call that changes the cache threads its state,
    and the cache's reading of the clock is an argument. *)
From S2P Require Import Prelude Text Ident Key Capability Cache Sled CacheTrait LimitCore.
From S2P Require Import PluginCore Account.

(** ** error.rs *)

(** [argon2::password_hash::Error], as far as the code tells its causes apart. *)
Inductive HashError : Type := PasswordInvalid | ParamsInvalid | OtherHash.
#[export] Instance HashError_eq_dec : EqDecision HashError.
Proof. solve_decision. Defined.

Inductive AuthError : Type :=
  | PassphraseTooShort (len min : Z)
  | PassphraseTooLong (len max : Z)
  | Params (e : HashError)
  | Hashing (e : HashError)
  | AuthValue (e : CoreError)
  | UnknownTenant (tenant : TenantId)
  | UnknownUser (user : UserId)
  | NotAMember (user : UserId) (tenant : TenantId)
  | BadSignature
  | AdminOffLocalhost (origin : IpAddr)
  | SpentNonce (nonce : Nonce)
  | AuthStorage (e : StorageError)
  | LoginRefused
  | SessionRejected
  | RecheckRefused
  | RecheckLocked
  | SessionIssue
  | Random
  | AuthCache (e : CacheError).
#[export] Instance AuthError_eq_dec : EqDecision AuthError.
Proof. solve_decision. Defined.

(** ** What is stored *)

Class Storage : Type := {
  store_user : UserId → result StorageError (option User);
  store_tenant : TenantId → result StorageError (option Tenant);
  store_membership : UserId → TenantId → result StorageError (option Membership);
  store_grants_of : UserId → result StorageError Grants;
  (** A record is the one it was asked for. *)
  store_user_id : ∀ u r, store_user u = Ok (Some r) → user_id r = u;
  store_tenant_id : ∀ t r, store_tenant t = Ok (Some r) → tenant_id r = t;
  store_membership_of : ∀ u t m, store_membership u t = Ok (Some m) →
    member_user m = u ∧ member_tenant m = t
}.

(** ** request.rs *)

Record SignedRequest : Type := MkSigned {
  req_tenant : TenantId;
  req_user : UserId;
  req_nonce : Nonce;
  req_signature : Signature
}.

Record Identity : Type := MkIdentity {
  who_user : UserId;
  who_tenant : TenantId;
  who_role : Role
}.
#[export] Instance Identity_eq_dec : EqDecision Identity.
Proof. solve_decision. Defined.

Record Authority : Type := MkAuthority { auth_identity : Identity; auth_grants : Grants }.

Definition nonce_id (r : SignedRequest) : str :=
  #"nonce:" ++ val (req_tenant r) ++ #":" ++ val (req_user r) ++ #":" ++ val (req_nonce r).

Definition role_of (kind : AccountKind) (s : Standing) (tenant : TenantId) : Role :=
  match kind, s with
  | SystemAdministrator, _ => SysAdmin
  | Regular, Owner => TenantAdmin tenant
  | Regular, OrdinaryMember => Member
  end.

Definition allows (a : Authority) (c : Capability) (s : CapabilityScope) : bool :=
  if negb (bool_decide (scope_user s = who_user (auth_identity a))) then false
  else if match scope_tenant s with
          | Some tenant => negb (bool_decide (tenant = who_tenant (auth_identity a)))
          | None => false
          end
  then false
  else implies (who_role (auth_identity a)) c s || holds (auth_grants a) c s.

(** [?] and [ok_or_else] over what a store answered. *)
Definition found {A} (e : AuthError) (r : result StorageError (option A)) : result AuthError A :=
  o ← map_err AuthStorage r;
  ok_or e o.

Section verifier.
Context `{Crypto} `{Storage} {St : Type} `{!Cache St} (nonce_ttl : Ttl).

Definition spend (r : SignedRequest) (now : Z) (s : St) : result AuthError unit * St :=
  match new_cache_key System (nonce_id r) with
  | Err e => (Err (AuthCache e), s)
  | Ok key =>
      match k_claim key (Some nonce_ttl) now s with
      | (Err e, s) => (Err (AuthCache e), s)
      | (Ok false, s) => (Err (SpentNonce (req_nonce r)), s)
      | (Ok true, s) => (Ok tt, s)
      end
  end.

(** Everything [verify] settles before it spends the nonce. *)
Definition established (r : SignedRequest) (origin : IpAddr) : result AuthError Identity :=
  user ← found (UnknownUser (req_user r)) (store_user (req_user r));
  if bool_decide (user_kind user = SystemAdministrator) && negb (is_loopback origin)
  then Err (AdminOffLocalhost origin)
  else
    tenant ← found (UnknownTenant (req_tenant r)) (store_tenant (req_tenant r));
    membership ← found (NotAMember (req_user r) (req_tenant r))
                   (store_membership (req_user r) (req_tenant r));
    let ut_key := derive (user_id user) (tenant_key tenant) in
    let by_user := sig_verify (of_user ut_key (req_nonce r)) (req_signature r) in
    let by_owner :=
      bool_decide (member_standing membership = Owner)
      && sig_verify (of_tenant_owner (tenant_key tenant) (req_nonce r)) (req_signature r) in
    if negb (by_user || by_owner) then Err BadSignature
    else Ok (MkIdentity (user_id user) (tenant_id tenant)
               (role_of (user_kind user) (member_standing membership) (req_tenant r))).

(** [RequestVerifier::verify]. *)
Definition verify (r : SignedRequest) (origin : IpAddr) (now : Z) (s : St)
    : result AuthError Identity * St :=
  match established r origin with
  | Err e => (Err e, s)
  | Ok identity =>
      match spend r now s with
      | (Err e, s) => (Err e, s)
      | (Ok _, s) => (Ok identity, s)
      end
  end.

(** [RequestVerifier::authority]. *)
Definition authority (identity : Identity) : result AuthError Authority :=
  grants ← map_err AuthStorage (store_grants_of (who_user identity));
  Ok (MkAuthority identity grants).
End verifier.

(** ** Lemmas *)

(** Where a system entry with a printable id is kept. *)
Definition system_key (id : str) : CacheKey := MkCacheKey (#"ip:sys:" ++ id) System.

Lemma system_key_new id :
  id ≠ [] → Forall (λ c, is_ascii_graphic c = true) id →
  new_cache_key System id = Ok (system_key id).
Proof. intros. by apply new_cache_key_graphic. Qed.

Lemma system_key_bytes id :
  Forall (λ c, is_ascii_graphic c = true) id → key_bytes (system_key id) = #"ip:sys:" ++ id.
Proof.
  intros Hid. unfold key_bytes, system_key. cbn [ck_key]. apply as_bytes_ascii.
  apply Forall_app. split; [by_computation|by apply graphic_ascii].
Qed.

Definition nonce_key (r : SignedRequest) : CacheKey := system_key (nonce_id r).

Lemma nonce_id_graphic r : Forall (λ c, is_ascii_graphic c = true) (nonce_id r).
Proof.
  unfold nonce_id. rewrite !Forall_app.
  split_and!; first [apply ident_graphic|apply nonce_graphic|by_computation].
Qed.

Lemma nonce_key_new r : new_cache_key System (nonce_id r) = Ok (nonce_key r).
Proof. apply system_key_new; [done|apply nonce_id_graphic]. Qed.

(** A nonce is one caller's own: the last part of the id takes whatever colons it has. *)
Lemma nonce_key_inj r r' :
  key_bytes (nonce_key r) = key_bytes (nonce_key r') →
  req_tenant r = req_tenant r' ∧ req_user r = req_user r' ∧ req_nonce r = req_nonce r'.
Proof.
  unfold nonce_key. rewrite !system_key_bytes by apply nonce_id_graphic.
  intros E%app_inv_head. unfold nonce_id in E. apply app_inv_head in E.
  change (#":" ++ ?x) with (ch ":" :: x) in E.
  apply sep_inj in E as [Ht E]; [|by apply ident_no_char..].
  apply sep_inj in E as [Hu E]; [|by apply ident_no_char..].
  split; [by apply (inj val)|]. split; by apply (inj val).
Qed.

Section verifier_ok.
Context `{Crypto} `{Storage} {St : Type} `{!Cache St} (nonce_ttl : Ttl).

Lemma found_ok {A} e (r : result StorageError (option A)) a :
  found e r = Ok a ↔ r = Ok (Some a).
Proof using.
  unfold found. rewrite bind_ok. setoid_rewrite map_err_ok. setoid_rewrite ok_or_ok. naive_solver.
Qed.

(** What is known of an identity before its nonce is spent. *)
Definition vouched (r : SignedRequest) (origin : IpAddr) (who : Identity) : Prop :=
  ∃ user tenant membership,
    store_user (req_user r) = Ok (Some user) ∧
    store_tenant (req_tenant r) = Ok (Some tenant) ∧
    store_membership (req_user r) (req_tenant r) = Ok (Some membership) ∧
    who = MkIdentity (req_user r) (req_tenant r)
            (role_of (user_kind user) (member_standing membership) (req_tenant r)) ∧
    (user_kind user = SystemAdministrator → is_loopback origin = true) ∧
    (req_signature r = of_user (derive (req_user r) (tenant_key tenant)) (req_nonce r) ∨
     member_standing membership = Owner ∧
     req_signature r = of_tenant_owner (tenant_key tenant) (req_nonce r)).

Lemma established_ok r origin who : established r origin = Ok who ↔ vouched r origin who.
Proof using.
  unfold established, vouched. rewrite bind_ok. setoid_rewrite found_ok. split.
  - intros (user & Hu & Hr). exists user. pose proof (store_user_id _ _ Hu) as Hui.
    destruct (_ && _) eqn:Hloc; [done|].
    apply bind_ok in Hr as (tenant & Ht%found_ok & Hr). pose proof (store_tenant_id _ _ Ht) as Hti.
    apply bind_ok in Hr as (membership & Hm%found_ok & Hr).
    destruct (_ || _) eqn:Hsig in Hr; [|done]. injection Hr as <-.
    exists tenant, membership. rewrite Hui, Hti in *. do 3 (split; [done|]). split; [done|]. split.
    + intros Hk. rewrite Hk in Hloc. by destruct (is_loopback origin).
    + rewrite orb_true_iff, andb_true_iff, bool_decide_eq_true, !sig_verify_true in Hsig.
      naive_solver.
  - intros (user & tenant & membership & Hu & Ht & Hm & -> & Hloc & Hsig).
    exists user. split; [done|]. rewrite (store_user_id _ _ Hu).
    replace (_ && _) with false.
    2: { symmetry. rewrite andb_false_iff, bool_decide_eq_false, negb_false_iff.
         destruct (decide (user_kind user = SystemAdministrator)); auto. }
    apply bind_ok. exists tenant. split; [by apply found_ok|].
    apply bind_ok. exists membership. split; [by apply found_ok|].
    rewrite (store_tenant_id _ _ Ht). replace (_ || _) with true; [done|]. symmetry.
    rewrite orb_true_iff, andb_true_iff, bool_decide_eq_true, !sig_verify_true. naive_solver.
Qed.

(** What spending a nonce does to the cache. *)
Lemma spend_ok r now s res s' :
  cache_ok s → 0 ≤ now → spend nonce_ttl r now s = (res, s') →
  (∃ e, res = Err (AuthCache e)) ∨
  let free := bool_decide (held s now (key_bytes (nonce_key r)) = None) in
  res = (if free then Ok tt else Err (SpentNonce (req_nonce r))) ∧ cache_ok s' ∧
  ∀ t b, now ≤ t → held s' t b =
    if decide (b = key_bytes (nonce_key r) ∧ free = true)
    then if stays now (Some nonce_ttl) t then Some [] else None
    else held s t b.
Proof using.
  intros Hs Hn. unfold spend. rewrite nonce_key_new.
  destruct (k_claim _ _ _ _) as [[taken|e] s1] eqn:Hc; [|intros [= <- <-]; left; eauto].
  apply k_claim_ok in Hc as (Ht & Hs1 & Hh); [|done..].
  intros E. right. cbn zeta. rewrite <-Ht. destruct taken; injection E as <- <-; auto.
Qed.

Lemma verify_Ok r origin now s who s' :
  verify nonce_ttl r origin now s = (Ok who, s') ↔
  established r origin = Ok who ∧ spend nonce_ttl r now s = (Ok tt, s').
Proof using.
  unfold verify. destruct (established r origin) as [i|e]; [|naive_solver].
  destruct (spend nonce_ttl r now s) as [[[]|e] s1]; naive_solver.
Qed.
End verifier_ok.

(** ** Properties *)

Section auth_properties.
Context `{Crypto} `{Storage} {St : Type} `{!Cache St} (nonce_ttl : Ttl).

(** C1: a request is accepted only for a stored user of a stored tenant it is a member of,
    signed over its own nonce with that user's key or, by the tenant's owner, with the
    tenant's; a system administrator only from the machine itself; the role is the one those
    records give; and the nonce, unspent until then, is spent from then on for as long as
    nonces are remembered. *)
Theorem verify_sound (r : SignedRequest) (origin : IpAddr) (now : Z) (s s' : St) (who : Identity) :
  cache_ok s → 0 ≤ now → verify nonce_ttl r origin now s = (Ok who, s') →
  vouched r origin who ∧ held s now (key_bytes (nonce_key r)) = None ∧
  ∀ t, now ≤ t < expiry now (Some nonce_ttl) → held s' t (key_bytes (nonce_key r)) = Some [].
Proof using.
  intros Hs Hn (He%established_ok & Hsp)%verify_Ok. split; [done|].
  apply spend_ok in Hsp as [[e ?]|(Hres & _ & Hh)]; [done| |done..].
  case_bool_decide as Hfree; [|done]. split; [done|]. intros t Ht. rewrite Hh by lia.
  rewrite decide_True by done. by rewrite stays_until by lia.
Qed.

(** C4: once a request was accepted its nonce is good for nothing more: while it is
    remembered, no request by that user for that tenant carrying it is accepted again, from
    anywhere and however signed, and one whose signature is right is told the nonce is spent. *)
Theorem replay_refused (r r' : SignedRequest) (origin origin' : IpAddr) (now t : Z)
    (s s' s'' : St) (who : Identity) (res : result AuthError Identity) :
  cache_ok s → 0 ≤ now → verify nonce_ttl r origin now s = (Ok who, s') →
  req_tenant r' = req_tenant r → req_user r' = req_user r → req_nonce r' = req_nonce r →
  now ≤ t < expiry now (Some nonce_ttl) →
  verify nonce_ttl r' origin' t s' = (res, s'') →
  is_ok res = false ∧
  (∀ who', vouched r' origin' who' →
     res = Err (SpentNonce (req_nonce r)) ∨ ∃ e, res = Err (AuthCache e)).
Proof using.
  intros Hs Hn (_ & Hsp)%verify_Ok Ht Hu Hno Hle Hr'.
  assert (nonce_key r' = nonce_key r) as Hk by (unfold nonce_key, nonce_id; by rewrite Ht, Hu, Hno).
  apply spend_ok in Hsp as [[e ?]|(Hres & Hs' & Hh)]; [done| |done..].
  case_bool_decide as Hfree; [|done].
  assert (held s' t (key_bytes (nonce_key r')) = Some []) as Hheld.
  { rewrite Hh, Hk by lia. rewrite decide_True by done. by rewrite stays_until by lia. }
  assert (∀ res1 s1, spend nonce_ttl r' t s' = (res1, s1) →
    res1 = Err (SpentNonce (req_nonce r)) ∨ ∃ e, res1 = Err (AuthCache e)) as Hspend.
  { intros res1 s1 Hsp1. apply spend_ok in Hsp1 as [|(-> & _)]; [by right| |done|lia].
    rewrite Hheld, Hno. by left. }
  unfold verify in Hr'. destruct (established r' origin') as [i|e] eqn:He.
  - destruct (spend nonce_ttl r' t s') as [res1 s1] eqn:Hsp1. specialize (Hspend _ _ eq_refl).
    destruct Hspend as [->|[e ->]]; injection Hr' as <- <-; eauto.
  - injection Hr' as <- <-. split; [done|]. intros who' Hv%established_ok. by rewrite He in Hv.
Qed.

(** Nobody burns another's nonce, and nobody but its owner burns a nonce at all: unless
    the cache itself failed, a request leaves every nonce as it was but its own, and its own
    too when it was refused. *)
Theorem nonce_isolated (r r' : SignedRequest) (origin : IpAddr) (now t : Z) (s s' : St)
    (res : result AuthError Identity) :
  cache_ok s → 0 ≤ now → verify nonce_ttl r origin now s = (res, s') →
  (∀ e, res ≠ Err (AuthCache e)) → now ≤ t →
  is_ok res = false ∨
    (req_tenant r, req_user r, req_nonce r) ≠ (req_tenant r', req_user r', req_nonce r') →
  held s' t (key_bytes (nonce_key r')) = held s t (key_bytes (nonce_key r')).
Proof using.
  intros Hs Hn Hv Hcache Ht Hother. unfold verify in Hv.
  destruct (established r origin) as [i|e]; [|by injection Hv as <- <-].
  destruct (spend nonce_ttl r now s) as [res1 s1] eqn:Hsp.
  apply spend_ok in Hsp as [[e ->]|(-> & _ & Hh)]; [| |done..].
  { injection Hv as <- <-. by destruct (Hcache e). }
  case_bool_decide as Hfree; injection Hv as <- <-; rewrite Hh by lia.
  - destruct Hother as [?|Hne]; [done|]. rewrite decide_False; [done|].
    intros [E _]. apply nonce_key_inj in E as (? & ? & ?). by destruct Hne; f_equal; [f_equal|].
  - by rewrite decide_False by by intros [_ ?].
Qed.
End auth_properties.

(** What an identity may do is confined to its own user and to the tenant it signed for,
    at the kind of scope the capability has: a system administrator may do all of that, the
    owner of a tenant everything in that tenant but manage tenants, and anyone else exactly
    what the grants say, a capability that needs another only with both. *)
Theorem allows_spec (who : Identity) (gs : Grants) (c : Capability) (s : CapabilityScope) :
  allows (MkAuthority who gs) c s = true ↔
  scope_user s = who_user who ∧ (∀ t, scope_tenant s = Some t → t = who_tenant who) ∧
  scope_kind c = kind_of s ∧
  (who_role who = SysAdmin ∨
   (∃ t, who_role who = TenantAdmin t ∧ c ≠ TenantMgr ∧ scope_tenant s = Some t) ∨
   Forall (.∈ gs) (needed c s)).
Proof.
  unfold allows. cbn [auth_identity auth_grants].
  case_bool_decide as Hu; cbn [negb]; [|naive_solver].
  destruct (match scope_tenant s with Some _ => _ | None => _ end) eqn:Ht.
  - destruct (scope_tenant s) as [t|]; [|done]. apply negb_true_iff, bool_decide_eq_false in Ht.
    naive_solver.
  - assert (∀ t, scope_tenant s = Some t → t = who_tenant who) as Hin.
    { intros t Hs. rewrite Hs in Ht. by apply negb_false_iff, bool_decide_eq_true in Ht. }
    rewrite orb_true_iff, holds_iff. destruct (who_role who) as [|owned|]; cbn [implies].
    + rewrite bool_decide_eq_true. naive_solver.
    + rewrite !andb_true_iff, !bool_decide_eq_true. naive_solver.
    + naive_solver.
Qed.

(** ** Sample values *)
Module AuthSample.
Import SampleCrypto SampleChrono.
#[export] Existing Instance Memory.sled.
#[export] Instance cache : Cache View := sled_cache 0.

Definition key : TnKey := MkRefined (check := check_bytes TN_KEY_BYTES) (repeat 7 16) eq_refl.
Definition nonce : Nonce := MkRefined (check := validate_nonce) #"n:0000001" eq_refl.
Definition other_nonce : Nonce := MkRefined (check := validate_nonce) #"n:0000002" eq_refl.
Definition verifier : PassphraseHash := MkRefined (check := validate_hash) #"$argon2id$x" eq_refl.
Definition ada : User := MkUser 1 user verifier Regular 0.
Definition acme : Tenant := MkTenant 1 tenant key 0.
Definition owns : Membership := MkMembership user tenant Owner.

(** One tenant, and one user that owns it. *)
#[export, program] Instance storage : Storage := {|
  store_user u := Ok (if decide (u = user) then Some ada else None);
  store_tenant t := Ok (if decide (t = tenant) then Some acme else None);
  store_membership u t := Ok (if decide (u = user ∧ t = tenant) then Some owns else None);
  store_grants_of _ := Ok ∅
|}.
Next Obligation. intros u r. cbn. case_decide; [|done]. by intros [= <-]. Qed.
Next Obligation. intros t r. cbn. case_decide; [|done]. by intros [= <-]. Qed.
Next Obligation. intros u t m. cbn. case_decide as E; [|done]. destruct E as [-> ->]. by intros [= <-]. Qed.

Definition signed (n : Nonce) : SignedRequest :=
  MkSigned tenant user n (of_user (derive user key) n).
Definition home : IpAddr := V4 127 0 0 1.
Definition who : Identity := MkIdentity user tenant (TenantAdmin tenant).

(** What the cache holds once the request was accepted. *)
Definition accepted : View := (verify Memory.minute (signed nonce) home 1000 empty_view).2.

Lemma accepted_ok : verify Memory.minute (signed nonce) home 1000 empty_view = (Ok who, accepted).
Proof. by_computation. Qed.

Lemma verify_sound_witness :
  vouched (signed nonce) home who ∧
  held empty_view 1000 (key_bytes (nonce_key (signed nonce))) = None ∧
  ∀ t, 1000 ≤ t < expiry 1000 (Some Memory.minute) →
    held accepted t (key_bytes (nonce_key (signed nonce))) = Some [].
Proof.
  apply (verify_sound Memory.minute (signed nonce) home 1000 empty_view accepted who).
  - exact I.
  - lia.
  - exact accepted_ok.
Defined.

Lemma replay_refused_witness :
  is_ok (verify Memory.minute (signed nonce) home 2000 accepted).1 = false ∧
  ∀ who', vouched (signed nonce) home who' →
    (verify Memory.minute (signed nonce) home 2000 accepted).1 = Err (SpentNonce nonce) ∨
    ∃ e, (verify Memory.minute (signed nonce) home 2000 accepted).1 = Err (AuthCache e).
Proof.
  apply (replay_refused Memory.minute (signed nonce) (signed nonce) home home 1000 2000 empty_view
    accepted (verify Memory.minute (signed nonce) home 2000 accepted).2 who).
  - exact I.
  - lia.
  - exact accepted_ok.
  - reflexivity.
  - reflexivity.
  - reflexivity.
  - by_computation.
  - apply surjective_pairing.
Defined.

Lemma nonce_isolated_witness :
  held accepted 1500 (key_bytes (nonce_key (signed other_nonce))) = None.
Proof.
  transitivity (held empty_view 1500 (key_bytes (nonce_key (signed other_nonce))));
    [|by_computation].
  apply (nonce_isolated Memory.minute (signed nonce) (signed other_nonce) home 1000 1500 empty_view
    accepted (Ok who)).
  - exact I.
  - lia.
  - exact accepted_ok.
  - intros e. discriminate.
  - lia.
  - right. intros E. apply (f_equal (λ p, val p.2)) in E. revert E. vm_compute. discriminate.
Defined.
End AuthSample.
