(* ===== verification/Login.v ===== *)
(** * Login: passphrases, session tokens and logins

    Models [crates/ip-auth/src/passphrase.rs], [session.rs] and [login.rs].  The crates behind
    them are classes: [Argon2] for [argon2], [TokenCodec] for [base64], [serde_json] over the
    token's claims and [hmac].  A [SystemTime] is its nanoseconds since the unix epoch, and a
    function that reads the clock takes its reading as an argument; random bytes are drawn by
    the caller too. *)
From S2P Require Import Prelude Text Ident Key Capability Cache Sled CacheTrait LimitCore.
From S2P Require Import PluginCore Account Auth Limiter.

(** ** passphrase.rs *)

Definition PASSPHRASE_MIN_BYTES : Z := 12.
Definition PASSPHRASE_MAX_BYTES : Z := 1024.

(** [Passphrase::new]. *)
Definition check_passphrase (raw : str) : result AuthError unit :=
  if len raw <? PASSPHRASE_MIN_BYTES then Err (PassphraseTooShort (len raw) PASSPHRASE_MIN_BYTES)
  else if PASSPHRASE_MAX_BYTES <? len raw
  then Err (PassphraseTooLong (len raw) PASSPHRASE_MAX_BYTES)
  else Ok tt.
Definition Passphrase : Type := refined check_passphrase.
Definition new_passphrase (raw : str) : result AuthError Passphrase := refine check_passphrase raw.

Class Argon2 : Type := {
  (** [PasswordVerifier::verify_password]: bytes against the text of a verifier. *)
  verify_password : list Z → str → result HashError unit
}.

(** [PassphraseHasher::verify]. *)
Definition passphrase_verify `{Argon2} (p : Passphrase) (hash : PassphraseHash)
    : result AuthError bool :=
  match verify_password (as_bytes (val p)) (val hash) with
  | Ok _ => Ok true
  | Err PasswordInvalid => Ok false
  | Err e => Err (Hashing e)
  end.

(** ** session.rs *)

Definition ID_BYTES : nat := 16.

(** [{"alg":"HS256","typ":"JWT"}], as base64 writes it. *)
Definition HEADER : str := #"eyJhbGciOiJIUzI1NiIsInR5cCI6IkpXVCJ9".

Record Session : Type := MkSession {
  session_user : UserId;
  session_id : str;
  expires_at : Z
}.
#[export] Instance Session_eq_dec : EqDecision Session.
Proof. solve_decision. Defined.

Record Claims : Type := MkClaims {
  sub : str;
  iss : str;
  jti : str;
  iat : Z;
  exp : Z
}.
#[export] Instance Claims_eq_dec : EqDecision Claims.
Proof. solve_decision. Defined.

Record SessionTokens : Type := MkTokensOf {
  issuer : str;
  secret : list Z;
  (** Nanoseconds. *)
  session_ttl : Z
}.

(** The characters of the url-safe alphabet. *)
Definition url_safe (c : char) : bool :=
  is_ascii_alphanumeric c || (c =? ch "-") || (c =? ch "_").

Class TokenCodec : Type := {
  (** [URL_SAFE_NO_PAD]. *)
  base64_encode : list Z → str;
  base64_decode : str → option (list Z);
  base64_decode_encode : ∀ l, Forall is_u8 l → base64_decode (base64_encode l) = Some l;
  base64_alphabet : ∀ l, Forall (λ c, url_safe c = true) (base64_encode l);
  (** [serde_json] over [Claims]. *)
  claims_to_vec : Claims → option (list Z);
  claims_from_slice : list Z → option Claims;
  claims_bytes : ∀ c l, claims_to_vec c = Some l → Forall is_u8 l;
  claims_from_to : ∀ c l, claims_to_vec c = Some l → claims_from_slice l = Some c;
  (** [Hmac<Sha256>] over a key and a message. *)
  hmac : list Z → list Z → list Z;
  hmac_bytes : ∀ k m, Forall is_u8 (hmac k m)
}.

Definition seconds_since_epoch (moment : Z) : Z := if moment <? 0 then 0 else moment / 10 ^ 9.

Section session.
Context `{Crypto} `{TokenCodec}.

(** [SessionId::generate], given what the random source filled in. *)
Definition generate (drawn : option (bytes ID_BYTES)) : result AuthError str :=
  bytes ← ok_or Random drawn;
  Ok (hex_encode (val bytes)).

Definition mac (t : SessionTokens) (message : list Z) : list Z := hmac (secret t) message.

Definition issue_at (t : SessionTokens) (user : UserId) (now : Z) (drawn : option (bytes ID_BYTES))
    : result AuthError str :=
  let issued_at := seconds_since_epoch now in
  jti ← generate drawn;
  let claims := MkClaims (val user) (issuer t) jti issued_at
    (sat_add issued_at (session_ttl t / 10 ^ 9)) in
  bytes ← ok_or SessionIssue (claims_to_vec claims);
  let payload := base64_encode bytes in
  let signed := HEADER ++ #"." ++ payload in
  let signature := base64_encode (mac t (as_bytes signed)) in
  Ok (signed ++ #"." ++ signature).

Definition verify_at (t : SessionTokens) (token : str) (now : Z) : result AuthError Session :=
  match split_on (Z.eqb (ch ".")) token with
  | [header; payload; signature] =>
      if negb (bool_decide (header = HEADER)) then Err SessionRejected
      else
        signature ← ok_or SessionRejected (base64_decode signature);
        let signed := header ++ #"." ++ payload in
        if negb (ct_eq (mac t (as_bytes signed)) signature) then Err SessionRejected
        else
          claims ← ok_or SessionRejected (base64_decode payload ≫= claims_from_slice);
          if negb (bool_decide (iss claims = issuer t)) || (exp claims <=? seconds_since_epoch now)
          then Err SessionRejected
          else
            user ← map_err (λ _, SessionRejected) (new_ident (sub claims));
            Ok (MkSession user (jti claims) (exp claims))
  | _ => Err SessionRejected
  end.
End session.

(** ** login.rs *)

Definition MIN_RECHECK_ATTEMPTS : nat := 2.
Definition MAX_RECHECK_ATTEMPTS : nat := 5.

Record RecheckLimit : Type := MkRecheck { attempts : nat; window : Ttl }.

(** [RecheckLimit::new]: held between the two, whatever it is built with. *)
Definition new_recheck_limit (wanted : nat) (window : Ttl) : RecheckLimit :=
  MkRecheck (Nat.max (Nat.min wanted MAX_RECHECK_ATTEMPTS) MIN_RECHECK_ATTEMPTS) window.

Record Logins : Type := MkLogins {
  tokens : SessionTokens;
  absent : PassphraseHash;
  recheck_limit : RecheckLimit
}.

Definition remaining (session : Session) (now : Z) : option Ttl :=
  if now <? 0 then None
  else
    let now := now / 10 ^ 9 in
    if expires_at session <? now then None
    else ok (new_ttl ((expires_at session - now) * 10 ^ 9)).

Definition recheck_id (user : UserId) (slot : nat) : str :=
  #"recheck-failed:" ++ val user ++ #":" ++ dec (Z.of_nat slot).
Definition recheck_key (user : UserId) (slot : nat) : result AuthError CacheKey :=
  map_err AuthCache (new_cache_key System (recheck_id user slot)).

Definition ended_id (session : str) : str := #"session-ended:" ++ session.
Definition ended_key (session : str) : result AuthError CacheKey :=
  map_err AuthCache (new_cache_key System (ended_id session)).

(** [?] on a call to the cache. *)
Definition cached {A St} (r : result CacheError A * St) : result AuthError A * St :=
  (map_err AuthCache r.1, r.2).

Section logins.
Context `{Crypto} `{TokenCodec} `{Argon2} `{Storage} {St : Type} `{!Cache St} (l : Logins).

Definition is_ended (session : Session) (now : Z) (s : St) : result AuthError bool * St :=
  match ended_key (session_id session) with
  | Err e => (Err e, s)
  | Ok key =>
      let '(r, s) := cached (k_get key now s) in
      (o ← r; Ok (match o with Some _ => true | None => false end), s)
  end.

(** [Logins::session]: the token checked at [at_], the cache asked at [now]. *)
Definition session_of (token : str) (at_ now : Z) (s : St) : result AuthError Session * St :=
  match verify_at (tokens l) token at_ with
  | Err e => (Err e, s)
  | Ok session =>
      match is_ended session now s with
      | (Err e, s) => (Err e, s)
      | (Ok true, s) => (Err SessionRejected, s)
      | (Ok false, s) => (Ok session, s)
      end
  end.

(** [Logins::end]. *)
Definition end_session (session : Session) (at_ now : Z) (s : St) : result AuthError unit * St :=
  match remaining session at_ with
  | None => (Ok tt, s)
  | Some ttl =>
      match ended_key (session_id session) with
      | Err e => (Err e, s)
      | Ok key => cached (k_put key [] (Some ttl) now s)
      end
  end.

Definition verifier_of (stored : option User) : PassphraseHash :=
  match stored with Some user => user_passphrase user | None => absent l end.

(** [Logins::log_in]. *)
Definition log_in (user : UserId) (p : Passphrase) (at_ : Z) (drawn : option (bytes ID_BYTES))
    : result AuthError str :=
  stored ← map_err AuthStorage (store_user user);
  matched ← passphrase_verify p (verifier_of stored);
  match stored with
  | Some stored =>
      if (matched : bool) then issue_at (tokens l) (user_id stored) at_ drawn else Err LoginRefused
  | None => Err LoginRefused
  end.

(** The slots [0..attempts]. *)
Definition slots : list nat := seq 0 (attempts (recheck_limit l)).

(** [failed_rechecks], over the slots still to be read. *)
Fixpoint count_failed (user : UserId) (slots : list nat) (now : Z) (s : St)
    : result AuthError nat * St :=
  match slots with
  | [] => (Ok 0%nat, s)
  | slot :: slots =>
      match recheck_key user slot with
      | Err e => (Err e, s)
      | Ok key =>
          match cached (k_get key now s) with
          | (Err e, s) => (Err e, s)
          | (Ok o, s) =>
              let '(n, s) := count_failed user slots now s in
              (n ← n; Ok ((match o with Some _ => 1 | None => 0 end) + n)%nat, s)
          end
      end
  end.

Definition failed_rechecks (user : UserId) (now : Z) (s : St) : result AuthError nat * St :=
  count_failed user slots now s.

(** The loop that clears the slots. *)
Fixpoint clear_slots (user : UserId) (slots : list nat) (now : Z) (s : St)
    : result AuthError unit * St :=
  match slots with
  | [] => (Ok tt, s)
  | slot :: slots =>
      match recheck_key user slot with
      | Err e => (Err e, s)
      | Ok key =>
          match cached (k_remove key now s) with
          | (Err e, s) => (Err e, s)
          | (Ok _, s) => clear_slots user slots now s
          end
      end
  end.

(** The loop that takes the first slot nothing holds. *)
Fixpoint take_slot (user : UserId) (slots : list nat) (now : Z) (s : St)
    : result AuthError unit * St :=
  match slots with
  | [] => (Ok tt, s)
  | slot :: slots =>
      match recheck_key user slot with
      | Err e => (Err e, s)
      | Ok key =>
          match cached (k_claim key (Some (window (recheck_limit l))) now s) with
          | (Err e, s) => (Err e, s)
          | (Ok true, s) => (Ok tt, s)
          | (Ok false, s) => take_slot user slots now s
          end
      end
  end.

(** [Logins::recheck]; the cache reads one clock throughout. *)
Definition recheck (user : UserId) (p : Passphrase) (now : Z) (s : St)
    : result AuthError unit * St :=
  let limit := attempts (recheck_limit l) in
  match failed_rechecks user now s with
  | (Err e, s) => (Err e, s)
  | (Ok failed, s) =>
      if Nat.leb limit failed then (Err RecheckLocked, s)
      else
        match map_err AuthStorage (store_user user) with
        | Err e => (Err e, s)
        | Ok stored =>
            match passphrase_verify p (verifier_of stored) with
            | Err e => (Err e, s)
            | Ok matched =>
                if bool_decide (is_Some stored) && matched then clear_slots user slots now s
                else
                  match take_slot user slots now s with
                  | (Err e, s) => (Err e, s)
                  | (Ok _, s) =>
                      match failed_rechecks user now s with
                      | (Err e, s) => (Err e, s)
                      | (Ok failed, s) =>
                          (Err (if Nat.leb limit failed then RecheckLocked else RecheckRefused), s)
                      end
                  end
            end
        end
  end.
End logins.

(** ** Lemmas *)

Section session_ok.
Context `{Crypto} `{TokenCodec}.

Lemma base64_no_dot l : Forall (λ c, (ch "." =? c) = false) (base64_encode l).
Proof using.
  eapply Forall_impl; [apply base64_alphabet|]. intros c. cbn beta.
  unfold url_safe, is_ascii_alphanumeric, is_ascii_digit, is_ascii_upper, is_ascii_lower, in_range.
  change (ch ".") with 46. change (ch "-") with 45. change (ch "_") with 95. lia.
Qed.

Lemma split_token payload signature :
  Forall (λ c, (ch "." =? c) = false) payload → Forall (λ c, (ch "." =? c) = false) signature →
  split_on (Z.eqb (ch ".")) ((HEADER ++ #"." ++ payload) ++ #"." ++ signature)
  = [HEADER; payload; signature].
Proof using.
  intros Hp Hs. rewrite <-!app_assoc.
  etransitivity; [apply (split_on_app _ HEADER (ch ".") (payload ++ #"." ++ signature)); [by_computation|done]|].
  f_equal. etransitivity; [by apply (split_on_app _ payload (ch ".") signature)|].
  f_equal. by apply split_on_none.
Qed.

(** When a token issued at a moment stops being accepted. *)
Definition token_expiry (t : SessionTokens) (issued : Z) : Z :=
  sat_add (seconds_since_epoch issued) (session_ttl t / 10 ^ 9).

(** A session token reads back as the session it was issued for, the same user under the
    same fresh id, for exactly as long as tokens are good for, and is rejected from then on. *)
Theorem session_roundtrip (t : SessionTokens) (user : UserId) (issued later : Z)
    (id : bytes ID_BYTES) (token : str) :
  issue_at t user issued (Some id) = Ok token →
  verify_at t token later
  = if seconds_since_epoch later <? token_expiry t issued
    then Ok (MkSession user (hex_encode (val id)) (token_expiry t issued))
    else Err SessionRejected.
Proof using.
  unfold issue_at, generate. cbn [ok_or mbind result_bind].
  set (claims := MkClaims _ _ _ _ _).
  intros (l & Hl%ok_or_ok & Htoken%(inj Ok))%bind_ok. rewrite <-Htoken. unfold verify_at.
  rewrite split_token by apply base64_no_dot.
  rewrite bool_decide_eq_true_2 by done. cbn [negb].
  rewrite (base64_decode_encode (mac t _)) by apply hmac_bytes. cbn [ok_or mbind result_bind].
  rewrite (proj2 (ct_eq_spec _ _) eq_refl). cbn [negb].
  rewrite base64_decode_encode by by eapply claims_bytes.
  cbn [mbind option_bind]. rewrite (claims_from_to _ _ Hl). cbn [ok_or mbind result_bind].
  rewrite bool_decide_eq_true_2 by done. cbn [negb orb exp sub jti claims].
  fold (token_expiry t issued).
  replace (token_expiry t issued <=? seconds_since_epoch later)
    with (negb (seconds_since_epoch later <? token_expiry t issued)) by lia.
  destruct (_ <? _); cbn [negb]; [|done].
  by rewrite (proj2 (new_ident_ok (val user) user) eq_refl).
Qed.

(** No token is accepted but one this server signed: the header is the one it writes, the
    signature is the server's own over header and payload, and the payload names the issuer,
    the user and the session that come back, before the moment it says it runs out. *)
Theorem session_authentic (t : SessionTokens) (token : str) (now : Z) (session : Session) :
  verify_at t token now = Ok session →
  ∃ payload signature claims,
    token = HEADER ++ #"." ++ payload ++ #"." ++ signature ∧
    base64_decode signature = Some (mac t (as_bytes (HEADER ++ #"." ++ payload))) ∧
    base64_decode payload ≫= claims_from_slice = Some claims ∧
    iss claims = issuer t ∧ seconds_since_epoch now < exp claims ∧
    sub claims = val (session_user session) ∧ jti claims = session_id session ∧
    exp claims = expires_at session.
Proof using.
  unfold verify_at. destruct (split_on _ token) as [|header [|payload [|signature [|]]]] eqn:Hs;
    try done. apply split_on_three in Hs as ->.
  case_bool_decide as Hh; [subst header|done]. cbn [negb].
  intros (mac' & Hmac%ok_or_ok & Hr)%bind_ok. destruct (ct_eq _ _) eqn:Hct; [|done].
  apply ct_eq_spec in Hct as <-. apply bind_ok in Hr as (claims & Hc%ok_or_ok & Hr).
  case_bool_decide as Hi; [|done]. cbn [negb orb] in Hr.
  destruct (_ <=? _) eqn:Hexp; [done|].
  apply bind_ok in Hr as (user & Hu%map_err_ok%new_ident_ok & [= <-]).
  exists payload, signature, claims. cbn. split_and!; try done. lia.
Qed.
End session_ok.

(** *** The slots of a recheck *)

Definition slot_key (user : UserId) (slot : nat) : CacheKey := system_key (recheck_id user slot).

Lemma recheck_id_graphic user slot : Forall (λ c, is_ascii_graphic c = true) (recheck_id user slot).
Proof.
  unfold recheck_id. rewrite !Forall_app. split_and!; [by_computation|apply ident_graphic|by_computation|].
  eapply Forall_impl; [apply dec_chars|]. intros c [Hc| ->]; [|done].
  apply is_ascii_digit_spec in Hc. unfold is_ascii_graphic, in_range. lia.
Qed.

Lemma recheck_key_ok user slot : recheck_key user slot = Ok (slot_key user slot).
Proof.
  unfold recheck_key. rewrite system_key_new; [done|done|apply recheck_id_graphic].
Qed.

Lemma slot_key_inj user slot slot' :
  key_bytes (slot_key user slot) = key_bytes (slot_key user slot') → slot = slot'.
Proof.
  unfold slot_key. rewrite !system_key_bytes by apply recheck_id_graphic.
  intros E%app_inv_head. unfold recheck_id in E. do 3 apply app_inv_head in E.
  apply dec_inj in E. lia.
Qed.

(** One slot of a list turned from free to taken. *)
Lemma count_one_more {A} (P Q : A → Prop) `{∀ x, Decision (P x), ∀ x, Decision (Q x)} l x
    (more : bool) :
  NoDup l → x ∈ l → ¬ P x → (∀ y, Q y ↔ P y ∨ y = x ∧ more = true) →
  length (filter Q l) = (length (filter P l) + if more then 1 else 0)%nat.
Proof.
  intros Hnd Hx HPx HQ.
  assert (∀ k, x ∉ k → length (filter Q k) = length (filter P k)) as Hsame.
  { intros k Hk. f_equal. apply filter_ext_in. intros y Hy. rewrite HQ. set_solver. }
  induction Hnd as [|y l Hy Hnd IH]; [set_solver|]. rewrite !filter_cons.
  apply elem_of_cons in Hx as [<-|Hxl].
  - pose proof (Hsame l Hy). rewrite (decide_False (P:=P x)) by done.
    destruct more; case_decide as HQx; rewrite HQ in HQx; cbn; naive_solver lia.
  - assert (y ≠ x) by (by intros ->). specialize (IH Hxl).
    destruct (decide (P y)) as [HP|HP]; case_decide as HQy; rewrite HQ in HQy; cbn; naive_solver lia.
Qed.

Section login_ok.
Context `{Crypto} `{TokenCodec} `{Argon2} `{Storage} {St : Type} `{!Cache St} (l : Logins).

(** A slot somebody's wrong passphrase still holds at [t]. *)
Definition taken (user : UserId) (t : Z) (s : St) (slot : nat) : Prop :=
  held s t (key_bytes (slot_key user slot)) ≠ None.
#[local] Instance taken_dec user t s slot : Decision (taken user t s slot).
Proof using. unfold taken. apply _. Defined.

(** How many wrong passphrases count against a user at [t]. *)
Definition failures_at (user : UserId) (t : Z) (s : St) : nat :=
  length (filter (taken user t s) (slots l)).

(** A state that reads the same from [now] on. *)
Definition same_from (now : Z) (s s' : St) : Prop := ∀ t b, now ≤ t → held s' t b = held s t b.

Lemma failures_same now s s' user t :
  same_from now s s' → now ≤ t → failures_at user t s' = failures_at user t s.
Proof using.
  intros Hs Ht. unfold failures_at. f_equal. apply filter_ext_in. intros y _.
  unfold taken. by rewrite Hs.
Qed.

Lemma cached_ok {A} (r : result CacheError A * St) res s' :
  cached r = (res, s') → (∃ e, res = Err (AuthCache e)) ∨ ∃ a, r = (Ok a, s') ∧ res = Ok a.
Proof using.
  destruct r as [[a|e] s]; intros [= <- <-]; [right|left]; eauto.
Qed.

Lemma count_failed_ok user ss now s res s' :
  cache_ok s → 0 ≤ now → count_failed user ss now s = (res, s') →
  (∃ e, res = Err (AuthCache e)) ∨
  res = Ok (length (filter (taken user now s) ss)) ∧ cache_ok s' ∧ same_from now s s'.
Proof using.
  intros Hs Hn. revert s res s' Hs. induction ss as [|slot ss IH]; intros s res s' Hs; cbn [count_failed].
  { intros [= <- <-]. right. done. }
  rewrite recheck_key_ok. destruct (cached (k_get _ now s)) as [r1 s1] eqn:Hg.
  apply cached_ok in Hg as [[e ->]|(o & Hg & ->)]; [intros [= <- <-]; eauto|].
  apply k_get_ok in Hg as (Ho & Hs1 & Hsame); [|done..].
  destruct (count_failed user ss now s1) as [r2 s2] eqn:Hc.
  apply IH in Hc as [[e ->]|(-> & Hs2 & Hsame2)]; [intros [= <- <-]; eauto| |done].
  intros [= <- <-]. right. split; [|split; [done|]].
  - f_equal. rewrite (filter_ext_in (taken user now s1) (taken user now s) ss)
      by (intros y _; unfold taken; by rewrite Hsame).
    rewrite filter_cons. case_decide as Ht; unfold taken in Ht; rewrite <-Ho in Ht;
      destruct o; cbn; naive_solver.
  - intros t b Ht. by rewrite Hsame2, Hsame.
Qed.

Lemma failed_rechecks_ok user now s res s' :
  cache_ok s → 0 ≤ now → failed_rechecks l user now s = (res, s') →
  (∃ e, res = Err (AuthCache e)) ∨
  res = Ok (failures_at user now s) ∧ cache_ok s' ∧ same_from now s s'.
Proof using. intros. by apply count_failed_ok. Qed.

Lemma clear_slots_ok user ss now s res s' :
  cache_ok s → 0 ≤ now → clear_slots user ss now s = (res, s') →
  (∃ e, res = Err (AuthCache e)) ∨
  res = Ok tt ∧ cache_ok s' ∧ ∀ t slot, now ≤ t → (slot ∈ ss ∨ ¬ taken user t s slot) →
    ¬ taken user t s' slot.
Proof using.
  intros Hs Hn. revert s res s' Hs. induction ss as [|slot ss IH]; intros s res s' Hs; cbn [clear_slots].
  { intros [= <- <-]. right. split_and!; [done..|]. intros t slot Ht. set_solver. }
  rewrite recheck_key_ok. destruct (cached (k_remove _ now s)) as [r1 s1] eqn:Hg.
  apply cached_ok in Hg as [[e ->]|(o & Hg & ->)]; [intros [= <- <-]; eauto|].
  apply k_remove_ok in Hg as (_ & Hs1 & Hh); [|done..].
  intros [?|(-> & Hs' & Hfree)]%IH; [by left| |done]. right. split_and!; [done..|].
  intros t slot' Ht Hor. apply Hfree; [done|]. unfold taken in *. rewrite Hh by done.
  case_decide as Hk; [right; auto|]. set_unfold in Hor. naive_solver.
Qed.

(** The loop takes the first free slot, and leaves all as it was when there is none. *)
Lemma take_slot_ok user ss now s res s' :
  cache_ok s → 0 ≤ now → take_slot l user ss now s = (res, s') →
  (∃ e, res = Err (AuthCache e)) ∨
  res = Ok tt ∧ cache_ok s' ∧
  ((∀ slot, slot ∈ ss → taken user now s slot) ∨
   ∃ slot, slot ∈ ss ∧ ¬ taken user now s slot ∧
     ∀ t b, now ≤ t → held s' t b =
       if decide (b = key_bytes (slot_key user slot))
       then if stays now (Some (window (recheck_limit l))) t then Some [] else None
       else held s t b).
Proof using.
  intros Hs Hn. revert s res s' Hs. induction ss as [|slot ss IH]; intros s res s' Hs; cbn [take_slot].
  { intros [= <- <-]. right. split_and!; [done..|]. left. set_solver. }
  rewrite recheck_key_ok. destruct (cached (k_claim _ _ now s)) as [r1 s1] eqn:Hg.
  apply cached_ok in Hg as [[e ->]|(o & Hg & ->)]; [intros [= <- <-]; eauto|].
  apply k_claim_ok in Hg as (Ho & Hs1 & Hh); [|done..]. destruct o.
  - intros [= <- <-]. right. split_and!; [done..|]. right. exists slot.
    split; [set_solver|]. split.
    + unfold taken. symmetry in Ho. apply bool_decide_eq_true in Ho. rewrite Ho. by intros [].
    + intros t b Ht. rewrite Hh by done. repeat case_decide; naive_solver.
  - assert (same_from now s s1) as Hsame
      by (intros t b Ht; rewrite Hh by done; by rewrite decide_False by by intros [_ ?]).
    assert (taken user now s slot) as Hslot
      by (unfold taken; symmetry in Ho; by apply bool_decide_eq_false in Ho).
    intros [?|(-> & Hs' & Hor)]%IH; [by left| |done]. right. split_and!; [done..|].
    unfold taken in *. destruct Hor as [Hall|(slot' & Hin & Hfree & Hh')].
    + left. intros slot' [->|Hin]%elem_of_cons; [done|]. specialize (Hall _ Hin). by rewrite Hsame in Hall.
    + right. exists slot'. rewrite Hsame in Hfree by done. split; [set_solver|]. split; [done|].
      intros t b Ht. rewrite Hh' by done. by rewrite Hsame.
Qed.
(** Whether a passphrase is a user's own, as [recheck] asks it. *)
Definition checked (user : UserId) (p : Passphrase) (right : bool) : Prop :=
  ∃ stored matched, store_user user = Ok stored ∧
    passphrase_verify p (verifier_of l stored) = Ok matched ∧
    right = bool_decide (is_Some stored) && matched.

(** What a wrong passphrase given at [now] adds to the count at [t]. *)
Definition counts_at (now t : Z) : nat :=
  if stays now (Some (window (recheck_limit l))) t then 1%nat else 0%nat.

Lemma take_slot_failures user now s s' :
  (∀ slot, slot ∈ slots l → taken user now s slot) ∨
  (∃ slot, slot ∈ slots l ∧ ¬ taken user now s slot ∧
     ∀ t b, now ≤ t → held s' t b =
       if decide (b = key_bytes (slot_key user slot))
       then if stays now (Some (window (recheck_limit l))) t then Some [] else None
       else held s t b) →
  (failures_at user now s < attempts (recheck_limit l))%nat →
  ∀ t, now ≤ t → failures_at user t s' = (failures_at user t s + counts_at now t)%nat.
Proof using.
  intros [Hall|(slot & Hin & Hfree & Hh)] Hlt t Ht.
  - exfalso. unfold failures_at in Hlt. rewrite filter_all in Hlt by (by apply Forall_forall).
    unfold slots in Hlt. rewrite length_seq in Hlt. lia.
  - assert (held s t (key_bytes (slot_key user slot)) = None) as Hnone.
    { apply (held_ages s now t); [done|]. unfold taken in Hfree. by apply dec_stable. }
    unfold failures_at, counts_at. apply (count_one_more _ _ _ slot); [apply NoDup_seq|done|..].
    + unfold taken. rewrite Hnone. by intros [].
    + intros y. unfold taken. rewrite Hh by done. case_decide as Hk.
      * apply slot_key_inj in Hk as ->. rewrite Hnone. destruct (stays _ _ _); naive_solver.
      * assert (y ≠ slot) by (by intros ->). naive_solver.
Qed.

(** What one recheck answers, and what it leaves counting against the user. *)
Lemma recheck_ok user p right now s res s' :
  cache_ok s → 0 ≤ now → checked user p right → recheck l user p now s = (res, s') →
  (∀ e, res ≠ Err (AuthCache e)) →
  let limit := attempts (recheck_limit l) in
  let failed := failures_at user now s in
  cache_ok s' ∧
  res = (if Nat.leb limit failed then Err RecheckLocked
         else if right then Ok tt
         else Err (if Nat.leb limit (failed + counts_at now now) then RecheckLocked else RecheckRefused)) ∧
  ∀ t, now ≤ t → failures_at user t s'
    = (if Nat.leb limit failed then failures_at user t s
       else if right then 0 else failures_at user t s + counts_at now t)%nat.
Proof using.
  intros Hs Hn (stored & matched & Hstore & Hpass & ->) Hr Hcache. cbn zeta. unfold recheck in Hr.
  destruct (failed_rechecks l user now s) as [r1 s1] eqn:Hc1.
  apply failed_rechecks_ok in Hc1 as [[e ->]|(-> & Hs1 & Hsame1)]; [| |done..].
  { injection Hr as <- <-. by destruct (Hcache e). }
  destruct (Nat.leb_spec (attempts (recheck_limit l)) (failures_at user now s)) as [Hle|Hlt].
  { injection Hr as <- <-. split_and!; [done..|]. intros t Ht. by apply (failures_same now). }
  rewrite Hstore in Hr. cbn [map_err] in Hr. rewrite Hpass in Hr.
  destruct (bool_decide (is_Some stored) && matched) eqn:Hright.
  - apply clear_slots_ok in Hr as [[e ->]|(-> & Hs' & Hfree)]; [by destruct (Hcache e)| |done..].
    split_and!; [done..|]. intros t Ht. unfold failures_at. rewrite filter_none; [done|].
    apply Forall_forall. intros slot Hin. apply Hfree; [done|by left].
  - destruct (take_slot l user (slots l) now s1) as [r2 s2] eqn:Hc2.
    apply take_slot_ok in Hc2 as [[e ->]|(-> & Hs2 & Htake)]; [| |done..].
    { injection Hr as <- <-. by destruct (Hcache e). }
    destruct (failed_rechecks l user now s2) as [r3 s3] eqn:Hc3.
    apply failed_rechecks_ok in Hc3 as [[e ->]|(-> & Hs3 & Hsame3)]; [| |done..].
    { injection Hr as <- <-. by destruct (Hcache e). }
    injection Hr as <- <-.
    assert (∀ t, now ≤ t → failures_at user t s2 = (failures_at user t s + counts_at now t)%nat)
      as Hmore.
    { intros t Ht. rewrite <-(failures_same now s s1 user t Hsame1 Ht).
      apply (take_slot_failures user now s1); [done| |done].
      by rewrite (failures_same now s s1 user now Hsame1). }
    rewrite (Hmore now) by lia. split_and!; [done..|].
    intros t Ht. rewrite (failures_same now s2 s3) by done. by apply Hmore.
Qed.
(** Wrong passphrases given one after another from [t0] on, none of them lost to the cache. *)
Inductive wrong_guesses (user : UserId) (t0 : Z) (s : St) : nat → Z → St → Prop :=
  | no_guess : wrong_guesses user t0 s 0 t0 s
  | guess k now s1 p now' res s2 :
      wrong_guesses user t0 s k now s1 → now ≤ now' → checked user p false →
      recheck l user p now' s1 = (res, s2) → (∀ e, res ≠ Err (AuthCache e)) →
      wrong_guesses user t0 s (S k) now' s2.

Lemma expiry_mono now now' ttl : now ≤ now' → expiry now (Some ttl) ≤ expiry now' (Some ttl).
Proof using. intros Hle. unfold expiry, sat_add. lia. Qed.

(** What does not count now never will without a new failure. *)
Lemma failures_stay_none user now t s :
  now ≤ t → failures_at user now s = 0%nat → failures_at user t s = 0%nat.
Proof using.
  unfold failures_at. intros Hle Hz%length_zero_iff_nil. apply length_zero_iff_nil, filter_none.
  apply Forall_forall. intros slot Hin Htaken. apply Htaken.
  apply (held_ages s now t); [done|]. apply dec_stable. intros Hne.
  assert (slot ∈ filter (taken user now s) (slots l)) as Hf by by apply list_elem_of_filter.
  rewrite Hz in Hf. by apply elem_of_nil in Hf.
Qed.

(** While the first of them counts, so do they all, up to the limit. *)
Lemma wrong_guesses_count user t0 s k now s1 :
  cache_ok s → 0 ≤ t0 → failures_at user t0 s = 0%nat → wrong_guesses user t0 s k now s1 →
  t0 ≤ now ∧ cache_ok s1 ∧
  ∀ t, now ≤ t < expiry t0 (Some (window (recheck_limit l))) →
    (Nat.min k (attempts (recheck_limit l)) ≤ failures_at user t s1)%nat ∧
    failures_at user t s1 = failures_at user now s1.
Proof using.
  intros Hs Ht0 Hclean. induction 1 as [|k now s1 p now' res s2 Hg IH Hle Hp Hr Hcache].
  - split; [done|]. split; [done|]. intros t Ht. split; [lia|].
    rewrite Hclean. apply (failures_stay_none user t0); [lia|done].
  - destruct IH as (Ht0' & Hs1 & Hcount).
    apply recheck_ok with (right := false) in Hr as (Hs2 & _ & Hafter); [|done|lia|done..].
    split; [lia|]. split; [done|]. intros t Ht.
    destruct (Hcount now' ltac:(lia)) as [Hk Heq], (Hcount t ltac:(lia)) as [Hk' Heq'].
    rewrite !Hafter by lia.
    destruct (Nat.leb_spec (attempts (recheck_limit l)) (failures_at user now' s1)); [lia|].
    pose proof (expiry_mono t0 now' (window (recheck_limit l)) ltac:(lia)).
    unfold counts_at. rewrite !stays_until by lia. lia.
Qed.


(** An ended session is remembered at least until its token runs out. *)
Lemma ended_past_expiry at_ now exp (ttl : Ttl) :
  0 ≤ at_ → at_ / 10 ^ 6 ≤ now → val ttl = (exp - at_ / 10 ^ 9) * 10 ^ 9 →
  Z.min (exp * 1000) u64_max ≤ expiry now (Some ttl).
Proof using.
  intros Hat Hnow Httl. unfold expiry, sat_add, as_millis. rewrite Httl.
  replace ((exp - at_ / 10 ^ 9) * 10 ^ 9 / 10 ^ 6) with ((exp - at_ / 10 ^ 9) * 1000).
  2: { symmetry. replace (_ * 10 ^ 9) with ((exp - at_ / 10 ^ 9) * 1000 * 10 ^ 6) by lia.
       by apply Z.div_mul. }
  assert (at_ / 10 ^ 9 * 1000 ≤ at_ / 10 ^ 6).
  { apply Z.div_le_lower_bound; [lia|]. pose proof (Z.mul_div_le at_ (10 ^ 9)). lia. }
  assert (0 ≤ at_ / 10 ^ 6) by (apply Z.div_pos; lia).
  unfold try_unsigned. destruct (_ && _) eqn:Hb; cbn [from_option id]; lia.
Qed.

(** A session that was ended stays ended: from then on until its token runs out by itself,
    no reading of that token gives the session back. *)
Theorem ended_stays_ended (session : Session) (token : str) (at_ now at' now' : Z) (s s1 s2 : St)
    (res : result AuthError Session) :
  cache_ok s → 0 ≤ at_ → at_ / 10 ^ 6 ≤ now → seconds_since_epoch at_ < expires_at session →
  end_session session at_ now s = (Ok tt, s1) →
  now ≤ now' → now' < Z.min (expires_at session * 1000) u64_max →
  verify_at (tokens l) token at' = Ok session →
  session_of l token at' now' s1 = (res, s2) →
  is_ok res = false.
Proof using.
  intros Hs Hat Hnow Hleft Hend Hle Hlt Hv Hr. unfold end_session, remaining in Hend.
  unfold seconds_since_epoch in Hleft. replace (at_ <? 0) with false in * by lia.
  change (at_ / 10 ^ 9 < expires_at session) in Hleft.
  assert (0 ≤ at_ / 10 ^ 6) by (apply Z.div_pos; lia).
  replace (expires_at session <? at_ / 10 ^ 9) with false in Hend by lia.
  destruct (new_ttl _) as [ttl|e] eqn:Httl in Hend; cbn [ok] in Hend.
  2: { apply refine_err in Httl. unfold check_span in Httl.
       destruct ((expires_at session - at_ / 10 ^ 9) * 10 ^ 9 <=? 0) eqn:Hz; [lia|done]. }
  apply refine_ok in Httl as [_ Httl].
  destruct (ended_key (session_id session)) as [key|e] eqn:Hkey; [|done].
  apply cached_ok in Hend as [[e ?]|([] & Hput & _)]; [done|].
  apply k_put_ok in Hput as (Hs1 & Hh); [|done|lia].
  unfold session_of in Hr. rewrite Hv in Hr. unfold is_ended in Hr. rewrite Hkey in Hr.
  destruct (cached (k_get key now' s1)) as [r1 s1'] eqn:Hg.
  apply cached_ok in Hg as [[e ->]|(o & Hg & ->)]; [by injection Hr as <- _|].
  apply k_get_ok in Hg as (-> & _); [|done|lia]. rewrite Hh, decide_True in Hr by done.
  rewrite stays_until in Hr; [by injection Hr as <- _|].
  eapply Z.lt_le_trans; [exact Hlt|]. by apply (ended_past_expiry at_ now).
Qed.
End login_ok.

(** ** Sample values *)
Module LoginSample.
Import SampleCrypto SampleChrono AuthSample.

(** Claims written as lengths, texts and numbers, when that reads back. *)
Definition write_claims (c : Claims) : list Z :=
  [Z.of_nat (length (sub c)); Z.of_nat (length (iss c)); Z.of_nat (length (jti c))]
  ++ sub c ++ iss c ++ jti c ++ be_bytes 8 (iat c) ++ be_bytes 8 (exp c).
Definition read_claims (l : list Z) : option Claims :=
  match l with
  | a :: b :: c :: l =>
      let '(x, l) := (take (Z.to_nat a) l, drop (Z.to_nat a) l) in
      let '(y, l) := (take (Z.to_nat b) l, drop (Z.to_nat b) l) in
      let '(z, l) := (take (Z.to_nat c) l, drop (Z.to_nat c) l) in
      Some (MkClaims x y z (of_be_bytes (take 8 l)) (of_be_bytes (drop 8 l)))
  | _ => None
  end.

#[export, program] Instance codec : TokenCodec := {|
  base64_encode := encode;
  base64_decode := decode;
  base64_decode_encode := decode_encode;
  claims_to_vec c :=
    if decide (Forall (λ b, 0 ≤ b ≤ 255) (write_claims c) ∧ read_claims (write_claims c) = Some c)
    then Some (write_claims c) else None;
  claims_from_slice := read_claims;
  hmac k m := fit 32 (m ++ k)
|}.
Next Obligation.
  intros l. eapply Forall_impl; [apply encode_chars|]. intros c Hc. unfold url_safe.
  cbn beta in Hc. by rewrite Hc.
Qed.
Next Obligation. intros c l. cbn. case_decide as E; [|done]. intros [= <-]. apply E. Qed.
Next Obligation. intros c l. cbn. case_decide as E; [|done]. intros [= <-]. apply E. Qed.
Next Obligation.
  intros k m. pose proof (fit_ok 32 (m ++ k)) as [[] Hok]%is_ok_true. by apply (check_bytes_ok 32) in Hok as [_ Hu].
Qed.

Definition right : Passphrase := MkRefined (check := check_passphrase) #"correct horse" eq_refl.
Definition wrong : Passphrase := MkRefined (check := check_passphrase) #"battery staple" eq_refl.
#[export] Instance argon2 : Argon2 := {|
  verify_password p _ := if decide (p = as_bytes (val right)) then Ok tt else Err PasswordInvalid
|}.

Definition server : SessionTokens := MkTokensOf #"prism" [1; 2; 3] (3600 * 10 ^ 9).
Definition logins : Logins := MkLogins server verifier (new_recheck_limit 1 Memory.minute).
Definition drawn : bytes ID_BYTES := MkRefined (check := check_bytes 16) (repeat 9 16) eq_refl.
Definition ms : Z := 10 ^ 6.
Definition token : str := default [] (ok (issue_at server user (1000 * ms) (Some drawn))).
Definition session : Session := MkSession user (hex_encode (val drawn)) 3601.

Lemma token_issued : issue_at server user (1000 * ms) (Some drawn) = Ok token.
Proof. by_computation. Qed.

Lemma session_roundtrip_witness :
  verify_at server token (5000 * ms) = Ok session.
Proof.
  rewrite (session_roundtrip server user (1000 * ms) (5000 * ms) drawn token).
  - by_computation.
  - exact token_issued.
Defined.

Lemma token_reads : verify_at server token (5000 * ms) = Ok session.
Proof. by_computation. Qed.

Lemma session_authentic_witness :
  ∃ payload signature claims,
    token = HEADER ++ #"." ++ payload ++ #"." ++ signature ∧
    base64_decode signature = Some (mac server (as_bytes (HEADER ++ #"." ++ payload))) ∧
    base64_decode payload ≫= claims_from_slice = Some claims ∧
    iss claims = issuer server ∧ seconds_since_epoch (5000 * ms) < exp claims ∧
    sub claims = val (session_user session) ∧ jti claims = session_id session ∧
    exp claims = expires_at session.
Proof.
  apply (session_authentic server token (5000 * ms) session).
  exact token_reads.
Defined.

Definition once : View := (recheck logins user wrong 1000 empty_view).2.
Definition twice : View := (recheck logins user wrong 2000 once).2.

Lemma two_guesses : wrong_guesses logins user 1000 empty_view 2 2000 twice.
Proof.
  assert (checked logins user wrong false) as Hw.
  { exists (Some ada), false. by split_and!. }
  apply (guess _ _ _ _ 1 1000 once wrong 2000 (Err RecheckLocked)); [|lia|done|by_computation|done].
  apply (guess _ _ _ _ 0 1000 empty_view wrong 1000 (Err RecheckRefused));
    [constructor|lia|done|by_computation|done].
Qed.


Definition logged_out : View := (end_session session (2000 * ms) 2000 empty_view).2.

Lemma ended_stays_ended_witness :
  is_ok (session_of logins token (5000 * ms) 5000 logged_out).1 = false.
Proof.
  apply (ended_stays_ended logins session token (2000 * ms) 2000 (5000 * ms) 5000 empty_view logged_out
    (session_of logins token (5000 * ms) 5000 logged_out).2).
  - exact I.
  - by_computation.
  - by_computation.
  - by_computation.
  - by_computation.
  - lia.
  - by_computation.
  - exact token_reads.
  - apply surjective_pairing.
Defined.
End LoginSample.
