(* ===== verification/Sse.v ===== *)
(** * Sse: a streamed answer, event by event

    Models [crates/ip-gateway/src/sse.rs].  A body is the list of frames the upstream sends;
    the channel to the caller is what was sent on it so far and how many more frames its other
    end takes before it goes away, if it ever does.  A processor may keep a state of its own
    (a wasm plugin's, a recorder's): the chain threads it.  Every loop that is not structural
    takes fuel, and the fuel it is given is shown to be enough ([scan_enough],
    [forward_enough]). *)
From S2P Require Import Prelude Text.

Inductive ProcessorError : Type :=
  | Refused (reason : str)
  | Failed (detail : str).
#[export] Instance ProcessorError_eq_dec : EqDecision ProcessorError.
Proof. solve_decision. Defined.

(** ** Line endings *)

Definition LF : Z := 10.
Definition CR : Z := 13.

Inductive Ending : Type := Line (n : nat) | NoEnding | UnknownEnding.

Definition ending_at (buffer : list Z) (at_ : nat) (at_end : bool) : Ending :=
  match buffer !! at_ with
  | Some b =>
      if b =? LF then Line 1
      else if b =? CR then
        match buffer !! (at_ + 1)%nat with
        | Some b => if b =? LF then Line 2 else Line 1
        | None => if at_end then Line 1 else UnknownEnding
        end
      else NoEnding
  | None => if at_end then NoEnding else UnknownEnding
  end.

(** The loop of [event_end] from a position. *)
Fixpoint scan (fuel : nat) (buffer : list Z) (at_ : nat) (at_end : bool) : option nat :=
  match fuel with
  | O => None
  | S fuel =>
      if Nat.ltb at_ (length buffer) then
        match ending_at buffer at_ at_end with
        | Line first =>
            match ending_at buffer (at_ + first) at_end with
            | Line second => Some (at_ + first + second)%nat
            | UnknownEnding => None
            | NoEnding => scan fuel buffer (at_ + first) at_end
            end
        | UnknownEnding => None
        | NoEnding => scan fuel buffer (at_ + 1) at_end
        end
      else None
  end.

Definition event_end (buffer : list Z) (at_end : bool) : option nat :=
  scan (length buffer) buffer 0 at_end.

(** [reason.replace("\r\n", "\n")]. *)
Fixpoint replace_crlf (s : str) : str :=
  match s with
  | a :: (b :: s') as t => if (a =? CR) && (b =? LF) then LF :: replace_crlf s' else a :: replace_crlf t
  | s => s
  end.

Definition error_event (reason : str) : list Z :=
  let lines := split_on (λ c, (c =? LF) || (c =? CR)) (replace_crlf reason) in
  as_bytes (#"event: error" ++ [LF] ++ (lines ≫= λ line, #"data: " ++ line ++ [LF]) ++ [LF]).

(** ** The stream *)

Section stream.
(** What the processors keep, the trailers of [http], a [BoxError] and the boxing of one. *)
Context {W T E : Type} (boxed : ProcessorError → E).

Definition processor : Type := list Z → W → result ProcessorError (list Z) * W.

(** What arrives, and what is sent on: data, trailers or a failure. *)
Inductive frame : Type :=
  | FData (data : list Z)
  | FTrailers (trailers : T)
  | FErr (error : E).

Record Sender : Type := MkSender { sent : list frame; patience : option nat }.

Definition send (f : frame) (s : Sender) : bool * Sender :=
  match patience s with
  | Some O => (false, s)
  | Some (S n) => (true, MkSender (sent s ++ [f]) (Some n))
  | None => (true, MkSender (sent s ++ [f]) None)
  end.

Context (chain : list processor).

Fixpoint run_from (chain : list processor) (event : list Z) (w : W)
    : result ProcessorError (list Z) * W :=
  match chain with
  | [] => (Ok event, w)
  | p :: chain =>
      match p event w with
      | (Ok event, w) => run_from chain event w
      | (Err e, w) => (Err e, w)
      end
  end.
Definition run_chain (event : list Z) (w : W) : result ProcessorError (list Z) * W :=
  run_from chain event w.

(** One turn of the loop of [forward_events], for an event: whether the stream goes on. *)
Definition forward_event (event : list Z) (w : W) (s : Sender) : bool * W * Sender :=
  match run_chain event w with
  | (Ok event, w) => let '(sent, s) := send (FData event) s in (sent, w, s)
  | (Err (Refused reason), w) => (false, w, (send (FData (error_event reason)) s).2)
  | (Err (Failed detail), w) => (false, w, (send (FErr (boxed (Failed detail))) s).2)
  end.

(** [forward_events]: whether the stream goes on, and what is left pending. *)
Fixpoint forward_loop (fuel : nat) (pending : list Z) (at_end : bool) (w : W) (s : Sender)
    : bool * list Z * W * Sender :=
  match fuel with
  | O => (true, pending, w, s)
  | S fuel =>
      match event_end pending at_end with
      | None => (true, pending, w, s)
      | Some n =>
          let '(go, w, s) := forward_event (take n pending) w s in
          if (go : bool) then forward_loop fuel (drop n pending) at_end w s
          else (false, drop n pending, w, s)
      end
  end.
Definition forward_events (pending : list Z) (at_end : bool) (w : W) (s : Sender) :=
  forward_loop (S (length pending)) pending at_end w s.

(** [flush] leaves nothing pending. *)
Definition flush (pending : list Z) (s : Sender) : bool * Sender :=
  match pending with
  | [] => (true, s)
  | _ => send (FData pending) s
  end.

Fixpoint pump (body : list frame) (pending : list Z) (w : W) (s : Sender) : W * Sender :=
  match body with
  | [] =>
      let '(go, pending, w, s) := forward_events pending true w s in
      (w, if (go : bool) then (flush pending s).2 else s)
  | FErr e :: _ => (w, (send (FErr e) s).2)
  | FData data :: body =>
      let '(go, pending, w, s) := forward_events (pending ++ data) false w s in
      if (go : bool) then pump body pending w s else (w, s)
  | FTrailers trailers :: body =>
      let '(go, pending, w, s) := forward_events pending true w s in
      if (go : bool) then
        let '(go, s) := flush pending s in
        if (go : bool) then
          let '(go, s) := send (FTrailers trailers) s in
          if (go : bool) then pump body [] w s else (w, s)
        else (w, s)
      else (w, s)
  end.
End stream.

Arguments frame : clear implicits.
Arguments Sender : clear implicits.
Arguments processor : clear implicits.

(** ** Lemmas *)

(** What is known of a position stays known when more arrives, or when the stream ends. *)
Lemma ending_at_app b c at_ x e :
  ending_at b at_ false = e → e ≠ UnknownEnding → ending_at (b ++ c) at_ x = e.
Proof.
  unfold ending_at. destruct (b !! at_) as [v|] eqn:Hv; [|naive_solver].
  rewrite (lookup_app_l_Some b c at_ v Hv).
  destruct (v =? LF); [done|]. destruct (v =? CR); [|done].
  destruct (b !! (at_ + 1)%nat) as [u|] eqn:Hu; [|naive_solver].
  by rewrite (lookup_app_l_Some b c _ u Hu).
Qed.

Lemma ending_at_line b at_ x n :
  ending_at b at_ x = Line n → (1 ≤ n ∧ at_ + n ≤ length b)%nat.
Proof.
  unfold ending_at. destruct (b !! at_) as [v|] eqn:Hv; [|by destruct x].
  apply lookup_lt_Some in Hv.
  destruct (v =? LF); [intros [= <-]; lia|]. destruct (v =? CR); [|done].
  destruct (b !! (at_ + 1)%nat) as [u|] eqn:Hu.
  - apply lookup_lt_Some in Hu. destruct (u =? LF); intros [= <-]; lia.
  - destruct x; [intros [= <-]; lia|done].
Qed.

Lemma scan_bounds fuel b at_ x n :
  scan fuel b at_ x = Some n → (at_ + 2 ≤ n ∧ n ≤ length b)%nat.
Proof.
  revert at_. induction fuel as [|fuel IH]; intros at_; cbn [scan]; [done|].
  destruct (Nat.ltb_spec at_ (length b)); [|done].
  destruct (ending_at b at_ x) as [first| |] eqn:H1; [| |done].
  - apply ending_at_line in H1. destruct (ending_at b (at_ + first) x) as [second| |] eqn:H2.
    + apply ending_at_line in H2. intros [= <-]. lia.
    + intros Hs%IH. lia.
    + done.
  - intros Hs%IH. lia.
Qed.

(** Fuel for the rest of the buffer is enough. *)
Lemma scan_enough fuel k b at_ x :
  (length b ≤ at_ + fuel)%nat → scan (fuel + k) b at_ x = scan fuel b at_ x.
Proof.
  revert at_. induction fuel as [|fuel IH]; intros at_ Hf.
  - cbn [scan Nat.add]. destruct k as [|k]; [done|]. cbn [scan].
    by destruct (Nat.ltb_spec at_ (length b)); [lia|].
  - cbn [scan Nat.add]. destruct (Nat.ltb_spec at_ (length b)); [|done].
    destruct (ending_at b at_ x) as [first| |] eqn:H1; [| |done].
    + apply ending_at_line in H1. destruct (ending_at b (at_ + first) x); [done| |done].
      apply IH. lia.
    + apply IH. lia.
Qed.

(** An event found before the end of the stream is the event however the stream goes on. *)
Lemma scan_app fuel k b c at_ x n :
  scan fuel b at_ false = Some n → scan (fuel + k) (b ++ c) at_ x = Some n.
Proof.
  revert at_. induction fuel as [|fuel IH]; intros at_; cbn [scan Nat.add]; [done|].
  rewrite length_app. destruct (Nat.ltb_spec at_ (length b)); [|done].
  replace (Nat.ltb at_ (length b + length c)) with true by (symmetry; apply Nat.ltb_lt; lia).
  destruct (ending_at b at_ false) as [first| |] eqn:H1; [| |done];
    rewrite (ending_at_app b c at_ x _ H1) by done; [|apply IH].
  destruct (ending_at b (at_ + first) false) as [second| |] eqn:H2; [| |done];
    rewrite (ending_at_app b c _ x _ H2) by done; [done|apply IH].
Qed.

Lemma event_end_app b c x n : event_end b false = Some n → event_end (b ++ c) x = Some n.
Proof. unfold event_end. intros Hs. rewrite length_app. by apply scan_app. Qed.

Lemma event_end_bounds b x n : event_end b x = Some n → (2 ≤ n ∧ n ≤ length b)%nat.
Proof. intros Hs%scan_bounds. lia. Qed.

Section stream_ok.
Context {W T E : Type} (boxed : ProcessorError → E) (chain : list (processor W)).
Implicit Types (w : W) (s : Sender T E).

(** Fuel past the pending bytes is enough. *)
Lemma forward_enough fuel k pending x w s :
  (length pending < fuel)%nat →
  forward_loop boxed chain (fuel + k) pending x w s = forward_loop boxed chain fuel pending x w s.
Proof using.
  revert pending w s. induction fuel as [|fuel IH]; intros pending w s Hf; [lia|].
  cbn [forward_loop Nat.add]. destruct (event_end pending x) as [n|] eqn:He; [|done].
  destruct (forward_event _ _ _ _ _) as [[[] w1] s1]; [|done].
  apply event_end_bounds in He. apply IH. rewrite length_drop. lia.
Qed.

Lemma forward_events_fuel fuel pending x w s :
  (length pending < fuel)%nat →
  forward_loop boxed chain fuel pending x w s = forward_events boxed chain pending x w s.
Proof using.
  intros Hf. unfold forward_events.
  replace fuel with (S (length pending) + (fuel - S (length pending)))%nat by lia.
  apply forward_enough. lia.
Qed.

(** The loop unrolled once. *)
Lemma forward_events_step pending x w s :
  forward_events boxed chain pending x w s
  = match event_end pending x with
    | None => (true, pending, w, s)
    | Some n =>
        let '(go, w, s) := forward_event boxed chain (take n pending) w s in
        if (go : bool) then forward_events boxed chain (drop n pending) x w s
        else (false, drop n pending, w, s)
    end.
Proof using.
  unfold forward_events at 1. cbn [forward_loop].
  destruct (event_end pending x) as [n|] eqn:He; [|done].
  destruct (forward_event _ _ _ _ _) as [[[] w1] s1]; [|done].
  apply event_end_bounds in He. apply forward_events_fuel. rewrite length_drop. lia.
Qed.

(** What arrives later is forwarded as if it had been there from the start. *)
Lemma forward_app pending more w s :
  let '(go, rest, w1, s1) := forward_events boxed chain pending false w s in
  if (go : bool)
  then forward_events boxed chain (pending ++ more) false w s
       = forward_events boxed chain (rest ++ more) false w1 s1
  else ∃ rest', forward_events boxed chain (pending ++ more) false w s = (false, rest', w1, s1).
Proof using.
  remember (length pending) as n eqn:Hn. revert pending w s Hn.
  induction (lt_wf n) as [n _ IH]; intros pending w s Hn.
  rewrite forward_events_step. destruct (event_end pending false) as [m|] eqn:He; [|done].
  rewrite (forward_events_step (pending ++ more)), (event_end_app _ more false _ He).
  apply event_end_bounds in He as [Hm Hle].
  rewrite take_app_le, drop_app_le by done.
  destruct (forward_event _ _ _ _ _) as [[[] w1] s1]; [|eauto].
  apply (IH (length (drop m pending))); [rewrite length_drop; lia|done].
Qed.

Lemma pump_join a b body pending w s :
  pump boxed chain (FData a :: FData b :: body) pending w s
  = pump boxed chain (FData (a ++ b) :: body) pending w s.
Proof using.
  cbn [pump]. rewrite (app_assoc pending). pose proof (forward_app (pending ++ a) b w s) as Hf.
  destruct (forward_events boxed chain (pending ++ a) false w s) as [[[[] rest] w1] s1].
  - by rewrite Hf.
  - by destruct Hf as [rest' ->].
Qed.

Lemma pump_joins chunks a body pending w s :
  pump boxed chain (FData a :: map FData chunks ++ body) pending w s
  = pump boxed chain (FData (a ++ concat chunks) :: body) pending w s.
Proof using.
  revert a. induction chunks as [|c chunks IH]; intros a; cbn [map app concat].
  - by rewrite app_nil_r.
  - by rewrite pump_join, IH, <-app_assoc.
Qed.

(** C31: how a streamed answer is cut into frames on its way makes no difference: the events
    the chunk chain is given, what it does to its own state and everything the caller is sent
    are those of the same bytes arriving at once, whatever follows them. *)
Theorem chunking_irrelevant (chunks : list (list Z)) (body : list (frame T E)) (w : W)
    (s : Sender T E) :
  pump boxed chain (map FData chunks ++ body) [] w s
  = pump boxed chain (FData (concat chunks) :: body) [] w s.
Proof using.
  destruct chunks as [|a chunks]; [done|]. apply pump_joins.
Qed.
End stream_ok.

(** ** Bytes are neither lost nor moved *)

Section passthrough.
Context {W T E : Type} (boxed : ProcessorError → E) (chain : list (processor W)).
Implicit Types (w : W) (s : Sender T E).

(** The bytes of the data frames sent, in the order they were sent. *)
Definition data_of (f : frame T E) : list Z := match f with FData d => d | _ => [] end.
Definition delivered (s : Sender T E) : list Z := sent s ≫= data_of.

(** A processor that hands on what it is given. *)
Definition untouching (p : processor W) : Prop := ∀ event w, (p event w).1 = Ok event.

Lemma run_from_untouched c event w : Forall untouching c → (run_from c event w).1 = Ok event.
Proof using.
  intros Hc. revert w. induction Hc as [|p c Hp _ IH]; intros w; [done|].
  cbn [run_from]. pose proof (Hp event w) as Hpe. destruct (p event w) as [r w1].
  cbn in Hpe. subst r. apply IH.
Qed.

Context (Hchain : Forall untouching chain).

Lemma send_patient f s :
  patience s = None → send f s = (true, MkSender (sent s ++ [f]) None).
Proof using. intros Hp. unfold send. by rewrite Hp. Qed.

Lemma forward_untouched pending x w s :
  patience s = None →
  let '(go, rest, w', s') := forward_events boxed chain pending x w s in
  go = true ∧ patience s' = None ∧ delivered s' ++ rest = delivered s ++ pending.
Proof using Hchain.
  remember (length pending) as n eqn:Hn. revert pending w s Hn.
  induction (lt_wf n) as [n _ IH]; intros pending w s Hn Hp.
  rewrite forward_events_step. destruct (event_end pending x) as [m|] eqn:He; [|done].
  apply event_end_bounds in He. unfold forward_event.
  pose proof (run_from_untouched chain (take m pending) w Hchain) as Hr. unfold run_chain.
  destruct (run_from chain (take m pending) w) as [r w1]. cbn in Hr. subst r.
  rewrite send_patient by done.
  specialize (IH (length (drop m pending)) ltac:(rewrite length_drop; lia) (drop m pending) w1
    (MkSender (sent s ++ [FData (take m pending)]) None) eq_refl eq_refl).
  destruct (forward_events _ _ _ _ _ _) as [[[go rest] w2] s2]. destruct IH as (-> & ? & ->).
  split; [done|]. split; [done|]. unfold delivered. cbn [sent]. rewrite bind_app.
  cbn. by rewrite app_nil_r, <-app_assoc, take_drop.
Qed.

Lemma pump_untouched chunks pending w s :
  patience s = None →
  delivered (pump boxed chain (map FData chunks) pending w s).2
  = delivered s ++ pending ++ concat chunks.
Proof using Hchain.
  revert pending w s. induction chunks as [|c chunks IH]; intros pending w s Hp; cbn [map pump concat].
  - pose proof (forward_untouched pending true w s Hp) as Hf.
    destruct (forward_events _ _ _ _ _ _) as [[[go rest] w1] s1]. destruct Hf as (-> & Hp1 & Hd).
    rewrite app_nil_r, <-Hd. cbn [snd]. unfold flush. destruct rest as [|b rest]; [by rewrite app_nil_r|].
    rewrite send_patient by done. unfold delivered. cbn [snd sent]. rewrite bind_app. cbn.
    by rewrite app_nil_r.
  - pose proof (forward_untouched (pending ++ c) false w s Hp) as Hf.
    destruct (forward_events _ _ _ _ _ _) as [[[go rest] w1] s1]. destruct Hf as (-> & Hp1 & Hd).
    rewrite IH by done. by rewrite (app_assoc (delivered s1)), Hd, <-!app_assoc.
Qed.
End passthrough.

(** A stream whose chunk plugins hand on what they are given reaches the caller byte for
    byte: every byte of every frame, none twice, in the order they came, the unfinished event
    at the end included. *)
Theorem stream_passthrough {W T E : Type} (boxed : ProcessorError → E) (chain : list (processor W))
    (chunks : list (list Z)) (w : W) :
  Forall untouching chain →
  delivered (pump boxed chain (map FData chunks) [] w (@MkSender T E [] None)).2 = concat chunks.
Proof. intros Hc. by rewrite pump_untouched. Qed.

(** ** The error event *)

Definition plain (b : Z) : Prop := b ≠ LF ∧ b ≠ CR.

Lemma ending_plain b at_ x v : b !! at_ = Some v → plain v → ending_at b at_ x = NoEnding.
Proof.
  intros Hv [Hl Hc]. unfold ending_at. rewrite Hv.
  replace (v =? LF) with false by lia. by replace (v =? CR) with false by lia.
Qed.

Lemma ending_lf b at_ x : b !! at_ = Some LF → ending_at b at_ x = Line 1.
Proof. intros Hv. unfold ending_at. by rewrite Hv. Qed.

(** A stretch that ends no line is stepped over. *)
Lemma scan_plain l pre r fuel x :
  Forall plain l →
  scan (length l + fuel) (pre ++ l ++ r) (length pre) x
  = scan fuel (pre ++ l ++ r) (length pre + length l) x.
Proof.
  revert pre. induction l as [|b l IH]; intros pre Hl; cbn [length Nat.add].
  { by rewrite Nat.add_0_r. }
  apply Forall_cons in Hl as [Hb Hl]. cbn [scan].
  replace (Nat.ltb _ _) with true
    by (symmetry; apply Nat.ltb_lt; rewrite !length_app; cbn; lia).
  rewrite (ending_plain _ _ _ b) by (done || by rewrite lookup_app_r, Nat.sub_diag).
  specialize (IH (pre ++ [b]) Hl). rewrite <-!app_assoc, !length_app in IH. cbn in IH.
  change ((b :: l) ++ r) with (b :: l ++ r). rewrite IH. f_equal. lia.
Qed.

(** Lines, each with its line feed. *)
Definition unlines (ls : list (list Z)) : list Z := ls ≫= λ l, l ++ [LF].

Lemma scan_unlines ls pre fuel x :
  ls ≠ [] → Forall (λ l, l ≠ [] ∧ Forall plain l) ls →
  (length (unlines ls) ≤ fuel)%nat →
  scan fuel (pre ++ unlines ls ++ [LF]) (length pre) x
  = Some (length pre + length (unlines ls) + 1)%nat.
Proof.
  revert pre fuel. induction ls as [|l ls IH]; intros pre fuel Hne Hls Hf; [done|].
  apply Forall_cons in Hls as [[Hl0 Hl] Hls]. unfold unlines in Hf |- *.
  rewrite bind_cons in Hf |- *. fold (unlines ls) in Hf |- *. rewrite !length_app in Hf. cbn [length] in Hf.
  rewrite <-!app_assoc. replace fuel with (length l + S (fuel - S (length l)))%nat by lia.
  rewrite scan_plain by done. cbn [scan].
  set (b := pre ++ l ++ [LF] ++ unlines ls ++ [LF]).
  assert (b !! (length pre + length l)%nat = Some LF) as Hlf.
  { unfold b. rewrite lookup_app_r, lookup_app_r by lia.
    by replace (length pre + length l - length pre - length l)%nat with O by lia. }
  replace (Nat.ltb _ _) with true by (symmetry; apply Nat.ltb_lt; by eapply lookup_lt_Some).
  rewrite (ending_lf _ _ _ Hlf). destruct ls as [|l' ls].
  - rewrite (ending_lf b); [cbn; rewrite !length_app; cbn; f_equal; lia|].
    unfold b. rewrite lookup_app_r, lookup_app_r by lia.
    by replace (length pre + length l + 1 - length pre - length l)%nat with 1%nat by lia.
  - apply Forall_cons in Hls as Hls'. destruct Hls' as [[Hl0' Hl'] _].
    destruct l' as [|v l']; [done|]. apply Forall_cons in Hl' as [Hv _].
    rewrite (ending_plain b _ _ v); [|unfold b|done].
    + specialize (IH (pre ++ l ++ [LF]) (fuel - S (length l))%nat ltac:(done) Hls ltac:(lia)).
      assert (length (pre ++ l ++ [LF]) = length pre + length l + 1)%nat as Hlen
        by (rewrite !length_app; cbn [length]; lia).
      rewrite Hlen, <-!app_assoc in IH. fold b in IH. rewrite IH. f_equal.
      rewrite !length_app. cbn [length]. lia.
    + rewrite lookup_app_r, lookup_app_r by lia.
      by replace (length pre + length l + 1 - length pre - length l)%nat with 1%nat by lia.
Qed.

Lemma utf8_plain c : plain c → Forall plain (utf8_char c).
Proof.
  intros [Hl Hc]. unfold utf8_char, plain, LF, CR in *.
  pose proof (Z.mod_pos_bound c 64). pose proof (Z.mod_pos_bound (c / 64) 64).
  pose proof (Z.mod_pos_bound (c / 4096) 64).
  destruct (c <? 128) eqn:Hsmall; [repeat constructor; lia|].
  assert (0 ≤ c / 64 ∧ 0 ≤ c / 4096 ∧ 0 ≤ c / 262144) as (? & ? & ?)
    by (split_and!; apply Z.div_pos; lia).
  destruct (c <? 2048); [repeat constructor; lia|].
  destruct (c <? 65536); repeat constructor; lia.
Qed.

Lemma as_bytes_plain s : Forall plain s → Forall plain (as_bytes s).
Proof.
  induction 1 as [|c s Hc _ IH]; [constructor|]. unfold as_bytes. rewrite bind_cons.
  apply Forall_app. split; [by apply utf8_plain|done].
Qed.

Lemma as_bytes_lines (f : str → str) (ls : list str) :
  as_bytes (ls ≫= λ l, f l ++ [LF]) = unlines (map (as_bytes ∘ f) ls).
Proof.
  unfold unlines. induction ls as [|l ls IH]; [done|]. rewrite bind_cons. cbn [map].
  rewrite bind_cons, !as_bytes_app, IH. done.
Qed.

(** Whatever a plugin gives as its reason, line breaks of every kind included, the event
    that tells the caller of it is one event: it ends where the whole of it ends and nowhere
    before, so no reason adds an event of its own to the stream. *)
Theorem error_event_framed (reason : str) (at_end : bool) :
  event_end (error_event reason) at_end = Some (length (error_event reason)).
Proof.
  unfold error_event. set (p := λ c : Z, _). set (lines := split_on p _).
  assert (as_bytes (#"event: error" ++ [LF] ++ (lines ≫= λ line, #"data: " ++ line ++ [LF]) ++ [LF])
    = [] ++ unlines (as_bytes #"event: error" :: map (as_bytes ∘ app #"data: ") lines) ++ [LF]) as ->.
  { rewrite app_nil_l. unfold unlines at 1. rewrite bind_cons. fold (unlines (map (as_bytes ∘ app #"data: ") lines)).
    rewrite <-as_bytes_lines, !as_bytes_app, <-!app_assoc. do 3 f_equal. }
  unfold event_end. rewrite scan_unlines; [..|rewrite !length_app; cbn [length]; lia].
  - f_equal. rewrite !length_app. cbn [length]. lia.
  - done.
  - constructor; [split; [done|by_computation]|]. apply Forall_map.
    eapply Forall_impl; [apply split_on_pieces|]. intros line Hline. unfold compose. split.
    + intros Hnil. apply (f_equal length) in Hnil. rewrite as_bytes_app, length_app in Hnil. done.
    + apply as_bytes_plain, Forall_app. split; [by_computation|].
      eapply Forall_impl; [exact Hline|]. intros c Hc. unfold p in Hc. unfold plain. lia.
Qed.

(** ** Sample values *)
Module SseSample.
(** A processor that counts the events it hands on. *)
Definition recorder : processor nat := λ event w, (Ok event, S w).

Lemma stream_passthrough_witness :
  delivered (pump (λ _, tt) [recorder] (map FData [ #"data: a"; [10; 10; 98]; [13]]) [] 0%nat
    (@MkSender unit unit [] None)).2 = #"data: a" ++ [10; 10; 98; 13].
Proof.
  rewrite (stream_passthrough (λ _, tt) [recorder] [ #"data: a"; [10; 10; 98]; [13]] 0%nat).
  - reflexivity.
  - repeat constructor.
Defined.
End SseSample.
