(* ===== verification/RespCache.v ===== *)
(** * RespCache: the cache a repeated request is answered from

    Models [crates/ip-gateway/src/cache.rs] over the class [Cache].  A [HeaderValue] is bytes
    that [http] accepts as one, which is the class [HeaderText]; [freshness] is given the two
    headers it reads as the crates hand them over, the text of [Cache-Control] and the moment
    [httpdate] reads in [Expires].  A [Duration] and a [SystemTime] are nanoseconds. *)
From S2P Require Import Prelude Text Ident Key Route Cache Sled CacheTrait.

Class HeaderText : Type := {
  (** Whether [HeaderValue::from_bytes] takes the bytes. *)
  header_bytes : list Z → bool
}.

Definition TYPE_LEN : nat := 2.

(** ** Naming a response *)

Section response_key.
Context `{Crypto}.

(** One part, behind its length. *)
Definition framed (part : list Z) : list Z := be_bytes 8 (Z.of_nat (length part)) ++ part.

(** Everything the hasher is fed. *)
Definition response_message (route : RouteKey) (tenant : TenantId) (body : list Z) : list Z :=
  [as_bytes (show_endpoint (key_endpoint route)); as_bytes (val tenant); body] ≫= framed.

Definition response_key (route : RouteKey) (tenant : TenantId) (body : list Z)
    : result CacheError CacheKey :=
  new_cache_key Response (hex_encode (val (sha256 (response_message route tenant body)))).
End response_key.

(** ** Freshness *)

Inductive Freshness : Type := For (ttl : Ttl) | Unsaid | Never.
#[export] Instance Freshness_eq_dec : EqDecision Freshness.
Proof. solve_decision. Defined.

Definition span (nanos : Z) : Freshness :=
  match new_ttl nanos with Ok ttl => For ttl | Err _ => Never end.

Definition keeps_nothing (directive : str) : bool :=
  bool_decide (directive ∈ [ #"no-store"; #"no-cache"; #"private"]).

(** [find_map] of a prefix. *)
Fixpoint find_stripped (prefix : str) (l : list str) : option str :=
  match l with
  | [] => None
  | x :: l => match strip_prefix prefix x with Some y => Some y | None => find_stripped prefix l end
  end.

(** What is left once [Cache-Control] has said nothing. *)
Definition by_expires (expires : option Z) (now : Z) : Freshness :=
  match expires with
  | None => Unsaid
  | Some expires => if now <=? expires then span (expires - now) else Never
  end.

Definition freshness (control : option str) (expires : option Z) (now : Z) : Freshness :=
  match control with
  | Some control =>
      let directives := map trim (split_on (Z.eqb (ch ",")) control) in
      if existsb keeps_nothing directives then Never
      else
        match find_stripped #"max-age=" directives with
        | Some seconds =>
            match parse_unsigned u64_max (trim seconds) with
            | Some 0 => Never
            | Some seconds => span (seconds * 10 ^ 9)
            | None => Unsaid
            end
        | None => by_expires expires now
        end
  | None => by_expires expires now
  end.

(** ** Entries *)

Section entries.
Context `{HeaderText}.

Definition check_header (b : list Z) : result unit unit :=
  if header_bytes b then Ok tt else Err tt.
Definition HeaderValue : Type := refined check_header.

Record CachedResponse : Type := MkCached {
  content_type : option HeaderValue;
  cached_body : list Z
}.

Definition encode_response (r : CachedResponse) : list Z :=
  let content_type :=
    match content_type r with
    | Some value => if u16_max <? Z.of_nat (length (val value)) then [] else val value
    | None => []
    end in
  let len := default 0 (try_unsigned u16_max (Z.of_nat (length content_type))) in
  be_bytes TYPE_LEN len ++ content_type ++ cached_body r.

(** [split_at_checked]. *)
Definition split_at_checked (n : nat) (l : list Z) : option (list Z * list Z) :=
  if Nat.leb n (length l) then Some (take n l, drop n l) else None.

Definition decode_response (entry : list Z) : option CachedResponse :=
  '(len, rest) ← split_at_checked TYPE_LEN entry;
  '(type, body) ← split_at_checked (Z.to_nat (of_be_bytes len)) rest;
  match type with
  | [] => Some (MkCached None body)
  | _ => value ← ok (refine check_header type); Some (MkCached (Some value) body)
  end.

(** [ResponseCache::get] and [put]. *)
Context {St : Type} `{!Cache St}.

Definition response_get (k : CacheKey) (now : Z) (s : St)
    : result CacheError (option CachedResponse) * St :=
  let '(r, s) := k_get k now s in
  (o ← r; Ok (o ≫= decode_response), s).

Definition response_put (k : CacheKey) (r : CachedResponse) (ttl : Ttl) (now : Z) (s : St)
    : result CacheError unit * St :=
  k_put k (encode_response r) (Some ttl) now s.

(** ** Lemmas *)

(** What an entry keeps of a content type: all of it, unless it is empty or its length does
    not fit the field. *)
Definition kept_type (o : option HeaderValue) : option HeaderValue :=
  match o with
  | Some value =>
      if (0 <? Z.of_nat (length (val value))) && (Z.of_nat (length (val value)) <=? u16_max)
      then Some value else None
  | None => None
  end.

Lemma split_at_app a b n : length a = n → split_at_checked n (a ++ b) = Some (a, b).
Proof using.
  intros <-. unfold split_at_checked. rewrite length_app.
  replace (Nat.leb _ _) with true by (symmetry; apply Nat.leb_le; lia).
  by rewrite take_app_length, drop_app_length.
Qed.

Lemma decode_framed type body :
  Z.of_nat (length type) ≤ u16_max →
  decode_response (be_bytes TYPE_LEN (Z.of_nat (length type)) ++ type ++ body)
  = match type with
    | [] => Some (MkCached None body)
    | _ => value ← ok (refine check_header type); Some (MkCached (Some value) body)
    end.
Proof using.
  intros Hlen. unfold decode_response. rewrite split_at_app by apply be_bytes_length.
  cbn [mbind option_bind]. rewrite of_be_bytes_be_bytes, Z.mod_small.
  - rewrite Nat2Z.id, split_at_app by done. done.
  - unfold u16_max in Hlen. change (256 ^ Z.of_nat TYPE_LEN) with (2 ^ 16). lia.
Qed.

(** An entry reads back as the response it was written from. *)
Lemma decode_response_encode r :
  decode_response (encode_response r) = Some (MkCached (kept_type (content_type r)) (cached_body r)).
Proof using.
  destruct r as [o body]. unfold encode_response, kept_type. cbn [content_type cached_body].
  assert (∀ type : list Z, Z.of_nat (length type) ≤ u16_max →
    default 0 (try_unsigned u16_max (Z.of_nat (length type))) = Z.of_nat (length type)) as Hfit.
  { intros type Ht. unfold try_unsigned. replace (0 <=? _) with true by lia.
    by replace (_ <=? u16_max) with true by lia. }
  destruct o as [value|]; [|by rewrite Hfit, decode_framed].
  destruct (u16_max <? Z.of_nat (length (val value))) eqn:Hlong.
  - replace (_ <=? u16_max) with false by lia. rewrite andb_false_r. by rewrite Hfit, decode_framed.
  - replace (_ <=? u16_max) with true by lia. rewrite andb_true_r, Hfit, decode_framed by lia.
    destruct (val value) as [|b l] eqn:Hv; [done|]. change (0 <? Z.of_nat (length (b :: l))) with true.
    rewrite <-Hv, refine_val. done.
Qed.

(** ** Properties *)

(** An answer kept for a request is the answer a repeat of it gets, body and content type
    as they were (a content type too long for its length field, or empty, left out), until its
    span is over, and from then on there is none. *)
Theorem response_kept (k : CacheKey) (r : CachedResponse) (ttl : Ttl) (now t : Z) (s s1 s2 : St)
    (o : option CachedResponse) :
  cache_ok s → 0 ≤ now ≤ t → response_put k r ttl now s = (Ok tt, s1) →
  response_get k t s1 = (Ok o, s2) →
  (t < expiry now (Some ttl) → o = Some (MkCached (kept_type (content_type r)) (cached_body r))) ∧
  (expiry now (Some ttl) < t → o = None).
Proof using.
  intros Hs Hn Hput Hget. apply k_put_ok in Hput as [Hs1 Hh]; [|done|lia].
  unfold response_get in Hget. destruct (k_get k t s1) as [[v|] s'] eqn:Hg; [|done].
  apply k_get_ok in Hg as (-> & _); [|done|lia]. injection Hget as <- _.
  rewrite Hh, decide_True by (done || lia). pose proof (stays_over now ttl t) as Hover.
  split; intros Ht.
  - rewrite stays_until by done. apply decode_response_encode.
  - destruct (stays now (Some ttl) t); [|done]. specialize (Hover eq_refl). lia.
Qed.
End entries.

Section naming.
Context `{Crypto}.

Lemma framed_inj a b a' b' :
  Z.of_nat (length a) ≤ u64_max → Z.of_nat (length a') ≤ u64_max →
  framed a ++ b = framed a' ++ b' → a = a' ∧ b = b'.
Proof using.
  intros Ha Ha' E. unfold framed in E. rewrite <-!app_assoc in E.
  apply app_inj_1 in E as [El E]; [|by rewrite !be_bytes_length].
  apply (f_equal of_be_bytes) in El. rewrite !be_bytes_8 in El by (unfold_bounds; lia).
  apply app_inj_1 in E as [-> ->]; [done|lia].
Qed.

Lemma tenant_short (t : TenantId) : Z.of_nat (length (as_bytes (val t))) ≤ u64_max.
Proof using.
  rewrite as_bytes_length.
  assert (len (val t) ≤ ID_MAX_BYTES) as Hlen by apply (validate_id_ok "tenant id"), val_checked.
  etransitivity; [exact Hlen|done].
Qed.

Lemma response_key_new (r : RouteKey) (t : TenantId) (body : list Z) :
  response_key r t body
  = Ok (MkCacheKey (#"ip:resp:" ++ hex_encode (val (sha256 (response_message r t body)))) Response).
Proof using.
  unfold response_key. rewrite new_cache_key_graphic; [done|..].
  - intros Hnil. pose proof (hex_encode_len (val (sha256 (response_message r t body)))) as Hl.
    rewrite Hnil, bytes_length in Hl. done.
  - eapply Forall_impl; [apply hex_encode_chars|]. intros c Hc. apply id_char_graphic.
    unfold id_char. by rewrite Hc.
Qed.

Lemma hex_encode_inj {n} (a b : bytes n) : hex_encode (val a) = hex_encode (val b) → a = b.
Proof using.
  intros E. apply (inj val). apply (inj Some). rewrite <-!hex_decode_encode by apply bytes_u8.
  by rewrite E.
Qed.

(** Two requests are answered from one entry only when they are the same tenant asking the
    same route the same thing, or else their two framed messages are a collision of sha256:
    no bytes of one part can pass for bytes of the next.  The key can always be built. *)
Theorem response_key_isolates (route route' : RouteKey) (tenant tenant' : TenantId)
    (body body' : list Z) :
  let text r := as_bytes (show_endpoint (key_endpoint r)) in
  Forall (λ part, Z.of_nat (length part) ≤ u64_max) [text route; text route'; body; body'] →
  ∃ k k', response_key route tenant body = Ok k ∧ response_key route' tenant' body' = Ok k' ∧
    (k = k' →
      (text route = text route' ∧ tenant = tenant' ∧ body = body') ∨
      (response_message route tenant body ≠ response_message route' tenant' body' ∧
       sha256 (response_message route tenant body)
       = sha256 (response_message route' tenant' body'))).
Proof using.
  intros text Hlens. rewrite !response_key_new. do 2 eexists. split; [done|]. split; [done|].
  intros E. apply (f_equal ck_key), app_inv_head in E. cbn in E. apply hex_encode_inj in E.
  destruct (decide (response_message route tenant body = response_message route' tenant' body'))
    as [Em|]; [left|by right].
  rewrite !Forall_cons in Hlens. destruct Hlens as (Hr & Hr' & Hb & Hb' & _).
  unfold response_message in Em. rewrite !bind_cons in Em.
  apply framed_inj in Em as [Et Em]; [|done..].
  apply framed_inj in Em as [En Em]; [|apply tenant_short..].
  apply framed_inj in Em as [Eb _]; [|done..].
  split; [done|]. split; [|done]. rewrite !as_bytes_ascii in En by apply ident_ascii.
  by apply (inj val).
Qed.
End naming.

(** A directive written in another case than the code spells it is not recognised: an answer
    whose [Cache-Control] says [No-Store], which http reads as [no-store], is kept for the span
    named beside it. *)
Theorem no_store_case_kept :
  freshness (Some #"No-Store, max-age=60") None 0
  = For (MkRefined (check := check_span) (60 * 10 ^ 9) eq_refl).
Proof. by_computation. Qed.

(** ** Sample values *)
Module RespSample.
Import SampleCrypto Route.Sample.
#[export] Existing Instance Memory.sled.
#[export] Instance cache : Cache View := sled_cache 0.
(** Printable ascii. *)
#[export] Instance header_text : HeaderText := {| header_bytes := forallb is_ascii_graphic |}.

Definition json : HeaderValue := MkRefined (check := check_header) #"application/json" eq_refl.
Definition answer : CachedResponse := MkCached (Some json) [1; 2; 3].
Definition kept : View := (response_put Memory.resp_key answer Memory.minute 1000 empty_view).2.

Lemma response_kept_witness :
  (response_get Memory.resp_key 2000 kept).1 = Ok (Some (MkCached (kept_type (Some json)) [1; 2; 3])).
Proof.
  destruct (response_get Memory.resp_key 2000 kept) as [[o|e] s2] eqn:Hg;
    [|exfalso; revert Hg; vm_compute; discriminate].
  destruct (response_kept Memory.resp_key answer Memory.minute 1000 2000 empty_view kept s2 o) as [Ho _].
  - exact I.
  - lia.
  - reflexivity.
  - exact Hg.
  - rewrite Ho; [reflexivity|]. vm_compute. reflexivity.
Defined.

Definition acme : TenantId := MkRefined (check := validate_id "tenant id") #"acme" eq_refl.
Definition globex : TenantId := MkRefined (check := validate_id "tenant id") #"globex" eq_refl.
Definition route : RouteKey := MkRouteKey endpoint_a.

Lemma response_key_isolates_witness :
  ∃ k k', response_key route acme [1] = Ok k ∧ response_key route globex [1] = Ok k' ∧
    (k = k' →
      (as_bytes (show_endpoint endpoint_a) = as_bytes (show_endpoint endpoint_a) ∧
       acme = globex ∧ [1] = [1]) ∨
      (response_message route acme [1] ≠ response_message route globex [1] ∧
       sha256 (response_message route acme [1]) = sha256 (response_message route globex [1]))).
Proof.
  apply (response_key_isolates route route acme globex [1] [1]).
  by_computation.
Defined.
End RespSample.
