(* ===== verification/Chains.v ===== *)
(** * Chains: which plugins one request runs

    Models the chains of [crates/ip-gateway/src/processor.rs] and
    [crates/ip-plugin/src/chains.rs].  A processor is the plugin it runs and its order, which
    is all the chains look at; reading the plugin store and compiling wasm are arguments. *)
From S2P Require Import Prelude Text Ident Key Capability LimitCore PluginCore Account.
From S2P Require Import Auth.

(** ** processor.rs *)

Record Processor : Type := MkProcessor { runs : Checksum; order : PluginOrder }.
#[export] Instance Processor_eq_dec : EqDecision Processor.
Proof. solve_decision. Defined.

Record ProcessorChain : Type := MkChain {
  request_headers : list Processor;
  request_body : list Processor;
  response_headers : list Processor;
  response_body : list Processor;
  response_chunk : list Processor
}.

Definition empty_chain : ProcessorChain := MkChain [] [] [] [] [].

(** [sort_by_key] on the order reversed. *)
Definition runs_before (a b : Processor) : bool := val (order b) <=? val (order a).
(** [insert_header] and [insert_body]: pushed, then sorted stably. *)
Definition insert_processor (chain : list Processor) (p : Processor) : list Processor :=
  sort_by runs_before (chain ++ [p]).

Definition with_request_header (c : ProcessorChain) (p : Processor) : ProcessorChain :=
  MkChain (insert_processor (request_headers c) p) (request_body c) (response_headers c)
    (response_body c) (response_chunk c).
Definition with_request_body (c : ProcessorChain) (p : Processor) : ProcessorChain :=
  MkChain (request_headers c) (insert_processor (request_body c) p) (response_headers c)
    (response_body c) (response_chunk c).
Definition with_response_header (c : ProcessorChain) (p : Processor) : ProcessorChain :=
  MkChain (request_headers c) (request_body c) (insert_processor (response_headers c) p)
    (response_body c) (response_chunk c).
Definition with_response_body (c : ProcessorChain) (p : Processor) : ProcessorChain :=
  MkChain (request_headers c) (request_body c) (response_headers c)
    (insert_processor (response_body c) p) (response_chunk c).
Definition with_response_chunk (c : ProcessorChain) (p : Processor) : ProcessorChain :=
  MkChain (request_headers c) (request_body c) (response_headers c) (response_body c)
    (insert_processor (response_chunk c) p).

(** The chain a kind of plugin joins. *)
Definition chain_of (k : PluginKind) (c : ProcessorChain) : list Processor :=
  match k with
  | ReqHeader => request_headers c
  | ReqBody => request_body c
  | RespHeader => response_headers c
  | RespBody => response_body c
  | RespChunk => response_chunk c
  end.

(** ** chains.rs *)

(** [Placed::new]: the slot is the one of the rule's kind. *)
Record Placed : Type := MkPlaced { placed_rule : PluginRule; placed_slot : Processor }.
#[export] Instance Placed_eq_dec : EqDecision Placed.
Proof. solve_decision. Defined.
Definition new_placed (r : PluginRule) : Placed :=
  MkPlaced r (MkProcessor (rule_checksum r) (rule_order r)).

Definition join (p : Placed) (chain : ProcessorChain) : ProcessorChain :=
  match rule_kind (placed_rule p) with
  | ReqHeader => with_request_header chain (placed_slot p)
  | ReqBody => with_request_body chain (placed_slot p)
  | RespHeader => with_response_header chain (placed_slot p)
  | RespBody => with_response_body chain (placed_slot p)
  | RespChunk => with_response_chunk chain (placed_slot p)
  end.

Record PluginChains : Type := MkPluginChains {
  global_placed : list Placed;
  tenant_placed : gmap TenantId (list Placed)
}.
#[export] Instance PluginChains_eq_dec : EqDecision PluginChains.
Proof. solve_decision. Defined.

Inductive ChainError : Type :=
  | ChainStorage (e : StorageError)
  | GlobalPlugin (checksum : Checksum) (detail : str).
#[export] Instance ChainError_eq_dec : EqDecision ChainError.
Proof. solve_decision. Defined.

(** The [BTreeMap] the rules are gathered in: its keys in order, each with its rules. *)
Definition by_plugin (rules : list PluginRule) : list (Checksum * list PluginRule) :=
  map (λ c, (c, filter (λ r, rule_checksum r = c) rules))
    (sort_by (λ a b, lex_leb (val a) (val b)) (remove_dups (map rule_checksum rules))).

Section chains.
Context (store_plugin : Checksum → result StorageError (option (list Z))).
(** Why [PluginHost::load] refuses some wasm under a checksum, if it does. *)
Context (host_load : Checksum → list Z → option str).

Definition load_failure (c : Checksum) : result ChainError (option str) :=
  plugin ← map_err ChainStorage (store_plugin c);
  Ok (match plugin with
      | None => Some #"it is not in the plugin store"
      | Some wasm => host_load c wasm
      end).

(** One rule filed. *)
Definition file (chains : PluginChains) (r : PluginRule) : PluginChains :=
  let entry := new_placed r in
  match plugin_scope_tenant (rule_scope r) with
  | Some tenant =>
      MkPluginChains (global_placed chains)
        (<[tenant := default [] (tenant_placed chains !! tenant) ++ [entry]]> (tenant_placed chains))
  | None => MkPluginChains (global_placed chains ++ [entry]) (tenant_placed chains)
  end.

(** The loop over the plugins. *)
Fixpoint file_all (groups : list (Checksum * list PluginRule)) (chains : PluginChains)
    : result ChainError PluginChains :=
  match groups with
  | [] => Ok chains
  | (checksum, placed) :: groups =>
      failure ← load_failure checksum;
      match failure with
      | Some detail =>
          if existsb (λ r, bool_decide (rule_scope r = GlobalScope)) placed
          then Err (GlobalPlugin checksum detail)
          else file_all groups chains
      | None => file_all groups (fold_left file placed chains)
      end
  end.

Definition from_rules (rules : list PluginRule) : result ChainError PluginChains :=
  file_all (by_plugin rules) (MkPluginChains [] ∅).
End chains.

Definition chains_len (c : PluginChains) : nat :=
  (length (global_placed c) + sum_list (map (length ∘ snd) (map_to_list (tenant_placed c))))%nat.

Definition chains_for (c : PluginChains) (who : Identity) (api : ApiId) : ProcessorChain :=
  let tenant_rules := default [] (tenant_placed c !! who_tenant who) in
  fold_left (λ chain p, join p chain)
    (filter (λ p, applies_to (placed_rule p) (who_tenant who) (who_user who) api = true)
       (global_placed c ++ tenant_rules))
    empty_chain.

(** ** Lemmas *)

Lemma runs_before_trans a b c :
  runs_before a b = true → runs_before b c = true → runs_before a c = true.
Proof. unfold runs_before. lia. Qed.
Lemma runs_before_total a b : runs_before a b = true ∨ runs_before b a = true.
Proof. unfold runs_before. lia. Qed.

(** Highest order first. *)
Definition in_order (l : list Processor) : Prop :=
  StronglySorted (λ a b, val (order b) ≤ val (order a)) l.

Lemma insert_processor_ok l p : insert_processor l p ≡ₚ l ++ [p] ∧ in_order (insert_processor l p).
Proof.
  split; [apply sort_by_perm|].
  pose proof (sort_by_sorted runs_before runs_before_trans runs_before_total (l ++ [p])) as Hs.
  unfold in_order, insert_processor.
  induction Hs as [|a l' _ IH Ha]; constructor; [done|].
  eapply Forall_impl; [exact Ha|]. intros b. unfold runs_before. lia.
Qed.

Lemma join_chain p c k :
  chain_of k (join p c)
  = if decide (rule_kind (placed_rule p) = k) then insert_processor (chain_of k c) (placed_slot p)
    else chain_of k c.
Proof. unfold join. by destruct (rule_kind (placed_rule p)), k. Qed.

Lemma join_all ps c k :
  in_order (chain_of k c) →
  in_order (chain_of k (fold_left (λ chain p, join p chain) ps c)) ∧
  chain_of k (fold_left (λ chain p, join p chain) ps c)
  ≡ₚ chain_of k c ++ map placed_slot (filter (λ p, rule_kind (placed_rule p) = k) ps).
Proof.
  revert c. induction ps as [|p ps IH]; intros c Hc; cbn [fold_left].
  { by rewrite app_nil_r. }
  destruct (insert_processor_ok (chain_of k c) (placed_slot p)) as [Hperm Hsorted].
  destruct (IH (join p c)) as [Ho Hp]; [rewrite join_chain; by case_decide|].
  split; [done|]. rewrite Hp, join_chain, filter_cons. case_decide; [|done].
  rewrite Hperm. cbn [map]. by rewrite <-app_assoc.
Qed.

(** A list is its groups by a key, whatever order the keys come in. *)
Lemma groups_perm {A K} `{EqDecision K} (key : A → K) (P : A → Prop) `{∀ x, Decision (P x)} ks l :
  NoDup ks →
  (ks ≫= λ k, filter (λ x, P x ∧ key x = k) l) ≡ₚ filter (λ x, P x ∧ key x ∈ ks) l.
Proof.
  induction 1 as [|k ks Hk _ IH].
  { cbn. symmetry. rewrite filter_none; [done|]. apply Forall_forall. intros x _ [_ Hx]. set_solver. }
  rewrite bind_cons, IH. clear IH. induction l as [|x l IH]; [done|].
  rewrite !filter_cons. destruct (decide (P x)) as [HP|HP].
  - destruct (decide (key x = k)) as [<-|Hne].
    + rewrite (decide_True (P := P x ∧ key x = key x)) by done.
      rewrite (decide_False (P := P x ∧ key x ∈ ks)) by (by intros []).
      rewrite (decide_True (P := P x ∧ key x ∈ key x :: ks)) by (split; [done|by left]).
      cbn. by rewrite IH.
    + rewrite (decide_False (P := P x ∧ key x = k)) by (by intros []).
      destruct (decide (P x ∧ key x ∈ ks)) as [Hin|Hout].
      * rewrite (decide_True (P := P x ∧ key x ∈ k :: ks)) by set_solver.
        rewrite <-Permutation_middle. by rewrite IH.
      * rewrite (decide_False (P := P x ∧ key x ∈ k :: ks)) by set_solver. done.
  - rewrite !decide_False by (by intros []). done.
Qed.

Lemma filter_map_comm {A B} (f : A → B) (P : B → Prop) `{∀ x, Decision (P x)} l :
  filter P (map f l) = map f (filter (λ x, P (f x)) l).
Proof.
  induction l as [|x l IH]; [done|]. cbn [map]. rewrite !filter_cons.
  case_decide; cbn [map]; by rewrite IH.
Qed.

Lemma bind_map {A B C} (f : A → B) (g : B → list C) l : (map f l ≫= g) = (l ≫= λ x, g (f x)).
Proof. induction l as [|x l IH]; [done|]. cbn [map]. by rewrite !bind_cons, IH. Qed.

(** Every rule that could join a chain of a tenant's, as it was filed. *)
Definition in_force (c : PluginChains) (t : TenantId) : list Placed :=
  global_placed c ++ default [] (tenant_placed c !! t).

(** Whether a rule is global or a tenant's own. *)
Definition belongs (t : TenantId) (r : PluginRule) : Prop :=
  match plugin_scope_tenant (rule_scope r) with Some t' => t' = t | None => True end.
#[export] Instance belongs_dec t r : Decision (belongs t r).
Proof. unfold belongs. destruct (plugin_scope_tenant (rule_scope r)); apply _. Defined.

Lemma applies_belongs r t u a : applies_to r t u a = true → belongs t r.
Proof.
  unfold applies_to, belongs. destruct (rule_scope r) as [|t' ou oa]; [done|]. cbn.
  rewrite !andb_true_iff, bool_decide_eq_true. naive_solver.
Qed.

Lemma file_in_force c r t :
  in_force (file c r) t ≡ₚ in_force c t ++ map new_placed (filter (belongs t) [r]).
Proof.
  rewrite filter_cons. unfold in_force, file.
  destruct (plugin_scope_tenant (rule_scope r)) as [t'|] eqn:Hs; cbn [global_placed tenant_placed].
  - destruct (decide (t' = t)) as [->|Hne].
    + rewrite lookup_insert_eq, decide_True by (unfold belongs; by rewrite Hs).
      cbn. by rewrite <-app_assoc.
    + rewrite lookup_insert_ne, decide_False by (done || unfold belongs; by rewrite Hs).
      cbn. by rewrite app_nil_r.
  - rewrite decide_True by (unfold belongs; by rewrite Hs). cbn. rewrite <-!app_assoc.
    by rewrite (Permutation_app_comm [_]).
Qed.

Lemma file_list_in_force rs c t :
  in_force (fold_left file rs c) t ≡ₚ in_force c t ++ map new_placed (filter (belongs t) rs).
Proof.
  revert c. induction rs as [|r rs IH]; intros c; cbn [fold_left]; [by rewrite app_nil_r|].
  rewrite IH, file_in_force. rewrite <-app_assoc, <-map_app.
  by rewrite (filter_app (belongs t) [r] rs : filter (belongs t) (r :: rs) = _).
Qed.

Section chains_ok.
Context (store_plugin : Checksum → result StorageError (option (list Z))).
Context (host_load : Checksum → list Z → option str).

(** A plugin is in the store and compiles. *)
Definition loads (c : Checksum) : bool :=
  match load_failure store_plugin host_load c with Ok None => true | _ => false end.

Lemma file_all_ok groups c c' t :
  file_all store_plugin host_load groups c = Ok c' →
  in_force c' t ≡ₚ in_force c t ++ map new_placed
    (groups ≫= λ g, if loads g.1 then filter (belongs t) g.2 else []) ∧
  ∀ g r, g ∈ groups → r ∈ g.2 → rule_scope r = GlobalScope → loads g.1 = true.
Proof using.
  revert c. induction groups as [|[ck placed] groups IH]; intros c; cbn [file_all].
  { intros [= <-]. cbn. rewrite app_nil_r. split; [done|]. set_solver. }
  intros (failure & Hl & Hr)%bind_ok. rewrite bind_cons. cbn [fst snd].
  assert (loads ck = match failure with None => true | Some _ => false end) as Hloads
    by (unfold loads; rewrite Hl; by destruct failure).
  destruct failure as [detail|]; rewrite Hloads.
  - destruct (existsb _ placed) eqn:Hg; [done|]. apply IH in Hr as [Hp Hall].
    split; [done|]. intros g r [->|Hin]%elem_of_cons; [|by apply Hall].
    cbn. intros Hr Hs. rewrite <-not_true_iff_false, existsb_exists in Hg. destruct Hg.
    exists r. split; [by apply list_elem_of_In|]. by apply bool_decide_eq_true.
  - apply IH in Hr as [Hp Hall]. split.
    + rewrite Hp, file_list_in_force, map_app. by rewrite <-app_assoc.
    + intros g r [->|Hin]%elem_of_cons; [done|by apply Hall].
Qed.

(** One plugin's rules, kept or left out together. *)
Lemma group_kept rules t k :
  (if loads k then filter (belongs t) (filter (λ r, rule_checksum r = k) rules) else [])
  = filter (λ r, (belongs t r ∧ loads (rule_checksum r) = true) ∧ rule_checksum r = k) rules.
Proof using.
  destruct (loads k) eqn:Hl.
  - rewrite list_filter_filter. apply filter_ext_in. intros r _. naive_solver.
  - symmetry. apply filter_none, Forall_forall. intros r _ [[_ Hr] <-]. by rewrite Hl in Hr.
Qed.

Lemma plugins_of_rules rules :
  let ks := sort_by (λ a b, lex_leb (val a) (val b)) (remove_dups (map rule_checksum rules)) in
  NoDup ks ∧ ∀ r, r ∈ rules → rule_checksum r ∈ ks.
Proof using.
  cbn zeta. split.
  - rewrite sort_by_perm. apply NoDup_remove_dups.
  - intros r Hr. rewrite elem_of_sort_by, elem_of_remove_dups. by apply list_elem_of_fmap_2.
Qed.

Lemma from_rules_ok rules c t :
  from_rules store_plugin host_load rules = Ok c →
  in_force c t ≡ₚ map new_placed
    (filter (λ r, belongs t r ∧ loads (rule_checksum r) = true) rules) ∧
  ∀ r, r ∈ rules → rule_scope r = GlobalScope → loads (rule_checksum r) = true.
Proof using.
  unfold from_rules, by_plugin. destruct (plugins_of_rules rules) as [Hnd Hin].
  set (ks := sort_by _ _) in *. intros [Hp Hglobal]%(λ H, file_all_ok _ _ _ t H).
  split.
  - rewrite Hp. change (in_force (MkPluginChains [] ∅) t) with (@nil Placed). rewrite app_nil_l.
    apply Permutation_map.
    transitivity (ks ≫= λ k, filter
      (λ r, (belongs t r ∧ loads (rule_checksum r) = true) ∧ rule_checksum r = k) rules).
    + rewrite bind_map. cbn [fst snd]. apply reflexive_eq, list_bind_ext; [|done].
      intros k. apply group_kept.
    + rewrite groups_perm by done. apply reflexive_eq, filter_ext_in. intros r Hr. naive_solver.
  - intros r Hr Hs.
    apply (Hglobal (rule_checksum r, filter (λ r', rule_checksum r' = rule_checksum r) rules) r);
      [|by apply list_elem_of_filter|done].
    apply list_elem_of_In, in_map_iff. exists (rule_checksum r). split; [done|].
    by apply list_elem_of_In, Hin.
Qed.

(** C32: a request runs exactly the plugins that are for it: in each of the five chains, every
    rule of that kind that applies to its user, tenant and api and whose plugin loads, none
    twice and none of another tenant's, highest order first; and no rule of the global chain
    is ever among those left out. *)
Theorem chains_exact (rules : list PluginRule) (c : PluginChains) (who : Identity) (api : ApiId)
    (k : PluginKind) :
  from_rules store_plugin host_load rules = Ok c →
  in_order (chain_of k (chains_for c who api)) ∧
  chain_of k (chains_for c who api) ≡ₚ
    map (λ r, MkProcessor (rule_checksum r) (rule_order r))
      (filter (λ r, rule_kind r = k ∧ applies_to r (who_tenant who) (who_user who) api = true ∧
                    loads (rule_checksum r) = true) rules) ∧
  (∀ r, r ∈ rules → rule_scope r = GlobalScope → loads (rule_checksum r) = true).
Proof using.
  intros Hc. destruct (from_rules_ok rules c (who_tenant who) Hc) as [Hforce Hglobal].
  unfold chains_for. fold (in_force c (who_tenant who)).
  edestruct (join_all (filter (λ p, applies_to (placed_rule p) (who_tenant who) (who_user who) api
    = true) (in_force c (who_tenant who))) empty_chain k) as [Ho Hp].
  { destruct k; constructor. }
  split; [exact Ho|]. split; [|done]. rewrite Hp.
  assert (chain_of k empty_chain = []) as -> by by destruct k. rewrite app_nil_l, Hforce.
  rewrite !filter_map_comm, map_map, !list_filter_filter. apply reflexive_eq. cbn. f_equal.
  apply filter_ext_in. intros r Hr. cbn.
  pose proof (applies_belongs r (who_tenant who) (who_user who) api). naive_solver.
Qed.
End chains_ok.

(** ** Sample values *)
Module ChainsSample.
Import SampleChrono.
Definition plugin_a : Checksum := MkRefined (check := check_bytes 32) (repeat 1 32) eq_refl.
Definition plugin_b : Checksum := MkRefined (check := check_bytes 32) (repeat 2 32) eq_refl.
Definition last : PluginOrder := MkRefined (check := check_order_width) 10 eq_refl.
Definition first : PluginOrder := MkRefined (check := check_order_width) 100 eq_refl.
Definition rules : list PluginRule :=
  [MkPluginRule plugin_b ReqBody last GlobalScope;
   MkPluginRule plugin_a ReqBody first (TenantScope tenant (Some user) None);
   MkPluginRule plugin_a RespBody first (TenantScope tenant None None)].
Definition in_store (c : Checksum) : result StorageError (option (list Z)) := Ok (Some [0]).
Definition compiles (c : Checksum) (wasm : list Z) : option str := None.
Definition loaded : PluginChains :=
  default (MkPluginChains [] ∅) (ok (from_rules in_store compiles rules)).
Definition caller : Identity := MkIdentity user tenant Member.

Lemma chains_exact_witness :
  in_order (chain_of ReqBody (chains_for loaded caller api)) ∧
  chain_of ReqBody (chains_for loaded caller api) ≡ₚ [MkProcessor plugin_b last; MkProcessor plugin_a first] ∧
  (∀ r, r ∈ rules → rule_scope r = GlobalScope → loads in_store compiles (rule_checksum r) = true).
Proof.
  apply (chains_exact in_store compiles rules loaded caller api ReqBody).
  by_computation.
Defined.
End ChainsSample.
