(* ===== verification/Measure.v ===== *)
(** * Measure: what an answer says it cost

    Models [crates/ip-gateway/src/measure.rs].  [serde_json] is the class [Json]: a value, what
    is read out of one, and the bytes one is parsed from. *)
From S2P Require Import Prelude Text Ident Sse PluginCore.

Class Json : Type := {
  value : Type;
  from_slice : list Z → option value;
  get : value → str → option value;
  pointer : value → str → option value;
  as_str : value → option str;
  as_u64 : value → option Z;
  (** A [u64] is one. *)
  as_u64_width : ∀ v n, as_u64 v = Some n → is_u64 n
}.

Definition INPUT_KEYS : list str := [ #"input_tokens"; #"prompt_tokens"; #"promptTokenCount"].
Definition OUTPUT_KEYS : list str :=
  [ #"output_tokens"; #"completion_tokens"; #"candidatesTokenCount"].

Record Measured : Type := MkMeasured { m_model : option ModelName; m_tokens : TokensSpent }.
#[export] Instance Measured_eq_dec : EqDecision Measured.
Proof. solve_decision. Defined.

Record Measuring : Type := MkMeasuring {
  seen_model : option ModelName;
  seen_input : option TokenCount;
  seen_output : option TokenCount
}.

(** [Measuring::default]. *)
Definition unmeasured : Measuring := MkMeasuring None None None.

(** A count clamped to the width it is kept in. *)
Lemma clamp_width n : is_u64 n → is_ok (check_u32 (default u32_max (try_unsigned u32_max n))) = true.
Proof.
  intros [Hn _]. apply is_ok_true. exists tt. apply check_u32_ok. unfold try_unsigned, is_u32.
  replace (0 <=? n) with true by lia. cbn [andb]. destruct (n <=? u32_max) eqn:E; cbn [from_option id];
    unfold u32_max in *; lia.
Qed.
Definition clamped (n : Z) (H : is_u64 n) : TokenCount :=
  MkRefined (default u32_max (try_unsigned u32_max n)) (clamp_width n H).

(** [TokenCount::ZERO], which is also its default. *)
Definition zero_tokens : TokenCount := MkRefined (check := check_u32) 0 eq_refl.

(** [Option::max] of two counts. *)
Definition max_count (a b : option TokenCount) : option TokenCount :=
  match a, b with
  | Some x, Some y => Some (if val x <=? val y then y else x)
  | Some x, None => Some x
  | None, b => b
  end.

(** [Iterator::find_map]. *)
Fixpoint find_map {A B} (f : A → option B) (l : list A) : option B :=
  match l with
  | [] => None
  | x :: l => match f x with Some y => Some y | None => find_map f l end
  end.

(** [Option::or_else]. *)
Definition or_else {A} (a b : option A) : option A := match a with Some x => Some x | None => b end.

Section measure.
Context `{Json}.

Definition strip_data (line : list Z) : option (list Z) :=
  data ← strip_prefix #"data:" line;
  Some (default data (strip_prefix #" " data)).

Definition usage_of (v : value) : option value :=
  or_else (or_else (get v #"usage") (pointer v #"/message/usage")) (get v #"usageMetadata").

Definition model_of (v : value) : option ModelName :=
  named ← or_else (or_else (get v #"model") (pointer v #"/message/model")) (get v #"modelVersion");
  name ← as_str named;
  ok (new_model_name name).

(** [as_u64] with the fact that what it gives is one. *)
Definition read_u64 (v : value) : option {n : Z | is_u64 n} :=
  match as_u64 v as o return as_u64 v = o → option {n : Z | is_u64 n} with
  | Some n => λ E, Some (exist _ n (as_u64_width v n E))
  | None => λ _, None
  end eq_refl.

Definition count (usage : value) (keys : list str) : option TokenCount :=
  counted ← find_map (λ key, v ← get usage key; read_u64 v) keys;
  Some (clamped (`counted) (proj2_sig counted)).

(** [Measuring::fold]. *)
Definition fold_value (m : Measuring) (v : value) : Measuring :=
  let model := match seen_model m with Some _ => seen_model m | None => model_of v end in
  match usage_of v with
  | None => MkMeasuring model (seen_input m) (seen_output m)
  | Some usage =>
      MkMeasuring model (max_count (seen_input m) (count usage INPUT_KEYS))
        (max_count (seen_output m) (count usage OUTPUT_KEYS))
  end.

(** The loop of [read] over the lines of what passed. *)
Fixpoint read_lines (m : Measuring) (lines : list (list Z)) : Measuring :=
  match lines with
  | [] => m
  | line :: lines =>
      match strip_data line with
      | None => read_lines m lines
      | Some data =>
          match from_slice data with
          | Some v => read_lines (fold_value m v) lines
          | None => read_lines m lines
          end
      end
  end.

Definition read (m : Measuring) (bytes : list Z) : Measuring :=
  match from_slice bytes with
  | Some v => fold_value m v
  | None => read_lines m (split_on (Z.eqb LF) bytes)
  end.

Definition measured (m : Measuring) : option Measured :=
  match seen_input m, seen_output m with
  | None, None => None
  | input, output =>
      Some (MkMeasured (seen_model m)
              (MkTokens (default zero_tokens input) (default zero_tokens output)))
  end.

Definition measure (body : list Z) : option Measured := measured (read unmeasured body).

#[local] Arguments strip_data : simpl never.
#[local] Arguments usage_of : simpl never.
#[local] Arguments model_of : simpl never.
#[local] Arguments count : simpl never.

(** ** Lemmas *)

(** The json an answer is read for: what passed whole, or the data of its lines. *)
Definition values_in (bytes : list Z) : list value :=
  match from_slice bytes with
  | Some v => [v]
  | None => omap (λ line, data ← strip_data line; from_slice data) (split_on (Z.eqb LF) bytes)
  end.

Lemma read_values m bytes : read m bytes = fold_left fold_value (values_in bytes) m.
Proof using.
  unfold read, values_in. destruct (from_slice bytes); [done|].
  generalize (split_on (Z.eqb LF) bytes). intros lines. revert m.
  induction lines as [|line lines IH]; intros m; cbn; [done|].
  destruct (strip_data line) as [data|]; cbn; [|apply IH].
  destruct (from_slice data); apply IH.
Qed.

Lemma read_all_values frames m :
  fold_left read frames m = fold_left fold_value (frames ≫= values_in) m.
Proof using.
  revert m. induction frames as [|f frames IH]; intros m; cbn; [done|].
  by rewrite IH, read_values, fold_left_app.
Qed.

Definition counts (keys : list str) (vs : list value) : list TokenCount :=
  omap (λ v, usage ← usage_of v; count usage keys) vs.

Lemma fold_counts vs m :
  let m' := fold_left fold_value vs m in
  seen_input m' = fold_left max_count (map Some (counts INPUT_KEYS vs)) (seen_input m) ∧
  seen_output m' = fold_left max_count (map Some (counts OUTPUT_KEYS vs)) (seen_output m) ∧
  seen_model m' = or_else (seen_model m) (head (omap model_of vs)).
Proof using.
  assert (∀ a, max_count a None = a) as Hnone by by intros [].
  revert m. induction vs as [|v vs IH]; intros m; cbn.
  { by destruct (seen_model m). }
  destruct (IH (fold_value m v)) as (Hi & Ho & Hm). cbv zeta in *. rewrite Hi, Ho, Hm.
  unfold fold_value. destruct (usage_of v) as [usage|]; cbn.
  - destruct (count usage INPUT_KEYS), (count usage OUTPUT_KEYS); cbn; rewrite ?Hnone;
      (do 2 (split; [done|])); destruct (seen_model m), (model_of v); done.
  - do 2 (split; [done|]). destruct (seen_model m), (model_of v); done.
Qed.

(** The largest of some counts, or none when there are none. *)
Definition largest (l : list TokenCount) (t : TokenCount) : Prop :=
  (l = [] ∧ val t = 0) ∨ (t ∈ l ∧ Forall (λ c : TokenCount, val c ≤ val t) l).

Lemma max_count_largest l o :
  ∃ t, largest (option_list o ++ l) t ∧
    fold_left max_count (map Some l) o = (if decide (option_list o ++ l = []) then None else Some t).
Proof using.
  revert o. induction l as [|c l IH]; intros o.
  - destruct o as [t|]; cbn.
    + exists t. split; [|done]. right. split; [constructor|by repeat constructor].
    + exists zero_tokens. split; [by left|done].
  - cbn [map fold_left]. destruct (IH (max_count o (Some c))) as (t & Hl & ->). exists t.
    assert (∀ x : TokenCount, x ∈ c :: l → x ∈ option_list o ++ c :: l) as Hin by set_solver.
    destruct o as [x|]; cbn in *.
    + rewrite decide_False by done. rewrite decide_False by done. split; [|done].
      destruct Hl as [[? _]|[Ht Hall]]; [done|]. right. rewrite !Forall_cons in Hall |- *.
      destruct Hall as [Hmax Hall].
      destruct (val x <=? val c) eqn:E; (split; [set_solver|]); repeat constructor; done || lia.
    + split; [done|]. by rewrite !decide_False.
Qed.

Lemma counts_none vs :
  counts INPUT_KEYS vs = [] ∧ counts OUTPUT_KEYS vs = [] ↔
  measured (fold_left fold_value vs unmeasured) = None.
Proof using.
  destruct (fold_counts vs unmeasured) as (Hi & Ho & _). cbn in Hi, Ho. unfold measured.
  rewrite Hi, Ho.
  destruct (max_count_largest (counts INPUT_KEYS vs) None) as (ti & _ & ->).
  destruct (max_count_largest (counts OUTPUT_KEYS vs) None) as (to & _ & ->). cbn [option_list app].
  repeat case_decide; naive_solver.
Qed.

(** ** Properties *)

(** What an answer cost, however it arrived: read frame by frame, it is the largest count
    each direction ever said (nothing for a direction that said none), under the first model
    that was named; and there is nothing measured exactly when no json that passed held a
    count. *)
Theorem measured_largest (frames : list (list Z)) :
  let vs := frames ≫= values_in in
  match measured (fold_left read frames unmeasured) with
  | Some m =>
      largest (counts INPUT_KEYS vs) (tokens_input (m_tokens m)) ∧
      largest (counts OUTPUT_KEYS vs) (tokens_output (m_tokens m)) ∧
      m_model m = head (omap model_of vs)
  | None => counts INPUT_KEYS vs = [] ∧ counts OUTPUT_KEYS vs = []
  end.
Proof using.
  intros vs. rewrite read_all_values. fold vs.
  destruct (measured (fold_left fold_value vs unmeasured)) as [m|] eqn:Hm; [|by apply counts_none].
  destruct (fold_counts vs unmeasured) as (Hi & Ho & Hn). cbn in Hi, Ho, Hn.
  unfold measured in Hm. rewrite Hi, Ho, Hn in Hm.
  destruct (max_count_largest (counts INPUT_KEYS vs) None) as (ti & Hti & Ei).
  destruct (max_count_largest (counts OUTPUT_KEYS vs) None) as (to & Hto & Eo).
  rewrite Ei, Eo in Hm. cbn [option_list app] in *.
  repeat case_decide; try done; injection Hm as <-;
    cbn [m_tokens m_model tokens_input tokens_output from_option id]; split_and!; try done;
    by left.
Qed.

(** An answer that reaches the caller in pieces is not measured: when neither piece is json of
    its own and no line of one is an event's data, nothing is read, whatever the two say
    together. *)
Theorem split_answer_unmeasured (pieces : list (list Z)) :
  Forall (λ piece, from_slice piece = None ∧
    Forall (λ line, strip_data line = None) (split_on (Z.eqb LF) piece)) pieces →
  measured (fold_left read pieces unmeasured) = None.
Proof using.
  intros Hp. rewrite read_all_values. apply counts_none.
  assert (pieces ≫= values_in = []) as ->; [|done].
  induction Hp as [|p pieces [Hn Hl] _ IH]; cbn; [done|]. rewrite IH, app_nil_r.
  unfold values_in. rewrite Hn. induction Hl as [|l ls Hd _ IHl]; cbn; [done|]. by rewrite Hd.
Qed.
End measure.

(** ** Sample values *)

(** A parser that knows one answer. *)
Module MeasureSample.
Inductive sample : Type := Whole | Usage | Number (n : Z).
Definition text : list Z := #"{usage: {input_tokens: 9}}".
Definition known (bytes : list Z) : option sample := if bool_decide (bytes = text) then Some Whole else None.
Definition part (v : sample) (key : str) : option sample :=
  match v with
  | Whole => if bool_decide (key = #"usage") then Some Usage else None
  | Usage => if bool_decide (key = #"input_tokens") then Some (Number 9) else None
  | Number _ => None
  end.
Definition number (v : sample) : option Z := match v with Number 9 => Some 9 | _ => None end.
Lemma number_width v n : number v = Some n → is_u64 n.
Proof.
  unfold number. destruct v as [| |k]; try done. destruct (decide (k = 9)) as [->|Hk].
  - intros [= <-]. by_computation.
  - by destruct k as [|[[[[]|[]|]|[[]|[]|]|]|[[[]|[]|]|[[]|[]|]|]|]|].
Qed.
#[export] Instance json : Json :=
  {| value := sample; from_slice := known; get := part; pointer _ _ := None; as_str _ := None;
     as_u64 := number; as_u64_width := number_width |}.

(** The same bytes, measured whole and in two pieces. *)
Example whole_measured : is_Some (measure text).
Proof. by eexists. Qed.
Example halves_unmeasured : measured (fold_left read [take 10 text; drop 10 text] unmeasured) = None.
Proof. apply split_answer_unmeasured. repeat constructor. Qed.
End MeasureSample.
