(* ===== verification/Gate.v ===== *)
(** * Gate: requests, answers and the headers a proxy owes the next hop

    Models [crates/ip-gateway/src/stage.rs], [error.rs], [body.rs] and [flow/headers.rs].  The
    [http] crate is the class [HttpLib]: a header map is known by what [get_all] answers for a
    name, a name by its lower case text, a uri by its parts.  A body is the frames it yields
    ([Sse.frame]), an error among them when reading it fails part way. *)
From S2P Require Import Prelude Text Ident Capability Route Dispatch Table Cache Sled CacheTrait.
From S2P Require Import LimitCore Limiter RespCache Sse.

(** ** stage.rs *)

Inductive StageName : Type :=
  | Receive | Authentication | HeaderRead | HeaderProcess | Authorization | BodyRead
  | BodyProcess | ToRoute | ResponseHeaderRead | ResponseHeaderProcess | ResponseBodyRead
  | ResponseBodyProcess | ToSend.
#[export] Instance StageName_eq_dec : EqDecision StageName.
Proof. solve_decision. Defined.

(** [StageName::as_str]. *)
Definition stage_text (s : StageName) : str :=
  match s with
  | Receive => #"receive"
  | Authentication => #"authentication"
  | HeaderRead => #"header read"
  | HeaderProcess => #"header process"
  | Authorization => #"authorization"
  | BodyRead => #"body read"
  | BodyProcess => #"body process"
  | ToRoute => #"route"
  | ResponseHeaderRead => #"response header read"
  | ResponseHeaderProcess => #"response header process"
  | ResponseBodyRead => #"response body read"
  | ResponseBodyProcess => #"response body process"
  | ToSend => #"send"
  end.

(** ** error.rs *)

Inductive GatewayErrorKind : Type :=
  | Unauthenticated
  | Forbidden (capability : Capability)
  | NoRoute (key : RouteKey)
  | ProtocolNotServed (protocol : Protocol)
  | Malformed (detail : str)
  | GatewayValue (e : CoreError)
  | GatewayProcessor (e : ProcessorError)
  | GatewayUpstream (detail : str)
  | GatewayCache (e : CacheError)
  | GatewaySpent (counted : Counted) (period : Period) (allowance : Allowance) (ends : Timestamp)
  | Unmeasured (why : Unreadable).
#[export] Instance GatewayErrorKind_eq_dec : EqDecision GatewayErrorKind.
Proof. solve_decision. Defined.

Record GatewayError : Type := MkGatewayError { failed_stage : StageName; failed_kind : GatewayErrorKind }.
#[export] Instance GatewayError_eq_dec : EqDecision GatewayError.
Proof. solve_decision. Defined.

Definition public_reason (e : GatewayError) : option str :=
  match failed_kind e with
  | GatewayProcessor (Refused reason) => Some reason
  | GatewaySpent counted period allowance _ =>
      Some (counted_name counted ++ #" per " ++ period_name period ++ #" is spent: "
            ++ dec (val allowance) ++ #" allowed")
  | _ => None
  end.

Definition status (e : GatewayError) : Z :=
  match failed_kind e with
  | Unauthenticated => 401
  | Forbidden _ => 403
  | NoRoute _ => 404
  | ProtocolNotServed _ => 501
  | Malformed _ | GatewayValue _ => 400
  | GatewayProcessor (Refused _) => 403
  | GatewayProcessor (Failed _) => 500
  | GatewayUpstream _ => 502
  | GatewayCache _ => 500
  | GatewaySpent _ _ _ _ => 429
  | Unmeasured _ => 503
  end.

Definition retry_after (e : GatewayError) (now : Timestamp) : option Z :=
  match failed_kind e with
  | GatewaySpent _ _ _ ends => Some (Z.max (default 0 (try_unsigned u64_max (ends - now))) 1)
  | _ => None
  end.

(** ** The http crate *)

Class HttpLib : Type := {
  http_text :: HeaderText;
  (** [HeaderMap]. *)
  HeaderMap : Type;
  no_headers : HeaderMap;
  get_all : HeaderMap → str → list HeaderValue;
  h_insert : str → HeaderValue → HeaderMap → HeaderMap;
  h_remove : str → HeaderMap → HeaderMap;
  get_all_empty : ∀ n, get_all no_headers n = [];
  get_all_insert : ∀ n v h m,
    get_all (h_insert n v h) m = if decide (m = n) then [v] else get_all h m;
  get_all_remove : ∀ n h m, get_all (h_remove n h) m = if decide (m = n) then [] else get_all h m;
  (** [HeaderName::from_bytes]; [HeaderValue::to_str], [from_str] and [from] of a length. *)
  header_name : list Z → option str;
  to_str : HeaderValue → option str;
  value_from_str : str → option HeaderValue;
  value_from_len : nat → HeaderValue;
  value_from_len_text : ∀ n, val (value_from_len n) = dec (Z.of_nat n);
  (** [httpdate::parse_http_date], in nanoseconds. *)
  parse_http_date : str → option Z;
  (** [Uri], [Scheme::try_from], [Authority::try_from] and the builder. *)
  Uri : Type;
  uri_scheme : Uri → option str;
  uri_authority : Uri → option str;
  uri_path : Uri → str;
  uri_query : Uri → option str;
  scheme_ok : str → bool;
  authority_ok : str → bool;
  uri_build : str → str → str → result str Uri;
  (** A fragment is no part of a query. *)
  uri_query_plain : ∀ u q, uri_query u = Some q → ch "#" ∉ q;
  uri_build_parts : ∀ scheme authority path query u,
    starts_with #"/" path = true → ch "?" ∉ path → ch "#" ∉ path →
    (∀ q, query = Some q → ch "#" ∉ q) →
    uri_build scheme authority
      (match query with Some q => path ++ #"?" ++ q | None => path end) = Ok u →
    uri_scheme u = Some scheme ∧ uri_authority u = Some authority ∧ uri_path u = path ∧
    uri_query u = query;
  (** The trailers of a body, a [BoxError] with its text, and the boxing of one. *)
  Trailers : Type;
  BoxError : Type;
  show_error : BoxError → str;
  boxed : ProcessorError → BoxError
}.

(** Names as [http::header] spells them. *)
Definition HOST : str := #"host".
Definition TE : str := #"te".
Definition CONNECTION : str := #"connection".
Definition CONTENT_LENGTH : str := #"content-length".
Definition CONTENT_TYPE : str := #"content-type".
Definition CACHE_CONTROL : str := #"cache-control".
Definition EXPIRES : str := #"expires".

Definition HOP_BY_HOP : list str :=
  [CONNECTION; #"keep-alive"; #"proxy-connection"; #"proxy-authenticate";
   #"proxy-authorization"; #"trailer"; #"transfer-encoding"; #"upgrade"].

Section gate.
Context `{HttpLib}.

(** [HeaderMap::get]. *)
Definition get (h : HeaderMap) (n : str) : option HeaderValue := head (get_all h n).

(** ** body.rs *)

Definition GatewayBody : Type := list (frame Trailers BoxError).

(** A [Full] yields its bytes as one frame, and none when there are none. *)
Definition from_bytes (bytes : list Z) : GatewayBody :=
  match bytes with [] => [] | _ => [FData bytes] end.

Record Request : Type := MkRequest {
  r_method : str;
  r_uri : Uri;
  r_headers : HeaderMap;
  r_body : GatewayBody
}.

Record Response : Type := MkResponse {
  a_status : Z;
  a_headers : HeaderMap;
  a_body : GatewayBody
}.

(** ** flow/headers.rs *)

(** The names the [Connection] header lists. *)
Definition listed (h : HeaderMap) : list str :=
  get_all h CONNECTION ≫= λ v,
    match to_str v with
    | Some text => omap (λ name, header_name (as_bytes (trim name))) (split_on (Z.eqb (ch ",")) text)
    | None => []
    end.

Definition trailers_only (h : HeaderMap) : bool :=
  forallb (λ v : HeaderValue, eq_ignore_ascii_case (val v) #"trailers") (get_all h TE).

Definition strip_hop_by_hop (h : HeaderMap) : HeaderMap :=
  let h := fold_left (λ h n, h_remove n h) (listed h ++ HOP_BY_HOP) h in
  if trailers_only h then h else h_remove TE h.

(** A [SocketAddr], as far as it is used: how it is displayed, and its port. *)
Record SocketAddr : Type := MkSocketAddr { listen_text : str; listen_port : Z }.

Definition authority_of (r : Request) (listen : SocketAddr) : str :=
  match uri_authority (r_uri r) with
  | Some authority => authority
  | None => default (listen_text listen) (get (r_headers r) HOST ≫= to_str)
  end.

(** [format!("{}:{}", target.host, target.port)]. *)
Definition host_port (target : Endpoint) : str :=
  val (host target) ++ #":" ++ dec (val (port target)).

Definition target_uri (target : Endpoint) (query : option str) : result str Uri :=
  let scheme := protocol_name (protocol target) in
  if negb (scheme_ok scheme) then Err (protocol_as_str (protocol target) ++ #" is not a uri scheme")
  else if negb (authority_ok (host_port target))
  then Err (host_port target ++ #" is not a uri authority")
  else
    uri_build scheme (host_port target)
      (match query with
       | Some q => val (path target) ++ #"?" ++ q
       | None => val (path target)
       end).

Definition rewrite (r : Request) (target : Endpoint) : result GatewayError Request :=
  uri ← map_err (λ detail, MkGatewayError ToRoute (Malformed detail))
          (target_uri target (uri_query (r_uri r)));
  host ← ok_or (MkGatewayError ToRoute (Malformed (host_port target ++ #" is not a host header")))
           (value_from_str (host_port target));
  Ok (MkRequest (r_method r) uri (h_insert HOST host (strip_hop_by_hop (r_headers r))) (r_body r)).

Definition is_event_stream (h : HeaderMap) : bool :=
  match (text ← get h CONTENT_TYPE ≫= to_str; head (split_on (Z.eqb (ch ";")) text)) with
  | Some mime => eq_ignore_ascii_case (trim mime) #"text/event-stream"
  | None => false
  end.

Definition set_length (length : nat) (h : HeaderMap) : HeaderMap :=
  h_insert CONTENT_LENGTH (value_from_len length) h.

(** [freshness] of [cache.rs] on the headers of a response. *)
Definition freshness_of (h : HeaderMap) (now : Z) : Freshness :=
  freshness (get h CACHE_CONTROL ≫= to_str) ((get h EXPIRES ≫= to_str) ≫= parse_http_date) now.

(** ** Lemmas *)

Lemma get_all_remove_list names h m :
  get_all (fold_left (λ h n, h_remove n h) names h) m
  = if decide (m ∈ names) then [] else get_all h m.
Proof using.
  revert h. induction names as [|n names IH]; intros h; cbn [fold_left].
  - by rewrite decide_False by by apply not_elem_of_nil.
  - rewrite IH, get_all_remove. repeat case_decide; set_solver.
Qed.

(** A header that describes one hop: it is always one, the connection lists it, or it asks for
    a transfer coding other than trailers. *)
Definition of_one_hop (h : HeaderMap) (n : str) : Prop :=
  n ∈ HOP_BY_HOP ∨ n ∈ listed h ∨
  (n = TE ∧ ∃ v, v ∈ get_all h TE ∧ eq_ignore_ascii_case (val v) #"trailers" = false).

Lemma trailers_only_false h :
  trailers_only h = false ↔
  ∃ v, v ∈ get_all h TE ∧ eq_ignore_ascii_case (val v) #"trailers" = false.
Proof using.
  unfold trailers_only. rewrite <-not_true_iff_false, forallb_forall.
  setoid_rewrite <-list_elem_of_In. split.
  - intros Hn. destruct (list_find (λ v : HeaderValue,
      eq_ignore_ascii_case (val v) #"trailers" = false) (get_all h TE)) as [[i v]|] eqn:Hf.
    + apply list_find_Some in Hf as (Hi & Hv & _). exists v. split; [|done].
      by eapply list_elem_of_lookup_2.
    + apply list_find_None in Hf. rewrite Forall_forall in Hf. destruct Hn. intros v Hv.
      specialize (Hf v Hv). by apply not_false_iff_true in Hf.
  - intros (v & Hv & Hf) Hall. rewrite Hall in Hf; done.
Qed.

Lemma strip_spec h n :
  (of_one_hop h n → get_all (strip_hop_by_hop h) n = []) ∧
  (¬ of_one_hop h n → get_all (strip_hop_by_hop h) n = get_all h n).
Proof using.
  unfold strip_hop_by_hop, of_one_hop. set (names := listed h ++ HOP_BY_HOP).
  set (h' := fold_left _ names h).
  assert (∀ m, get_all h' m = if decide (m ∈ names) then [] else get_all h m) as Hh'
    by apply get_all_remove_list.
  assert (∀ m, m ∈ names ↔ m ∈ listed h ∨ m ∈ HOP_BY_HOP) as Hnames
    by (intros m; apply elem_of_app).
  clearbody names h'. destruct (trailers_only h') eqn:Ht.
  - rewrite Hh'. split; intros Hn; case_decide as Hin; [done| |naive_solver|done].
    destruct Hn as [?|[?|[-> (v & Hv & Hf)]]]; [naive_solver..|].
    exfalso. rewrite <-not_false_iff_true, trailers_only_false in Ht. apply Ht. exists v.
    by rewrite Hh', decide_False.
  - apply trailers_only_false in Ht as (v & Hv & Hf). rewrite Hh' in Hv.
    rewrite get_all_remove, Hh'. destruct (decide (n = TE)) as [->|Hte].
    + split; [done|]. destruct (decide (TE ∈ names)) as [Hin|Hin].
      * by apply elem_of_nil in Hv.
      * intros Hn. destruct Hn. eauto 10.
    + clear Hv Hf. specialize (Hnames n).
      split; intros Hn; case_decide as Hin; [done|exfalso; tauto|exfalso; tauto|done].
Qed.

Lemma get_insert n v h m : get (h_insert n v h) m = if decide (m = n) then Some v else get h m.
Proof using. unfold get. rewrite get_all_insert. by case_decide. Qed.

Lemma get_remove n h m : get (h_remove n h) m = if decide (m = n) then None else get h m.
Proof using. unfold get. rewrite get_all_remove. by case_decide. Qed.

Lemma target_uri_parts target query u :
  (∀ q, query = Some q → ch "#" ∉ q) → target_uri target query = Ok u →
  uri_scheme u = Some (protocol_name (protocol target)) ∧
  uri_authority u = Some (host_port target) ∧ uri_path u = val (path target) ∧
  uri_query u = query.
Proof using.
  intros Hq. unfold target_uri. destruct (scheme_ok _); [|done].
  destruct (authority_ok _); [|done]. destruct (path_no_query (path target)).
  apply uri_build_parts; [|done..]. apply starts_with_true.
  by pose proof (val_checked validate_path (path target)) as ([? ?] & _)%validate_path_ok; eauto.
Qed.

(** ** Properties *)

(** What is sent to an endpoint is the request as it stood, pointed at that endpoint: its
    uri names the endpoint's scheme, host, port and path and carries the caller's query; its
    [Host] is the endpoint's and nothing else; every header that describes the caller's own hop
    is gone, those its [Connection] lists included, and every other is untouched, as are the
    method and the body. *)
Theorem rewrite_spec (r r' : Request) (target : Endpoint) :
  rewrite r target = Ok r' →
  uri_scheme (r_uri r') = Some (protocol_name (protocol target)) ∧
  uri_authority (r_uri r') = Some (host_port target) ∧
  uri_path (r_uri r') = val (path target) ∧ uri_query (r_uri r') = uri_query (r_uri r) ∧
  r_method r' = r_method r ∧ r_body r' = r_body r ∧
  (∃ v, value_from_str (host_port target) = Some v ∧ get_all (r_headers r') HOST = [v]) ∧
  ∀ n, n ≠ HOST →
    (of_one_hop (r_headers r) n → get_all (r_headers r') n = []) ∧
    (¬ of_one_hop (r_headers r) n → get_all (r_headers r') n = get_all (r_headers r) n).
Proof using.
  unfold rewrite. rewrite bind_ok. intros (u & Hu%map_err_ok & Hr).
  apply bind_ok in Hr as (v & Hv%ok_or_ok & [= <-]). cbn [r_uri r_method r_headers r_body].
  apply target_uri_parts in Hu as (Hs & Ha & Hp & Hq); [|apply uri_query_plain].
  split_and!; try done.
  - exists v. split; [done|]. by rewrite get_all_insert, decide_True.
  - intros n Hn. rewrite get_all_insert, decide_False by done. apply strip_spec.
Qed.

(** An endpoint whose host is an ipv6 address can be written in a rule, but no request reaches
    it: the address goes into the uri without brackets, where its colons make the authority one
    that [http] does not read. *)
Theorem ipv6_target_refused (r : Request) (target : Endpoint) :
  (∀ a b c, ch "[" ∉ a ++ b ++ c → authority_ok (a ++ #":" ++ b ++ #":" ++ c) = false) →
  ch ":" ∈ val (host target) → ch "[" ∉ val (host target) →
  ∃ detail, rewrite r target = Err (MkGatewayError ToRoute (Malformed detail)).
Proof using.
  intros Hlib Hin Hb. unfold rewrite, target_uri. destruct (scheme_ok _); [|by eexists].
  cbn [negb]. replace (authority_ok (host_port target)) with false; [by eexists|]. symmetry.
  apply list_elem_of_split in Hin as (a & b & Ht). unfold host_port.
  rewrite Ht, <-app_assoc. cbn [app]. apply (Hlib a b). rewrite Ht in Hb.
  rewrite not_elem_of_app, not_elem_of_cons in Hb. destruct Hb as (? & _ & ?).
  rewrite !not_elem_of_app.
  split_and!; [done..|]. apply dec_no_sep; [|done].
  pose proof (val_checked check_port (port target)) as Hp%check_port_ok. lia.
Qed.
End gate.

(** ** Sample values *)
Module GateSample.
Export RespSample.
Import Route.Sample.

Abbreviation Headers := (list (str * HeaderValue)).
Definition values (h : Headers) (n : str) : list HeaderValue :=
  omap (λ nv, if decide (nv.1 = n) then Some nv.2 else None) h.
Definition without (n : str) (h : Headers) : Headers := filter (λ nv, nv.1 ≠ n) h.

Lemma values_cons k v h n :
  values ((k, v) :: h) n = if decide (k = n) then v :: values h n else values h n.
Proof. unfold values. cbn. by case_decide. Qed.

Lemma values_without n h m : values (without n h) m = if decide (m = n) then [] else values h m.
Proof.
  induction h as [|[k v] h IH]; [by cbn; case_decide|].
  unfold without in *. rewrite filter_cons. cbn [fst]. destruct (decide (k ≠ n)) as [Hk|Hk].
  - rewrite !values_cons, IH. repeat case_decide; subst; done.
  - apply dec_stable in Hk as ->. rewrite values_cons, IH. repeat case_decide; subst; done.
Qed.

Definition put_value (n : str) (v : HeaderValue) (h : Headers) : Headers := without n h ++ [(n, v)].

Lemma values_put n v h m : values (put_value n v h) m = if decide (m = n) then [v] else values h m.
Proof.
  unfold put_value, values. rewrite omap_app. change (omap _ (without n h)) with (values (without n h) m).
  rewrite values_without. cbn. repeat case_decide; subst; try done. by rewrite app_nil_r.
Qed.

Lemma length_text n : is_ok (check_header (dec (Z.of_nat n))) = true.
Proof.
  unfold check_header. cbn [header_bytes header_text].
  replace (forallb is_ascii_graphic (dec (Z.of_nat n))) with true; [done|]. symmetry.
  apply forallb_forall. intros c Hc%list_elem_of_In.
  pose proof (dec_digits (Z.of_nat n) ltac:(lia)) as Hd. rewrite Forall_forall in Hd.
  specialize (Hd c Hc). unfold is_ascii_digit, is_ascii_graphic, in_range in *. lia.
Qed.

(** A uri by its parts. *)
Record Parts : Type := MkParts {
  p_scheme : option str; p_authority : option str; p_path : str; p_query : option str
}.
Definition query_of (u : Parts) : option str :=
  q ← p_query u; if bool_decide (ch "#" ∈ q) then None else Some q.
Definition build (scheme authority rest : str) : result str Parts :=
  Ok (match split_once (ch "?") rest with
      | Some (path, query) => MkParts (Some scheme) (Some authority) path (Some query)
      | None => MkParts (Some scheme) (Some authority) rest None
      end).

Lemma query_plain u q : query_of u = Some q → ch "#" ∉ q.
Proof. unfold query_of. destruct (p_query u); cbn; [|done]. case_bool_decide; naive_solver. Qed.

Lemma build_parts scheme authority path query u :
  starts_with #"/" path = true → ch "?" ∉ path → ch "#" ∉ path →
  (∀ q, query = Some q → ch "#" ∉ q) →
  build scheme authority (match query with Some q => path ++ #"?" ++ q | None => path end) = Ok u →
  p_scheme u = Some scheme ∧ p_authority u = Some authority ∧ p_path u = path ∧ query_of u = query.
Proof.
  intros _ Hq _ Hplain. unfold build. destruct query as [q|].
  - rewrite (proj2 (split_once_Some (ch "?") (path ++ #"?" ++ q) path q)) by done.
    intros [= <-]. split_and!; try done. unfold query_of. cbn.
    by rewrite bool_decide_eq_false_2 by by apply Hplain.
  - rewrite (proj2 (split_once_None (ch "?") path)) by done. by intros [= <-].
Qed.

#[export] Instance http_lib : HttpLib := {|
  http_text := header_text;
  HeaderMap := Headers;
  no_headers := [];
  get_all := values;
  h_insert := put_value;
  h_remove := without;
  get_all_empty _ := eq_refl;
  get_all_insert := values_put;
  get_all_remove := values_without;
  header_name b := if is_empty b then None else Some (to_ascii_lowercase b);
  to_str v := Some (val v);
  value_from_str s := ok (refine check_header (as_bytes s));
  value_from_len n := MkRefined (check := check_header) (dec (Z.of_nat n)) (length_text n);
  value_from_len_text _ := eq_refl;
  parse_http_date _ := None;
  Uri := Parts;
  uri_scheme := p_scheme;
  uri_authority := p_authority;
  uri_path := p_path;
  uri_query := query_of;
  scheme_ok s := among s [ #"http"; #"https"];
  authority_ok s := Nat.leb (length (split_on (Z.eqb (ch ":")) s)) 2;
  uri_build := build;
  uri_query_plain := query_plain;
  uri_build_parts := build_parts;
  Trailers := unit;
  BoxError := str;
  show_error e := e;
  boxed e := match e with Refused t | Failed t => t end
|}.

Definition header (n v : str) : str * HeaderValue :=
  (n, default json (ok (refine check_header v))).
Definition asked : Request :=
  MkRequest #"POST" (MkParts None None #"/llm/chat" (Some #"beta=1"))
    [header #"host" #"gateway.local"; header #"connection" #"x-private"; header #"x-private" #"1";
     header #"te" #"gzip"; header #"x-keep" #"2"] [FData #"hi"].
Definition sent : Request := default asked (ok (rewrite asked endpoint_a)).

Lemma rewritten : rewrite asked endpoint_a = Ok sent.
Proof.
  unfold sent. assert (is_ok (rewrite asked endpoint_a) = true) as Hok by (vm_compute; reflexivity).
  by destruct (rewrite asked endpoint_a).
Qed.

Lemma rewrite_spec_witness :
  uri_authority (r_uri sent) = Some (host_port endpoint_a) ∧
  (of_one_hop (r_headers asked) #"x-private" → get_all (r_headers sent) #"x-private" = []).
Proof.
  destruct (rewrite_spec asked sent endpoint_a) as (_ & Ha & _ & _ & _ & _ & _ & Hn).
  - exact rewritten.
  - split; [exact Ha|]. apply Hn. discriminate.
Defined.

(** What is left of the headers: two of the five, the host rewritten. *)
Example sent_headers :
  map (λ n, length (get_all (r_headers sent) n))
    [ #"host"; #"connection"; #"x-private"; #"te"; #"x-keep"] = [1; 0; 0; 0; 1]%nat.
Proof. vm_compute. reflexivity. Qed.

Example loopback_v6_refused :
  let target :=
    MkEndpoint Https (host_of #"::1" eq_refl) (port_of 443 eq_refl) (path_of #"/v1" eq_refl) in
  match rewrite asked target with Ok _ => 200 | Err e => status e end = 400.
Proof. vm_compute. reflexivity. Qed.
End GateSample.
