(* ===== verification/Recorder.v ===== *)
(** * Recorder: the record of what a request cost

    Models [crates/ip-gateway/src/flow/record.rs] and [followed.rs], with [NewUsage] of
    [crates/ip-storage/src/usage.rs].  A record is written by a task of its own: [Recording]'s
    [write] starts a [Job], and what a job does is [run_job].  [Pending], which a shutdown waits
    on, is the step relation [pending_step]: each atomic operation of the tasks and of the
    waiter is one step. *)
From S2P Require Import Prelude Text Ident Key Capability Route Dispatch Table Cache Sled.
From S2P Require Import CacheTrait LimitCore Limiter PluginCore Account Auth RespCache Sse.
From S2P Require Import Measure Gate.

(** ** followed.rs *)

Record Followed : Type := MkFollowed {
  f_trace : TraceId;
  f_turn : option TurnId;
  f_tenant : TenantId;
  f_user : UserId;
  f_api : option ApiId
}.

Definition followed_of (trace : TraceId) (turn : option TurnId) (who : Identity) : Followed :=
  MkFollowed trace turn (who_tenant who) (who_user who) None.

Definition serving (f : Followed) (api : ApiId) : Followed :=
  MkFollowed (f_trace f) (f_turn f) (f_tenant f) (f_user f) (Some api).

(** ** Recording *)

Record NewUsage : Type := MkNewUsage {
  u_trace : TraceId;
  u_turn : option TurnId;
  u_tenant : TenantId;
  u_user : UserId;
  u_api : ApiId;
  u_model : option ModelName;
  u_tokens : TokensSpent;
  u_served : Served;
  u_served_by : option Replica;
  u_latency : Z
}.

(** [Limiting]: the limits a request's tokens are counted towards, and for whom. *)
Abbreviation Limiting := (list Limit * Asking)%type.

Record Recording : Type := MkRecording {
  rec_limiting : option Limiting;
  rec_trace : TraceId;
  rec_turn : option TurnId;
  rec_tenant : TenantId;
  rec_user : UserId;
  rec_api : ApiId
}.

(** [Recording::of]. *)
Definition recording_of (f : Followed) (limiting : option Limiting) : option Recording :=
  api ← f_api f;
  Some (MkRecording limiting (f_trace f) (f_turn f) (f_tenant f) (f_user f) api).

(** A task [write] starts: the row, and what it is then counted towards. *)
Record Job : Type := MkJob { job_usage : NewUsage; job_limiting : option Limiting }.

(** [Tokens::ZERO]. *)
Definition no_tokens : TokensSpent := MkTokens zero_tokens zero_tokens.

Definition write (r : Recording) (elapsed_ms : Z) (model : option ModelName) (tokens : TokensSpent)
    (served : Served) (served_by : option Replica) : Job :=
  MkJob (MkNewUsage (rec_trace r) (rec_turn r) (rec_tenant r) (rec_user r) (rec_api r) model tokens
           served served_by (from_millis elapsed_ms)) (rec_limiting r).

Section recorder.
Context `{HttpLib} `{Json}.

Definition out_of_the_cache (r : Recording) (elapsed_ms : Z) (body : list Z) : Job :=
  write r elapsed_ms (measure body ≫= m_model) no_tokens FromCache None.

(** [Measured], the body of an answer that is measured as it goes out. *)
Record Metered : Type := MkMetered {
  inner : GatewayBody;
  measuring : Measuring;
  met_served_by : option Replica;
  met_recording : option Recording
}.

(** [Recording::measuring]. *)
Definition metered (r : Recording) (body : GatewayBody) (served_by : Replica) : Metered :=
  MkMetered body unmeasured (Some served_by) (Some r).

(** [Measured::done], which records once: the recording is taken. *)
Definition done_with (elapsed_ms : Z) (b : Metered) (jobs : list Job) : Metered * list Job :=
  match met_recording b with
  | None => (b, jobs)
  | Some r =>
      let '(model, tokens) :=
        match measured (measuring b) with
        | Some m => (m_model m, m_tokens m)
        | None => (None, no_tokens)
        end in
      (MkMetered (inner b) unmeasured None None,
       jobs ++ [write r elapsed_ms model tokens FromUpstream (met_served_by b)])
  end.

Definition poll_frame (elapsed_ms : Z) (b : Metered) (jobs : list Job)
    : option (frame Trailers BoxError) * Metered * list Job :=
  match inner b with
  | [] => let '(b, jobs) := done_with elapsed_ms b jobs in (None, b, jobs)
  | f :: rest =>
      let m := match f with FData data => read (measuring b) data | _ => measuring b end in
      (Some f, MkMetered rest m (met_served_by b) (met_recording b), jobs)
  end.

(** A caller reads as often as it likes, the clock at each reading given, and then drops what
    is left: the frames it got, and the jobs started. *)
Fixpoint deliver (reads : list Z) (last : Z) (b : Metered) (jobs : list Job)
    : GatewayBody * list Job :=
  match reads with
  | [] => ([], (done_with last b jobs).2)
  | elapsed :: reads =>
      match poll_frame elapsed b jobs with
      | (Some f, b, jobs) => let '(fs, jobs) := deliver reads last b jobs in (f :: fs, jobs)
      | (None, b, jobs) => deliver reads last b jobs
      end
  end.

(** What a task does: the row is stored, or could not be, and then the tokens are counted. *)
Context `{Chrono}.
Context (into_values : gmap (Counted * Period) Limit → list Limit).
Context {C : Type} `{!Counters C}.
Context (record_usage : NewUsage → bool).

Definition run_job (j : Job) (now : Timestamp) (rows : list NewUsage) (c : C)
    : option (list NewUsage * C) :=
  let rows := if record_usage (job_usage j) then rows ++ [job_usage j] else rows in
  match job_limiting j with
  | None => Some (rows, c)
  | Some (limits, asking) =>
      c ← Limiter.spend into_values limits asking (total (u_tokens (job_usage j))) now c;
      Some (rows, c)
  end.

#[local] Arguments measured : simpl never.
#[local] Arguments read : simpl never.
#[local] Arguments write : simpl never.

(** ** Lemmas *)

(** The data of the frames that passed. *)
Definition datas (fs : GatewayBody) : list (list Z) :=
  omap (λ f, match f with FData data => Some data | _ => None end) fs.

Lemma deliver_silent reads last b jobs :
  met_recording b = None →
  deliver reads last b jobs = (take (length reads) (inner b), jobs).
Proof using.
  revert b. induction reads as [|e reads IH]; intros b Hr; cbn [deliver].
  { unfold done_with. by rewrite Hr. }
  unfold poll_frame. destruct (inner b) as [|f rest] eqn:Hi.
  - unfold done_with. rewrite Hr, IH, Hi by done. by rewrite take_nil.
  - by rewrite IH.
Qed.

Lemma deliver_records reads last b jobs r :
  met_recording b = Some r →
  ∃ elapsed, elapsed ∈ last :: reads ∧
    deliver reads last b jobs =
      (take (length reads) (inner b),
       jobs ++ [let m := measured (fold_left read (datas (take (length reads) (inner b))) (measuring b)) in
                write r elapsed (m ≫= m_model) (from_option m_tokens no_tokens m) FromUpstream
                  (met_served_by b)]).
Proof using.
  revert b. induction reads as [|e reads IH]; intros b Hr; cbn [deliver].
  { exists last. split; [set_solver|]. unfold done_with. rewrite Hr. cbn.
    rewrite !take_0. cbn. by destruct (measured (measuring b)). }
  unfold poll_frame. destruct (inner b) as [|f rest] eqn:Hi.
  - exists e. split; [set_solver|]. unfold done_with. rewrite Hr.
    destruct (match measured (measuring b) with Some m => _ | None => _ end) as [model tokens] eqn:Hm.
    rewrite deliver_silent by done. cbn [inner]. rewrite Hi, !take_nil. cbn.
    by destruct (measured (measuring b)); injection Hm as <- <-.
  - destruct (IH (MkMetered rest
        (match f with FData data => read (measuring b) data | _ => measuring b end)
        (met_served_by b) (met_recording b))) as (x & Hx & ->); [done|].
    exists x. split; [set_solver|]. cbn [inner measuring met_served_by length take].
    do 2 f_equal. by destruct f.
Qed.

(** ** Properties *)

(** However much of an answer its caller reads before it is done with it, or gives up on
    it, the caller gets the answer's own frames in order and exactly one record is started: of
    what those frames said they cost, against the endpoint that answered, for the caller it was
    opened for. *)
Theorem recorded_once (r : Recording) (body : GatewayBody) (served_by : Replica) (reads : list Z)
    (last : Z) (jobs : list Job) :
  ∃ elapsed, elapsed ∈ last :: reads ∧
    let passed := take (length reads) body in
    let m := measured (fold_left read (datas passed) unmeasured) in
    deliver reads last (metered r body served_by) jobs =
      (passed,
       jobs ++ [MkJob (MkNewUsage (rec_trace r) (rec_turn r) (rec_tenant r) (rec_user r) (rec_api r)
                         (m ≫= m_model) (from_option m_tokens no_tokens m) FromUpstream
                         (Some served_by) (from_millis elapsed)) (rec_limiting r)]).
Proof using. exact (deliver_records reads last (metered r body served_by) jobs r eq_refl). Qed.
End recorder.

(** ** Pending *)

Module Pending.

(** Where [settled] has got to: reading the count, having made its wait, having armed it, or
    asleep on it; an armed wait remembers that it was notified. *)
Inductive Waiter : Type :=
  | Reading
  | Made
  | Armed (notified : bool)
  | Asleep (notified : bool)
  | Settled.

(** The tasks whose work is not done, those done and not yet counted off, those that counted
    off the last and have yet to notify, the count itself, and the waiter. *)
Record PendingState : Type := MkState {
  working : nat;
  worked : nat;
  notifying : nat;
  count : Z;
  waiter : Waiter
}.

(** [notify_waiters] reaches a wait that is armed. *)
Definition notify (w : Waiter) : Waiter :=
  match w with Armed _ => Armed true | Asleep _ => Asleep true | w => w end.

(** What may happen but for a new write: a task's own steps, and the waiter's. *)
Inductive quiet_step : PendingState → PendingState → Prop :=
  | work_done a b k n w : quiet_step (MkState (S a) b k n w) (MkState a (S b) k n w)
  | counted_off a b k n w :
      quiet_step (MkState a (S b) k n w) (MkState a b (if n =? 1 then S k else k) (n - 1) w)
  | notified a b k n w : quiet_step (MkState a b (S k) n w) (MkState a b k n (notify w))
  | read_none a b k n : n ≤ 0 → quiet_step (MkState a b k n Reading) (MkState a b k n Settled)
  | read_some a b k n : 0 < n → quiet_step (MkState a b k n Reading) (MkState a b k n Made)
  | arm a b k n : quiet_step (MkState a b k n Made) (MkState a b k n (Armed false))
  | recheck_none a b k x :
      quiet_step (MkState a b k 0 (Armed x)) (MkState a b k 0 Settled)
  | recheck_some a b k n x :
      n ≠ 0 → quiet_step (MkState a b k n (Armed x)) (MkState a b k n (Asleep x))
  | wake a b k n : quiet_step (MkState a b k n (Asleep true)) (MkState a b k n Reading).

(** [Pending::writing] counts a write before it is started. *)
Inductive pending_step : PendingState → PendingState → Prop :=
  | quiet p p' : quiet_step p p' → pending_step p p'
  | writing a b k n w : pending_step (MkState a b k n w) (MkState (S a) b k (n + 1) w).

Definition start : PendingState := MkState 0 0 0 0 Reading.

(** *** Lemmas *)

(** The count is of the tasks not yet counted off, and a waiter asleep with nothing left to
    count off has its notification still to come, or has it. *)
Definition pending_ok (p : PendingState) : Prop :=
  count p = Z.of_nat (working p + worked p) ∧
  (waiter p = Asleep false → 0 < count p ∨ (0 < notifying p)%nat).

Lemma step_pending_ok p p' : pending_step p p' → pending_ok p → pending_ok p'.
Proof.
  intros Hs [Hc Hw]. destruct Hs as [p p' Hq|]; [|split; cbn in *; intros; lia].
  destruct Hq; split; cbn in *; try lia; try done.
  - intros ->. specialize (Hw eq_refl). destruct (n =? 1) eqn:E; lia.
  - intros Hn. destruct w as [| |[]|[]|]; done.
Qed.

Lemma reachable_pending_ok p : rtc pending_step start p → pending_ok p.
Proof.
  intros Hr. assert (pending_ok start) as H0 by (split; [done|discriminate]).
  induction Hr as [|p q r Hs _ IH]; [done|]. eapply IH, step_pending_ok; done.
Qed.

(** What is left to do before [settled] returns. *)
Definition rank (w : Waiter) : nat :=
  match w with
  | Armed true => 7 | Asleep true => 6 | Reading => 5 | Made => 4 | Armed false => 3
  | Asleep false => 2 | Settled => 0
  end.
Definition left_to_do (p : PendingState) : nat :=
  20 * working p + 15 * worked p + 10 * notifying p + rank (waiter p).

Lemma quiet_decreases p p' : quiet_step p p' → (left_to_do p' < left_to_do p)%nat.
Proof.
  destruct 1; unfold left_to_do; cbn; try lia.
  - destruct (n =? 1); lia.
  - destruct w as [| |[]|[]|]; cbn; lia.
  - destruct x; cbn; lia.
  - destruct x; cbn; lia.
Qed.

Lemma quiet_progress p : pending_ok p → waiter p ≠ Settled → ∃ p', quiet_step p p'.
Proof.
  destruct p as [a b k n w]. intros [Hc Hw] Hn. cbn in *.
  destruct w as [| |x|[]|]; [| | | | |done].
  - destruct (decide (0 < n)); eexists; [by apply read_some|apply read_none; lia].
  - eexists. apply arm.
  - destruct (decide (n = 0)) as [->|]; eexists; [apply recheck_none|by apply recheck_some].
  - eexists. apply wake.
  - destruct k as [|k]; [|eexists; apply notified].
    destruct b as [|b]; [|eexists; apply counted_off].
    destruct a as [|a]; [|eexists; apply work_done]. destruct (Hw eq_refl); lia.
Qed.

Lemma quiet_or_nf p : pending_ok p → (∃ p', quiet_step p p') ∨ nf quiet_step p.
Proof.
  intros Hp. destruct (decide (rank (waiter p) = 0%nat)) as [E|E].
  2: { left. apply quiet_progress; [done|]. intros Hw. by rewrite Hw in E. }
  destruct p as [[|a] [|b] [|k] n w]; cbn in E; [|left; eexists; constructor..].
  assert (w = Settled) as -> by by destruct w as [| |[]|[]|].
  right. intros [p' Hs]. inversion Hs.
Qed.

Lemma quiet_ends n p :
  (left_to_do p ≤ n)%nat → pending_ok p → ∃ p', rtc quiet_step p p' ∧ nf quiet_step p'.
Proof.
  revert p. induction n as [|n IH]; intros p Hn Hp;
    (destruct (quiet_or_nf p Hp) as [[q Hq]|]; [|by exists p]);
    pose proof (quiet_decreases _ _ Hq); [lia|].
  destruct (IH q) as (p' & Hr & Hnf); [lia|by eapply step_pending_ok; [apply quiet|]|].
  exists p'. split; [by eapply rtc_l|done].
Qed.

(** *** Properties *)

(** C33: a shutdown that waits for the records neither returns early nor sleeps through the
    last of them: wherever any interleaving of writes, counts, notifications and the waiter's
    own steps has led, it returns only with every write done and counted off; and once no new
    write starts, every run comes to an end, after a bounded number of steps, and the end is
    that it returned. *)
Theorem settled_returns (p : PendingState) :
  rtc pending_step start p →
  (∀ p', quiet_step p p' → waiter p ≠ Settled → waiter p' = Settled →
     working p = 0%nat ∧ worked p = 0%nat) ∧
  (∀ n p', nsteps quiet_step n p p' →
     (n ≤ left_to_do p)%nat ∧ (nf quiet_step p' → waiter p' = Settled)) ∧
  ∃ p', rtc quiet_step p p' ∧ nf quiet_step p'.
Proof.
  intros Hp%reachable_pending_ok. split_and!.
  - intros p' Hs Hn Hset. destruct Hp as [Hc _]. destruct Hs; cbn in *; subst; try done; try lia.
    by destruct w as [| |[]|[]|].
  - intros n p' Hsteps. assert (pending_ok p' ∧ (n + left_to_do p' ≤ left_to_do p)%nat) as [Hok Hle].
    { induction Hsteps as [|n p q r Hs _ IH]; [split; [done|lia]|].
      pose proof (quiet_decreases _ _ Hs). destruct IH; [|split; [done|lia]].
      eapply step_pending_ok; [by apply quiet|done]. }
    split; [lia|]. intros Hnf. destruct (decide (rank (waiter p') = 0%nat)) as [E|E].
    + by destruct (waiter p') as [| |[]|[]|].
    + destruct Hnf. apply quiet_progress; [done|]. intros Hw. by rewrite Hw in E.
  - by eapply quiet_ends.
Qed.

(** A waiter asleep while one write is on its way. *)
Definition asleep : PendingState := MkState 1 0 0 1 (Asleep false).

Lemma settled_returns_witness : ∃ p', rtc quiet_step asleep p' ∧ nf quiet_step p'.
Proof.
  refine (proj2 (proj2 (settled_returns asleep _))).
  apply (rtc_l _ _ (MkState 1 0 0 1 Reading)); [apply writing|].
  apply (rtc_l _ _ (MkState 1 0 0 1 Made)); [apply quiet, read_some; lia|].
  apply (rtc_l _ _ (MkState 1 0 0 1 (Armed false))); [apply quiet, arm|].
  apply rtc_once, quiet, recheck_some. lia.
Defined.
End Pending.
