(* ===== verification/Flow.v ===== *)
(** * Flow: one request through the gateway

    Models [crates/ip-gateway/src/flow/stages.rs], [run.rs] and [gateway.rs] over the components
    it composes.  A [Flow] is indexed by the stage it has reached, as the typestate of the source
    is, and a transition takes the stage it leaves to the one it enters.  What the stages share
    ([Node]) is threaded: what plugins and upstreams keep, the cache, the counts, the dispatching
    of every rule, the records started.  The cache a response is kept in and the counts a limit is
    checked against are separate states here, which is what their keys make of them.  A plugin, the
    upstream, and the source of a request's chains are arguments; the readings of clocks and the
    random draw of one request are its [Moments]. *)
From S2P Require Import Prelude Text Ident Key Capability Route Dispatch Table Cache Sled.
From S2P Require Import CacheTrait LimitCore Limiter PluginCore Account Auth RespCache Sse Chains.
From S2P Require Import Measure Gate Recorder.

(** ** What is held *)

(** [RequestContext]. *)
Record RequestContext : Type := MkContext {
  cx_authority : Auth.Authority;
  cx_protocol : Protocol;
  cx_listen : SocketAddr;
  cx_trace : TraceId;
  cx_turn : option TurnId
}.

(** The types that implement [Stage]. *)
Inductive Stage : Type :=
  | Received | Authorized | HeadersProcessed | BodyProcessed
  | Forwarded | ResponseHeadersProcessed | ResponseBodyProcessed.

(** [Stage::NAME]. *)
Definition stage_name (s : Stage) : StageName :=
  match s with
  | Received => Receive
  | Authorized => Authorization
  | HeadersProcessed => HeaderProcess
  | BodyProcessed => BodyProcess
  | Forwarded => ToRoute
  | ResponseHeadersProcessed => ResponseHeaderProcess
  | ResponseBodyProcessed => ResponseBodyProcess
  end.

Section flow.
Context `{HttpLib} `{Crypto} `{Chrono} `{Json}.

Record Routed : Type := MkRouted { routed_request : Request; routed_resolution : Resolution }.
Record Answered : Type := MkAnswered { ans_response : Response; ans_served : Replica }.

(** [Stage::Held]. *)
Definition Held (s : Stage) : Type :=
  match s with
  | Received => Request
  | Authorized | HeadersProcessed | BodyProcessed => Routed
  | _ => Answered
  end.

Record Flow (s : Stage) : Type := MkFlow { context : RequestContext; held : Held s }.
Arguments MkFlow {s} _ _.
Arguments context {s} _.
Arguments held {s} _.

Definition gateway_error (s : Stage) (kind : GatewayErrorKind) : GatewayError :=
  MkGatewayError (stage_name s) kind.

(** ** stages.rs, before anything is shared *)

Definition key_of (cx : RequestContext) (r : Request) : result GatewayError RouteKey :=
  map_err (λ e, MkGatewayError HeaderRead (GatewayValue e))
    (request_key (cx_protocol cx) (authority_of r (cx_listen cx)) (listen_port (cx_listen cx))
       (uri_path (r_uri r))).

(** [resolve]: a rule with an endpoint this build does not carry is no route. *)
Definition resolve_route (t : RoutingTable) (key : RouteKey) : result GatewayError Resolution :=
  resolution ← ok_or (gateway_error Authorized (NoRoute key)) (resolve t key);
  match List.find (λ w, negb (is_forwarded (protocol (endpoint w)))) (res_targets resolution) with
  | Some target => Err (gateway_error Authorized (ProtocolNotServed (protocol (endpoint target))))
  | None => Ok resolution
  end.

Definition api_scope (who : Identity) (api : ApiId) : CapabilityScope :=
  ScopeApi (who_user who) (who_tenant who) api.

Definition allow (cx : RequestContext) (resolution : Resolution) : result GatewayError unit :=
  let who := auth_identity (cx_authority cx) in
  if allows (cx_authority cx) ApiAccess (api_scope who (rule_api (res_rule resolution)))
  then Ok tt
  else Err (gateway_error Authorized (Forbidden ApiAccess)).

Definition received (cx : RequestContext) (r : Request) : Flow Received := MkFlow (s := Received) cx r.

Definition authorize (f : Flow Received) (t : RoutingTable) : result GatewayError (Flow Authorized) :=
  key ← key_of (context f) (held f);
  resolution ← resolve_route t key;
  _ ← allow (context f) resolution;
  Ok (MkFlow (s := Authorized) (context f) (MkRouted (held f) resolution)).

(** ** run.rs *)

(** [Body::collect] and [to_bytes]: the data of the frames, unless reading one fails. *)
Fixpoint collected (body : GatewayBody) : result BoxError (list Z) :=
  match body with
  | [] => Ok []
  | FData data :: body => rest ← collected body; Ok (data ++ rest)
  | FTrailers _ :: body => collected body
  | FErr e :: _ => Err e
  end.

Definition collect (stage : StageName) (body : GatewayBody) : result GatewayError (list Z) :=
  map_err (λ e, MkGatewayError stage (Malformed (show_error e))) (collected body).

(** ** What the stages share *)

(** What plugins and upstreams keep, the cache of responses and the counts. *)
Context {W K C : Type} `{!Cache K} `{!Counters C}.

Record Node : Type := MkNode {
  world : W;
  kept : K;
  counts : C;
  dispatching : RouteRule → Dispatching;
  jobs : list Job
}.
Definition set_world (n : Node) (w : W) : Node :=
  MkNode w (kept n) (counts n) (dispatching n) (jobs n).
Definition set_kept (n : Node) (k : K) : Node :=
  MkNode (world n) k (counts n) (dispatching n) (jobs n).
Definition set_counts (n : Node) (c : C) : Node :=
  MkNode (world n) (kept n) c (dispatching n) (jobs n).
Definition set_dispatching (n : Node) (r : RouteRule) (d : Dispatching) : Node :=
  MkNode (world n) (kept n) (counts n)
    (λ r', if decide (r' = r) then d else dispatching n r') (jobs n).
Definition add_job (n : Node) (j : Job) : Node :=
  MkNode (world n) (kept n) (counts n) (dispatching n) (jobs n ++ [j]).

(** A stage fails with an error, or panics ([None]), or goes on. *)
Definition M (A : Type) : Type := Node → option (result GatewayError A * Node).
#[local] Instance M_ret : MRet M := λ A a n, Some (Ok a, n).
#[local] Instance M_bind : MBind M := λ A B f m n,
  match m n with
  | Some (Ok a, n) => f a n
  | Some (Err e, n) => Some (Err e, n)
  | None => None
  end.
Definition lift {A} (r : result GatewayError A) : M A := λ n, Some (r, n).
Definition act {A} (f : Node → option (result GatewayError A * Node)) : M A := f.

(** What a request is routed and processed by, and what the gateway is built with. *)
Record Gateway : Type := MkGateway {
  table : RoutingTable;
  chains : Identity → ApiId → ProcessorChain;
  limits : list Limit;
  responses : option Ttl;
  records : bool;
  limited : bool
}.

(** [Gateway::with_chains] and [new], and what a gateway is then built with: [caching],
    [recording], [limiting] and [with_limits]. *)
Definition with_chains (t : RoutingTable) (cs : Identity → ApiId → ProcessorChain) : Gateway :=
  MkGateway t cs [] None false false.
Definition new_gateway (t : RoutingTable) (c : ProcessorChain) : Gateway := with_chains t (λ _ _, c).
Definition caching (g : Gateway) (ttl : Ttl) : Gateway :=
  MkGateway (table g) (chains g) (limits g) (Some ttl) (records g) (limited g).
Definition with_recording (g : Gateway) : Gateway :=
  MkGateway (table g) (chains g) (limits g) (responses g) true (limited g).
Definition with_limiter (g : Gateway) : Gateway :=
  MkGateway (table g) (chains g) (limits g) (responses g) (records g) true.
Definition with_limits (g : Gateway) (ls : list Limit) : Gateway :=
  MkGateway (table g) (chains g) ls (responses g) (records g) (limited g).

(** [Gateway::replace]: new rules for every request that starts after it, their plans new. *)
Definition replaced (g : Gateway) (t : RoutingTable) (cs : Identity → ApiId → ProcessorChain)
    (ls : list Limit) (n : Node) : Gateway * Node :=
  (MkGateway t cs ls (responses g) (records g) (limited g),
   MkNode (world n) (kept n) (counts n) (λ r, fresh (val (rule_target r))) (jobs n)).

(** What one request reads off clocks and draws: when it is checked against its limits, when
    the cache is read and written, when the freshness of its answer is judged, the entropy of
    the dispatcher, the microseconds its upstream took, the milliseconds it took until a cached
    answer was recorded, and how many frames of a stream its caller waits for. *)
Record Moments : Type := MkMoments {
  at_admit : Timestamp;
  at_get : Z;
  at_judged : Z;
  at_put : Z;
  entropy : option Z;
  upstream_micros : Z;
  hit_ms : Z;
  caller_waits : option nat
}.

Context (header_plugin : Processor → HeaderMap → W → result ProcessorError HeaderMap * W).
Context (body_plugin : Processor → Sse.processor W).
Context (upstream : Request → W → result str Response * W).
Context (into_values : gmap (Counted * Period) Limit → list Limit).
Context (usage_spent : UsageFilter → Counted → Timestamp → result unit Z).
Context (gw : Gateway) (m : Moments).

Fixpoint run_headers (stage : StageName) (chain : list Processor) (h : HeaderMap) : M HeaderMap :=
  match chain with
  | [] => lift (Ok h)
  | p :: chain => λ n,
      match header_plugin p h (world n) with
      | (Ok h, w) => run_headers stage chain h (set_world n w)
      | (Err e, w) => Some (Err (MkGatewayError stage (GatewayProcessor e)), set_world n w)
      end
  end.

Definition run_body (stage : StageName) (chain : list Processor) (body : GatewayBody)
    : M (option (list Z)) :=
  match chain with
  | [] => lift (Ok None)
  | _ =>
      let read_stage := match stage with BodyProcess => BodyRead | _ => ResponseBodyRead end in
      bytes ← lift (collect read_stage body);
      act (λ n,
        let '(r, w) := run_from (map body_plugin chain) bytes (world n) in
        Some (Some <$> map_err (λ e, MkGatewayError stage (GatewayProcessor e)) r, set_world n w))
  end.

(** [stream_chunks]: the body a streamed answer becomes, for a caller that waits as it does. *)
Definition stream_chunks (body : GatewayBody) (chain : list Processor) : M GatewayBody := λ n,
  let '(w, s) := pump boxed (map body_plugin chain) body [] (world n) (MkSender [] (caller_waits m)) in
  Some (Ok (sent s), set_world n w).

(** ** stages.rs *)

Definition with_headers (r : Request) (h : HeaderMap) : Request :=
  MkRequest (r_method r) (r_uri r) h (r_body r).
Definition with_body (r : Request) (b : GatewayBody) : Request :=
  MkRequest (r_method r) (r_uri r) (r_headers r) b.
Definition answer_headers (a : Answered) (h : HeaderMap) : Answered :=
  MkAnswered (MkResponse (a_status (ans_response a)) h (a_body (ans_response a))) (ans_served a).
Definition answer_body (a : Answered) (b : GatewayBody) : Answered :=
  MkAnswered (MkResponse (a_status (ans_response a)) (a_headers (ans_response a)) b) (ans_served a).

Definition process_headers (f : Flow Authorized) (chain : list Processor) : M (Flow HeadersProcessed) :=
  let r := routed_request (held f) in
  h ← run_headers (stage_name HeadersProcessed) chain (r_headers r);
  mret (MkFlow (s := HeadersProcessed) (context f)
          (MkRouted (with_headers r h) (routed_resolution (held f)))).

Definition process_body (f : Flow HeadersProcessed) (c : ProcessorChain) : M (Flow BodyProcessed) :=
  let r := routed_request (held f) in
  body ← run_body (stage_name BodyProcessed) (request_body c) (r_body r);
  let r :=
    match body with
    | Some bytes =>
        with_body (with_headers r (set_length (length bytes) (r_headers r))) (from_bytes bytes)
    | None => r
    end in
  mret (MkFlow (s := BodyProcessed) (context f) (MkRouted r (routed_resolution (held f)))).

(** [Flow::response_key], with the flow it leaves behind. *)
Definition response_key_of (f : Flow BodyProcessed) : result GatewayError (CacheKey * Flow BodyProcessed) :=
  let r := routed_request (held f) in
  route ← key_of (context f) r;
  bytes ← collect BodyRead (r_body r);
  let f := MkFlow (s := BodyProcessed) (context f)
             (MkRouted (with_body r (from_bytes bytes)) (routed_resolution (held f))) in
  key ← map_err (λ e, gateway_error BodyProcessed (GatewayCache e))
          (response_key route (who_tenant (auth_identity (cx_authority (context f)))) bytes);
  Ok (key, f).

(** [Dispatcher::choose] on the dispatching the rule shares with every other request. *)
Definition chosen (res : Resolution) : M Endpoint := λ n,
  let d := dispatching n (res_rule res) in
  '(e, at_, p) ← dispatch res (plan d) (entropy m);
  Some (Ok e, set_dispatching n (res_rule res) (MkDispatching p (at_ :: outstanding d) (answers d))).

(** [Chosen::drop], which runs however [forward] ends. *)
Definition unchosen (res : Resolution) (n : Node) : option Node :=
  d ← finish 0 (upstream_micros m) (dispatching n (res_rule res));
  Some (set_dispatching n (res_rule res) d).

(** [Flow::forward] once the endpoint is chosen. *)
Definition sent_to_endpoint (r : Request) (target : Endpoint) : M Response :=
  r ← lift (rewrite r target);
  act (λ n,
    let '(response, w) := upstream r (world n) in
    Some (map_err (λ detail, gateway_error Forwarded (GatewayUpstream detail)) response, set_world n w)).

Definition forward (f : Flow BodyProcessed) : M (Flow Forwarded) :=
  let res := routed_resolution (held f) in
  target ← chosen res;
  act (λ n,
    '(response, n) ← sent_to_endpoint (routed_request (held f)) target n;
    n ← unchosen res n;
    Some (response ← response;
          let a := MkAnswered response (replica_of target) in
          Ok (MkFlow (s := Forwarded) (context f)
                (answer_headers a (strip_hop_by_hop (a_headers response)))), n)).

Definition process_response_headers (f : Flow Forwarded) (chain : list Processor)
    : M (Flow ResponseHeadersProcessed) :=
  h ← run_headers (stage_name ResponseHeadersProcessed) chain (a_headers (ans_response (held f)));
  mret (MkFlow (s := ResponseHeadersProcessed) (context f) (answer_headers (held f) h)).

Definition process_response_body (f : Flow ResponseHeadersProcessed) (c : ProcessorChain)
    : M (Flow ResponseBodyProcessed) :=
  let a := held f in
  let response := ans_response a in
  if is_event_stream (a_headers response) && negb (bool_decide (response_chunk c = [])) then
    let h := h_remove CONTENT_LENGTH (a_headers response) in
    body ← stream_chunks (a_body response) (response_chunk c);
    mret (MkFlow (s := ResponseBodyProcessed) (context f) (answer_body (answer_headers a h) body))
  else
    body ← run_body (stage_name ResponseBodyProcessed) (response_body c) (a_body response);
    let a :=
      match body with
      | Some bytes =>
          answer_body (answer_headers a (set_length (length bytes) (a_headers response)))
            (from_bytes bytes)
      | None => a
      end in
    mret (MkFlow (s := ResponseBodyProcessed) (context f) a).

(** [Flow::cacheable], with the flow it leaves behind. *)
Definition cacheable (f : Flow ResponseBodyProcessed) (default_ttl : Ttl)
    : result GatewayError (option (CachedResponse * Ttl) * Flow ResponseBodyProcessed) :=
  let response := ans_response (held f) in
  if negb ((200 <=? a_status response) && (a_status response <? 300))
     || is_event_stream (a_headers response)
  then Ok (None, f)
  else
    let keep (ttl : Ttl) :=
      bytes ← collect ResponseBodyRead (a_body response);
      Ok (Some (MkCached (Gate.get (a_headers response) CONTENT_TYPE) bytes, ttl),
          MkFlow (s := ResponseBodyProcessed) (context f) (answer_body (held f) (from_bytes bytes))) in
    match freshness_of (a_headers response) (at_judged m) with
    | For ttl => keep ttl
    | Unsaid => keep default_ttl
    | Never => Ok (None, f)
    end.

(** ** gateway.rs *)

(** [Gateway::admit]. *)
Definition checked (asking : Asking) : M unit := λ n,
  if negb (limited gw) then Some (Ok tt, n)
  else
    '(decided, c) ← admit_request into_values usage_spent (limits gw) asking (at_admit m) (counts n);
    let refused kind := Err (gateway_error Authorized kind) in
    Some (match decided with
          | Allowed => Ok tt
          | Spent counted period allowance ends => refused (GatewaySpent counted period allowance ends)
          | Unknown why => refused (Unmeasured why)
          end, set_counts n c).

(** The stages the first span of [handle] covers. *)
Definition taken_in (cx : RequestContext) (r : Request)
    : M (Flow BodyProcessed * ProcessorChain * ApiId) :=
  lift (authorize (received cx r) (table gw)) ≫= λ f : Flow Authorized,
  let api := rule_api (res_rule (routed_resolution (held f))) in
  let c := chains gw (auth_identity (cx_authority cx)) api in
  f ← process_headers f (request_headers c);
  f ← process_body f c;
  mret (f, c, api).

Definition upstream_answer (f : Flow BodyProcessed) (c : ProcessorChain)
    : M (Flow ResponseBodyProcessed) :=
  f ← forward f;
  f ← process_response_headers f (response_headers c);
  process_response_body f c.

(** [answer_with]. *)
Definition answer_with (hit : CachedResponse) : Response :=
  let h :=
    match content_type hit with
    | Some value => h_insert CONTENT_TYPE value no_headers
    | None => no_headers
    end in
  MkResponse 200 (set_length (length (cached_body hit)) h) (from_bytes (cached_body hit)).

(** An answer as it leaves [handle]: with the recording its body is measured for, if any. *)
Definition Leaving : Type := (Response * option (Recording * Replica))%type.

Definition measured_for (r : Response) (recording : option Recording) (served : Replica) : Leaving :=
  (r, recording ← recording; Some (recording, served)).

Definition asking_of (cx : RequestContext) (api : ApiId) : Asking :=
  let who := auth_identity (cx_authority cx) in MkAsking (who_tenant who) (who_user who) api.

(** What will record the request, when the gateway records. *)
Definition recording_for (cx : RequestContext) (api : ApiId) : option Recording :=
  if records gw then
    recording_of (serving (followed_of (cx_trace cx) (cx_turn cx) (auth_identity (cx_authority cx))) api)
      (if limited gw then Some (limits gw, asking_of cx api) else None)
  else None.

(** The rest of [handle], when there is no answer to repeat: the answer is kept for [key]. *)
Definition answered_afresh (f : Flow BodyProcessed) (c : ProcessorChain)
    (recording : option Recording) (keep : option (CacheKey * Ttl)) : M Leaving :=
  upstream_answer f c ≫= λ f : Flow ResponseBodyProcessed,
  match keep with
  | None => mret (measured_for (ans_response (held f)) recording (ans_served (held f)))
  | Some (key, default_ttl) =>
      lift (cacheable f default_ttl)
        ≫= λ '((answer, f) : option (CachedResponse * Ttl) * Flow ResponseBodyProcessed),
      act (λ n,
        let n :=
          match answer with
          | Some (answer, ttl) => set_kept n (response_put key answer ttl (at_put m) (kept n)).2
          | None => n
          end in
        Some (Ok (measured_for (ans_response (held f)) recording (ans_served (held f))), n))
  end.

(** [Gateway::handle]. *)
Definition handle (cx : RequestContext) (r : Request) : M Leaving :=
  '(f, c, api) ← taken_in cx r;
  _ ← checked (asking_of cx api);
  let recording := recording_for cx api in
  match responses gw with
  | None => answered_afresh f c recording None
  | Some default_ttl =>
      '(key, f) ← lift (response_key_of f);
      act (λ n,
        let '(hit, k) := response_get key (at_get m) (kept n) in
        let n := set_kept n k in
        match hit with
        | Ok (Some hit) =>
            let n :=
              match recording with
              | Some recording => add_job n (out_of_the_cache recording (hit_ms m) (cached_body hit))
              | None => n
              end in
            Some (Ok (answer_with hit, None), n)
        | Ok None | Err _ => answered_afresh f c recording (Some (key, default_ttl)) n
        end)
  end.
(** ** Lemmas *)

Lemma M_bind_Some {A B} (x : M A) (f : A → M B) n r n' :
  (x ≫= f) n = Some (r, n') ↔
  (∃ a n1, x n = Some (Ok a, n1) ∧ f a n1 = Some (r, n')) ∨
  (∃ e, x n = Some (Err e, n') ∧ r = Err e).
Proof using. unfold mbind, M_bind. destruct (x n) as [[[a|e] n1]|]; naive_solver. Qed.

(** *** What a stage leaves as it was *)

Definition keeps {A} (R : relation Node) (x : M A) : Prop :=
  ∀ n r n', x n = Some (r, n') → R n n'.

Lemma keeps_bind {A B} (R : relation Node) `{!Transitive R} (x : M A) (f : A → M B) :
  keeps R x → (∀ a, keeps R (f a)) → keeps R (x ≫= f).
Proof using.
  intros Hx Hf n r n' [(a & n1 & Hn1 & Hn')|(e & Hn' & _)]%M_bind_Some; [|by eapply Hx].
  etransitivity; [by eapply Hx|by eapply Hf].
Qed.

Lemma keeps_lift {A} (R : relation Node) `{!Reflexive R} (x : result GatewayError A) : keeps R (lift x).
Proof using. by intros n r n' [= _ <-]. Qed.

Lemma keeps_ret {A} (R : relation Node) `{!Reflexive R} (x : A) : keeps R (mret x).
Proof using. by intros n r n' [= _ <-]. Qed.

Lemma keeps_weaken {A} (R R' : relation Node) (x : M A) :
  (∀ n n', R n n' → R' n n') → keeps R x → keeps R' x.
Proof using. intros HR Hx n r n' Hn. by eapply HR, Hx. Qed.

(** Nothing changed but what plugins and upstreams keep. *)
Definition only_world (n n' : Node) : Prop := n' = set_world n (world n').
#[local] Instance only_world_preorder : PreOrder only_world.
Proof using.
  split; [by intros []|]. intros [] [] [] H12 H23. unfold only_world, set_world in *. cbn in *.
  naive_solver.
Qed.

(** Every rule's dispatching is sound. *)
Definition node_ok (n : Node) : Prop :=
  ∀ r, dispatching_ok (val (rule_target r)) (dispatching n r).

(** Nothing is recorded, counted or kept, and the requests that are out are those that were. *)
Record steady (n n' : Node) : Prop := MkSteady {
  steady_kept : kept n' = kept n;
  steady_counts : counts n' = counts n;
  steady_jobs : jobs n' = jobs n;
  steady_out : ∀ r, outstanding (dispatching n' r) = outstanding (dispatching n r);
  steady_ok : node_ok n → node_ok n'
}.
#[local] Instance steady_preorder : PreOrder steady.
Proof using.
  split; [by split|]. intros n1 n2 n3 [] []. split; [congruence..| |eauto].
  intros r. etransitivity; eauto.
Qed.

Lemma only_world_steady n n' : only_world n n' → steady n n'.
Proof using. unfold only_world. intros ->. by split. Qed.

Lemma run_headers_keeps stage chain h : keeps only_world (run_headers stage chain h).
Proof using.
  revert h. induction chain as [|p chain IH]; intros h; [apply keeps_lift, _|].
  intros n r n'. cbn [run_headers]. destruct (header_plugin p h (world n)) as [[h'|e] w].
  - intros Hr%IH. etransitivity; [|exact Hr]. done.
  - by intros [= _ <-].
Qed.

Lemma run_body_keeps stage chain body : keeps only_world (run_body stage chain body).
Proof using.
  unfold run_body. destruct chain as [|p chain]; [apply keeps_lift, _|].
  apply keeps_bind; [apply _|apply keeps_lift, _|]. intros bytes n r n'. unfold act.
  destruct (run_from _ _ _) as [x w]. by intros [= _ <-].
Qed.

Lemma stream_chunks_keeps body chain : keeps only_world (stream_chunks body chain).
Proof using.
  intros n r n'. unfold stream_chunks. destruct (pump _ _ _ _ _ _) as [w s]. by intros [= _ <-].
Qed.

#[local] Ltac stage_keeps :=
  repeat first
    [ apply keeps_lift, _ | apply keeps_ret, _ | apply run_headers_keeps | apply run_body_keeps
    | apply stream_chunks_keeps | apply keeps_bind; [apply _| |intros ?] ].

Lemma taken_in_keeps cx r : keeps only_world (taken_in cx r).
Proof using. unfold taken_in, process_headers, process_body. stage_keeps. Qed.

Lemma process_response_keeps f c :
  keeps only_world (f ← process_response_headers f (response_headers c); process_response_body f c).
Proof using.
  unfold process_response_headers. stage_keeps. unfold process_response_body.
  destruct (_ && _); stage_keeps.
Qed.

(** *** Forwarding *)

(** A resolution has an endpoint for each of its rule's. *)
Definition resolved_whole (res : Resolution) : Prop :=
  length (res_targets res) = length (val (rule_target (res_rule res))).

Lemma resolve_whole t key res : resolve t key = Some res → resolved_whole res.
Proof using.
  unfold resolve. intros (group & _ & Hr)%bind_Some. revert Hr.
  induction group as [|p group IH]; cbn; [done|].
  destruct (remainder_of _ _) as [x|]; [|done]. intros (ts & Hts & [= <-])%bind_Some.
  unfold resolved_whole. cbn. symmetry. by eapply length_mapM.
Qed.

Lemma chosen_total res n :
  node_ok n → resolved_whole res → is_Some (chosen res n).
Proof using.
  intros Hn Hres. unfold chosen, dispatch. set (d := dispatching n (res_rule res)).
  destruct (send_ok _ (target_nonempty _) (rule_strategy (res_rule res)) (entropy m) d (Hn _))
    as (i & p & Hs & Hi & Hok).
  unfold Dispatch.send in Hs. apply bind_Some in Hs as ([j q] & Hch & [= <- <-]). rewrite Hch. cbn.
  destruct (res_targets res !! j) as [w|] eqn:Hw; cbn; [done|].
  apply lookup_ge_None in Hw. unfold resolved_whole in Hres. rewrite Hres in Hw.
  apply live_lt in Hi. lia.
Qed.

(** A request is counted on by a step of its rule's dispatching, and off by another. *)
Lemma chosen_Some res n r n' :
  chosen res n = Some (r, n') →
  ∃ e i d, r = Ok e ∧ n' = set_dispatching n (res_rule res) d ∧
    outstanding d = i :: outstanding (dispatching n (res_rule res)) ∧
    dispatch_step (rule_strategy (res_rule res)) (dispatching n (res_rule res)) d.
Proof using.
  unfold chosen. intros ([[e i] p] & Hd & [= <- <-])%bind_Some. do 3 eexists.
  split; [done|]. split; [done|]. split; [done|]. apply (step_send _ (entropy m)).
  unfold dispatch in Hd. apply bind_Some in Hd as ([j q] & Hch & (w & _ & [= _ <- <-])%bind_Some).
  unfold Dispatch.send. by rewrite Hch.
Qed.

Lemma unchosen_Some res n n' :
  unchosen res n = Some n' →
  ∃ d i, n' = set_dispatching n (res_rule res) d ∧
    outstanding (dispatching n (res_rule res)) = i :: outstanding d ∧
    dispatch_step (rule_strategy (res_rule res)) (dispatching n (res_rule res)) d.
Proof using.
  unfold unchosen. intros (d & Hd & [= <-])%bind_Some.
  assert (dispatch_step (rule_strategy (res_rule res)) (dispatching n (res_rule res)) d)
    as Hs by by eapply step_finish.
  unfold finish in Hd. apply bind_Some in Hd as (i & Hi & (p & _ & [= <-])%bind_Some).
  eexists _, i. split; [done|]. split; [|done]. cbn.
  destruct (outstanding (dispatching n (res_rule res))); [done|]. by injection Hi as <-.
Qed.

Lemma set_dispatching_ok n r d s :
  node_ok n → dispatch_step s (dispatching n r) d → node_ok (set_dispatching n r d).
Proof using.
  intros Hn Hs r'. cbn. case_decide; [subst|apply Hn]. eapply step_ok; [|apply Hn|done].
  apply target_nonempty.
Qed.

Lemma unchosen_total res n :
  node_ok n → outstanding (dispatching n (res_rule res)) ≠ [] → is_Some (unchosen res n).
Proof using.
  intros Hn Hne. unfold unchosen.
  destruct (finish_ok (val (rule_target (res_rule res))) 0 (upstream_micros m)
    (dispatching n (res_rule res)) (Hn _)) as (d & Hd & _).
  { destruct (outstanding (dispatching n (res_rule res))); [done|cbn; lia]. }
  by rewrite Hd.
Qed.

Lemma sent_keeps r target : keeps only_world (sent_to_endpoint r target).
Proof using.
  unfold sent_to_endpoint. apply keeps_bind; [apply _|apply keeps_lift, _|]. intros r' n x n'.
  unfold act. destruct (upstream r' (world n)) as [y w]. by intros [= _ <-].
Qed.

Lemma sent_total r target n : is_Some (sent_to_endpoint r target n).
Proof using.
  unfold sent_to_endpoint, mbind, M_bind, lift. destruct (rewrite r target); [|done].
  unfold act. by destruct (upstream _ _).
Qed.

Lemma forward_keeps f : keeps steady (forward f).
Proof using.
  intros n r n' Hf. unfold forward in Hf.
  apply M_bind_Some in Hf as [(e & n1 & Hc & Hf)|(e & Hc & _)].
  2: { by apply chosen_Some in Hc as (? & ? & ? & ? & _). }
  apply chosen_Some in Hc as (e' & i & d & _ & -> & Hout & Hstep).
  unfold act in Hf. apply bind_Some in Hf as ([x n2] & Hs%sent_keeps & Hf).
  apply bind_Some in Hf as (n3 & (d' & i' & -> & Hout' & Hstep')%unchosen_Some & [= _ <-]).
  unfold only_world in Hs. rewrite Hs in Hout', Hstep' |- *. cbn in Hout', Hstep'.
  rewrite decide_True in Hout', Hstep' by done. split; try done.
  - intros rule. cbn. case_decide; [|done]. subst rule. congruence.
  - intros Hn rule. cbn. case_decide; [subst rule|apply Hn].
    eapply step_ok, Hstep'; [apply target_nonempty|]. eapply step_ok, Hstep; [apply target_nonempty|apply Hn].
Qed.

Lemma upstream_answer_keeps f c : keeps steady (upstream_answer f c).
Proof using.
  unfold upstream_answer. apply keeps_bind; [apply _|apply forward_keeps|]. intros f1.
  eapply keeps_weaken, process_response_keeps. apply only_world_steady.
Qed.

(** *** Authorization *)

(** A request may be carried by a resolution: its key resolves to it, this build carries every
    endpoint of it, and the caller holds access to the rule's api. *)
Definition admissible (cx : RequestContext) (r : Request) (res : Resolution) : Prop :=
  ∃ key, key_of cx r = Ok key ∧ resolve (table gw) key = Some res ∧
    Forall (λ w, is_forwarded (protocol (endpoint w)) = true) (res_targets res) ∧
    allows (cx_authority cx) ApiAccess
      (api_scope (auth_identity (cx_authority cx)) (rule_api (res_rule res))) = true.

Lemma resolve_route_ok t key res :
  resolve_route t key = Ok res ↔ resolve t key = Some res ∧
    Forall (λ w, is_forwarded (protocol (endpoint w)) = true) (res_targets res).
Proof using.
  unfold resolve_route. rewrite bind_ok. setoid_rewrite ok_or_ok. split.
  - intros (x & Hx & Hr). destruct (List.find _ _) eqn:Hf; [done|]. injection Hr as ->.
    split; [done|]. apply find_None_Forall in Hf. eapply Forall_impl; [exact Hf|].
    intros w. apply negb_false_iff.
  - intros [Hr Hall]. exists res. split; [done|].
    replace (List.find _ _) with (@None Weighted); [done|]. symmetry. apply find_None_Forall.
    eapply Forall_impl; [exact Hall|]. intros w. apply negb_false_iff.
Qed.

Lemma authorize_ok cx r f :
  authorize (received cx r) (table gw) = Ok f ↔
  ∃ res, admissible cx r res ∧ f = MkFlow (s := Authorized) cx (MkRouted r res).
Proof using.
  unfold authorize, admissible. cbn [context held received]. rewrite bind_ok.
  setoid_rewrite bind_ok. setoid_rewrite resolve_route_ok. setoid_rewrite bind_ok.
  unfold allow. split.
  - intros (key & Hk & res & [Hr Hall] & [] & Ha & [= <-]). destruct (allows _ _ _) eqn:Hal; [|done].
    exists res. split; [|done]. by exists key.
  - intros (res & (key & Hk & Hr & Hall & Ha) & ->). exists key. split; [done|]. exists res.
    split; [done|]. exists tt. by rewrite Ha.
Qed.

Lemma authorize_err cx r e :
  authorize (received cx r) (table gw) = Err e → status e ∈ [400; 403; 404; 501].
Proof using.
  unfold authorize, key_of, resolve_route, allow. cbn [context held received].
  intros [Hk|(key & _ & Hk)]%bind_err.
  { destruct (request_key _ _ _ _); [done|]. injection Hk as <-. cbn. by repeat constructor. }
  apply bind_err in Hk as [Hr|(res & _ & Hr)].
  - apply bind_err in Hr as [Hr|(res & _ & Hr)].
    + destruct (resolve _ _); [done|]. injection Hr as <-. cbn. by repeat constructor.
    + destruct (List.find _ _); [|done]. injection Hr as <-. cbn. by repeat constructor.
  - apply bind_err in Hr as [Hr|([] & _ & Hr)]; [|done].
    destruct (allows _ _ _); [done|]. injection Hr as <-. cbn. by repeat constructor.
Qed.

Lemma taken_in_ok cx r n f c api n' :
  taken_in cx r n = Some (Ok (f, c, api), n') →
  ∃ res, admissible cx r res ∧ context f = cx ∧ routed_resolution (held f) = res ∧
    api = rule_api (res_rule res) ∧ c = chains gw (auth_identity (cx_authority cx)) api.
Proof using.
  unfold taken_in. intros [(f0 & n0 & Ha & Ht)|(e & _ & ?)]%M_bind_Some; [|done].
  injection Ha as Ha <-. apply authorize_ok in Ha as (res & Hadm & ->).
  apply M_bind_Some in Ht as [(f1 & n1 & Hh & Ht)|(e & _ & ?)]; [|done].
  apply M_bind_Some in Hh as [(h & n2 & _ & Hh)|(e & _ & ?)]; [|done]. injection Hh as <- _.
  apply M_bind_Some in Ht as [(f2 & n3 & Hb & Ht)|(e & _ & ?)]; [|done].
  apply M_bind_Some in Hb as [(b & n4 & _ & Hb)|(e & _ & ?)]; [|done]. injection Hb as <- _.
  injection Ht as <- <- <- _. exists res. done.
Qed.

(** *** Every stage comes to an end *)

Definition runs {A} (x : M A) : Prop := ∀ n, node_ok n → is_Some (x n).

Lemma runs_bind {A B} (x : M A) (f : A → M B) :
  runs x → keeps (λ n n', node_ok n → node_ok n') x →
  (∀ n a n', x n = Some (Ok a, n') → runs (f a)) → runs (x ≫= f).
Proof using.
  intros Hx Hk Hf n Hn. destruct (Hx n Hn) as [[[a|e] n'] Hr]; unfold mbind, M_bind; rewrite Hr; [|done].
  eapply Hf; [done|]. by eapply Hk.
Qed.

Lemma runs_lift {A} (x : result GatewayError A) : runs (lift x).
Proof using. intros n _. by eexists. Qed.

Lemma run_headers_runs stage chain h : runs (run_headers stage chain h).
Proof using.
  revert h. induction chain as [|p chain IH]; intros h n Hn; cbn [run_headers]; [by eexists|].
  destruct (header_plugin _ _ _) as [[]]; [|done]. by apply IH.
Qed.

Lemma run_body_runs stage chain body : runs (run_body stage chain body).
Proof using.
  unfold run_body. destruct chain as [|p chain]; [apply runs_lift|].
  intros n Hn. unfold mbind, M_bind, lift. destruct (collect _ _); [|done].
  unfold act. by destruct (run_from _ _ _).
Qed.

Lemma keeps_ok {A} (R : relation Node) (x : M A) :
  (∀ n n', R n n' → steady n n') → keeps R x → keeps (λ n n', node_ok n → node_ok n') x.
Proof using. intros HR. apply keeps_weaken. intros n n' Hs%HR. apply Hs. Qed.

Lemma runs_ret {A} (x : A) : runs (mret x).
Proof using. intros n _. by eexists. Qed.

Lemma stream_chunks_runs body chain : runs (stream_chunks body chain).
Proof using. intros n _. unfold stream_chunks. by destruct (pump _ _ _ _ _ _). Qed.

#[local] Ltac stage_runs :=
  repeat first
    [ apply runs_lift | apply runs_ret | apply run_headers_runs | apply run_body_runs
    | apply stream_chunks_runs
    | apply runs_bind;
      [ | apply (keeps_ok only_world _ only_world_steady); stage_keeps | intros ? ? ? _ ] ].

Lemma taken_in_runs cx r : runs (taken_in cx r).
Proof using. unfold taken_in, process_headers, process_body. stage_runs. Qed.

Lemma process_response_runs f c :
  runs (f ← process_response_headers f (response_headers c); process_response_body f c).
Proof using.
  unfold process_response_headers. stage_runs. unfold process_response_body.
  destruct (_ && _); stage_runs.
Qed.

Lemma forward_runs (f : Flow BodyProcessed) : resolved_whole (routed_resolution (held f)) → runs (forward f).
Proof using.
  intros Hres n Hn. destruct (chosen_total _ _ Hn Hres) as [[x n1] Hc].
  unfold forward, mbind, M_bind. rewrite Hc.
  apply chosen_Some in Hc as (e & i & d & -> & -> & Hout & Hstep). unfold act.
  destruct (sent_total (routed_request (held f)) e
    (set_dispatching n (res_rule (routed_resolution (held f))) d)) as [[y n2] Hs].
  rewrite Hs. cbn [mbind option_bind]. apply sent_keeps in Hs. unfold only_world in Hs.
  destruct (unchosen_total (routed_resolution (held f)) n2) as [n3 Hu].
  - rewrite Hs. exact (set_dispatching_ok _ _ _ _ Hn Hstep).
  - rewrite Hs. cbn. by rewrite decide_True, Hout.
  - by rewrite Hu.
Qed.

Lemma upstream_answer_runs (f : Flow BodyProcessed) c :
  resolved_whole (routed_resolution (held f)) → runs (upstream_answer f c).
Proof using.
  intros Hres. unfold upstream_answer. apply runs_bind; [by apply forward_runs| |].
  - by apply (keeps_ok steady), forward_keeps.
  - intros ? f1 ? _. apply process_response_runs.
Qed.

Lemma checked_total asking n : is_Some (checked asking n).
Proof using.
  unfold checked. destruct (limited gw); [|by eexists]. cbn [negb]. unfold admit_request.
  destruct (admit_all_total usage_spent (applying_to into_values (limits gw) asking) (at_admit m)
    (counts n)) as (d & c & ->). by eexists.
Qed.

(** Being checked changes the counts and nothing else. *)
Lemma checked_keeps asking n r n' :
  checked asking n = Some (r, n') → n' = set_counts n (counts n').
Proof using.
  unfold checked. destruct (limited gw); cbn [negb].
  - intros ([d c] & _ & [= _ <-])%bind_Some. done.
  - intros [= _ <-]. by destruct n.
Qed.

Lemma response_key_of_ok f key (f' : Flow BodyProcessed) :
  response_key_of f = Ok (key, f') →
  context f' = context f ∧ routed_resolution (held f') = routed_resolution (held f).
Proof using.
  unfold response_key_of. intros (route & _ & Hr)%bind_ok.
  apply bind_ok in Hr as (bytes & _ & Hr). by apply bind_ok in Hr as (k & _ & [= _ <-]).
Qed.

(** An answer from the upstream is kept or not; the rest is as it was. *)
Lemma answered_afresh_keeps f c recording keep n r n' :
  answered_afresh f c recording keep n = Some (r, n') →
  counts n' = counts n ∧ jobs n' = jobs n ∧ (node_ok n → node_ok n') ∧
  (∀ rule, outstanding (dispatching n' rule) = outstanding (dispatching n rule)) ∧
  match r with
  | Ok (_, metered) => ∃ served, metered = (recording ← recording; Some (recording, served))
  | Err _ => True
  end.
Proof using.
  unfold answered_afresh. intros [(f1 & n1 & Hu & Ha)|(e & Hu & ->)]%M_bind_Some;
    apply upstream_answer_keeps in Hu as [Hk Hc Hj Ho Hok]; [|done].
  destruct keep as [[key ttl]|].
  - apply M_bind_Some in Ha as [([answer f2] & n2 & Hl & Ha)|(e & Hl & ->)];
      injection Hl as _ <-; [|done].
    injection Ha as <- <-. destruct answer as [[answer ttl']|]; cbn; naive_solver.
  - injection Ha as <- <-. naive_solver.
Qed.

Lemma answered_afresh_runs (f : Flow BodyProcessed) c recording keep :
  resolved_whole (routed_resolution (held f)) → runs (answered_afresh f c recording keep).
Proof using.
  intros Hres. unfold answered_afresh. apply runs_bind; [by apply upstream_answer_runs| |].
  - by apply (keeps_ok steady), upstream_answer_keeps.
  - intros _ f1 _ _. destruct keep as [[key ttl]|]; [|apply (runs_lift (Ok _))].
    intros n _. unfold mbind, M_bind, lift. destruct (cacheable f1 ttl) as [[answer f2]|]; [|by eexists].
    by eexists.
Qed.

(** Nothing new is out, and every rule's dispatching is as sound as it was. *)
Definition none_out (n n' : Node) : Prop :=
  (node_ok n → node_ok n') ∧
  ∀ rule, outstanding (dispatching n' rule) = outstanding (dispatching n rule).

(** A record of its own, started or to be started by its body, or none. *)
Definition leaves_record (cx : RequestContext) (r : Request) (n : Node)
    (x : result GatewayError Leaving) (n' : Node) : Prop :=
  match x with
  | Err _ => jobs n' = jobs n
  | Ok (a, metered) => ∃ res, admissible cx r res ∧
      let recording := recording_for cx (rule_api (res_rule res)) in
      (∃ served, metered = (recording ← recording; Some (recording, served)) ∧ jobs n' = jobs n) ∨
      (∃ hit, metered = None ∧
         jobs n' = jobs n ++ option_list ((λ rec, out_of_the_cache rec (hit_ms m) hit) <$> recording))
  end.

Lemma afresh_leaves cx r res n n1 f c keep x n' :
  admissible cx r res → none_out n n1 → jobs n1 = jobs n →
  answered_afresh f c (recording_for cx (rule_api (res_rule res))) keep n1 = Some (x, n') →
  none_out n n' ∧ leaves_record cx r n x n'.
Proof using.
  intros Hadm [Hok1 Ho1] Hj1 (_ & Hj & Hok & Ho & Hx)%answered_afresh_keeps.
  split; [split; [by intros ?%Hok1%Hok|intros rule; by rewrite Ho]|].
  unfold leaves_record. destruct x as [[a metered]|e]; [|congruence]. destruct Hx as [served ->].
  exists res. split; [done|]. left. exists served. split; [done|congruence].
Qed.

Lemma handle_leaves cx r n x n' :
  handle cx r n = Some (x, n') → none_out n n' ∧ leaves_record cx r n x n'.
Proof using.
  unfold handle. intros [([[f c] api] & n1 & Ht & Hh)|(e & Ht & ->)]%M_bind_Some;
    pose proof (taken_in_keeps _ _ _ _ _ Ht) as [Hk1 Hc1 Hj1 Ho1 Hok1]%only_world_steady; [|done].
  apply taken_in_ok in Ht as (res & Hadm & _ & _ & -> & _).
  apply M_bind_Some in Hh as [([] & n2 & Hck%checked_keeps & Hh)|(e & Hck%checked_keeps & ->)].
  2: { unfold none_out, leaves_record. by rewrite Hck. }
  rewrite Hck in Hh. clear Hck. assert (none_out n n1) as Hno by done.
  destruct (responses gw) as [ttl|]; [|by eapply afresh_leaves; [exact Hadm|..|exact Hh]].
  apply M_bind_Some in Hh as [([key f1] & n3 & Hl & Hh)|(e & Hl & ->)]; injection Hl as _ <-; [|done].
  unfold act in Hh. destruct (response_get _ _ _) as [hit k].
  destruct hit as [[hit|]|e]; [|by eapply afresh_leaves; [exact Hadm|..|exact Hh]..].
  injection Hh as <- <-. unfold none_out, leaves_record.
  destruct (recording_for _ _) as [rec|] eqn:Hrec; (split; [done|]); exists res; (split; [done|]);
    right; exists (cached_body hit); rewrite Hrec; cbn; by rewrite Hj1, ?app_nil_r.
Qed.

(** *** Keeping an answer *)

(** An answer that may be kept, and for how long: it succeeded, it is no stream, and its headers
    name a span or leave it to the default. *)
Definition keepable (default_ttl : Ttl) (a : Response) (ttl : Ttl) : Prop :=
  200 ≤ a_status a < 300 ∧ is_event_stream (a_headers a) = false ∧
  (freshness_of (a_headers a) (at_judged m) = For ttl ∨
   freshness_of (a_headers a) (at_judged m) = Unsaid ∧ ttl = default_ttl).

Lemma cacheable_ok f default_ttl answer (f' : Flow ResponseBodyProcessed) ttl :
  cacheable f default_ttl = Ok (answer, f') → keepable default_ttl (ans_response (held f')) ttl →
  ∃ bytes, a_body (ans_response (held f')) = from_bytes bytes ∧
    answer = Some (MkCached (Gate.get (a_headers (ans_response (held f'))) CONTENT_TYPE) bytes, ttl).
Proof using.
  unfold cacheable, keepable. set (a := ans_response (held f)). intros Hc (Hst & Hes & Hfr).
  assert (a_status (ans_response (held f')) = a_status a ∧
          a_headers (ans_response (held f')) = a_headers a) as [Es Eh].
  { destruct (_ || _); [by injection Hc as _ <-|].
    destruct (freshness_of _ _); [| |by injection Hc as _ <-];
      by apply bind_ok in Hc as (b & _ & [= _ <-]). }
  rewrite Es, Eh in *. replace (200 <=? a_status a) with true in Hc by lia.
  replace (a_status a <? 300) with true in Hc by lia. rewrite Hes in Hc. cbn [negb andb orb] in Hc.
  destruct Hfr as [Hfr|[Hfr ->]]; rewrite Hfr in Hc;
    apply bind_ok in Hc as (bytes & _ & [= <- <-]); by exists bytes.
Qed.

Lemma afresh_kept f c recording key default_ttl n a metered n' ttl :
  answered_afresh f c recording (Some (key, default_ttl)) n = Some (Ok (a, metered), n') →
  keepable default_ttl a ttl →
  ∃ bytes, a_body a = from_bytes bytes ∧
    kept n' = (response_put key (MkCached (Gate.get (a_headers a) CONTENT_TYPE) bytes) ttl
                 (at_put m) (kept n)).2.
Proof using.
  unfold answered_afresh. intros [(f1 & n1 & Hu & Ha)|(e & _ & ?)]%M_bind_Some Hk; [|done].
  apply upstream_answer_keeps in Hu as [Hkept _ _ _ _].
  apply M_bind_Some in Ha as [([answer f2] & n2 & Hl & Ha)|(e & _ & ?)]; [|done].
  injection Hl as Hl <-. injection Ha as <- _ <-.
  destruct (cacheable_ok _ _ _ _ _ Hl Hk) as (bytes & Hb & ->). exists bytes. split; [done|].
  cbn [kept set_kept]. by rewrite Hkept.
Qed.

(** ** Properties *)

(** A request that may not be carried touches nothing: either its key resolves to a rule
    this build carries and its caller holds access to that rule's api, or it is answered with
    400, 403, 404 or 501 before any plugin, limit, cache or upstream has been asked, and every
    part of the node is as it was. *)
Theorem unauthorized_untouched (cx : RequestContext) (r : Request) (n : Node) :
  (∃ res, admissible cx r res) ∨
  ∃ e, handle cx r n = Some (Err e, n) ∧ status e ∈ [400; 403; 404; 501].
Proof using.
  destruct (authorize (received cx r) (table gw)) as [f|e] eqn:Ha.
  - left. apply authorize_ok in Ha as (res & Hadm & _). by exists res.
  - right. exists e. split; [|by eapply authorize_err].
    unfold handle, taken_in, mbind, M_bind, lift. by rewrite Ha.
Qed.

(** C30: the dataflow always comes to an answer: wherever the dispatching of the rules has got
    to, whatever plugins, cache, store and upstream answer, no index is out of range and no
    unreachable branch is reached, and the dispatching is sound for the next request. *)
Theorem handle_answers (cx : RequestContext) (r : Request) (n : Node) :
  node_ok n → ∃ x n', handle cx r n = Some (x, n') ∧ node_ok n'.
Proof using.
  intros Hn. assert (runs (handle cx r)) as Hr.
  { unfold handle. apply runs_bind; [apply taken_in_runs| |].
    { apply (keeps_ok only_world); [apply only_world_steady|apply taken_in_keeps]. }
    intros n0 [[f c] api] n1 (res & (key & _ & Hres%resolve_whole & _) & _ & <- & _)%taken_in_ok.
    apply runs_bind; [intros n2 _; apply checked_total|intros n2 y n3 Hck%checked_keeps; by rewrite Hck|].
    intros _ [] _ _. destruct (responses gw) as [ttl|]; [|by apply answered_afresh_runs].
    apply runs_bind; [apply runs_lift|by intros n2 y n3 [= _ <-]|].
    intros n2 [key' f'] n3 [= Hkey _]. apply response_key_of_ok in Hkey as [_ Hf'].
    intros n4 Hn4. unfold act. destruct (response_get _ _ _) as [[[hit|]|e] k]; [by eexists|..];
      (apply answered_afresh_runs; [by rewrite Hf'|done]). }
  destruct (Hr n Hn) as [[x n'] Hx]. exists x, n'. split; [done|].
  by apply handle_leaves in Hx as [[Hok _] _]; auto.
Qed.

(** However a request ends, at an error of any stage or with an answer, it is no longer
    counted against any endpoint: for every rule, each endpoint's count of requests in flight is
    what it was before the request came. *)
Theorem in_flight_restored (cx : RequestContext) (r : Request) (n n' : Node)
    (x : result GatewayError Leaving) :
  node_ok n → handle cx r n = Some (x, n') →
  ∀ rule i l l', load (plan (dispatching n rule)) !! i = Some l →
    load (plan (dispatching n' rule)) !! i = Some l' → in_flight l' = in_flight l.
Proof using.
  intros Hn [[Hok Ho] _]%handle_leaves rule i l l' Hl Hl'.
  rewrite (ok_in_flight _ _ (Hn rule) _ _ Hl), (ok_in_flight _ _ (Hok Hn rule) _ _ Hl').
  by rewrite Ho.
Qed.

(** C29: with a store to record in, every request that is answered leaves exactly one record,
    however much of the answer its caller reads: of that caller, its trace and the api that
    served it, to be counted against the limits in force; and a request that is not answered
    leaves none. *)
Theorem one_record (cx : RequestContext) (r : Request) (n n' : Node)
    (x : result GatewayError Leaving) :
  records gw = true → handle cx r n = Some (x, n') →
  match x with
  | Err _ => jobs n' = jobs n
  | Ok (a, metered_for) => ∀ reads last, ∃ res j, admissible cx r res ∧
      match metered_for with
      | Some (rec, served) => (deliver reads last (metered rec (a_body a) served) (jobs n')).2
      | None => jobs n'
      end = jobs n ++ [j] ∧
      let who := auth_identity (cx_authority cx) in
      u_trace (job_usage j) = cx_trace cx ∧ u_turn (job_usage j) = cx_turn cx ∧
      u_tenant (job_usage j) = who_tenant who ∧ u_user (job_usage j) = who_user who ∧
      u_api (job_usage j) = rule_api (res_rule res) ∧
      job_limiting j = if limited gw then Some (limits gw, asking_of cx (u_api (job_usage j))) else None
  end.
Proof using.
  intros Hrec [_ Hx]%handle_leaves. unfold leaves_record in Hx. destruct x as [[a metered_for]|e]; [|done].
  intros reads last. destruct Hx as (res & Hadm & Hx).
  unfold recording_for in Hx. rewrite Hrec in Hx. cbn in Hx.
  destruct Hx as [(served & -> & Hj)|(hit & -> & ->)].
  - cbn [mbind option_bind]. rewrite Hj.
    match goal with |- context [deliver _ _ ?b _] =>
      destruct (deliver_records reads last b (jobs n) _ eq_refl) as (e & _ & ->) end.
    eexists res, _. split; [done|]. split; [done|]. done.
  - eexists res, _. split; [done|]. split; [done|]. done.
Qed.

(** C35: a request that a limit refuses, or that cannot be counted, goes no further: it is
    answered with 429 and a reason, or with 503 and none, and of the node only what the request
    plugins keep and the counts have changed; nothing is read from or kept in the cache, sent to
    an endpoint or recorded. *)
Theorem refused_goes_no_further (cx : RequestContext) (r : Request) (n n1 : Node)
    (f : Flow BodyProcessed) (c : ProcessorChain) (api : ApiId) (d : LimitDecision) (counted : C) :
  taken_in cx r n = Some (Ok (f, c, api), n1) → limited gw = true →
  admit_request into_values usage_spent (limits gw) (asking_of cx api) (at_admit m) (counts n)
    = Some (d, counted) → d ≠ Allowed →
  ∃ e, handle cx r n
       = Some (Err e, MkNode (world n1) (kept n) counted (dispatching n) (jobs n)) ∧
    match d with
    | Spent _ _ _ _ => status e = 429 ∧ is_Some (public_reason e)
    | _ => status e = 503 ∧ public_reason e = None
    end.
Proof using.
  intros Ht Hl Had Hd. pose proof (taken_in_keeps _ _ _ _ _ Ht) as Hn1.
  unfold only_world in Hn1. unfold handle, mbind at 1, M_bind at 1. rewrite Ht.
  unfold mbind, M_bind, checked. rewrite Hl. cbn [negb].
  replace (counts n1) with (counts n) by by rewrite Hn1. rewrite Had. cbn [mbind option_bind].
  destruct d; [done|..]; eexists; (split; [rewrite Hn1; done|]); done.
Qed.

(** A request's answer is kept, and repeated, without regard to its query or its method: two
    requests that differ in nothing else share one entry, although the upstream is sent the
    query of each. *)
Theorem query_shares_answer (cx : RequestContext) (r r' : Request) (res res' : Resolution) :
  uri_authority (r_uri r') = uri_authority (r_uri r) → uri_path (r_uri r') = uri_path (r_uri r) →
  r_headers r' = r_headers r → r_body r' = r_body r →
  fst <$> response_key_of (MkFlow (s := BodyProcessed) cx (MkRouted r' res'))
  = fst <$> response_key_of (MkFlow (s := BodyProcessed) cx (MkRouted r res)).
Proof using.
  intros Ha Hp Hh Hb. unfold response_key_of, key_of, authority_of.
  cbn [context held routed_request]. rewrite Ha, Hp, Hh, Hb.
  destruct (map_err _ _) as [route|]; [|done]. cbn [mbind result_bind].
  destruct (collect _ _) as [bytes|]; [|done]. cbn [mbind result_bind].
  by destruct (map_err _ (response_key _ _ _)).
Qed.
End flow.

(** ** A repeated request *)

Section repeated.
Context `{HttpLib} `{Crypto} `{Chrono} `{Json} {W K C : Type} `{!Cache K} `{!Counters C}.
Context (header_plugin : Processor → HeaderMap → W → result ProcessorError HeaderMap * W).
Context (body_plugin : Processor → Sse.processor W).
Context (upstream : Request → W → result str Response * W).
Context (into_values : gmap (Counted * Period) Limit → list Limit).
Context (usage_spent : UsageFilter → Counted → Timestamp → result unit Z).
#[local] Abbreviation State := (Node (W := W) (K := K) (C := C)).
#[local] Abbreviation handled gw m cx r n :=
  (handle header_plugin body_plugin upstream into_values usage_spent gw m cx r n).

(** A request has come as far as the cache, which it asks for [key]: it was authorized, the
    request plugins let it by, and so did its limits. *)
Definition asks_cache (gw : Gateway) (m : Moments) (cx : RequestContext) (r : Request)
    (n : State) (key : CacheKey) (n' : State) : Prop :=
  ∃ f c api n1 f1,
    taken_in header_plugin body_plugin gw cx r n = Some (Ok (f, c, api), n1) ∧
    checked into_values usage_spent gw m (asking_of cx api) n1 = Some (Ok tt, n') ∧
    response_key_of f = Ok (key, f1).

Lemma asks_cache_kept gw m cx r n key n' : asks_cache gw m cx r n key n' → kept n' = kept n.
Proof using.
  intros (f & c & api & n1 & f1 & Ht%taken_in_keeps & Hc%checked_keeps & _).
  rewrite Hc. cbn. by rewrite Ht.
Qed.

(** Past the cache, [handle] is what it does with what the cache answered. *)
Lemma handle_asked gw m cx r n key n' default_ttl :
  asks_cache gw m cx r n key n' → responses gw = Some default_ttl →
  ∃ f c recording,
    handled gw m cx r n =
      match response_get key (at_get m) (kept n') with
      | (Ok (Some hit), k) =>
          Some (Ok (answer_with hit, None),
            match recording with
            | Some rec => add_job (set_kept n' k) (out_of_the_cache rec (hit_ms m) (cached_body hit))
            | None => set_kept n' k
            end)
      | (_, k) =>
          answered_afresh header_plugin body_plugin upstream m f c recording
            (Some (key, default_ttl)) (set_kept n' k)
      end.
Proof using.
  intros (f & c & api & n1 & f1 & Ht & Hc & Hk) Hr. exists f1, c, (recording_for gw cx api).
  unfold handle, mbind, M_bind. rewrite Ht, Hc, Hr. unfold lift. rewrite Hk. unfold act.
  by destruct (response_get _ _ _) as [[[]|] k].
Qed.

End repeated.

(** ** Sample values *)

(** A gateway with one table, a cache, a limiter and a store, whose upstream answers [pong] and
    counts how often it was asked. *)
Module FlowSample.
Import GateSample SampleCrypto SampleChrono LimiterSample TableSample.
#[export] Existing Instance MeasureSample.json.
Abbreviation State := (Node (W := nat) (K := View) (C := gmap (list Z) Z)).

Definition leave_headers (p : Processor) (h : HeaderMap) (w : nat)
    : result ProcessorError HeaderMap * nat := (Ok h, w).
Definition leave_body (p : Processor) : Sse.processor nat := λ b w, (Ok b, w).
Definition pong (r : Request) (w : nat) : result str Response * nat :=
  (Ok (MkResponse 200 [header #"content-type" #"text/plain"] [FData #"po"; FData #"ng"]), S w).

Definition gateway (limits : list Limit) : Gateway :=
  with_limiter (with_recording (caching (with_limits
    (new_gateway (Table.from_rules [narrow; wide]) empty_chain) limits) Memory.minute)).
Definition at_moment (get put : Z) : Moments := MkMoments 120 get 0 put None 250 5 None.
Definition trace : TraceId := MkRefined (check := check_bytes 16) (repeat 1 16) eq_refl.
Definition cx : RequestContext :=
  MkContext (MkAuthority (MkIdentity user tenant SysAdmin) ∅) Http
    (MkSocketAddr #"127.0.0.1:8080" 8080) trace None.
Definition ask : Request :=
  MkRequest #"POST" (MkParts None (Some #"gateway.local:8080") #"/llm/chat/v1/messages" None) []
    [FData #"hi"].
Definition fresh_node : State := MkNode 0%nat empty_view ∅ (λ r, fresh (val (rule_target r))) [].

Abbreviation handled limits m n :=
  (handle leave_headers leave_body pong values no_rows (gateway limits) m cx ask n).

Lemma fresh_node_ok : node_ok fresh_node.
Proof. intros r. apply fresh_ok. Qed.

(** What came of a request: the status, and how often the upstream has been asked. *)
Definition outcome (x : option (result GatewayError Leaving * State)) : Z * nat :=
  match x with
  | Some (Ok (a, _), n) => (a_status a, world n)
  | Some (Err e, n) => (status e, world n)
  | None => (0, 0%nat)
  end.

(** Asked twice, the upstream answers once. *)
Example answered_once :
  let x := handled [] (at_moment 1000 1001) fresh_node in
  outcome x = (200, 1%nat) ∧
  outcome ('(_, n) ← x; handled [] (at_moment 2000 2001) n) = (200, 1%nat).
Proof. vm_compute. done. Qed.

Lemma handle_answers_witness :
  ∃ x n', handled [] (at_moment 1000 1001) fresh_node = Some (x, n') ∧ node_ok n'.
Proof.
  apply (handle_answers leave_headers leave_body pong values no_rows (gateway [])).
  exact fresh_node_ok.
Defined.

Lemma first_answered :
  ∃ a metered n', handled [] (at_moment 1000 1001) fresh_node = Some (Ok (a, metered), n').
Proof.
  assert ((match handled [] (at_moment 1000 1001) fresh_node with Some (Ok _, _) => 1 | _ => 0 end) = 1)
    as Hok by (vm_compute; reflexivity).
  destruct (handled [] (at_moment 1000 1001) fresh_node) as [[[[a metered]|e] n']|]; [|done..]. eauto.
Qed.

Lemma in_flight_restored_witness :
  ∃ x n', handled [] (at_moment 1000 1001) fresh_node = Some (x, n') ∧
    ∀ rule i l l', load (plan (dispatching fresh_node rule)) !! i = Some l →
      load (plan (dispatching n' rule)) !! i = Some l' → in_flight l' = in_flight l.
Proof.
  destruct first_answered as (a & metered & n' & Hh). exists (Ok (a, metered)), n'. split; [exact Hh|].
  apply (in_flight_restored leave_headers leave_body pong values no_rows (gateway [])
    (at_moment 1000 1001) cx ask fresh_node n' (Ok (a, metered))).
  - exact fresh_node_ok.
  - exact Hh.
Defined.

Lemma one_record_witness :
  ∃ a metered_for n', handled [] (at_moment 1000 1001) fresh_node = Some (Ok (a, metered_for), n') ∧
    ∀ reads last, ∃ res j, admissible (gateway []) cx ask res ∧
      match metered_for with
      | Some (rec, served) => (deliver reads last (metered rec (a_body a) served) (jobs n')).2
      | None => jobs n'
      end = [j] ∧
      u_trace (job_usage j) = trace ∧ u_turn (job_usage j) = None ∧ u_tenant (job_usage j) = tenant ∧
      u_user (job_usage j) = user ∧ u_api (job_usage j) = rule_api (res_rule res) ∧
      job_limiting j = Some ([], asking_of cx (u_api (job_usage j))).
Proof.
  destruct first_answered as (a & metered_for & n' & Hh). exists a, metered_for, n'. split; [exact Hh|].
  apply (one_record leave_headers leave_body pong values no_rows (gateway [])
    (at_moment 1000 1001) cx ask fresh_node n' (Ok (a, metered_for))).
  - reflexivity.
  - exact Hh.
Defined.

Lemma taken_once :
  ∃ f c n1, taken_in leave_headers leave_body (gateway [per_minute]) cx ask fresh_node
    = Some (Ok (f, c, rule_api narrow), n1).
Proof.
  set (x := taken_in _ _ _ _ _ _).
  assert ((match x with
           | Some (Ok (_, _, api), _) => bool_decide (api = rule_api narrow)
           | _ => false
           end) = true) as Hok by (vm_compute; reflexivity).
  destruct x as [[[[[f c] api]|e] n']|]; [|done..]. apply bool_decide_eq_true in Hok as ->. eauto.
Qed.

(** Sixty requests were made in the minute before the count was lost, and two are allowed. *)
Lemma refused_goes_no_further_witness :
  ∃ e n', handle leave_headers leave_body pong values rows (gateway [per_minute])
      (at_moment 1000 1001) cx ask fresh_node = Some (Err e, n') ∧
    status e = 429 ∧ is_Some (public_reason e).
Proof.
  destruct taken_once as (f & c & n1 & Ht).
  destruct (admit_request values rows [per_minute] (asking_of cx (rule_api narrow)) 120
    (∅ : gmap (list Z) Z)) as [[d counted]|] eqn:Had; [|exfalso; revert Had; vm_compute; discriminate].
  assert (d = spent per_minute 120) as Hd.
  { assert ((fst <$> Some (d, counted)) = Some (spent per_minute 120)) as Hs; [|by injection Hs].
    rewrite <-Had. vm_compute. reflexivity. }
  destruct (refused_goes_no_further leave_headers leave_body pong values rows (gateway [per_minute])
    (at_moment 1000 1001) cx ask fresh_node n1 f c (rule_api narrow) d counted) as (e & He & Hst).
  - exact Ht.
  - reflexivity.
  - exact Had.
  - rewrite Hd. discriminate.
  - exists e. eexists. split; [exact He|]. rewrite Hd in Hst. exact Hst.
Defined.

Lemma get_up k t (s : View) : is_ok (k_get k t s).1 = true.
Proof.
  cbn. unfold Sled.get. cbn. destruct (entries s !! key_bytes k) as [e|]; [|done].
  destruct (value_of e t); [by destruct (ck_level k)|]. unfold drop_entry. cbn.
  by destruct (drop_body _ _ _).
Qed.

Lemma put_up k v o t (s : View) : is_ok (k_put k v o t s).1 = true.
Proof. cbn. unfold Sled.put, write. cbn. by destruct (ck_level k). Qed.

(** As far as the cache, and what it is asked for there. *)
Definition asked (m : Moments) (n : State) : option (CacheKey * State) :=
  match taken_in leave_headers leave_body (gateway []) cx ask n with
  | Some (Ok (f, c, api), n) =>
      match checked values no_rows (gateway []) m (asking_of cx api) n, response_key_of f with
      | Some (Ok _, n), Ok (key, _) => Some (key, n)
      | _, _ => None
      end
  | _ => None
  end.

Lemma asked_cache m n key n' :
  asked m n = Some (key, n') → asks_cache leave_headers leave_body values no_rows (gateway []) m cx ask n key n'.
Proof.
  unfold asked. destruct (taken_in _ _ _ _ _ _) as [[[[[f c] api]|e] n1]|] eqn:Ht; try done.
  destruct (checked _ _ _ _ _ _) as [[[[]|e] n2]|] eqn:Hc; try done.
  destruct (response_key_of f) as [[key' f']|] eqn:Hk; [|done]. intros [= -> ->].
  exists f, c, api, n1, f'. done.
Qed.

Definition before : Moments := at_moment 1000 1001.
Definition after : Moments := at_moment 2000 2001.
Definition kept_key : CacheKey := default Memory.resp_key (fst <$> asked before fresh_node).

(** What the first answer is, whether it may be kept, and that the second asks for its key. *)
Definition first_kept : bool :=
  match handled [] before fresh_node with
  | Some (Ok (a, _), n) =>
      (a_status a =? 200) && negb (is_event_stream (a_headers a))
      && bool_decide (freshness_of (a_headers a) 0 = Unsaid)
      && bool_decide ((fst <$> asked after n) = Some kept_key)
  | _ => false
  end.

End FlowSample.
