(* ===== verification/HeaderBlock.v ===== *)
(** * HeaderBlock: headers as a plugin reads and writes them

    Models [crates/ip-plugin/src/headers.rs]: the block of lines a header plugin is given and
    the one it gives back.  What the codec uses of [http] beyond [HttpLib] is the class
    [HeaderLines]: walking a map in its order, appending to it, and what names and values are
    made of. *)
From S2P Require Import Prelude Text Ident Key Route Cache Sled CacheTrait RespCache Sse Gate.

Class HeaderLines `{HttpLib} : Type := {
  (** [IntoIterator for &HeaderMap]: every value with its name, those of one name in order. *)
  h_iter : HeaderMap → list (str * HeaderValue);
  h_iter_all : ∀ h n, get_all h n = (filter (λ p, p.1 = n) (h_iter h)).*2;
  (** [HeaderMap::append]. *)
  h_append : str → HeaderValue → HeaderMap → HeaderMap;
  get_all_append : ∀ n v h m,
    get_all (h_append n v h) m = if decide (m = n) then get_all h m ++ [v] else get_all h m;
  (** No value holds a line ending, and what is left of one without the blanks around it is one. *)
  value_one_line : ∀ v : HeaderValue, Forall (λ c, c ≠ 10 ∧ c ≠ 13) (val v);
  value_trims : ∀ v : HeaderValue, header_bytes (trim_ascii (val v)) = true
}.

(** A name as [HeaderName] has it: a token, in lower case. *)
Definition is_name `{HttpLib} (n : str) : Prop :=
  Forall (λ c, 33 ≤ c < 127 ∧ c ≠ ch ":") n ∧ header_name (as_bytes n) = Some n.

Record HeaderBlockError : Type := MkBlockError { line : Z; problem : str }.
#[export] Instance HeaderBlockError_eq_dec : EqDecision HeaderBlockError.
Proof. solve_decision. Defined.

Section block.
Context `{HeaderLines}.

Definition encode_line (p : str * HeaderValue) : list Z :=
  as_bytes p.1 ++ as_bytes #": " ++ val p.2 ++ [13; 10].
Definition encode_headers (h : HeaderMap) : list Z := h_iter h ≫= encode_line.

(** [strip_suffix(b"\r").unwrap_or(raw)]. *)
Definition strip_cr (raw : list Z) : list Z :=
  if decide (last raw = Some 13) then take (length raw - 1) raw else raw.

(** One turn of the loop: the headers with the line's, if it has one. *)
Definition decode_line (number : Z) (raw : list Z) (h : HeaderMap) : result HeaderBlockError HeaderMap :=
  let line := strip_cr raw in
  if is_empty line then Ok h
  else
    match split_once (ch ":") line with
    | None => Err (MkBlockError number #"has no colon")
    | Some (before, after) =>
        match header_name (trim_ascii before) with
        | None => Err (MkBlockError number #"names no valid header")
        | Some name =>
            match refine check_header (trim_ascii after) with
            | Err _ => Err (MkBlockError number #"carries a value a header cannot hold")
            | Ok value => Ok (h_append name value h)
            end
        end
    end.

Fixpoint decode_lines (number : Z) (lines : list (list Z)) (h : HeaderMap)
    : result HeaderBlockError HeaderMap :=
  match lines with
  | [] => Ok h
  | raw :: lines => h ← decode_line number raw h; decode_lines (number + 1) lines h
  end.

Definition decode_headers (block : list Z) : result HeaderBlockError HeaderMap :=
  decode_lines 1 (split_on (Z.eqb 10) block) no_headers.

(** ** Lines *)

Lemma strip_cr_app l : strip_cr (l ++ [13]) = l.
Proof.
  unfold strip_cr. rewrite last_snoc, decide_True by done. rewrite length_app. cbn [length].
  rewrite Nat.add_sub. by rewrite take_app_length.
Qed.

Lemma name_ascii n : is_name n → as_bytes n = n.
Proof. intros [Hn _]. apply as_bytes_ascii. eapply Forall_impl; [exact Hn|]. cbn. lia. Qed.

Lemma trim_name n : is_name n → trim_ascii n = n.
Proof.
  intros [Hn _]. apply trim_by_none. eapply Forall_impl; [exact Hn|]. intros c. cbn.
  unfold is_ascii_whitespace. lia.
Qed.

(** A line of the block as it is split off. *)
Definition shown_line (p : str * HeaderValue) : list Z := p.1 ++ #": " ++ val p.2 ++ [13].

Lemma decode_shown number p h :
  is_name p.1 → ∃ v, val v = trim_ascii (val p.2) ∧
    decode_line number (shown_line p) h = Ok (h_append p.1 v h).
Proof.
  destruct p as [n v]. cbn [fst snd]. intros Hn. unfold decode_line, shown_line. cbn [fst snd].
  rewrite !app_assoc, strip_cr_app, <-!app_assoc.
  replace (is_empty (n ++ #": " ++ val v)) with false by (by destruct n).
  rewrite (proj2 (split_once_Some (ch ":") (n ++ #": " ++ val v) n (ch " " :: val v))); cycle 1.
  { split; [done|]. intros Hc. destruct Hn as [Hn _]. rewrite Forall_forall in Hn.
    by destruct (Hn _ Hc). }
  pose proof (proj2 Hn) as En. rewrite (name_ascii n Hn) in En. rewrite (trim_name n Hn), En.
  change (trim_ascii (ch " " :: val v)) with (trim_ascii (val v)).
  destruct (refine check_header (trim_ascii (val v))) as [v'|e] eqn:Hv.
  - apply refine_ok in Hv as [_ Hv]. by exists v'.
  - apply refine_err in Hv. pose proof (value_trims v) as Ht. unfold check_header in *. by rewrite Ht in Hv.
Qed.

Lemma split_block l :
  Forall (λ p, is_name p.1) l →
  split_on (Z.eqb 10) (l ≫= encode_line) = map shown_line l ++ [[]].
Proof.
  induction 1 as [|[n v] l Hn _ IH]; [done|]. cbn [fst] in Hn. rewrite bind_cons.
  unfold encode_line at 1. cbn [fst snd map app]. rewrite (name_ascii n Hn).
  change (as_bytes #": ") with #": ". rewrite <-!app_assoc. cbn [app].
  replace (n ++ #": " ++ val v ++ 13 :: 10 :: (l ≫= encode_line))
    with (shown_line (n, v) ++ 10 :: (l ≫= encode_line))
    by (unfold shown_line; cbn [fst snd]; rewrite <-!app_assoc; done).
  rewrite split_on_app; [by rewrite IH| |done]. unfold shown_line. cbn [fst snd].
  apply Forall_app. split.
  { destruct Hn as [Hn _]. eapply Forall_impl; [exact Hn|]. intros c [Hc _]. apply Z.eqb_neq. lia. }
  apply Forall_app. split; [by repeat constructor|]. apply Forall_app. split; [|by repeat constructor].
  eapply Forall_impl; [apply value_one_line|]. intros c [Hc _]. apply Z.eqb_neq. lia.
Qed.

(** The loop appends every line's header to what was read before. *)
Lemma decode_shown_all l number h :
  Forall (λ p, is_name p.1) l → ∃ h', decode_lines number (map shown_line l ++ [[]]) h = Ok h' ∧
    ∀ n, val <$> get_all h' n
      = (val <$> get_all h n) ++ ((λ v : HeaderValue, trim_ascii (val v)) <$> (filter (λ p, p.1 = n) l).*2).
Proof.
  intros Hl. revert number h. induction Hl as [|[n v] l Hn _ IH]; intros number h.
  { exists h. split; [done|]. intros n. by rewrite app_nil_r. }
  cbn [map app decode_lines]. destruct (decode_shown number (n, v) h Hn) as (v' & Hv' & ->).
  cbn [mbind result_bind fst]. destruct (IH (number + 1) (h_append n v' h)) as (h' & -> & Hh').
  exists h'. split; [done|]. intros m. rewrite Hh', get_all_append, filter_cons. cbn [fst].
  destruct (decide (m = n)) as [->|Hne]; [|by rewrite decide_False by congruence].
  rewrite decide_True by done. rewrite fmap_app, <-app_assoc. cbn. by rewrite Hv'.
Qed.

(** Headers survive the block: what a header plugin is given reads back, line for line, as
    the headers it was written from, under every name the same values in the same order, the
    blanks around a value left out; so a plugin that hands its block back changes no header. *)
Theorem header_block_roundtrip (h : HeaderMap) :
  Forall (λ p, is_name p.1) (h_iter h) →
  ∃ h', decode_headers (encode_headers h) = Ok h' ∧
    ∀ n, val <$> get_all h' n = (λ v : HeaderValue, trim_ascii (val v)) <$> get_all h n.
Proof.
  intros Hh. unfold decode_headers, encode_headers. rewrite split_block by done.
  destruct (decode_shown_all (h_iter h) 1 no_headers Hh) as (h' & -> & Hh'). exists h'. split; [done|].
  intros n. by rewrite Hh', get_all_empty, h_iter_all.
Qed.
End block.

(** ** Sample values *)
Module BlockSample.
Import RespSample GateSample.

Lemma graphic_value (v : HeaderValue) : Forall (λ c, is_ascii_graphic c = true) (val v).
Proof.
  pose proof (val_checked _ v) as Hv. revert Hv. generalize (val v). clear v. intros b. unfold check_header.
  change (header_bytes b) with (forallb is_ascii_graphic b).
  destruct (forallb is_ascii_graphic b) eqn:E; [|done]. intros _. apply Forall_forall. intros c Hc.
  rewrite forallb_forall in E. by apply E, list_elem_of_In.
Qed.

#[export, program] Instance header_lines : HeaderLines := {|
  h_iter h := h;
  h_append n v h := h ++ [(n, v)]
|}.
Next Obligation.
  intros h n. cbn. induction h as [|[m v] h IH]; [done|]. rewrite values_cons, filter_cons, IH. cbn [fst].
  repeat case_decide; subst; done.
Qed.
Next Obligation.
  intros n v h m. cbn. unfold values. rewrite omap_app. cbn. repeat case_decide; subst; try done. by rewrite app_nil_r.
Qed.
Next Obligation.
  intros v. eapply Forall_impl; [apply graphic_value|]. intros c. unfold is_ascii_graphic, in_range. lia.
Qed.
Next Obligation.
  intros v. unfold trim_ascii. rewrite trim_by_none.
  - cbn. apply forallb_forall. intros c Hc%list_elem_of_In. pose proof (graphic_value v) as Hv.
    rewrite Forall_forall in Hv. by apply Hv.
  - eapply Forall_impl; [apply graphic_value|]. intros c.
    unfold is_ascii_graphic, is_ascii_whitespace, in_range. lia.
Qed.

Definition given : HeaderMap :=
  ([header #"accept" #"text/plain"; header #"x-trace" #"abc"; header #"accept" #"text/html"] : Headers).

Lemma header_block_roundtrip_witness :
  encode_headers given = #"accept: text/plain" ++ [13; 10] ++ #"x-trace: abc" ++ [13; 10]
    ++ #"accept: text/html" ++ [13; 10] ∧
  ∃ h', decode_headers (encode_headers given) = Ok h' ∧
    ∀ n, val <$> get_all h' n = (λ v : HeaderValue, trim_ascii (val v)) <$> get_all given n.
Proof.
  split; [vm_compute; reflexivity|]. apply (header_block_roundtrip given).
  repeat constructor; try (cbn; lia); cbn; lia.
Defined.
End BlockSample.
