(* ===== verification/Host.v ===== *)
(** * Host: plugins, loaded and run

    Models [crates/ip-plugin]: the abi ([abi.rs]), what a call may spend ([limits.rs]), the
    errors ([error.rs]), the host that compiles plugins and runs each call in an instance of
    its own ([host.rs]) and the processors over it ([adapter.rs]; [headers.rs] is
    [HeaderBlock]).  [wasmtime] is the class [Wasmtime]: modules with their imports and exports,
    and guests, each a store with one instance in it, whose code may do anything.  The pool
    instances come from, the clock that ends deadlines and the blocking pool are its and
    tokio's. *)
From S2P Require Import Prelude Text Ident Key Route Cache Sled CacheTrait RespCache Sse Gate.
From S2P Require Import HeaderBlock.

(** ** What wasmtime offers *)

Inductive ValType : Type := I32 | I64 | F32 | F64 | V128 | RefType (heap : str).
#[export] Instance ValType_eq_dec : EqDecision ValType.
Proof. solve_decision. Defined.

Inductive ExternType : Type :=
  | ExternFunc (params results : list ValType)
  | ExternMemory
  | ExternOther.

Inductive TrapCode : Type := TrapOutOfFuel | TrapInterrupt | TrapOther (text : str).

(** A [wasmtime::Error]: a trap inside it, or not. *)
Inductive WasmError : Type := Trapped (t : TrapCode) | OtherError (text : str).

(** ** limits.rs *)

(** Spans are nanoseconds. *)
Record PluginLimits : Type := MkPluginLimits {
  fuel : Z; deadline : Z; tick : Z; memory_bytes : Z; log_bytes : Z
}.

Definition deadline_ticks (l : PluginLimits) : Z :=
  let tick := Z.max (tick l) 1 in
  let ticks := Z.max (div_ceil (deadline l) tick) 1 in
  default u64_max (try_unsigned u64_max ticks).

Definition default_limits : PluginLimits :=
  MkPluginLimits 100000000 (100 * 10 ^ 6) (10 * 10 ^ 6) (64 * 1024 * 1024) 1024.

Class Wasmtime : Type := {
  Module_ : Type;
  from_binary : list Z → result str Module_;
  imports : Module_ → list (str * str);
  exports : Module_ → list (str * ExternType);
  (** [Linker::instantiate_pre] and [InstancePre::module]. *)
  Prepared : Type;
  instantiate_pre : Module_ → result str Prepared;
  module_of : Prepared → Module_;
  instantiate_pre_ok : ∀ m p, instantiate_pre m = Ok p → module_of p = m;
  (** A store with one instance: it was given fuel, a deadline in ticks and a largest memory. *)
  Guest : Type;
  set_fuel : Z → result str unit;
  start : Prepared → Z → Z → Z → result WasmError Guest;
  guest_module : Guest → Module_;
  start_ok : ∀ p f t b g, start p f t b = Ok g → guest_module g = module_of p;
  (** [Instance::get_memory] and [get_typed_func] find what the module exports. *)
  get_memory : Guest → str → bool;
  get_memory_ok : ∀ g n, (n, ExternMemory) ∈ exports (guest_module g) → get_memory g n = true;
  get_typed_func : Guest → str → list ValType → list ValType → result str unit;
  get_typed_func_ok : ∀ g n ps rs, (n, ExternFunc ps rs) ∈ exports (guest_module g) →
    get_typed_func g n ps rs = Ok tt;
  (** Calls the guest, which may do anything, its memory included. *)
  call : str → list Z → Guest → result WasmError Z * Guest;
  call_module : ∀ f args g, guest_module (call f args g).2 = guest_module g;
  (** The bytes of the memory export; reading and writing past their end is an error. *)
  memory : Guest → list Z;
  memory_write : Z → list Z → Guest → option Guest;
  memory_write_ok : ∀ at_ bytes g g', 0 ≤ at_ → memory_write at_ bytes g = Some g' →
    at_ + Z.of_nat (length bytes) ≤ Z.of_nat (length (memory g)) ∧
    guest_module g' = guest_module g ∧
    memory g' = take (Z.to_nat at_) (memory g) ++ bytes ++
                drop (Z.to_nat at_ + length bytes) (memory g);
  memory_read : Z → Z → Guest → option (list Z);
  memory_read_ok : ∀ at_ len g bytes, 0 ≤ at_ → 0 ≤ len → memory_read at_ len g = Some bytes →
    at_ + len ≤ Z.of_nat (length (memory g)) ∧
    bytes = take (Z.to_nat len) (drop (Z.to_nat at_) (memory g))
}.

(** ** abi.rs *)

Definition MEMORY : str := #"memory".
Definition ALLOC : str := #"alloc".
Definition DEALLOC : str := #"dealloc".
Definition TRANSFORM : str := #"transform".
Definition HOST_MODULE : str := #"ip".
Definition LOG : str := #"log".
Definition REFUSED : Z := Z.shiftl 1 63.

Inductive Transformed : Type :=
  | Output (bytes : list Z)
  | RefusedBy (reason : str).

Record Packed : Type := MkPacked { refused : bool; ptr : Z; span_len : Z }.

Definition unpack (raw : Z) : Packed :=
  MkPacked (negb (Z.land raw REFUSED =? 0))
    (Z.land (Z.shiftr raw 32) (2 ^ 31 - 1)) (Z.land raw (2 ^ 32 - 1)).

(** ** error.rs *)

Inductive PluginError : Type :=
  | ChecksumMismatch (checksum : Checksum)
  | Compile (checksum : Checksum) (detail : str)
  | Imports (checksum : Checksum) (import : str)
  | Abi (checksum : Checksum) (detail : str)
  | NotLoaded (checksum : Checksum)
  | Instantiate (checksum : Checksum) (detail : str)
  | OutOfFuel (checksum : Checksum)
  | DeadlineExceeded (checksum : Checksum)
  | Trap (checksum : Checksum) (detail : str)
  | EngineFailed (detail : str).

(** [PluginError::trapped]. *)
Definition trapped (c : Checksum) (e : WasmError) (otherwise : str → PluginError) : PluginError :=
  match e with
  | Trapped TrapOutOfFuel => OutOfFuel c
  | Trapped TrapInterrupt => DeadlineExceeded c
  | Trapped (TrapOther detail) => Trap c detail
  | OtherError detail => otherwise detail
  end.

(** [ValType] as it is displayed, and [render]. *)
Definition show_val (t : ValType) : str :=
  match t with
  | I32 => #"i32" | I64 => #"i64" | F32 => #"f32" | F64 => #"f64" | V128 => #"v128"
  | RefType heap => #"(ref " ++ heap ++ #")"
  end.
Fixpoint render (types : list ValType) : str :=
  match types with
  | [] => []
  | [t] => show_val t
  | t :: types => show_val t ++ #" " ++ render types
  end.

Section host.
Context `{Wasmtime} `{Crypto}.

Definition is_memory (e : str * ExternType) : bool :=
  bool_decide (e.1 = MEMORY) && match e.2 with ExternMemory => true | _ => false end.

(** One turn of the loop of [check_exports]. *)
Definition check_func (m : Module_) (name params results : str) : result str unit :=
  match List.find (λ e, bool_decide (e.1 = name)) (exports m) with
  | None => Err (#"no `" ++ name ++ #"` function export")
  | Some (_, ExternFunc ps rs) =>
      if bool_decide (render ps = params) && bool_decide (render rs = results) then Ok tt
      else Err (#"`" ++ name ++ #"` takes (" ++ render ps ++ #") and returns (" ++ render rs ++
                #"), not (" ++ params ++ #") and (" ++ results ++ #")")
  | Some (_, _) => Err (#"`" ++ name ++ #"` is not a function")
  end.

Definition check_exports (c : Checksum) (m : Module_) : result PluginError unit :=
  map_err (Abi c)
    (if negb (existsb is_memory (exports m)) then Err (#"no `" ++ MEMORY ++ #"` memory export")
     else
       _ ← check_func m ALLOC #"i32" #"i32";
       _ ← check_func m DEALLOC #"i32 i32" [];
       check_func m TRANSFORM #"i32 i32" #"i64").

(** ** host.rs *)

Record PluginHost : Type := MkHost { modules : gmap Checksum Prepared; host_limits : PluginLimits }.

Definition is_loaded (h : PluginHost) (c : Checksum) : bool := bool_decide (is_Some (modules h !! c)).

Definition is_log (i : str * str) : bool := bool_decide (i.1 = HOST_MODULE) && bool_decide (i.2 = LOG).

(** Everything [load] does to wasm that is not loaded. *)
Definition prepare (c : Checksum) (wasm : list Z) : result PluginError Prepared :=
  if negb (Checksum_matches c wasm) then Err (ChecksumMismatch c)
  else
    m ← map_err (Compile c) (from_binary wasm);
    match List.find (λ i, negb (is_log i)) (imports m) with
    | Some (from, name) => Err (Imports c (from ++ #"::" ++ name))
    | None =>
        _ ← check_exports c m;
        map_err (Instantiate c) (instantiate_pre m)
    end.

Definition load (h : PluginHost) (c : Checksum) (wasm : list Z) : result PluginError unit * PluginHost :=
  if is_loaded h c then (Ok tt, h)
  else
    match prepare c wasm with
    | Err e => (Err e, h)
    | Ok prepared => (Ok tt, MkHost (<[c := prepared]> (modules h)) (host_limits h))
    end.

Definition unload (h : PluginHost) (c : Checksum) : bool * PluginHost :=
  (is_loaded h c, MkHost (delete c (modules h)) (host_limits h)).

Definition host_len (h : PluginHost) : nat := size (modules h).

(** [instantiate]: a fresh guest with the limits of one call. *)
Definition instantiate (h : PluginHost) (c : Checksum) : result PluginError Guest :=
  match modules h !! c with
  | None => Err (NotLoaded c)
  | Some prepared =>
      let l := host_limits h in
      _ ← map_err EngineFailed (set_fuel (fuel l));
      map_err (λ e, trapped c e (Instantiate c))
        (start prepared (fuel l) (deadline_ticks l) (memory_bytes l))
  end.

(** [String::from_utf8], one character at a time. *)
Definition lead_width (b : Z) : nat :=
  if b <? 128 then 1 else if b <? 224 then 2 else if b <? 240 then 3 else 4.
Definition char_of (bytes : list Z) : Z :=
  match bytes with
  | [a] => a
  | [a; b] => (a - 192) * 64 + (b - 128)
  | [a; b; c] => (a - 224) * 4096 + (b - 128) * 64 + (c - 128)
  | [a; b; c; d] => (a - 240) * 262144 + (b - 128) * 4096 + (c - 128) * 64 + (d - 128)
  | _ => -1
  end.
Definition is_scalar (c : Z) : bool :=
  in_range 0 1114111 c && negb (in_range 55296 57343 c).
Fixpoint utf8_chars (fuel : nat) (bytes : list Z) : option str :=
  match bytes, fuel with
  | [], _ => Some []
  | _, O => None
  | b :: _, S fuel =>
      let c := char_of (take (lead_width b) bytes) in
      if is_scalar c && bool_decide (utf8_char c = take (lead_width b) bytes)
      then rest ← utf8_chars fuel (drop (lead_width b) bytes); Some (c :: rest)
      else None
  end.
Definition from_utf8 (bytes : list Z) : option str := utf8_chars (length bytes) bytes.

(** [i32::MAX] and [u32::cast_signed]. *)
Definition i32_max : Z := 2 ^ 31 - 1.
Definition cast_signed (n : Z) : Z := if n <? 2 ^ 31 then n else n - 2 ^ 32.

(** [Invocation::transform], which uses the guest up. *)
Definition transform (c : Checksum) (g : Guest) (input : list Z) : result PluginError Transformed :=
  let broken detail := Abi c detail in
  let trap e := trapped c e (Trap c) in
  if negb (get_memory g MEMORY) then Err (broken (#"no `" ++ MEMORY ++ #"` memory export"))
  else
    _ ← map_err broken (get_typed_func g ALLOC [I32] [I32]);
    _ ← map_err broken (get_typed_func g DEALLOC [I32; I32] []);
    _ ← map_err broken (get_typed_func g TRANSFORM [I32; I32] [I64]);
    let len := Z.of_nat (length input) in
    if i32_max <? len
    then Err (broken (#"an input of " ++ dec len ++ #" bytes cannot be addressed"))
    else
      let '(r, g) := call ALLOC [len] g in
      at_ ← map_err trap r;
      if at_ <? 0
      then Err (broken (#"`" ++ ALLOC ++ #"` returned the negative address " ++ dec at_))
      else
        match memory_write at_ input g with
        | None => Err (broken (#"`" ++ ALLOC ++ #"` returned memory the input does not fit in"))
        | Some g =>
            let '(r, g) := call TRANSFORM [at_; len] g in
            raw ← map_err trap r;
            let span := unpack (raw mod 2 ^ 64) in
            match memory_read (ptr span) (span_len span) g with
            | None => Err (broken (#"`" ++ TRANSFORM ++ #"` returned a span outside its memory"))
            | Some out =>
                let '(r, g) := call DEALLOC [at_; len] g in
                _ ← map_err trap r;
                let '(r, _) := call DEALLOC [cast_signed (ptr span); cast_signed (span_len span)] g in
                _ ← map_err trap r;
                if refused span
                then match from_utf8 out with
                     | Some reason => Ok (RefusedBy reason)
                     | None => Err (broken #"the refusal reason is not utf-8")
                     end
                else Ok (Output out)
            end
        end.

(** What a plugin that logs is heard to say: its level, and the bytes of the line. *)
Inductive LogLevel : Type := TraceLevel | DebugLevel | InfoLevel | WarnLevel | ErrorLevel.
Definition log_level (level : Z) : LogLevel :=
  if level <=? 0 then TraceLevel
  else if level =? 1 then DebugLevel
  else if level =? 2 then InfoLevel
  else if level =? 3 then WarnLevel
  else ErrorLevel.
Definition log_line (cap : Z) (g : Guest) (level at_ len : Z) : option (LogLevel * list Z) :=
  if negb (get_memory g MEMORY) then None
  else
    line ← memory_read (Z.max at_ 0) (Z.min (Z.max len 0) cap) g;
    Some (log_level level, line).

(** ** adapter.rs *)

(** What a [PluginError] says is the crate's [Display] of it. *)
Context (show_plugin_error : PluginError → str).

(** [run]: the blocking pool finishes the call, or says it did not. *)
Definition run (h : PluginHost) (c : Checksum) (input : list Z) (unfinished : option str)
    : result ProcessorError (list Z) :=
  match unfinished with
  | Some detail => Err (Failed detail)
  | None =>
      match g ← instantiate h c; transform c g input with
      | Ok (Output bytes) => Ok bytes
      | Ok (RefusedBy reason) => Err (Refused reason)
      | Err e => Err (Failed (show_plugin_error e))
      end
  end.
End host.

Section processors.
Context `{Wasmtime} `{Crypto} `{HeaderLines} (show_plugin_error : PluginError → str).

Definition show_block_error (e : HeaderBlockError) : str :=
  #"line " ++ dec (line e) ++ #" of the header block " ++ problem e.

(** [WasmHeaderProcessor::process] and [WasmBodyProcessor::process]. *)
Definition process_headers (h : PluginHost) (c : Checksum) (headers : HeaderMap)
    (unfinished : option str) : result ProcessorError HeaderMap :=
  block ← run show_plugin_error h c (encode_headers headers) unfinished;
  map_err (λ e, Failed (#"plugin " ++ hex_encode (val c) ++
                        #" returned headers that do not parse: " ++ show_block_error e))
    (decode_headers block).
Definition process_body (h : PluginHost) (c : Checksum) (body : list Z) (unfinished : option str)
    : result ProcessorError (list Z) := run show_plugin_error h c body unfinished.
End processors.

(** A deadline is counted in ticks that cover it, never none of them. *)
Lemma deadline_covered l :
  0 ≤ deadline l →
  1 ≤ deadline_ticks l ≤ u64_max ∧
  (deadline_ticks l < u64_max → deadline l ≤ deadline_ticks l * Z.max (tick l) 1).
Proof.
  intros Hd. unfold deadline_ticks. set (t := Z.max (tick l) 1).
  assert (deadline l ≤ div_ceil (deadline l) t * t) as Hc.
  { unfold div_ceil. pose proof (Z.div_mod (deadline l + t - 1) t ltac:(lia)).
    pose proof (Z.mod_pos_bound (deadline l + t - 1) t ltac:(lia)). nia. }
  set (n := Z.max (div_ceil (deadline l) t) 1). unfold try_unsigned.
  replace (0 <=? n) with true by lia. cbn [andb].
  destruct (Z.leb_spec n u64_max) as [Hn|Hn]; cbn [from_option id]; [|unfold_bounds; lia]. split; [lia|].
  intros _. nia.
Qed.

(** ** Spans *)

(** A span as a plugin packs it. *)
Definition pack (p : Packed) : Z := (if refused p then 2 ^ 63 else 0) + ptr p * 2 ^ 32 + span_len p.

Lemma unpack_parts raw :
  0 ≤ raw < 2 ^ 64 →
  unpack raw = MkPacked (2 ^ 63 <=? raw) (raw / 2 ^ 32 mod 2 ^ 31) (raw mod 2 ^ 32).
Proof.
  intros Hr. unfold unpack. f_equal.
  - unfold REFUSED. rewrite Z.shiftl_1_l.
    assert (Z.land raw (2 ^ 63) = if 2 ^ 63 <=? raw then 2 ^ 63 else 0) as ->.
    { apply Z.bits_inj'. intros i Hi. rewrite Z.land_spec, Z.pow2_bits_eqb by lia.
      assert (Z.testbit raw 63 = (2 ^ 63 <=? raw)) as Hb.
      { rewrite Z.testbit_eqb by lia.
        rewrite Z.mod_small by (split; [apply Z.div_pos|apply Z.div_lt_upper_bound]; lia).
        destruct (Z.leb_spec (2 ^ 63) raw).
        - replace (raw / 2 ^ 63) with 1; [done|]. apply (Z.div_unique raw (2 ^ 63) 1 (raw - 2 ^ 63)); lia.
        - by rewrite Z.div_small by lia. }
      destruct (Z.eqb_spec 63 i) as [<-|Hne]; [|rewrite andb_false_r].
      - rewrite Hb. destruct (2 ^ 63 <=? raw); [by rewrite Z.pow2_bits_true|by rewrite Z.bits_0].
      - destruct (2 ^ 63 <=? raw); [|by rewrite Z.bits_0]. symmetry. by apply Z.pow2_bits_false. }
    by destruct (2 ^ 63 <=? raw).
  - change (2 ^ 31 - 1) with (Z.ones 31).
    by rewrite Z.land_ones, Z.shiftr_div_pow2 by lia.
  - change (2 ^ 32 - 1) with (Z.ones 32). by rewrite Z.land_ones by lia.
Qed.

(** No bit of what [transform] returns is lost or read twice: every 64-bit number is one
    span with an address below 2^31, a length below 2^32 and a mark, and every such span is what
    exactly one number unpacks to. *)
Theorem unpack_exact (raw : Z) (p : Packed) :
  0 ≤ raw < 2 ^ 64 →
  (0 ≤ ptr (unpack raw) < 2 ^ 31 ∧ 0 ≤ span_len (unpack raw) < 2 ^ 32) ∧
  (unpack raw = p ↔ 0 ≤ ptr p < 2 ^ 31 ∧ 0 ≤ span_len p < 2 ^ 32 ∧ raw = pack p).
Proof.
  intros Hr. rewrite unpack_parts by done. cbn [ptr span_len].
  pose proof (Z.mod_pos_bound (raw / 2 ^ 32) (2 ^ 31) ltac:(lia)) as Hp.
  pose proof (Z.mod_pos_bound raw (2 ^ 32) ltac:(lia)) as Hl. split; [done|].
  pose proof (Z.div_mod raw (2 ^ 32) ltac:(lia)) as E1.
  pose proof (Z.div_mod (raw / 2 ^ 32) (2 ^ 31) ltac:(lia)) as E2.
  assert (raw / 2 ^ 32 / 2 ^ 31 = if 2 ^ 63 <=? raw then 1 else 0) as E3.
  { rewrite Z.div_div by lia. change (2 ^ 32 * 2 ^ 31) with (2 ^ 63).
    destruct (Z.leb_spec (2 ^ 63) raw); [|apply Z.div_small; lia].
    symmetry. apply (Z.div_unique raw (2 ^ 63) 1 (raw - 2 ^ 63)); lia. }
  split.
  - intros <-. unfold pack. cbn [refused ptr span_len]. split; [done|]. split; [done|].
    rewrite E3 in E2. destruct (2 ^ 63 <=? raw); lia.
  - destruct p as [r a n]. unfold pack. cbn [refused ptr span_len]. intros (Ha & Hn & E).
    assert (raw / 2 ^ 32 = (if r then 2 ^ 31 else 0) + a) as Ed.
    { symmetry. apply (Z.div_unique raw (2 ^ 32) _ n); [lia|]. destruct r; lia. }
    assert (raw mod 2 ^ 32 = n) as Em by (rewrite Z.mod_eq, Ed by lia; destruct r; lia).
    rewrite Em, Ed. f_equal.
    + destruct r; [apply Z.leb_le|apply Z.leb_gt]; lia.
    + destruct r; [|by apply Z.mod_small].
      symmetry. apply (Z.mod_unique (2 ^ 31 + a) (2 ^ 31) 1 a); lia.
Qed.

(** ** Loading *)

Lemma render_one t ps : render (t :: ps) = show_val t ++ match ps with [] => [] | _ => #" " ++ render ps end.
Proof. destruct ps; cbn; [by rewrite app_nil_r|done]. Qed.

Lemma render_i32 ps : render ps = #"i32" → ps = [I32].
Proof. destruct ps as [|[] [|u ps]]; by cbn. Qed.
Lemma render_i64 ps : render ps = #"i64" → ps = [I64].
Proof. destruct ps as [|[] [|u ps]]; by cbn. Qed.
Lemma render_none ps : render ps = [] → ps = [].
Proof. destruct ps as [|[] [|u ps]]; by cbn. Qed.
Lemma render_two ps : render ps = #"i32 i32" → ps = [I32; I32].
Proof.
  destruct ps as [|t ps]; [done|]. rewrite render_one.
  destruct t, ps as [|u ps]; try by cbn. cbn [show_val]. rewrite app_assoc.
  change (#"i32 i32") with ((#"i32" ++ #" ") ++ #"i32").
  intros E%app_inv_head%render_i32. by rewrite E.
Qed.

Section host_ok.
Context `{Wasmtime} `{Crypto}.

(** What a module under a checksum went through: it is the wasm the checksum names, takes at
    most the host's [log], and offers what [transform] calls. *)
Record vetted (c : Checksum) (p : Prepared) : Prop := {
  vetted_wasm : ∃ wasm, Checksum_of wasm = c ∧ from_binary wasm = Ok (module_of p);
  vetted_imports : ∀ i, i ∈ imports (module_of p) → i = (HOST_MODULE, LOG);
  vetted_memory : (MEMORY, ExternMemory) ∈ exports (module_of p);
  vetted_alloc : (ALLOC, ExternFunc [I32] [I32]) ∈ exports (module_of p);
  vetted_dealloc : (DEALLOC, ExternFunc [I32; I32] []) ∈ exports (module_of p);
  vetted_transform : (TRANSFORM, ExternFunc [I32; I32] [I64]) ∈ exports (module_of p)
}.

Lemma find_elem {A} (f : A → bool) l x : List.find f l = Some x → x ∈ l ∧ f x = true.
Proof. intros [Hx Hf]%List.find_some. by rewrite list_elem_of_In. Qed.

Lemma check_func_ok m name params results :
  check_func m name params results = Ok tt →
  ∃ ps rs, (name, ExternFunc ps rs) ∈ exports m ∧ render ps = params ∧ render rs = results.
Proof.
  unfold check_func. destruct (List.find _ _) as [[n t]|] eqn:Hf; [|done].
  apply find_elem in Hf as [Hin Hn%bool_decide_eq_true]. cbn in Hn. subst.
  destruct t as [ps rs| |]; [|done..]. case_bool_decide; [|done]. case_bool_decide; [|done]. eauto.
Qed.

Lemma prepare_vetted c wasm p : prepare c wasm = Ok p → vetted c p.
Proof.
  unfold prepare. destruct (Checksum_matches c wasm) eqn:Hc; [|done]. cbn [negb].
  apply bool_decide_eq_true in Hc.
  intros (m & Hm%map_err_ok & Hp)%bind_ok. destruct (List.find _ (imports m)) as [[]|] eqn:Hi; [done|].
  apply bind_ok in Hp as ([] & He%map_err_ok & Hp%map_err_ok). apply instantiate_pre_ok in Hp as Em.
  destruct (existsb is_memory (exports m)) eqn:Hmem; [|done]. cbn [negb] in He.
  apply bind_ok in He as ([] & (ps1 & rs1 & H1 & ->%render_i32 & ->%render_i32)%check_func_ok & He).
  apply bind_ok in He as ([] & (ps2 & rs2 & H2 & ->%render_two & ->%render_none)%check_func_ok & He).
  apply check_func_ok in He as (ps3 & rs3 & H3 & ->%render_two & ->%render_i64).
  split; rewrite ?Em; try done.
  - eauto.
  - intros i Hin%list_elem_of_In. pose proof (List.find_none _ _ Hi i Hin) as Hn.
    apply negb_false_iff in Hn. unfold is_log in Hn. destruct i as [a b]. cbn in Hn.
    apply andb_true_iff in Hn as [->%bool_decide_eq_true ->%bool_decide_eq_true]. done.
  - apply existsb_exists in Hmem as ([n t] & Hin%list_elem_of_In & Hn). unfold is_memory in Hn. cbn in Hn.
    apply andb_true_iff in Hn as [->%bool_decide_eq_true Ht]. by destruct t.
Qed.

(** What is done to a host. *)
Inductive host_step : PluginHost → PluginHost → Prop :=
  | load_step h c wasm : host_step h (load h c wasm).2
  | unload_step h c : host_step h (unload h c).2.

(** Every module is what [load] made of some wasm. *)
Definition all_prepared (h : PluginHost) : Prop :=
  map_Forall (λ c p, ∃ wasm, prepare c wasm = Ok p) (modules h).

Lemma reachable_prepared limits h : rtc host_step (MkHost ∅ limits) h → all_prepared h.
Proof.
  intros Hs. assert (all_prepared (MkHost ∅ limits)) as Hv by apply map_Forall_empty.
  revert Hv. induction Hs as [h|h1 h2 h3 Hstep _ IH]; [done|]. intros Hv. apply IH. clear IH.
  unfold all_prepared in *. destruct Hstep as [h c wasm|h c]; [|by apply map_Forall_delete].
  unfold load. destruct (is_loaded h c); [done|]. destruct (prepare c wasm) as [p|] eqn:Hp; [|done].
  cbn. apply map_Forall_insert_2; [by exists wasm|done].
Qed.

(** The host runs only what it vetted: after any loads and unloads, whatever wasm they were
    given, each module it holds was compiled from wasm whose sha256 is the checksum it is held
    under, imports nothing but the host's [log], and exports a memory and the three functions of
    the abi with their signatures. *)
Theorem loaded_vetted (limits : PluginLimits) (h : PluginHost) (c : Checksum) (p : Prepared) :
  rtc host_step (MkHost ∅ limits) h → modules h !! c = Some p → vetted c p.
Proof.
  intros Hs%reachable_prepared Hc. destruct (Hs c p Hc) as [wasm Hw]. by eapply prepare_vetted.
Qed.

(** Whether wasm loads does not depend on what was loaded before, unless two files share a
    checksum, so a chain built again from the same rules and wasm is the same chain. *)
Theorem load_stateless (limits : PluginLimits) (h : PluginHost) (c : Checksum) (wasm : list Z) :
  rtc host_step (MkHost ∅ limits) h → Checksum_of wasm = c →
  is_ok (load h c wasm).1 = is_ok (prepare c wasm) ∨
  ∃ other, other ≠ wasm ∧ sha256 other = sha256 wasm.
Proof.
  intros Hs%reachable_prepared Hc. unfold load.
  destruct (is_loaded h c) eqn:Hl; [|left; by destruct (prepare c wasm)].
  apply bool_decide_eq_true in Hl as [p Hp]. destruct (Hs c p Hp) as [w Hw].
  destruct (decide (w = wasm)) as [->|Hne]; [left; by rewrite Hw|]. right. exists w. split; [done|].
  unfold prepare in Hw. destruct (Checksum_matches c w) eqn:Hm; [|done].
  apply bool_decide_eq_true in Hm. unfold Checksum_of in *. congruence.
Qed.

(** ** Running *)

Lemma utf8_chars_back fuel bytes s : utf8_chars fuel bytes = Some s → as_bytes s = bytes.
Proof.
  revert bytes s. induction fuel as [|fuel IH]; intros [|b bytes] s; cbn [utf8_chars];
    [by intros [= <-]|done|by intros [= <-]|].
  destruct (is_scalar _); cbn [andb]; [|done]. case_bool_decide as Hc; [|done].
  destruct (utf8_chars fuel _) as [rest|] eqn:Hr; [|done]. cbn. intros [= <-].
  unfold as_bytes. rewrite bind_cons. fold (as_bytes rest). rewrite (IH _ _ Hr), Hc.
  by rewrite take_drop.
Qed.

(** A call that came to an end: the guest allocated, the input was written inside its memory, it
    returned the number of a span, and the span's bytes, all inside its memory then, are [out]. *)
Definition ended (g : Guest) (input : list Z) (span : Packed) (out : list Z) : Prop :=
  ∃ at_ g1 g2 raw g3, call ALLOC [Z.of_nat (length input)] g = (Ok at_, g1) ∧ 0 ≤ at_ ∧
    memory_write at_ input g1 = Some g2 ∧
    at_ + Z.of_nat (length input) ≤ Z.of_nat (length (memory g1)) ∧
    call TRANSFORM [at_; Z.of_nat (length input)] g2 = (Ok raw, g3) ∧
    span = unpack (raw mod 2 ^ 64) ∧
    ptr span + span_len span ≤ Z.of_nat (length (memory g3)) ∧
    out = take (Z.to_nat (span_len span)) (drop (Z.to_nat (ptr span)) (memory g3)).

Lemma transform_ended c g input t :
  transform c g input = Ok t →
  ∃ span out, ended g input span out ∧ Z.of_nat (length input) ≤ i32_max ∧
    match t with
    | Output bytes => refused span = false ∧ bytes = out
    | RefusedBy reason => refused span = true ∧ as_bytes reason = out
    end.
Proof.
  unfold transform. destruct (get_memory g MEMORY); [|done]. cbn [negb].
  intros ([] & _ & ([] & _ & ([] & _ & Ht)%bind_ok)%bind_ok)%bind_ok. cbv zeta in Ht.
  destruct (Z.ltb_spec i32_max (Z.of_nat (length input))) as [|Hlen]; [done|].
  destruct (call ALLOC _ g) as [r1 g1] eqn:E1. apply bind_ok in Ht as (at_ & ->%map_err_ok & Ht).
  destruct (Z.ltb_spec at_ 0) as [|Hat]; [done|].
  destruct (memory_write at_ input g1) as [g2|] eqn:E2; [|done].
  destruct (call TRANSFORM _ g2) as [r3 g3] eqn:E3. apply bind_ok in Ht as (raw & ->%map_err_ok & Ht).
  pose proof (Z.mod_pos_bound raw (2 ^ 64) ltac:(lia)) as Hraw.
  set (span := unpack (raw mod 2 ^ 64)) in *.
  destruct (memory_read (ptr span) (span_len span) g3) as [out|] eqn:E4; [|done].
  destruct (call DEALLOC _ g3) as [r5 g5] eqn:E5. apply bind_ok in Ht as (? & _ & Ht).
  destruct (call DEALLOC _ g5) as [r6 g6] eqn:E6. apply bind_ok in Ht as (? & _ & Ht).
  assert (0 ≤ ptr span ∧ 0 ≤ span_len span) as [Hp Hl].
  { unfold span. rewrite unpack_parts by done. cbn [ptr span_len].
    split; apply Z.mod_pos_bound; lia. }
  apply memory_read_ok in E4 as [Hin ->]; [|done..].
  exists span, (take (Z.to_nat (span_len span)) (drop (Z.to_nat (ptr span)) (memory g3))). split.
  { exists at_, g1, g2, raw, g3. apply memory_write_ok in E2 as Hw; [|done]. destruct Hw as [Hw _].
    split_and!; done. }
  split; [done|]. destruct (refused span).
  - destruct (from_utf8 _) as [reason|] eqn:Hu; [|done]. apply (inj Ok) in Ht as <-. split; [done|].
    by eapply utf8_chars_back.
  - apply (inj Ok) in Ht as <-. done.
Qed.

(** C17: a plugin gets at nothing but what it is given: when a processor hands bytes on, or turns
    a request away with a reason, the plugin was loaded and vetted, ran in a guest started for
    this call alone with the host's limits, was given the input inside memory it allocated
    itself, and the bytes, or those of the reason, are the ones of its own memory that the span
    it returned names; everything else is a failure. *)
Theorem run_confined (show_plugin_error : PluginError → str) (limits : PluginLimits) (h : PluginHost)
    (c : Checksum) (input : list Z) (r : result ProcessorError (list Z)) :
  rtc host_step (MkHost ∅ limits) h → run show_plugin_error h c input None = r →
  (∃ detail, r = Err (Failed detail)) ∨
  ∃ p g span out, modules h !! c = Some p ∧ vetted c p ∧
    start p (fuel (host_limits h)) (deadline_ticks (host_limits h)) (memory_bytes (host_limits h)) = Ok g ∧
    ended g input span out ∧
    (refused span = false ∧ r = Ok out ∨
     ∃ reason, refused span = true ∧ r = Err (Refused reason) ∧ as_bytes reason = out).
Proof.
  intros Hs%reachable_prepared Hr. unfold run in Hr.
  destruct (g ← instantiate h c; transform c g input) as [t|e] eqn:Hrun; [|left; eauto].
  right. apply bind_ok in Hrun as (g & Hg & Ht). unfold instantiate in Hg.
  destruct (modules h !! c) as [p|] eqn:Hc; [|done]. cbv zeta in Hg.
  apply bind_ok in Hg as ([] & _ & Hg%map_err_ok). destruct (Hs c p Hc) as [wasm Hw].
  apply transform_ended in Ht as (span & out & He & _ & Ht). exists p, g, span, out.
  split; [done|]. split; [by eapply prepare_vetted|]. split; [done|]. split; [done|].
  destruct t as [bytes|reason]; destruct Ht as [Href Ho]; subst; [by left|]. right. eauto.
Qed.

(** What a plugin logs never takes more than the cap. *)
Lemma log_line_capped cap g level at_ len lv bytes :
  0 ≤ cap → log_line cap g level at_ len = Some (lv, bytes) → Z.of_nat (length bytes) ≤ cap.
Proof.
  intros Hcap. unfold log_line. destruct (get_memory g MEMORY); [|done]. cbn [negb].
  destruct (memory_read _ _ g) as [line|] eqn:Hl; [|done]. cbn. intros [= _ <-].
  apply memory_read_ok in Hl as [_ ->]; [|lia..]. rewrite length_take. lia.
Qed.
End host_ok.

(** ** Sample values *)

Module HostSample.
Import SampleCrypto.

(** Wasm by its first byte, which must be a zero, and its second, which says what it imports. *)
Definition sample_binary (wasm : list Z) : result str (list Z) :=
  match wasm with 0 :: _ => Ok wasm | _ => Err #"no magic" end.
Definition sample_imports (wasm : list Z) : list (str * str) :=
  match wasm with
  | [_; 1] => [(#"ip", #"log")]
  | [_; 2] => [(#"env", #"clock")]
  | _ => []
  end.
Definition sample_exports : list (str * ExternType) :=
  [(#"memory", ExternMemory); (#"alloc", ExternFunc [I32] [I32]);
   (#"dealloc", ExternFunc [I32; I32] []); (#"transform", ExternFunc [I32; I32] [I64])].

(** A guest is its wasm and sixteen bytes; it allocates from the first and hands its input back. *)
Definition sample_call (f : str) (args : list Z) (g : list Z * list Z)
    : result WasmError Z * (list Z * list Z) :=
  match args with
  | [at_; len] => if bool_decide (f = TRANSFORM) then (Ok (pack (MkPacked false at_ len)), g) else (Ok 0, g)
  | _ => (Ok 0, g)
  end.
Definition sample_write (at_ : Z) (bytes : list Z) (g : list Z * list Z) : option (list Z * list Z) :=
  if at_ + Z.of_nat (length bytes) <=? Z.of_nat (length g.2)
  then Some (g.1, take (Z.to_nat at_) g.2 ++ bytes ++ drop (Z.to_nat at_ + length bytes) g.2)
  else None.
Definition sample_read (at_ len : Z) (g : list Z * list Z) : option (list Z) :=
  if at_ + len <=? Z.of_nat (length g.2) then Some (take (Z.to_nat len) (drop (Z.to_nat at_) g.2))
  else None.

#[export, program] Instance sample_wasm : Wasmtime := {|
  Module_ := list Z;
  from_binary := sample_binary;
  imports := sample_imports;
  exports _ := sample_exports;
  Prepared := list Z;
  instantiate_pre m := Ok m;
  module_of p := p;
  Guest := list Z * list Z;
  set_fuel _ := Ok tt;
  start p _ _ _ := Ok (p, repeat 0 16);
  guest_module g := g.1;
  get_memory _ n := bool_decide (n = MEMORY);
  get_typed_func _ n ps rs := Ok tt;
  call := sample_call;
  memory g := g.2;
  memory_write := sample_write;
  memory_read := sample_read
|}.
Next Obligation. by intros m p [= <-]. Qed.
Next Obligation. by intros p f t b g [= <-]. Qed.
Next Obligation.
  intros g n. cbn. unfold sample_exports. rewrite !elem_of_cons, elem_of_nil.
  intros [[= ->]|[?|[?|[?|[]]]]]; [by apply bool_decide_eq_true_2|done..].
Qed.
Next Obligation. done. Qed.
Next Obligation. intros f args g. unfold sample_call. by repeat case_match. Qed.
Next Obligation.
  intros at_ bytes g g' Hat. unfold sample_write. destruct (Z.leb_spec (at_ + Z.of_nat (length bytes)) (Z.of_nat (length g.2))); [|done].
  intros [= <-]. done.
Qed.
Next Obligation.
  intros at_ len g bytes _ _. unfold sample_read. destruct (Z.leb_spec (at_ + len) (Z.of_nat (length g.2))); [|done].
  by intros [= <-].
Qed.

Definition wasm : list Z := [0].
Definition checksum : Checksum := Checksum_of wasm.
Definition loaded : PluginHost := (load (MkHost ∅ default_limits) checksum wasm).2.

Lemma loaded_steps : rtc host_step (MkHost ∅ default_limits) loaded.
Proof. apply rtc_once. constructor. Qed.

Lemma loaded_vetted_witness : modules loaded !! checksum = Some wasm ∧ vetted checksum wasm.
Proof.
  split; [vm_compute; reflexivity|].
  apply (loaded_vetted default_limits loaded checksum wasm).
  - exact loaded_steps.
  - vm_compute. reflexivity.
Defined.

Definition echoed : result ProcessorError (list Z) := Ok [7; 8; 9].
Lemma run_confined_witness :
  run (λ _, []) loaded checksum [7; 8; 9] None = echoed ∧
  ((∃ detail, echoed = Err (Failed detail)) ∨
   ∃ p g span out, modules loaded !! checksum = Some p ∧ vetted checksum p ∧
     start p (fuel (host_limits loaded)) (deadline_ticks (host_limits loaded))
       (memory_bytes (host_limits loaded)) = Ok g ∧
     ended g [7; 8; 9] span out ∧
     (refused span = false ∧ echoed = Ok out ∨
      ∃ reason, refused span = true ∧ echoed = Err (Refused reason) ∧ as_bytes reason = out)).
Proof.
  split; [vm_compute; reflexivity|].
  apply (run_confined (λ _, []) default_limits loaded checksum [7; 8; 9] echoed).
  - exact loaded_steps.
  - vm_compute. reflexivity.
Defined.

Lemma unpack_exact_witness :
  (0 ≤ ptr (unpack (2 ^ 63 + 5 * 2 ^ 32 + 3)) < 2 ^ 31 ∧
   0 ≤ span_len (unpack (2 ^ 63 + 5 * 2 ^ 32 + 3)) < 2 ^ 32) ∧
  (unpack (2 ^ 63 + 5 * 2 ^ 32 + 3) = MkPacked true 5 3 ↔
   0 ≤ ptr (MkPacked true 5 3) < 2 ^ 31 ∧ 0 ≤ span_len (MkPacked true 5 3) < 2 ^ 32 ∧
   2 ^ 63 + 5 * 2 ^ 32 + 3 = pack (MkPacked true 5 3)).
Proof. apply (unpack_exact (2 ^ 63 + 5 * 2 ^ 32 + 3) (MkPacked true 5 3)). lia. Defined.

(** A module that imports the host's [log] is loaded. *)
Lemma log_import_loads :
  is_ok (load loaded (Checksum_of [0; 1]) [0; 1]).1 = true ∧
  is_ok (load loaded (Checksum_of [0; 2]) [0; 2]).1 = false.
Proof. vm_compute. done. Qed.
End HostSample.
