(* ===== verification/Sql.v ===== *)
(** * Sql: programs that speak to a database

    The store of [crates/ip-storage] is written as statements sent to a database one after the
    other, some of them inside a transaction.  [sql] is such a program: it ends, sends a
    statement and goes on with the answer, or runs a body as one transaction.  It is given a
    run in which nothing breaks ([exec]), the runs in which any statement may fail ([runs]),
    and the steps of many programs on one database ([pool_step]).

    A statement is all or nothing, which both databases promise of every statement; a
    transaction publishes what its body wrote when it commits and nothing otherwise, which is
    what [sqlite] does to one writer at a time. *)
From S2P Require Import Prelude Text Ident Account.

(** What [error.rs] can tell apart of a [sqlx::Error]. *)
Inductive DbError : Type := UniqueViolation | ForeignKeyViolation | OtherFailure.
#[export] Instance DbError_eq_dec : EqDecision DbError.
Proof. solve_decision. Defined.

Definition is_unique_violation (e : DbError) : bool := bool_decide (e = UniqueViolation).
Definition is_foreign_key_violation (e : DbError) : bool := bool_decide (e = ForeignKeyViolation).

(** ** Programs *)
Section programs.
Context {Db : Type}.

Abbreviation statement X := (Db → result DbError (X * Db)).

Inductive sql (A : Type) : Type :=
  | Done (r : result StorageError A)
  | Ask {X : Type} (s : statement X) (k : result DbError X → sql A)
  | Atomically {X : Type} (body : sql X) (k : result StorageError X → sql A).

(** What a statement answers, and the database it leaves: a refused statement changes nothing. *)
Definition answer {X} (s : statement X) (d : Db) : result DbError X * Db :=
  match s d with Ok (x, d') => (Ok x, d') | Err e => (Err e, d) end.

(** A run on a database that answers every statement. *)
Fixpoint exec {A} (p : sql A) (d : Db) : result StorageError A * Db :=
  match p with
  | Done _ r => (r, d)
  | Ask _ s k => let '(r, d') := answer s d in exec (k r) d'
  | Atomically _ body k =>
      match exec body d with
      | (Ok x, d') => exec (k (Ok x)) d'
      | (Err e, _) => exec (k (Err e)) d
      end
  end.

(** The runs in which any statement, and the commit of any transaction, may fail. *)
Fixpoint runs {A} (p : sql A) (d : Db) (r : result StorageError A) (d' : Db) : Prop :=
  match p with
  | Done _ r' => r = r' ∧ d' = d
  | Ask _ s k =>
      runs (k (answer s d).1) (answer s d).2 r d' ∨ runs (k (Err OtherFailure)) d r d'
  | Atomically _ body k =>
      (∃ x d1, runs body d (Ok x) d1
               ∧ (runs (k (Ok x)) d1 r d' ∨ runs (k (Err Backend)) d r d')) ∨
      (∃ e d1, runs body d (Err e) d1 ∧ runs (k (Err e)) d r d')
  end.

(** One statement of one program, or the whole of one transaction. *)
Definition step {A} (p : sql A) (d : Db) (p' : sql A) (d' : Db) : Prop :=
  match p with
  | Done _ _ => False
  | Ask _ s k => p' = k (answer s d).1 ∧ d' = (answer s d).2 ∨ p' = k (Err OtherFailure) ∧ d' = d
  | Atomically _ body k =>
      (∃ x d1, runs body d (Ok x) d1 ∧ (p' = k (Ok x) ∧ d' = d1 ∨ p' = k (Err Backend) ∧ d' = d)) ∨
      (∃ e d1, runs body d (Err e) d1 ∧ p' = k (Err e) ∧ d' = d)
  end.

(** Many connections on one database, each running its own program. *)
Inductive pool_step {A} : list (sql A) * Db → list (sql A) * Db → Prop :=
  | pool_steps before p after d p' d' :
      step p d p' d' → pool_step (before ++ p :: after, d) (before ++ p' :: after, d').

#[export] Instance sql_ret : MRet sql := λ A a, Done A (Ok a).
Fixpoint sql_bind {A B} (f : A → sql B) (p : sql A) : sql B :=
  match p with
  | Done _ (Ok a) => f a
  | Done _ (Err e) => Done B (Err e)
  | Ask _ s k => Ask B s (λ r, sql_bind f (k r))
  | Atomically _ body k => Atomically B body (λ r, sql_bind f (k r))
  end.
#[export] Instance sql_mbind : MBind sql := @sql_bind.

(** A program that sends nothing. *)
Definition pure {A} (r : result StorageError A) : sql A := Done A r.

(** Send a statement, and make of a failure what [h] says. *)
Definition ask_or {X} (h : DbError → result StorageError X) (s : statement X) : sql X :=
  Ask X s (λ r, Done X (match r with Ok x => Ok x | Err e => h e end)).

(** [.map_err(StorageError::backend)?]. *)
Definition ask {X} (s : statement X) : sql X := ask_or (λ _, Err Backend) s.

(** A statement that only reads. *)
Definition select {X} (f : Db → X) : sql X := ask (λ d, Ok (f d, d)).

(** [begin], the body, then [commit], or [rollback] where the body fails. *)
Definition atomically {A} (body : sql A) : sql A := Atomically A body (Done A).

(** ** What every run of a program does *)

(** Every change a program makes to the database, as others see it, is one [R] allows. *)
Fixpoint obeys (R : Db → Db → Prop) {A} (p : sql A) : Prop :=
  match p with
  | Done _ _ => True
  | Ask _ s k => (∀ d x d', s d = Ok (x, d') → R d d') ∧ ∀ r, obeys R (k r)
  | Atomically _ body k => obeys R body ∧ ∀ r, obeys R (k r)
  end.

(** A program that stops at a broken statement and reports it. *)
Fixpoint strict {A} (p : sql A) : Prop :=
  match p with
  | Done _ _ => True
  | Ask _ s k => k (Err OtherFailure) = Done _ (Err Backend) ∧ ∀ r, strict (k r)
  | Atomically _ _ _ => False
  end.

Lemma runs_exec {A} (p : sql A) d : runs p d (exec p d).1 (exec p d).2.
Proof.
  revert d. induction p as [A r|A X s k IH|A X body IHb k IH]; intros d; cbn.
  - done.
  - left. destruct (answer s d) as [r d']. apply IH.
  - pose proof (IHb d) as Hb. destruct (exec body d) as [[x|e] d'].
    + left. eexists x, d'. split; [done|]. left. apply IH.
    + right. eexists e, d'. split; [done|]. apply IH.
Qed.

Lemma exec_bind {A B} (p : sql A) (f : A → sql B) d :
  exec (p ≫= f) d
  = match exec p d with
    | (Ok a, d') => exec (f a) d'
    | (Err e, d') => (Err e, d')
    end.
Proof.
  revert d. change (p ≫= f) with (sql_bind f p).
  induction p as [A [a|e]|A X s k IH|A X body _ k IH]; intros d; cbn; [done..| |].
  - destruct (answer s d). apply IH.
  - destruct (exec body d) as [[]]; apply IH.
Qed.

Lemma exec_ask_or {X} h (s : statement X) d :
  exec (ask_or h s) d
  = match s d with Ok (x, d') => (Ok x, d') | Err e => (h e, d) end.
Proof. unfold ask_or. cbn. unfold answer. by destruct (s d) as [[]|]. Qed.

Lemma exec_ask {X} (s : statement X) d :
  exec (ask s) d = match s d with Ok (x, d') => (Ok x, d') | Err _ => (Err Backend, d) end.
Proof. apply exec_ask_or. Qed.

Lemma exec_select {X} (f : Db → X) d : exec (select f) d = (Ok (f d), d).
Proof. done. Qed.

Lemma exec_pure {A} (r : result StorageError A) (d : Db) : exec (pure r) d = (r, d).
Proof. done. Qed.

Lemma exec_atomically {A} (body : sql A) d :
  exec (atomically body) d
  = match exec body d with (Ok x, d') => (Ok x, d') | (Err e, _) => (Err e, d) end.
Proof. unfold atomically. cbn. by destruct (exec body d) as [[]]. Qed.

(** *** What holds of every step holds of every run, and of every interleaving *)
Section obeys.
Context (R : Db → Db → Prop) `{!PreOrder R}.

Lemma answer_obeys {X} (s : statement X) d :
  (∀ d x d', s d = Ok (x, d') → R d d') → R d (answer s d).2.
Proof using Type*.
  intros Hs. unfold answer. destruct (s d) as [[x d']|e] eqn:E; [by eapply Hs|done].
Qed.

Lemma runs_obeys {A} (p : sql A) d r d' : obeys R p → runs p d r d' → R d d'.
Proof using Type*.
  revert d r d'. induction p as [A r0|A X s k IH|A X body IHb k IH]; intros d r d'; cbn.
  - intros _ [_ ->]. done.
  - intros [Hs Hk] [Hr|Hr]; [|by eapply IH].
    transitivity (answer s d).2; [by apply answer_obeys|]. by eapply IH.
  - intros [Hb Hk] [(x & d1 & Hx & [Hr|Hr])|(e & d1 & _ & Hr)]; [|by eapply IH..].
    transitivity d1; [by eapply IHb|by eapply IH].
Qed.

Lemma step_obeys {A} (p : sql A) d p' d' : obeys R p → step p d p' d' → R d d' ∧ obeys R p'.
Proof using Type*.
  destruct p as [r|X s k|X body k]; cbn; [done|..].
  - intros [Hs Hk] [[-> ->]|[-> ->]]; (split; [|done]); [by apply answer_obeys|done].
  - intros [Hb Hk] [(x & d1 & Hx & [[-> ->]|[-> ->]])|(e & d1 & _ & -> & ->)];
      (split; [|done]); [by eapply runs_obeys|done..].
Qed.

Lemma pool_obeys {A} (ps ps' : list (sql A)) d d' :
  rtc pool_step (ps, d) (ps', d') → Forall (obeys R) ps → R d d' ∧ Forall (obeys R) ps'.
Proof using Type*.
  intros Hs. remember (ps, d) as x eqn:Ex. remember (ps', d') as y eqn:Ey.
  revert ps d Ex. induction Hs as [x|x x1 y Hxy _ IH]; intros ps d ->.
  - injection Ey as -> ->. done.
  - inversion Hxy as [before p after ? p1 d1 Hp]; subst. intros Hps.
    apply Forall_app in Hps as [Hb Hps]. apply Forall_cons in Hps as [Hp1 Ha].
    destruct (step_obeys _ _ _ _ Hp1 Hp) as [HR Hp'].
    destruct (IH eq_refl _ _ eq_refl) as [HR' Hps']; [|split; [by transitivity d1|done]].
    apply Forall_app. split; [done|]. by constructor.
Qed.
End obeys.

Lemma obeys_bind R {A B} (p : sql A) (f : A → sql B) :
  obeys R p → (∀ a, obeys R (f a)) → obeys R (p ≫= f).
Proof.
  intros Hp Hf. change (p ≫= f) with (sql_bind f p). revert Hp.
  induction p as [A [a|e]|A X s k IH|A X body _ k IH]; cbn.
  - intros _. apply Hf.
  - done.
  - intros [Hs Hk]. split; [done|]. intros r. by apply IH.
  - intros [Hb Hk]. split; [done|]. intros r. by apply IH.
Qed.

(** Every value a program ends with, whatever it is answered. *)
Fixpoint yields {A} (p : sql A) (Q : A → Prop) : Prop :=
  match p with
  | Done _ (Ok a) => Q a
  | Done _ (Err _) => True
  | Ask _ _ k => ∀ r, yields (k r) Q
  | Atomically _ _ k => ∀ r, yields (k r) Q
  end.

Lemma yields_any {A} (p : sql A) (Q : A → Prop) : (∀ a, Q a) → yields p Q.
Proof. intros HQ. induction p as [A [a|e]|A X s k IH|A X body _ k IH]; cbn; auto. Qed.

Lemma yields_bind {A B} (p : sql A) (f : A → sql B) (Q : A → Prop) (Q' : B → Prop) :
  yields p Q → (∀ a, Q a → yields (f a) Q') → yields (p ≫= f) Q'.
Proof.
  intros Hp Hf. change (p ≫= f) with (sql_bind f p). revert Q Hp Hf.
  induction p as [A [a|e]|A X s k IH|A X body _ k IH]; cbn; intros Q Hp Hf; [by apply Hf|done|..];
    intros r; by eapply IH.
Qed.

Lemma obeys_yields R {A B} (p : sql A) (f : A → sql B) (Q : A → Prop) :
  obeys R p → yields p Q → (∀ a, Q a → obeys R (f a)) → obeys R (p ≫= f).
Proof.
  intros Hp Hq Hf. change (p ≫= f) with (sql_bind f p). revert Q Hp Hq Hf.
  induction p as [A [a|e]|A X s k IH|A X body _ k IH]; cbn; intros Q Hp Hq Hf; [by apply Hf|done|..].
  - destruct Hp as [Hs Hk]. split; [done|]. intros r. by eapply IH.
  - destruct Hp as [Hb Hk]. split; [done|]. intros r. by eapply IH.
Qed.

Lemma obeys_ask_or R {X} h (s : statement X) :
  (∀ d x d', s d = Ok (x, d') → R d d') → obeys R (ask_or h s).
Proof. done. Qed.

Lemma obeys_select R `{!Reflexive R} {X} (f : Db → X) : obeys R (select f).
Proof. apply obeys_ask_or. by intros d x d' [= _ <-]. Qed.

Lemma obeys_atom R {A} (body : sql A) : obeys R body → obeys R (atomically body).
Proof. done. Qed.

Lemma obeys_pure R {A} (r : result StorageError A) : obeys R (pure r).
Proof. done. Qed.

Lemma obeys_impl (R R' : Db → Db → Prop) {A} (p : sql A) :
  (∀ d d', R d d' → R' d d') → obeys R p → obeys R' p.
Proof. intros HR. induction p; cbn; naive_solver. Qed.

Lemma strict_bind {A B} (p : sql A) (f : A → sql B) :
  strict p → (∀ a, strict (f a)) → strict (p ≫= f).
Proof.
  intros Hp Hf. change (p ≫= f) with (sql_bind f p). revert Hp.
  induction p as [A [a|e]|A X s k IH|A X body _ k IH]; cbn; [|done| |done].
  - intros _. apply Hf.
  - intros [He Hk]. split; [by rewrite He|]. intros r. by apply IH.
Qed.

Lemma strict_ask_or {X} h (s : statement X) :
  h OtherFailure = Err Backend → strict (ask_or h s).
Proof. intros He. split; [by rewrite He|done]. Qed.

Lemma strict_select {X} (f : Db → X) : strict (select f).
Proof. by eapply strict_ask_or. Qed.

Lemma strict_ask {X} (s : statement X) : strict (ask s).
Proof. by eapply strict_ask_or. Qed.

Lemma strict_pure {A} (r : result StorageError A) : strict (pure r).
Proof. done. Qed.

(** A strict program runs to its end as it would have alone, or reports that the database
    failed. *)
Lemma strict_runs {A} (p : sql A) d r d' :
  strict p → runs p d r d' → exec p d = (r, d') ∨ r = Err Backend.
Proof.
  revert d. induction p as [A r0|A X s k IH|A X body IHb k IH]; intros d; cbn; [|..|done].
  - intros _ [<- ->]. by left.
  - intros [He Hk] [Hr|Hr].
    + destruct (answer s d). by apply IH.
    + rewrite He in Hr. destruct Hr as [-> _]. by right.
Qed.

(** What a program does alone is one of the things it does among others. *)
Lemma pool_exec {A} (before after : list (sql A)) (p : sql A) d :
  rtc pool_step (before ++ p :: after, d) (before ++ Done A (exec p d).1 :: after, (exec p d).2).
Proof.
  revert before after d.
  induction p as [A r|A X s k IH|A X body _ k IH]; intros before after d; cbn.
  - apply rtc_refl.
  - eapply rtc_l; [apply pool_steps; left; split; reflexivity|].
    destruct (answer s d) as [r d']. apply IH.
  - pose proof (runs_exec body d) as Hb. destruct (exec body d) as [[x|e] d']; cbn [fst snd] in Hb.
    + eapply rtc_l; [|apply IH]. apply pool_steps. left. eexists x, d'. split; [done|]. by left.
    + eapply rtc_l; [|apply IH]. apply pool_steps. right. by eexists e, d'.
Qed.

(** *** Catching what a call reports *)

(** [match call.await { Ok(..) => .., Err(..) => .. }]: the report of a program as a value. *)
Fixpoint attempt {A} (p : sql A) : sql (result StorageError A) :=
  match p with
  | Done _ r => Done _ (Ok r)
  | Ask _ s k => Ask _ s (λ r, attempt (k r))
  | Atomically _ body k => Atomically _ body (λ r, attempt (k r))
  end.

Lemma exec_attempt {A} (p : sql A) d : exec (attempt p) d = (Ok (exec p d).1, (exec p d).2).
Proof.
  revert d. induction p as [A r|A X s k IH|A X body _ k IH]; intros d; cbn; [done|..].
  - destruct (answer s d). apply IH.
  - destruct (exec body d) as [[]]; apply IH.
Qed.

Lemma runs_attempt {A} (p : sql A) d r d' :
  runs (attempt p) d r d' ↔ ∃ r0, r = Ok r0 ∧ runs p d r0 d'.
Proof.
  revert d. induction p as [A r1|A X s k IH|A X body _ k IH]; intros d; cbn.
  - naive_solver.
  - rewrite !IH. naive_solver.
  - setoid_rewrite IH. naive_solver.
Qed.

Lemma obeys_attempt R {A} (p : sql A) : obeys R p → obeys R (attempt p).
Proof. induction p; cbn; naive_solver. Qed.

Lemma runs_seq {A B} (p : sql A) (f : A → sql B) d r d' :
  runs (p ≫= f) d r d' ↔
  (∃ a d1, runs p d (Ok a) d1 ∧ runs (f a) d1 r d') ∨ (∃ e, runs p d (Err e) d' ∧ r = Err e).
Proof.
  change (p ≫= f) with (sql_bind f p). revert d.
  induction p as [A [a|e]|A X s k IH|A X body _ k IH]; intros d; cbn.
  - naive_solver.
  - naive_solver.
  - rewrite !IH. naive_solver.
  - setoid_rewrite IH. naive_solver.
Qed.

(** A program that only reads leaves the database as it was. *)
Lemma reads_runs {A} (p : sql A) d r d' : obeys eq p → runs p d r d' → d' = d.
Proof. intros Hp Hr. symmetry. exact (runs_obeys eq p d r d' Hp Hr). Qed.

(** *** Playing a given interleaving *)

(** The next thing a program does when nothing breaks. *)
Definition turn {A} (p : sql A) (d : Db) : sql A * Db :=
  match p with
  | Done _ r => (Done _ r, d)
  | Ask _ s k => (k (answer s d).1, (answer s d).2)
  | Atomically _ body k =>
      match exec body d with (Ok x, d') => (k (Ok x), d') | (Err e, _) => (k (Err e), d) end
  end.

Fixpoint play {A} (turns : list nat) (ps : list (sql A)) (d : Db) : list (sql A) * Db :=
  match turns with
  | [] => (ps, d)
  | i :: turns =>
      match ps !! i with
      | Some p => let '(p, d) := turn p d in play turns (<[i := p]> ps) d
      | None => play turns ps d
      end
  end.

Lemma turn_steps {A} (p : sql A) d : turn p d = (p, d) ∨ step p d (turn p d).1 (turn p d).2.
Proof.
  destruct p as [r|X s k|X body k]; cbn; [by left|right; by left|right].
  pose proof (runs_exec body d) as Hb. destruct (exec body d) as [[x|e] d'].
  - left. exists x, d'. split; [done|]. by left.
  - right. by exists e, d'.
Qed.

Lemma play_steps {A} turns (ps : list (sql A)) d : rtc pool_step (ps, d) (play turns ps d).
Proof.
  revert ps d. induction turns as [|i turns IH]; intros ps d; cbn; [apply rtc_refl|].
  destruct (ps !! i) as [p|] eqn:Hi; [|apply IH].
  destruct (turn_steps p d) as [E|Hs].
  - rewrite E, list_insert_id by done. apply IH.
  - destruct (turn p d) as [p' d']. eapply rtc_l; [|apply IH].
    rewrite <-(take_drop_middle ps i p) at 1 by done.
    rewrite insert_take_drop by (by eapply lookup_lt_Some). by apply pool_steps.
Qed.
End programs.
Arguments sql : clear implicits.

(** Runs a program up to the first statement whose answer is not known. *)
Ltac sql_run :=
  repeat first [rewrite exec_bind|rewrite exec_select|rewrite exec_ask|rewrite exec_ask_or
               |rewrite exec_pure|rewrite exec_atomically|progress cbv beta iota];
  cbn [fst snd].
