(* ===== verification/Schema.v ===== *)
(** * Schema: the tables, their keys, their cascades and the rule revision

    Models [crates/ip-storage/migrations/sqlite/*.sql] (the postgres migrations declare the
    same tables) and the write statements the stores send.  A table is its rows in the order
    they were written; a row holds its columns as the database does, texts and integers, so
    that what is read back goes through the same codecs as in the code.  Foreign keys are the
    surrogate row ids of other rows.

    What the two databases decide for themselves is the class [Engine]: the row id of a new
    row, and how far the triggers move the rule revision. *)
From S2P Require Import Prelude Text Ident Key Capability LimitCore PluginCore Account Sql.

(** ** Tables *)

Record table (R : Type) : Type := MkTable { rows : list R; issued : Z }.
Arguments MkTable {R} _ _.
Arguments rows {R} _.
Arguments issued {R} _.

Class Row (R : Type) : Type := row_id : R → Z.

Definition ids {R} `{!Row R} (t : table R) : list Z := row_id <$> rows t.

Class Engine : Type := {
  (** The row id of a new row, given the largest ever issued and those in use. *)
  next_row_id : Z → list Z → option Z;
  (** How far the triggers of one statement move the revision, by the rows it touched. *)
  moves : nat → Z;
  (** How far those of an insert that may update instead do. *)
  upsert_moves : Z;
  next_row_id_fresh : ∀ issued used i,
    next_row_id issued used = Some i → 0 ≤ issued → Forall (λ j, j ≤ issued) used →
    0 < i ∧ i ∉ used;
  moves_nonneg : ∀ n, 0 ≤ moves n;
  moves_some : ∀ n, (0 < n)%nat → 0 < moves n;
  upsert_moves_some : 0 < upsert_moves
}.

(** [INTEGER PRIMARY KEY]: one past the largest in use, and a trigger for each row. *)
Program Definition sqlite : Engine := {|
  next_row_id _ used :=
    let largest := foldr Z.max 0 used in
    if largest <? i64_max then Some (largest + 1) else None;
  moves n := Z.of_nat n;
  upsert_moves := 1
|}.
Next Obligation.
  intros issued used i. cbn. destruct (_ <? i64_max); [|done]. intros [= <-] _ _.
  assert (0 ≤ foldr Z.max 0 used ∧ Forall (λ j, j ≤ foldr Z.max 0 used) used) as [Hp Hall].
  { induction used as [|j used [IH1 IH2]]; cbn; [done|]. split; [lia|].
    constructor; [lia|]. eapply Forall_impl; [exact IH2|]. cbn. lia. }
  split; [lia|]. intros Hin. rewrite Forall_forall in Hall. apply Hall in Hin. lia.
Qed.
Next Obligation. cbn. lia. Qed.
Next Obligation. cbn. lia. Qed.
Next Obligation. cbn. lia. Qed.

(** [GENERATED ALWAYS AS IDENTITY]: one past the largest ever issued, and a trigger for each
    statement, two of them for an insert that may update. *)
Program Definition postgres : Engine := {|
  next_row_id issued _ := if issued <? i64_max then Some (issued + 1) else None;
  moves _ := 1;
  upsert_moves := 2
|}.
Next Obligation.
  intros issued used i. cbn. destruct (_ <? i64_max); [|done]. intros [= <-] Hi Hall. split; [lia|].
  intros Hin. rewrite Forall_forall in Hall. apply Hall in Hin. lia.
Qed.
Next Obligation. cbn. lia. Qed.
Next Obligation. cbn. lia. Qed.
Next Obligation. cbn. lia. Qed.

(** ** Rows *)

Record TenantEntry : Type := MkTenantEntry {
  tn_row : Z; tn_id : str; tn_key : list Z; tn_at : Z
}.
Record UserEntry : Type := MkUserEntry {
  us_row : Z; us_id : str; us_passphrase : str; us_kind : str; us_at : Z
}.
Record MemberEntry : Type := MkMemberEntry {
  mb_tenant : Z; mb_user : Z; mb_standing : str; mb_at : Z
}.
Record GrantEntry : Type := MkGrantEntry {
  gt_row : Z; gt_user : Z; gt_tenant : option Z; gt_api : option str; gt_capability : str;
  gt_at : Z
}.
Record RouteEntry : Type := MkRouteEntry {
  rt_row : Z; rt_api : str; rt_protocol : str; rt_host : str; rt_port : Z; rt_path : str;
  rt_strategy : str; rt_at : Z
}.
Record TargetEntry : Type := MkTargetEntry {
  tg_row : Z; tg_route : Z; tg_position : Z; tg_protocol : str; tg_host : str; tg_port : Z;
  tg_path : str; tg_weight : Z
}.
Record PluginEntry : Type := MkPluginEntry {
  pl_row : Z; pl_checksum : str; pl_kind : str; pl_wasm : list Z; pl_at : Z
}.
Record OwnerEntry : Type := MkOwnerEntry {
  ow_plugin : Z; ow_tenant : option Z; ow_at : Z
}.
Record RuleEntry : Type := MkRuleEntry {
  ru_row : Z; ru_plugin : Z; ru_tenant : option Z; ru_user : option Z; ru_api : option str;
  ru_kind : str; ru_position : Z; ru_at : Z
}.
Record LimitEntry : Type := MkLimitEntry {
  li_row : Z; li_tenant : Z; li_user : option Z; li_api : option str; li_counted : str;
  li_period : str; li_allowance : Z; li_at : Z
}.
Record UsageEntry : Type := MkUsageEntry {
  ug_row : Z; ug_trace : str; ug_turn : option str; ug_tenant : str; ug_user : str; ug_api : str;
  ug_model : option str; ug_input : Z; ug_output : Z; ug_served : str; ug_host : option str;
  ug_port : option Z; ug_latency : Z; ug_at : Z
}.

#[export] Instance TenantEntry_row : Row TenantEntry := tn_row.
#[export] Instance UserEntry_row : Row UserEntry := us_row.
#[export] Instance GrantEntry_row : Row GrantEntry := gt_row.
#[export] Instance RouteEntry_row : Row RouteEntry := rt_row.
#[export] Instance TargetEntry_row : Row TargetEntry := tg_row.
#[export] Instance PluginEntry_row : Row PluginEntry := pl_row.
#[export] Instance RuleEntry_row : Row RuleEntry := ru_row.
#[export] Instance LimitEntry_row : Row LimitEntry := li_row.
#[export] Instance UsageEntry_row : Row UsageEntry := ug_row.

(** *** The unique indexes *)

(** [IFNULL(_, 0)] and [IFNULL(_, '')]. *)
Definition or_zero (o : option Z) : Z := default 0 o.
Definition or_empty (o : option str) : str := default [] o.

Definition member_key (m : MemberEntry) : Z * Z := (mb_tenant m, mb_user m).
Definition grant_key (g : GrantEntry) : Z * Z * str * str :=
  (gt_user g, or_zero (gt_tenant g), or_empty (gt_api g), gt_capability g).
Definition route_key (r : RouteEntry) : str * str * Z * str :=
  (rt_protocol r, rt_host r, rt_port r, rt_path r).
Definition target_key (t : TargetEntry) : Z * Z := (tg_route t, tg_position t).
Definition owner_key (o : OwnerEntry) : Z * Z := (or_zero (ow_tenant o), ow_plugin o).
Definition rule_key_of (r : RuleEntry) : Z * str * Z :=
  (or_zero (ru_tenant r), ru_kind r, ru_position r).
Definition limit_key (l : LimitEntry) : Z * Z * str * str * str :=
  (li_tenant l, or_zero (li_user l), or_empty (li_api l), li_counted l, li_period l).

(** *** The [CHECK]s of [plugin_rules] and [limits] *)
Definition rule_checks (r : RuleEntry) : bool :=
  (match ru_tenant r with
   | Some _ => true
   | None => bool_decide (ru_user r = None) && bool_decide (ru_api r = None)
   end)
  && Bool.eqb (bool_decide (ru_tenant r = None)) (ru_position r <=? 63).
Definition limit_checks (l : LimitEntry) : bool := 0 <? li_allowance l.

(** ** The database *)

Record Db : Type := MkDb {
  tenants : table TenantEntry;
  users : table UserEntry;
  memberships : list MemberEntry;
  grants : table GrantEntry;
  routes : table RouteEntry;
  route_targets : table TargetEntry;
  plugins : table PluginEntry;
  plugin_owners : list OwnerEntry;
  plugin_rules : table RuleEntry;
  limits : table LimitEntry;
  usage : table UsageEntry;
  revision : Z
}.

Definition no_rows {R} : table R := MkTable [] 0.

(** A database the migrations have just made. *)
Definition migrated : Db :=
  MkDb no_rows no_rows [] no_rows no_rows no_rows no_rows [] no_rows no_rows no_rows 0.

(** One table put in place of another. *)
Definition with_tenants (t : table TenantEntry) (d : Db) : Db :=
  MkDb t (users d) (memberships d) (grants d) (routes d) (route_targets d) (plugins d)
    (plugin_owners d) (plugin_rules d) (limits d) (usage d) (revision d).
Definition with_users (t : table UserEntry) (d : Db) : Db :=
  MkDb (tenants d) t (memberships d) (grants d) (routes d) (route_targets d) (plugins d)
    (plugin_owners d) (plugin_rules d) (limits d) (usage d) (revision d).
Definition with_memberships (t : list MemberEntry) (d : Db) : Db :=
  MkDb (tenants d) (users d) t (grants d) (routes d) (route_targets d) (plugins d)
    (plugin_owners d) (plugin_rules d) (limits d) (usage d) (revision d).
Definition with_grants (t : table GrantEntry) (d : Db) : Db :=
  MkDb (tenants d) (users d) (memberships d) t (routes d) (route_targets d) (plugins d)
    (plugin_owners d) (plugin_rules d) (limits d) (usage d) (revision d).
Definition with_routes (t : table RouteEntry) (d : Db) : Db :=
  MkDb (tenants d) (users d) (memberships d) (grants d) t (route_targets d) (plugins d)
    (plugin_owners d) (plugin_rules d) (limits d) (usage d) (revision d).
Definition with_route_targets (t : table TargetEntry) (d : Db) : Db :=
  MkDb (tenants d) (users d) (memberships d) (grants d) (routes d) t (plugins d)
    (plugin_owners d) (plugin_rules d) (limits d) (usage d) (revision d).
Definition with_plugins (t : table PluginEntry) (d : Db) : Db :=
  MkDb (tenants d) (users d) (memberships d) (grants d) (routes d) (route_targets d) t
    (plugin_owners d) (plugin_rules d) (limits d) (usage d) (revision d).
Definition with_plugin_owners (t : list OwnerEntry) (d : Db) : Db :=
  MkDb (tenants d) (users d) (memberships d) (grants d) (routes d) (route_targets d) (plugins d)
    t (plugin_rules d) (limits d) (usage d) (revision d).
Definition with_plugin_rules (t : table RuleEntry) (d : Db) : Db :=
  MkDb (tenants d) (users d) (memberships d) (grants d) (routes d) (route_targets d) (plugins d)
    (plugin_owners d) t (limits d) (usage d) (revision d).
Definition with_limits (t : table LimitEntry) (d : Db) : Db :=
  MkDb (tenants d) (users d) (memberships d) (grants d) (routes d) (route_targets d) (plugins d)
    (plugin_owners d) (plugin_rules d) t (usage d) (revision d).
Definition with_usage (t : table UsageEntry) (d : Db) : Db :=
  MkDb (tenants d) (users d) (memberships d) (grants d) (routes d) (route_targets d) (plugins d)
    (plugin_owners d) (plugin_rules d) (limits d) t (revision d).

(** What a trigger runs: [UPDATE rule_revision SET revision = revision + 1]. *)
Definition moved (by_ : Z) (d : Db) : Db :=
  MkDb (tenants d) (users d) (memberships d) (grants d) (routes d) (route_targets d) (plugins d)
    (plugin_owners d) (plugin_rules d) (limits d) (usage d) (revision d + by_).

Abbreviation statement X := (Db → result DbError (X * Db)).

(** ** Parts of a statement *)
Section statements.
Context `{Engine}.

(** A new row at the end of a table. *)
Definition append {R} `{!Row R} (mk : Z → R) (t : table R) : result DbError (R * table R) :=
  match next_row_id (issued t) (ids t) with
  | Some i => Ok (mk i, MkTable (rows t ++ [mk i]) (Z.max (issued t) i))
  | None => Err OtherFailure
  end.

(** The rows of a table that satisfy a condition, and the table without them. *)
Definition keep {R} (P : R → Prop) `{∀ r, Decision (P r)} (t : table R) : table R :=
  MkTable (filter P (rows t)) (issued t).
Definition update {R} (f : R → R) (t : table R) : table R := MkTable (f <$> rows t) (issued t).

(** Whether a row with this key is there. *)
Definition taken {R K} `{EqDecision K} (key : R → K) (k : K) (l : list R) : bool :=
  bool_decide (k ∈ key <$> l).

(** A reference that stays when the rows of [gone] go: [ON DELETE CASCADE] follows those that
    do not. *)
Definition stays (gone : list Z) (reference : option Z) : Prop :=
  match reference with Some i => i ∉ gone | None => True end.
#[global] Arguments stays : simpl never.
#[export] Instance stays_dec gone reference : Decision (stays gone reference).
Proof using. unfold stays. destruct reference; apply _. Defined.

(** How far the triggers of a cascade move the revision: none runs when no parent row went. *)
Definition cascade_moves {R S} (gone : list R) (before after : list S) : Z :=
  match gone with [] => 0 | _ :: _ => moves (length before - length after) end.

(** Whether a row a foreign key names is there. *)
Definition refers {R} `{!Row R} (t : table R) (reference : option Z) : bool :=
  match reference with Some i => bool_decide (i ∈ ids t) | None => true end.

(** ** The writes *)

Definition insert_into_tenants (id : str) (key : list Z) (created_at : Z) : statement Z := λ d,
  if taken tn_id id (rows (tenants d)) then Err UniqueViolation
  else '(r, t) ← append (λ i, MkTenantEntry i id key created_at) (tenants d);
       Ok (tn_row r, with_tenants t d).

(** [DELETE FROM tenants], with what each table that refers to one does about it. *)
Definition delete_from_tenants (P : TenantEntry → Prop) `{∀ r, Decision (P r)} : statement nat :=
  λ d,
  let gone := filter P (rows (tenants d)) in
  let lost := tn_row <$> gone in
  let rules := keep (λ r, stays lost (ru_tenant r)) (plugin_rules d) in
  let left_limits := keep (λ l, stays lost (Some (li_tenant l))) (limits d) in
  Ok (length gone,
      moved (cascade_moves gone (rows (plugin_rules d)) (rows rules)
             + cascade_moves gone (rows (limits d)) (rows left_limits))
      (with_limits left_limits
      (with_plugin_rules rules
      (with_plugin_owners (filter (λ o, stays lost (ow_tenant o)) (plugin_owners d))
      (with_grants (keep (λ g, stays lost (gt_tenant g)) (grants d))
      (with_memberships (filter (λ m, stays lost (Some (mb_tenant m))) (memberships d))
      (with_tenants (keep (λ r, ¬ P r) (tenants d)) d))))))).

Definition insert_into_users (id passphrase kind : str) (created_at : Z) : statement Z := λ d,
  if taken us_id id (rows (users d)) then Err UniqueViolation
  else '(r, t) ← append (λ i, MkUserEntry i id passphrase kind created_at) (users d);
       Ok (us_row r, with_users t d).

(** [UPDATE users SET passphrase = ? WHERE ...]. *)
Definition repassed (P : UserEntry → Prop) `{∀ r, Decision (P r)} (passphrase : str)
    (r : UserEntry) : UserEntry :=
  if decide (P r) then MkUserEntry (us_row r) (us_id r) passphrase (us_kind r) (us_at r) else r.
Definition update_passphrases (P : UserEntry → Prop) `{∀ r, Decision (P r)} (passphrase : str)
    : statement nat := λ d,
  Ok (length (filter P (rows (users d))), with_users (update (repassed P passphrase) (users d)) d).

Definition delete_from_users (P : UserEntry → Prop) `{∀ r, Decision (P r)} : statement nat := λ d,
  let gone := filter P (rows (users d)) in
  let lost := us_row <$> gone in
  let rules := keep (λ r, stays lost (ru_user r)) (plugin_rules d) in
  let left_limits := keep (λ l, stays lost (li_user l)) (limits d) in
  Ok (length gone,
      moved (cascade_moves gone (rows (plugin_rules d)) (rows rules)
             + cascade_moves gone (rows (limits d)) (rows left_limits))
      (with_limits left_limits
      (with_plugin_rules rules
      (with_grants (keep (λ g, stays lost (Some (gt_user g))) (grants d))
      (with_memberships (filter (λ m, stays lost (Some (mb_user m))) (memberships d))
      (with_users (keep (λ r, ¬ P r) (users d)) d)))))).

(** [ON CONFLICT (tenant_row_id, user_row_id) DO UPDATE SET standing = excluded.standing]. *)
Definition restood (tenant user : Z) (standing : str) (m : MemberEntry) : MemberEntry :=
  if decide (member_key m = (tenant, user)) then MkMemberEntry tenant user standing (mb_at m) else m.
Definition upsert_membership (tenant user : Z) (standing : str) (created_at : Z)
    : statement unit := λ d,
  if taken member_key (tenant, user) (memberships d)
  then Ok (tt, with_memberships (restood tenant user standing <$> memberships d) d)
  else if refers (tenants d) (Some tenant) && refers (users d) (Some user)
  then Ok (tt, with_memberships (memberships d ++ [MkMemberEntry tenant user standing created_at]) d)
  else Err ForeignKeyViolation.

(** [DELETE ... RETURNING standing]. *)
Definition delete_from_memberships (P : MemberEntry → Prop) `{∀ r, Decision (P r)}
    : statement (list MemberEntry) := λ d,
  Ok (filter P (memberships d), with_memberships (filter (λ m, ¬ P m) (memberships d)) d).

Definition insert_into_grants (user : Z) (tenant : option Z) (api : option str)
    (capability : str) (created_at : Z) : statement unit := λ d,
  if taken grant_key (user, or_zero tenant, or_empty api, capability) (rows (grants d))
  then Err UniqueViolation
  else if refers (users d) (Some user) && refers (tenants d) tenant
  then '(_, t) ← append (λ i, MkGrantEntry i user tenant api capability created_at) (grants d);
       Ok (tt, with_grants t d)
  else Err ForeignKeyViolation.

Definition delete_from_grants (P : GrantEntry → Prop) `{∀ r, Decision (P r)} : statement nat := λ d,
  Ok (length (filter P (rows (grants d))), with_grants (keep (λ g, ¬ P g) (grants d)) d).

(** [ON CONFLICT (key) DO UPDATE SET api_id, strategy ... RETURNING row_id]. *)
Definition rerouted (k : str * str * Z * str) (api strategy : str) (r : RouteEntry) : RouteEntry :=
  if decide (route_key r = k)
  then MkRouteEntry (rt_row r) api (rt_protocol r) (rt_host r) (rt_port r) (rt_path r) strategy
    (rt_at r)
  else r.
Definition upsert_route (api protocol host : str) (port : Z) (path strategy : str)
    (created_at : Z) : statement Z := λ d,
  let k := (protocol, host, port, path) in
  match List.find (λ r, bool_decide (route_key r = k)) (rows (routes d)) with
  | Some held =>
      Ok (rt_row held, moved upsert_moves (with_routes (update (rerouted k api strategy) (routes d)) d))
  | None =>
      '(r, t) ← append (λ i, MkRouteEntry i api protocol host port path strategy created_at)
        (routes d);
      Ok (rt_row r, moved upsert_moves (with_routes t d))
  end.

Definition delete_from_routes (P : RouteEntry → Prop) `{∀ r, Decision (P r)} : statement nat := λ d,
  let gone := filter P (rows (routes d)) in
  let lost := rt_row <$> gone in
  let targets := keep (λ t, stays lost (Some (tg_route t))) (route_targets d) in
  Ok (length gone,
      moved (moves (length gone) + cascade_moves gone (rows (route_targets d)) (rows targets))
      (with_route_targets targets (with_routes (keep (λ r, ¬ P r) (routes d)) d))).

Definition insert_into_route_targets (route position : Z) (protocol host : str) (port : Z)
    (path : str) (weight : Z) : statement unit := λ d,
  if negb (0 <=? weight) then Err OtherFailure
  else if taken target_key (route, position) (rows (route_targets d)) then Err UniqueViolation
  else if refers (routes d) (Some route)
  then '(_, t) ← append (λ i, MkTargetEntry i route position protocol host port path weight)
         (route_targets d);
       Ok (tt, moved (moves 1) (with_route_targets t d))
  else Err ForeignKeyViolation.

Definition delete_from_route_targets (P : TargetEntry → Prop) `{∀ r, Decision (P r)}
    : statement nat := λ d,
  let gone := filter P (rows (route_targets d)) in
  Ok (length gone,
      moved (moves (length gone))
        (with_route_targets (keep (λ t, ¬ P t) (route_targets d)) d)).

(** [ON CONFLICT (checksum) DO NOTHING]. *)
Definition insert_plugin_once (checksum kind : str) (wasm : list Z) (created_at : Z)
    : statement unit := λ d,
  if taken pl_checksum checksum (rows (plugins d)) then Ok (tt, d)
  else '(_, t) ← append (λ i, MkPluginEntry i checksum kind wasm created_at) (plugins d);
       Ok (tt, with_plugins t d).

(** A rule that still names the plugin refuses it: [ON DELETE NO ACTION]. *)
Definition delete_from_plugins (P : Db → PluginEntry → Prop) `{∀ d r, Decision (P d r)}
    : statement nat := λ d,
  let gone := filter (P d) (rows (plugins d)) in
  let lost := pl_row <$> gone in
  if existsb (λ r, bool_decide (ru_plugin r ∈ lost)) (rows (plugin_rules d))
  then Err ForeignKeyViolation
  else Ok (length gone,
      with_plugin_owners (filter (λ o, stays lost (Some (ow_plugin o))) (plugin_owners d))
      (with_plugins (keep (λ r, ¬ P d r) (plugins d)) d)).

(** [ON CONFLICT DO NOTHING]. *)
Definition insert_owner_once (plugin : Z) (tenant : option Z) (created_at : Z)
    : statement unit := λ d,
  if taken owner_key (or_zero tenant, plugin) (plugin_owners d) then Ok (tt, d)
  else if refers (plugins d) (Some plugin) && refers (tenants d) tenant
  then Ok (tt, with_plugin_owners (plugin_owners d ++ [MkOwnerEntry plugin tenant created_at]) d)
  else Err ForeignKeyViolation.

Definition delete_from_plugin_owners (P : OwnerEntry → Prop) `{∀ r, Decision (P r)}
    : statement nat := λ d,
  Ok (length (filter P (plugin_owners d)),
      with_plugin_owners (filter (λ o, ¬ P o) (plugin_owners d)) d).

Definition insert_into_plugin_rules (plugin : Z) (tenant user : option Z) (api : option str)
    (kind : str) (position created_at : Z) : statement unit := λ d,
  if negb (rule_checks (MkRuleEntry 0 plugin tenant user api kind position created_at))
  then Err OtherFailure
  else if taken rule_key_of (or_zero tenant, kind, position) (rows (plugin_rules d))
  then Err UniqueViolation
  else if refers (plugins d) (Some plugin) && refers (tenants d) tenant && refers (users d) user
  then '(_, t) ← append (λ i, MkRuleEntry i plugin tenant user api kind position created_at)
         (plugin_rules d);
       Ok (tt, moved (moves 1) (with_plugin_rules t d))
  else Err ForeignKeyViolation.

Definition delete_from_plugin_rules (P : RuleEntry → Prop) `{∀ r, Decision (P r)}
    : statement nat := λ d,
  let gone := filter P (rows (plugin_rules d)) in
  Ok (length gone,
      moved (moves (length gone)) (with_plugin_rules (keep (λ r, ¬ P r) (plugin_rules d)) d)).

(** [ON CONFLICT (scope, counted, period) DO UPDATE SET allowance = excluded.allowance]. *)
Definition reallowed (k : Z * Z * str * str * str) (allowance : Z) (l : LimitEntry) : LimitEntry :=
  if decide (limit_key l = k)
  then MkLimitEntry (li_row l) (li_tenant l) (li_user l) (li_api l) (li_counted l) (li_period l)
    allowance (li_at l)
  else l.
Definition upsert_limit (tenant : Z) (user : option Z) (api : option str) (counted period : str)
    (allowance created_at : Z) : statement unit := λ d,
  let k := (tenant, or_zero user, or_empty api, counted, period) in
  if negb (0 <? allowance) then Err OtherFailure
  else if taken limit_key k (rows (limits d))
  then Ok (tt, moved upsert_moves (with_limits (update (reallowed k allowance) (limits d)) d))
  else if refers (tenants d) (Some tenant) && refers (users d) user
  then '(_, t) ← append
         (λ i, MkLimitEntry i tenant user api counted period allowance created_at) (limits d);
       Ok (tt, moved upsert_moves (with_limits t d))
  else Err ForeignKeyViolation.

Definition delete_from_limits (P : LimitEntry → Prop) `{∀ r, Decision (P r)} : statement nat := λ d,
  let gone := filter P (rows (limits d)) in
  Ok (length gone, moved (moves (length gone)) (with_limits (keep (λ l, ¬ P l) (limits d)) d)).

(** [AUTOINCREMENT]: one past the largest ever issued, in either database. *)
Definition insert_into_usage (mk : Z → UsageEntry) : statement UsageEntry := λ d,
  if issued (usage d) <? i64_max
  then let i := issued (usage d) + 1 in
       Ok (mk i, with_usage (MkTable (rows (usage d) ++ [mk i]) i) d)
  else Err OtherFailure.

Definition delete_from_usage (P : UsageEntry → Prop) `{∀ r, Decision (P r)} : statement nat := λ d,
  Ok (length (filter P (rows (usage d))), with_usage (keep (λ u, ¬ P u) (usage d)) d).
End statements.
