(* ===== verification/Integrity.v ===== *)
(** * Integrity: what every database the stores write keeps

    [sound] gathers what the schema promises: row ids that name one row, unique indexes,
    foreign keys that name rows that are there, and the checks.  Every write statement keeps
    it, cascades included. *)
From S2P Require Import Prelude Text Ident Key Capability LimitCore PluginCore Account Sql Schema.

(** ** The invariant *)

(** Row ids are positive, name one row each, and were all issued. *)
Record table_ok {R} `{!Row R} (t : table R) : Prop := MkTableOk {
  ids_once : NoDup (ids t);
  ids_issued : Forall (λ i, 0 < i ≤ issued t) (ids t);
  issued_nonneg : 0 ≤ issued t
}.

(** A reference names a row that is there. *)
Definition named {R} `{!Row R} (t : table R) (reference : option Z) : Prop :=
  match reference with Some i => i ∈ ids t | None => True end.

Record sound (d : Db) : Prop := MkSound {
  ok_tenants : table_ok (tenants d);
  ok_users : table_ok (users d);
  ok_grants : table_ok (grants d);
  ok_routes : table_ok (routes d);
  ok_targets : table_ok (route_targets d);
  ok_plugins : table_ok (plugins d);
  ok_rules : table_ok (plugin_rules d);
  ok_limits : table_ok (limits d);
  ok_usage : table_ok (usage d);
  key_tenants : NoDup (tn_id <$> rows (tenants d));
  key_users : NoDup (us_id <$> rows (users d));
  key_members : NoDup (member_key <$> memberships d);
  key_grants : NoDup (grant_key <$> rows (grants d));
  key_routes : NoDup (route_key <$> rows (routes d));
  key_targets : NoDup (target_key <$> rows (route_targets d));
  key_plugins : NoDup (pl_checksum <$> rows (plugins d));
  key_owners : NoDup (owner_key <$> plugin_owners d);
  key_rules : NoDup (rule_key_of <$> rows (plugin_rules d));
  key_limits : NoDup (limit_key <$> rows (limits d));
  ref_member_tenant : Forall (λ m, named (tenants d) (Some (mb_tenant m))) (memberships d);
  ref_member_user : Forall (λ m, named (users d) (Some (mb_user m))) (memberships d);
  ref_grant_user : Forall (λ g, named (users d) (Some (gt_user g))) (rows (grants d));
  ref_grant_tenant : Forall (λ g, named (tenants d) (gt_tenant g)) (rows (grants d));
  ref_target : Forall (λ t, named (routes d) (Some (tg_route t))) (rows (route_targets d));
  ref_owner_plugin : Forall (λ o, named (plugins d) (Some (ow_plugin o))) (plugin_owners d);
  ref_owner_tenant : Forall (λ o, named (tenants d) (ow_tenant o)) (plugin_owners d);
  ref_rule_plugin : Forall (λ r, named (plugins d) (Some (ru_plugin r))) (rows (plugin_rules d));
  ref_rule_tenant : Forall (λ r, named (tenants d) (ru_tenant r)) (rows (plugin_rules d));
  ref_rule_user : Forall (λ r, named (users d) (ru_user r)) (rows (plugin_rules d));
  ref_limit_tenant : Forall (λ l, named (tenants d) (Some (li_tenant l))) (rows (limits d));
  ref_limit_user : Forall (λ l, named (users d) (li_user l)) (rows (limits d));
  api_grants : Forall (λ g, gt_api g ≠ Some []) (rows (grants d));
  api_limits : Forall (λ l, li_api l ≠ Some []) (rows (limits d));
  check_targets : Forall (λ t, 0 ≤ tg_weight t) (rows (route_targets d));
  check_rules : Forall (λ r, rule_checks r = true) (rows (plugin_rules d));
  check_limits : Forall (λ l, limit_checks l = true) (rows (limits d));
  revision_nonneg : 0 ≤ revision d
}.

Create HintDb integrity discriminated.

(** ** Lemmas on tables *)
Section tables.
Context `{Engine} {R : Type} `{!Row R}.
Implicit Types t : table R.

Lemma append_ok (mk : Z → R) t r t' :
  (∀ i, row_id (mk i) = i) → table_ok t → append mk t = Ok (r, t') →
  table_ok t' ∧ rows t' = rows t ++ [r] ∧ 0 < row_id r ∧ (row_id r ∉ ids t) ∧ r = mk (row_id r).
Proof.
  intros Hmk [Hn Hf Hp]. unfold append.
  destruct (next_row_id _ _) as [i|] eqn:E; [|done]. intros [= <- <-].
  apply next_row_id_fresh in E as [Hi Hnew]; [|done|].
  2:{ eapply Forall_impl; [exact Hf|]. cbn. lia. }
  cbn [rows]. rewrite !Hmk. split; [|by auto].
  assert (ids (MkTable (rows t ++ [mk i]) (Z.max (issued t) i)) = ids t ++ [i]) as E.
  { unfold ids. cbn [rows]. rewrite fmap_app. cbn. by rewrite Hmk. }
  split; rewrite ?E; cbn [issued].
  - apply NoDup_app. split; [done|]. split; [|apply NoDup_singleton].
    set_solver.
  - apply Forall_app. split.
    + eapply Forall_impl; [exact Hf|]. cbn. lia.
    + constructor; [lia|constructor].
  - lia.
Qed.

Lemma keep_sublist (P : R → Prop) `{∀ r, Decision (P r)} t : sublist (ids (keep P t)) (ids t).
Proof. apply fmap_sublist, sublist_filter. Qed.

Lemma keep_ok (P : R → Prop) `{∀ r, Decision (P r)} t : table_ok t → table_ok (keep P t).
Proof.
  intros [Hn Hf Hp]. pose proof (keep_sublist P t) as Hs. split; [|..|done].
  - by eapply sublist_NoDup.
  - apply Forall_forall. intros i Hi. rewrite Forall_forall in Hf. apply Hf. by eapply elem_of_sublist.
Qed.

Lemma update_ids (f : R → R) t : (∀ r, row_id (f r) = row_id r) → ids (update f t) = ids t.
Proof.
  intros Hf. unfold ids, update. cbn. rewrite <-list_fmap_compose.
  apply list_fmap_ext. intros. apply Hf.
Qed.

Lemma update_ok (f : R → R) t : (∀ r, row_id (f r) = row_id r) → table_ok t → table_ok (update f t).
Proof.
  intros Hf [Hn Hi Hp]. pose proof (update_ids f t Hf) as E. split; rewrite ?E; done.
Qed.

Lemma named_append t t' r o : rows t' = rows t ++ [r] → named t o → named t' o.
Proof.
  intros E. destruct o as [i|]; [|done]. cbn. unfold ids. rewrite E, fmap_app. set_solver.
Qed.

Lemma named_refers t o : refers t o = true ↔ named t o.
Proof. destruct o as [i|]; cbn; [apply bool_decide_eq_true|done]. Qed.

(** What a cascade leaves behind refers to nothing that went. *)
Lemma named_stays (P : R → Prop) `{∀ r, Decision (P r)} t o :
  named t o → stays (row_id <$> filter P (rows t)) o → named (keep (λ r, ¬ P r) t) o.
Proof.
  destruct o as [i|]; [|done]. cbn. unfold ids. cbn [rows keep].
  intros (r & -> & Hr)%list_elem_of_fmap Hs. apply list_elem_of_fmap.
  exists r. split; [done|]. apply list_elem_of_filter. split; [|done]. intros HP.
  apply Hs, list_elem_of_fmap. exists r. split; [done|]. by apply list_elem_of_filter.
Qed.
End tables.

Section lists.
Context {R K : Type} (key : R → K).

Lemma NoDup_filter_key (P : R → Prop) `{∀ r, Decision (P r)} l :
  NoDup (key <$> l) → NoDup (key <$> filter P l).
Proof using. intros Hn. eapply sublist_NoDup; [exact Hn|]. apply fmap_sublist, sublist_filter. Qed.

Lemma taken_false `{EqDecision K} k l : taken key k l = false → k ∉ key <$> l.
Proof using. apply bool_decide_eq_false. Qed.

Lemma NoDup_snoc_key l r :
  NoDup (key <$> l) → key r ∉ key <$> l → NoDup (key <$> (l ++ [r])).
Proof using.
  intros Hn Ht. rewrite fmap_app. apply NoDup_app.
  split; [done|]. split; [|apply NoDup_singleton]. set_solver.
Qed.

Lemma NoDup_update_key (f : R → R) l :
  (∀ r, key (f r) = key r) → NoDup (key <$> l) → NoDup (key <$> (f <$> l)).
Proof using.
  intros Hf. rewrite <-list_fmap_compose.
  assert (key ∘ f <$> l = key <$> l) as ->; [|done]. apply list_fmap_ext. intros. apply Hf.
Qed.

Lemma Forall_filter_both (P Q Q' : R → Prop) `{∀ r, Decision (P r)} l :
  Forall Q l → (∀ r, Q r → P r → Q' r) → Forall Q' (filter P l).
Proof using.
  intros Hl Hq. apply Forall_forall. intros r [Hp Hr]%list_elem_of_filter.
  apply Hq; [|done]. by eapply Forall_forall.
Qed.

Lemma Forall_snoc (Q : R → Prop) l r : Forall Q l → Q r → Forall Q (l ++ [r]).
Proof using. intros. apply Forall_app. split; [done|]. by repeat constructor. Qed.

Lemma Forall_update (f : R → R) (Q : R → Prop) l :
  (∀ r, Q r → Q (f r)) → Forall Q l → Forall Q (f <$> l).
Proof using. intros Hf Hl. apply Forall_fmap. eapply Forall_impl; [exact Hl|]. done. Qed.

Lemma Forall_filter_keep (P Q : R → Prop) `{∀ r, Decision (P r)} l : Forall Q l → Forall Q (filter P l).
Proof using. intros Hl. by eapply Forall_filter_both. Qed.
End lists.

#[export] Hint Resolve keep_ok NoDup_filter_key Forall_filter_keep : integrity.

(** ** Every write keeps the invariant *)

(** The tables of a database that was written to. *)
Ltac fields :=
  cbn [tenants users memberships grants routes route_targets plugins plugin_owners plugin_rules
       limits usage revision with_tenants with_users with_memberships with_grants with_routes
       with_route_targets with_plugins with_plugin_owners with_plugin_rules with_limits
       with_usage moved keep rows issued].

(** Takes a sound database apart and rebuilds it, table by table. *)
Ltac rebuild :=
  match goal with H : sound ?d |- sound _ => destruct H end;
  constructor;
  fields;
  try assumption; auto with integrity.

Section writes.
Context `{Engine}.

(** The statement keeps the invariant. *)
Definition keeps {X} (s : statement X) : Prop :=
  ∀ d x d', sound d → s d = Ok (x, d') → sound d'.

Lemma cascade_moves_nonneg {R S} (gone : list R) (before after : list S) :
  0 ≤ cascade_moves gone before after.
Proof. destruct gone; [done|]. apply moves_nonneg. Qed.

Lemma Forall_stays {R S} `{!Row R} (P : R → Prop) `{∀ r, Decision (P r)} (t : table R)
    (f : S → option Z) (l : list S) :
  Forall (λ s, named t (f s)) l →
  Forall (λ s, named (keep (λ r, ¬ P r) t) (f s))
    (filter (λ s, stays (row_id <$> filter P (rows t)) (f s)) l).
Proof.
  intros Hl. eapply Forall_filter_both; [exact Hl|]. intros s. apply named_stays.
Qed.

Lemma Forall_named_append {R S} `{!Row R} (t t' : table R) r (f : S → option Z) (l : list S) :
  rows t' = rows t ++ [r] → Forall (λ s, named t (f s)) l → Forall (λ s, named t' (f s)) l.
Proof. intros E Hl. eapply Forall_impl; [exact Hl|]. intros s. by eapply named_append. Qed.

(** The three ways a statement refuses a row are out of the way. *)
Ltac accepted :=
  repeat match goal with
  | H : (if negb ?b then _ else _) = Ok _ |- _ =>
      destruct b eqn:?; cbn [negb] in H; [|discriminate H]
  | H : (if taken ?k ?x ?l then Err _ else _) = Ok _ |- _ =>
      destruct (taken k x l) eqn:Htaken; [discriminate H|]; apply taken_false in Htaken
  | H : (if refers ?t ?o && _ then _ else _) = Ok _ |- _ =>
      destruct (refers t o) eqn:?; cbn [andb] in H; [|discriminate H]
  | H : (if refers ?t ?o then _ else _) = Ok _ |- _ =>
      destruct (refers t o) eqn:?; [|discriminate H]
  end;
  rewrite ?andb_true_iff in *; rewrite ?named_refers in *.

Lemma keeps_insert_tenant id key at_ : keeps (insert_into_tenants id key at_).
Proof.
  intros d x d' Hd Hs. unfold insert_into_tenants in Hs. accepted.
  apply bind_ok in Hs as ([r t] & Ha & [= <- <-]).
  apply append_ok in Ha as (Hok & Hrows & _ & _ & Hr); [|done|apply Hd].
  pose proof (λ S (f : S → option Z) l, Forall_named_append (tenants d) t r f l Hrows) as Hn.
  rebuild.
  rewrite Hrows, Hr. by apply NoDup_snoc_key.
Qed.

Lemma keeps_delete_tenants (P : TenantEntry → Prop) `{∀ r, Decision (P r)} :
  keeps (delete_from_tenants P).
Proof.
  intros d x d' Hd [= _ <-].
  pose proof (λ S (f : S → option Z) l, Forall_stays P (tenants d) f l) as Hs.
  pose proof (λ S (l k : list S), cascade_moves_nonneg (filter P (rows (tenants d))) l k) as Hm.
  rebuild.
  by repeat apply Z.add_nonneg_nonneg.
Qed.

Lemma keeps_insert_user id passphrase kind at_ : keeps (insert_into_users id passphrase kind at_).
Proof.
  intros d x d' Hd Hs. unfold insert_into_users in Hs. accepted.
  apply bind_ok in Hs as ([r t] & Ha & [= <- <-]).
  apply append_ok in Ha as (Hok & Hrows & _ & _ & Hr); [|done|apply Hd].
  pose proof (λ S (f : S → option Z) l, Forall_named_append (users d) t r f l Hrows) as Hn.
  rebuild.
  rewrite Hrows, Hr. by apply NoDup_snoc_key.
Qed.

Lemma keeps_delete_users (P : UserEntry → Prop) `{∀ r, Decision (P r)} :
  keeps (delete_from_users P).
Proof.
  intros d x d' Hd [= _ <-].
  pose proof (λ S (f : S → option Z) l, Forall_stays P (users d) f l) as Hs.
  pose proof (λ S (l k : list S), cascade_moves_nonneg (filter P (rows (users d))) l k) as Hm.
  rebuild.
  by repeat apply Z.add_nonneg_nonneg.
Qed.

Lemma named_ids {R} `{!Row R} (t t' : table R) o : ids t' = ids t → named t o → named t' o.
Proof. destruct o; cbn; [|done]. by intros ->. Qed.

Lemma Forall_named_ids {R S} `{!Row R} (t t' : table R) (f : S → option Z) (l : list S) :
  ids t' = ids t → Forall (λ s, named t (f s)) l → Forall (λ s, named t' (f s)) l.
Proof. intros E Hl. eapply Forall_impl; [exact Hl|]. intros s. by apply named_ids. Qed.

Lemma keeps_update_passphrases (P : UserEntry → Prop) `{∀ r, Decision (P r)} passphrase :
  keeps (update_passphrases P passphrase).
Proof.
  intros d x d' Hd [= _ <-]. set (f := repassed P passphrase).
  assert (∀ r, row_id (f r) = row_id r) as Hf by (intros r; unfold f, repassed, restood, rerouted, reallowed; by case_decide).
  assert (∀ r, us_id (f r) = us_id r) as Hk by (intros r; unfold f, repassed, restood, rerouted, reallowed; by case_decide).
  pose proof (update_ids f (users d) Hf) as E.
  pose proof (λ S (g : S → option Z) l, Forall_named_ids (users d) (update f (users d)) g l E) as Hn.
  rebuild.
  - by apply update_ok.
  - by apply NoDup_update_key.
Qed.

Lemma keeps_upsert_membership tenant user standing at_ :
  keeps (upsert_membership tenant user standing at_).
Proof.
  intros d x d' Hd Hs. unfold upsert_membership in Hs. destruct (taken _ _ _) eqn:Ht.
  - injection Hs as _ <-. set (f := restood tenant user standing).
    assert (∀ m, member_key (f m) = member_key m) as Hk by (intros m; unfold f, repassed, restood, rerouted, reallowed; by case_decide).
    assert (∀ m, mb_tenant (f m) = mb_tenant m ∧ mb_user (f m) = mb_user m) as Hf.
    { intros m. specialize (Hk m). unfold member_key in Hk. naive_solver. }
    clearbody f. rebuild.
    + by apply NoDup_update_key.
    + apply Forall_update; [|done]. intros m. by rewrite (proj1 (Hf m)).
    + apply Forall_update; [|done]. intros m. by rewrite (proj2 (Hf m)).
  - apply taken_false in Ht. accepted. injection Hs as _ <-. rebuild.
    + by apply NoDup_snoc_key.
    + by apply Forall_snoc.
    + by apply Forall_snoc.
Qed.

Lemma keeps_delete_memberships (P : MemberEntry → Prop) `{∀ r, Decision (P r)} :
  keeps (delete_from_memberships P).
Proof. intros d x d' Hd [= _ <-]. rebuild. Qed.

Lemma keeps_insert_grant user tenant api capability at_ :
  api ≠ Some [] → keeps (insert_into_grants user tenant api capability at_).
Proof.
  intros Hapi d x d' Hd Hs. unfold insert_into_grants in Hs. accepted.
  apply bind_ok in Hs as ([r t] & Ha & [= <- <-]).
  apply append_ok in Ha as (Hok & Hrows & _ & _ & Hr); [|done|apply Hd].
  rebuild; rewrite Hrows, Hr; [by apply NoDup_snoc_key|by apply Forall_snoc..].
Qed.

Lemma keeps_delete_grants (P : GrantEntry → Prop) `{∀ r, Decision (P r)} :
  keeps (delete_from_grants P).
Proof. intros d x d' Hd [= _ <-]. rebuild. Qed.

Lemma moves_on n m : 0 ≤ n → 0 ≤ n + moves m.
Proof. pose proof (moves_nonneg m). lia. Qed.
Lemma upsert_moves_on n : 0 ≤ n → 0 ≤ n + upsert_moves.
Proof. pose proof upsert_moves_some. lia. Qed.
#[local] Hint Resolve moves_on upsert_moves_on : integrity.

Lemma find_key {R K} `{EqDecision K} (key : R → K) k (l : list R) :
  List.find (λ r, bool_decide (key r = k)) l = None → k ∉ key <$> l.
Proof.
  intros Hf (r & -> & Hr)%list_elem_of_fmap. apply list_elem_of_In in Hr.
  apply (List.find_none _ _ Hf) in Hr. by rewrite bool_decide_eq_false in Hr.
Qed.

Lemma keeps_upsert_route api protocol host port path strategy at_ :
  keeps (upsert_route api protocol host port path strategy at_).
Proof.
  intros d x d' Hd Hs. unfold upsert_route in Hs.
  destruct (List.find _ _) as [held|] eqn:Hf.
  - injection Hs as _ <-. set (f := rerouted _ api strategy).
    assert (∀ r, row_id (f r) = row_id r) as Hi by (intros r; unfold f, repassed, restood, rerouted, reallowed; by case_decide).
    assert (∀ r, route_key (f r) = route_key r) as Hk by (intros r; unfold f, repassed, restood, rerouted, reallowed; by case_decide).
    pose proof (update_ids f (routes d) Hi) as E.
    pose proof (λ S (g : S → option Z) l, Forall_named_ids (routes d) (update f (routes d)) g l E) as Hn.
    rebuild.
    + by apply update_ok.
    + by apply NoDup_update_key.
  - apply bind_ok in Hs as ([r t] & Ha & [= <- <-]). apply find_key in Hf.
    apply append_ok in Ha as (Hok & Hrows & _ & _ & Hr); [|done|apply Hd].
    pose proof (λ S (g : S → option Z) l, Forall_named_append (routes d) t r g l Hrows) as Hn.
    rebuild.
    rewrite Hrows, Hr. by apply NoDup_snoc_key.
Qed.

Lemma keeps_delete_routes (P : RouteEntry → Prop) `{∀ r, Decision (P r)} :
  keeps (delete_from_routes P).
Proof.
  intros d x d' Hd [= _ <-].
  pose proof (λ S (f : S → option Z) l, Forall_stays P (routes d) f l) as Hs.
  pose proof (λ S (l k : list S), cascade_moves_nonneg (filter P (rows (routes d))) l k) as Hm.
  pose proof moves_nonneg. rebuild.
  by repeat apply Z.add_nonneg_nonneg.
Qed.

Lemma keeps_insert_target route position protocol host port path weight :
  keeps (insert_into_route_targets route position protocol host port path weight).
Proof.
  intros d x d' Hd Hs. unfold insert_into_route_targets in Hs. accepted.
  apply bind_ok in Hs as ([r t] & Ha & [= <- <-]).
  apply append_ok in Ha as (Hok & Hrows & _ & _ & Hr); [|done|apply Hd].
  rebuild; rewrite Hrows, Hr.
  - by apply NoDup_snoc_key.
  - by apply Forall_snoc.
  - apply Forall_snoc; [done|]. cbn. lia.
Qed.

Lemma keeps_delete_targets (P : TargetEntry → Prop) `{∀ r, Decision (P r)} :
  keeps (delete_from_route_targets P).
Proof. intros d x d' Hd [= _ <-]. rebuild. Qed.

Lemma keeps_insert_plugin checksum kind wasm at_ : keeps (insert_plugin_once checksum kind wasm at_).
Proof.
  intros d x d' Hd Hs. unfold insert_plugin_once in Hs.
  destruct (taken _ _ _) eqn:Ht; [by injection Hs as _ <-|]. apply taken_false in Ht.
  apply bind_ok in Hs as ([r t] & Ha & [= <- <-]).
  apply append_ok in Ha as (Hok & Hrows & _ & _ & Hr); [|done|apply Hd].
  pose proof (λ S (f : S → option Z) l, Forall_named_append (plugins d) t r f l Hrows) as Hn.
  rebuild.
  rewrite Hrows, Hr. by apply NoDup_snoc_key.
Qed.

Lemma keeps_delete_plugins (P : Db → PluginEntry → Prop) `{∀ d r, Decision (P d r)} :
  keeps (delete_from_plugins P).
Proof.
  intros d x d' Hd Hs. unfold delete_from_plugins in Hs.
  destruct (existsb _ _) eqn:Hu; [done|]. injection Hs as _ <-.
  pose proof (λ S (f : S → option Z) l, Forall_stays (P d) (plugins d) f l) as Hs.
  rebuild.
  apply Forall_forall. intros r Hr. apply named_stays.
  - by eapply (Forall_forall (λ r, named (plugins d) (Some (ru_plugin r)))).
  - intros Hin. apply not_true_iff_false in Hu. apply Hu, existsb_exists.
    exists r. split; [by apply list_elem_of_In|]. by apply bool_decide_eq_true.
Qed.

Lemma keeps_insert_owner plugin tenant at_ : keeps (insert_owner_once plugin tenant at_).
Proof.
  intros d x d' Hd Hs. unfold insert_owner_once in Hs.
  destruct (taken _ _ _) eqn:Ht; [by injection Hs as _ <-|]. apply taken_false in Ht. accepted.
  injection Hs as _ <-. rebuild.
  - by apply NoDup_snoc_key.
  - by apply Forall_snoc.
  - by apply Forall_snoc.
Qed.

Lemma keeps_delete_owners (P : OwnerEntry → Prop) `{∀ r, Decision (P r)} :
  keeps (delete_from_plugin_owners P).
Proof. intros d x d' Hd [= _ <-]. rebuild. Qed.

Lemma keeps_insert_rule plugin tenant user api kind position at_ :
  keeps (insert_into_plugin_rules plugin tenant user api kind position at_).
Proof.
  intros d x d' Hd Hs. unfold insert_into_plugin_rules in Hs. accepted.
  destruct (refers (plugins d) _ && _ && _) eqn:Href; [|done].
  rewrite !andb_true_iff, !named_refers in Href. destruct Href as [[? ?] ?].
  apply bind_ok in Hs as ([r t] & Ha & [= <- <-]).
  apply append_ok in Ha as (Hok & Hrows & _ & _ & Hr); [|done|apply Hd].
  rebuild; rewrite Hrows, Hr; [by apply NoDup_snoc_key|by apply Forall_snoc..].
Qed.

Lemma keeps_delete_rules (P : RuleEntry → Prop) `{∀ r, Decision (P r)} :
  keeps (delete_from_plugin_rules P).
Proof. intros d x d' Hd [= _ <-]. rebuild. Qed.

Lemma keeps_upsert_limit tenant user api counted period allowance at_ :
  api ≠ Some [] → keeps (upsert_limit tenant user api counted period allowance at_).
Proof.
  intros Hapi d x d' Hd Hs. unfold upsert_limit in Hs. accepted.
  destruct (taken _ _ _) eqn:Ht.
  - injection Hs as _ <-. set (f := reallowed _ allowance).
    assert (∀ l, limit_key (f l) = limit_key l) as Hk by (intros l; unfold f, repassed, restood, rerouted, reallowed; by case_decide).
    rebuild.
    1: apply update_ok; [|done]; intros l; unfold f, reallowed; by case_decide.
    1: by apply NoDup_update_key.
    all: apply Forall_update; [|done]; intros l; unfold f, reallowed; by case_decide.
  - apply taken_false in Ht. accepted. apply bind_ok in Hs as ([r t] & Ha & [= <- <-]).
    apply append_ok in Ha as (Hok & Hrows & _ & _ & Hr); [|done|apply Hd].
    rebuild; rewrite Hrows, Hr; [by apply NoDup_snoc_key|by apply Forall_snoc..].
Qed.

Lemma keeps_delete_limits (P : LimitEntry → Prop) `{∀ r, Decision (P r)} :
  keeps (delete_from_limits P).
Proof. intros d x d' Hd [= _ <-]. rebuild. Qed.

Lemma keeps_insert_usage (mk : Z → UsageEntry) :
  (∀ i, ug_row (mk i) = i) → keeps (insert_into_usage mk).
Proof.
  intros Hmk d x d' Hd Hs. unfold insert_into_usage in Hs. case_if; [|done].
  injection Hs as _ <-. pose proof (ok_usage d Hd) as [Hn Hf Hp].
  assert (∀ n, ids (MkTable (rows (usage d) ++ [mk (issued (usage d) + 1)]) n)
    = ids (usage d) ++ [issued (usage d) + 1]) as E.
  { intros n. unfold ids. cbn [rows]. rewrite fmap_app. cbn. unfold row_id. cbv [UsageEntry_row].
    by rewrite Hmk. }
  assert (Forall (λ i, i ≤ issued (usage d)) (ids (usage d))) as Hle.
  { eapply Forall_impl; [exact Hf|]. cbn. lia. }
  rebuild. split; rewrite ?E; cbn [issued].
  - apply NoDup_app. split; [done|]. split; [|apply NoDup_singleton].
    intros i Hi ->%list_elem_of_singleton. rewrite Forall_forall in Hle. apply Hle in Hi. lia.
  - apply Forall_snoc; [|lia]. eapply Forall_impl; [exact Hf|]. cbn. lia.
  - lia.
Qed.

Lemma keeps_delete_usage (P : UsageEntry → Prop) `{∀ r, Decision (P r)} :
  keeps (delete_from_usage P).
Proof. intros d x d' Hd [= _ <-]. rebuild. Qed.
End writes.

(** ** Programs that keep the invariant *)

Definition intact (d d' : Db) : Prop := sound d → sound d'.
#[export] Instance intact_preorder : PreOrder intact.
Proof. split; unfold intact; [intros d; tauto|intros d e f; tauto]. Qed.

(** Every statement of the program keeps the invariant, wherever it is interrupted. *)
Definition safe {A} (p : sql Db A) : Prop := obeys intact p.

Section safe.
Context `{Engine}.

Lemma safe_ask_or {X} h (s : statement X) : keeps s → safe (ask_or h s).
Proof. intros Hs. apply obeys_ask_or. intros d x d' E Hd. by eapply Hs. Qed.

Lemma safe_ask {X} (s : statement X) : keeps s → safe (ask s).
Proof. apply safe_ask_or. Qed.

(** A statement whose condition reads the database it is sent to. *)
Lemma keeps_at {X} (s : Db → statement X) : (∀ d, keeps (s d)) → keeps (λ d, s d d).
Proof. intros Hs d x d' Hd. by apply Hs. Qed.

Lemma safe_bind {A B} (p : sql Db A) (f : A → sql Db B) :
  safe p → (∀ a, safe (f a)) → safe (p ≫= f).
Proof. apply obeys_bind. Qed.

Lemma safe_select {X} (f : Db → X) : safe (select f).
Proof. apply obeys_select, _. Qed.

Lemma safe_pure {A} (r : result StorageError A) : safe (pure r).
Proof. done. Qed.

Lemma safe_atomically {A} (p : sql Db A) : safe p → safe (atomically p).
Proof. apply obeys_atom. Qed.

Lemma safe_exec {A} (p : sql Db A) d : safe p → sound d → sound (exec p d).2.
Proof. intros Hp. exact (runs_obeys intact p d _ _ Hp (runs_exec p d)). Qed.
End safe.

(** The lemma of a write statement. *)
Ltac keeps_write :=
  first [ apply keeps_insert_tenant | apply keeps_delete_tenants | apply keeps_insert_user
        | apply keeps_delete_users | apply keeps_update_passphrases
        | apply keeps_upsert_membership | apply keeps_delete_memberships
        | apply keeps_insert_grant | apply keeps_delete_grants | apply keeps_upsert_route
        | apply keeps_delete_routes | apply keeps_insert_target | apply keeps_delete_targets
        | apply keeps_insert_plugin | apply keeps_delete_plugins | apply keeps_insert_owner
        | apply keeps_delete_owners | apply keeps_insert_rule | apply keeps_delete_rules
        | apply keeps_upsert_limit | apply keeps_delete_limits | apply keeps_insert_usage
        | apply keeps_delete_usage
        | lazymatch goal with |- keeps (λ d, @?f d d) => apply (keeps_at f); intros ? end ].

(** Follows a program to its statements, and closes those with [integrity]. *)
Ltac prove_safe :=
  cbv beta zeta;
  lazymatch goal with
  | |- safe (pure _) => apply safe_pure
  | |- safe (select _) => apply safe_select
  | |- safe (atomically _) => apply safe_atomically; prove_safe
  | |- safe (_ ≫= _) => apply safe_bind; [prove_safe|intros ?; prove_safe]
  | |- safe (ask _) => apply safe_ask; prove_safe
  | |- safe (ask_or _ _) => apply safe_ask_or; prove_safe
  | |- safe (let '(_, _) := ?x in _) => destruct x; prove_safe
  | |- safe (match ?o with Some _ => _ | None => _ end) => destruct o; prove_safe
  | |- safe (if ?b then _ else _) => destruct b; prove_safe
  | |- keeps _ => first [keeps_write; prove_safe|idtac]
  | |- _ => auto with integrity
  end.
