(* ===== verification/Named.v ===== *)
(** * Named: the database without its surrogate keys

    The specification the schema is judged by: each table with the rows it refers to named by
    what identifies them (a tenant and a user by their id, a plugin by its checksum, a route by
    its endpoint) instead of by row id.  [named_of] joins a database into it the way the
    queries do.  On a sound database every write statement acts on the named tables as the
    plain operation its text reads as: deleting a tenant filters by the tenant's name. *)
From S2P Require Import Prelude Text Ident Key Capability LimitCore PluginCore Account Sql Schema.
From S2P Require Import Integrity.

Record NamedTenant : Type := MkNamedTenant { nt_id : str; nt_key : list Z; nt_at : Z }.
Record NamedUser : Type := MkNamedUser {
  nu_id : str; nu_passphrase : str; nu_kind : str; nu_at : Z
}.
Record NamedMember : Type := MkNamedMember {
  nm_tenant : str; nm_user : str; nm_standing : str; nm_at : Z
}.
Record NamedGrant : Type := MkNamedGrant {
  ng_user : str; ng_tenant : option str; ng_api : option str; ng_capability : str; ng_at : Z
}.
Record NamedTarget : Type := MkNamedTarget {
  ne_position : Z; ne_protocol : str; ne_host : str; ne_port : Z; ne_path : str; ne_weight : Z
}.
Record NamedRoute : Type := MkNamedRoute {
  nr_api : str; nr_protocol : str; nr_host : str; nr_port : Z; nr_path : str; nr_strategy : str;
  nr_at : Z; nr_targets : list NamedTarget
}.
Record NamedPlugin : Type := MkNamedPlugin {
  np_checksum : str; np_kind : str; np_wasm : list Z; np_at : Z
}.
Record NamedOwner : Type := MkNamedOwner { no_plugin : str; no_tenant : option str; no_at : Z }.
Record NamedRule : Type := MkNamedRule {
  nl_plugin : str; nl_tenant : option str; nl_user : option str; nl_api : option str;
  nl_kind : str; nl_position : Z; nl_at : Z
}.
Record NamedLimit : Type := MkNamedLimit {
  nk_tenant : str; nk_user : option str; nk_api : option str; nk_counted : str; nk_period : str;
  nk_allowance : Z; nk_at : Z
}.

Record Named : Type := MkNamed {
  n_tenants : list NamedTenant;
  n_users : list NamedUser;
  n_members : list NamedMember;
  n_grants : list NamedGrant;
  n_routes : list NamedRoute;
  n_plugins : list NamedPlugin;
  n_owners : list NamedOwner;
  n_rules : list NamedRule;
  n_limits : list NamedLimit
}.

(** ** Joins *)

(** The row a row id names, and the one a nullable reference does. *)
Definition row_at {R} `{!Row R} (t : table R) (i : Z) : option R :=
  List.find (λ r, bool_decide (row_id r = i)) (rows t).
Definition left_join {R} `{!Row R} (t : table R) (reference : option Z) : option R :=
  reference ≫= row_at t.

Definition named_tenant (t : TenantEntry) : NamedTenant := MkNamedTenant (tn_id t) (tn_key t) (tn_at t).
Definition named_user (u : UserEntry) : NamedUser :=
  MkNamedUser (us_id u) (us_passphrase u) (us_kind u) (us_at u).
Definition named_plugin (p : PluginEntry) : NamedPlugin :=
  MkNamedPlugin (pl_checksum p) (pl_kind p) (pl_wasm p) (pl_at p).
Definition named_target (t : TargetEntry) : NamedTarget :=
  MkNamedTarget (tg_position t) (tg_protocol t) (tg_host t) (tg_port t) (tg_path t) (tg_weight t).

(** What a reference to a tenant, a user or a plugin is called, if it is to one. *)
Definition tenant_name (ts : table TenantEntry) (o : option Z) : option str := tn_id <$> left_join ts o.
Definition user_name (us : table UserEntry) (o : option Z) : option str := us_id <$> left_join us o.
Definition plugin_name (ps : table PluginEntry) (o : option Z) : option str :=
  pl_checksum <$> left_join ps o.

Section joins.
Context (ts : table TenantEntry) (us : table UserEntry) (ps : table PluginEntry)
  (gs : table TargetEntry).

Definition named_member (m : MemberEntry) : option NamedMember :=
  t ← tenant_name ts (Some (mb_tenant m)); u ← user_name us (Some (mb_user m));
  Some (MkNamedMember t u (mb_standing m) (mb_at m)).

Definition named_grant (g : GrantEntry) : option NamedGrant :=
  u ← user_name us (Some (gt_user g));
  Some (MkNamedGrant u (tenant_name ts (gt_tenant g)) (gt_api g) (gt_capability g) (gt_at g)).

Definition named_route (r : RouteEntry) : NamedRoute :=
  MkNamedRoute (rt_api r) (rt_protocol r) (rt_host r) (rt_port r) (rt_path r) (rt_strategy r)
    (rt_at r) (named_target <$> filter (λ t, tg_route t = rt_row r) (rows gs)).

Definition named_owner (o : OwnerEntry) : option NamedOwner :=
  p ← plugin_name ps (Some (ow_plugin o));
  Some (MkNamedOwner p (tenant_name ts (ow_tenant o)) (ow_at o)).

Definition named_rule (r : RuleEntry) : option NamedRule :=
  p ← plugin_name ps (Some (ru_plugin r));
  Some (MkNamedRule p (tenant_name ts (ru_tenant r)) (user_name us (ru_user r)) (ru_api r)
    (ru_kind r) (ru_position r) (ru_at r)).

Definition named_limit (l : LimitEntry) : option NamedLimit :=
  t ← tenant_name ts (Some (li_tenant l));
  Some (MkNamedLimit t (user_name us (li_user l)) (li_api l) (li_counted l) (li_period l)
    (li_allowance l) (li_at l)).
End joins.

Definition named_of (d : Db) : Named :=
  MkNamed (named_tenant <$> rows (tenants d)) (named_user <$> rows (users d))
    (omap (named_member (tenants d) (users d)) (memberships d))
    (omap (named_grant (tenants d) (users d)) (rows (grants d)))
    (named_route (route_targets d) <$> rows (routes d))
    (named_plugin <$> rows (plugins d))
    (omap (named_owner (tenants d) (plugins d)) (plugin_owners d))
    (omap (named_rule (tenants d) (users d) (plugins d)) (rows (plugin_rules d)))
    (omap (named_limit (tenants d) (users d)) (rows (limits d))).

(** ** Lemmas on joins *)
Section row_at.
Context {R : Type} `{!Row R}.
Implicit Types t : table R.

Lemma row_at_in t i r : row_at t i = Some r → r ∈ rows t ∧ row_id r = i.
Proof. intros [Hr Hi%bool_decide_eq_true]%find_elem_of. done. Qed.

Lemma row_at_unique t r : table_ok t → r ∈ rows t → row_at t (row_id r) = Some r.
Proof.
  intros [Hn _ _]. unfold row_at, ids in *. induction (rows t) as [|r0 l IH]; [set_solver|].
  cbn. apply NoDup_cons in Hn as [Hnew Hn]. intros [->|Hr]%elem_of_cons; case_bool_decide as E; try done.
  - exfalso. apply Hnew. rewrite E. apply list_elem_of_fmap. eauto.
  - by apply IH.
Qed.

Lemma row_at_named t i : named t (Some i) ↔ ∃ r, row_at t i = Some r.
Proof.
  cbn. unfold ids. split.
  - intros (r & -> & Hr)%list_elem_of_fmap. unfold row_at.
    destruct (List.find _ _) as [r'|] eqn:E; [by eauto|].
    apply list_elem_of_In, (List.find_none _ _ E) in Hr. by rewrite bool_decide_eq_false in Hr.
  - intros (r & [Hr <-]%row_at_in). apply list_elem_of_fmap. eauto.
Qed.

Lemma row_at_append t t' r i : rows t' = rows t ++ [r] → named t (Some i) → row_at t' i = row_at t i.
Proof.
  intros E (r0 & Hr0)%row_at_named. rewrite Hr0. unfold row_at in *. rewrite E.
  clear E. induction (rows t) as [|r1 l IH]; [done|]. cbn in *. case_bool_decide; [done|]. by apply IH.
Qed.

Lemma left_join_append t t' r o :
  rows t' = rows t ++ [r] → named t o → left_join t' o = left_join t o.
Proof. destruct o as [i|]; [|done]. cbn. apply row_at_append. Qed.

Lemma row_at_update (f : R → R) t i :
  (∀ r, row_id (f r) = row_id r) → row_at (update f t) i = f <$> row_at t i.
Proof.
  intros Hf. unfold row_at, update. cbn. induction (rows t) as [|r l IH]; [done|]. cbn.
  rewrite Hf. by case_bool_decide.
Qed.

Section keep.
Context (P : R → Prop) `{∀ r, Decision (P r)}.
Abbreviation lost t := (row_id <$> filter P (rows t)).

Lemma lost_row t r : table_ok t → r ∈ rows t → row_id r ∈ lost t ↔ P r.
Proof.
  intros Ht Hr. rewrite list_elem_of_fmap. split.
  - intros (r' & E & [HP Hr']%list_elem_of_filter). apply (row_at_unique t) in Hr, Hr'; [|done..].
    rewrite E, Hr' in Hr. by injection Hr as <-.
  - intros HP. exists r. split; [done|]. by apply list_elem_of_filter.
Qed.

Lemma row_at_keep t i : table_ok t → i ∉ lost t → row_at (keep (λ r, ¬ P r) t) i = row_at t i.
Proof.
  intros Ht Hi. unfold row_at. cbn [rows keep].
  assert (Forall (λ r, row_id r = i → ¬ P r) (rows t)) as Hall.
  { apply Forall_forall. intros r Hr <- HP. by apply Hi, lost_row. }
  clear Hi Ht. induction Hall as [|r l Hr _ IH]; [done|]. rewrite filter_cons.
  case_decide as HP; cbn; case_bool_decide as E; try done. exfalso. by apply (Hr E).
Qed.

Lemma left_join_keep t o :
  table_ok t → stays (lost t) o → left_join (keep (λ r, ¬ P r) t) o = left_join t o.
Proof. intros Ht. destruct o as [i|]; [|done]. cbn. by apply row_at_keep. Qed.

(** A reference stays exactly when the row it joins with does. *)
Lemma stays_join t o :
  table_ok t → named t o → stays (lost t) o ↔ match left_join t o with Some r => ¬ P r | None => True end.
Proof.
  intros Ht. destruct o as [i|]; [|done]. intros (r & Hr)%row_at_named. unfold stays. cbn. rewrite Hr.
  apply row_at_in in Hr as [Hr <-]. by rewrite lost_row.
Qed.
End keep.
End row_at.

(** What a cascade keeps of a joined table is what the join keeps of its names. *)
Lemma omap_filter {A B} (f f' : A → option B) (P : A → Prop) (Q : B → Prop)
    `{∀ a, Decision (P a), ∀ b, Decision (Q b)} (l : list A) :
  (∀ a b, a ∈ l → f a = Some b → P a ↔ Q b) →
  (∀ a, a ∈ l → P a → f' a = f a) →
  omap f' (filter P l) = filter Q (omap f l).
Proof.
  induction l as [|a l IH]; intros HQ Hf; [done|]. rewrite filter_cons. cbn.
  specialize (IH (λ b c Hb, HQ b c (list_elem_of_further _ _ _ Hb))
                 (λ b Hb, Hf b (list_elem_of_further _ _ _ Hb))).
  case_decide as HP; cbn.
  - rewrite Hf, IH by (done || apply list_elem_of_here).
    destruct (f a) as [b|] eqn:E; [|done].
    rewrite filter_cons_True; [done|]. apply (HQ a b); [apply list_elem_of_here|done..].
  - rewrite IH. destruct (f a) as [b|] eqn:E; [|done].
    rewrite filter_cons_False; [done|]. intros HQb. apply HP. by apply (HQ a b); [apply list_elem_of_here|..].
Qed.

Lemma omap_same {A B} (f f' : A → option B) (l : list A) :
  (∀ a, a ∈ l → f' a = f a) → omap f' l = omap f l.
Proof.
  induction l as [|a l IH]; intros Hf; [done|]. cbn. rewrite Hf by apply list_elem_of_here.
  rewrite IH; [done|]. intros b Hb. by apply Hf, list_elem_of_further.
Qed.

(** ** Names that a change to a table leaves as they were *)

Section names.
Context {R N : Type} `{!Row R} (name : R → N).

Lemma name_append `{Engine} (t t' : table R) r o :
  rows t' = rows t ++ [r] → named t o → name <$> left_join t' o = name <$> left_join t o.
Proof. intros E Ho. by rewrite (left_join_append t t' r o E Ho). Qed.

Lemma name_update (f : R → R) (t : table R) o :
  (∀ r, row_id (f r) = row_id r) → (∀ r, name (f r) = name r) →
  name <$> left_join (update f t) o = name <$> left_join t o.
Proof.
  intros Hi Hn. destruct o as [i|]; [|done]. change (name <$> row_at (update f t) i = name <$> row_at t i).
  rewrite row_at_update by done. destruct (row_at t i); [|done]. cbn. by rewrite Hn.
Qed.

Lemma name_Some (t : table R) i : named t (Some i) → ∃ r, left_join t (Some i) = Some r ∧ r ∈ rows t ∧ row_id r = i.
Proof. intros (r & Hr)%row_at_named. exists r. split; [done|]. by apply row_at_in. Qed.

(** A cascade follows the name that goes. *)
Lemma stays_name `{EqDecision N} (n : N) (t : table R) o :
  table_ok t → named t o →
  stays (row_id <$> filter (λ r, name r = n) (rows t)) o ↔ name <$> left_join t o ≠ Some n.
Proof.
  intros Ht Ho. rewrite (stays_join (λ r, name r = n) t o Ht Ho).
  destruct (left_join t o); cbn; naive_solver.
Qed.
End names.

(** Two references in use are one exactly when their names are. *)
Lemma name_inj {R N} `{!Row R} (name : R → N) (t : table R) a b :
  table_ok t → NoDup (name <$> rows t) → named t a → named t b →
  name <$> left_join t a = name <$> left_join t b ↔ a = b.
Proof.
  intros Ht Hn Ha Hb. split; [|by intros ->].
  destruct a as [a|], b as [b|]; [|..|done].
  - apply name_Some in Ha as (r & -> & Hr & <-), Hb as (s & -> & Hs & <-). cbn.
    intros [= E]. do 2 f_equal. clear Ht.
    induction (rows t) as [|x l IH]; [by inversion Hr|].
    cbn in Hn. apply NoDup_cons in Hn as [Hx Hn].
    apply elem_of_cons in Hr as [->|Hr], Hs as [->|Hs]; [done|..|by auto].
    + destruct Hx. rewrite E. by apply list_elem_of_fmap_2.
    + destruct Hx. rewrite <-E. by apply list_elem_of_fmap_2.
  - apply name_Some in Ha as (r & -> & _). done.
  - apply name_Some in Hb as (r & -> & _). done.
Qed.

(** A database whose tenants and users changed but kept the names in use. *)
Lemma named_of_same (d d' : Db) :
  sound d →
  (∀ o, named (tenants d) o → tenant_name (tenants d') o = tenant_name (tenants d) o) →
  (∀ o, named (users d) o → user_name (users d') o = user_name (users d) o) →
  (∀ o, named (plugins d) o → plugin_name (plugins d') o = plugin_name (plugins d) o) →
  memberships d' = memberships d → grants d' = grants d → routes d' = routes d →
  route_targets d' = route_targets d → plugin_owners d' = plugin_owners d →
  plugin_rules d' = plugin_rules d → limits d' = limits d →
  named_of d' = MkNamed (named_tenant <$> rows (tenants d')) (named_user <$> rows (users d'))
    (n_members (named_of d)) (n_grants (named_of d)) (n_routes (named_of d))
    (named_plugin <$> rows (plugins d')) (n_owners (named_of d)) (n_rules (named_of d))
    (n_limits (named_of d)).
Proof.
  intros Hd Ht Hu Hp E1 E2 E3 E4 E5 E6 E7. unfold named_of.
  rewrite E1, E2, E3, E4, E5, E6, E7. cbn [n_members n_grants n_routes n_owners n_rules n_limits].
  destruct Hd.
  assert (∀ {A} (Q : A → Prop) l a, Forall Q l → a ∈ l → Q a) as Hf
    by (intros A Q l a Hl; by apply Forall_forall).
  f_equal; apply omap_same; intros a Ha.
  - unfold named_member. rewrite Ht, Hu; [done|..];
      [exact (Hf _ _ _ _ ref_member_user Ha)|exact (Hf _ _ _ _ ref_member_tenant Ha)].
  - unfold named_grant. rewrite Ht, Hu; [done|..];
      [exact (Hf _ _ _ _ ref_grant_user Ha)|exact (Hf _ _ _ _ ref_grant_tenant Ha)].
  - unfold named_owner. rewrite Ht, Hp; [done|..];
      [exact (Hf _ _ _ _ ref_owner_plugin Ha)|exact (Hf _ _ _ _ ref_owner_tenant Ha)].
  - unfold named_rule. rewrite Ht, Hu, Hp; [done|..];
      [exact (Hf _ _ _ _ ref_rule_plugin Ha)|exact (Hf _ _ _ _ ref_rule_user Ha)
      |exact (Hf _ _ _ _ ref_rule_tenant Ha)].
  - unfold named_limit. rewrite Ht, Hu; [done|..];
      [exact (Hf _ _ _ _ ref_limit_user Ha)|exact (Hf _ _ _ _ ref_limit_tenant Ha)].
Qed.

(** ** A joined table and the table it joins *)
Section joined.
Context {A B : Type} (f : A → option B) (l : list A).
Context (all : ∀ a, a ∈ l → ∃ b, f a = Some b).

Lemma omap_fmap_joined (g : A → A) (g' : B → B) :
  (∀ a b, a ∈ l → f a = Some b → f (g a) = Some (g' b)) → omap f (g <$> l) = g' <$> omap f l.
Proof using Type*.
  revert all. induction l as [|a k IH]; intros Hall Hg; [done|]. cbn.
  destruct (Hall a) as [b Hb]; [apply list_elem_of_here|]. rewrite Hb.
  rewrite (Hg a b) by (done || apply list_elem_of_here). cbn. f_equal.
  apply IH; intros; [by apply Hall, list_elem_of_further|].
  by apply Hg; [apply list_elem_of_further|].
Qed.

Lemma joined_key {K K'} (key : A → K) (key' : B → K') k k' :
  (∀ a b, a ∈ l → f a = Some b → key a = k ↔ key' b = k') →
  (k ∈ key <$> l ↔ k' ∈ key' <$> omap f l).
Proof using Type*.
  intros Hk. rewrite !list_elem_of_fmap. setoid_rewrite list_elem_of_omap. split.
  - intros (a & E & Ha). destruct (all a Ha) as [b Hb]. exists b.
    split; [symmetry; by apply (Hk a b)|by eauto].
  - intros (b & E & a & Ha & Hb). exists a. split; [|done]. symmetry. by apply (Hk a b).
Qed.
Lemma joined_filter {K'} (P : A → Prop) `{∀ a, Decision (P a)} (key' : B → K') k' :
  (∀ a b, a ∈ l → f a = Some b → P a ↔ key' b = k') →
  (filter P l = [] ↔ k' ∉ key' <$> omap f l).
Proof using Type*.
  intros Hk. rewrite list_elem_of_fmap. setoid_rewrite list_elem_of_omap. split.
  - intros E (b & -> & a & Ha & Hb). assert (a ∈ filter P l) as Hin.
    { apply list_elem_of_filter. split; [by apply (Hk a b)|done]. }
    rewrite E in Hin. by inversion Hin.
  - intros Hn. apply filter_none. apply Forall_forall. intros a Ha HP. apply Hn.
    destruct (all a Ha) as [b Hb]. exists b. split; [symmetry; by apply (Hk a b)|eauto].
Qed.
End joined.

(** Every row of a sound database joins. *)
Section resolves.
Context (d : Db) (Hd : sound d).

Lemma tenant_name_Some i : named (tenants d) (Some i) → ∃ t, tenant_name (tenants d) (Some i) = Some t.
Proof using Type*. intros (r & Hr & _)%name_Some. unfold tenant_name. rewrite Hr. cbn. eauto. Qed.
Lemma user_name_Some i : named (users d) (Some i) → ∃ u, user_name (users d) (Some i) = Some u.
Proof using Type*. intros (r & Hr & _)%name_Some. unfold user_name. rewrite Hr. cbn. eauto. Qed.
Lemma plugin_name_Some i : named (plugins d) (Some i) → ∃ p, plugin_name (plugins d) (Some i) = Some p.
Proof using Type*. intros (r & Hr & _)%name_Some. unfold plugin_name. rewrite Hr. cbn. eauto. Qed.

Lemma member_joins m : m ∈ memberships d → ∃ b, named_member (tenants d) (users d) m = Some b.
Proof using Type*.
  intros Hm. destruct (tenant_name_Some (mb_tenant m)) as [t Ht].
  { exact (proj1 (Forall_forall _ _) (ref_member_tenant d Hd) m Hm). }
  destruct (user_name_Some (mb_user m)) as [u Hu].
  { exact (proj1 (Forall_forall _ _) (ref_member_user d Hd) m Hm). }
  unfold named_member. rewrite Ht, Hu. cbn. eauto.
Qed.

Lemma grant_joins g : g ∈ rows (grants d) → ∃ b, named_grant (tenants d) (users d) g = Some b.
Proof using Type*.
  intros Hg. destruct (user_name_Some (gt_user g)) as [u Hu].
  { exact (proj1 (Forall_forall _ _) (ref_grant_user d Hd) g Hg). }
  unfold named_grant. rewrite Hu. cbn. eauto.
Qed.

Lemma owner_joins o : o ∈ plugin_owners d → ∃ b, named_owner (tenants d) (plugins d) o = Some b.
Proof using Type*.
  intros Ho. destruct (plugin_name_Some (ow_plugin o)) as [p Hp].
  { exact (proj1 (Forall_forall _ _) (ref_owner_plugin d Hd) o Ho). }
  unfold named_owner. rewrite Hp. cbn. eauto.
Qed.

Lemma rule_joins r : r ∈ rows (plugin_rules d) → ∃ b, named_rule (tenants d) (users d) (plugins d) r = Some b.
Proof using Type*.
  intros Hr. destruct (plugin_name_Some (ru_plugin r)) as [p Hp].
  { exact (proj1 (Forall_forall _ _) (ref_rule_plugin d Hd) r Hr). }
  unfold named_rule. rewrite Hp. cbn. eauto.
Qed.

Lemma limit_joins l : l ∈ rows (limits d) → ∃ b, named_limit (tenants d) (users d) l = Some b.
Proof using Type*.
  intros Hl. destruct (tenant_name_Some (li_tenant l)) as [t Ht].
  { exact (proj1 (Forall_forall _ _) (ref_limit_tenant d Hd) l Hl). }
  unfold named_limit. rewrite Ht. cbn. eauto.
Qed.
End resolves.
