(* ===== verification/IdentityStore.v ===== *)
(** * IdentityStore: tenants, users, memberships and grants

    Models [crates/ip-storage/src/sqlite/identity.rs] over the tables of [Schema]: the writes
    a transaction shares with the pool, and the four stores of [store.rs].  [Timestamp::now]
    is the argument [now].  A [SELECT] without an order answers in the order of the table. *)
From S2P Require Import Prelude Text Ident Key Capability LimitCore PluginCore Account Sql Schema.
From S2P Require Import Integrity Named.

(** ** model.rs *)

Record NewTenant : Type := MkNewTenant { new_tenant_id : TenantId; new_tenant_key : TnKey }.
Record NewUser : Type := MkNewUser {
  new_user_id : UserId; new_user_passphrase : PassphraseHash; new_user_kind : AccountKind
}.
Record TenantWithOwner : Type := MkTenantWithOwner {
  with_tenant : Tenant; with_owner : User; with_membership : Membership
}.
Record UserWithMembership : Type := MkUserWithMembership {
  added_user : User; added_membership : Membership
}.
Record MemberRemoved : Type := MkMemberRemoved {
  removed_membership : Membership; removed_revoked : Z
}.

(** [DELETE] and [UPDATE] report how many rows they touched; none of them is a report that the
    record is missing. *)
Definition some_or (e : StorageError) (touched : nat) : result StorageError unit :=
  match touched with O => Err e | S _ => Ok tt end.

Definition tenant_named (id : TenantId) (d : Db) : option TenantEntry :=
  List.find (λ t, bool_decide (tn_id t = val id)) (rows (tenants d)).
Definition user_named (id : UserId) (d : Db) : option UserEntry :=
  List.find (λ u, bool_decide (us_id u = val id)) (rows (users d)).

(** ** Writes over whichever connection they are given *)
Section identity.
Context `{Engine} `{Chrono}.

Definition insert_tenant (now : Timestamp) (new : NewTenant) : sql Db Tenant :=
  row ← ask_or (λ e, if is_unique_violation e then Err (Conflict ETenant) else Err Backend)
    (insert_into_tenants (val (new_tenant_id new)) (val (new_tenant_key new)) now);
  pure (Ok (MkTenant row (new_tenant_id new) (new_tenant_key new) now)).

Definition insert_user (now : Timestamp) (new : NewUser) : sql Db User :=
  row ← ask_or (λ e, if is_unique_violation e then Err (Conflict EUser) else Err Backend)
    (insert_into_users (val (new_user_id new)) (val (new_user_passphrase new))
      (account_kind_name (new_user_kind new)) now);
  pure (Ok (MkUser row (new_user_id new) (new_user_passphrase new) (new_user_kind new) now)).

Definition tenant_row_id_of (id : TenantId) : sql Db Z :=
  found ← select (tenant_named id);
  pure (ok_or (NotFound ETenant) (tn_row <$> found)).

Definition user_row_id_of (id : UserId) : sql Db Z :=
  found ← select (user_named id);
  pure (ok_or (NotFound EUser) (us_row <$> found)).

Definition insert_membership (now : Timestamp) (m : Membership) : sql Db unit :=
  tenant ← tenant_row_id_of (member_tenant m);
  user ← user_row_id_of (member_user m);
  ask (upsert_membership tenant user (standing_name (member_standing m)) now).

(** Rows of one user in one tenant: [tenant_row_id = (SELECT row_id FROM tenants WHERE id = ?)]
    is true of no row when there is no such tenant. *)
Definition of_tenant_and_user (tenant : TenantId) (user : UserId) (d : Db) (t : option Z) (u : Z)
    : Prop :=
  t ≠ None ∧ (tn_row <$> tenant_named tenant d) = t ∧ (us_row <$> user_named user d) = Some u.
#[export] Instance of_tenant_and_user_dec tenant user d t u :
  Decision (of_tenant_and_user tenant user d t u).
Proof using. unfold of_tenant_and_user. apply _. Defined.

Definition delete_membership (user : UserId) (tenant : TenantId) : sql Db Membership :=
  gone ← ask (λ d, delete_from_memberships
    (λ m, of_tenant_and_user tenant user d (Some (mb_tenant m)) (mb_user m)) d);
  row ← pure (ok_or (NotFound EMembership) (head gone));
  s ← pure (standing (mb_standing row));
  pure (Ok (MkMembership user tenant s)).

Definition delete_grants_in_tenant (user : UserId) (tenant : TenantId) : sql Db Z :=
  gone ← ask (λ d, delete_from_grants
    (λ g, of_tenant_and_user tenant user d (gt_tenant g) (gt_user g)) d);
  pure (Ok (Z.of_nat gone)).

(** ** Tenants *)
Definition create_tenant (now : Timestamp) (new : NewTenant) : sql Db Tenant := insert_tenant now new.

Definition tenant_of_entry (id : TenantId) (t : TenantEntry) : result StorageError Tenant :=
  key ← stored_tenant_key (tn_key t);
  at_ ← stored (from_unix_seconds (tn_at t));
  Ok (MkTenant (tn_row t) id key at_).

Definition read_tenant (id : TenantId) : sql Db (option Tenant) :=
  row ← select (tenant_named id);
  pure (transpose (tenant_of_entry id <$> row)).

Definition delete_tenant (id : TenantId) : sql Db unit :=
  deleted ← ask (delete_from_tenants (λ t, tn_id t = val id));
  pure (some_or (NotFound ETenant) deleted).

(** ** Users *)
Definition create_user (now : Timestamp) (new : NewUser) : sql Db User := insert_user now new.

Definition user_of_entry (id : UserId) (u : UserEntry) : result StorageError User :=
  passphrase ← stored (new_passphrase_hash (us_passphrase u));
  kind ← account_kind (us_kind u);
  at_ ← stored (from_unix_seconds (us_at u));
  Ok (MkUser (us_row u) id passphrase kind at_).

Definition read_user (id : UserId) : sql Db (option User) :=
  row ← select (user_named id);
  pure (transpose (user_of_entry id <$> row)).

Definition set_passphrase (id : UserId) (passphrase : PassphraseHash) : sql Db unit :=
  updated ← ask (update_passphrases (λ u, us_id u = val id) (val passphrase));
  pure (some_or (NotFound EUser) updated).

Definition delete_user (id : UserId) : sql Db unit :=
  deleted ← ask (delete_from_users (λ u, us_id u = val id));
  pure (some_or (NotFound EUser) deleted).

(** ** Memberships *)
Definition attach (now : Timestamp) (m : Membership) : sql Db unit := insert_membership now m.

(** The rows of [memberships m JOIN tenants t JOIN users u]. *)
Definition members_joined (d : Db) : list NamedMember :=
  omap (named_member (tenants d) (users d)) (memberships d).

Definition membership (user : UserId) (tenant : TenantId) : sql Db (option Membership) :=
  row ← select (λ d, List.find
    (λ m, bool_decide (nm_tenant m = val tenant) && bool_decide (nm_user m = val user))
    (members_joined d));
  pure (transpose ((λ m, MkMembership user tenant <$> standing (nm_standing m)) <$> row)).

Definition memberships_of_user (user : UserId) : sql Db (list Membership) :=
  found ← select (λ d, sort_by (λ a b, lex_leb (nm_tenant a) (nm_tenant b))
    (filter (λ m, nm_user m = val user) (members_joined d)));
  pure (try_map (λ m,
    t ← stored (new_ident (nm_tenant m));
    s ← standing (nm_standing m);
    Ok (MkMembership user t s)) found).

Definition members_of_tenant (tenant : TenantId) : sql Db (list Membership) :=
  found ← select (λ d, sort_by (λ a b, lex_leb (nm_user a) (nm_user b))
    (filter (λ m, nm_tenant m = val tenant) (members_joined d)));
  pure (try_map (λ m,
    u ← stored (new_ident (nm_user m));
    s ← standing (nm_standing m);
    Ok (MkMembership u tenant s)) found).

(** ** Grants *)

(** The row ids of the user and of the tenant, if the scope names one. *)
Definition scope_rows (s : CapabilityScope) : sql Db (Z * option Z) :=
  user ← user_row_id_of (scope_user s);
  tenant ← match scope_tenant s with
           | Some t => row ← tenant_row_id_of t; pure (Ok (Some row))
           | None => pure (Ok None)
           end;
  pure (Ok (user, tenant)).

Definition grant (now : Timestamp) (g : Grant) : sql Db unit :=
  '(user, tenant) ← scope_rows (grant_scope g);
  ask_or (λ e, if is_unique_violation e then Ok tt else Err Backend)
    (insert_into_grants user tenant (val <$> scope_api (grant_scope g))
      (capability_name (grant_capability g)) now).

Definition revoke (g : Grant) : sql Db unit :=
  '(user, tenant) ← scope_rows (grant_scope g);
  deleted ← ask (delete_from_grants (λ r,
    gt_user r = user ∧ gt_tenant r = tenant ∧ gt_api r = val <$> scope_api (grant_scope g) ∧
    gt_capability r = capability_name (grant_capability g)));
  pure (some_or (NotFound EGrant) deleted).

(** The rows of [grants g JOIN users u LEFT JOIN tenants t]. *)
Definition grants_joined (d : Db) : list NamedGrant :=
  omap (named_grant (tenants d) (users d)) (rows (grants d)).

Definition grant_read (user : UserId) (g : NamedGrant) : result StorageError Grant :=
  grant_of_row user (MkGrantRow (ng_tenant g) (ng_api g) (ng_capability g)).

Definition grants_of (user : UserId) : sql Db Grants :=
  found ← select (λ d, filter (λ g, ng_user g = val user) (grants_joined d));
  pure (grants_from_iter <$> try_map (grant_read user) found).

Definition grants_in_tenant (user : UserId) (tenant : TenantId) : sql Db Grants :=
  found ← select (λ d, filter (λ g, ng_user g = val user ∧ ng_tenant g = Some (val tenant))
    (grants_joined d));
  pure (grants_from_iter <$> try_map (grant_read user) found).
End identity.
