(* ===== verification/IdentitySpec.v ===== *)
(** * IdentitySpec: what the identity store promises, and that it keeps it

    The contract of the four stores of [crates/ip-storage/src/store.rs] on the named tables of
    [Named]: what each call reports and what it does to tenants, users, memberships and grants
    by name.  The programs of [IdentityStore], which work by row ids, keys and cascades,
    refine it on every sound database. *)
From S2P Require Import Prelude Text Ident Key Capability LimitCore PluginCore Account Sql Schema.
From S2P Require Import Integrity Named IdentityStore.

(** ** The contract *)

Definition with_n_identity (ts : list NamedTenant) (us : list NamedUser) (ms : list NamedMember)
    (gs : list NamedGrant) (n : Named) : Named :=
  MkNamed ts us ms gs (n_routes n) (n_plugins n) (n_owners n) (n_rules n) (n_limits n).
Definition on_tenants (f : list NamedTenant → list NamedTenant) (n : Named) : Named :=
  with_n_identity (f (n_tenants n)) (n_users n) (n_members n) (n_grants n) n.
Definition on_users (f : list NamedUser → list NamedUser) (n : Named) : Named :=
  with_n_identity (n_tenants n) (f (n_users n)) (n_members n) (n_grants n) n.
Definition on_members (f : list NamedMember → list NamedMember) (n : Named) : Named :=
  with_n_identity (n_tenants n) (n_users n) (f (n_members n)) (n_grants n) n.
Definition on_grants (f : list NamedGrant → list NamedGrant) (n : Named) : Named :=
  with_n_identity (n_tenants n) (n_users n) (n_members n) (f (n_grants n)) n.

Definition has_tenant (t : TenantId) (n : Named) : bool :=
  bool_decide (val t ∈ nt_id <$> n_tenants n).
Definition has_user (u : UserId) (n : Named) : bool := bool_decide (val u ∈ nu_id <$> n_users n).

(** Everything of a tenant goes with it, whatever table it is in. *)
Definition drop_tenant (t : str) (n : Named) : Named :=
  MkNamed (filter (λ x, nt_id x ≠ t) (n_tenants n)) (n_users n)
    (filter (λ x, nm_tenant x ≠ t) (n_members n))
    (filter (λ x, ng_tenant x ≠ Some t) (n_grants n))
    (n_routes n) (n_plugins n)
    (filter (λ x, no_tenant x ≠ Some t) (n_owners n))
    (filter (λ x, nl_tenant x ≠ Some t) (n_rules n))
    (filter (λ x, nk_tenant x ≠ t) (n_limits n)).

Definition drop_user (u : str) (n : Named) : Named :=
  MkNamed (n_tenants n) (filter (λ x, nu_id x ≠ u) (n_users n))
    (filter (λ x, nm_user x ≠ u) (n_members n))
    (filter (λ x, ng_user x ≠ u) (n_grants n))
    (n_routes n) (n_plugins n) (n_owners n)
    (filter (λ x, nl_user x ≠ Some u) (n_rules n))
    (filter (λ x, nk_user x ≠ Some u) (n_limits n)).

(** A membership put in place of the one the same user had in the same tenant. *)
Definition put_member (tenant user standing : str) (at_ : Z) (l : list NamedMember)
    : list NamedMember :=
  if bool_decide ((tenant, user) ∈ (λ m, (nm_tenant m, nm_user m)) <$> l)
  then (λ m, if decide ((nm_tenant m, nm_user m) = (tenant, user))
             then MkNamedMember tenant user standing (nm_at m) else m) <$> l
  else l ++ [MkNamedMember tenant user standing at_].

(** What of a named grant identifies it. *)
Definition grant_names (g : NamedGrant) : str * option str * option str * str :=
  (ng_user g, ng_tenant g, ng_api g, ng_capability g).
Definition names_of_grant (g : Grant) : str * option str * option str * str :=
  (val (scope_user (grant_scope g)), val <$> scope_tenant (grant_scope g),
   val <$> scope_api (grant_scope g), capability_name (grant_capability g)).

(** Each call: what it reports, and the names after it. *)
Definition spec_create_tenant (now : Timestamp) (new : NewTenant) (n : Named)
    : result StorageError unit * Named :=
  if has_tenant (new_tenant_id new) n then (Err (Conflict ETenant), n)
  else (Ok tt, on_tenants (λ l, l ++
         [MkNamedTenant (val (new_tenant_id new)) (val (new_tenant_key new)) now]) n).

Definition spec_delete_tenant (t : TenantId) (n : Named) : result StorageError unit * Named :=
  if has_tenant t n then (Ok tt, drop_tenant (val t) n) else (Err (NotFound ETenant), n).

Definition spec_create_user (now : Timestamp) (new : NewUser) (n : Named)
    : result StorageError unit * Named :=
  if has_user (new_user_id new) n then (Err (Conflict EUser), n)
  else (Ok tt, on_users (λ l, l ++
         [MkNamedUser (val (new_user_id new)) (val (new_user_passphrase new))
            (account_kind_name (new_user_kind new)) now]) n).

Definition spec_set_passphrase (u : UserId) (passphrase : PassphraseHash) (n : Named)
    : result StorageError unit * Named :=
  if has_user u n
  then (Ok tt, on_users (fmap (λ x, if decide (nu_id x = val u)
         then MkNamedUser (nu_id x) (val passphrase) (nu_kind x) (nu_at x) else x)) n)
  else (Err (NotFound EUser), n).

Definition spec_delete_user (u : UserId) (n : Named) : result StorageError unit * Named :=
  if has_user u n then (Ok tt, drop_user (val u) n) else (Err (NotFound EUser), n).

Definition spec_attach (now : Timestamp) (m : Membership) (n : Named)
    : result StorageError unit * Named :=
  if negb (has_tenant (member_tenant m) n) then (Err (NotFound ETenant), n)
  else if negb (has_user (member_user m) n) then (Err (NotFound EUser), n)
  else (Ok tt, on_members (put_member (val (member_tenant m)) (val (member_user m))
         (standing_name (member_standing m)) now) n).

(** Whether the user and the tenant a scope names are there. *)
Definition scope_known (s : CapabilityScope) (n : Named) : result StorageError unit :=
  if negb (has_user (scope_user s) n) then Err (NotFound EUser)
  else match scope_tenant s with
       | Some t => if has_tenant t n then Ok tt else Err (NotFound ETenant)
       | None => Ok tt
       end.

Definition spec_grant (now : Timestamp) (g : Grant) (n : Named)
    : result StorageError unit * Named :=
  match scope_known (grant_scope g) n with
  | Err e => (Err e, n)
  | Ok _ =>
      if bool_decide (names_of_grant g ∈ grant_names <$> n_grants n) then (Ok tt, n)
      else (Ok tt, on_grants (λ l, l ++
        [MkNamedGrant (val (scope_user (grant_scope g))) (val <$> scope_tenant (grant_scope g))
           (val <$> scope_api (grant_scope g)) (capability_name (grant_capability g)) now]) n)
  end.

Definition spec_revoke (g : Grant) (n : Named) : result StorageError unit * Named :=
  match scope_known (grant_scope g) n with
  | Err e => (Err e, n)
  | Ok _ =>
      if bool_decide (names_of_grant g ∈ grant_names <$> n_grants n)
      then (Ok tt, on_grants (filter (λ x, grant_names x ≠ names_of_grant g)) n)
      else (Err (NotFound EGrant), n)
  end.

(** ** What the stores can read back *)

Section readable.
Context `{Chrono}.

(** A moment [DateTime<Utc>] can hold, as every [Timestamp] does. *)
Definition moment (at_ : Z) : Prop := from_unix_seconds at_ = Ok at_.

Definition readable_tenant (t : NamedTenant) : Prop :=
  (∃ id : TenantId, nt_id t = val id) ∧ (∃ k : TnKey, nt_key t = val k) ∧ moment (nt_at t).
Definition readable_user (u : NamedUser) : Prop :=
  (∃ id : UserId, nu_id u = val id) ∧ (∃ p : PassphraseHash, nu_passphrase u = val p) ∧
  (∃ k, nu_kind u = account_kind_name k) ∧ moment (nu_at u).
Definition readable_member (m : NamedMember) : Prop :=
  (∃ t : TenantId, nm_tenant m = val t) ∧ (∃ u : UserId, nm_user m = val u) ∧
  (∃ s, nm_standing m = standing_name s) ∧ moment (nm_at m).
(** [Grant::new] would have taken it. *)
Definition well_scoped (g : Grant) : Prop := scope_kind (grant_capability g) = kind_of (grant_scope g).
Definition readable_grant (g : NamedGrant) : Prop :=
  (∃ g' : Grant, well_scoped g' ∧ grant_names g = names_of_grant g') ∧ moment (ng_at g).

Record readable (n : Named) : Prop := MkReadable {
  read_tenants : Forall readable_tenant (n_tenants n);
  read_users : Forall readable_user (n_users n);
  read_members : Forall readable_member (n_members n);
  read_grants : Forall readable_grant (n_grants n)
}.
End readable.

(** ** Lemmas *)

Section refinement.
Context `{Engine} `{Chrono}.
Implicit Types d : Db.

Lemma has_tenant_named d t :
  has_tenant t (named_of d) = match tenant_named t d with Some _ => true | None => false end.
Proof.
  unfold has_tenant, tenant_named. cbn. rewrite <-list_fmap_compose.
  destruct (List.find _ _) as [r|] eqn:E.
  - apply bool_decide_eq_true. apply find_elem_of in E as [Hr E%bool_decide_eq_true].
    rewrite <-E. by apply (list_elem_of_fmap_2 (nt_id ∘ named_tenant)).
  - apply bool_decide_eq_false. by apply (find_key tn_id) in E.
Qed.

Lemma has_user_named d u :
  has_user u (named_of d) = match user_named u d with Some _ => true | None => false end.
Proof.
  unfold has_user, user_named. cbn. rewrite <-list_fmap_compose.
  destruct (List.find _ _) as [r|] eqn:E.
  - apply bool_decide_eq_true. apply find_elem_of in E as [Hr E%bool_decide_eq_true].
    rewrite <-E. by apply (list_elem_of_fmap_2 (nu_id ∘ named_user)).
  - apply bool_decide_eq_false. by apply (find_key us_id) in E.
Qed.

(** A row found by name, as a reference. *)
Lemma tenant_named_ref d t e :
  sound d → tenant_named t d = Some e →
  named (tenants d) (Some (tn_row e)) ∧ tenant_name (tenants d) (Some (tn_row e)) = Some (val t).
Proof.
  intros Hd [He Hn%bool_decide_eq_true]%find_elem_of.
  assert (row_at (tenants d) (tn_row e) = Some e) as Hr by (by apply row_at_unique; [apply Hd|]).
  split; [apply row_at_named; by eauto|]. unfold tenant_name.
  change (left_join (tenants d) (Some (tn_row e))) with (row_at (tenants d) (tn_row e)).
  rewrite Hr. cbn. by rewrite Hn.
Qed.

Lemma user_named_ref d u e :
  sound d → user_named u d = Some e →
  named (users d) (Some (us_row e)) ∧ user_name (users d) (Some (us_row e)) = Some (val u).
Proof.
  intros Hd [He Hn%bool_decide_eq_true]%find_elem_of.
  assert (row_at (users d) (us_row e) = Some e) as Hr by (by apply row_at_unique; [apply Hd|]).
  split; [apply row_at_named; by eauto|]. unfold user_name.
  change (left_join (users d) (Some (us_row e))) with (row_at (users d) (us_row e)).
  rewrite Hr. cbn. by rewrite Hn.
Qed.

Lemma taken_tenant d t : taken tn_id (val t) (rows (tenants d)) = has_tenant t (named_of d).
Proof. unfold taken, has_tenant. cbn. by rewrite <-list_fmap_compose. Qed.

Lemma taken_user d u : taken us_id (val u) (rows (users d)) = has_user u (named_of d).
Proof. unfold taken, has_user. cbn. by rewrite <-list_fmap_compose. Qed.

(** A program does what its contract says, or the database had no row id left to give.  The
    database is sound, and holds values the stores can read back: [IdentitySpec] and [Workflow]
    show that they keep it so. *)
Definition refines {A} (p : sql Db A) (spec : Named → result StorageError unit * Named) : Prop :=
  ∀ d, sound d → readable (named_of d) →
    (exec p d = (Err Backend, d)) ∨
    (((λ _, tt) <$> (exec p d).1, named_of (exec p d).2) = spec (named_of d)).

Lemma create_tenant_refines now new : refines (create_tenant now new) (spec_create_tenant now new).
Proof.
  intros d Hd _. unfold create_tenant, insert_tenant, spec_create_tenant.
  rewrite exec_bind, exec_ask_or. unfold insert_into_tenants. rewrite taken_tenant.
  destruct (has_tenant _ _); [by right|].
  destruct (append _ _) as [[r t]|e] eqn:Ha; cbn.
  2:{ left. unfold append in Ha. destruct (next_row_id _ _); [done|]. by injection Ha as <-. }
  right. apply append_ok in Ha as (_ & Hrows & _ & _ & Hr); [|done|apply Hd].
  f_equal. rewrite (named_of_same d); try done; cbn.
  - unfold on_tenants, with_n_identity. cbn. f_equal. rewrite Hrows, fmap_app, Hr. done.
  - intros o Ho. by apply (name_append tn_id _ _ r).
Qed.

Lemma create_user_refines now new : refines (create_user now new) (spec_create_user now new).
Proof.
  intros d Hd _. unfold create_user, insert_user, spec_create_user.
  rewrite exec_bind, exec_ask_or. unfold insert_into_users. rewrite taken_user.
  destruct (has_user _ _); [by right|].
  destruct (append _ _) as [[r t]|e] eqn:Ha; cbn.
  2:{ left. unfold append in Ha. destruct (next_row_id _ _); [done|]. by injection Ha as <-. }
  right. apply append_ok in Ha as (_ & Hrows & _ & _ & Hr); [|done|apply Hd].
  f_equal. rewrite (named_of_same d); try done; cbn.
  - unfold on_users, with_n_identity. cbn. f_equal. rewrite Hrows, fmap_app, Hr. done.
  - intros o Ho. by apply (name_append us_id _ _ r).
Qed.

Lemma filter_names {R N} (name : R → N) `{EqDecision N} (n : N) (l : list R) :
  filter (λ r, name r = n) l = [] ↔ n ∉ name <$> l.
Proof.
  rewrite list_elem_of_fmap. split.
  - intros E (r & -> & Hr). assert (r ∈ filter (λ x, name x = name r) l) as Hin
      by (by apply list_elem_of_filter). rewrite E in Hin. by inversion Hin.
  - intros Hn. apply filter_none. apply Forall_forall. intros r Hr E. apply Hn. eauto.
Qed.

Lemma some_or_length {R} e (l : list R) :
  some_or e (length l) = match l with [] => Err e | _ :: _ => Ok tt end.
Proof. by destruct l. Qed.

Lemma fmap_in_id {A} (f : A → A) (l : list A) : (∀ x, x ∈ l → f x = x) → f <$> l = l.
Proof.
  induction l as [|x l IH]; intros Hf; [done|]. cbn. rewrite Hf by apply list_elem_of_here.
  f_equal. apply IH. intros y Hy. by apply Hf, list_elem_of_further.
Qed.

Lemma keep_none {R} (P : R → Prop) `{∀ r, Decision (P r)} (t : table R) :
  filter P (rows t) = [] → keep (λ r, ¬ P r) t = t.
Proof.
  intros E. unfold keep. rewrite filter_all; [by destruct t|].
  apply Forall_forall. intros r Hr HP. assert (r ∈ filter P (rows t)) as Hin
    by (by apply list_elem_of_filter). rewrite E in Hin. by inversion Hin.
Qed.

Lemma keep_stays {R} (f : R → option Z) (t : table R) : keep (λ r, stays [] (f r)) t = t.
Proof.
  unfold keep. rewrite filter_all; [by destruct t|]. apply Forall_true. intros r. unfold stays.
  destruct (f r); [apply not_elem_of_nil|done].
Qed.

Lemma filter_stays {R} (f : R → option Z) (l : list R) : filter (λ r, stays [] (f r)) l = l.
Proof. apply (f_equal rows (keep_stays f (MkTable l 0))). Qed.

Lemma set_passphrase_refines u passphrase :
  refines (set_passphrase u passphrase) (spec_set_passphrase u passphrase).
Proof.
  intros d Hd _. right. unfold set_passphrase, spec_set_passphrase.
  rewrite exec_bind, exec_ask. cbn [update_passphrases exec pure fst snd]. rewrite some_or_length.
  set (f := repassed _ _). rewrite <-taken_user. unfold taken.
  assert (∀ r, row_id (f r) = row_id r) as Hi by (intros r; unfold f, repassed; by case_decide).
  assert (∀ r, us_id (f r) = us_id r) as Hk by (intros r; unfold f, repassed; by case_decide).
  case_bool_decide as Hin; destruct (filter _ _) as [|r l] eqn:Hf.
  - by apply filter_names in Hf.
  - f_equal. rewrite (named_of_same d); try done; cbn.
    + unfold on_users, with_n_identity. cbn. f_equal. rewrite <-!list_fmap_compose.
      apply list_fmap_ext. intros i x _. unfold f, repassed. cbn. by case_decide.
    + intros o _. by apply (name_update us_id f).
  - f_equal. f_equal. destruct d as [ts us]. unfold with_users. cbn. f_equal.
    unfold update. destruct us as [rs n]. cbn in *. f_equal.
    apply fmap_in_id. intros x Hx. unfold f, repassed. case_decide as Ex; [|done]. destruct Hin.
    rewrite <-Ex. by apply list_elem_of_fmap_2.
  - exfalso. apply (proj2 (filter_names us_id _ _)) in Hin. by rewrite Hin in Hf.
Qed.

(** Deleting by name: nothing happens where there is no such row. *)
Lemma delete_tenants_none d (P : TenantEntry → Prop) `{∀ r, Decision (P r)} :
  filter P (rows (tenants d)) = [] → delete_from_tenants P d = Ok (O, d).
Proof.
  intros E. unfold delete_from_tenants. rewrite E. cbn [length fmap list_fmap cascade_moves].
  rewrite !keep_stays, !filter_stays, keep_none by done.
  destruct d. cbn. unfold moved. cbn. by rewrite Z.add_0_r.
Qed.

Lemma delete_users_none d (P : UserEntry → Prop) `{∀ r, Decision (P r)} :
  filter P (rows (users d)) = [] → delete_from_users P d = Ok (O, d).
Proof.
  intros E. unfold delete_from_users. rewrite E. cbn [length fmap list_fmap cascade_moves].
  rewrite !keep_stays, !filter_stays, keep_none by done.
  destruct d. cbn. unfold moved. cbn. by rewrite Z.add_0_r.
Qed.

Lemma fmap_filter_names {R N S} (f : R → S) (name : R → N) (name' : S → N) `{EqDecision N} n (l : list R) :
  (∀ r, name' (f r) = name r) →
  f <$> filter (λ r, ¬ name r = n) l = filter (λ s, name' s ≠ n) (f <$> l).
Proof.
  intros Hn. induction l as [|r l IH]; [done|]. cbn [fmap list_fmap]. rewrite !filter_cons, Hn.
  case_decide; [|done]. cbn. by rewrite <-IH.
Qed.

(** The rows of one joined table that a cascade leaves. *)
Ltac cascaded Hst Hlj :=
  apply omap_filter;
  [ let a := fresh "a" in let b := fresh "b" in let Ha := fresh "Ha" in let E := fresh "E" in
    intros a b Ha E;
    repeat (apply bind_Some in E as (? & ? & E)); injection E as <-;
    cbn [nm_tenant nm_user ng_tenant ng_user no_tenant nl_tenant nl_user nk_tenant nk_user];
    rewrite Hst by (match goal with H : Forall _ _ |- _ => exact (proj1 (Forall_forall _ _) H a Ha) end);
    repeat match goal with H : _ = Some _ |- _ => try rewrite H; clear H end; naive_solver
  | let a := fresh "a" in let Hs := fresh "Hs" in
    intros a _ Hs;
    unfold named_member, named_grant, named_owner, named_rule, named_limit; by rewrite Hlj ].

Lemma delete_tenant_named d (t : str) x d' :
  sound d → delete_from_tenants (λ r, tn_id r = t) d = Ok (x, d') →
  named_of d' = drop_tenant t (named_of d).
Proof.
  intros Hd [= _ <-]. unfold drop_tenant, named_of. cbn [moved with_limits with_plugin_rules
    with_plugin_owners with_grants with_memberships with_tenants tenants users memberships grants
    routes route_targets plugins plugin_owners plugin_rules limits n_tenants n_users n_members
    n_grants n_routes n_plugins n_owners n_rules n_limits keep rows].
  set (lost := tn_row <$> _).
  assert (∀ o, named (tenants d) o → stays lost o ↔ tenant_name (tenants d) o ≠ Some t) as Hst.
  { intros o. apply (stays_name tn_id). apply Hd. }
  assert (∀ o, stays lost o →
    tenant_name (keep (λ r, ¬ tn_id r = t) (tenants d)) o = tenant_name (tenants d) o) as Hlj.
  { intros o Ho. unfold tenant_name. by rewrite left_join_keep by (done || apply Hd). }
  destruct Hd. f_equal; [by apply fmap_filter_names|..];
    cascaded Hst Hlj.
Qed.

Lemma delete_user_named d (u : str) x d' :
  sound d → delete_from_users (λ r, us_id r = u) d = Ok (x, d') →
  named_of d' = drop_user u (named_of d).
Proof.
  intros Hd [= _ <-]. unfold drop_user, named_of. cbn [moved with_limits with_plugin_rules
    with_plugin_owners with_grants with_memberships with_users tenants users memberships grants
    routes route_targets plugins plugin_owners plugin_rules limits n_tenants n_users n_members
    n_grants n_routes n_plugins n_owners n_rules n_limits keep rows].
  set (lost := us_row <$> _).
  assert (∀ o, named (users d) o → stays lost o ↔ user_name (users d) o ≠ Some u) as Hst.
  { intros o. apply (stays_name us_id). apply Hd. }
  assert (∀ o, stays lost o →
    user_name (keep (λ r, ¬ us_id r = u) (users d)) o = user_name (users d) o) as Hlj.
  { intros o Ho. unfold user_name. by rewrite left_join_keep by (done || apply Hd). }
  destruct Hd. f_equal; [by apply fmap_filter_names|..];
    cascaded Hst Hlj.
Qed.

Lemma delete_tenant_refines t : refines (delete_tenant t) (spec_delete_tenant t).
Proof.
  intros d Hd _. right. unfold delete_tenant, spec_delete_tenant. rewrite exec_bind, exec_ask.
  rewrite <-taken_tenant. unfold taken.
  destruct (filter (λ r, tn_id r = val t) (rows (tenants d))) as [|r l] eqn:Hf.
  - rewrite delete_tenants_none by done. apply filter_names in Hf.
    by rewrite bool_decide_eq_false_2.
  - destruct (delete_from_tenants _ d) as [[x d']|] eqn:E; [|done]. cbn.
    rewrite (delete_tenant_named d (val t) x d' Hd E). rewrite bool_decide_eq_true_2.
    + injection E as <- _. by rewrite Hf.
    + destruct (decide (val t ∈ tn_id <$> rows (tenants d))) as [|Hn]; [done|].
      apply (proj2 (filter_names tn_id _ _)) in Hn. by rewrite Hn in Hf.
Qed.

Lemma delete_user_refines u : refines (delete_user u) (spec_delete_user u).
Proof.
  intros d Hd _. right. unfold delete_user, spec_delete_user. rewrite exec_bind, exec_ask.
  rewrite <-taken_user. unfold taken.
  destruct (filter (λ r, us_id r = val u) (rows (users d))) as [|r l] eqn:Hf.
  - rewrite delete_users_none by done. apply filter_names in Hf.
    by rewrite bool_decide_eq_false_2.
  - destruct (delete_from_users _ d) as [[x d']|] eqn:E; [|done]. cbn.
    rewrite (delete_user_named d (val u) x d' Hd E). rewrite bool_decide_eq_true_2.
    + injection E as <- _. by rewrite Hf.
    + destruct (decide (val u ∈ us_id <$> rows (users d))) as [|Hn]; [done|].
      apply (proj2 (filter_names us_id _ _)) in Hn. by rewrite Hn in Hf.
Qed.

Lemma tenant_ref_is d t e i :
  sound d → tenant_named t d = Some e → named (tenants d) i →
  i = Some (tn_row e) ↔ tenant_name (tenants d) i = Some (val t).
Proof.
  intros Hd He Hi. destruct (tenant_named_ref d t e Hd He) as [Hr <-]. symmetry.
  apply name_inj; [apply Hd..|done|done].
Qed.

Lemma user_ref_is d u e i :
  sound d → user_named u d = Some e → named (users d) i →
  i = Some (us_row e) ↔ user_name (users d) i = Some (val u).
Proof.
  intros Hd He Hi. destruct (user_named_ref d u e Hd He) as [Hr <-]. symmetry.
  apply name_inj; [apply Hd..|done|done].
Qed.

Lemma member_key_is d t u e f m b :
  sound d → tenant_named t d = Some e → user_named u d = Some f →
  m ∈ memberships d → named_member (tenants d) (users d) m = Some b →
  member_key m = (tn_row e, us_row f) ↔ (nm_tenant b, nm_user b) = (val t, val u).
Proof.
  intros Hd He Hf Hm Hb.
  pose proof (tenant_ref_is d t e (Some (mb_tenant m)) Hd He
    (proj1 (Forall_forall _ _) (ref_member_tenant d Hd) m Hm)) as Ht.
  pose proof (user_ref_is d u f (Some (mb_user m)) Hd Hf
    (proj1 (Forall_forall _ _) (ref_member_user d Hd) m Hm)) as Hu.
  unfold named_member in Hb. apply bind_Some in Hb as (tn & Etn & Hb).
  apply bind_Some in Hb as (un & Eun & [= <-]). rewrite Etn in Ht. rewrite Eun in Hu.
  unfold member_key. cbn. split; intros [= E1 E2]; f_equal; apply (inj Some).
  - apply Ht. by f_equal.
  - apply Hu. by f_equal.
  - apply Ht. by f_equal.
  - apply Hu. by f_equal.
Qed.

Lemma upsert_member_named d t u e f standing at_ x d' :
  sound d → tenant_named t d = Some e → user_named u d = Some f →
  upsert_membership (tn_row e) (us_row f) standing at_ d = Ok (x, d') →
  named_of d' = on_members (put_member (val t) (val u) standing at_) (named_of d).
Proof.
  intros Hd He Hf Hs.
  pose proof (λ m b, member_key_is d t u e f m b Hd He Hf) as Hkey.
  pose proof (joined_key _ _ (member_joins d Hd) member_key (λ m, (nm_tenant m, nm_user m)) _ _ Hkey) as Hin.
  unfold on_members, with_n_identity, put_member. cbn [n_members named_of].
  unfold upsert_membership in Hs. destruct (taken _ _ _) eqn:Ht.
  - apply bool_decide_eq_true in Ht. rewrite bool_decide_eq_true_2 by (by apply Hin).
    injection Hs as _ <-. unfold named_of, with_memberships. cbn. f_equal.
    apply (omap_fmap_joined _ _ (member_joins d Hd)). intros m b Hm Hb.
    pose proof (Hkey m b Hm Hb) as Hk. unfold restood.
    destruct (decide (member_key m = _)) as [E|E]; destruct (decide (_ = (val t, val u))) as [E'|E'].
    + unfold named_member in *. cbn [mb_tenant mb_user mb_standing mb_at].
      unfold member_key in E. injection E as E1 E2. rewrite <-E1, <-E2. apply bind_Some in Hb as (tn & -> & Hb).
      apply bind_Some in Hb as (un & -> & [= <-]). cbn in *. by injection E' as -> ->.
    + by apply Hk in E.
    + by apply Hk in E'.
    + done.
  - apply taken_false in Ht. rewrite bool_decide_eq_false_2 by (intros Hc; by apply Ht, Hin).
    destruct (_ && _); [|done]. injection Hs as _ <-. unfold named_of, with_memberships. cbn. f_equal.
    rewrite omap_app. f_equal. cbn [omap list_omap]. unfold named_member.
    cbn [mb_tenant mb_user mb_standing mb_at]. rewrite (proj2 (tenant_named_ref d t e Hd He)), (proj2 (user_named_ref d u f Hd Hf)). done.
Qed.

Lemma attach_refines now m : refines (attach now m) (spec_attach now m).
Proof.
  intros d Hd _. right. unfold attach, insert_membership, spec_attach.
  unfold tenant_row_id_of, user_row_id_of. rewrite has_tenant_named, has_user_named. sql_run.
  destruct (tenant_named _ d) as [e|] eqn:He; [|done]. cbn [fmap option_fmap option_map ok_or negb]. sql_run.
  destruct (user_named _ d) as [f|] eqn:Hf; [|done]. cbn [fmap option_fmap option_map ok_or negb]. sql_run.
  destruct (upsert_membership _ _ _ _ d) as [[[] d']|er] eqn:Hs.
  - cbn. by rewrite (upsert_member_named _ _ _ _ _ _ _ _ _ Hd He Hf Hs).
  - exfalso. unfold upsert_membership in Hs. destruct (taken _ _ _); [done|].
    rewrite (proj2 (named_refers _ _) (proj1 (tenant_named_ref _ _ _ Hd He))) in Hs.
    by rewrite (proj2 (named_refers _ _) (proj1 (user_named_ref _ _ _ Hd Hf))) in Hs.
Qed.

Lemma or_zero_inj d a b :
  sound d → named (tenants d) a → named (tenants d) b → or_zero a = or_zero b ↔ a = b.
Proof.
  intros Hd Ha Hb. split; [|by intros ->].
  assert (∀ i, named (tenants d) (Some i) → 0 < i) as Hpos.
  { intros i Hi. destruct Hd as [[_ Hf _] _]. rewrite Forall_forall in Hf. apply Hf in Hi. lia. }
  destruct a as [a|], b as [b|]; cbn; intros E; try apply Hpos in Ha; try apply Hpos in Hb; first [congruence|lia].
Qed.

Lemma or_empty_inj (a b : option str) : a ≠ Some [] → b ≠ Some [] → or_empty a = or_empty b ↔ a = b.
Proof. destruct a, b; cbn; naive_solver. Qed.

Lemma api_nonempty (a : option ApiId) : val <$> a ≠ Some [].
Proof.
  destruct a as [a|]; [|done]. cbn. intros [= E]. pose proof (val_checked (validate_id "api id") a) as Ha.
  by rewrite E in Ha.
Qed.

(** The rows a scope stands for, or the complaint that one of them is missing. *)
Lemma scope_rows_exec d s :
  sound d →
  match exec (scope_rows s) d with
  | (Ok (u, o), d') => d' = d ∧ scope_known s (named_of d) = Ok tt ∧
      named (users d) (Some u) ∧ user_name (users d) (Some u) = Some (val (scope_user s)) ∧
      named (tenants d) o ∧ tenant_name (tenants d) o = val <$> scope_tenant s
  | (Err e, d') => d' = d ∧ scope_known s (named_of d) = Err e
  end.
Proof.
  intros Hd. unfold scope_rows, scope_known, user_row_id_of, tenant_row_id_of.
  rewrite has_user_named. sql_run.
  destruct (user_named _ d) as [f|] eqn:Hf; [|done]. cbn [fmap option_fmap option_map ok_or negb].
  destruct (user_named_ref _ _ _ Hd Hf) as [Hu1 Hu2].
  destruct (scope_tenant s) as [t|]; sql_run; [|done].
  rewrite has_tenant_named. destruct (tenant_named _ d) as [e|] eqn:He; [|done].
  cbn [fmap option_fmap option_map ok_or]. sql_run.
  destruct (tenant_named_ref _ _ _ Hd He) as [Ht1 Ht2]. done.
Qed.

Lemma grant_key_is d u o (user : str) (tenant api : option str) cap g b :
  sound d → api ≠ Some [] →
  named (users d) (Some u) → user_name (users d) (Some u) = Some user →
  named (tenants d) o → tenant_name (tenants d) o = tenant →
  g ∈ rows (grants d) → named_grant (tenants d) (users d) g = Some b →
  (grant_key g = (u, or_zero o, or_empty api, cap) ↔ grant_names b = (user, tenant, api, cap)) ∧
  (gt_user g = u ∧ gt_tenant g = o ∧ gt_api g = api ∧ gt_capability g = cap
   ↔ grant_names b = (user, tenant, api, cap)).
Proof.
  intros Hd Hapi Hu Eu Ho Eo Hg Hb.
  assert (named (users d) (Some (gt_user g))) as Hgu by exact (proj1 (Forall_forall _ _) (ref_grant_user d Hd) g Hg).
  assert (named (tenants d) (gt_tenant g)) as Hgt by exact (proj1 (Forall_forall _ _) (ref_grant_tenant d Hd) g Hg).
  assert (gt_api g ≠ Some []) as Hga by exact (proj1 (Forall_forall _ _) (api_grants d Hd) g Hg).
  pose proof (name_inj us_id (users d) (Some (gt_user g)) (Some u) (ok_users d Hd) (key_users d Hd) Hgu Hu) as Iu.
  pose proof (name_inj tn_id (tenants d) (gt_tenant g) o (ok_tenants d Hd) (key_tenants d Hd) Hgt Ho) as It.
  pose proof (or_zero_inj d (gt_tenant g) o Hd Hgt Ho) as Iz.
  pose proof (or_empty_inj (gt_api g) api Hga Hapi) as Ie.
  unfold user_name in Eu. unfold tenant_name in Eo. unfold named_grant, user_name, tenant_name in Hb.
  apply bind_Some in Hb as (un & Eun & [= <-]). rewrite Eu, Eun in Iu. rewrite Eo in It.
  unfold grant_key, grant_names. cbn. rewrite !pair_equal_spec. rewrite Iz, Ie, It.
  assert (Some un = Some user ↔ un = user) as <- by (split; congruence).
  assert (Some (gt_user g) = Some u ↔ gt_user g = u) as Ig by (split; congruence).
  rewrite Iu, Ig. tauto.
Qed.

Lemma grant_refines now g : refines (grant now g) (spec_grant now g).
Proof.
  intros d Hd _. unfold grant, spec_grant. rewrite exec_bind.
  pose proof (scope_rows_exec d (grant_scope g) Hd) as Hs.
  destruct (exec (scope_rows _) d) as [[[u o]|e] d'].
  2:{ destruct Hs as [-> ->]. by right. }
  destruct Hs as (-> & -> & Hu & Eu & Ho & Eo). rewrite exec_ask_or.
  set (api := val <$> scope_api (grant_scope g)). set (cap := capability_name (grant_capability g)).
  pose proof (api_nonempty (scope_api (grant_scope g))) as Hapi.
  pose proof (joined_key _ _ (grant_joins d Hd) grant_key grant_names (u, or_zero o, or_empty api, cap)
    (names_of_grant g)) as Hin. unfold names_of_grant in Hin.
  specialize (Hin (λ x b Hx Hb, proj1 (grant_key_is d u o _ _ _ _ x b Hd Hapi Hu Eu Ho Eo Hx Hb))).
  unfold insert_into_grants. fold api cap. destruct (taken _ _ _) eqn:Ht.
  - right. apply bool_decide_eq_true, Hin in Ht. by rewrite bool_decide_eq_true_2.
  - apply taken_false in Ht. rewrite bool_decide_eq_false_2 by (intros Hc; by apply Ht, Hin).
    rewrite (proj2 (named_refers (users d) (Some u)) Hu), (proj2 (named_refers (tenants d) o) Ho). cbn [andb].
    destruct (append _ _) as [[r t]|er] eqn:Ha.
    2:{ left. unfold append in Ha. destruct (next_row_id _ _); [done|]. by injection Ha as <-. }
    right. apply append_ok in Ha as (_ & Hrows & _ & _ & Hr); [|done|apply Hd].
    cbn [mbind result_bind fst snd fmap result_fmap]. f_equal.
    unfold on_grants, with_n_identity, named_of. cbn [tenants users memberships grants routes
      route_targets plugins plugin_owners plugin_rules limits n_tenants n_users n_members
      n_grants n_routes n_plugins n_owners n_rules n_limits with_grants]. f_equal.
    rewrite Hrows, omap_app, Hr. f_equal. cbn [omap list_omap]. unfold named_grant.
    cbn [gt_user gt_tenant gt_api gt_capability gt_at]. by rewrite Eu, Eo.
Qed.

(** Grants deleted where the rows chosen are those of certain names. *)
Lemma delete_grants_named d (P : GrantEntry → Prop) (Q : NamedGrant → Prop)
    `{∀ r, Decision (P r), ∀ b, Decision (Q b)} :
  (∀ x b, x ∈ rows (grants d) → named_grant (tenants d) (users d) x = Some b → P x ↔ Q b) →
  named_of (with_grants (keep (λ r, ¬ P r) (grants d)) d) = on_grants (filter (λ b, ¬ Q b)) (named_of d).
Proof.
  intros HPQ. unfold on_grants, with_n_identity, named_of. cbn. f_equal. apply omap_filter; [|done].
  intros x b Hx Hb. by rewrite (HPQ x b Hx Hb).
Qed.

Lemma revoke_refines g : refines (revoke g) (spec_revoke g).
Proof.
  intros d Hd _. right. unfold revoke, spec_revoke. rewrite exec_bind.
  pose proof (scope_rows_exec d (grant_scope g) Hd) as Hs.
  destruct (exec (scope_rows _) d) as [[[u o]|e] d'].
  2:{ by destruct Hs as [-> ->]. }
  destruct Hs as (-> & -> & Hu & Eu & Ho & Eo).
  pose proof (api_nonempty (scope_api (grant_scope g))) as Hapi.
  pose proof (λ x b Hx Hb, proj2 (grant_key_is d u o _ _ _ (capability_name (grant_capability g)) x b
    Hd Hapi Hu Eu Ho Eo Hx Hb)) as Hkey. fold (names_of_grant g) in Hkey.
  pose proof (joined_filter _ _ (grant_joins d Hd) _ grant_names _ Hkey) as Hin.
  sql_run. cbn [delete_from_grants]. sql_run. rewrite some_or_length.
  pose proof (delete_grants_named d _ _ Hkey) as Hnamed.
  destruct (filter _ _) as [|r l] eqn:Hf.
  - rewrite bool_decide_eq_false_2 by (by apply Hin). cbn. rewrite keep_none by done. by destruct d.
  - rewrite bool_decide_eq_true_2; [by rewrite Hnamed|].
    destruct (decide (names_of_grant g ∈ grant_names <$> n_grants (named_of d))) as [|Hn]; [done|].
    by apply Hin in Hn.
Qed.
End refinement.
