(* ===== verification/Workflow.v ===== *)
(** * Workflow: transactions whose steps run in one order

    Models what [crates/typestate-txn/src/lib.rs] expands to and the identity workflows of
    [crates/ip-storage/src/transaction]: creating a tenant with its owner, adding a member and
    removing one.  A stage carries everything written so far and is the type of the
    transaction, so a step that is missing or out of order is ill typed here as it is there.
    The steps run inside [atomically]: a failed step rolls everything back. *)
From S2P Require Import Prelude Text Ident Key Capability LimitCore PluginCore Account Sql Schema.
From S2P Require Import Integrity Named IdentityStore IdentitySpec.

(** [{name}Txn<S>]; the carrier is the connection the program runs over. *)
Record Txn (S : Type) : Type := MkTxn { stage : S }.
Arguments MkTxn {S} _.
Arguments stage {S} _.

(** A transition: the body runs over the carrier, and what it produced joins the stage.  The
    failure of the body is the failure of the step, and [abort] is the rollback of
    [atomically]. *)
Definition advance {Out S' : Type} (body : sql Db Out) (next : Out → S') : sql Db (Txn S') :=
  output ← body;
  pure (Ok (MkTxn (next output))).

(** ** user_create.rs *)
Module UserCreate.
Inductive Begun : Type := MkBegun.
Record TenantSaved : Type := MkTenantSaved { ts_tenant : Tenant }.
Record UserSaved : Type := MkUserSaved { us_tenant : Tenant; us_owner : User }.
Record Attached : Type := MkAttached {
  at_tenant : Tenant; at_owner : User; at_membership : Membership
}.

Section steps.
Context `{Engine} (now : Timestamp).

Definition new : Txn Begun := MkTxn MkBegun.

Definition create_tenant (t : Txn Begun) (new : NewTenant) : sql Db (Txn TenantSaved) :=
  advance (insert_tenant now new) (λ tenant, MkTenantSaved tenant).

Definition create_user (t : Txn TenantSaved) (new : NewUser) : sql Db (Txn UserSaved) :=
  let tenant := ts_tenant (stage t) in
  advance (insert_user now new) (λ owner, MkUserSaved tenant owner).

Definition attach (t : Txn UserSaved) (standing : Standing) : sql Db (Txn Attached) :=
  let tenant := us_tenant (stage t) in
  let owner := us_owner (stage t) in
  let membership := MkMembership (user_id owner) (tenant_id tenant) standing in
  advance (_ ← insert_membership now membership; pure (Ok membership))
    (λ membership, MkAttached tenant owner membership).

Definition commit (t : Txn Attached) : sql Db TenantWithOwner :=
  pure (Ok (MkTenantWithOwner (at_tenant (stage t)) (at_owner (stage t)) (at_membership (stage t)))).
End steps.
End UserCreate.

(** ** member_add.rs *)
Module MemberAdd.
Inductive Begun : Type := MkBegun.
Record UserSaved : Type := MkUserSaved { us_user : User }.
Record Attached : Type := MkAttached { at_user : User; at_membership : Membership }.

Section steps.
Context `{Engine} (now : Timestamp).

Definition new : Txn Begun := MkTxn MkBegun.

Definition create_user (t : Txn Begun) (new : NewUser) : sql Db (Txn UserSaved) :=
  advance (insert_user now new) (λ user, MkUserSaved user).

Definition attach (t : Txn UserSaved) (tenant : TenantId) (standing : Standing)
    : sql Db (Txn Attached) :=
  let user := us_user (stage t) in
  let membership := MkMembership (user_id user) tenant standing in
  advance (_ ← insert_membership now membership; pure (Ok membership))
    (λ membership, MkAttached user membership).

Definition commit (t : Txn Attached) : sql Db UserWithMembership :=
  pure (Ok (MkUserWithMembership (at_user (stage t)) (at_membership (stage t)))).
End steps.
End MemberAdd.

(** ** member_remove.rs *)
Module MemberRemove.
Inductive Begun : Type := MkBegun.
Record Detached : Type := MkDetached { de_membership : Membership }.
Record GrantsRevoked : Type := MkGrantsRevoked { gr_membership : Membership; gr_revoked : Z }.

Section steps.
Context `{Engine}.

Definition new : Txn Begun := MkTxn MkBegun.

Definition detach (t : Txn Begun) (user : UserId) (tenant : TenantId) : sql Db (Txn Detached) :=
  advance (delete_membership user tenant) (λ membership, MkDetached membership).

Definition revoke_grants (t : Txn Detached) : sql Db (Txn GrantsRevoked) :=
  let membership := de_membership (stage t) in
  advance (delete_grants_in_tenant (member_user membership) (member_tenant membership))
    (λ revoked, MkGrantsRevoked membership revoked).

Definition commit (t : Txn GrantsRevoked) : sql Db MemberRemoved :=
  pure (Ok (MkMemberRemoved (gr_membership (stage t)) (gr_revoked (stage t)))).
End steps.
End MemberRemove.

(** ** The workflows as the api runs them, from [begin] to [commit] *)
Section workflows.
Context `{Engine}.

(** [in_one_transaction] of [src/routes/tenant.rs], [user.rs] and [member.rs]. *)
Definition user_create (now : Timestamp) (tenant : NewTenant) (owner : NewUser)
    (standing : Standing) : sql Db TenantWithOwner :=
  atomically (
    t ← UserCreate.create_tenant now UserCreate.new tenant;
    t ← UserCreate.create_user now t owner;
    t ← UserCreate.attach now t standing;
    UserCreate.commit t).

Definition member_add (now : Timestamp) (user : NewUser) (tenant : TenantId) (standing : Standing)
    : sql Db UserWithMembership :=
  atomically (
    t ← MemberAdd.create_user now MemberAdd.new user;
    t ← MemberAdd.attach now t tenant standing;
    MemberAdd.commit t).

Definition member_remove (user : UserId) (tenant : TenantId) : sql Db MemberRemoved :=
  atomically (
    t ← MemberRemove.detach MemberRemove.new user tenant;
    t ← MemberRemove.revoke_grants t;
    MemberRemove.commit t).
End workflows.

(** ** What they promise *)

(** One call and then another; a failure ends the sequence. *)
Definition and_then (first next : Named → result StorageError unit * Named) (n : Named)
    : result StorageError unit * Named :=
  match first n with
  | (Ok _, n) => next n
  | (Err e, n) => (Err e, n)
  end.

(** A sequence whose failure leaves nothing behind. *)
Definition all_or_none (calls : Named → result StorageError unit * Named) (n : Named)
    : result StorageError unit * Named :=
  match calls n with
  | (Ok _, n') => (Ok tt, n')
  | (Err e, _) => (Err e, n)
  end.

Definition spec_user_create (now : Timestamp) (tenant : NewTenant) (owner : NewUser)
    (standing : Standing) : Named → result StorageError unit * Named :=
  all_or_none
    (and_then (spec_create_tenant now tenant)
    (and_then (spec_create_user now owner)
      (spec_attach now (MkMembership (new_user_id owner) (new_tenant_id tenant) standing)))).

Definition spec_member_add (now : Timestamp) (user : NewUser) (tenant : TenantId)
    (standing : Standing) : Named → result StorageError unit * Named :=
  all_or_none
    (and_then (spec_create_user now user)
      (spec_attach now (MkMembership (new_user_id user) tenant standing))).

(** A member goes together with every grant it held in the tenant, and with nothing else. *)
Definition is_member (user : UserId) (tenant : TenantId) (m : NamedMember) : Prop :=
  nm_tenant m = val tenant ∧ nm_user m = val user.
#[export] Instance is_member_dec user tenant m : Decision (is_member user tenant m).
Proof. unfold is_member. apply _. Defined.
Definition holds_in (user : UserId) (tenant : TenantId) (g : NamedGrant) : Prop :=
  ng_user g = val user ∧ ng_tenant g = Some (val tenant).
#[export] Instance holds_in_dec user tenant g : Decision (holds_in user tenant g).
Proof. unfold holds_in. apply _. Defined.

Definition spec_member_remove (user : UserId) (tenant : TenantId) (n : Named)
    : result StorageError unit * Named :=
  if bool_decide (filter (is_member user tenant) (n_members n) = [])
  then (Err (NotFound EMembership), n)
  else (Ok tt, with_n_identity (n_tenants n) (n_users n)
    (filter (λ m, ¬ is_member user tenant m) (n_members n))
    (filter (λ g, ¬ holds_in user tenant g) (n_grants n)) n).

(** ** Every identity program keeps the invariant *)
Section safe_identity.
Context `{Engine} `{Chrono}.

Lemma safe_insert_tenant now new : safe (insert_tenant now new).
Proof. unfold insert_tenant. prove_safe. Qed.
Lemma safe_insert_user now new : safe (insert_user now new).
Proof. unfold insert_user. prove_safe. Qed.
Lemma safe_tenant_row id : safe (tenant_row_id_of id).
Proof. unfold tenant_row_id_of. prove_safe. Qed.
Lemma safe_user_row id : safe (user_row_id_of id).
Proof. unfold user_row_id_of. prove_safe. Qed.
#[local] Hint Resolve safe_tenant_row safe_user_row safe_insert_tenant safe_insert_user : integrity.
Lemma safe_insert_membership now m : safe (insert_membership now m).
Proof. unfold insert_membership. prove_safe. Qed.
Lemma safe_delete_membership user tenant : safe (delete_membership user tenant).
Proof.
  unfold delete_membership. prove_safe.
  apply (keeps_at (λ d, delete_from_memberships
    (λ m, of_tenant_and_user tenant user d (Some (mb_tenant m)) (mb_user m)))). intros d. prove_safe.
Qed.
Lemma safe_delete_grants_in_tenant user tenant : safe (delete_grants_in_tenant user tenant).
Proof.
  unfold delete_grants_in_tenant. prove_safe.
  apply (keeps_at (λ d, delete_from_grants
    (λ g, of_tenant_and_user tenant user d (gt_tenant g) (gt_user g)))). intros d. prove_safe.
Qed.
Lemma safe_scope_rows s : safe (scope_rows s).
Proof. unfold scope_rows. prove_safe. Qed.
#[local] Hint Resolve safe_insert_membership safe_delete_membership safe_delete_grants_in_tenant
  safe_scope_rows api_nonempty : integrity.
Lemma safe_grant now g : safe (grant now g).
Proof. unfold grant. prove_safe. Qed.
Lemma safe_revoke g : safe (revoke g).
Proof. unfold revoke. prove_safe. Qed.
Lemma safe_user_create now nt nu s : safe (user_create now nt nu s).
Proof.
  unfold user_create, UserCreate.create_tenant, UserCreate.create_user, UserCreate.attach,
    UserCreate.commit, advance. prove_safe.
Qed.
Lemma safe_member_add now nu t s : safe (member_add now nu t s).
Proof. unfold member_add, MemberAdd.create_user, MemberAdd.attach, MemberAdd.commit, advance. prove_safe. Qed.
Lemma safe_member_remove user tenant : safe (member_remove user tenant).
Proof.
  unfold member_remove, MemberRemove.detach, MemberRemove.revoke_grants, MemberRemove.commit,
    advance. prove_safe.
Qed.
End safe_identity.

(** ** The contract composes *)
Section compose.
Context `{Engine} `{Chrono}.

(** As [refines], with nothing said about the database where row ids ran out: inside a
    transaction it is rolled back. *)
Definition inside {A} (p : sql Db A) (spec : Named → result StorageError unit * Named) : Prop :=
  ∀ d, sound d → readable (named_of d) →
    ((exec p d).1 = Err Backend) ∨
    (((λ _, tt) <$> (exec p d).1, named_of (exec p d).2) = spec (named_of d)).

Lemma refines_inside {A} (p : sql Db A) spec : refines p spec → inside p spec.
Proof. intros Hp d Hd Hr. destruct (Hp d Hd Hr) as [->|E]; [by left|by right]. Qed.

Lemma inside_map {A B} (p : sql Db A) (g : A → B) spec :
  inside p spec → inside (p ≫= λ a, pure (Ok (g a))) spec.
Proof.
  intros Hp d Hd Hr. destruct (Hp d Hd Hr) as [E|E]; rewrite exec_bind;
    destruct (exec p d) as [[a|e] d']; cbn in *; [done|left; congruence|by right..].
Qed.

Lemma inside_advance {A S} (p : sql Db A) (next : A → S) spec : inside p spec → inside (advance p next) spec.
Proof. apply (inside_map p (λ a, MkTxn (next a))). Qed.

Lemma inside_bind {A B} (p : sql Db A) (f : A → sql Db B) (post : A → Prop) first next :
  inside p first → safe p → (∀ n, readable n → readable (first n).2) →
  (∀ d a d', exec p d = (Ok a, d') → post a) → (∀ a, post a → inside (f a) next) →
  inside (p ≫= f) (and_then first next).
Proof.
  intros Hp Hs Hread Hpost Hf d Hd Hr. rewrite exec_bind. unfold and_then.
  pose proof (safe_exec p d Hs Hd) as Hd'. specialize (Hread _ Hr). specialize (Hpost d).
  destruct (Hp d Hd Hr) as [E|E]; destruct (exec p d) as [[a|e] d'] eqn:Ep; cbn in E, Hd'.
  - done.
  - left. cbn. congruence.
  - rewrite <-E in Hread |- *. cbn in Hread |- *. apply Hf; eauto.
  - right. by rewrite <-E.
Qed.

Lemma inside_atomically {A} (p : sql Db A) spec : inside p spec → refines (atomically p) (all_or_none spec).
Proof.
  intros Hp d Hd Hr. rewrite exec_atomically. unfold all_or_none.
  destruct (Hp d Hd Hr) as [E|E]; destruct (exec p d) as [[a|e] d'] eqn:Ep; cbn in E.
  - done.
  - left. cbn. congruence.
  - right. by rewrite <-E.
  - right. by rewrite <-E.
Qed.

(** *** What is written can be read back *)

Lemma readable_add_tenant now new n : moment now → readable n → readable (spec_create_tenant now new n).2.
Proof.
  intros Hnow [Ht Hu Hm Hg]. unfold spec_create_tenant. case_if; [done|]. cbn. split; cbn; try done.
  apply Forall_snoc; [done|]. unfold readable_tenant. cbn. eauto.
Qed.

Lemma readable_add_user now new n : moment now → readable n → readable (spec_create_user now new n).2.
Proof.
  intros Hnow [Ht Hu Hm Hg]. unfold spec_create_user. case_if; [done|]. cbn. split; cbn; try done.
  apply Forall_snoc; [done|]. unfold readable_user. cbn. split_and!; eauto.
Qed.

Lemma Forall_sub {A} (P Q : A → Prop) `{∀ a, Decision (Q a)} (l : list A) : Forall P l → Forall P (filter Q l).
Proof. apply Forall_filter_keep. Qed.

Lemma readable_drop_tenant t n : readable n → readable (drop_tenant t n).
Proof. intros [Ht Hu Hm Hg]. split; cbn; auto using Forall_sub. Qed.
Lemma readable_drop_user u n : readable n → readable (drop_user u n).
Proof. intros [Ht Hu Hm Hg]. split; cbn; auto using Forall_sub. Qed.

Lemma readable_set_passphrase u passphrase n : readable n → readable (spec_set_passphrase u passphrase n).2.
Proof.
  intros [Ht Hu Hm Hg]. unfold spec_set_passphrase. destruct (has_user _ _); [|done]. cbn. split; cbn; try done.
  apply Forall_update; [|done]. intros x Hx. case_decide; [|done]. destruct Hx as (? & _ & ? & ?).
  unfold readable_user. cbn. split_and!; eauto.
Qed.

Lemma readable_attach now m n : moment now → readable n → readable (spec_attach now m n).2.
Proof.
  intros Hnow [Ht Hu Hm Hg]. unfold spec_attach.
  destruct (has_tenant _ _); [|done]. destruct (has_user _ _); [|done]. cbn.
  split; cbn; try done. unfold put_member. case_bool_decide.
  - apply Forall_update; [|done]. intros x Hx. case_decide; [|done]. destruct Hx as (? & ? & ? & ?).
    unfold readable_member. cbn. split_and!; eauto.
  - apply Forall_snoc; [done|]. unfold readable_member. cbn. split_and!; eauto.
Qed.

Lemma readable_grant_call now g n :
  moment now → well_scoped g → readable n → readable (spec_grant now g n).2.
Proof.
  intros Hnow Hg [Ht Hu Hm Hgs]. unfold spec_grant. destruct (scope_known _ _); [|done].
  case_bool_decide; [done|]. cbn. split; cbn; try done. apply Forall_snoc; [done|].
  split; [|done]. exists g. done.
Qed.

Lemma readable_revoke g n : readable n → readable (spec_revoke g n).2.
Proof.
  intros [Ht Hu Hm Hgs]. unfold spec_revoke. destruct (scope_known _ _); [|done].
  case_bool_decide; [|done]. cbn. split; cbn; auto using Forall_sub.
Qed.

(** *** The workflows *)

Lemma insert_tenant_id now new d t d' :
  exec (insert_tenant now new) d = (Ok t, d') → tenant_id t = new_tenant_id new.
Proof.
  unfold insert_tenant. sql_run. destruct (insert_into_tenants _ _ _ _) as [[]|e]; sql_run.
  - by intros [= <- _].
  - by destruct (is_unique_violation e).
Qed.

Lemma insert_user_id now new d u d' :
  exec (insert_user now new) d = (Ok u, d') → user_id u = new_user_id new.
Proof.
  unfold insert_user. sql_run. destruct (insert_into_users _ _ _ _ _) as [[]|e]; sql_run.
  - by intros [= <- _].
  - by destruct (is_unique_violation e).
Qed.

Lemma advance_ok {A S} (p : sql Db A) (next : A → S) d t d' :
  exec (advance p next) d = (Ok t, d') → ∃ a, exec p d = (Ok a, d') ∧ t = MkTxn (next a).
Proof.
  unfold advance. rewrite exec_bind. destruct (exec p d) as [[a|e] d1]; sql_run; [|done].
  intros [= <- <-]. eauto.
Qed.

Lemma safe_advance {A S} (p : sql Db A) (next : A → S) : safe p → safe (advance p next).
Proof. intros Hp. unfold advance. apply safe_bind; [done|]. intros a. apply safe_pure. Qed.

Lemma inside_attach {S} now m (next : Membership → S) :
  inside (advance (_ ← insert_membership now m; pure (Ok m)) next) (spec_attach now m).
Proof.
  apply inside_advance, (inside_map (insert_membership now m) (λ _, m)), refines_inside, attach_refines.
Qed.

Lemma user_create_refines now tenant owner standing :
  moment now → refines (user_create now tenant owner standing) (spec_user_create now tenant owner standing).
Proof.
  intros Hnow. apply inside_atomically.
  eapply (inside_bind _ _ (λ t, tenant_id (UserCreate.ts_tenant (stage t)) = new_tenant_id tenant)).
  { apply inside_advance, refines_inside, create_tenant_refines. }
  { apply safe_advance, safe_insert_tenant. }
  { intros n. by apply readable_add_tenant. }
  { intros d t d' (a & Ha & ->)%advance_ok. by eapply insert_tenant_id. }
  intros t Ht.
  eapply (inside_bind _ _ (λ u, UserCreate.us_tenant (stage u) = UserCreate.ts_tenant (stage t) ∧
    user_id (UserCreate.us_owner (stage u)) = new_user_id owner)).
  { apply inside_advance, refines_inside, create_user_refines. }
  { apply safe_advance, safe_insert_user. }
  { intros n. by apply readable_add_user. }
  { intros d u d' (a & Ha & ->)%advance_ok. split; [done|]. by eapply insert_user_id. }
  intros u [Eu1 Eu2]. apply (inside_map _ (λ t : Txn UserCreate.Attached, MkTenantWithOwner _ _ _)).
  unfold UserCreate.attach. rewrite Eu1, Eu2, Ht. apply inside_attach.
Qed.

Lemma member_add_refines now user tenant standing :
  moment now → refines (member_add now user tenant standing) (spec_member_add now user tenant standing).
Proof.
  intros Hnow. apply inside_atomically.
  eapply (inside_bind _ _ (λ u, user_id (MemberAdd.us_user (stage u)) = new_user_id user)).
  { apply inside_advance, refines_inside, create_user_refines. }
  { apply safe_advance, safe_insert_user. }
  { intros n. by apply readable_add_user. }
  { intros d u d' (a & Ha & ->)%advance_ok. by eapply insert_user_id. }
  intros u Eu. apply (inside_map _ (λ t : Txn MemberAdd.Attached, MkUserWithMembership _ _)).
  unfold MemberAdd.attach. rewrite Eu. apply inside_attach.
Qed.

Lemma tenant_is d t o :
  sound d → named (tenants d) o →
  (o ≠ None ∧ (tn_row <$> tenant_named t d) = o) ↔ tenant_name (tenants d) o = Some (val t).
Proof.
  intros Hd Ho. destruct (tenant_named t d) as [e|] eqn:He; cbn.
  - rewrite <-(tenant_ref_is d t e o Hd He Ho). naive_solver.
  - split; [naive_solver|]. unfold tenant_name. destruct o as [i|]; [|done].
    intros (r & E & Hr)%fmap_Some. destruct (row_at_in _ _ _ E) as [Hin _].
    apply find_key in He. destruct He. rewrite Hr. by apply list_elem_of_fmap_2.
Qed.

Lemma user_is d u i :
  sound d → named (users d) (Some i) →
  (us_row <$> user_named u d) = Some i ↔ user_name (users d) (Some i) = Some (val u).
Proof.
  intros Hd Hi. destruct (user_named u d) as [e|] eqn:He; cbn.
  - rewrite <-(user_ref_is d u e (Some i) Hd He Hi). naive_solver.
  - split; [naive_solver|]. unfold user_name.
    intros (r & E & Hr)%fmap_Some. destruct (row_at_in _ _ _ E) as [Hin _].
    apply find_key in He. destruct He. rewrite Hr. by apply list_elem_of_fmap_2.
Qed.

Lemma member_is d user tenant m b :
  sound d → m ∈ memberships d → named_member (tenants d) (users d) m = Some b →
  of_tenant_and_user tenant user d (Some (mb_tenant m)) (mb_user m) ↔ is_member user tenant b.
Proof.
  intros Hd Hm Hb. unfold of_tenant_and_user, is_member. rewrite assoc by apply _.
  rewrite tenant_is, user_is; try done;
    [|exact (proj1 (Forall_forall _ _) (ref_member_user d Hd) m Hm)
     |exact (proj1 (Forall_forall _ _) (ref_member_tenant d Hd) m Hm)].
  unfold named_member in Hb. apply bind_Some in Hb as (tn & -> & Hb).
  apply bind_Some in Hb as (un & -> & [= <-]). cbn. split; intros [E1 E2]; by simplify_eq.
Qed.

Lemma holds_is d user tenant g b :
  sound d → g ∈ rows (grants d) → named_grant (tenants d) (users d) g = Some b →
  of_tenant_and_user tenant user d (gt_tenant g) (gt_user g) ↔ holds_in user tenant b.
Proof.
  intros Hd Hg Hb. unfold of_tenant_and_user, holds_in. rewrite assoc by apply _.
  rewrite tenant_is, user_is; try done;
    [|exact (proj1 (Forall_forall _ _) (ref_grant_user d Hd) g Hg)
     |exact (proj1 (Forall_forall _ _) (ref_grant_tenant d Hd) g Hg)].
  unfold named_grant in Hb. apply bind_Some in Hb as (un & -> & [= <-]). cbn.
  split; intros [E1 E2]; by simplify_eq.
Qed.

Lemma joined_nil {A B} (f : A → option B) (l : list A) (P : A → Prop) (Q : B → Prop)
    `{∀ a, Decision (P a), ∀ b, Decision (Q b)} :
  (∀ a, a ∈ l → ∃ b, f a = Some b) → (∀ a b, a ∈ l → f a = Some b → P a ↔ Q b) →
  filter P l = [] ↔ filter Q (omap f l) = [].
Proof.
  intros Hall HPQ. rewrite <-(omap_filter f f P Q l HPQ) by done. split; [by intros ->|].
  intros E. destruct (filter P l) as [|a k] eqn:Hf; [done|].
  assert (a ∈ filter P l) as [_ Ha]%list_elem_of_filter by (rewrite Hf; apply list_elem_of_here).
  destruct (Hall a Ha) as [b Hb]. cbn in E. by rewrite Hb in E.
Qed.

Lemma member_remove_refines user tenant : refines (member_remove user tenant) (spec_member_remove user tenant).
Proof.
  intros d Hd Hr. right. unfold member_remove, MemberRemove.detach, MemberRemove.revoke_grants,
    MemberRemove.commit, advance, delete_membership, delete_grants_in_tenant, spec_member_remove.
  pose proof (λ m b, member_is d user tenant m b Hd) as HP.
  pose proof (joined_nil _ _ _ _ (member_joins d Hd) HP) as Hnil.
  sql_run. cbn [delete_from_memberships]. sql_run.
  destruct (filter _ (memberships d)) as [|m l] eqn:Hf.
  { rewrite bool_decide_eq_true_2 by (by apply Hnil). done. }
  rewrite bool_decide_eq_false_2 by (intros Hc; by apply Hnil in Hc). cbn [head ok_or]. sql_run.
  assert (m ∈ memberships d) as Hm.
  { assert (m ∈ m :: l) as Hin by apply list_elem_of_here. rewrite <-Hf in Hin.
    by apply list_elem_of_filter in Hin as [_ ?]. }
  destruct (member_joins d Hd m Hm) as [b Hb].
  assert (∃ s, standing (mb_standing m) = Ok s) as [s ->].
  { assert (b ∈ n_members (named_of d)) as Hin by (apply list_elem_of_omap; eauto).
    destruct (proj1 (Forall_forall _ _) (read_members _ Hr) b Hin) as (_ & _ & (s & Hs) & _).
    unfold named_member in Hb. apply bind_Some in Hb as (tn & _ & Hb).
    apply bind_Some in Hb as (un & _ & [= <-]). cbn in Hs. exists s. rewrite Hs. destruct s; by_computation. }
  sql_run. cbn [delete_from_grants stage MemberRemove.de_membership member_user member_tenant]. sql_run.
  cbn [fmap result_fmap]. f_equal.
  set (d1 := with_memberships _ d).
  change (λ g, ¬ of_tenant_and_user tenant user d1 (gt_tenant g) (gt_user g))
    with (λ g, ¬ of_tenant_and_user tenant user d (gt_tenant g) (gt_user g)).
  unfold named_of, with_n_identity, d1, with_grants, with_memberships. cbn. f_equal.
  - apply omap_filter; [|done]. intros a c Ha Hc. by rewrite (HP a c Ha Hc).
  - apply omap_filter; [|done]. intros a c Ha Hc. by rewrite (holds_is d user tenant a c Hd Ha Hc).
Qed.
End compose.
