(* ===== verification/PluginStore.v ===== *)
(** * PluginStore: plugins, who owns them, and the rules that run them

    Models [crates/ip-storage/src/plugin.rs] and [sqlite/plugin.rs] with the workflows of
    [transaction/plugin_upload.rs] and [plugin_disown.rs].  Wasm is stored once under its
    checksum however many own it; a chain places only plugins it owns. *)
From S2P Require Import Prelude Text Ident Key Capability LimitCore PluginCore Account Sql Schema.
From S2P Require Import Integrity Named IdentityStore IdentitySpec Workflow.

(** ** plugin.rs *)

Record PluginRecord : Type := MkPluginRecord {
  plugin_row_id : Z;
  plugin_checksum : Checksum;
  plugin_kind : PluginKind;
  plugin_length : Z;
  plugin_created_at : Timestamp
}.
Record Plugin : Type := MkPlugin { plugin_record_of : PluginRecord; plugin_wasm : list Z }.

Inductive PluginOwner : Type := GlobalOwner | TenantOwner (tenant : TenantId).
#[export] Instance PluginOwner_eq_dec : EqDecision PluginOwner.
Proof. solve_decision. Defined.

Definition owner_tenant (o : PluginOwner) : option TenantId :=
  match o with GlobalOwner => None | TenantOwner tenant => Some tenant end.
Definition owner_of_scope (s : PluginScope) : PluginOwner :=
  match plugin_scope_tenant s with Some tenant => TenantOwner tenant | None => GlobalOwner end.

Record NewPlugin : Type := MkNewPlugin {
  new_plugin_kind : PluginKind; new_plugin_wasm : list Z; new_plugin_owner : PluginOwner
}.
Record PluginUploaded : Type := MkPluginUploaded { up_plugin : PluginRecord; up_owned_at : Timestamp }.
Record PluginDisowned : Type := MkPluginDisowned { dis_plugin : PluginRecord; dis_swept : bool }.

Section plugins.
Context `{Engine} `{Chrono} `{Crypto}.

(** [length(wasm)]. *)
Definition size_of (wasm : list Z) : Z := Z.of_nat (length wasm).

Definition plugin_record (p : PluginEntry) : result StorageError PluginRecord :=
  checksum ← stored (Checksum_from_hex (pl_checksum p));
  kind ← stored (kind_from_str (pl_kind p));
  size ← plugin_size (size_of (pl_wasm p));
  at_ ← stored (from_unix_seconds (pl_at p));
  Ok (MkPluginRecord (pl_row p) checksum kind size at_).

Definition plugin_hex (c : Checksum) : str := hex_encode (val c).

Definition plugin_called (c : Checksum) (d : Db) : option PluginEntry :=
  List.find (λ p, bool_decide (pl_checksum p = plugin_hex c)) (rows (plugins d)).

(** ** Writes over whichever connection they are given *)

(** [fetch_one] is a failure of the backend when there is no row. *)
Definition insert_wasm (now : Timestamp) (kind : PluginKind) (wasm : list Z) : sql Db PluginRecord :=
  let checksum := Checksum_of wasm in
  _ ← ask (insert_plugin_once (plugin_hex checksum) (kind_name kind) wasm now);
  row ← select (plugin_called checksum);
  row ← pure (ok_or Backend row);
  record ← pure (plugin_record row);
  if bool_decide (plugin_kind record ≠ kind) then pure (Err (Conflict EPlugin))
  else pure (Ok record).

Definition owner_row_id (owner : PluginOwner) : sql Db (option Z) :=
  match owner_tenant owner with
  | Some tenant => row ← tenant_row_id_of tenant; pure (Ok (Some row))
  | None => pure (Ok None)
  end.

Definition insert_owner (now : Timestamp) (plugin : PluginRecord) (owner : PluginOwner)
    : sql Db Timestamp :=
  tenant ← owner_row_id owner;
  _ ← ask (insert_owner_once (plugin_row_id plugin) tenant now);
  owned ← select (λ d, List.find (λ o, bool_decide (ow_plugin o = plugin_row_id plugin)
    && bool_decide (ow_tenant o = tenant)) (plugin_owners d));
  owned ← pure (ok_or Backend owned);
  pure (stored (from_unix_seconds (ow_at owned))).

Definition delete_owner (checksum : Checksum) (owner : PluginOwner) : sql Db PluginRecord :=
  tenant ← owner_row_id owner;
  row ← select (plugin_called checksum);
  row ← pure (ok_or (NotFound EPlugin) row);
  record ← pure (plugin_record row);
  in_use ← select (λ d, List.find (λ r, bool_decide (ru_plugin r = plugin_row_id record)
    && bool_decide (ru_tenant r = tenant)) (rows (plugin_rules d)));
  match in_use with
  | Some _ => pure (Err (InUse EPlugin))
  | None =>
      deleted ← ask (delete_from_plugin_owners
        (λ o, ow_plugin o = plugin_row_id record ∧ ow_tenant o = tenant));
      match deleted with
      | O => pure (Err (NotFound EPlugin))
      | S _ => pure (Ok record)
      end
  end.

(** [NOT EXISTS (SELECT 1 FROM plugin_owners WHERE plugin_row_id = ?)]. *)
Definition unowned (plugin : Z) (d : Db) (p : PluginEntry) : Prop :=
  pl_row p = plugin ∧ plugin ∉ ow_plugin <$> plugin_owners d.
#[export] Instance unowned_dec plugin d p : Decision (unowned plugin d p).
Proof using. unfold unowned. apply _. Defined.

Definition delete_unowned (plugin : PluginRecord) : sql Db bool :=
  done ← ask_or (λ e, if is_foreign_key_violation e then Err (InUse EPlugin) else Err Backend)
    (delete_from_plugins (unowned (plugin_row_id plugin)));
  pure (Ok (match done with O => false | S _ => true end)).
End plugins.

(** ** plugin_upload.rs *)
Module PluginUpload.
Inductive Begun : Type := MkBegun.
Record WasmStored : Type := MkWasmStored { ws_plugin : PluginRecord }.
Record Owned : Type := MkOwned { ow_plugin : PluginRecord; ow_owned_at : Timestamp }.

Section steps.
Context `{Engine} `{Chrono} `{Crypto} (now : Timestamp).

Definition new : Txn Begun := MkTxn MkBegun.

Definition store_wasm (t : Txn Begun) (kind : PluginKind) (wasm : list Z) : sql Db (Txn WasmStored) :=
  advance (insert_wasm now kind wasm) (λ plugin, MkWasmStored plugin).

Definition own (t : Txn WasmStored) (owner : PluginOwner) : sql Db (Txn Owned) :=
  let plugin := ws_plugin (stage t) in
  advance (insert_owner now plugin owner) (λ owned_at, MkOwned plugin owned_at).

Definition commit (t : Txn Owned) : sql Db PluginUploaded :=
  pure (Ok (MkPluginUploaded (ow_plugin (stage t)) (ow_owned_at (stage t)))).
End steps.
End PluginUpload.

(** ** plugin_disown.rs *)
Module PluginDisown.
Inductive Begun : Type := MkBegun.
Record Disowned : Type := MkDisowned { di_plugin : PluginRecord }.
Record Swept : Type := MkSwept { sw_plugin : PluginRecord; sw_swept : bool }.

Section steps.
Context `{Engine} `{Chrono} `{Crypto}.

Definition new : Txn Begun := MkTxn MkBegun.

Definition disown (t : Txn Begun) (checksum : Checksum) (owner : PluginOwner) : sql Db (Txn Disowned) :=
  advance (delete_owner checksum owner) (λ plugin, MkDisowned plugin).

Definition sweep (t : Txn Disowned) : sql Db (Txn Swept) :=
  let plugin := di_plugin (stage t) in
  advance (delete_unowned plugin) (λ swept, MkSwept plugin swept).

Definition commit (t : Txn Swept) : sql Db PluginDisowned :=
  pure (Ok (MkPluginDisowned (sw_plugin (stage t)) (sw_swept (stage t)))).
End steps.
End PluginDisown.

(** ** The plugin store *)
Section plugin_store.
Context `{Engine} `{Chrono} `{Crypto}.

Definition put_plugin (now : Timestamp) (new : NewPlugin) : sql Db PluginRecord :=
  uploaded ← atomically (
    t ← PluginUpload.store_wasm now PluginUpload.new (new_plugin_kind new) (new_plugin_wasm new);
    t ← PluginUpload.own now t (new_plugin_owner new);
    PluginUpload.commit t);
  pure (Ok (up_plugin uploaded)).

Definition read_plugin (checksum : Checksum) : sql Db (option Plugin) :=
  row ← select (plugin_called checksum);
  pure (transpose ((λ p, (λ r, MkPlugin r (pl_wasm p)) <$> plugin_record p) <$> row)).

Definition read_plugins : sql Db (list PluginRecord) :=
  found ← select (λ d, sort_by (λ a b, pl_row a <=? pl_row b) (rows (plugins d)));
  pure (try_map plugin_record found).

Definition disown_plugin (checksum : Checksum) (owner : PluginOwner) : sql Db bool :=
  disowned ← atomically (
    t ← PluginDisown.disown PluginDisown.new checksum owner;
    t ← PluginDisown.sweep t;
    PluginDisown.commit t);
  pure (Ok (dis_swept disowned)).

(** ** The rule store *)

(** The row ids and the api of the scope a rule is placed in. *)
Definition rule_scope_rows (s : PluginScope) : sql Db (option Z * option Z * option ApiId) :=
  match s with
  | GlobalScope => pure (Ok (None, None, None))
  | TenantScope tenant user api =>
      t ← tenant_row_id_of tenant;
      u ← match user with
          | Some user => row ← user_row_id_of user; pure (Ok (Some row))
          | None => pure (Ok None)
          end;
      pure (Ok (Some t, u, api))
  end.

(** The plugin a chain owns under this checksum: [plugins p JOIN plugin_owners o]. *)
Definition owned_plugin (checksum : Checksum) (tenant : option Z) (d : Db) : option PluginEntry :=
  List.find (λ p, bool_decide (pl_checksum p = plugin_hex checksum)
    && existsb (λ o, bool_decide (ow_plugin o = pl_row p) && bool_decide (ow_tenant o = tenant))
         (plugin_owners d)) (rows (plugins d)).

Definition put_rule (now : Timestamp) (rule : NewPluginRule) : sql Db PluginRule :=
  '(tenant, user, api) ← rule_scope_rows (new_scope rule);
  plugin ← select (owned_plugin (new_checksum rule) tenant);
  plugin ← pure (ok_or (NotFound EPlugin) plugin);
  kind ← pure (stored (kind_from_str (pl_kind plugin)));
  _ ← ask_or (λ e, if is_unique_violation e then Err (Conflict EPluginRule) else Err Backend)
    (insert_into_plugin_rules (pl_row plugin) tenant user (val <$> api) (kind_name kind)
      (val (new_order rule)) now);
  pure (Ok (with_kind rule kind)).

Definition remove_rule (tenant : option TenantId) (kind : PluginKind) (order : PluginOrder)
    : sql Db unit :=
  deleted ← ask (match tenant with
    | Some tenant => λ d, delete_from_plugin_rules (λ r,
        (ru_tenant r ≠ None ∧ (tn_row <$> tenant_named tenant d) = ru_tenant r) ∧
        ru_kind r = kind_name kind ∧ ru_position r = val order) d
    | None => delete_from_plugin_rules (λ r,
        ru_tenant r = None ∧ ru_kind r = kind_name kind ∧ ru_position r = val order)
    end);
  pure (some_or (NotFound EPluginRule) deleted).

(** [ORDER BY r.kind, r.position DESC]. *)
Definition rule_order_le (a b : NamedRule) : bool :=
  if bool_decide (nl_kind a = nl_kind b) then nl_position b <=? nl_position a
  else lex_leb (nl_kind a) (nl_kind b).

(** The rows of [plugin_rules r JOIN plugins p LEFT JOIN tenants t LEFT JOIN users u]. *)
Definition rules_joined (d : Db) : list NamedRule :=
  omap (named_rule (tenants d) (users d) (plugins d)) (rows (plugin_rules d)).

(** [plugin_rule], which is [Account.rule_of_row]. *)
Definition rule_read (r : NamedRule) : result StorageError PluginRule :=
  rule_of_row (MkRuleRow (nl_plugin r) (nl_kind r) (nl_position r) (nl_tenant r) (nl_user r)
    (nl_api r)).

Definition rules_for_tenant (tenant : TenantId) : sql Db (list PluginRule) :=
  found ← select (λ d, sort_by rule_order_le
    (filter (λ r, nl_tenant r = None ∨ nl_tenant r = Some (val tenant)) (rules_joined d)));
  pure (try_map rule_read found).

Definition read_rules : sql Db (list PluginRule) :=
  found ← select (λ d, sort_by rule_order_le (rules_joined d));
  pure (try_map rule_read found).
End plugin_store.
