(* ===== verification/RouteStore.v ===== *)
(** * RouteStore: routing rules and the endpoints behind them

    Models [crates/ip-storage/src/sqlite/route.rs]: a rule is one row and a row for each
    endpoint behind it, replaced together in one transaction, and read back by a join whose
    rows are gathered rule by rule. *)
From S2P Require Import Prelude Text Ident Key Capability Route LimitCore PluginCore Account Sql.
From S2P Require Import Schema Integrity Named IdentityStore IdentitySpec Workflow.

Section routes.
Context `{Engine} `{Chrono}.

(** The columns of an endpoint. *)
Definition endpoint_columns (e : Endpoint) : str * str * Z * str :=
  (protocol_name (protocol e), val (host e), val (port e), val (path e)).

(** The [for] loop over [rule.target.weighted()], from one position on. *)
Fixpoint insert_targets (route position : Z) (l : list Weighted) : sql Db unit :=
  match l with
  | [] => pure (Ok tt)
  | w :: l =>
      let e := endpoint w in
      _ ← ask (insert_into_route_targets route position (protocol_name (protocol e))
        (val (host e)) (val (port e)) (val (path e)) (val (weight w)));
      insert_targets route (position + 1) l
  end.

Definition put_route (now : Timestamp) (rule : RouteRule) : sql Db unit :=
  let key := key_endpoint (rule_key rule) in
  atomically (
    route ← ask (upsert_route (val (rule_api rule)) (protocol_name (protocol key))
      (val (host key)) (val (port key)) (val (path key)) (strategy_name (rule_strategy rule)) now);
    _ ← ask (delete_from_route_targets (λ t, tg_route t = route));
    insert_targets route 0 (val (rule_target rule))).

Definition remove_route (key : RouteKey) : sql Db unit :=
  deleted ← ask (delete_from_routes (λ r, route_key r = endpoint_columns (key_endpoint key)));
  pure (some_or (NotFound ERoute) deleted).

(** The rows of [routes r JOIN route_targets t ON t.route_row_id = r.row_id]. *)
Definition routes_joined (d : Db) : list (RouteEntry * TargetEntry) :=
  rows (routes d) ≫= λ r, pair r <$> filter (λ t, tg_route t = rt_row r) (rows (route_targets d)).

Definition target_of (t : TargetEntry) : result StorageError Weighted :=
  e ← stored (endpoint_from_parts (tg_protocol t) (tg_host t) (tg_port t) (tg_path t));
  w ← map_err (λ _, Malformed ERoute) (refine check_u32 (tg_weight t));
  Ok (MkWeighted e w).

Definition strategy_of (r : RouteEntry) : result StorageError Strategy :=
  stored (strategy_named (rt_strategy r)).

Definition by_position (a b : RouteEntry * TargetEntry) : bool := tg_position a.2 <=? tg_position b.2.

Definition route_of_rows (key : RouteKey) (found : list (RouteEntry * TargetEntry))
    : result StorageError (option RouteRule) :=
  match found with
  | [] => Ok None
  | first :: _ =>
      api ← stored (new_ident (rt_api first.1));
      targets ← try_map (λ row, target_of row.2) found;
      target ← stored (from_weighted targets);
      strategy ← strategy_of first.1;
      Ok (Some (MkRouteRule api key target strategy))
  end.

Definition read_route (key : RouteKey) : sql Db (option RouteRule) :=
  found ← select (λ d, sort_by by_position
    (filter (λ row, route_key row.1 = endpoint_columns (key_endpoint key)) (routes_joined d)));
  pure (route_of_rows key found).

(** [ORDER BY r.key_host, r.key_path, r.key_protocol, r.key_port, t.position]. *)
Definition route_le (a b : RouteEntry) : bool :=
  if bool_decide (rt_host a = rt_host b) then
    if bool_decide (rt_path a = rt_path b) then
      if bool_decide (rt_protocol a = rt_protocol b) then rt_port a <=? rt_port b
      else lex_leb (rt_protocol a) (rt_protocol b)
    else lex_leb (rt_path a) (rt_path b)
  else lex_leb (rt_host a) (rt_host b).
Definition joined_le (a b : RouteEntry * TargetEntry) : bool :=
  if bool_decide (route_key a.1 = route_key b.1) then by_position a b else route_le a.1 b.1.

(** One turn of the loop that gathers the rules: [rules] and [current]. *)
Definition gather (row : RouteEntry * TargetEntry) (acc : list RouteRule * option Z)
    : result StorageError (list RouteRule * option Z) :=
  let '(rules, current) := acc in
  endpoint ← target_of row.2;
  match (if bool_decide (current = Some (rt_row row.1)) then last rules else None) with
  | Some rule =>
      target ← stored (from_weighted (val (rule_target rule) ++ [endpoint]));
      Ok (removelast rules ++ [MkRouteRule (rule_api rule) (rule_key rule) target
            (rule_strategy rule)], current)
  | None =>
      api ← stored (new_ident (rt_api row.1));
      key ← stored (endpoint_from_parts (rt_protocol row.1) (rt_host row.1) (rt_port row.1) (rt_path row.1));
      target ← stored (from_weighted [endpoint]);
      strategy ← strategy_of row.1;
      Ok (rules ++ [MkRouteRule api (MkRouteKey key) target strategy], Some (rt_row row.1))
  end.

Fixpoint gather_all (found : list (RouteEntry * TargetEntry)) (acc : list RouteRule * option Z)
    : result StorageError (list RouteRule) :=
  match found with
  | [] => Ok acc.1
  | row :: found => acc ← gather row acc; gather_all found acc
  end.

Definition read_routes : sql Db (list RouteRule) :=
  found ← select (λ d, sort_by joined_le (routes_joined d));
  pure (gather_all found ([], None)).
End routes.
