(* ===== verification/LimitStore.v ===== *)
(** * LimitStore: limits, recorded usage, and the rules as of one revision

    Models [crates/ip-storage/src/sqlite/limit.rs], [usage.rs] and [revision.rs].  Usage is
    held by name, so what a tenant spent outlives the tenant. *)
From S2P Require Import Prelude Text Ident Key Capability Route LimitCore PluginCore Account Auth.
From S2P Require Import Limiter Recorder Sql Schema Integrity Named IdentityStore IdentitySpec.
From S2P Require Import Workflow PluginStore RouteStore.

(** ** limit.rs *)

Record NewLimit : Type := MkNewLimit {
  nl_scope : LimitScope; nl_counted : Counted; nl_period_of : Period; nl_allowed : Allowance
}.

Section limits.
Context `{Engine} `{Chrono}.

Definition limit_scope_rows (s : LimitScope) : sql Db (Z * option Z) :=
  tenant ← tenant_row_id_of (limit_tenant s);
  user ← match limit_user s with
         | Some user => row ← user_row_id_of user; pure (Ok (Some row))
         | None => pure (Ok None)
         end;
  pure (Ok (tenant, user)).

(** [i64::try_from(allowance).unwrap_or(i64::MAX)]. *)
Definition stored_allowance (a : Allowance) : Z := Z.min (val a) i64_max.

Definition put_limit (now : Timestamp) (l : NewLimit) : sql Db Limit :=
  '(tenant, user) ← limit_scope_rows (nl_scope l);
  _ ← ask (upsert_limit tenant user (val <$> limit_api (nl_scope l)) (counted_name (nl_counted l))
    (period_name (nl_period_of l)) (stored_allowance (nl_allowed l)) now);
  pure (Ok (MkLimit (nl_scope l) (nl_counted l) (nl_period_of l) (nl_allowed l) now)).

Definition remove_limit (s : LimitScope) (c : Counted) (p : Period) : sql Db unit :=
  '(tenant, user) ← limit_scope_rows s;
  removed ← ask (delete_from_limits (λ l,
    limit_key l = (tenant, or_zero user, or_empty (val <$> limit_api s), counted_name c, period_name p)));
  pure (some_or (NotFound ELimit) removed).

(** [ORDER BY l.created_at DESC, l.row_id DESC]. *)
Definition newest_first {R} (at_ row : R → Z) (a b : R) : bool :=
  if at_ a =? at_ b then row b <=? row a else at_ b <=? at_ a.

(** The rows of [limits l JOIN tenants t LEFT JOIN users u], with the columns they are sorted by. *)
Definition limits_joined (d : Db) : list (LimitEntry * NamedLimit) :=
  omap (λ l, pair l <$> named_limit (tenants d) (users d) l) (rows (limits d)).

(** [set]: a limit rebuilt from its row. *)
Definition limit_read (l : NamedLimit) : result StorageError Limit :=
  tenant ← stored (new_ident (nk_tenant l));
  user ← stored (transpose (new_ident <$> nk_user l));
  api ← stored (transpose (new_ident <$> nk_api l));
  counted ← stored (counted_named (nk_counted l));
  period ← stored (period_named (nk_period l));
  allowed ← ok_or (Malformed ELimit) (try_unsigned u64_max (nk_allowance l));
  allowance ← stored (new_allowance allowed);
  at_ ← stored (from_unix_seconds (nk_at l));
  Ok (MkLimit (MkScope tenant user api) counted period allowance at_).

Definition limits_newest_first (d : Db) : list (LimitEntry * NamedLimit) :=
  sort_by (newest_first (λ r, li_at r.1) (λ r, li_row r.1)) (limits_joined d).

Definition read_limits : sql Db (list Limit) :=
  found ← select limits_newest_first;
  pure (try_map (λ r, limit_read r.2) found).
End limits.

(** ** usage.rs *)

Record Usage : Type := MkUsage { usage_row : Z; usage_new : NewUsage; usage_at : Timestamp }.

Section usage.
Context `{Engine} `{Chrono} `{Crypto}.

Definition usage_entry (u : NewUsage) (at_ : Timestamp) (row : Z) : UsageEntry :=
  MkUsageEntry row (hex_encode (val (u_trace u))) (val <$> u_turn u) (val (u_tenant u))
    (val (u_user u)) (val (u_api u)) (val <$> u_model u)
    (val (tokens_input (u_tokens u))) (val (tokens_output (u_tokens u)))
    (served_name (u_served u))
    ((λ r, val (replica_host r)) <$> u_served_by u) ((λ r, val (replica_port r)) <$> u_served_by u)
    (u_latency u) at_.

Definition record_usage (now : Timestamp) (u : NewUsage) : sql Db Usage :=
  row ← ask (insert_into_usage (usage_entry u now));
  at_ ← pure (stored (from_unix_seconds (ug_at row)));
  pure (Ok (MkUsage (ug_row row) u at_)).

(** Which endpoint answered; half of one is refused. *)
Definition served_by_of (host : option str) (port : option Z) : result StorageError (option Replica) :=
  match host, port with
  | Some host, Some port =>
      h ← stored (new_host host);
      p ← stored (port_of_i64 port);
      Ok (Some (MkReplica h p))
  | None, None => Ok None
  | _, _ => Err (Malformed EUsage)
  end.

Definition recorded (r : UsageEntry) : result StorageError Usage :=
  trace ← map_err (λ _, Malformed EUsage) (TraceId_from_hex (ug_trace r));
  turn ← stored (transpose (new_ident <$> ug_turn r));
  tenant ← stored (new_ident (ug_tenant r));
  user ← stored (new_ident (ug_user r));
  api ← stored (new_ident (ug_api r));
  model ← stored (transpose (new_model_name <$> ug_model r));
  input ← token_count (ug_input r);
  output ← token_count (ug_output r);
  source ← served (ug_served r);
  by_ ← served_by_of (ug_host r) (ug_port r);
  waited ← latency (ug_latency r);
  at_ ← stored (from_unix_seconds (ug_at r));
  Ok (MkUsage (ug_row r)
    (MkNewUsage trace turn tenant user api model (MkTokens input output) source by_ waited) at_).

Definition read_usage (row : Z) : sql Db (option Usage) :=
  found ← select (λ d, row_at (usage d) row);
  pure (transpose (recorded <$> found)).

(** [(?2 IS NULL OR tenant_id = ?2) AND ...]. *)
Definition usage_matches (f : UsageFilter) (r : UsageEntry) : Prop :=
  match filter_tenant f with Some t => ug_tenant r = val t | None => True end ∧
  match filter_user f with Some u => ug_user r = val u | None => True end ∧
  match filter_api f with Some a => ug_api r = val a | None => True end.
#[export] Instance usage_matches_dec f r : Decision (usage_matches f r).
Proof using.
  unfold usage_matches. repeat apply and_dec; by destruct (_ : option _); apply _.
Defined.

(** [u64::try_from(spent).unwrap_or(0)] of the sum or the count. *)
Definition spent_of (f : UsageFilter) (c : Counted) (moment : Timestamp) (l : list UsageEntry) : Z :=
  let found := filter (λ r, moment ≤ ug_at r ∧ usage_matches f r) l in
  default 0 (try_unsigned u64_max
    (match c with
     | Tokens => zsum ((λ r, ug_input r + ug_output r) <$> found)
     | Requests => Z.of_nat (length found)
     end)).

Definition spent (f : UsageFilter) (c : Counted) (moment : Timestamp) : sql Db Z :=
  select (λ d, spent_of f c moment (rows (usage d))).

Definition sweep_usage (moment : Timestamp) : sql Db Z :=
  swept ← ask (delete_from_usage (λ r, ug_at r < moment));
  pure (Ok (Z.of_nat swept)).
End usage.

(** ** revision.rs *)

Record RuleSet : Type := MkRuleSet {
  set_revision : Z; set_routes : list RouteRule; set_rules : list PluginRule; set_limits : list Limit
}.

Section revision.
Context `{Engine} `{Chrono} `{Crypto}.

Definition read_revision : sql Db Z :=
  r ← select revision;
  pure (ok_or (Malformed ERuleRevision) (try_unsigned u64_max r)).

Definition rule_revision : sql Db Z := read_revision.

Definition rule_set : sql Db RuleSet :=
  atomically (
    r ← read_revision;
    routes ← read_routes;
    rules ← read_rules;
    limits ← read_limits;
    pure (Ok (MkRuleSet r routes rules limits))).
End revision.
