(* ===== verification/ListStore.v ===== *)
(** * ListStore: lists a page at a time, newest first

    Models [crates/ip-storage/src/list.rs] and [sqlite/list.rs]. *)
From S2P Require Import Prelude Text Ident Key Capability Route LimitCore PluginCore Account Auth.
From S2P Require Import Limiter Recorder Sql Schema Integrity Named IdentityStore IdentitySpec.
From S2P Require Import Workflow PluginStore RouteStore LimitStore.

(** ** list.rs *)

Definition DEFAULT_PAGE_LIMIT : Z := 20.
Definition MAX_PAGE_LIMIT : Z := 100.

(** A page is only made by [Page::new], which brings the limit inside. *)
Record Page : Type := MkPage { page_limit : Z; page_offset : Z; page_after : option Timestamp }.

Definition new_page (limit offset : Z) (after : option Timestamp) : Page :=
  MkPage (Z.max 1 (Z.min limit MAX_PAGE_LIMIT)) offset after.
Definition default_page : Page := new_page DEFAULT_PAGE_LIMIT 0 None.
Definition after_seconds (p : Page) : Z := default i64_min (page_after p).

Record Listed (T : Type) : Type := MkListed { item : T; listed_at : Timestamp }.
Arguments MkListed {T} _ _.
Arguments item {T} _.
Arguments listed_at {T} _.

(** [WHERE created_at > ? ORDER BY created_at DESC, row DESC LIMIT ? OFFSET ?]. *)
Definition page_of {R} (p : Page) (at_ row : R → Z) (l : list R) : list R :=
  take (Z.to_nat (page_limit p)) (drop (Z.to_nat (page_offset p))
    (sort_by (newest_first at_ row) (filter (λ r, after_seconds p < at_ r) l))).

Section lists.
Context `{Engine} `{Chrono} `{Crypto}.

(** [created_at(row)] beside what the row holds. *)
Definition listed {T} (at_ : Z) (r : result StorageError T) : result StorageError (Listed T) :=
  x ← r; t ← stored (from_unix_seconds at_); Ok (MkListed x t).

Definition list_members (tenant : TenantId) (page : Page) : sql Db (list (Listed Membership)) :=
  found ← select (λ d, page_of page (λ r, mb_at r.1) (λ r, mb_user r.1)
    (filter (λ r, nm_tenant r.2 = val tenant)
      (omap (λ m, pair m <$> named_member (tenants d) (users d) m) (memberships d))));
  pure (try_map (λ r, listed (mb_at r.1)
    (u ← stored (new_ident (nm_user r.2));
     s ← Account.standing (nm_standing r.2);
     Ok (MkMembership u tenant s))) found).

(** [listed_grant]: the tenant is the one the list was asked for. *)
Definition listed_grant (user : UserId) (tenant : option str) (g : GrantEntry)
    : result StorageError (Listed Grant) :=
  listed (gt_at g) (grant_of_row user (MkGrantRow tenant (gt_api g) (gt_capability g))).

Definition list_tenant_grants (user : UserId) (tenant : TenantId) (page : Page)
    : sql Db (list (Listed Grant)) :=
  found ← select (λ d, page_of page (λ r, gt_at r.1) (λ r, gt_row r.1)
    (filter (λ r, ng_user r.2 = val user ∧ ng_tenant r.2 = Some (val tenant))
      (omap (λ g, pair g <$> named_grant (tenants d) (users d) g) (rows (grants d)))));
  pure (try_map (λ r, listed_grant user (Some (val tenant)) r.1) found).

Definition list_account_grants (user : UserId) (page : Page) : sql Db (list (Listed Grant)) :=
  found ← select (λ d, page_of page (λ r, gt_at r.1) (λ r, gt_row r.1)
    (filter (λ r, ng_user r.2 = val user ∧ gt_tenant r.1 = None)
      (omap (λ g, pair g <$> named_grant (tenants d) (users d) g) (rows (grants d)))));
  pure (try_map (λ r, listed_grant user None r.1) found).

(** The page is of routes; the endpoints behind them are joined afterwards. *)
Definition listed_le (a b : RouteEntry * TargetEntry) : bool :=
  if bool_decide (rt_row a.1 = rt_row b.1) then by_position a b
  else newest_first rt_at rt_row a.1 b.1.

Definition gather_listed (row : RouteEntry * TargetEntry)
    (acc : list (Listed RouteRule) * option Z)
    : result StorageError (list (Listed RouteRule) * option Z) :=
  let '(rules, current) := acc in
  target ← target_of row.2;
  match (if bool_decide (current = Some (rt_row row.1)) then last rules else None) with
  | Some rule =>
      let held := item rule in
      joined ← stored (from_weighted (val (rule_target held) ++ [target]));
      Ok (removelast rules ++ [MkListed (MkRouteRule (rule_api held) (rule_key held) joined
            (rule_strategy held)) (listed_at rule)], current)
  | None =>
      api ← stored (new_ident (rt_api row.1));
      key ← stored (endpoint_from_parts (rt_protocol row.1) (rt_host row.1) (rt_port row.1)
        (rt_path row.1));
      alone ← stored (from_weighted [target]);
      strategy ← strategy_of row.1;
      at_ ← stored (from_unix_seconds (rt_at row.1));
      Ok (rules ++ [MkListed (MkRouteRule api (MkRouteKey key) alone strategy) at_],
          Some (rt_row row.1))
  end.

Fixpoint gather_all_listed (found : list (RouteEntry * TargetEntry))
    (acc : list (Listed RouteRule) * option Z) : result StorageError (list (Listed RouteRule)) :=
  match found with
  | [] => Ok acc.1
  | row :: found => acc ← gather_listed row acc; gather_all_listed found acc
  end.

Definition list_routes (page : Page) : sql Db (list (Listed RouteRule)) :=
  found ← select (λ d, sort_by listed_le (page_of page rt_at rt_row (rows (routes d)) ≫= λ r,
    pair r <$> filter (λ t, tg_route t = rt_row r) (rows (route_targets d))));
  pure (gather_all_listed found ([], None)).

(** The record carries the owner's date, [o.created_at]. *)
Definition list_plugins (owner : PluginOwner) (page : Page) : sql Db (list (Listed PluginRecord)) :=
  tenant ← owner_row_id owner;
  found ← select (λ d, page_of page (λ r, ow_at r.1) (λ r, pl_row r.2)
    (filter (λ r, ow_tenant r.1 = tenant)
      (omap (λ o, pair o <$> row_at (plugins d) (ow_plugin o)) (plugin_owners d))));
  pure (try_map (λ r,
    let p := r.2 in
    record ← plugin_record (MkPluginEntry (pl_row p) (pl_checksum p) (pl_kind p) (pl_wasm p) (ow_at r.1));
    Ok (MkListed record (plugin_created_at record))) found).

Definition list_limits (tenant : option TenantId) (page : Page) : sql Db (list Limit) :=
  found ← select (λ d, page_of page (λ r, li_at r.1) (λ r, li_row r.1)
    (filter (λ r, match tenant with Some t => bool_decide (nk_tenant r.2 = val t) | None => true end = true)
      (limits_joined d)));
  pure (try_map (λ r, limit_read r.2) found).

Definition list_usage (f : UsageFilter) (page : Page) : sql Db (list Usage) :=
  found ← select (λ d, page_of page ug_at ug_row (filter (usage_matches f) (rows (usage d))));
  pure (try_map recorded found).

Definition list_rules (tenant : option TenantId) (page : Page) : sql Db (list (Listed PluginRule)) :=
  found ← select (λ d, page_of page (λ r, ru_at r.1) (λ r, ru_row r.1)
    (filter (λ r, nl_tenant r.2 = val <$> tenant)
      (omap (λ r, pair r <$> named_rule (tenants d) (users d) (plugins d) r) (rows (plugin_rules d)))));
  pure (try_map (λ r, listed (ru_at r.1) (rule_read r.2)) found).
End lists.
