(* ===== verification/Store.v ===== *)
(** * Store: every write the stores offer, alone and together

    [Call] is one call of a write method of the traits of [crates/ip-storage/src] with its
    arguments, [perform] the program that answers it.  The theorems are about any sequence of
    calls, about any number of connections whose statements interleave, and about runs in which
    any statement fails. *)
From S2P Require Import Prelude Text Ident Key Capability Route LimitCore PluginCore Account Auth.
From S2P Require Import Limiter Recorder Sql Schema Integrity Named IdentityStore IdentitySpec.
From S2P Require Import Workflow PluginStore RouteStore LimitStore ListStore.

Inductive Call : Type :=
  | CreateTenant (now : Timestamp) (new : NewTenant)
  | DeleteTenant (id : TenantId)
  | CreateUser (now : Timestamp) (new : NewUser)
  | SetPassphrase (id : UserId) (passphrase : PassphraseHash)
  | DeleteUser (id : UserId)
  | Attach (now : Timestamp) (m : Membership)
  | GrantTo (now : Timestamp) (g : Grant)
  | RevokeFrom (g : Grant)
  | CreateTenantWithOwner (now : Timestamp) (tenant : NewTenant) (owner : NewUser)
      (standing : Standing)
  | AddMember (now : Timestamp) (user : NewUser) (tenant : TenantId) (standing : Standing)
  | RemoveMember (user : UserId) (tenant : TenantId)
  | PutPlugin (now : Timestamp) (new : NewPlugin)
  | DisownPlugin (checksum : Checksum) (owner : PluginOwner)
  | PutRule (now : Timestamp) (rule : NewPluginRule)
  | RemoveRule (tenant : option TenantId) (kind : PluginKind) (order : PluginOrder)
  | PutRoute (now : Timestamp) (rule : RouteRule)
  | RemoveRoute (key : RouteKey)
  | PutLimit (now : Timestamp) (limit : NewLimit)
  | RemoveLimit (scope : LimitScope) (counted : Counted) (period : Period)
  | RecordUsage (now : Timestamp) (used : NewUsage)
  | SweepUsage (moment : Timestamp).

(** What a write statement that was carried out left the database as. *)
Ltac aside :=
  repeat match goal with
  | Hs : (if ?b then _ else _) = Ok _ |- _ => destruct b eqn:?; try discriminate Hs
  | Hs : match List.find ?p ?l with _ => _ end = Ok _ |- _ => destruct (List.find p l)
  | Hs : mbind _ (append _ _) = Ok _ |- _ =>
      apply bind_ok in Hs as ([? ?] & _ & Hs); cbv beta iota in Hs
  | Hs : Ok (_, _) = Ok (_, _) |- _ => injection Hs as _ <-
  end; fields.

Section store.
Context `{Engine} `{Chrono} `{Crypto}.

(** A program run for its effect. *)
Definition done {A} (p : sql Db A) : sql Db unit := _ ← p; pure (Ok tt).

Definition perform (c : Call) : sql Db unit :=
  match c with
  | CreateTenant now new => done (create_tenant now new)
  | DeleteTenant id => done (delete_tenant id)
  | CreateUser now new => done (create_user now new)
  | SetPassphrase id passphrase => done (set_passphrase id passphrase)
  | DeleteUser id => done (delete_user id)
  | Attach now m => done (attach now m)
  | GrantTo now g => done (grant now g)
  | RevokeFrom g => done (revoke g)
  | CreateTenantWithOwner now tenant owner standing => done (user_create now tenant owner standing)
  | AddMember now user tenant standing => done (member_add now user tenant standing)
  | RemoveMember user tenant => done (member_remove user tenant)
  | PutPlugin now new => done (put_plugin now new)
  | DisownPlugin checksum owner => done (disown_plugin checksum owner)
  | PutRule now rule => done (put_rule now rule)
  | RemoveRule tenant kind order => done (remove_rule tenant kind order)
  | PutRoute now rule => done (put_route now rule)
  | RemoveRoute key => done (remove_route key)
  | PutLimit now limit => done (put_limit now limit)
  | RemoveLimit scope counted period => done (remove_limit scope counted period)
  | RecordUsage now used => done (record_usage now used)
  | SweepUsage moment => done (sweep_usage moment)
  end.

(** ** Every call obeys whatever every write statement obeys *)

(** What the types of the code promise of the arguments of a call: a moment the calendar holds,
    a grant [Grant::new] would take, a wasm of a size a [u64] can say, a latency of 32 bits. *)
Definition call_at (c : Call) : option Timestamp :=
  match c with
  | CreateTenant now _ | CreateUser now _ | Attach now _ | GrantTo now _
  | CreateTenantWithOwner now _ _ _ | AddMember now _ _ _ | PutPlugin now _ | PutRule now _
  | PutRoute now _ | PutLimit now _ | RecordUsage now _ => Some now
  | _ => None
  end.
Definition admissible (c : Call) : Prop :=
  match call_at c with Some now => moment now | None => True end ∧
  match c with
  | GrantTo _ g => well_scoped g
  | PutPlugin _ new => size_of (new_plugin_wasm new) ≤ u64_max
  | RecordUsage _ used => is_u32 (u_latency used)
  | _ => True
  end.

(** The calls on who is who: tenants, accounts, memberships and grants. *)
Definition on_identity (c : Call) : Prop :=
  match c with
  | CreateTenant _ _ | DeleteTenant _ | CreateUser _ _ | SetPassphrase _ _ | DeleteUser _ | Attach _ _
  | GrantTo _ _ | RevokeFrom _ | CreateTenantWithOwner _ _ _ _ | AddMember _ _ _ _ | RemoveMember _ _ => True
  | _ => False
  end.

(** The calls that place a rule on a chain, or take a plugin from one. *)
Definition on_chain (c : Call) : Prop :=
  match c with DisownPlugin _ _ | PutRule _ _ => True | _ => False end.

Section obeys.
Context (R : Db → Db → Prop) `{!PreOrder R}.

(** Whether the promises above are made, and whether the two writes that only a call on a
    chain of plugins sends, and those only a call on who is who sends, are among those allowed. *)
Context (promised chains identity : Prop).

(** A statement whose every answer is a change [R] allows. *)
Definition allowed {X} (s : statement X) : Prop := ∀ d x d', s d = Ok (x, d') → R d d'.

(** The writes the stores send, with the arguments they send them with. *)
Record allowed_writes : Prop := MkAllowed {
  al_insert_tenant : identity → ∀ (id : TenantId) (key : TnKey) at_,
    (promised → moment at_) → allowed (insert_into_tenants (val id) (val key) at_);
  al_delete_tenants : identity → ∀ id : TenantId, allowed (delete_from_tenants (λ t, tn_id t = val id));
  al_insert_user : identity → ∀ (id : UserId) (passphrase : PassphraseHash) kind at_,
    (promised → moment at_) →
    allowed (insert_into_users (val id) (val passphrase) (account_kind_name kind) at_);
  al_passphrase : identity → ∀ (id : UserId) (passphrase : PassphraseHash),
    allowed (update_passphrases (λ u, us_id u = val id) (val passphrase));
  al_delete_users : identity → ∀ id : UserId, allowed (delete_from_users (λ u, us_id u = val id));
  al_membership : identity → ∀ tenant user standing at_,
    (promised → moment at_) →
    allowed (upsert_membership tenant user (standing_name standing) at_);
  al_delete_members : identity → ∀ P `{∀ r, Decision (P r)}, allowed (delete_from_memberships P);
  al_insert_grant : identity → ∀ user (tenant : option Z) (g : Grant) at_,
    (is_Some tenant ↔ is_Some (scope_tenant (grant_scope g))) →
    (promised → moment at_ ∧ well_scoped g) →
    allowed (insert_into_grants user tenant (val <$> scope_api (grant_scope g))
      (capability_name (grant_capability g)) at_);
  al_delete_grants : identity → ∀ P `{∀ r, Decision (P r)}, allowed (delete_from_grants P);
  al_route : ∀ (api : ApiId) (key : Endpoint) strategy at_,
    (promised → moment at_) →
    allowed (upsert_route (val api) (protocol_name (protocol key)) (val (host key))
      (val (port key)) (val (path key)) (strategy_name strategy) at_);
  al_delete_routes : ∀ P `{∀ r, Decision (P r)}, allowed (delete_from_routes P);
  al_insert_target : ∀ route position (w : Weighted),
    allowed (insert_into_route_targets route position (protocol_name (protocol (endpoint w)))
      (val (host (endpoint w))) (val (port (endpoint w))) (val (path (endpoint w)))
      (val (weight w)));
  al_delete_targets : ∀ P `{∀ r, Decision (P r)}, allowed (delete_from_route_targets P);
  al_insert_plugin : ∀ kind wasm at_,
    (promised → moment at_ ∧ size_of wasm ≤ u64_max) →
    allowed (insert_plugin_once (plugin_hex (Checksum_of wasm)) (kind_name kind) wasm at_);
  al_delete_plugins : ∀ plugin, allowed (delete_from_plugins (unowned plugin));
  al_insert_owner : ∀ plugin tenant at_,
    (promised → moment at_) → allowed (insert_owner_once plugin tenant at_);
  al_delete_owners : chains → ∀ P `{∀ r, Decision (P r)}, allowed (delete_from_plugin_owners P);
  al_insert_rule : chains → ∀ plugin tenant user (api : option ApiId) kind (position : PluginOrder) at_,
    (promised → moment at_) →
    allowed (insert_into_plugin_rules plugin tenant user (val <$> api) (kind_name kind)
      (val position) at_);
  al_delete_rules : ∀ P `{∀ r, Decision (P r)}, allowed (delete_from_plugin_rules P);
  al_limit : ∀ tenant user (api : option ApiId) counted period (allowance : Allowance) at_,
    (promised → moment at_) →
    allowed (upsert_limit tenant user (val <$> api) (counted_name counted) (period_name period)
      (stored_allowance allowance) at_);
  al_delete_limits : ∀ P `{∀ r, Decision (P r)}, allowed (delete_from_limits P);
  al_insert_usage : ∀ u at_,
    (promised → moment at_ ∧ is_u32 (u_latency u)) →
    allowed (insert_into_usage (usage_entry u at_));
  al_delete_usage : ∀ P `{∀ r, Decision (P r)}, allowed (delete_from_usage P)
}.

Context (Hal : allowed_writes).

Lemma scope_rows_yield s :
  yields (scope_rows s) (λ p, is_Some p.2 ↔ is_Some (scope_tenant s)).
Proof using.
  unfold scope_rows. eapply (yields_bind _ _ (λ _, True)); [by apply yields_any|]. intros user _.
  eapply (yields_bind _ _ (λ o, is_Some o ↔ is_Some (scope_tenant s))); [|done].
  destruct (scope_tenant s); [|done].
  eapply (yields_bind _ _ (λ _, True)); [by apply yields_any|]. done.
Qed.

(** Follows a program to its statements. *)
Ltac leaf :=
  first
    [ match goal with Hid : identity |- _ => first
        [ apply (al_insert_tenant Hal Hid) | apply (al_delete_tenants Hal Hid) | apply (al_insert_user Hal Hid)
        | apply (al_passphrase Hal Hid) | apply (al_delete_users Hal Hid) | apply (al_membership Hal Hid)
        | apply (al_insert_grant Hal Hid) ] end
    | apply (al_route Hal)
    | apply (al_insert_target Hal) | apply (al_insert_plugin Hal) | apply (al_delete_plugins Hal)
    | apply (al_insert_owner Hal) | match goal with Hch : chains |- _ => apply (al_insert_rule Hal Hch) end
    | apply (al_limit Hal) | apply (al_insert_usage Hal)
    | match goal with |- allowed (λ d, _) => intros d x d'; cbv beta end
    | idtac ];
  try first
    [ match goal with Hid : identity |- _ =>
        first [ apply (al_delete_members Hal Hid) | apply (al_delete_grants Hal Hid) ] end
    | apply (al_delete_routes Hal)
    | apply (al_delete_targets Hal) | match goal with Hch : chains |- _ => apply (al_delete_owners Hal Hch) end | apply (al_delete_rules Hal)
    | apply (al_delete_limits Hal) | apply (al_delete_usage Hal) ];
  try tauto.
Ltac follow :=
  cbv beta zeta;
  lazymatch goal with
  | |- obeys R (pure _) => apply obeys_pure
  | |- obeys R (select _) => apply obeys_select, _
  | |- obeys R (atomically _) => apply obeys_atom; follow
  | |- obeys R (scope_rows ?s ≫= _) =>
      eapply (obeys_yields R _ _ _); [auto|apply scope_rows_yield|intros [? ?] Hsome; cbn [snd] in Hsome; follow]
  | |- obeys R (_ ≫= _) => apply obeys_bind; [follow|intros ?; follow]
  | |- obeys R (ask ?s) => apply (obeys_ask_or R (λ _, Err Backend) s); fold (allowed s); leaf
  | |- obeys R (ask_or _ ?s) => apply obeys_ask_or; fold (allowed s); leaf
  | |- obeys R (let '(_, _) := ?x in _) => destruct x; follow
  | |- obeys R (match ?o with Some _ => _ | None => _ end) => destruct o; follow
  | |- obeys R (match ?o with O => _ | S _ => _ end) => destruct o; follow
  | |- obeys R (if ?b then _ else _) => destruct b; follow
  | |- _ => auto; tauto
  end.

Lemma obeys_tenant_row id : obeys R (tenant_row_id_of id).
Proof using PreOrder0. unfold tenant_row_id_of. follow. Qed.
Lemma obeys_user_row id : obeys R (user_row_id_of id).
Proof using PreOrder0. unfold user_row_id_of. follow. Qed.
#[local] Hint Resolve obeys_tenant_row obeys_user_row : core.
Lemma obeys_scope_rows s : obeys R (scope_rows s).
Proof using PreOrder0. unfold scope_rows. follow. Qed.
Lemma obeys_owner_row owner : obeys R (owner_row_id owner).
Proof using PreOrder0. unfold owner_row_id. follow. Qed.
Lemma obeys_rule_scope_rows s : obeys R (rule_scope_rows s).
Proof using PreOrder0. unfold rule_scope_rows. destruct s; follow. Qed.
Lemma obeys_limit_scope_rows s : obeys R (limit_scope_rows s).
Proof using PreOrder0. unfold limit_scope_rows. follow. Qed.
#[local] Hint Resolve obeys_scope_rows obeys_owner_row obeys_rule_scope_rows obeys_limit_scope_rows : core.

Lemma obeys_insert_tenant now new : identity → (promised → moment now) → obeys R (insert_tenant now new).
Proof using Hal PreOrder0. intros Hid Hnow. unfold insert_tenant. follow. Qed.
Lemma obeys_insert_user now new : identity → (promised → moment now) → obeys R (insert_user now new).
Proof using Hal PreOrder0. intros Hid Hnow. unfold insert_user. follow. Qed.
Lemma obeys_insert_membership now m : identity → (promised → moment now) → obeys R (insert_membership now m).
Proof using Hal PreOrder0. intros Hid Hnow. unfold insert_membership. follow. Qed.
Lemma obeys_delete_membership user tenant : identity → obeys R (delete_membership user tenant).
Proof using Hal PreOrder0. intros Hid. unfold delete_membership. follow. Qed.
Lemma obeys_delete_grants user tenant : identity → obeys R (delete_grants_in_tenant user tenant).
Proof using Hal PreOrder0. intros Hid. unfold delete_grants_in_tenant. follow. Qed.
Lemma obeys_insert_targets route position l : obeys R (insert_targets route position l).
Proof using Hal PreOrder0.
  revert position. induction l as [|w l IH]; intros position; cbn [insert_targets]; follow.
Qed.
#[local] Hint Resolve obeys_insert_tenant obeys_insert_user obeys_insert_membership
  obeys_delete_membership obeys_delete_grants obeys_insert_targets : core.

Theorem perform_obeys c :
  (promised → admissible c) → (on_chain c → chains) → (on_identity c → identity) → obeys R (perform c).
Proof using Hal PreOrder0.
  unfold perform, done, admissible. destruct c; cbn [call_at]; intros Hc Hch Hid;
  try specialize (Hch I); try specialize (Hid I);
  try assert (promised → moment now) as Hnow by tauto;
  unfold create_tenant, delete_tenant, create_user, set_passphrase, delete_user, attach, grant,
    revoke, user_create, member_add, member_remove, put_plugin, disown_plugin, put_rule,
    remove_rule, put_route, remove_route, put_limit, remove_limit, record_usage, sweep_usage,
    UserCreate.create_tenant, UserCreate.create_user, UserCreate.attach, UserCreate.commit,
    MemberAdd.create_user, MemberAdd.attach, MemberAdd.commit, MemberRemove.detach,
    MemberRemove.revoke_grants, MemberRemove.commit, PluginUpload.store_wasm, PluginUpload.own,
    PluginUpload.commit, PluginDisown.disown, PluginDisown.sweep, PluginDisown.commit, advance,
    insert_wasm, insert_owner, delete_owner, delete_unowned; follow.
  destruct tenant; leaf.
Qed.
End obeys.

Lemma keeps_allowed {X} (s : statement X) : keeps s → allowed intact s.
Proof. intros Hs d x d' E Hd. by eapply Hs. Qed.

Lemma intact_writes : allowed_writes intact False True True.
Proof.
  split; intros; apply keeps_allowed; try by keeps_write.
  - apply keeps_insert_grant, api_nonempty.
  - apply keeps_upsert_limit, api_nonempty.
Qed.

(** ** Nothing is half done *)

(** Reads, and then at most one write or one transaction: what is interrupted leaves no trace. *)
Fixpoint one_write {A} (p : sql Db A) : Prop :=
  match p with
  | Done _ _ => True
  | Ask _ s k =>
      k (Err OtherFailure) = Done _ (Err Backend) ∧
      ((∀ d x d', s d = Ok (x, d') → d' = d) ∧ (∀ r, one_write (k r)) ∨ ∀ r, ∃ r', k r = Done _ r')
  | Atomically _ body k =>
      strict body ∧ k (Err Backend) = Done _ (Err Backend) ∧ ∀ r, ∃ r', k r = Done _ r'
  end.

Lemma one_write_runs {A} (p : sql Db A) d r d' :
  one_write p → runs p d r d' → exec p d = (r, d') ∨ (d' = d ∧ r = Err Backend).
Proof.
  revert d. induction p as [A r0|A X s k IH|A X body IHb k IH]; intros d; cbn.
  - intros _ [-> ->]. by left.
  - intros [He Hk] [Hr|Hr].
    + destruct Hk as [[Hs Hk]|Hk].
      * assert ((answer s d).2 = d) as E.
        { unfold answer. destruct (s d) as [[x d1]|] eqn:Ex; [|done]. cbn. by eapply Hs. }
        destruct (answer s d) as [a d1]. cbn in *. subst d1. by apply IH.
      * destruct (answer s d) as [a d1]. cbn in *. destruct (Hk a) as [r' E]. rewrite E in *.
        destruct Hr as [-> ->]. by left.
    + rewrite He in Hr. destruct Hr as [-> ->]. by right.
  - intros (Hs & He & Hk) [(x & d1 & Hx & [Hr|Hr])|(e & d1 & Hx & Hr)].
    + apply strict_runs in Hx as [Hx|]; [|done..]. rewrite Hx. destruct (Hk (Ok x)) as [r' E]. rewrite E in *.
      destruct Hr as [-> ->]. by left.
    + rewrite He in Hr. destruct Hr as [-> ->]. by right.
    + apply strict_runs in Hx as [Hx|[= ->]]; [|..|done].
      * rewrite Hx. destruct (Hk (Err e)) as [r' E]. rewrite E in *. destruct Hr as [-> ->]. by left.
      * rewrite He in Hr. destruct Hr as [-> ->]. by right.
Qed.

(** Programs that only read. *)
Fixpoint reads {A} (p : sql Db A) : Prop :=
  match p with
  | Done _ _ => True
  | Ask _ s k =>
      k (Err OtherFailure) = Done _ (Err Backend) ∧ (∀ d x d', s d = Ok (x, d') → d' = d) ∧
      ∀ r, reads (k r)
  | Atomically _ _ _ => False
  end.

(** Programs that send nothing. *)
Definition ended {A} (p : sql Db A) : Prop := ∃ r, p = Done A r.

Lemma reads_select {X} (f : Db → X) : reads (select f).
Proof. split; [done|]. split; [|done]. by intros d x d' [= _ <-]. Qed.
Lemma reads_pure {A} (r : result StorageError A) : reads (pure r).
Proof. by destruct r. Qed.
Lemma reads_bind {A B} (p : sql Db A) (f : A → sql Db B) :
  reads p → (∀ a, reads (f a)) → reads (p ≫= f).
Proof.
  intros Hp Hf. change (p ≫= f) with (sql_bind f p). revert Hp.
  induction p as [A [a|e]|A X s k IH|A X body _ k IH]; cbn; [|done| |done].
  - intros _. apply Hf.
  - intros (He & Hs & Hk). split; [by rewrite He|]. split; [done|].
    intros r. by apply IH.
Qed.

Lemma one_write_reads {A B} (p : sql Db A) (f : A → sql Db B) :
  reads p → (∀ a, one_write (f a)) → one_write (p ≫= f).
Proof.
  intros Hp Hf. change (p ≫= f) with (sql_bind f p). revert Hp.
  induction p as [A [a|e]|A X s k IH|A X body _ k IH]; cbn; [|done| |done].
  - intros _. apply Hf.
  - intros (He & Hs & Hk). split; [by rewrite He|]. left. split; [done|].
    intros r. by apply IH.
Qed.

Lemma ended_bind {A B} (p : sql Db A) (f : A → sql Db B) :
  ended p → (∀ a, ended (f a)) → ended (p ≫= f).
Proof.
  intros [[a|e] ->] Hf; [apply Hf|]. by eexists.
Qed.
Lemma ended_pure {A} (r : result StorageError A) : ended (pure r).
Proof. by eexists. Qed.

Lemma one_write_last {A B} (p : sql Db A) (f : A → sql Db B) :
  one_write p → (∀ a, ended (f a)) → one_write (p ≫= f).
Proof.
  intros Hp Hf. change (p ≫= f) with (sql_bind f p). revert Hp.
  assert (∀ C (q : sql Db C) (g : C → sql Db B), ended q → (∀ a, ended (g a)) → ended (sql_bind g q)) as He
    by (intros C q g; apply ended_bind).
  induction p as [A [a|e]|A X s k IH|A X body _ k IH]; cbn; [|done|..].
  - intros _. by destruct (Hf a) as [r ->].
  - intros (Hk1 & [[Hs Hk]|Hk]).
    + split; [by rewrite Hk1|]. left. split; [done|]. intros r. by apply IH.
    + split; [by rewrite Hk1|]. right. intros r. apply He; [apply Hk|done].
  - intros (Hb & Hk1 & Hk). split; [done|]. split.
    + by rewrite Hk1.
    + intros r. apply He; [apply Hk|done].
Qed.

Lemma one_write_ask_or {X} h (s : statement X) :
  h OtherFailure = Err Backend → one_write (ask_or h s).
Proof. intros He. split; [by rewrite He|]. right. intros r. by eexists. Qed.
Lemma one_write_ask {X} (s : statement X) : one_write (ask s).
Proof. by eapply one_write_ask_or. Qed.
Lemma one_write_atomically {A} (body : sql Db A) : strict body → one_write (atomically body).
Proof. intros Hb. split; [done|]. split; [done|]. intros r. by eexists. Qed.

Ltac prove_reads :=
  cbv beta zeta;
  lazymatch goal with
  | |- reads (pure _) => apply reads_pure
  | |- reads (select _) => apply reads_select
  | |- reads (_ ≫= _) => apply reads_bind; [prove_reads|intros ?; prove_reads]
  | |- reads (match ?o with Some _ => _ | None => _ end) => destruct o; prove_reads
  | |- _ => auto
  end.
Ltac prove_ended :=
  cbv beta zeta;
  lazymatch goal with
  | |- ended (pure _) => apply ended_pure
  | |- ended (_ ≫= _) => apply ended_bind; [prove_ended|intros ?; prove_ended]
  | |- ended (match ?o with O => _ | S _ => _ end) => destruct o; prove_ended
  end.
Ltac prove_strict :=
  cbv beta zeta;
  lazymatch goal with
  | |- strict (pure _) => apply strict_pure
  | |- strict (select _) => apply strict_select
  | |- strict (ask _) => apply strict_ask
  | |- strict (ask_or _ _) => by eapply strict_ask_or
  | |- strict (_ ≫= _) => apply strict_bind; [prove_strict|intros ?; prove_strict]
  | |- strict (match ?o with Some _ => _ | None => _ end) => destruct o; prove_strict
  | |- strict (match ?o with O => _ | S _ => _ end) => destruct o; prove_strict
  | |- strict (if ?b then _ else _) => destruct b; prove_strict
  | |- _ => auto
  end.
Ltac prove_one :=
  cbv beta zeta;
  lazymatch goal with
  | |- one_write (ask _) => apply one_write_ask
  | |- one_write (ask_or _ _) => by eapply one_write_ask_or
  | |- one_write (atomically _) => apply one_write_atomically; prove_strict
  | |- one_write (let '(_, _) := ?x in _) => destruct x; prove_one
  | |- one_write (_ ≫= _) =>
      first [ apply one_write_last; [solve [prove_one]|intros ?; solve [prove_ended]]
            | apply one_write_reads; [solve [prove_reads]|intros ?; prove_one] ]
  end.

Lemma reads_tenant_row id : reads (tenant_row_id_of id).
Proof. unfold tenant_row_id_of. prove_reads. Qed.
Lemma reads_user_row id : reads (user_row_id_of id).
Proof. unfold user_row_id_of. prove_reads. Qed.
#[local] Hint Resolve reads_tenant_row reads_user_row : core.
Lemma reads_scope_rows s : reads (scope_rows s).
Proof. unfold scope_rows. prove_reads. Qed.
Lemma reads_rule_scope_rows s : reads (rule_scope_rows s).
Proof. unfold rule_scope_rows. destruct s; prove_reads. Qed.
Lemma reads_limit_scope_rows s : reads (limit_scope_rows s).
Proof. unfold limit_scope_rows. prove_reads. Qed.
#[local] Hint Resolve reads_scope_rows reads_rule_scope_rows reads_limit_scope_rows : core.

Lemma strict_reads {A} (p : sql Db A) : reads p → strict p.
Proof. induction p; cbn; naive_solver. Qed.
Lemma strict_tenant_row id : strict (tenant_row_id_of id).
Proof. apply strict_reads, reads_tenant_row. Qed.
Lemma strict_user_row id : strict (user_row_id_of id).
Proof. apply strict_reads, reads_user_row. Qed.
#[local] Hint Resolve strict_tenant_row strict_user_row : core.
Lemma strict_owner_row o : strict (owner_row_id o).
Proof. unfold owner_row_id. prove_strict. Qed.
Lemma strict_insert_targets route position l : strict (insert_targets route position l).
Proof. revert position. induction l as [|w l IH]; intros position; cbn [insert_targets]; prove_strict. Qed.
#[local] Hint Resolve strict_owner_row strict_insert_targets : core.

Lemma perform_one_write c : one_write (perform c).
Proof.
  unfold perform, done. destruct c;
  unfold create_tenant, delete_tenant, create_user, set_passphrase, delete_user, attach, grant,
    revoke, user_create, member_add, member_remove, put_plugin, disown_plugin, put_rule,
    remove_rule, put_route, remove_route, put_limit, remove_limit, record_usage, sweep_usage,
    UserCreate.create_tenant, UserCreate.create_user, UserCreate.attach, UserCreate.commit,
    MemberAdd.create_user, MemberAdd.attach, MemberAdd.commit, MemberRemove.detach,
    MemberRemove.revoke_grants, MemberRemove.commit, PluginUpload.store_wasm, PluginUpload.own,
    PluginUpload.commit, PluginDisown.disown, PluginDisown.sweep, PluginDisown.commit, advance,
    insert_wasm, insert_owner, delete_owner, delete_unowned, insert_tenant, insert_user,
    insert_membership, delete_membership, delete_grants_in_tenant;
  (apply one_write_last; [|intros ?; prove_ended]); prove_one.
Qed.

(** ** Sequences of calls *)

(** Calls one after the other, each to its end. *)
Fixpoint run (calls : list Call) (d : Db) : list (result StorageError unit) * Db :=
  match calls with
  | [] => ([], d)
  | c :: calls =>
      let '(r, d) := exec (perform c) d in
      let '(rs, d) := run calls d in (r :: rs, d)
  end.

(** As [run], with any statement of any of them failing. *)
Inductive ran : list Call → Db → list (result StorageError unit) → Db → Prop :=
  | ran_nil d : ran [] d [] d
  | ran_call c calls d r d1 rs d' :
      runs (perform c) d r d1 → ran calls d1 rs d' → ran (c :: calls) d (r :: rs) d'.

Lemma run_ran calls d : ran calls d (run calls d).1 (run calls d).2.
Proof.
  revert d. induction calls as [|c calls IH]; intros d; cbn; [constructor|].
  pose proof (runs_exec (perform c) d) as Hr. destruct (exec (perform c) d) as [r d1].
  specialize (IH d1). destruct (run calls d1) as [rs d2]. by econstructor.
Qed.

(** Calls one after the other are one of their interleavings. *)
Lemma pool_run calls d :
  rtc pool_step (perform <$> calls, d) (Done unit <$> (run calls d).1, (run calls d).2).
Proof.
  enough (∀ before, rtc pool_step (before ++ (perform <$> calls), d)
    (before ++ (Done unit <$> (run calls d).1), (run calls d).2)) as Hall by apply (Hall []).
  revert d. induction calls as [|c calls IH]; intros d before; cbn; [apply rtc_refl|].
  etransitivity; [apply pool_exec|]. destruct (exec (perform c) d) as [r d1]. cbn.
  specialize (IH d1 (before ++ [Done unit r])). rewrite <-!app_assoc in IH.
  by destruct (run calls d1) as [rs d2].
Qed.

Lemma sound_migrated : sound migrated.
Proof. split; try constructor; cbn; done || constructor. Qed.

Lemma perform_intact c d r d' : sound d → runs (perform c) d r d' → sound d'.
Proof.
  intros Hd Hr. eapply (runs_obeys intact); [|exact Hr|done].
  by apply (perform_obeys intact False True True intact_writes).
Qed.
Lemma run_sound calls d : sound d → sound (run calls d).2.
Proof.
  revert d. induction calls as [|c calls IH]; intros d Hd; cbn; [done|].
  pose proof (perform_intact c d _ _ Hd (runs_exec (perform c) d)) as Hs1.
  destruct (exec (perform c) d) as [r d1]. specialize (IH d1 Hs1). by destruct (run calls d1).
Qed.
End store.

(** ** Sample values *)
Module StoreSample.
Import SampleCrypto SampleChrono.
#[export] Existing Instance sqlite.

Definition key : TnKey := MkRefined (check := check_bytes TN_KEY_BYTES) (repeat 7 16) eq_refl.
Definition hash : PassphraseHash := MkRefined (check := validate_hash) #"$argon2id$x" eq_refl.
Definition bob : UserId := MkRefined (check := validate_id "user id") #"bob" eq_refl.
Definition acme : NewTenant := MkNewTenant tenant key.
Definition owner : NewUser := MkNewUser user hash Regular.
Definition member : NewUser := MkNewUser bob hash Regular.
Definition may_call : Grant := MkGrant ApiAccess (ScopeApi bob tenant api).
Definition route : RouteRule :=
  MkRouteRule api (MkRouteKey Sample.endpoint_a)
    (MkRefined (check := check_target)
       [MkWeighted Sample.endpoint_b default_weight; MkWeighted Sample.endpoint_c default_weight] eq_refl)
    RoundRobin.
Definition cap : NewLimit := MkNewLimit (MkScope tenant (Some bob) None) Requests Minute two.
Definition order : PluginOrder := MkRefined (check := check_order_width) 70 eq_refl.
Definition wasm : list Z := [0; 97; 115; 109].
Definition upload : NewPlugin := MkNewPlugin ReqBody wasm (TenantOwner tenant).
Definition placed : NewPluginRule :=
  MkNewPluginRule (Checksum_of wasm) order (TenantScope tenant (Some bob) None).
Definition used : NewUsage :=
  MkNewUsage (MkRefined (check := check_bytes 16) (repeat 1 16) eq_refl) None tenant bob api None
    (MkTokens (MkRefined (check := check_u32) 3 eq_refl) (MkRefined (check := check_u32) 4 eq_refl))
    FromUpstream None 25.

(** A tenant with its owner and one more member, who may call one api, with a rule of each kind. *)
Definition setup : list Call :=
  [CreateTenantWithOwner 1000 acme owner Owner; AddMember 1001 member tenant OrdinaryMember;
   GrantTo 1002 may_call; PutRoute 1003 route; PutLimit 1004 cap; PutPlugin 1005 upload;
   PutRule 1006 placed; RecordUsage 1007 used].
Definition held : Db := (run setup migrated).2.

Lemma setup_accepted : forallb is_ok (run setup migrated).1 = true.
Proof. vm_compute. reflexivity. Qed.
Lemma setup_admissible : Forall admissible setup.
Proof. repeat constructor; vm_compute; try discriminate; reflexivity. Qed.
Lemma held_sound : sound held.
Proof. apply run_sound, sound_migrated. Qed.
End StoreSample.
