(* ===== verification/Revision.v ===== *)
(** * Revision: a copy of the rules is stale exactly when the revision says so

    Every node holds the routes, the plugin rules and the limits in memory and reads them again
    when the revision has moved ([src/rules.rs]).  Shown here: no write of any store changes what
    a node would read without moving the revision, cascades from deleted tenants and users
    included, and the revision never goes back. *)
From S2P Require Import Prelude Text Ident Key Capability Route LimitCore PluginCore Account Auth.
From S2P Require Import Limiter Recorder Sql Schema Integrity Named IdentityStore IdentitySpec.
From S2P Require Import Workflow PluginStore RouteStore LimitStore ListStore Store.

(** Everything [rule_set] makes its answer from, but for the revision. *)
Definition rules_in (d : Db)
    : list (RouteEntry * TargetEntry) * list NamedRule * list (LimitEntry * NamedLimit) :=
  (routes_joined d, rules_joined d, limits_joined d).

Lemma rule_set_of `{Engine} `{Chrono} `{Crypto} (d d' : Db) :
  rules_in d' = rules_in d → revision d' = revision d → (exec rule_set d').1 = (exec rule_set d).1.
Proof.
  intros [= E1 E2 E3] Er.
  unfold rule_set, read_revision, read_routes, read_rules, read_limits, limits_newest_first.
  sql_run. rewrite Er. destruct (ok_or _ _); [|done]. sql_run. rewrite E1.
  destruct (gather_all _ _); [|done]. sql_run. rewrite E2.
  destruct (try_map rule_read _); [|done]. sql_run. rewrite E3. by destruct (try_map _ _).
Qed.

(** What every change to the database does about the revision. *)
Definition tracked (d d' : Db) : Prop :=
  sound d →
  sound d' ∧ revision d ≤ revision d' ∧ (revision d' = revision d → rules_in d' = rules_in d).

#[export] Instance tracked_preorder : PreOrder tracked.
Proof.
  split.
  - intros d Hd. done.
  - intros d e f Hde Hef Hd. destruct (Hde Hd) as (He & Hr & Hs). destruct (Hef He) as (Hf & Hr' & Hs').
    split; [done|]. split; [lia|]. intros E. rewrite Hs', Hs by lia. done.
Qed.

Section tracked.
Context `{Engine} `{Chrono} `{Crypto}.

(** A statement that moves the revision on needs nothing more. *)
Lemma tracked_moved {X} (s : statement X) :
  keeps s → (∀ d x d', s d = Ok (x, d') → revision d < revision d') → allowed tracked s.
Proof.
  intros Hk Hr d x d' E Hd. apply Hr in E as Hlt. split; [by eapply Hk|]. split; [lia|]. lia.
Qed.

(** Nor does one that leaves the rules and whatever they name alone. *)
Lemma tracked_same {X} (s : statement X) :
  keeps s →
  (∀ d x d', s d = Ok (x, d') → sound d →
     revision d' = revision d ∧ rules_in d' = rules_in d) → allowed tracked s.
Proof.
  intros Hk Hs d x d' E Hd. destruct (Hs d x d' E Hd) as [-> ->]. split; [by eapply Hk|]. done.
Qed.

(** The joins are those of before when the names in use are. *)
Lemma rules_in_same (d d' : Db) :
  sound d → routes d' = routes d → route_targets d' = route_targets d →
  rows (plugin_rules d') = rows (plugin_rules d) → rows (limits d') = rows (limits d) →
  (∀ r, r ∈ rows (plugin_rules d) →
     tenant_name (tenants d') (ru_tenant r) = tenant_name (tenants d) (ru_tenant r) ∧
     user_name (users d') (ru_user r) = user_name (users d) (ru_user r) ∧
     plugin_name (plugins d') (Some (ru_plugin r)) = plugin_name (plugins d) (Some (ru_plugin r))) →
  (∀ l, l ∈ rows (limits d) →
     tenant_name (tenants d') (Some (li_tenant l)) = tenant_name (tenants d) (Some (li_tenant l)) ∧
     user_name (users d') (li_user l) = user_name (users d) (li_user l)) →
  rules_in d' = rules_in d.
Proof.
  intros Hd E1 E2 E3 E4 Hrules Hlimits. unfold rules_in, routes_joined, rules_joined, limits_joined.
  rewrite E1, E2, E3, E4. f_equal; [f_equal|].
  - apply omap_same. intros r (Ht & Hu & Hp)%Hrules. unfold named_rule. by rewrite Ht, Hu, Hp.
  - apply omap_same. intros l (Ht & Hu)%Hlimits. unfold named_limit. by rewrite Ht, Hu.
Qed.

(** A reference that is followed keeps its name when a row is added or rewritten in place. *)
Lemma insert_tenant_tracked id key at_ : allowed tracked (insert_into_tenants id key at_).
Proof.
  apply tracked_same; [apply keeps_insert_tenant|]. intros d x d' Hs Hd.
  unfold insert_into_tenants in Hs. destruct (taken _ _ _); [done|].
  apply bind_ok in Hs as ([r t] & Ha & [= <- <-]).
  apply append_ok in Ha as (_ & Hrows & _); [|done|apply Hd]. split; [done|].
  assert (∀ o, named (tenants d) o → tenant_name t o = tenant_name (tenants d) o) as Hn
    by (intros o; by apply (name_append tn_id _ _ r)).
  apply rules_in_same; try done.
  - intros a Ha. split; [|done]. apply Hn. exact (proj1 (Forall_forall _ _) (ref_rule_tenant d Hd) a Ha).
  - intros a Ha. split; [|done]. apply Hn. exact (proj1 (Forall_forall _ _) (ref_limit_tenant d Hd) a Ha).
Qed.

Lemma users_tracked d (us : table UserEntry) :
  sound d → (∀ o, named (users d) o → user_name us o = user_name (users d) o) →
  rules_in (with_users us d) = rules_in d.
Proof.
  intros Hd Hn. apply rules_in_same; try done.
  - intros a Ha. split; [done|]. split; [|done]. apply Hn.
    exact (proj1 (Forall_forall _ _) (ref_rule_user d Hd) a Ha).
  - intros a Ha. split; [done|]. apply Hn. exact (proj1 (Forall_forall _ _) (ref_limit_user d Hd) a Ha).
Qed.

Lemma insert_user_tracked id passphrase kind at_ :
  allowed tracked (insert_into_users id passphrase kind at_).
Proof.
  apply tracked_same; [apply keeps_insert_user|]. intros d x d' Hs Hd.
  unfold insert_into_users in Hs. destruct (taken _ _ _); [done|].
  apply bind_ok in Hs as ([r t] & Ha & [= <- <-]).
  apply append_ok in Ha as (_ & Hrows & _); [|done|apply Hd]. split; [done|].
  apply users_tracked; [done|]. intros o. by apply (name_append us_id _ _ r).
Qed.

Lemma passphrase_tracked P `{∀ r, Decision (P r)} passphrase :
  allowed tracked (update_passphrases P passphrase).
Proof.
  apply tracked_same; [apply keeps_update_passphrases|]. intros d x d' [= _ <-] Hd. split; [done|].
  apply users_tracked; [done|]. intros o _.
  apply (name_update us_id); intros r; unfold repassed; by case_decide.
Qed.

Lemma insert_plugin_tracked checksum kind wasm at_ :
  allowed tracked (insert_plugin_once checksum kind wasm at_).
Proof.
  apply tracked_same; [apply keeps_insert_plugin|]. intros d x d' Hs Hd.
  unfold insert_plugin_once in Hs. destruct (taken _ _ _); [by injection Hs as _ <-|].
  apply bind_ok in Hs as ([r t] & Ha & [= <- <-]).
  apply append_ok in Ha as (_ & Hrows & _); [|done|apply Hd]. split; [done|].
  apply rules_in_same; try done. intros a Ha. split; [done|]. split; [done|].
  apply (name_append pl_checksum _ _ r); [done|].
  exact (proj1 (Forall_forall _ _) (ref_rule_plugin d Hd) a Ha).
Qed.

Lemma filter_length_all {S} (P : S → Prop) `{∀ s, Decision (P s)} (l : list S) :
  (length l ≤ length (filter P l))%nat → Forall P l.
Proof.
  induction l as [|s l IH]; [constructor|]. rewrite filter_cons. pose proof (length_filter P l) as Hl.
  case_decide; cbn; intros Hlen; [|lia]. constructor; [done|]. apply IH. lia.
Qed.

(** A cascade that moved nothing took nothing. *)
Lemma cascade_still {R S} (gone : list R) (row : R → Z) (ref : S → option Z) (l : list S) :
  cascade_moves gone l (filter (λ s, stays (row <$> gone) (ref s)) l) = 0 →
  Forall (λ s, stays (row <$> gone) (ref s)) l.
Proof.
  intros E. destruct gone as [|g gone].
  { apply Forall_true. intros s. unfold stays. destruct (ref s); [apply not_elem_of_nil|done]. }
  cbn [cascade_moves] in E. apply (filter_length_all (λ s, stays (row <$> g :: gone) (ref s))).
  match type of E with moves ?n = 0 => destruct (decide (0 < n)%nat) as [Hpos|Hz] end; [|lia].
  apply moves_some in Hpos. lia.
Qed.

(** What is left of the names when the rows that went were not followed. *)
Lemma left_names {R N} `{!Row R} (name : R → N) (P : R → Prop) `{∀ r, Decision (P r)} (t : table R) o :
  table_ok t → stays (row_id <$> filter P (rows t)) o →
  name <$> left_join (keep (λ r, ¬ P r) t) o = name <$> left_join t o.
Proof. intros Ht Ho. by rewrite left_join_keep. Qed.

(** Every cascade of a statement that did not move the revision moved nothing. *)
Ltac still :=
  repeat match goal with
  | |- context [cascade_moves ?g ?l ?k] =>
      lazymatch goal with
      | _ : 0 ≤ cascade_moves g l k |- _ => fail
      | _ => pose proof (cascade_moves_nonneg g l k)
      end
  end.

Lemma delete_tenants_tracked P `{∀ r, Decision (P r)} : allowed tracked (delete_from_tenants P).
Proof.
  intros d x d' E Hd. split; [by eapply keeps_delete_tenants|]. injection E as _ <-.
  cbn [moved revision with_limits with_plugin_rules with_plugin_owners with_grants with_memberships
       with_tenants keep rows].
  still. split; [lia|]. intros E.
  match type of E with _ + (?a + ?b) = _ => assert (a = 0) as Er by lia; assert (b = 0) as El by lia end.
  apply (cascade_still _ tn_row ru_tenant) in Er.
  apply (cascade_still _ tn_row (λ l, Some (li_tenant l))) in El.
  apply rules_in_same; fields; try done; [by apply filter_all..| |].
  - intros r Hin. split; [|done].
    apply (left_names tn_id P (tenants d)); [apply Hd|]. by apply (proj1 (Forall_forall _ _) Er).
  - intros l Hin. split; [|done].
    apply (left_names tn_id P (tenants d)); [apply Hd|]. by apply (proj1 (Forall_forall _ _) El).
Qed.

Lemma delete_users_tracked P `{∀ r, Decision (P r)} : allowed tracked (delete_from_users P).
Proof.
  intros d x d' E Hd. split; [by eapply keeps_delete_users|]. injection E as _ <-.
  cbn [moved revision with_limits with_plugin_rules with_grants with_memberships with_users keep rows].
  still. split; [lia|]. intros E.
  match type of E with _ + (?a + ?b) = _ => assert (a = 0) as Er by lia; assert (b = 0) as El by lia end.
  apply (cascade_still _ us_row ru_user) in Er. apply (cascade_still _ us_row li_user) in El.
  apply rules_in_same; fields; try done; [by apply filter_all..| |].
  - intros r Hin. split; [done|]. split; [|done].
    apply (left_names us_id P (users d)); [apply Hd|]. by apply (proj1 (Forall_forall _ _) Er).
  - intros l Hin. split; [done|].
    apply (left_names us_id P (users d)); [apply Hd|]. by apply (proj1 (Forall_forall _ _) El).
Qed.

Lemma delete_plugins_tracked (P : Db → PluginEntry → Prop) `{∀ d r, Decision (P d r)} :
  allowed tracked (delete_from_plugins P).
Proof.
  apply tracked_same; [apply keeps_delete_plugins|]. intros d x d' Hs Hd.
  unfold delete_from_plugins in Hs. destruct (existsb _ _) eqn:Hu; [done|]. injection Hs as _ <-.
  split; [done|]. apply rules_in_same; try done. intros r Hr. split; [done|]. split; [done|].
  apply left_names; [apply Hd|]. intros Hin. apply not_true_iff_false in Hu. apply Hu, existsb_exists.
  exists r. split; [by apply list_elem_of_In|]. by apply bool_decide_eq_true.
Qed.

(** *** The writes of the rules themselves *)

(** Deleting rules moves the revision unless there was none to delete. *)
Lemma moves_none {R} (l : list R) : moves (length l) = 0 → l = [].
Proof. destruct l as [|r l]; [done|]. intros E. pose proof (moves_some (length (r :: l))). cbn in *. lia. Qed.

Lemma delete_routes_tracked P `{∀ r, Decision (P r)} : allowed tracked (delete_from_routes P).
Proof.
  intros d x d' E Hd. split; [by eapply keeps_delete_routes|]. injection E as _ <-. fields. still.
  pose proof (moves_nonneg (length (filter P (rows (routes d))))). split; [lia|]. intros E.
  assert (filter P (rows (routes d)) = []) as Hn by (apply moves_none; lia).
  rewrite Hn. cbn [fmap list_fmap]. rewrite keep_stays, keep_none by done. done.
Qed.

Lemma delete_targets_tracked P `{∀ r, Decision (P r)} : allowed tracked (delete_from_route_targets P).
Proof.
  intros d x d' E Hd. split; [by eapply keeps_delete_targets|]. injection E as _ <-. fields.
  pose proof (moves_nonneg (length (filter P (rows (route_targets d))))). split; [lia|]. intros E.
  assert (filter P (rows (route_targets d)) = []) as Hn by (apply moves_none; lia).
  by rewrite keep_none.
Qed.

Lemma delete_rules_tracked P `{∀ r, Decision (P r)} : allowed tracked (delete_from_plugin_rules P).
Proof.
  intros d x d' E Hd. split; [by eapply keeps_delete_rules|]. injection E as _ <-. fields.
  pose proof (moves_nonneg (length (filter P (rows (plugin_rules d))))). split; [lia|]. intros E.
  assert (filter P (rows (plugin_rules d)) = []) as Hn by (apply moves_none; lia).
  by rewrite keep_none.
Qed.

Lemma delete_limits_tracked P `{∀ r, Decision (P r)} : allowed tracked (delete_from_limits P).
Proof.
  intros d x d' E Hd. split; [by eapply keeps_delete_limits|]. injection E as _ <-. fields.
  pose proof (moves_nonneg (length (filter P (rows (limits d))))). split; [lia|]. intros E.
  assert (filter P (rows (limits d)) = []) as Hn by (apply moves_none; lia).
  by rewrite keep_none.
Qed.

(** A statement whose every answer is one of these leaves the rules alone. *)
Lemma tracked_aside {X} (s : statement X) :
  keeps s →
  (∀ d x d', s d = Ok (x, d') → d' = with_memberships (memberships d') (with_grants (grants d')
     (with_plugin_owners (plugin_owners d') (with_usage (usage d') d)))) → allowed tracked s.
Proof.
  intros Hk Hs. apply tracked_same; [done|]. intros d x d' E _. by rewrite (Hs d x d' E).
Qed.

Lemma tracked_writes : allowed_writes tracked False True True.
Proof.
  pose proof upsert_moves_some as Hup. pose proof (moves_some 1 ltac:(lia)) as Hone.
  split; intros; try apply insert_tenant_tracked; try apply delete_tenants_tracked;
    try apply insert_user_tracked; try apply passphrase_tracked; try apply delete_users_tracked;
    try apply delete_routes_tracked; try apply delete_targets_tracked;
    try apply insert_plugin_tracked; try apply delete_plugins_tracked;
    try apply delete_rules_tracked; try apply delete_limits_tracked.
  - apply tracked_aside; [apply keeps_upsert_membership|]. intros d x d' Hs.
    unfold upsert_membership in Hs. destruct (taken _ _ _); [|destruct (_ && _); [|done]];
      injection Hs as _ <-; by destruct d.
  - apply tracked_aside; [apply keeps_delete_memberships|]. intros [] x d' [= _ <-]. done.
  - apply tracked_aside; [apply keeps_insert_grant, api_nonempty|]. intros d x d' Hs.
    unfold insert_into_grants in Hs. destruct (taken _ _ _); [done|]. destruct (_ && _); [|done].
    apply bind_ok in Hs as ([r t] & _ & [= <- <-]). by destruct d.
  - apply tracked_aside; [apply keeps_delete_grants|]. intros [] x d' [= _ <-]. done.
  - apply tracked_moved; [apply keeps_upsert_route|]. intros d x d' Hs. unfold upsert_route in Hs.
    destruct (List.find _ _); [injection Hs as _ <-|apply bind_ok in Hs as ([r t] & _ & [= <- <-])];
      fields; lia.
  - apply tracked_moved; [apply keeps_insert_target|]. intros d x d' Hs.
    unfold insert_into_route_targets in Hs. destruct (0 <=? val (weight w)); [|done].
    destruct (taken _ _ _); [done|]. destruct (refers _ _); [|done].
    apply bind_ok in Hs as ([r t] & _ & [= <- <-]). fields. lia.
  - apply tracked_aside; [apply keeps_insert_owner|]. intros d x d' Hs. unfold insert_owner_once in Hs.
    destruct (taken _ _ _); [|destruct (_ && _); [|done]]; injection Hs as _ <-; by destruct d.
  - apply tracked_aside; [apply keeps_delete_owners|]. intros [] x d' [= _ <-]. done.
  - apply tracked_moved; [apply keeps_insert_rule|]. intros d x d' Hs.
    unfold insert_into_plugin_rules in Hs. destruct (rule_checks _); [|done].
    destruct (taken _ _ _); [done|]. destruct (_ && _); [|done].
    apply bind_ok in Hs as ([r t] & _ & [= <- <-]). fields. lia.
  - apply tracked_moved; [apply keeps_upsert_limit, api_nonempty|]. intros d x d' Hs. unfold upsert_limit in Hs.
    destruct (0 <? stored_allowance allowance); [|done]. destruct (taken _ _ _); [injection Hs as _ <-; fields; lia|].
    destruct (_ && _); [|done]. apply bind_ok in Hs as ([r t] & _ & [= <- <-]). fields. lia.
  - apply tracked_aside; [by apply keeps_insert_usage|]. intros d x d' Hs. unfold insert_into_usage in Hs.
    destruct (_ <? _); [|done]. injection Hs as _ <-. by destruct d.
  - apply tracked_aside; [apply keeps_delete_usage|]. intros [] x d' [= _ <-]. done.
Qed.

(** ** Properties *)

(** C11: the rule revision tells a stale copy of the rules: while any number of connections run
    any calls of the stores, their statements interleaved in any way and any of them failing,
    the revision never goes back, and as long as it is what it was, every route, plugin rule
    and limit a node would read is what it was, a tenant or user deleted in between included. *)
Theorem same_revision_same_rules (calls : list Call) d ps d' :
  sound d → rtc pool_step (perform <$> calls, d) (ps, d') →
  revision d ≤ revision d' ∧
  (revision d' = revision d → (exec rule_set d').1 = (exec rule_set d).1).
Proof.
  intros Hd Hs. destruct (pool_obeys tracked _ _ _ _ Hs) as [Ht _].
  { apply Forall_fmap, Forall_true. intros c. by apply (perform_obeys tracked False True True tracked_writes). }
  destruct (Ht Hd) as (_ & Hr & Hsame). split; [done|]. intros E.
  apply rule_set_of; [by apply Hsame|done].
Qed.
End tracked.

Module RevisionSample.
Import SampleCrypto SampleChrono StoreSample.

(** Calls that are about no rule. *)
Definition later : list Call := [RevokeFrom may_call; RecordUsage 2000 used; PutPlugin 2001 upload].

Lemma same_revision_same_rules_witness :
  forallb is_ok (run later held).1 = true ∧ revision held = 5 ∧
  (exec rule_set (run later held).2).1 = (exec rule_set held).1.
Proof.
  split; [vm_compute; reflexivity|]. split; [vm_compute; reflexivity|].
  apply (same_revision_same_rules later held (Done unit <$> (run later held).1)).
  - apply held_sound.
  - apply pool_run.
  - vm_compute. reflexivity.
Defined.
End RevisionSample.
