(* ===== verification/Typed.v ===== *)
(** * Typed: every row is one a value was written to

    The columns of the tables are texts and integers; what the stores hand out are names, keys,
    endpoints, capabilities and moments.  [typed] says of every row that it holds the columns
    of such values, and that a wasm is stored under its own checksum.  Every write keeps it, so
    no read ever meets a row it cannot make a value of. *)
From S2P Require Import Prelude Text Ident Key Capability Route LimitCore PluginCore Account Auth.
From S2P Require Import Limiter Recorder Sql Schema Integrity Named IdentityStore IdentitySpec.
From S2P Require Import Workflow PluginStore RouteStore LimitStore ListStore Store.

Section typed.
Context `{Engine} `{Chrono} `{Crypto}.

Definition typed_tenant (t : TenantEntry) : Prop :=
  (∃ id : TenantId, tn_id t = val id) ∧ (∃ key : TnKey, tn_key t = val key) ∧ moment (tn_at t).
Definition typed_user (u : UserEntry) : Prop :=
  (∃ id : UserId, us_id u = val id) ∧ (∃ p : PassphraseHash, us_passphrase u = val p) ∧
  (∃ kind, us_kind u = account_kind_name kind) ∧ moment (us_at u).
Definition typed_member (m : MemberEntry) : Prop :=
  (∃ s, mb_standing m = standing_name s) ∧ moment (mb_at m).
Definition typed_grant (g : GrantEntry) : Prop :=
  (∃ g' : Grant, well_scoped g' ∧ (is_Some (gt_tenant g) ↔ is_Some (scope_tenant (grant_scope g'))) ∧
     gt_api g = val <$> scope_api (grant_scope g') ∧
     gt_capability g = capability_name (grant_capability g')) ∧ moment (gt_at g).
Definition typed_route (r : RouteEntry) : Prop :=
  (∃ api : ApiId, rt_api r = val api) ∧ (∃ e, route_key r = endpoint_columns e) ∧
  (∃ s, rt_strategy r = strategy_name s) ∧ moment (rt_at r).
Definition typed_target (t : TargetEntry) : Prop :=
  ∃ w : Weighted, (tg_protocol t, tg_host t, tg_port t, tg_path t) = endpoint_columns (endpoint w)
    ∧ tg_weight t = val (weight w).
Definition typed_plugin (p : PluginEntry) : Prop :=
  pl_checksum p = plugin_hex (Checksum_of (pl_wasm p)) ∧ (∃ kind, pl_kind p = kind_name kind) ∧
  size_of (pl_wasm p) ≤ u64_max ∧ moment (pl_at p).
Definition typed_owner (o : OwnerEntry) : Prop := moment (ow_at o).
Definition typed_rule (r : RuleEntry) : Prop :=
  (∃ api : option ApiId, ru_api r = val <$> api) ∧ (∃ kind, ru_kind r = kind_name kind) ∧
  (∃ position : PluginOrder, ru_position r = val position) ∧ moment (ru_at r).
Definition typed_limit (l : LimitEntry) : Prop :=
  (∃ api : option ApiId, li_api l = val <$> api) ∧ (∃ c, li_counted l = counted_name c) ∧
  (∃ p, li_period l = period_name p) ∧ li_allowance l ≤ i64_max ∧ moment (li_at l).
Definition typed_usage (u : UsageEntry) : Prop :=
  ∃ (new : NewUsage) at_ row, u = usage_entry new at_ row ∧ moment at_ ∧ is_u32 (u_latency new).

Record typed (d : Db) : Prop := MkTyped {
  ty_tenants : Forall typed_tenant (rows (tenants d));
  ty_users : Forall typed_user (rows (users d));
  ty_members : Forall typed_member (memberships d);
  ty_grants : Forall typed_grant (rows (grants d));
  ty_routes : Forall typed_route (rows (routes d));
  ty_targets : Forall typed_target (rows (route_targets d));
  ty_plugins : Forall typed_plugin (rows (plugins d));
  ty_owners : Forall typed_owner (plugin_owners d);
  ty_rules : Forall typed_rule (rows (plugin_rules d));
  ty_limits : Forall typed_limit (rows (limits d));
  ty_usage : Forall typed_usage (rows (usage d))
}.

(** What every write keeps. *)
Definition stays_typed (d d' : Db) : Prop := typed d → typed d'.
#[export] Instance stays_typed_preorder : PreOrder stays_typed.
Proof using. split; [by intros d Ht|]. intros d e f Hde Hef Ht. by apply Hef, Hde. Qed.

Lemma typed_migrated : typed migrated.
Proof using. split; constructor. Qed.

(** A row that is added is the one the statement made. *)
Lemma Forall_append {R} `{!Row R} (Q : R → Prop) (mk : Z → R) (t : table R) r t' :
  append mk t = Ok (r, t') → (∀ i, Q (mk i)) → Forall Q (rows t) → Forall Q (rows t').
Proof using.
  unfold append. destruct (next_row_id _ _); [|done]. intros [= <- <-] Hmk Hall.
  by apply Forall_snoc.
Qed.

(** Takes a typed database apart and rebuilds it, table by table. *)
Ltac retype :=
  match goal with T : typed ?d |- typed _ => destruct T end;
  constructor; fields; cbn [rows update]; try assumption; auto using Forall_sub.

(** The guards of an insert are passed, and the row is at the end of its table. *)
Ltac passed :=
  repeat match goal with
  | Hs : (if ?b then _ else _) = Ok _ |- _ => destruct b; try discriminate Hs
  | Hs : mbind _ (append _ _) = Ok _ |- _ =>
      apply bind_ok in Hs as ([? ?] & Happ & Hs); cbv beta iota in Hs
  | Hs : Ok (_, _) = Ok (_, _) |- _ => injection Hs as _ <-
  end.

Lemma typed_insert_tenant (id : TenantId) (key : TnKey) at_ :
  moment at_ → allowed stays_typed (insert_into_tenants (val id) (val key) at_).
Proof using.
  intros Hat d x d' Hs Ht. unfold insert_into_tenants in Hs. passed. retype.
  eapply Forall_append; [done| |done]. intros i. unfold typed_tenant. cbn. eauto.
Qed.

Lemma typed_insert_user (id : UserId) (passphrase : PassphraseHash) kind at_ :
  moment at_ →
  allowed stays_typed (insert_into_users (val id) (val passphrase) (account_kind_name kind) at_).
Proof using.
  intros Hat d x d' Hs Ht. unfold insert_into_users in Hs. passed. retype.
  eapply Forall_append; [done| |done]. intros i. unfold typed_user. cbn. split_and!; eauto.
Qed.

Lemma typed_passphrase (id : UserId) (passphrase : PassphraseHash) :
  allowed stays_typed (update_passphrases (λ u, us_id u = val id) (val passphrase)).
Proof using.
  intros d x d' [= _ <-] Ht. retype. apply Forall_update; [|done]. intros u (Hid & Hp & Hk & Hm).
  unfold repassed. case_decide; [|done]. unfold typed_user. cbn. split_and!; eauto.
Qed.

Lemma typed_upsert_member tenant user standing at_ :
  moment at_ → allowed stays_typed (upsert_membership tenant user (standing_name standing) at_).
Proof using.
  intros Hat d x d' Hs Ht. unfold upsert_membership in Hs. passed; retype.
  - apply Forall_update; [|done]. intros m (Hst & Hm). unfold restood. case_decide; [|done].
    unfold typed_member. cbn. eauto.
  - apply Forall_snoc; [done|]. unfold typed_member. cbn. eauto.
Qed.

Lemma typed_insert_grant user (tenant : option Z) (g : Grant) at_ :
  (is_Some tenant ↔ is_Some (scope_tenant (grant_scope g))) → moment at_ → well_scoped g →
  allowed stays_typed (insert_into_grants user tenant (val <$> scope_api (grant_scope g))
    (capability_name (grant_capability g)) at_).
Proof using.
  intros Hsome Hat Hg d x d' Hs Ht. unfold insert_into_grants in Hs. passed. retype.
  eapply Forall_append; [done| |done]. intros i. split; [|done]. exists g. done.
Qed.

Lemma typed_upsert_route (api : ApiId) (key : Endpoint) strategy at_ :
  moment at_ →
  allowed stays_typed (upsert_route (val api) (protocol_name (protocol key)) (val (host key))
    (val (port key)) (val (path key)) (strategy_name strategy) at_).
Proof using.
  intros Hat d x d' Hs Ht. unfold upsert_route in Hs. destruct (List.find _ _) as [held|]; passed; retype.
  - apply Forall_update; [|done]. intros r (Ha & He & Hst & Hm). unfold rerouted.
    case_decide as Hk; [|done]. unfold typed_route. cbn. split_and!; eauto.
  - eapply Forall_append; [done| |done]. intros i. unfold typed_route. cbn. split_and!; eauto; by exists key.
Qed.

Lemma typed_insert_target route position (w : Weighted) :
  allowed stays_typed (insert_into_route_targets route position
    (protocol_name (protocol (endpoint w))) (val (host (endpoint w))) (val (port (endpoint w)))
    (val (path (endpoint w))) (val (weight w))).
Proof using.
  intros d x d' Hs Ht. unfold insert_into_route_targets in Hs. passed. retype.
  eapply Forall_append; [done| |done]. intros i. by exists w.
Qed.

Lemma typed_insert_plugin kind wasm at_ :
  moment at_ → size_of wasm ≤ u64_max →
  allowed stays_typed (insert_plugin_once (plugin_hex (Checksum_of wasm)) (kind_name kind) wasm at_).
Proof using.
  intros Hat Hsize d x d' Hs Ht. unfold insert_plugin_once in Hs. passed; [done|]. retype.
  eapply Forall_append; [done| |done]. intros i. unfold typed_plugin. cbn. split_and!; eauto.
Qed.

Lemma typed_insert_rule plugin tenant user (api : option ApiId) kind (position : PluginOrder) at_ :
  moment at_ →
  allowed stays_typed (insert_into_plugin_rules plugin tenant user (val <$> api) (kind_name kind)
    (val position) at_).
Proof using.
  intros Hat d x d' Hs Ht. unfold insert_into_plugin_rules in Hs. passed. retype.
  eapply Forall_append; [done| |done]. intros i. unfold typed_rule. cbn. split_and!; eauto.
Qed.

Lemma stored_allowance_bound (a : Allowance) : stored_allowance a ≤ i64_max.
Proof using. unfold stored_allowance. lia. Qed.

Lemma typed_upsert_limit tenant user (api : option ApiId) counted period (allowance : Allowance) at_ :
  moment at_ →
  allowed stays_typed (upsert_limit tenant user (val <$> api) (counted_name counted)
    (period_name period) (stored_allowance allowance) at_).
Proof using.
  intros Hat d x d' Hs Ht. pose proof (stored_allowance_bound allowance) as Hb.
  unfold upsert_limit in Hs. passed; retype.
  - apply Forall_update; [|done]. intros l (Ha & Hc & Hp & Hlow & Hm). unfold reallowed.
    case_decide; [|done]. unfold typed_limit. cbn. split_and!; eauto.
  - eapply Forall_append; [done| |done]. intros i. unfold typed_limit. cbn. split_and!; eauto.
Qed.

(** Deleting rows leaves the others as they were. *)
Ltac typed_delete := intros ? ? ? [= _ <-] ?; retype.

Lemma typed_writes : allowed_writes stays_typed True True True.
Proof using.
  split; intros; repeat match goal with HT : True → _ |- _ => specialize (HT I) end;
    try solve [typed_delete].
  - by apply typed_insert_tenant.
  - by apply typed_insert_user.
  - apply typed_passphrase.
  - by apply typed_upsert_member.
  - by apply typed_insert_grant; naive_solver.
  - by apply typed_upsert_route.
  - apply typed_insert_target.
  - by apply typed_insert_plugin; naive_solver.
  - intros d x d' Hs Ht. unfold delete_from_plugins in Hs. passed. retype.
  - intros d x d' Hs Ht. unfold insert_owner_once in Hs. passed; [done|]. retype.
    by apply Forall_snoc.
  - by apply typed_insert_rule.
  - by apply typed_upsert_limit.
  - intros d x d' Hs Ht. unfold insert_into_usage in Hs. passed. retype. apply Forall_snoc; [done|].
    by eexists _, _, _.
Qed.

(** ** What is read back *)

Lemma try_map_total {E A B} (f : A → result E B) (l : list A) :
  (∀ x, x ∈ l → ∃ y, f x = Ok y) → ∃ ys, try_map f l = Ok ys.
Proof using.
  induction l as [|x l IH]; intros Hl; [by exists []|].
  destruct (Hl x ltac:(apply list_elem_of_here)) as [y Hy].
  destruct IH as [ys Hys]; [intros z Hz; by apply Hl, list_elem_of_further|].
  exists (y :: ys). cbn. by rewrite Hy, Hys.
Qed.

(** Stored columns and the values they were written from. *)
Lemma stored_moment at_ : moment at_ → stored (from_unix_seconds at_) = Ok at_.
Proof using. intros Hm. by apply stored_ok. Qed.
Lemma stored_id {kind} (i : ident kind) : stored (new_ident (val i)) = Ok i.
Proof using. by apply stored_ident. Qed.
Lemma stored_standing s : Account.standing (standing_name s) = Ok s.
Proof using. by destruct s. Qed.
Lemma stored_account_kind k : account_kind (account_kind_name k) = Ok k.
Proof using. by destruct k. Qed.
Lemma stored_model (o : option ModelName) : stored (transpose (new_model_name <$> (val <$> o))) = Ok o.
Proof using. destruct o as [m|]; [|done]. cbn. unfold new_model_name. by rewrite refine_val. Qed.
Lemma stored_count (c : TokenCount) : token_count (val c) = Ok c.
Proof using. unfold token_count. by rewrite refine_val. Qed.
Lemma stored_served s : served (served_name s) = Ok s.
Proof using. by destruct s. Qed.
Lemma stored_latency l : is_u32 l → latency l = Ok l.
Proof using.
  intros Hl. unfold latency, from_millis. replace (l <? 0) with false by (unfold_bounds; lia).
  by rewrite (proj2 (try_unsigned_Some u32_max l l)) by (unfold_bounds; lia).
Qed.
Lemma stored_served_by (o : option Replica) :
  served_by_of ((λ r, val (replica_host r)) <$> o) ((λ r, val (replica_port r)) <$> o) = Ok o.
Proof using.
  destruct o as [[h p]|]; [|done]. cbn [fmap option_fmap option_map replica_host replica_port served_by_of].
  by rewrite new_host_val, port_of_i64_val.
Qed.

(** What a usage row was written from is what it is read as. *)
Lemma recorded_entry (u : NewUsage) at_ row :
  moment at_ → is_u32 (u_latency u) → recorded (usage_entry u at_ row) = Ok (MkUsage row u at_).
Proof using.
  intros Hat Hl. unfold recorded, usage_entry, TraceId_from_hex.
  cbn [ug_trace ug_turn ug_tenant ug_user ug_api ug_model ug_input ug_output ug_served ug_host
       ug_port ug_latency ug_at ug_row].
  rewrite decode_hex_encode. rewrite !stored_id, stored_model, !stored_count, stored_served,
    stored_served_by, stored_latency, stored_moment by done.
  rewrite transpose_ident. by destruct u as [? ? ? ? ? ? [] ? ? ?].
Qed.

(** The names joined to a row are those of values. *)
Section names.
Context (d : Db) (Ht : typed d).

Lemma tenant_name_id o n : tenant_name (tenants d) o = Some n → ∃ id : TenantId, n = val id.
Proof using Ht.
  intros (t & Hj & ->)%fmap_Some. destruct o as [i|]; [|done]. apply row_at_in in Hj as [Hin _].
  by destruct (proj1 (Forall_forall _ _) (ty_tenants d Ht) t Hin) as (Hid & _).
Qed.
Lemma user_name_id o n : user_name (users d) o = Some n → ∃ id : UserId, n = val id.
Proof using Ht.
  intros (u & Hj & ->)%fmap_Some. destruct o as [i|]; [|done]. apply row_at_in in Hj as [Hin _].
  by destruct (proj1 (Forall_forall _ _) (ty_users d Ht) u Hin) as (Hid & _).
Qed.
Lemma plugin_name_hex o n : plugin_name (plugins d) o = Some n → ∃ c : Checksum, n = plugin_hex c.
Proof using Ht.
  intros (p & Hj & ->)%fmap_Some. destruct o as [i|]; [|done]. apply row_at_in in Hj as [Hin _].
  destruct (proj1 (Forall_forall _ _) (ty_plugins d Ht) p Hin) as (-> & _). eauto.
Qed.
Lemma tenant_name_option o : ∃ id : option TenantId, tenant_name (tenants d) o = val <$> id.
Proof using Ht.
  destruct (tenant_name (tenants d) o) as [n|] eqn:E; [|by exists None].
  apply tenant_name_id in E as [id ->]. by exists (Some id).
Qed.
Lemma user_name_option o : ∃ id : option UserId, user_name (users d) o = val <$> id.
Proof using Ht.
  destruct (user_name (users d) o) as [n|] eqn:E; [|by exists None].
  apply user_name_id in E as [id ->]. by exists (Some id).
Qed.

Lemma tenant_reads id t : t ∈ rows (tenants d) → ∃ x, tenant_of_entry id t = Ok x.
Proof using Ht.
  intros (_ & [key Hk] & Hm)%(proj1 (Forall_forall _ _) (ty_tenants d Ht)).
  unfold tenant_of_entry, stored_tenant_key. rewrite Hk, refine_val, stored_moment by done. by eexists.
Qed.

Lemma user_reads id u : u ∈ rows (users d) → ∃ x, user_of_entry id u = Ok x.
Proof using Ht.
  intros (_ & [p Hp] & [k Hk] & Hm)%(proj1 (Forall_forall _ _) (ty_users d Ht)).
  unfold user_of_entry, new_passphrase_hash.
  rewrite Hp, refine_val, Hk, stored_account_kind, stored_moment by done. by eexists.
Qed.

Lemma member_reads m b :
  m ∈ memberships d → named_member (tenants d) (users d) m = Some b →
  (∃ t : TenantId, nm_tenant b = val t) ∧ (∃ u : UserId, nm_user b = val u) ∧
  (∃ s, nm_standing b = standing_name s) ∧ moment (mb_at m).
Proof using Ht.
  intros (Hs & Hm)%(proj1 (Forall_forall _ _) (ty_members d Ht)).
  intros (t & Htn & (u & Hun & [= <-])%bind_Some)%bind_Some. cbn.
  apply tenant_name_id in Htn. apply user_name_id in Hun. done.
Qed.

(** The row of a grant, with whatever user it is read for. *)
Lemma grant_reads user g b :
  sound d → g ∈ rows (grants d) → named_grant (tenants d) (users d) g = Some b →
  ∃ x, grant_of_row user (MkGrantRow (ng_tenant b) (ng_api b) (ng_capability b)) = Ok x ∧ moment (gt_at g).
Proof using Ht.
  intros Hd Hin (u & _ & [= <-])%bind_Some. cbn.
  assert (named (tenants d) (gt_tenant g)) as Href
    by exact (proj1 (Forall_forall _ _) (ref_grant_tenant d Hd) g Hin).
  destruct (proj1 (Forall_forall _ _) (ty_grants d Ht) g Hin) as ((g' & Hg & Hsome & Ha & Hc) & Hm).
  assert (∃ t : option TenantId, tenant_name (tenants d) (gt_tenant g) = val <$> t ∧
    (is_Some t ↔ is_Some (scope_tenant (grant_scope g')))) as (t & -> & Ht').
  { destruct (tenant_name_option (gt_tenant g)) as [t E]. exists t. split; [done|].
    rewrite <-Hsome. destruct (gt_tenant g) as [i|].
    - destruct (tenant_name_Some d Hd i Href) as [n Hn]. rewrite Hn in E. by destruct t.
    - destruct t; [done|]. split; intros Hc'; by apply is_Some_None in Hc'. }
  rewrite Ha, Hc. clear Hsome Ha Hc Hin Href.
  destruct g' as [c [u'|u' t'|u' t' a']]; unfold well_scoped in Hg; cbn in *.
  - destruct t; [by destruct (proj1 Ht' ltac:(eauto))|]. exists (MkGrant c (ScopeUser user)).
    split; [|done]. unfold grant_of_row. cbn. rewrite (proj2 (capability_ok _ c) eq_refl). cbn.
    by apply stored_ok, new_grant_ok.
  - destruct t as [t|]; [|by destruct (proj2 Ht' ltac:(eauto))]. exists (MkGrant c (ScopeTenant user t)).
    split; [|done]. unfold grant_of_row. cbn. rewrite stored_id. cbn.
    rewrite (proj2 (capability_ok _ c) eq_refl). cbn. by apply stored_ok, new_grant_ok.
  - destruct t as [t|]; [|by destruct (proj2 Ht' ltac:(eauto))]. exists (MkGrant c (ScopeApi user t a')).
    split; [|done]. unfold grant_of_row. cbn. rewrite !stored_id. cbn.
    rewrite (proj2 (capability_ok _ c) eq_refl). cbn. by apply stored_ok, new_grant_ok.
Qed.

Lemma plugin_reads p at_ :
  p ∈ rows (plugins d) → moment at_ →
  ∃ x, plugin_record (MkPluginEntry (pl_row p) (pl_checksum p) (pl_kind p) (pl_wasm p) at_) = Ok x.
Proof using Ht.
  intros (Hc & [k Hk] & Hs & _)%(proj1 (Forall_forall _ _) (ty_plugins d Ht)) Hm.
  unfold plugin_record, Checksum_from_hex, plugin_size.
  cbn [pl_row pl_checksum pl_kind pl_wasm pl_at]. rewrite Hc. unfold plugin_hex.
  rewrite decode_hex_encode, Hk, kind_from_name, stored_moment by done.
  assert (0 ≤ size_of (pl_wasm p)) by (unfold size_of; lia).
  rewrite (proj2 (try_unsigned_Some u64_max _ (size_of (pl_wasm p)))) by lia. by eexists.
Qed.

Lemma rule_reads r b :
  sound d → r ∈ rows (plugin_rules d) → named_rule (tenants d) (users d) (plugins d) r = Some b →
  (∃ x, rule_read b = Ok x) ∧ moment (ru_at r).
Proof using Ht.
  intros Hd Hin (p & [c ->]%plugin_name_hex & [= <-])%bind_Some.
  assert (named (tenants d) (ru_tenant r)) as Htn
    by exact (proj1 (Forall_forall _ _) (ref_rule_tenant d Hd) r Hin).
  pose proof (proj1 (Forall_forall _ _) (check_rules d Hd) r Hin) as Hck.
  destruct (proj1 (Forall_forall _ _) (ty_rules d Ht) r Hin) as ([a Ha] & [k Hk] & [o Ho] & Hm).
  split; [|done]. unfold rule_checks in Hck. apply andb_true_iff in Hck as [Hsc Hpos].
  assert (∃ s : PluginScope, plugin_scope (tenant_name (tenants d) (ru_tenant r))
    (user_name (users d) (ru_user r)) (ru_api r) = Ok s ∧ (s = GlobalScope ↔ ru_tenant r = None)) as (s & Hs & Hg).
  { destruct (ru_tenant r) as [i|].
    - destruct (tenant_name_Some d Hd i Htn) as [n Hn]. rewrite Hn. apply tenant_name_id in Hn as [t ->].
      destruct (user_name_option (ru_user r)) as [u ->]. rewrite Ha.
      exists (TenantScope t u a). split; [apply (plugin_scope_columns (TenantScope t u a))|done].
    - apply andb_true_iff in Hsc as [->%bool_decide_eq_true ->%bool_decide_eq_true]. by exists GlobalScope. }
  exists (MkPluginRule c k o s). unfold rule_read, rule_of_row, plugin_order, Checksum_from_hex, plugin_rule.
  cbn [row_position row_tenant row_user row_api row_checksum row_kind nl_plugin nl_kind nl_position
       nl_tenant nl_user nl_api].
  rewrite Ho, refine_val, Hs. unfold plugin_hex. rewrite decode_hex_encode, Hk, kind_from_name.
  assert (check_order o s = Ok tt) as E; [|cbn; by rewrite E].
  apply check_order_ok. rewrite Hg. rewrite Ho in Hpos. apply eqb_prop in Hpos.
  unfold is_primary. rewrite <-(bool_decide_eq_true (ru_tenant r = None)), Hpos. done.
Qed.

Lemma limit_reads l b :
  sound d → l ∈ rows (limits d) → named_limit (tenants d) (users d) l = Some b → ∃ x, limit_read b = Ok x.
Proof using Ht.
  intros Hd Hin (n & [t ->]%tenant_name_id & [= <-])%bind_Some.
  pose proof (proj1 (Forall_forall _ _) (check_limits d Hd) l Hin) as Hck.
  destruct (proj1 (Forall_forall _ _) (ty_limits d Ht) l Hin) as ([a Ha] & [c Hc] & [p Hp] & Hlow & Hm).
  destruct (user_name_option (li_user l)) as [u Hu]. unfold limit_checks in Hck.
  unfold limit_read. cbn [nk_tenant nk_user nk_api nk_counted nk_period nk_allowance nk_at].
  rewrite stored_id, Hu, Ha, Hc, counted_named_name, Hp, period_named_name.
  pose proof (transpose_ident u) as Eu. pose proof (transpose_ident a) as Ea.
  unfold UserId, ApiId in *. rewrite Eu, Ea.
  rewrite (proj2 (try_unsigned_Some u64_max _ (li_allowance l))) by (unfold_bounds; lia).
  assert (∃ x, new_allowance (li_allowance l) = Ok x) as [x Hx].
  { unfold new_allowance. destruct (refine _ _) as [x|e] eqn:E; [by exists x|].
    apply refine_err in E. unfold check_allowance in E.
    rewrite (proj2 (try_unsigned_Some u64_max _ (li_allowance l))) in E by (unfold_bounds; lia).
    by destruct (li_allowance l). }
  cbn. rewrite Hx, stored_moment by done. cbn. by eexists.
Qed.
End names.

(** *** Routes *)

Lemma columns_read (e : Endpoint) protocol host port path :
  (protocol, host, port, path) = endpoint_columns e → endpoint_from_parts protocol host port path = Ok e.
Proof using.
  unfold endpoint_columns. intros [= -> -> -> ->]. apply endpoint_roundtrip.
Qed.

Lemma target_reads t : typed_target t → ∃ w, target_of t = Ok w.
Proof using.
  intros (w & He%columns_read & Hw). exists w. unfold target_of. rewrite He, Hw, refine_val.
  by destruct w.
Qed.

Lemma from_weighted_some (l : list Weighted) : l ≠ [] → ∃ t : RouteTarget, from_weighted l = Ok t ∧ val t = l.
Proof using.
  intros Hl. unfold from_weighted. destruct (refine check_target l) as [t|e] eqn:E.
  - exists t. split; [done|]. by apply refine_ok in E as [_ ?].
  - apply refine_err in E. rewrite (proj2 (check_target_ok l) Hl) in E. done.
Qed.

(** What a route row holds, whatever endpoints are behind it. *)
Lemma route_reads r :
  typed_route r →
  ∃ (api : ApiId) key strategy, stored (new_ident (rt_api r)) = Ok api ∧
    stored (endpoint_from_parts (rt_protocol r) (rt_host r) (rt_port r) (rt_path r)) = Ok key ∧
    strategy_of r = Ok strategy ∧ moment (rt_at r).
Proof using.
  intros ([api Ha] & [key Hk%columns_read] & [s Hs] & Hm). exists api, key, s.
  rewrite Ha, Hk, stored_id. unfold strategy_of. by rewrite Hs, strategy_named_name.
Qed.

Lemma gather_reads row acc :
  typed_route row.1 → typed_target row.2 → ∃ acc', gather row acc = Ok acc'.
Proof using.
  intros (api & key & s & Ha & Hk & Hs & _)%route_reads [w Hw]%target_reads.
  unfold gather. destruct acc as [rules current]. rewrite Hw. cbn [mbind result_bind].
  destruct (if bool_decide (current = Some (rt_row row.1)) then last rules else None) as [rule|].
  - destruct (from_weighted_some (val (rule_target rule) ++ [w])) as (t & -> & _);
      [by destruct (val (rule_target rule))|]. by eexists.
  - destruct (from_weighted_some [w]) as (t & Et & _); [done|].
    rewrite Ha, Hk, Et, Hs. by eexists.
Qed.

Lemma gather_listed_reads row acc :
  typed_route row.1 → typed_target row.2 → ∃ acc', gather_listed row acc = Ok acc'.
Proof using.
  intros (api & key & s & Ha & Hk & Hs & Hm)%route_reads [w Hw]%target_reads.
  unfold gather_listed. destruct acc as [rules current]. rewrite Hw. cbn [mbind result_bind].
  destruct (if bool_decide (current = Some (rt_row row.1)) then last rules else None) as [rule|].
  - destruct (from_weighted_some (val (rule_target (item rule)) ++ [w])) as (t & -> & _);
      [by destruct (val (rule_target (item rule)))|]. by eexists.
  - destruct (from_weighted_some [w]) as (t & Et & _); [done|].
    rewrite Ha, Hk, Et, Hs, stored_moment by done. by eexists.
Qed.

Definition typed_row (row : RouteEntry * TargetEntry) : Prop := typed_route row.1 ∧ typed_target row.2.

Lemma gather_all_reads found acc : Forall typed_row found → ∃ l, gather_all found acc = Ok l.
Proof using.
  intros Hf. revert acc. induction Hf as [|row found [Hr Ht] _ IH]; intros acc; [by eexists|].
  cbn. destruct (gather_reads row acc Hr Ht) as [acc' ->]. apply IH.
Qed.
Lemma gather_all_listed_reads found acc :
  Forall typed_row found → ∃ l, gather_all_listed found acc = Ok l.
Proof using.
  intros Hf. revert acc. induction Hf as [|row found [Hr Ht] _ IH]; intros acc; [by eexists|].
  cbn. destruct (gather_listed_reads row acc Hr Ht) as [acc' ->]. apply IH.
Qed.

Lemma joined_typed (d : Db) (l : list RouteEntry) row :
  typed d → (∀ r, r ∈ l → r ∈ rows (routes d)) →
  row ∈ (l ≫= λ r, pair r <$> filter (λ t, tg_route t = rt_row r) (rows (route_targets d))) →
  typed_row row.
Proof using.
  intros Ht Hl (r & Hr & Hin)%list_elem_of_bind.
  apply list_elem_of_fmap in Hr as (t & -> & [_ Hin']%list_elem_of_filter). split; cbn.
  - by apply (proj1 (Forall_forall _ _) (ty_routes d Ht)), Hl.
  - by apply (proj1 (Forall_forall _ _) (ty_targets d Ht)).
Qed.

(** ** No read is ever refused for what it reads *)

(** A read that ends with an answer. *)
Definition answered {A} (p : sql Db A) (d : Db) : Prop := ∃ a, (exec p d).1 = Ok a.

Record reads_back (d : Db) : Prop := MkReadsBack {
  rb_tenant : ∀ id, answered (read_tenant id) d;
  rb_user : ∀ id, answered (read_user id) d;
  rb_membership : ∀ user tenant, answered (membership user tenant) d;
  rb_memberships : ∀ user, answered (memberships_of_user user) d;
  rb_members : ∀ tenant, answered (members_of_tenant tenant) d;
  rb_grants : ∀ user, answered (grants_of user) d;
  rb_grants_in : ∀ user tenant, answered (grants_in_tenant user tenant) d;
  rb_plugin : ∀ checksum, answered (read_plugin checksum) d;
  rb_plugins : answered read_plugins d;
  rb_rules : answered read_rules d;
  rb_rules_for : ∀ tenant, answered (rules_for_tenant tenant) d;
  rb_route : ∀ key, answered (read_route key) d;
  rb_routes : answered read_routes d;
  rb_limits : answered read_limits d;
  rb_usage : ∀ row, answered (read_usage row) d;
  rb_list_members : ∀ tenant page, answered (list_members tenant page) d;
  rb_list_tenant_grants : ∀ user tenant page, answered (list_tenant_grants user tenant page) d;
  rb_list_account_grants : ∀ user page, answered (list_account_grants user page) d;
  rb_list_routes : ∀ page, answered (list_routes page) d;
  rb_list_limits : ∀ tenant page, answered (list_limits tenant page) d;
  rb_list_usage : ∀ filter page, answered (list_usage filter page) d;
  rb_list_rules : ∀ tenant page, answered (list_rules tenant page) d
}.

(** A read is one statement and what is made of its answer. *)
Lemma answered_read {X A} (f : Db → X) (g : X → result StorageError A) d :
  (∃ a, g (f d) = Ok a) → answered (x ← select f; pure (g x)) d.
Proof using. intros [a Ha]. exists a. unfold select. sql_run. done. Qed.

Lemma transpose_total {E A B} (f : A → result E B) (o : option A) :
  (∀ a, o = Some a → ∃ b, f a = Ok b) → ∃ x, transpose (f <$> o) = Ok x.
Proof using. destruct o as [a|]; [|by eexists]. intros Ho. destruct (Ho a eq_refl) as [b Hb]. cbn. rewrite Hb. by eexists. Qed.

Lemma fmap_total {E A B} (f : A → B) (r : result E A) : (∃ a, r = Ok a) → ∃ b, f <$> r = Ok b.
Proof using. intros [a ->]. by eexists. Qed.

Lemma page_of_in {R} (p : Page) (at_ row : R → Z) (l : list R) x : x ∈ page_of p at_ row l → x ∈ l.
Proof using.
  unfold page_of. intros Hx%elem_of_take. destruct Hx as (i & Hx & _).
  rewrite lookup_drop in Hx. apply list_elem_of_lookup_2 in Hx.
  apply elem_of_sort_by, list_elem_of_filter in Hx. by destruct Hx.
Qed.

(** The rows a read was handed are rows of the tables. *)
Ltac origin :=
  repeat match goal with
  | Hin : _ ∈ page_of _ _ _ _ |- _ => apply page_of_in in Hin
  | Hin : _ ∈ sort_by _ _ |- _ => apply elem_of_sort_by in Hin
  | Hin : _ ∈ filter _ _ |- _ => apply list_elem_of_filter in Hin as [_ Hin]
  | Hin : _ ∈ omap (λ a, pair a <$> _) _ |- _ =>
      apply list_elem_of_omap in Hin as (? & Hin & (? & ? & ->)%fmap_Some)
  | Hin : _ ∈ omap _ _ |- _ => apply list_elem_of_omap in Hin as (? & Hin & ?)
  | Hin : List.find _ _ = Some _ |- _ => apply find_elem_of in Hin as [Hin _]
  | Hin : row_at _ _ = Some _ |- _ => apply row_at_in in Hin as [Hin _]
  end.

Section reads.
Context (d : Db) (Hd : sound d) (Ht : typed d).

Lemma listed_total {T} at_ (r : result StorageError T) :
  moment at_ → (∃ x, r = Ok x) → ∃ x, listed at_ r = Ok x.
Proof using. intros Hm [x ->]. unfold listed. cbn. rewrite stored_moment by done. by eexists. Qed.

Lemma usage_reads u : u ∈ rows (usage d) → ∃ x, recorded u = Ok x.
Proof using Ht.
  intros (new & at_ & row & -> & Hat & Hl)%(proj1 (Forall_forall _ _) (ty_usage d Ht)).
  rewrite recorded_entry by done. by eexists.
Qed.

Lemma route_rows_read key found :
  Forall typed_row found → ∃ x, route_of_rows key found = Ok x.
Proof using.
  intros Hf. destruct found as [|first found]; [by eexists|]. unfold route_of_rows.
  destruct (try_map_total (λ row : RouteEntry * TargetEntry, target_of row.2) (first :: found)) as [l Hl].
  { intros row Hrow. apply target_reads. by destruct (proj1 (Forall_forall _ _) Hf row Hrow). }
  rewrite Hl. apply try_map_ok in Hl. apply Forall_cons in Hf as [[Hr _] _].
  destruct (route_reads _ Hr) as (api & k & s & -> & _ & -> & _).
  destruct (from_weighted_some l) as (t & Et & _); [by destruct l; inversion Hl|].
  cbn [mbind result_bind]. rewrite Et. by eexists.
Qed.

Lemma typed_rows (l : list RouteEntry) found :
  (∀ r, r ∈ l → r ∈ rows (routes d)) →
  (∀ row, row ∈ found → row ∈ (l ≫= λ r, pair r <$> filter (λ t, tg_route t = rt_row r) (rows (route_targets d)))) →
  Forall typed_row found.
Proof using Ht.
  intros Hl Hf. apply Forall_forall. intros row Hrow%Hf. by eapply joined_typed.
Qed.

Lemma identity_reads_back :
  (∀ id, answered (read_tenant id) d) ∧ (∀ id, answered (read_user id) d) ∧
  (∀ user tenant, answered (membership user tenant) d) ∧
  (∀ user, answered (memberships_of_user user) d) ∧
  (∀ tenant, answered (members_of_tenant tenant) d) ∧
  (∀ user, answered (grants_of user) d) ∧
  (∀ user tenant, answered (grants_in_tenant user tenant) d).
Proof using Hd Ht.
  split_and!; intros; apply answered_read; try apply transpose_total; try apply fmap_total;
    try apply try_map_total; cbv beta; intros x Hx; unfold members_joined, grants_joined, tenant_named, user_named in Hx;
    origin.
  - by eapply tenant_reads.
  - by eapply user_reads.
  - eapply member_reads in Hx as (_ & _ & [s ->] & _); [|done..]. rewrite stored_standing. by eexists.
  - eapply member_reads in Hx as ([t ->] & _ & [s ->] & _); [|done..].
    rewrite stored_id, stored_standing. by eexists.
  - eapply member_reads in Hx as (_ & [u ->] & [s ->] & _); [|done..].
    rewrite stored_id, stored_standing. by eexists.
  - unfold grant_read. edestruct (grant_reads d Ht user) as (y & Hy & _); eauto.
  - unfold grant_read. edestruct (grant_reads d Ht user) as (y & Hy & _); eauto.
Qed.

Lemma rules_read_back :
  (∀ checksum, answered (read_plugin checksum) d) ∧ answered read_plugins d ∧
  answered read_rules d ∧ (∀ tenant, answered (rules_for_tenant tenant) d) ∧
  (∀ key, answered (read_route key) d) ∧ answered read_routes d ∧ answered read_limits d ∧
  (∀ row, answered (read_usage row) d).
Proof using Hd Ht.
  split_and!; intros; apply answered_read; try apply transpose_total;
    try apply try_map_total; cbv beta.
  - intros p Hp. unfold plugin_called in Hp. origin. apply fmap_total.
    destruct (plugin_reads d Ht p (pl_at p)) as [x Hx]; [done| |by destruct p; eauto].
    by destruct (proj1 (Forall_forall _ _) (ty_plugins d Ht) p Hp) as (_ & _ & _ & ?).
  - intros p Hp. origin. destruct (plugin_reads d Ht p (pl_at p)) as [x Hx]; [done| |by destruct p; eauto].
    by destruct (proj1 (Forall_forall _ _) (ty_plugins d Ht) p Hp) as (_ & _ & _ & ?).
  - intros r Hr. unfold rules_joined in Hr. origin. by eapply rule_reads.
  - intros r Hr. unfold rules_joined in Hr. origin. by eapply rule_reads.
  - apply route_rows_read, (typed_rows (rows (routes d))); [done|]. intros row Hrow. origin. done.
  - apply gather_all_reads, (typed_rows (rows (routes d))); [done|]. intros row Hrow. origin. done.
  - intros r Hr. unfold limits_newest_first, limits_joined in Hr. origin. by eapply limit_reads.
  - intros u Hu. origin. by apply usage_reads.
Qed.

(** Where a row of a page comes from. *)
Lemma listed_origin {A B} (p : Page) (at_ row : B → Z) (P : B → Prop) `{∀ b, Decision (P b)}
    (f : A → option B) (l : list A) x :
  x ∈ page_of p at_ row (filter P (omap f l)) → P x ∧ ∃ a, a ∈ l ∧ f a = Some x.
Proof using. intros [HP Hx]%page_of_in%list_elem_of_filter. by apply list_elem_of_omap in Hx. Qed.

Lemma lists_read_back :
  (∀ tenant page, answered (list_members tenant page) d) ∧
  (∀ user tenant page, answered (list_tenant_grants user tenant page) d) ∧
  (∀ user page, answered (list_account_grants user page) d) ∧
  (∀ page, answered (list_routes page) d) ∧
  (∀ tenant page, answered (list_limits tenant page) d) ∧
  (∀ filter page, answered (list_usage filter page) d) ∧
  (∀ tenant page, answered (list_rules tenant page) d).
Proof using Hd Ht.
  split_and!; intros; apply answered_read; try apply try_map_total; cbv beta.
  - intros r (_ & m & Hm & (b & Hb & ->)%fmap_Some)%listed_origin. cbn [fst snd].
    destruct (member_reads d Ht m b Hm Hb) as (_ & [u ->] & [s ->] & Hat).
    rewrite stored_standing, stored_id. apply listed_total; [done|]. by eexists.
  - intros r ((_ & Etn) & g & Hg & (b & Hb & ->)%fmap_Some)%listed_origin. cbn [fst snd] in *.
    destruct (grant_reads d Ht user g b Hd Hg Hb) as (y & Hy & Hat).
    apply bind_Some in Hb as (u & _ & [= <-]). cbn in *. rewrite Etn in Hy.
    apply listed_total; [done|]. eauto.
  - intros r ((_ & Etn) & g & Hg & (b & Hb & ->)%fmap_Some)%listed_origin. cbn [fst snd] in *.
    destruct (grant_reads d Ht user g b Hd Hg Hb) as (y & Hy & Hat).
    apply bind_Some in Hb as (u & _ & [= <-]). cbn in *. rewrite Etn in Hy.
    apply listed_total; [done|]. eauto.
  - eapply gather_all_listed_reads, typed_rows; [|intros row Hrow; origin; exact Hrow].
    intros r Hr. by apply page_of_in in Hr.
  - intros r (_ & l & Hl & (b & Hb & ->)%fmap_Some)%listed_origin. by eapply limit_reads.
  - intros u Hu. origin. by apply usage_reads.
  - intros r (_ & ru & Hru & (b & Hb & ->)%fmap_Some)%listed_origin. cbn [fst snd].
    destruct (rule_reads d Ht ru b Hd Hru Hb) as [Hx Hm]. by apply listed_total.
Qed.
End reads.

Lemma typed_reads_back d : sound d → typed d → reads_back d.
Proof using.
  intros Hd Ht. destruct (identity_reads_back d Hd Ht) as (? & ? & ? & ? & ? & ? & ?).
  destruct (rules_read_back d Hd Ht) as (? & ? & ? & ? & ? & ? & ? & ?).
  destruct (lists_read_back d Hd Ht) as (? & ? & ? & ? & ? & ? & ?). by constructor.
Qed.

Lemma perform_typed c d r d' : admissible c → typed d → runs (perform c) d r d' → typed d'.
Proof.
  intros Hc Hd Hr. eapply (runs_obeys stays_typed); [|exact Hr|done].
  by apply (perform_obeys stays_typed True True True typed_writes).
Qed.

Lemma run_typed calls d : Forall admissible calls → typed d → typed (run calls d).2.
Proof using.
  intros Hc. revert d. induction Hc as [|c calls Hc _ IH]; intros d Hd; cbn; [done|].
  pose proof (perform_typed c d _ _ Hc Hd (runs_exec (perform c) d)) as Ht1.
  destruct (exec (perform c) d) as [r d1]. specialize (IH d1 Ht1). by destruct (run calls d1).
Qed.

(** ** Properties *)

End typed.

Module TypedSample.
Import SampleCrypto SampleChrono StoreSample.

Lemma held_typed : typed held.
Proof. apply run_typed; [apply setup_admissible|apply typed_migrated]. Qed.

End TypedSample.
