(* ===== verification/Contract.v ===== *)
(** * Contract: what the stores promise, for every run and to the layers above

    Three promises about any sequence or interleaving of calls, failures included: the tables
    stay sound, a call happens as a whole or not at all, and the identity stores do by name what
    [IdentitySpec] and [Workflow] say. *)
From S2P Require Import Prelude Text Ident Key Capability Route LimitCore PluginCore Account.
From S2P Require Import Cache CacheTrait Auth Limiter Recorder Sql Schema Integrity Named.
From S2P Require Import IdentityStore IdentitySpec Workflow PluginStore RouteStore LimitStore.
From S2P Require Import ListStore Store Revision Typed.

Section contract.
Context `{Engine} `{Chrono} `{Crypto}.

Lemma typed_readable d : sound d → typed d → readable (named_of d).
Proof.
  intros Hd Ht. split; cbn.
  - apply Forall_fmap. exact (ty_tenants d Ht).
  - apply Forall_fmap. exact (ty_users d Ht).
  - apply Forall_forall. intros b (m & Hm & Hb)%list_elem_of_omap.
    destruct (member_reads d Ht m b Hm Hb) as (? & ? & ? & ?).
    apply bind_Some in Hb as (t & _ & (u & _ & [= <-])%bind_Some). done.
  - apply Forall_forall. intros b (g & Hg & Hb)%list_elem_of_omap.
    assert (∃ u : UserId, ng_user b = val u) as [u Hu].
    { apply bind_Some in Hb as (n & Hn & [= <-]). by eapply user_name_id. }
    destruct (grant_reads d Ht u g b Hd Hg Hb) as (x & Hx & Hm).
    apply grant_row_roundtrip in Hx as (Eu & Hk & [= Et Ea Ec]).
    split; [exists x; split; [done|]|by apply bind_Some in Hb as (n & Hn & [= <-])].
    unfold grant_names, names_of_grant. by rewrite Hu, Et, Ea, Ec, Eu.
Qed.

(** ** The identity stores, by name *)

(** The contract of a call of the identity stores. *)
Definition spec_of (c : Call) : option (Named → result StorageError unit * Named) :=
  match c with
  | CreateTenant now new => Some (spec_create_tenant now new)
  | DeleteTenant id => Some (spec_delete_tenant id)
  | CreateUser now new => Some (spec_create_user now new)
  | SetPassphrase id passphrase => Some (spec_set_passphrase id passphrase)
  | DeleteUser id => Some (spec_delete_user id)
  | Attach now m => Some (spec_attach now m)
  | GrantTo now g => Some (spec_grant now g)
  | RevokeFrom g => Some (spec_revoke g)
  | CreateTenantWithOwner now tenant owner standing => Some (spec_user_create now tenant owner standing)
  | AddMember now user tenant standing => Some (spec_member_add now user tenant standing)
  | RemoveMember user tenant => Some (spec_member_remove user tenant)
  | _ => None
  end.

(** What a caller may see of a sequence of calls: each does what its contract says, or reports
    that the database failed and has done nothing. *)
Inductive follows : list Call → Named → list (result StorageError unit) → Named → Prop :=
  | follows_nil n : follows [] n [] n
  | follows_spec c f calls n r n1 rs n' :
      spec_of c = Some f → f n = (r, n1) → follows calls n1 rs n' →
      follows (c :: calls) n (r :: rs) n'
  | follows_failed c calls n rs n' :
      follows calls n rs n' → follows (c :: calls) n (Err Backend :: rs) n'.

Lemma refines_done {A} (p : sql Db A) spec : refines p spec → refines (done p) spec.
Proof.
  intros Hp d Hd Hr. unfold done. rewrite exec_bind. destruct (Hp d Hd Hr) as [E|E].
  - left. by rewrite E.
  - right. rewrite <-E. by destruct (exec p d) as [[a|e] d'].
Qed.

Lemma perform_refines c f : admissible c → spec_of c = Some f → refines (perform c) f.
Proof.
  intros [Hm _]. destruct c; intros [= <-]; apply refines_done.
  - apply create_tenant_refines.
  - apply delete_tenant_refines.
  - apply create_user_refines.
  - apply set_passphrase_refines.
  - apply delete_user_refines.
  - apply attach_refines.
  - apply grant_refines.
  - apply revoke_refines.
  - by apply user_create_refines.
  - by apply member_add_refines.
  - apply member_remove_refines.
Qed.

Lemma unit_map (r : result StorageError unit) : (λ _ : unit, tt) <$> r = r.
Proof. by destruct r as [[]|]. Qed.

(** One call, as the contract has it. *)
Lemma perform_follows c f d r d' :
  sound d → typed d → admissible c → spec_of c = Some f → runs (perform c) d r d' →
  f (named_of d) = (r, named_of d') ∨ (r = Err Backend ∧ named_of d' = named_of d).
Proof.
  intros Hd Ht Hc Hf Hr.
  apply one_write_runs in Hr as [E|[-> ->]]; [|by right|apply perform_one_write].
  destruct (perform_refines c f Hc Hf d Hd (typed_readable d Hd Ht)) as [Ef|Ef].
  - right. rewrite Ef in E. by injection E as <- <-.
  - left. rewrite E in Ef. cbn in Ef. by rewrite unit_map in Ef.
Qed.

Lemma ran_follows (calls : list Call) d rs d' :
  sound d → typed d → Forall admissible calls → Forall (λ c, is_Some (spec_of c)) calls →
  ran calls d rs d' → follows calls (named_of d) rs (named_of d').
Proof.
  intros Hd Ht Hc Hi Hr. revert Hd Ht Hc Hi.
  induction Hr as [d|c calls d r d1 rs d' Hr _ IH]; intros Hd Ht Hc Hi; [constructor|].
  apply Forall_cons in Hc as [Hc Hcs]. apply Forall_cons in Hi as [[f Hf] His].
  assert (follows calls (named_of d1) rs (named_of d')) as Hrest.
  { apply IH; [by eapply perform_intact|by eapply perform_typed|done|done]. }
  destruct (perform_follows c f d r d1 Hd Ht Hc Hf Hr) as [E|[-> E]]; [by econstructor|].
  rewrite E in Hrest. by constructor.
Qed.

(** ** Properties *)

(** C9: the tables stay sound: from a sound database, while any number of connections run any
    calls of the stores, their statements interleaved in any way and any of them failing, every
    row id names one row, every unique index holds, every foreign key names a row that is there,
    and every check of the schema is kept. *)
Theorem store_sound (calls : list Call) d ps d' :
  sound d → rtc pool_step (perform <$> calls, d) (ps, d') → sound d'.
Proof.
  intros Hd Hs. destruct (pool_obeys intact _ _ _ _ Hs) as [Hk _]; [|by apply Hk].
  apply Forall_fmap, Forall_true. intros c. by apply (perform_obeys intact False True True intact_writes).
Qed.

(** C20: a call happens as a whole or not at all: whichever statement of it fails, the commit
    included, it did exactly what it would have done on a database that never fails, or it
    reports that the database failed and not a row is different. *)
Theorem store_atomic (c : Call) d r d' :
  runs (perform c) d r d' → exec (perform c) d = (r, d') ∨ (d' = d ∧ r = Err Backend).
Proof. apply one_write_runs, perform_one_write. Qed.

(** C8: the identity stores refine their contract: whatever sequence of calls that create,
    change and delete tenants, users, memberships and grants is run on a database the stores
    wrote, with any statement failing, the replies and the tables by name are those of the
    contract, in which a call does what it says or reports that the database failed and does
    nothing; row ids, keys and cascades never show. *)
Theorem identity_refines (calls : list Call) d rs d' :
  sound d → typed d → Forall admissible calls → Forall (λ c, is_Some (spec_of c)) calls →
  ran calls d rs d' → follows calls (named_of d) rs (named_of d').
Proof. apply ran_follows. Qed.
End contract.

Module ContractSample.
Import SampleCrypto SampleChrono StoreSample.

Lemma store_sound_witness : sound held.
Proof.
  apply (store_sound setup migrated (Done unit <$> (run setup migrated).1)).
  - apply sound_migrated.
  - apply pool_run.
Defined.

(** The tenant is inserted, and then its owner is not. *)
Lemma store_atomic_witness :
  exec (perform (CreateTenantWithOwner 1000 acme owner Owner)) migrated = (Err Backend, migrated) ∨
  (migrated = migrated ∧ @Err StorageError unit Backend = Err Backend).
Proof.
  apply store_atomic. right. eexists Backend, _. split; [left; right; split; reflexivity|].
  split; reflexivity.
Defined.

Lemma identity_refines_witness :
  follows (take 3 setup) (named_of migrated) (run (take 3 setup) migrated).1
    (named_of (run (take 3 setup) migrated).2).
Proof.
  apply identity_refines.
  - apply sound_migrated.
  - apply typed_migrated.
  - apply Forall_take, setup_admissible.
  - repeat constructor; by eexists.
  - apply run_ran.
Defined.
End ContractSample.
