(* ===== verification/Access.v ===== *)
(** * Access: requests verified against the database

    [Auth] is written against an interface, [Storage], of what is stored and the little it
    relies on.  A database discharges it with the reads of [IdentityStore]; so what a call of
    the stores does to the tables and what the verifier then says of a signed request can be
    put together. *)
From S2P Require Import Prelude Text Ident Key Capability Route LimitCore PluginCore Account.
From S2P Require Import Cache Sled CacheTrait Auth Limiter Recorder Sql Schema Integrity Named.
From S2P Require Import IdentityStore IdentitySpec Workflow PluginStore RouteStore LimitStore.
From S2P Require Import ListStore Store Revision Typed Contract.

Section access.
Context `{Engine} `{Chrono} `{Crypto}.

(** The store a verifier is handed, as of one database. *)
Program Definition stored_in (d : Db) : Storage := {|
  store_user u := (exec (read_user u) d).1;
  store_tenant t := (exec (read_tenant t) d).1;
  store_membership u t := (exec (membership u t) d).1;
  store_grants_of u := (exec (grants_of u) d).1
|}.
Next Obligation.
  intros d u r. cbv beta. unfold read_user. sql_run. destruct (user_named u d) as [e|]; [|done]. cbn.
  destruct (user_of_entry u e) as [x|] eqn:E; [|done]. intros [= ->].
  apply bind_ok in E as (? & _ & (? & _ & (? & _ & [= <-])%bind_ok)%bind_ok). done.
Qed.
Next Obligation.
  intros d t r. cbv beta. unfold read_tenant. sql_run. destruct (tenant_named t d) as [e|]; [|done]. cbn.
  destruct (tenant_of_entry t e) as [x|] eqn:E; [|done]. intros [= ->].
  apply bind_ok in E as (? & _ & (? & _ & [= <-])%bind_ok). done.
Qed.
Next Obligation.
  intros d u t m. cbv beta. unfold membership. sql_run. destruct (List.find _ _) as [b|]; [|done]. cbn.
  destruct (Account.standing (nm_standing b)) as [s|]; [|done]. by intros [= <-].
Qed.

(** What the reads find, by name. *)
Lemma no_user_read d u : has_user u (named_of d) = false → (exec (read_user u) d).1 = Ok None.
Proof. rewrite has_user_named. unfold read_user. sql_run. by destruct (user_named u d). Qed.
Lemma no_tenant_read d t : has_tenant t (named_of d) = false → (exec (read_tenant t) d).1 = Ok None.
Proof. rewrite has_tenant_named. unfold read_tenant. sql_run. by destruct (tenant_named t d). Qed.
Lemma no_member_read d u t :
  (∀ m, m ∈ n_members (named_of d) → ¬ is_member u t m) → (exec (membership u t) d).1 = Ok None.
Proof.
  intros Hno. unfold membership. sql_run. destruct (List.find _ _) as [b|] eqn:E; [|done].
  apply find_elem_of in E as [Hb Hm]. destruct (Hno b Hb).
  by apply andb_true_iff in Hm as [?%bool_decide_eq_true ?%bool_decide_eq_true].
Qed.

(** A grant that is read is one of the rows. *)
Lemma grants_read_row d u gs g :
  (exec (grants_of u) d).1 = Ok gs → g ∈ gs →
  ∃ b, b ∈ n_grants (named_of d) ∧ ng_user b = val u ∧ ng_tenant b = val <$> scope_tenant (grant_scope g).
Proof.
  unfold grants_of. sql_run. destruct (try_map _ _) as [l|] eqn:E; [|done]. cbn. intros [= <-] Hg.
  apply elem_of_list_to_set in Hg. apply try_map_ok in E.
  apply list_elem_of_lookup in Hg as [i Hi]. destruct (Forall2_lookup_r _ _ _ _ _ E Hi) as (b & Hb & Hr).
  apply list_elem_of_lookup_2, list_elem_of_filter in Hb as [Hu Hb]. exists b. split; [done|]. split; [done|].
  by apply grant_row_roundtrip in Hr as (_ & _ & [= -> _ _]).
Qed.

(** The calls that end what a user may do in a tenant. *)
Definition ends_access (user : UserId) (tenant : TenantId) (c : Call) : Prop :=
  c = RemoveMember user tenant ∨ c = DeleteTenant tenant ∨ c = DeleteUser user.

(** What is left by name: one of the three records is gone, and every grant in the tenant is. *)
Definition no_access (user : UserId) (tenant : TenantId) (n : Named) : Prop :=
  (has_user user n = false ∨ has_tenant tenant n = false ∨
   ∀ m, m ∈ n_members n → ¬ is_member user tenant m) ∧
  ∀ g, g ∈ n_grants n → ng_user g = val user → ng_tenant g ≠ Some (val tenant).

Lemma ends_access_spec user tenant c f n n' :
  ends_access user tenant c → spec_of c = Some f → f n = (Ok tt, n') → no_access user tenant n'.
Proof.
  intros [->|[->| ->]] [= <-]; cbn.
  - unfold spec_member_remove. case_bool_decide; [done|]. intros [= <-]. split; cbn.
    + right; right. intros m [Hm _]%list_elem_of_filter. done.
    + intros g [Hg _]%list_elem_of_filter Hu Ht. by apply Hg.
  - unfold spec_delete_tenant. destruct (has_tenant _ _); [|done]. intros [= <-]. split; cbn.
    + right; left. apply bool_decide_eq_false. cbn.
      intros (t & E & [Ht _]%list_elem_of_filter)%list_elem_of_fmap. by apply Ht.
    + intros g [Hg _]%list_elem_of_filter _. done.
  - unfold spec_delete_user. destruct (has_user _ _); [|done]. intros [= <-]. split; cbn.
    + left. apply bool_decide_eq_false. cbn.
      intros (t & E & [Ht _]%list_elem_of_filter)%list_elem_of_fmap. by apply Ht.
    + intros g [Hg _]%list_elem_of_filter Hu. by destruct Hg.
Qed.

(** ** Properties *)

(** C7: whoever lost access is refused: once a member was removed from a tenant, or the tenant
    or the account was deleted, and whatever else failed, every request of that user for that
    tenant is refused, however it is signed and wherever it comes from, without so much as
    spending its nonce; and none of the user's grants that are read back is for that tenant. *)
Theorem access_lost (user : UserId) (tenant : TenantId) (c : Call) d d' {St} `{!Cache St}
    (ttl : Ttl) (r : SignedRequest) (origin : IpAddr) (now : Z) (s : St) :
  sound d → typed d → ends_access user tenant c → runs (perform c) d (Ok tt) d' →
  req_user r = user → req_tenant r = tenant →
  (∃ e, verify (H0 := stored_in d') ttl r origin now s = (Err e, s)) ∧
  ∀ gs g, (exec (grants_of user) d').1 = Ok gs → g ∈ gs →
    scope_tenant (grant_scope g) ≠ Some tenant.
Proof.
  intros Hd Ht Hc Hr <- <-.
  assert (∃ f, spec_of c = Some f) as [f Hf] by (destruct Hc as [->|[->| ->]]; by eexists).
  assert (admissible c) as Ha by (by destruct Hc as [->|[->| ->]]).
  destruct (perform_follows c f d _ _ Hd Ht Ha Hf Hr) as [E|[? _]]; [|done].
  destruct (ends_access_spec _ _ c f _ _ Hc Hf E) as [Hno Hgr]. split.
  - unfold verify. destruct (established r origin) as [who|e] eqn:Hw; [|by eexists].
    apply established_ok in Hw as (u & t & m & Hu & Htn & Hm & _).
    destruct Hno as [Hn|[Hn|Hn]].
    + apply no_user_read in Hn. cbn [store_user stored_in] in Hu. by rewrite Hn in Hu.
    + apply no_tenant_read in Hn. cbn [store_tenant stored_in] in Htn. by rewrite Hn in Htn.
    + apply no_member_read in Hn. cbn [store_membership stored_in] in Hm. by rewrite Hn in Hm.
  - intros gs g Hgs Hg Eg. destruct (grants_read_row _ _ _ _ Hgs Hg) as (b & Hb & Hu & Htn).
    apply (Hgr b Hb Hu). rewrite Htn, Eg. done.
Qed.
End access.

Module AccessSample.
Import SampleCrypto SampleChrono StoreSample TypedSample.
#[local] Existing Instance Memory.sled.
#[local] Instance cache : Cache View := sled_cache 0.

Definition nonce : Nonce := MkRefined (check := validate_nonce) #"n:0000001" eq_refl.
Definition signed : SignedRequest := MkSigned tenant bob nonce (of_user (derive bob key) nonce).
Definition home : IpAddr := V4 127 0 0 1.
Definition removed : Db := (exec (perform (RemoveMember bob tenant)) held).2.

(** Accepted while a member, refused afterwards. *)
Lemma access_lost_witness :
  is_ok (verify (H0 := stored_in held) Memory.minute signed home 1000 empty_view).1 = true ∧
  ∃ e, verify (H0 := stored_in removed) Memory.minute signed home 1000 empty_view = (Err e, empty_view).
Proof.
  split; [vm_compute; reflexivity|].
  apply (access_lost bob tenant (RemoveMember bob tenant) held removed).
  - apply held_sound.
  - apply held_typed.
  - by left.
  - replace (Ok tt) with (exec (perform (RemoveMember bob tenant)) held).1 by (vm_compute; reflexivity).
    apply runs_exec.
  - reflexivity.
  - reflexivity.
Defined.
End AccessSample.
