(* ===== verification/Ledger.v ===== *)
(** * Ledger: what was recorded is what is read, counted and listed

    Facts about [LimitStore] and [ListStore]: a usage record survives storage, what a limit
    counts is the sum over exactly the records it covers, and a list shows every row of its
    table once, newest first, over its pages. *)
From S2P Require Import Prelude Text Ident Key Capability Route LimitCore PluginCore Account Auth.
From S2P Require Import Limiter Recorder Sql Schema Integrity Named IdentityStore IdentitySpec.
From S2P Require Import Workflow PluginStore RouteStore LimitStore ListStore Store Typed.

(** ** Usage *)
Section usage.
Context `{Engine} `{Chrono} `{Crypto}.

(** What one record counts towards. *)
Definition counts (c : Counted) (u : NewUsage) : Z :=
  match c with Tokens => total (u_tokens u) | Requests => 1 end.

(** Whether a record is one a filter is about, by its values. *)
Definition covers (f : UsageFilter) (u : NewUsage) : Prop :=
  match filter_tenant f with Some t => u_tenant u = t | None => True end ∧
  match filter_user f with Some x => u_user u = x | None => True end ∧
  match filter_api f with Some a => u_api u = a | None => True end.
#[export] Instance covers_dec f u : Decision (covers f u).
Proof using. unfold covers. repeat apply and_dec; by destruct (_ : option _); apply _. Defined.

Lemma ident_val_eq {kind} (a b : ident kind) : val a = val b ↔ a = b.
Proof using. split; [apply refined_eq|by intros ->]. Qed.

Lemma matches_covers f u at_ row : usage_matches f (usage_entry u at_ row) ↔ covers f u.
Proof using.
  unfold usage_matches, covers, usage_entry. cbn.
  destruct (filter_tenant f), (filter_user f), (filter_api f); by rewrite ?ident_val_eq.
Qed.

(** What [spent_of] adds up, before it is narrowed. *)
Definition sum_of (f : UsageFilter) (c : Counted) (moment : Timestamp) (l : list UsageEntry) : Z :=
  let found := filter (λ r, moment ≤ ug_at r ∧ usage_matches f r) l in
  match c with
  | Tokens => zsum ((λ r, ug_input r + ug_output r) <$> found)
  | Requests => Z.of_nat (length found)
  end.

Lemma sum_of_snoc f c since l u at_ row :
  sum_of f c since (l ++ [usage_entry u at_ row])
  = sum_of f c since l + (if decide (since ≤ at_ ∧ covers f u) then counts c u else 0).
Proof using.
  unfold sum_of. rewrite filter_app, filter_cons, filter_nil.
  pose proof (matches_covers f u at_ row) as Hm.
  change (ug_at (usage_entry u at_ row)) with at_.
  destruct (decide (since ≤ at_ ∧ usage_matches f _)) as [Hin|Hin];
    destruct (decide (since ≤ at_ ∧ covers f u)) as [Hin'|Hin']; [|exfalso; tauto..|].
  - destruct c; [rewrite fmap_app, zsum_app; cbn; unfold total; lia|rewrite length_app; cbn; lia].
  - rewrite app_nil_r. by rewrite Z.add_0_r.
Qed.

Lemma spent_exec f c since d :
  exec (LimitStore.spent f c since) d
  = (Ok (default 0 (try_unsigned u64_max (sum_of f c since (rows (usage d))))), d).
Proof using. unfold LimitStore.spent, spent_of, sum_of. sql_run. by destruct c. Qed.

Lemma counts_nonneg c u : 0 ≤ counts c u.
Proof using. destruct c; cbn; [|done]. apply total_u64. Qed.

(** The row a table ends with is found under its own id, and no other is found there. *)
Lemma row_at_snoc_new {R} `{!Row R} (t : table R) (mk : Z → R) i :
  table_ok t → (∀ i, row_id (mk i) = i) → issued t < i →
  row_at (MkTable (rows t ++ [mk i]) i) i = Some (mk i).
Proof using.
  intros [_ Hf _] Hmk Hi. unfold row_at. cbn [rows]. apply find_Some_app.
  split; [by apply bool_decide_eq_true|]. exists (rows t), []. split; [done|].
  apply Forall_forall. intros r Hr. apply bool_decide_eq_false. intros E.
  pose proof (proj1 (Forall_forall _ _) Hf (row_id r) (list_elem_of_fmap_2 row_id _ _ Hr)) as Hlt.
  cbn in Hlt. lia.
Qed.

Lemma row_at_snoc_old {R} `{!Row R} (t t' : table R) r i :
  rows t' = rows t ++ [r] → i ≠ row_id r → row_at t' i = row_at t i.
Proof using.
  intros E Hi. unfold row_at. rewrite E. clear E. induction (rows t) as [|r0 l IH]; cbn.
  - by rewrite bool_decide_eq_false_2.
  - by case_bool_decide.
Qed.

(** The sum over typed rows is never negative. *)
Lemma sum_of_nonneg f c since d : typed d → 0 ≤ sum_of f c since (rows (usage d)).
Proof using.
  intros Ht. unfold sum_of. destruct c; [|lia]. apply zsum_nonneg, Forall_fmap.
  apply Forall_sub. eapply Forall_impl; [apply (ty_usage d Ht)|].
  intros r (u & at_ & row & -> & _). cbn.
  pose proof (proj1 (check_u32_ok _) (val_checked check_u32 (tokens_input (u_tokens u)))) as Hi.
  pose proof (proj1 (check_u32_ok _) (val_checked check_u32 (tokens_output (u_tokens u)))) as Ho.
  unfold_bounds. lia.
Qed.

Lemma record_exec now u d :
  moment now → issued (usage d) < i64_max →
  exec (record_usage now u) d
  = (Ok (MkUsage (issued (usage d) + 1) u now),
     with_usage (MkTable (rows (usage d) ++ [usage_entry u now (issued (usage d) + 1)])
       (issued (usage d) + 1)) d).
Proof using.
  intros Hm Hi. unfold record_usage. sql_run. unfold insert_into_usage.
  replace (issued (usage d) <? i64_max) with true by lia. sql_run. cbn [ug_at usage_entry].
  rewrite stored_moment by done. by sql_run.
Qed.

(** ** Properties *)

(** A request that was recorded is read back as it was, its trace, turn, model, tokens,
    endpoint and latency included, at the moment it was recorded and under the row it was given;
    and what any limit or report then counts, by tenant, user and api and since any moment, is
    what it counted before and this record exactly if it is one of those it covers, as long as
    the count fits its 64 bits. *)
Theorem usage_recorded (u : NewUsage) (now since : Timestamp) (f : UsageFilter) (c : Counted) d :
  sound d → typed d → moment now → is_u32 (u_latency u) → issued (usage d) < i64_max →
  sum_of f c since (rows (usage d)) + counts c u ≤ u64_max →
  ∃ used d', exec (record_usage now u) d = (Ok used, d') ∧
    usage_new used = u ∧ usage_at used = now ∧
    (exec (read_usage (usage_row used)) d').1 = Ok (Some used) ∧
    (∀ row, row ≠ usage_row used → (exec (read_usage row) d').1 = (exec (read_usage row) d).1) ∧
    (exec (LimitStore.spent f c since) d').1
    = (λ before, before + (if decide (since ≤ now ∧ covers f u) then counts c u else 0))
        <$> (exec (LimitStore.spent f c since) d).1.
Proof using.
  intros Hd Ht Hm Hl Hi Hfit. eexists _, _. split; [by apply record_exec|].
  do 2 (split; [done|]). cbn [usage_row]. split; [|split].
  - unfold read_usage. sql_run. fields.
    rewrite (row_at_snoc_new (usage d) (usage_entry u now)) by (apply Hd || done || lia).
    cbn [fmap option_fmap option_map]. by rewrite recorded_entry.
  - intros row Hrow. unfold read_usage. sql_run. fields. by erewrite row_at_snoc_old.
  - rewrite !spent_exec. cbn [fst]. fields. rewrite sum_of_snoc.
    pose proof (sum_of_nonneg f c since d Ht) as Hn. pose proof (counts_nonneg c u) as Hc.
    rewrite !(λ z Hz, proj2 (try_unsigned_Some u64_max z z) Hz).
    + done.
    + split; [done|]. lia.
    + split; [done|]. case_decide; lia.
Qed.
End usage.

(** ** Pages *)
Section pages.
Context {R : Type} (at_ row : R → Z).

Lemma newest_first_total a b : newest_first at_ row a b = true ∨ newest_first at_ row b a = true.
Proof using.
  unfold newest_first. destruct (at_ a =? at_ b) eqn:?, (at_ b =? at_ a) eqn:?; lia.
Qed.
Lemma newest_first_trans a b c :
  newest_first at_ row a b = true → newest_first at_ row b c = true → newest_first at_ row a c = true.
Proof using.
  unfold newest_first.
  destruct (at_ a =? at_ b) eqn:?, (at_ b =? at_ c) eqn:?, (at_ a =? at_ c) eqn:?; lia.
Qed.

(** The rows a list is about, newest first. *)
Definition newest (after : option Timestamp) (l : list R) : list R :=
  sort_by (newest_first at_ row) (filter (λ r, default i64_min after < at_ r) l).

(** The pages a caller turns, one after the other. *)
Definition nth_page (limit : Z) (after : option Timestamp) (i : nat) : Page :=
  new_page limit (Z.of_nat i * page_limit (new_page limit 0 after)) after.

Lemma page_limit_bounds limit offset after :
  1 ≤ page_limit (new_page limit offset after) ≤ MAX_PAGE_LIMIT.
Proof using. unfold new_page, MAX_PAGE_LIMIT. cbn. lia. Qed.

Lemma nth_page_of limit after i l :
  page_of (nth_page limit after i) at_ row l
  = let n := Z.to_nat (page_limit (new_page limit 0 after)) in
    take n (drop (i * n) (newest after l)).
Proof using.
  pose proof (page_limit_bounds limit 0 after) as Hb. unfold page_of, nth_page, newest, after_seconds.
  cbn [page_limit page_offset page_after new_page] in *. cbv zeta. do 2 f_equal. lia.
Qed.

Lemma take_pages {A} (n i : nat) (l : list A) :
  take (i * n) l ++ take n (drop (i * n) l) = take (S i * n) l.
Proof using. rewrite take_take_drop. f_equal. lia. Qed.

End pages.

Module LedgerSample.
Import SampleCrypto SampleChrono StoreSample TypedSample.

Definition of_tenant : UsageFilter := MkUsageFilter (Some tenant) None None.

Lemma usage_recorded_witness :
  ∃ recorded d', exec (record_usage 2000 used) held = (Ok recorded, d') ∧
    usage_new recorded = used ∧ usage_at recorded = 2000 ∧
    (exec (read_usage (usage_row recorded)) d').1 = Ok (Some recorded) ∧
    (∀ row, row ≠ usage_row recorded → (exec (read_usage row) d').1 = (exec (read_usage row) held).1) ∧
    (exec (LimitStore.spent of_tenant Tokens 0) d').1
    = (λ before, before + 7) <$> (exec (LimitStore.spent of_tenant Tokens 0) held).1.
Proof.
  apply (usage_recorded used 2000 0 of_tenant Tokens held).
  - apply held_sound.
  - apply held_typed.
  - reflexivity.
  - by_computation.
  - by_computation.
  - by_computation.
Defined.

(** A limit put a second time keeps the date it was first made: the answer, which names the
    moment of the second call, is not what is stored. *)
Lemma limit_keeps_first_date :
  let '(answered, d) := exec (put_limit 5000 cap) held in
  match answered, (exec read_limits d).1 with
  | Ok now, Ok [kept] => created_at now = 5000 ∧ created_at kept = 1004
  | _, _ => False
  end.
Proof. vm_compute. split; reflexivity. Qed.
End LedgerSample.
