(* ===== verification/Routes.v ===== *)
(** * Routes: a routing rule is read as it was written, alone and among the others

    Facts about [RouteStore]: the rule behind a key is the last one put there, whole, until it
    is removed; no other key notices; and the loop that gathers every rule out of one join
    finds for each key what reading that key alone would. *)
From S2P Require Import Prelude Text Ident Key Capability Route LimitCore PluginCore Account Auth.
From S2P Require Import Limiter Recorder Sql Schema Integrity Named IdentityStore IdentitySpec.
From S2P Require Import Workflow PluginStore RouteStore LimitStore ListStore Store Typed.

(** ** The rows behind a key *)

Lemma filter_bind {A B} (f : A → list B) (P : B → Prop) (Q : A → Prop)
    `{∀ b, Decision (P b), ∀ a, Decision (Q a)} (l : list A) :
  (∀ a b, b ∈ f a → P b ↔ Q a) → filter P (l ≫= f) = filter Q l ≫= f.
Proof.
  intros HPQ. induction l as [|a l IH]; [done|]. rewrite bind_cons, filter_app, filter_cons, IH.
  destruct (decide (Q a)) as [Ha|Ha].
  - rewrite bind_cons. f_equal. apply filter_all, Forall_forall. intros b Hb. by eapply HPQ.
  - rewrite filter_none; [done|]. apply Forall_forall. intros b Hb Hp. by apply Ha, (HPQ a b).
Qed.

Lemma filter_fmap_key {A K} (key : A → K) `{EqDecision K} (f : A → A) k (l : list A) :
  (∀ a, key (f a) = key a) → filter (λ a, key a = k) (f <$> l) = f <$> filter (λ a, key a = k) l.
Proof.
  intros Hf. induction l as [|a l IH]; [done|]. rewrite fmap_cons, !filter_cons, Hf, IH. by case_decide.
Qed.

Lemma filter_one {A K} (key : A → K) `{EqDecision K} (l : list A) a :
  NoDup (key <$> l) → a ∈ l → filter (λ b, key b = key a) l = [a].
Proof.
  intros Hn Ha. induction l as [|b l IH]; [by apply elem_of_nil in Ha|].
  cbn in Hn. apply NoDup_cons in Hn as [Hb Hn]. rewrite filter_cons.
  apply elem_of_cons in Ha as [->|Ha].
  - rewrite decide_True by done. f_equal. apply filter_none, Forall_forall. intros c Hc E.
    apply Hb. rewrite <-E. by apply list_elem_of_fmap_2.
  - rewrite decide_False; [by apply IH|]. intros E. apply Hb. rewrite E. by apply list_elem_of_fmap_2.
Qed.

Lemma key_inj {A K} (key : A → K) `{EqDecision K} (l : list A) a b :
  NoDup (key <$> l) → a ∈ l → b ∈ l → key a = key b → a = b.
Proof.
  intros Hn Ha Hb E. assert (a ∈ filter (λ c, key c = key b) l) as Hin by by apply list_elem_of_filter.
  rewrite (filter_one key) in Hin by done. by apply list_elem_of_singleton in Hin.
Qed.

Section routes.
Context `{Engine} `{Chrono} `{Crypto}.
Implicit Types (d : Db) (key : RouteKey).

(** The endpoints of a route, by its row. *)
Definition targets_of (d : Db) (r : RouteEntry) : list (RouteEntry * TargetEntry) :=
  pair r <$> filter (λ t, tg_route t = rt_row r) (rows (route_targets d)).
Definition routes_keyed (k : str * str * Z * str) (d : Db) : list RouteEntry :=
  filter (λ r, route_key r = k) (rows (routes d)).

Lemma joined_keyed k d :
  filter (λ row, route_key row.1 = k) (routes_joined d) = routes_keyed k d ≫= targets_of d.
Proof using.
  apply filter_bind. intros r row (t & -> & _)%list_elem_of_fmap. done.
Qed.

Lemma read_route_exec key d :
  exec (read_route key) d
  = (route_of_rows key (sort_by by_position
       (routes_keyed (endpoint_columns (key_endpoint key)) d ≫= targets_of d)), d).
Proof using. unfold read_route. sql_run. by rewrite joined_keyed. Qed.

(** *** What the three statements of [put_route] do *)

Lemma upsert_route_keyed api protocol host port path strategy now d route d1 :
  let k := (protocol, host, port, path) in
  sound d → upsert_route api protocol host port path strategy now d = Ok (route, d1) →
  sound d1 ∧ route_targets d1 = route_targets d ∧
  (∃ r, routes_keyed k d1 = [r] ∧ rt_row r = route ∧ rt_api r = api ∧ rt_strategy r = strategy) ∧
  ∀ k', k' ≠ k → routes_keyed k' d1 = routes_keyed k' d.
Proof using.
  cbv zeta. intros Hd Hs. split; [by eapply keeps_upsert_route|]. revert Hs.
  unfold upsert_route, routes_keyed. set (k := (protocol, host, port, path)).
  destruct (List.find _ _) as [held|] eqn:Hf.
  - intros [= <- <-]. fields. cbn [update rows]. split; [done|].
    apply find_elem_of in Hf as [Hin Hk%bool_decide_eq_true].
    assert (∀ r, route_key (rerouted k api strategy r) = route_key r) as Hkey
      by (intros r; unfold rerouted; by case_decide).
    split.
    + eexists. rewrite (filter_fmap_key route_key) by done.
      rewrite <-Hk, (filter_one route_key) by (apply Hd || done). cbn. split; [done|].
      unfold rerouted. by rewrite decide_True.
    + intros k' Hne. rewrite (filter_fmap_key route_key) by done. apply fmap_in_id.
      intros r [Hr _]%list_elem_of_filter. unfold rerouted. rewrite decide_False; [done|]. congruence.
  - intros ([r t] & Ha & [= <- <-])%bind_ok.
    apply append_ok in Ha as (_ & Hrows & _ & _ & Hr); [|done|apply Hd]. fields. split; [done|].
    rewrite Hrows.
    assert (route_key r = k) as Hk by (by rewrite Hr).
    split.
    + exists r. rewrite filter_app, filter_cons, decide_True by done. rewrite filter_none.
      * cbn. by rewrite Hr.
      * apply Forall_forall. intros r' Hr' E. apply find_None_Forall in Hf.
        apply (proj1 (Forall_forall _ _) Hf) in Hr'. by apply bool_decide_eq_false in Hr'.
    + intros k' Hne. rewrite filter_app, filter_cons, decide_False by congruence. cbn. by rewrite app_nil_r.
Qed.

(** The rows written for a list of endpoints, from one position on. *)
Fixpoint targets_written (route position : Z) (l : list Weighted) (ts : list TargetEntry) : Prop :=
  match l, ts with
  | [], [] => True
  | w :: l, t :: ts =>
      tg_route t = route ∧ tg_position t = position ∧
      (tg_protocol t, tg_host t, tg_port t, tg_path t) = endpoint_columns (endpoint w) ∧
      tg_weight t = val (weight w) ∧ targets_written route (position + 1) l ts
  | _, _ => False
  end.

Lemma insert_targets_ok route position l d x d' :
  sound d → exec (insert_targets route position l) d = (Ok x, d') →
  routes d' = routes d ∧
  ∃ ts, rows (route_targets d') = rows (route_targets d) ++ ts ∧ targets_written route position l ts.
Proof using.
  revert position d. induction l as [|w l IH]; intros position d Hd; cbn [insert_targets].
  { sql_run. intros [= _ <-]. split; [done|]. exists []. by rewrite app_nil_r. }
  sql_run. destruct (insert_into_route_targets _ _ _ _ _ _ _ _) as [[u d1]|] eqn:Hs; sql_run; [|done].
  assert (sound d1) as Hd1 by (by eapply keeps_insert_target). intros Hrest.
  unfold insert_into_route_targets in Hs. destruct (negb _); [done|]. destruct (taken _ _ _); [done|].
  destruct (refers _ _); [|done]. apply bind_ok in Hs as ([r t] & Ha & [= _ <-]).
  apply append_ok in Ha as (_ & Hrows & _ & _ & Hr); [|done|apply Hd].
  apply IH in Hrest as (E & ts & Ets & Hw); [|done]. split; [done|].
  exists (r :: ts). rewrite Ets. fields. rewrite Hrows, <-app_assoc. split; [done|].
  cbn. rewrite Hr. done.
Qed.

Lemma written_targets_of route position l ts :
  targets_written route position l ts → Forall (λ t, tg_route t = route) ts.
Proof using.
  revert position l. induction ts as [|t ts IH]; intros position [|w l]; try done.
  cbn [targets_written]. intros (Er & _ & _ & _ & Hw). constructor; [done|]. by eapply IH.
Qed.

(** They are in the order of their positions, and read back as the endpoints. *)
Lemma written_sorted (r : RouteEntry) route position l ts :
  targets_written route position l ts → sort_by by_position (pair r <$> ts) = pair r <$> ts.
Proof using.
  revert position l. induction ts as [|t ts IH]; intros position [|w l]; try done.
  cbn. intros (_ & Hp & _ & _ & Hw). rewrite (IH _ _ Hw).
  destruct ts as [|t' ts], l as [|w' l]; try done. cbn. destruct Hw as (_ & Hp' & _).
  unfold by_position. cbn. by replace (tg_position t <=? tg_position t') with true by lia.
Qed.

Lemma written_read (r : RouteEntry) route position l ts :
  targets_written route position l ts →
  try_map (λ row : RouteEntry * TargetEntry, target_of row.2) (pair r <$> ts) = Ok l.
Proof using.
  revert position l. induction ts as [|t ts IH]; intros position [|w l]; try done.
  cbn. intros (_ & _ & He%columns_read & Hw & Hrest). rewrite (IH _ _ Hrest).
  unfold target_of. rewrite He, Hw, refine_val. by destruct w.
Qed.

(** *** The rule put behind a key *)

(** What [put_route] leaves: the rule's own rows, and the rows of the other keys. *)
Lemma put_route_rows now rule d x d' :
  sound d → exec (put_route now rule) d = (Ok x, d') →
  let k := endpoint_columns (key_endpoint (rule_key rule)) in
  (∃ r ts, routes_keyed k d' = [r] ∧ targets_of d' r = pair r <$> ts ∧
     rt_api r = val (rule_api rule) ∧ rt_strategy r = strategy_name (rule_strategy rule) ∧
     targets_written (rt_row r) 0 (val (rule_target rule)) ts) ∧
  ∀ k', k' ≠ k → routes_keyed k' d' = routes_keyed k' d ∧
    ∀ r, r ∈ routes_keyed k' d → targets_of d' r = targets_of d r.
Proof using.
  intros Hd. unfold put_route. cbv zeta. sql_run.
  destruct (upsert_route _ _ _ _ _ _ _ _) as [[route d1]|] eqn:Hu; sql_run; [|done].
  apply upsert_route_keyed in Hu as (Hd1 & Et1 & (r & Hk & Hr & Ha & Hst) & Hother); [|done].
  cbn [delete_from_route_targets]. sql_run. set (d2 := moved _ _).
  assert (sound d2) as Hd2.
  { eapply (keeps_delete_targets (λ t, tg_route t = route)); [exact Hd1|]. done. }
  destruct (exec (insert_targets _ _ _) d2) as [[[]|] d3] eqn:Hi; [|done]. intros [= _ <-].
  apply insert_targets_ok in Hi as (Er & ts & Ets & Hw); [|done].
  assert (∀ k, routes_keyed k d3 = routes_keyed k d1) as Ekeyed
    by (intros k; unfold routes_keyed; by rewrite Er).
  assert (rows (route_targets d3) = filter (λ t, ¬ tg_route t = route) (rows (route_targets d)) ++ ts) as Eall
    by (rewrite Ets; unfold d2; fields; by rewrite Et1).
  pose proof (written_targets_of _ _ _ _ Hw) as Hts. split.
  - exists r, ts. rewrite Ekeyed, Hr. split; [done|]. split; [|done].
    unfold targets_of. rewrite Eall, filter_app, Hr. rewrite filter_none, filter_all; [done|done|].
    apply Forall_forall. intros t [Ht _]%list_elem_of_filter. done.
  - intros k' Hne. rewrite Ekeyed, Hother by done. split; [done|]. intros r' Hr'.
    assert (rt_row r' ≠ route) as Hrow.
    { intros E. rewrite <-Hother in Hr' by done. apply list_elem_of_filter in Hr' as [Hk' Hin'].
      assert (r ∈ routes_keyed (endpoint_columns (key_endpoint (rule_key rule))) d1) as Hin
        by (unfold endpoint_columns; rewrite Hk; apply list_elem_of_here).
      apply list_elem_of_filter in Hin as [Hkr Hin].
      assert (row_at (routes d1) (rt_row r') = Some r') as E1 by (apply row_at_unique; [apply Hd1|done]).
      assert (row_at (routes d1) (rt_row r) = Some r) as E2 by (apply row_at_unique; [apply Hd1|done]).
      congruence. }
    unfold targets_of. rewrite Eall, filter_app. f_equal.
    rewrite (filter_none _ ts), app_nil_r.
    + rewrite list_filter_filter. apply filter_ext_in. intros t _. split; [tauto|]. intros E. split; congruence.
    + eapply Forall_impl; [exact Hts|]. intros t ->. congruence.
Qed.

Lemma endpoint_columns_inj (e e' : Endpoint) : endpoint_columns e = endpoint_columns e' → e = e'.
Proof using.
  intros E. destruct (endpoint_columns e) as [[[p h] n] a] eqn:Ee.
  pose proof (columns_read e _ _ _ _ (eq_sym Ee)) as H1'.
  pose proof (columns_read e' _ _ _ _ E) as H2'. congruence.
Qed.

(** A routing rule is read as it was written: once a rule was put behind a key, whether the
    key was new or held another rule, reading the key finds that rule, with every endpoint, in
    order and with its weight, the api and the strategy, and nothing of what was there before;
    and whatever any other key held, it still holds. *)
Theorem route_roundtrip now (rule : RouteRule) key d d' :
  sound d → exec (put_route now rule) d = (Ok tt, d') →
  (exec (read_route key) d').1
  = if decide (key = rule_key rule) then Ok (Some rule) else (exec (read_route key) d).1.
Proof using.
  intros Hd (Hown & Hother)%put_route_rows; [|done]. rewrite !read_route_exec. cbn [fst].
  case_decide as E.
  - subst key. destruct Hown as (r & ts & -> & Etg & Ha & Hs & Hw).
    rewrite bind_cons, app_nil_r, Etg, (written_sorted _ _ _ _ _ Hw).
    destruct (val (rule_target rule)) as [|w l] eqn:El; [by destruct (target_nonempty (rule_target rule))|].
    destruct ts as [|t ts]; [done|]. unfold route_of_rows. rewrite <-El in Hw.
    rewrite (written_read _ _ _ _ _ Hw). cbn [fmap list_fmap fst]. rewrite Ha, stored_id.
    cbn [mbind result_bind]. unfold from_weighted, strategy_of. rewrite refine_val, Hs, strategy_named_name. by destruct rule.
  - destruct (Hother (endpoint_columns (key_endpoint key))) as [Ek Et].
    { intros Ee%endpoint_columns_inj. apply E. destruct key, (rule_key rule). by f_equal. }
    rewrite Ek. do 2 f_equal.
    assert (∀ l, (∀ r, r ∈ l → targets_of d' r = targets_of d r) → l ≫= targets_of d' = l ≫= targets_of d) as Hl.
    { intros l. induction l as [|r l IH]; intros Hl; [done|]. rewrite !bind_cons. f_equal.
      - apply Hl, list_elem_of_here.
      - apply IH. intros r' Hr'. by apply Hl, list_elem_of_further. }
    by apply Hl.
Qed.
End routes.

(** ** Orders by one thing and then another *)
Section then_by.
Context {A K : Type} `{EqDecision K} (f : A → K) (le : K → K → bool) (next : A → A → bool).

Definition then_by (a b : A) : bool := if bool_decide (f a = f b) then next a b else le (f a) (f b).

Lemma then_by_total :
  (∀ x y, le x y = true ∨ le y x = true) → (∀ a b, next a b = true ∨ next b a = true) →
  ∀ a b, then_by a b = true ∨ then_by b a = true.
Proof using. intros Hle Hn a b. unfold then_by. destruct (decide (f a = f b)) as [E|E].
  - rewrite !bool_decide_eq_true_2 by done. apply Hn.
  - rewrite !bool_decide_eq_false_2 by congruence. apply Hle.
Qed.

Lemma then_by_trans :
  (∀ x y z, le x y = true → le y z = true → le x z = true) →
  (∀ x y, le x y = true → le y x = true → x = y) →
  (∀ a b c, next a b = true → next b c = true → next a c = true) →
  ∀ a b c, then_by a b = true → then_by b c = true → then_by a c = true.
Proof using.
  intros Ht Ha Hn a b c. unfold then_by.
  destruct (decide (f a = f b)) as [E1|E1].
  - rewrite (bool_decide_eq_true_2 _ E1), E1. intros Hab. case_bool_decide; [by eapply Hn|done].
  - rewrite (bool_decide_eq_false_2 _ E1). intros Hab. destruct (decide (f b = f c)) as [E2|E2].
    + rewrite (bool_decide_eq_true_2 _ E2), <-E2, bool_decide_eq_false_2 by done. done.
    + rewrite (bool_decide_eq_false_2 _ E2). intros Hbc. case_bool_decide as E3; [|by eapply Ht].
      rewrite <-E3 in Hbc. destruct E1. by apply Ha.
Qed.

Lemma then_by_same :
  (∀ x y, le x y = true → le y x = true → x = y) →
  ∀ a b, then_by a b = true → then_by b a = true → f a = f b ∧ next a b = true ∧ next b a = true.
Proof using.
  intros Ha a b. unfold then_by. destruct (decide (f a = f b)) as [E|E].
  - rewrite !bool_decide_eq_true_2 by congruence. done.
  - rewrite !bool_decide_eq_false_2 by congruence. intros. destruct E. by apply Ha.
Qed.
End then_by.

Lemma lex_leb_anti a b : lex_leb a b = true → lex_leb b a = true → a = b.
Proof.
  revert b. induction a as [|x a IH]; intros [|y b]; cbn; try done.
  destruct (x <? y) eqn:?, (y <? x) eqn:?; try done; try lia. intros. f_equal; [lia|]. by apply IH.
Qed.


Section order.
(** The order of the keys, whatever rows they are of. *)
Definition key_le : str * str * Z * str → str * str * Z * str → bool :=
  then_by (λ k, k.1.1.2) lex_leb (then_by (λ k, k.2) lex_leb
    (then_by (λ k, k.1.1.1) lex_leb (λ a b, a.1.2 <=? b.1.2))).

Lemma joined_le_key a b :
  joined_le a b = then_by (λ row : RouteEntry * TargetEntry, route_key row.1) key_le by_position a b.
Proof using. done. Qed.

Lemma key_le_total a b : key_le a b = true ∨ key_le b a = true.
Proof using.
  repeat (apply then_by_total; [apply lex_leb_total|]; clear a b; intros a b). lia.
Qed.
Lemma key_le_trans a b c : key_le a b = true → key_le b c = true → key_le a c = true.
Proof using.
  repeat (apply then_by_trans; [apply lex_leb_trans|apply lex_leb_anti|]; clear a b c; intros a b c). lia.
Qed.
Lemma key_le_anti a b : key_le a b = true → key_le b a = true → a = b.
Proof using.
  intros Hab Hba.
  apply then_by_same in Hab as (E1 & Hab & Hba'); [|apply lex_leb_anti|exact Hba].
  apply then_by_same in Hab as (E2 & Hab & Hba''); [|apply lex_leb_anti|exact Hba'].
  apply then_by_same in Hab as (E3 & Hab & Hba3); [|apply lex_leb_anti|exact Hba''].
  destruct a as [[[? ?] ?] ?], b as [[[? ?] ?] ?]. cbn in *. f_equal; [|done]. f_equal; [|lia]. congruence.
Qed.

Lemma joined_le_total a b : joined_le a b = true ∨ joined_le b a = true.
Proof using.
  rewrite !joined_le_key.
  apply (then_by_total (λ row : RouteEntry * TargetEntry, route_key row.1) key_le by_position); [apply key_le_total|].
  clear a b. intros a b. unfold by_position. lia.
Qed.
Lemma joined_le_trans a b c : joined_le a b = true → joined_le b c = true → joined_le a c = true.
Proof using.
  rewrite !joined_le_key.
  apply (then_by_trans (λ row : RouteEntry * TargetEntry, route_key row.1) key_le by_position); [apply key_le_trans|apply key_le_anti|].
  clear a b c. intros a b c. unfold by_position. lia.
Qed.
Lemma joined_le_same a b :
  joined_le a b = true → joined_le b a = true →
  route_key a.1 = route_key b.1 ∧ tg_position a.2 = tg_position b.2.
Proof using.
  rewrite !joined_le_key. intros Hab Hba. 
  apply (then_by_same (λ row : RouteEntry * TargetEntry, route_key row.1) key_le by_position key_le_anti)
    in Hab as (E & H1 & H2); [|done].
  split; [done|]. unfold by_position in *. lia.
Qed.
End order.

(** ** The loop that gathers the rules *)
Section gathering.
Context `{Engine} `{Chrono} `{Crypto}.

(** The rows of one route, as the loop meets them. *)
Definition group (d : Db) (r : RouteEntry) : list (RouteEntry * TargetEntry) :=
  sort_by by_position (targets_of d r).

Lemma group_of d r row : row ∈ group d r → row.1 = r ∧ row.2 ∈ rows (route_targets d) ∧ tg_route row.2 = rt_row r.
Proof using.
  intros Hin%elem_of_sort_by. apply list_elem_of_fmap in Hin as (t & -> & [Ht Hin]%list_elem_of_filter). done.
Qed.

Lemma sorted_bind {A B} (f : A → list B) (Q : A → A → Prop) (P : B → B → Prop) (l : list A) :
  (∀ a, a ∈ l → StronglySorted P (f a)) →
  (∀ a b x y, Q a b → x ∈ f a → y ∈ f b → P x y) → StronglySorted Q l → StronglySorted P (l ≫= f).
Proof using.
  intros Hf HQP Hl. induction Hl as [|a l _ IH Ha]; [constructor|]. rewrite bind_cons.
  apply StronglySorted_app. split; [|split].
  - intros x y Hx (b & Hy & Hb)%list_elem_of_bind. eapply HQP; [|done..].
    by apply (proj1 (Forall_forall _ _) Ha).
  - apply Hf, list_elem_of_here.
  - apply IH. intros b Hb. by apply Hf, list_elem_of_further.
Qed.

Lemma bind_perm {A B} (f g : A → list B) (l l' : list A) :
  l ≡ₚ l' → (∀ a, f a ≡ₚ g a) → l ≫= f ≡ₚ l' ≫= g.
Proof using.
  intros Hl Hfg. transitivity (l' ≫= f); [by rewrite Hl|]. clear Hl l.
  induction l' as [|a l' IH]; [done|]. by rewrite !bind_cons, Hfg, IH.
Qed.

(** Sorting the join puts the rows of a route side by side. *)
Definition ordered (d : Db) : list RouteEntry :=
  sort_by (λ a b, key_le (route_key a) (route_key b)) (rows (routes d)).

Lemma ordered_strict d :
  sound d →
  StronglySorted (λ a b, key_le (route_key a) (route_key b) = true ∧ route_key a ≠ route_key b) (ordered d).
Proof using.
  intros Hd.
  assert (NoDup (route_key <$> ordered d)) as Hn by (unfold ordered; rewrite sort_by_perm; apply Hd).
  assert (StronglySorted (λ a b, key_le (route_key a) (route_key b) = true) (ordered d)) as Hs.
  { apply sort_by_sorted; intros; [by eapply key_le_trans|apply key_le_total]. }
  induction Hs as [|a l _ IH Ha]; [constructor|]. apply NoDup_cons in Hn as [Hna Hn].
  constructor; [by apply IH|]. apply Forall_forall. intros b Hb.
  split; [by apply (proj1 (Forall_forall _ _) Ha)|]. intros E. apply Hna. rewrite E.
  by apply list_elem_of_fmap_2.
Qed.

Lemma joined_grouped d : sound d → sort_by joined_le (routes_joined d) = ordered d ≫= group d.
Proof using.
  intros Hd. apply (StronglySorted_unique_strong (λ a b, joined_le a b = true)).
  - intros a b Ha Hb Hab Hba. destruct (joined_le_same a b Hab Hba) as [Ek Ep].
    assert (∀ c, c ∈ routes_joined d → c.1 ∈ rows (routes d) ∧ c.2 ∈ rows (route_targets d) ∧ tg_route c.2 = rt_row c.1) as Hin.
    { intros c (r & Hc & Hr)%list_elem_of_bind.
      by apply list_elem_of_fmap in Hc as (t & -> & [Ht Hin]%list_elem_of_filter). }
    apply elem_of_sort_by, Hin in Ha as (Ha1 & Ha2 & Ha3).
    apply list_elem_of_bind in Hb as (r & Hb & Hr). apply group_of in Hb as (Hb1 & Hb2 & Hb3).
    apply elem_of_sort_by in Hr. subst r.
    assert (a.1 = b.1) as E1 by (by eapply (key_inj route_key); [apply Hd|..]).
    assert (a.2 = b.2) as E2.
    { eapply (key_inj target_key); [apply Hd|done..|]. unfold target_key. congruence. }
    destruct a, b. cbn in *. by subst.
  - apply sort_by_sorted; [apply joined_le_trans|apply joined_le_total].
  - eapply sorted_bind; [| |apply ordered_strict, Hd].
    + intros r _. apply (sorted_weaken (λ a b, by_position a b = true)).
      * intros a b (Ea & _)%group_of (Eb & _)%group_of Hab.
        unfold joined_le. rewrite bool_decide_eq_true_2 by congruence. done.
      * apply sort_by_sorted; intros; unfold by_position in *; lia.
    + intros r r' a b [Hle Hne] (<- & _)%group_of (<- & _)%group_of.
      rewrite joined_le_key. unfold then_by. by rewrite bool_decide_eq_false_2.
  - rewrite sort_by_perm. apply bind_perm; [|intros r; symmetry; apply sort_by_perm].
    symmetry. apply sort_by_perm.
Qed.

(** More endpoints of the route the loop is at. *)
Lemma gather_more (r : RouteEntry) rows ws rest rules rule (target : RouteTarget) :
  Forall (λ row, row.1 = r) rows → try_map (λ row : RouteEntry * TargetEntry, target_of row.2) rows = Ok ws →
  val target = val (rule_target rule) ++ ws →
  gather_all (rows ++ rest) (rules ++ [rule], Some (rt_row r))
  = gather_all rest (rules ++ [MkRouteRule (rule_api rule) (rule_key rule) target (rule_strategy rule)],
      Some (rt_row r)).
Proof using.
  revert ws rule. induction rows as [|row rows IH]; intros ws rule Hr Hws Hval.
  - injection Hws as <-. rewrite app_nil_r in Hval. apply refined_eq in Hval. rewrite Hval.
    by destruct rule.
  - apply Forall_cons in Hr as [Hr Hrs]. cbn [try_map] in Hws.
    apply bind_ok in Hws as (w & Hw & (ws' & Hws' & [= <-])%bind_ok). rewrite <-app_comm_cons.
    cbn [gather_all]. unfold gather at 1. rewrite Hw, Hr, bool_decide_eq_true_2 by done.
    cbn [mbind result_bind]. rewrite last_snoc.
    destruct (from_weighted_some (val (rule_target rule) ++ [w])) as (t & Et & Evt);
      [by destruct (val (rule_target rule))|].
    rewrite Et. cbn [stored map_err mbind result_bind]. rewrite removelast_last.
    rewrite (IH ws'); [done|done|done|]. cbn. rewrite Evt, <-app_assoc. done.
Qed.

(** The rule of a route, if it has an endpoint. *)
Definition rule_at (d : Db) (r : RouteEntry) : option RouteRule :=
  match endpoint_from_parts (rt_protocol r) (rt_host r) (rt_port r) (rt_path r) with
  | Ok e => default None (ok (route_of_rows (MkRouteKey e) (group d r)))
  | Err _ => None
  end.

Lemma rule_at_reads d r e :
  typed d → r ∈ rows (routes d) → route_key r = endpoint_columns e →
  route_of_rows (MkRouteKey e) (group d r) = Ok (rule_at d r).
Proof using.
  intros Ht Hr He%columns_read. unfold rule_at. rewrite He.
  destruct (route_rows_read (MkRouteKey e) (group d r)) as [x ->]; [|done].
  apply Forall_forall. intros row (E & Hin & _)%group_of. unfold typed_row. rewrite E. split.
  - by apply (proj1 (Forall_forall _ _) (ty_routes d Ht)).
  - by apply (proj1 (Forall_forall _ _) (ty_targets d Ht)).
Qed.

(** The loop over one route. *)
Lemma gather_group d r rest rules current :
  typed d → r ∈ rows (routes d) → current ≠ Some (rt_row r) →
  gather_all (group d r ++ rest) (rules, current)
  = match rule_at d r with
    | None => gather_all rest (rules, current)
    | Some rule => gather_all rest (rules ++ [rule], Some (rt_row r))
    end.
Proof using.
  intros Ht Hr Hc. pose proof (proj1 (Forall_forall _ _) (ty_routes d Ht) r Hr) as Hty.
  destruct Hty as (_ & [e He] & _). pose proof (rule_at_reads d r e Ht Hr He) as Hread.
  pose proof (λ row, group_of d r row) as Hof. destruct (group d r) as [|row more].
  { cbn in Hread. by injection Hread as <-. }
  assert (row.1 = r) as Hrow by apply Hof, list_elem_of_here.
  unfold route_of_rows in Hread. apply bind_ok in Hread as (api & Ha & Hread).
  apply bind_ok in Hread as (ws & Hws & Hread). cbn [try_map] in Hws.
  apply bind_ok in Hws as (w & Hw & (ws' & Hws' & [= <-])%bind_ok).
  apply bind_ok in Hread as (target & Htg & Hread). apply bind_ok in Hread as (s & Hs & [= <-]).
  rewrite <-app_comm_cons. cbn [gather_all]. unfold gather at 1.
  rewrite Hw, Hrow, bool_decide_eq_false_2 by done. rewrite Hrow in Ha, Hs. rewrite Ha, Hs.
  rewrite (columns_read e _ _ _ _ He).
  destruct (from_weighted_some [w]) as (t & Et & Evt); [done|].
  cbn [mbind result_bind stored map_err]. rewrite Et. cbn [mbind result_bind stored map_err].
  rewrite (gather_more r more ws' rest _ _ target); [done| |done|].
  - apply Forall_forall. intros row' Hrow'. by apply Hof, list_elem_of_further.
  - cbn. rewrite Evt. by apply stored_ok, refine_ok in Htg as [_ ->].
Qed.

Lemma gather_groups d l rules current :
  typed d → (∀ r, r ∈ l → r ∈ rows (routes d)) → NoDup (rt_row <$> l) →
  (∀ r, r ∈ l → current ≠ Some (rt_row r)) →
  gather_all (l ≫= group d) (rules, current) = Ok (rules ++ omap (rule_at d) l).
Proof using.
  intros Ht. revert rules current. induction l as [|r l IH]; intros rules current Hl Hn Hc.
  { cbn. by rewrite app_nil_r. }
  rewrite bind_cons, gather_group by (try done; (apply Hl || apply Hc); apply list_elem_of_here).
  cbn in Hn. apply NoDup_cons in Hn as [Hr Hn].
  assert (∀ r', r' ∈ l → r' ∈ rows (routes d)) as Hl' by (intros; by apply Hl, list_elem_of_further).
  cbn [omap list_omap]. destruct (rule_at d r) as [rule|].
  - rewrite IH; [by rewrite <-app_assoc|done|done|]. intros r' Hr' [= E]. apply Hr. rewrite E.
    by apply list_elem_of_fmap_2.
  - apply IH; [done|done|]. intros r' Hr'. by apply Hc, list_elem_of_further.
Qed.

(** What the rule of a route is keyed by. *)
Lemma rule_at_key d r e rule :
  typed d → r ∈ rows (routes d) → route_key r = endpoint_columns e → rule_at d r = Some rule →
  rule_key rule = MkRouteKey e.
Proof using.
  intros Ht Hr He E. pose proof (rule_at_reads d r e Ht Hr He) as Hread. rewrite E in Hread.
  unfold route_of_rows in Hread. destruct (group d r); [done|].
  apply bind_ok in Hread as (api & _ & (ws & _ & (t & _ & (s & _ & [= <-])%bind_ok)%bind_ok)%bind_ok).
  done.
Qed.

Lemma find_rule_at d key (l : list RouteEntry) :
  typed d → (∀ r, r ∈ l → r ∈ rows (routes d)) → NoDup (route_key <$> l) →
  List.find (λ rule, bool_decide (rule_key rule = key)) (omap (rule_at d) l)
  = match filter (λ r, route_key r = endpoint_columns (key_endpoint key)) l with
    | r :: _ => rule_at d r
    | [] => None
    end.
Proof using.
  intros Ht. induction l as [|r l IH]; intros Hl Hn; [done|].
  cbn in Hn. apply NoDup_cons in Hn as [Hr Hn].
  assert (r ∈ rows (routes d)) as Hin by apply Hl, list_elem_of_here.
  assert (∀ r', r' ∈ l → r' ∈ rows (routes d)) as Hl' by (intros; by apply Hl, list_elem_of_further).
  destruct (proj1 (Forall_forall _ _) (ty_routes d Ht) r Hin) as (_ & [e He] & _).
  rewrite filter_cons. cbn [omap list_omap]. destruct (decide (route_key r = _)) as [Ek|Ek].
  - rewrite He in Ek. apply endpoint_columns_inj in Ek. destruct (rule_at d r) as [rule|] eqn:Er.
    + cbn. rewrite (rule_at_key d r e rule), Ek, bool_decide_eq_true_2 by done || by destruct key. done.
    + rewrite IH by done. rewrite filter_none; [done|]. apply Forall_forall. intros r' Hr' E'.
      apply Hr. rewrite He, Ek, <-E'. by apply list_elem_of_fmap_2.
  - destruct (rule_at d r) as [rule|] eqn:Er; [|by apply IH]. cbn.
    rewrite (rule_at_key d r e rule), bool_decide_eq_false_2 by first [done|intros <-; by apply Ek]. by apply IH.
Qed.

Lemma rules_once d (l : list RouteEntry) :
  typed d → (∀ r, r ∈ l → r ∈ rows (routes d)) → NoDup (route_key <$> l) →
  NoDup (rule_key <$> omap (rule_at d) l).
Proof using.
  intros Ht. induction l as [|r l IH]; intros Hl Hn; [constructor|].
  cbn in Hn. apply NoDup_cons in Hn as [Hr Hn].
  assert (∀ r', r' ∈ l → r' ∈ rows (routes d)) as Hl' by (intros; by apply Hl, list_elem_of_further).
  assert (∀ r', r' ∈ rows (routes d) → ∃ e, route_key r' = endpoint_columns e) as Hkey
    by (intros r' Hr'; by destruct (proj1 (Forall_forall _ _) (ty_routes d Ht) r' Hr') as (_ & ? & _)).
  cbn [omap list_omap]. destruct (rule_at d r) as [rule|] eqn:Er; [|by apply IH].
  rewrite fmap_cons. constructor; [|by apply IH].
  assert (r ∈ rows (routes d)) as Hin by apply Hl, list_elem_of_here.
  intros (rule' & E & (r' & Hr' & Er')%list_elem_of_omap)%list_elem_of_fmap.
  destruct (Hkey r Hin) as [e He], (Hkey r' (Hl' r' Hr')) as [e' He'].
  rewrite (rule_at_key d r e rule), (rule_at_key d r' e' rule') in E by auto. injection E as ->.
  apply Hr. rewrite He, <-He'. by apply list_elem_of_fmap_2.
Qed.

Lemma keyed_one k d :
  sound d → routes_keyed k d = [] ∨ ∃ r, routes_keyed k d = [r] ∧ r ∈ rows (routes d) ∧ route_key r = k.
Proof using.
  intros Hd. unfold routes_keyed. destruct (filter _ _) as [|r l] eqn:E; [by left|]. right.
  assert (r ∈ filter (λ r, route_key r = k) (rows (routes d))) as [<- Hr]%list_elem_of_filter
    by (rewrite E; apply list_elem_of_here).
  rewrite (filter_one route_key) in E by (apply Hd || done). injection E as <-. eauto.
Qed.

Lemma keyed_ordered d k : sound d → filter (λ r, route_key r = k) (ordered d) = routes_keyed k d.
Proof using.
  intros Hd. assert (filter (λ r, route_key r = k) (ordered d) ≡ₚ routes_keyed k d) as Hp
    by (unfold ordered; by rewrite sort_by_perm).
  destruct (keyed_one k d Hd) as [E|(r & E & _)]; rewrite E in *.
  - by apply Permutation_nil_r in Hp.
  - by apply Permutation_singleton_r in Hp.
Qed.

(** ** Properties *)

(** The table a node reads is the rules themselves: out of the one join it is read with,
    the loop that gathers it makes a list of rules in which each key has at most one and
    looking a key up finds exactly what reading that key alone would, its endpoints in order
    however the rows of different routes were written between each other. *)
Theorem routes_gathered d :
  sound d → typed d →
  ∃ rules, (exec read_routes d).1 = Ok rules ∧ NoDup (rule_key <$> rules) ∧
    ∀ key, (exec (read_route key) d).1 = Ok (List.find (λ rule, bool_decide (rule_key rule = key)) rules).
Proof using.
  intros Hd Ht. exists (omap (rule_at d) (ordered d)). split; [|split].
  - unfold read_routes. sql_run. rewrite joined_grouped by done.
    rewrite (gather_groups d (ordered d) [] None); [done|done| |..|done].
    + intros r. apply elem_of_sort_by.
    + unfold ordered. rewrite sort_by_perm. apply Hd.
  - apply rules_once; [done|intros r; apply elem_of_sort_by|].
    unfold ordered. rewrite sort_by_perm. apply Hd.
  - intros key. rewrite read_route_exec. cbn [fst]. rewrite (find_rule_at d key (ordered d) Ht).
    + rewrite (keyed_ordered d) by done.
      destruct (keyed_one (endpoint_columns (key_endpoint key)) d Hd) as [->|(r & -> & Hr & Ek)]; [done|].
      rewrite bind_cons, app_nil_r. destruct key as [e]. by apply rule_at_reads.
    + intros r. apply elem_of_sort_by.
    + unfold ordered. rewrite sort_by_perm. apply Hd.
Qed.
End gathering.

Module RoutesSample.
Import SampleCrypto SampleChrono StoreSample TypedSample.

(** The rule of the sample with its endpoints the other way round. *)
Definition turned : RouteRule :=
  MkRouteRule api (MkRouteKey Sample.endpoint_a)
    (MkRefined (check := check_target)
       [MkWeighted Sample.endpoint_c default_weight; MkWeighted Sample.endpoint_b default_weight] eq_refl)
    LeastLoad.

Lemma route_roundtrip_witness :
  (exec (read_route (rule_key route)) held).1 = Ok (Some route) ∧
  (exec (read_route (rule_key turned)) (exec (put_route 2000 turned) held).2).1 = Ok (Some turned).
Proof.
  split; [by_computation|].
  apply (route_roundtrip 2000 turned (rule_key turned) held).
  - apply held_sound.
  - replace (Ok tt) with (exec (put_route 2000 turned) held).1 by (vm_compute; reflexivity).
    apply surjective_pairing.
Defined.

Lemma routes_gathered_witness :
  ∃ rules, (exec read_routes held).1 = Ok rules ∧ NoDup (rule_key <$> rules) ∧
    ∀ key, (exec (read_route key) held).1
           = Ok (List.find (λ rule, bool_decide (rule_key rule = key)) rules).
Proof. apply routes_gathered; [apply held_sound|apply held_typed]. Defined.
End RoutesSample.
