(* ===== verification/Owned.v ===== *)
(** * Owned: a chain runs only what it owns

    Facts about [PluginStore]: as long as calls do not overlap, every rule runs a plugin its own
    chain owns, and letting go of a plugin takes its wasm away exactly when nobody owns it any
    more.  Two behaviours of overlapping or forgotten owners are shown on concrete runs at the
    end. *)
From S2P Require Import Prelude Text Ident Key Capability Route LimitCore PluginCore Account Auth.
From S2P Require Import Limiter Recorder Sql Schema Integrity Named IdentityStore IdentitySpec.
From S2P Require Import Workflow PluginStore RouteStore LimitStore ListStore Store Typed Routes.

(** ** Who owns what *)

Definition ownership (o : OwnerEntry) : option Z * Z := (ow_tenant o, ow_plugin o).
Definition owns (d : Db) (tenant : option Z) (plugin : Z) : Prop :=
  (tenant, plugin) ∈ ownership <$> plugin_owners d.
#[export] Instance owns_dec d tenant plugin : Decision (owns d tenant plugin).
Proof. unfold owns. apply _. Defined.
Definition owned_rules (d : Db) : Prop :=
  Forall (λ r, owns d (ru_tenant r) (ru_plugin r)) (rows (plugin_rules d)).

Section owned.
Context `{Engine} `{Chrono} `{Crypto}.

Definition stays_owned (d d' : Db) : Prop := sound d → owned_rules d → sound d' ∧ owned_rules d'.
#[export] Instance stays_owned_preorder : PreOrder stays_owned.
Proof using.
  split; [by intros d Hd Ho|]. intros d e f Hde Hef Hd Ho. destruct (Hde Hd Ho) as [He Ho']. by apply Hef.
Qed.

(** Rules that stay, with the owners they had. *)
Lemma owned_kept (d d' : Db) :
  owned_rules d →
  (∀ r, r ∈ rows (plugin_rules d') → r ∈ rows (plugin_rules d)) →
  (∀ r o, r ∈ rows (plugin_rules d') → o ∈ plugin_owners d → ownership o = (ru_tenant r, ru_plugin r) →
     o ∈ plugin_owners d') → owned_rules d'.
Proof using.
  intros Ho Hrules Howners. apply Forall_forall. intros r Hr.
  pose proof (proj1 (Forall_forall _ _) Ho r (Hrules r Hr)) as (o & E & Hin)%list_elem_of_fmap.
  unfold owns. rewrite E. by apply list_elem_of_fmap_2, (Howners r).
Qed.

Lemma owned_allowed {X} (s : statement X) :
  keeps s →
  (∀ d x d', s d = Ok (x, d') → sound d →
     (∀ r, r ∈ rows (plugin_rules d') → r ∈ rows (plugin_rules d)) ∧
     (∀ r o, r ∈ rows (plugin_rules d') → o ∈ plugin_owners d →
        ownership o = (ru_tenant r, ru_plugin r) → o ∈ plugin_owners d')) → allowed stays_owned s.
Proof using.
  intros Hk Hs d x d' E Hd Ho. split; [by eapply Hk|].
  destruct (Hs d x d' E Hd). by eapply owned_kept.
Qed.

(** Every write but the two that only a call on a chain sends. *)
Lemma owned_writes : allowed_writes stays_owned False False True.
Proof using.
  split; try done; intros; (apply owned_allowed;
    [first [apply keeps_insert_grant, api_nonempty|apply keeps_upsert_limit, api_nonempty|by keeps_write]|]);
    intros d x d' Hs Hd;
    unfold insert_into_tenants, delete_from_tenants, insert_into_users, update_passphrases,
      delete_from_users, upsert_membership, delete_from_memberships, insert_into_grants,
      delete_from_grants, upsert_route, delete_from_routes, insert_into_route_targets,
      delete_from_route_targets, insert_plugin_once, delete_from_plugins, insert_owner_once,
      delete_from_plugin_rules, upsert_limit, delete_from_limits, insert_into_usage,
      delete_from_usage in Hs; aside; try done.
  - split; [by intros r [_ ?]%list_elem_of_filter|].
    intros r o [Hr _]%list_elem_of_filter Ho [= E _]. apply list_elem_of_filter. by rewrite E.
  - split; [by intros r [_ ?]%list_elem_of_filter|done].
  - split; [done|]. intros r o Hr Ho [= _ E]. apply list_elem_of_filter. split; [|done].
    rewrite E. intros Hin. match goal with Hu : existsb _ _ = false |- _ => apply not_true_iff_false in Hu; apply Hu end.
    apply existsb_exists. exists r. split; [by apply list_elem_of_In|]. by apply bool_decide_eq_true.
  - split; [done|]. intros r o _ Ho _. apply elem_of_app. by left.
  - split; [by intros r [_ ?]%list_elem_of_filter|done].
Qed.

(** *** Placing a rule *)

Lemma owned_plugin_owns checksum tenant d p :
  owned_plugin checksum tenant d = Some p → owns d tenant (pl_row p).
Proof using.
  intros [_ [_ Ho]%andb_true_iff]%find_elem_of. apply existsb_exists in Ho as (o & Hin & E).
  apply andb_true_iff in E as [E1%bool_decide_eq_true E2%bool_decide_eq_true].
  unfold owns. rewrite <-E1, <-E2. change (ow_tenant o, ow_plugin o) with (ownership o).
  by apply list_elem_of_fmap_2, list_elem_of_In.
Qed.

Lemma rule_scope_rows_exec s d :
  ∃ r, exec (rule_scope_rows s) d = (r, d).
Proof using.
  destruct s as [|tenant user api]; [by eexists|]. unfold rule_scope_rows, tenant_row_id_of, user_row_id_of.
  sql_run. destruct (ok_or _ _); sql_run; [|by eexists]. destruct user as [user|]; sql_run; [|by eexists].
  destruct (ok_or _ _); sql_run; by eexists.
Qed.

Lemma put_rule_owned now rule d x d' :
  sound d → owned_rules d → exec (put_rule now rule) d = (x, d') → owned_rules d'.
Proof using.
  intros Hd Ho. unfold put_rule. rewrite exec_bind.
  destruct (rule_scope_rows_exec (new_scope rule) d) as [r E]. unfold ApiId, ident in *. rewrite E.
  destruct r as [[[tenant user] api]|e]; [|by intros [= _ <-]].
  sql_run. destruct (owned_plugin _ _ _) as [p|] eqn:Hp; sql_run; [|by intros [= _ <-]].
  cbn [ok_or]. sql_run. destruct (stored _) as [kind|]; sql_run; [|by intros [= _ <-]].
  destruct (insert_into_plugin_rules _ _ _ _ _ _ _ _) as [[u d1]|e] eqn:Hs; sql_run.
  2:{ destruct (is_unique_violation e); by intros [= _ <-]. }
  intros [= _ <-]. unfold insert_into_plugin_rules in Hs. destruct (negb _); [done|].
  destruct (taken _ _ _); [done|]. destruct (_ && _); [|done].
  apply bind_ok in Hs as ([r t] & Ha & [= _ <-]).
  apply append_ok in Ha as (_ & Hrows & _ & _ & Hr); [|done|apply Hd].
  unfold owned_rules. fields. rewrite Hrows. apply Forall_snoc; [exact Ho|]. rewrite Hr.
  by apply owned_plugin_owns in Hp.
Qed.

(** *** Letting go of a plugin *)

Lemma owner_row_exec owner d :
  exec (owner_row_id owner) d
  = (match owner_tenant owner with
     | Some t => ok_or (NotFound ETenant) (Some <$> (tn_row <$> tenant_named t d))
     | None => Ok None
     end, d).
Proof using.
  unfold owner_row_id, tenant_row_id_of. destruct (owner_tenant owner) as [t|]; [|done].
  sql_run. by destruct (tenant_named t d).
Qed.

(** Whether a rule of a chain names the plugin. *)
Definition in_use (d : Db) (tenant : option Z) (plugin : Z) : bool :=
  existsb (λ r, bool_decide (ru_plugin r = plugin) && bool_decide (ru_tenant r = tenant))
    (rows (plugin_rules d)).

(** What is left of the owners when a chain lets go. *)
Definition disowned (tenant : option Z) (plugin : Z) (d : Db) : Db :=
  with_plugin_owners (filter (λ o, ¬ (ow_plugin o = plugin ∧ ow_tenant o = tenant)) (plugin_owners d)) d.

Lemma find_existsb {A} (p : A → bool) (l : list A) :
  match List.find p l with Some _ => existsb p l = true | None => existsb p l = false end.
Proof using. induction l as [|a l IH]; [done|]. cbn. by destruct (p a). Qed.

Lemma filter_owned d tenant plugin :
  match length (filter (λ o, ow_plugin o = plugin ∧ ow_tenant o = tenant) (plugin_owners d)) with
  | O => ¬ owns d tenant plugin
  | S _ => owns d tenant plugin
  end.
Proof using.
  destruct (filter _ _) as [|o l] eqn:E; cbn.
  - intros (o & [= -> ->] & Ho)%list_elem_of_fmap.
    assert (o ∈ filter (λ o', ow_plugin o' = ow_plugin o ∧ ow_tenant o' = ow_tenant o) (plugin_owners d)) as Hin
      by by apply list_elem_of_filter.
    rewrite E in Hin. by apply elem_of_nil in Hin.
  - assert (o ∈ filter (λ o', ow_plugin o' = plugin ∧ ow_tenant o' = tenant) (plugin_owners d)) as Hin
      by (rewrite E; apply list_elem_of_here).
    apply list_elem_of_filter in Hin as [[<- <-] Hin]. by apply (list_elem_of_fmap_2 ownership).
Qed.

Lemma plugin_record_row p x : plugin_record p = Ok x → plugin_row_id x = pl_row p.
Proof using.
  unfold plugin_record. intros (c & _ & (k & _ & (z & _ & (t & _ & [= <-])%bind_ok)%bind_ok)%bind_ok)%bind_ok.
  done.
Qed.

Lemma called_record checksum d p :
  typed d → plugin_called checksum d = Some p → ∃ x, plugin_record p = Ok x ∧ plugin_row_id x = pl_row p.
Proof using.
  intros Ht [Hp _]%find_elem_of. destruct (plugin_reads d Ht p (pl_at p) Hp) as [x Hx].
  { by destruct (proj1 (Forall_forall _ _) (ty_plugins d Ht) p Hp) as (_ & _ & _ & ?). }
  exists x. destruct p. split; [done|]. by apply plugin_record_row in Hx.
Qed.

(** Every branch of [disown_plugin]. *)
Lemma disown_exec checksum owner d :
  typed d →
  exec (disown_plugin checksum owner) d
  = match (exec (owner_row_id owner) d).1 with
    | Err e => (Err e, d)
    | Ok tenant =>
        match plugin_called checksum d with
        | None => (Err (NotFound EPlugin), d)
        | Some p =>
            if in_use d tenant (pl_row p) then (Err (InUse EPlugin), d)
            else if bool_decide (owns d tenant (pl_row p)) then
              match delete_from_plugins (unowned (pl_row p)) (disowned tenant (pl_row p) d) with
              | Ok (n, d') => (Ok (match n with O => false | S _ => true end), d')
              | Err e => (Err (if is_foreign_key_violation e then InUse EPlugin else Backend), d)
              end
            else (Err (NotFound EPlugin), d)
        end
    end.
Proof using.
  intros Ht. unfold disown_plugin, PluginDisown.disown, PluginDisown.sweep, PluginDisown.commit,
    advance, delete_owner, delete_unowned.
  sql_run. rewrite owner_row_exec. cbn [fst].
  destruct (match owner_tenant owner with Some _ => _ | None => _ end) as [tenant|e]; [|done]. sql_run.
  destruct (plugin_called checksum d) as [p|] eqn:Hp; [|done]. cbn [ok_or]. sql_run.
  destruct (called_record _ _ _ Ht Hp) as (x & Hx & Erow). rewrite Hx. sql_run. rewrite Erow.
  unfold in_use. pose proof (find_existsb (λ r, bool_decide (ru_plugin r = pl_row p) &&
    bool_decide (ru_tenant r = tenant)) (rows (plugin_rules d))) as Hf.
  destruct (List.find _ _); rewrite Hf; [done|]. sql_run.
  unfold delete_from_plugin_owners at 1. pose proof (filter_owned d tenant (pl_row p)) as Hn.
  destruct (length _) as [|n] eqn:En in Hn.
  - rewrite bool_decide_eq_false_2 by done. rewrite En. done.
  - rewrite bool_decide_eq_true_2 by done. rewrite En. sql_run.
    cbn [stage PluginDisown.di_plugin]. rewrite Erow. fold (disowned tenant (pl_row p) d).
    destruct (delete_from_plugins _ _) as [[m d2]|e]; sql_run; [done|].
    by destruct (is_foreign_key_violation e).
Qed.

Lemma owns_disowned d tenant plugin t q :
  owns (disowned tenant plugin d) t q ↔ owns d t q ∧ (t, q) ≠ (tenant, plugin).
Proof using.
  unfold owns, disowned. fields. rewrite !list_elem_of_fmap. split.
  - intros (o & [= -> ->] & [Ho Hin]%list_elem_of_filter). split; [by exists o|]. intros [= E1 E2]. by apply Ho.
  - intros ((o & [= -> ->] & Hin) & Hne). exists o. split; [done|]. apply list_elem_of_filter.
    split; [|done]. intros [E1 E2]. by apply Hne; rewrite E1, E2.
Qed.

Lemma in_use_false d tenant plugin r :
  in_use d tenant plugin = false → r ∈ rows (plugin_rules d) → (ru_tenant r, ru_plugin r) ≠ (tenant, plugin).
Proof using.
  intros Hu Hr [= E1 E2]. apply not_true_iff_false in Hu. apply Hu, existsb_exists. exists r.
  split; [by apply list_elem_of_In|]. by rewrite !bool_decide_eq_true_2.
Qed.

(** What the sweep does, once the chain's own rules do not name the plugin. *)
Lemma sweep_exec d tenant p :
  sound d → owned_rules d → p ∈ rows (plugins d) → in_use d tenant (pl_row p) = false →
  let d1 := disowned tenant (pl_row p) d in
  delete_from_plugins (unowned (pl_row p)) d1
  = if bool_decide (pl_row p ∈ ow_plugin <$> plugin_owners d1) then Ok (O, d1)
    else Ok (1%nat, with_plugins (keep (λ q, pl_row q ≠ pl_row p) (plugins d)) d1).
Proof using.
  intros Hd Ho Hp Hu d1.
  assert (∀ r, r ∈ rows (plugin_rules d) → owns d1 (ru_tenant r) (ru_plugin r)) as Hown.
  { intros r Hr. apply owns_disowned. split; [by apply (proj1 (Forall_forall _ _) Ho)|].
    by eapply in_use_false. }
  unfold delete_from_plugins. case_bool_decide as Hin.
  - assert (filter (unowned (pl_row p) d1) (rows (plugins d1)) = []) as E.
    { apply filter_none, Forall_forall. intros q _ [_ Hq]. done. }
    rewrite E. cbn [fmap list_fmap length].
    replace (existsb _ _) with false.
    2:{ symmetry. apply not_true_iff_false. intros (r & _ & Hr)%existsb_exists.
        by apply bool_decide_eq_true, elem_of_nil in Hr. }
    rewrite keep_none by done. f_equal. f_equal.
    replace (filter _ (plugin_owners d1)) with (plugin_owners d1).
    2:{ symmetry. apply filter_all, Forall_forall. intros o _. apply not_elem_of_nil. }
    unfold d1, disowned, with_plugin_owners, with_plugins. by fields.
  - assert (filter (unowned (pl_row p) d1) (rows (plugins d1)) = [p]) as E.
    { rewrite <-(filter_one pl_row (rows (plugins d)) p) by (try apply Hd; done).
      apply filter_ext_in. intros q _. unfold unowned. naive_solver. }
    rewrite E. cbn [fmap list_fmap length].
    replace (existsb _ _) with false.
    2:{ symmetry. apply not_true_iff_false. intros (r & Hr & Hq)%existsb_exists.
        apply bool_decide_eq_true, list_elem_of_singleton in Hq. apply list_elem_of_In, Hown in Hr.
        apply list_elem_of_fmap in Hr as (o & [= _ Eo] & Ho'). apply Hin. rewrite <-Hq, Eo.
        by apply list_elem_of_fmap_2. }
    f_equal. f_equal. replace (filter _ (plugin_owners d1)) with (plugin_owners d1).
    2:{ symmetry. apply filter_all, Forall_forall. intros o Ho' Ho''%list_elem_of_singleton.
        apply Hin. rewrite <-Ho''. by apply list_elem_of_fmap_2. }
    unfold with_plugins, with_plugin_owners, keep. fields. f_equal. f_equal.
    apply filter_ext_in. intros q _. unfold unowned. naive_solver.
Qed.

(** A disowning that went through, in the tables. *)
Lemma disown_ok checksum owner d swept d' :
  sound d → typed d → owned_rules d → exec (disown_plugin checksum owner) d = (Ok swept, d') →
  ∃ tenant p, (exec (owner_row_id owner) d).1 = Ok tenant ∧ plugin_called checksum d = Some p ∧
    in_use d tenant (pl_row p) = false ∧ owns d tenant (pl_row p) ∧
    let d1 := disowned tenant (pl_row p) d in
    if swept
    then (pl_row p ∉ ow_plugin <$> plugin_owners d1) ∧
         d' = with_plugins (keep (λ q, pl_row q ≠ pl_row p) (plugins d)) d1
    else (pl_row p ∈ ow_plugin <$> plugin_owners d1) ∧ d' = d1.
Proof using.
  intros Hd Ht Ho. rewrite disown_exec by done.
  destruct (exec (owner_row_id owner) d).1 as [tenant|]; [|done].
  destruct (plugin_called checksum d) as [p|] eqn:Hp; [|done].
  destruct (in_use d tenant (pl_row p)) eqn:Hu; [done|]. case_bool_decide as Hown; [|done].
  assert (p ∈ rows (plugins d)) as Hin by (by apply find_elem_of in Hp as [? _]).
  rewrite sweep_exec by done. intros E. exists tenant, p. do 4 (split; [done|]). cbv zeta in *.
  case_bool_decide; injection E as <- <-; done.
Qed.

Lemma disown_owned checksum owner d x d' :
  sound d → typed d → owned_rules d → exec (disown_plugin checksum owner) d = (x, d') → owned_rules d'.
Proof using.
  intros Hd Ht Ho E. destruct x as [swept|e].
  - apply disown_ok in E as (tenant & p & _ & _ & Hu & _ & E); [|done..].
    assert (∀ r, r ∈ rows (plugin_rules d) → owns (disowned tenant (pl_row p) d) (ru_tenant r) (ru_plugin r)) as Hown.
    { intros r Hr. apply owns_disowned. split; [by apply (proj1 (Forall_forall _ _) Ho)|]. by eapply in_use_false. }
    destruct swept; destruct E as [_ ->]; apply Forall_forall; exact Hown.
  - rewrite disown_exec in E by done. repeat case_match; by simplify_eq.
Qed.

#[export] Instance on_chain_dec c : Decision (on_chain c).
Proof using. destruct c; apply _. Defined.

(** One call, whatever fails in it. *)
Lemma perform_owned c d r d' :
  sound d → typed d → owned_rules d → runs (perform c) d r d' → owned_rules d'.
Proof using.
  intros Hd Ht Ho Hr. destruct (decide (on_chain c)) as [Hc|Hc].
  - apply one_write_runs in Hr as [E|[-> _]]; [|done|apply perform_one_write].
    unfold perform, done in E. destruct c; try done; rewrite exec_bind in E.
    + destruct (exec (disown_plugin _ _) d) as [[x|e] d1] eqn:Ed;
        [sql_run|]; injection E as _ <-; by eapply disown_owned.
    + destruct (exec (put_rule _ _) d) as [[x|e] d1] eqn:Ed;
        [sql_run|]; injection E as _ <-; by eapply put_rule_owned.
  - assert (stays_owned d d') as Hs; [|by apply Hs].
    eapply (runs_obeys stays_owned); [|exact Hr]. by apply (perform_obeys stays_owned False False True owned_writes).
Qed.

Lemma run_owned calls d :
  Forall admissible calls → sound d → typed d → owned_rules d → owned_rules (run calls d).2.
Proof using.
  intros Hc. revert d. induction Hc as [|c calls Hc _ IH]; intros d Hd Ht Ho; cbn; [done|].
  pose proof (runs_exec (perform c) d) as Hr. destruct (exec (perform c) d) as [r d1]. cbn in Hr.
  specialize (IH d1 (perform_intact c d r d1 Hd Hr) (perform_typed c d r d1 Hc Ht Hr)
    (perform_owned c d r d1 Hd Ht Ho Hr)). by destruct (run calls d1).
Qed.

(** ** Properties *)

(** A chain runs only what it owns: whatever sequence of calls is made, with any of their
    statements failing, every rule that is in place names a plugin that the chain it is on, the
    system's or one tenant's, owns at that moment: a rule is only placed where that holds, and a
    plugin cannot be let go of while a rule of the same chain names it, nor can its wasm be
    swept from under another's. *)
Theorem rules_owned (calls : list Call) d rs d' :
  sound d → typed d → owned_rules d → Forall admissible calls → ran calls d rs d' → owned_rules d'.
Proof using.
  intros Hd Ht Ho Hc Hr. revert Hd Ht Ho Hc.
  induction Hr as [d|c calls d r d1 rs d' Hr _ IH]; intros Hd Ht Ho Hc; [done|].
  apply Forall_cons in Hc as [Hc Hcs].
  apply IH; [by eapply perform_intact|by eapply perform_typed|by eapply perform_owned|done].
Qed.

(** Letting go of a plugin takes away what it says and nothing more: when the call reports
    success, no rule of that chain named the plugin, the chain owned it and owns it no longer,
    every other ownership and every rule is as it was, and the wasm was swept exactly when no
    other chain owns it, after which its checksum finds nothing and before which it still finds
    the same bytes; when it reports an error, not a row is different. *)
Theorem disown_spec (checksum : Checksum) (owner : PluginOwner) d x d' :
  sound d → typed d → owned_rules d → exec (disown_plugin checksum owner) d = (x, d') →
  match x with
  | Err _ => d' = d
  | Ok swept =>
      ∃ tenant p, (exec (owner_row_id owner) d).1 = Ok tenant ∧ plugin_called checksum d = Some p ∧
        in_use d tenant (pl_row p) = false ∧ owns d tenant (pl_row p) ∧
        (∀ t q, owns d' t q ↔ owns d t q ∧ (t, q) ≠ (tenant, pl_row p)) ∧
        plugin_rules d' = plugin_rules d ∧
        (swept = true ↔ ∀ t, owns d t (pl_row p) → t = tenant) ∧
        (exec (read_plugin checksum) d').1 = if swept then Ok None else (exec (read_plugin checksum) d).1
  end.
Proof using.
  intros Hd Ht Ho E. destruct x as [swept|e].
  2:{ rewrite disown_exec in E by done. repeat case_match; by simplify_eq. }
  apply disown_ok in E as (tenant & p & Hrow & Hp & Hu & Hown & E); [|done..].
  exists tenant, p. do 4 (split; [done|]).
  assert ((pl_row p ∈ ow_plugin <$> plugin_owners (disowned tenant (pl_row p) d))
    ↔ ∃ t, owns d t (pl_row p) ∧ t ≠ tenant) as Hleft.
  { rewrite list_elem_of_fmap. split.
    - intros (o & Ep & Hin). assert (owns (disowned tenant (pl_row p) d) (ow_tenant o) (pl_row p)) as H'
        by (apply list_elem_of_fmap; exists o; split; [unfold ownership; by rewrite Ep|done]).
      apply owns_disowned in H' as [? Hne]. exists (ow_tenant o). split; [done|]. congruence.
    - intros (t & Hot & Hne). assert (owns (disowned tenant (pl_row p) d) t (pl_row p)) as H'
        by (apply owns_disowned; split; [done|congruence]).
      apply list_elem_of_fmap in H' as (o & [= -> Eo] & Hin). by exists o. }
  destruct swept; destruct E as [Hin ->]; rewrite Hleft in Hin; (split; [intros t q; apply owns_disowned|]);
    (split; [done|]); split.
  - split; [|done]. intros _ t Hot. destruct (decide (t = tenant)); [done|]. destruct Hin. eauto.
  - unfold read_plugin. sql_run. fields. unfold plugin_called. fields.
    replace (List.find _ _) with (@None PluginEntry); [done|]. symmetry. apply find_None_Forall, Forall_forall.
    intros q [Hq Hin']%list_elem_of_filter. apply bool_decide_eq_false. intros Ec. apply Hq.
    apply find_elem_of in Hp as [Hp Ep%bool_decide_eq_true].
    rewrite (key_inj pl_checksum (rows (plugins d)) q p); [done|apply Hd|done|done|congruence].
  - split; [done|]. intros Hall. destruct Hin as (t & Hot & Hne). by destruct Hne, (Hall t Hot).
  - done.
Qed.
End owned.

Module OwnedSample.
Import SampleCrypto SampleChrono StoreSample TypedSample.

Lemma rules_owned_witness : owned_rules held.
Proof.
  apply (rules_owned setup migrated (run setup migrated).1).
  - apply sound_migrated.
  - apply typed_migrated.
  - constructor.
  - apply setup_admissible.
  - apply run_ran.
Defined.

(** The system uploads the same wasm as the tenant, and lets go of it. *)
Definition same_wasm : list Call := [PutPlugin 2000 (MkNewPlugin ReqBody wasm GlobalOwner)].
Definition shared : Db := (run (setup ++ same_wasm) migrated).2.
Definition let_go : Db := (exec (disown_plugin (Checksum_of wasm) GlobalOwner) shared).2.

Lemma shared_admissible : Forall admissible (setup ++ same_wasm).
Proof. apply Forall_app. split; [apply setup_admissible|]. repeat constructor; vm_compute; discriminate. Qed.

Lemma disown_spec_witness :
  ∃ tenant p, (exec (owner_row_id GlobalOwner) shared).1 = Ok tenant ∧
    plugin_called (Checksum_of wasm) shared = Some p ∧
    in_use shared tenant (pl_row p) = false ∧ owns shared tenant (pl_row p) ∧
    (∀ t q, owns let_go t q ↔ owns shared t q ∧ (t, q) ≠ (tenant, pl_row p)) ∧
    plugin_rules let_go = plugin_rules shared ∧
    (false = true ↔ ∀ t, owns shared t (pl_row p) → t = tenant) ∧
    (exec (read_plugin (Checksum_of wasm)) let_go).1 = (exec (read_plugin (Checksum_of wasm)) shared).1.
Proof.
  apply (disown_spec (Checksum_of wasm) GlobalOwner shared (Ok false) let_go).
  - apply run_sound, sound_migrated.
  - apply run_typed; [apply shared_admissible|apply typed_migrated].
  - apply run_owned; [apply shared_admissible|apply sound_migrated|apply typed_migrated|constructor].
  - replace (Ok false) with (exec (disown_plugin (Checksum_of wasm) GlobalOwner) shared).1
      by (vm_compute; reflexivity).
    apply surjective_pairing.
Defined.

(** *** What nobody owns any more *)

(** A tenant that is deleted takes its ownership along and leaves the wasm: it is nobody's, no
    call sweeps it, and letting go of it is refused as there is no owner to let go. *)
Lemma deleted_tenant_leaves_wasm :
  let d := (run [DeleteTenant tenant] held).2 in
  (length (plugin_owners d), length (rows (plugins d))) = (O, 1%nat) ∧
  is_ok (exec (read_plugin (Checksum_of wasm)) d).1 = true ∧
  is_ok (exec (disown_plugin (Checksum_of wasm) GlobalOwner) d).1 = false.
Proof. vm_compute. split_and!; reflexivity. Qed.

(** *** Calls that overlap *)

(** The system's chain places a rule while the system lets go of the plugin: the rule is placed
    after the ownership was read and taken away. *)
Definition system_rule : NewPluginRule :=
  MkNewPluginRule (Checksum_of wasm) (MkRefined (check := check_order_width) 7 eq_refl) GlobalScope.
Definition overlap : list Call := [PutRule 3000 system_rule; DisownPlugin (Checksum_of wasm) GlobalOwner].
Lemma overlapping_rule_unowned :
  ∃ ps d', rtc pool_step (perform <$> overlap, shared) (ps, d') ∧ ¬ owned_rules d'.
Proof.
  exists (play [0; 1; 0]%nat (perform <$> overlap) shared).1, (play [0; 1; 0]%nat (perform <$> overlap) shared).2.
  split; [rewrite <-surjective_pairing; apply play_steps|].
  apply (bool_decide_eq_false_1 _). vm_compute. reflexivity.
Qed.

(** A grant looks up the row id of its user and writes it in a second statement.  [sqlite] hands
    the row id of a deleted user to the next one, so a grant made to an account that is deleted
    meanwhile can land on another that was never granted anything. *)
Definition carol : UserId := MkRefined (check := validate_id "user id") #"carol" eq_refl.
Definition reused : list Call :=
  [GrantTo 3000 (MkGrant ApiAdvMgr (ScopeApi bob tenant api)); DeleteUser bob;
   CreateUser 3001 (MkNewUser carol hash Regular)].
Lemma grant_lands_on_another :
  ∃ ps d' gs, rtc pool_step (perform <$> reused, held) (ps, d') ∧
    (exec (grants_of carol) d').1 = Ok gs ∧ MkGrant ApiAdvMgr (ScopeApi carol tenant api) ∈ gs.
Proof.
  pose (final := play [0; 0; 1; 2; 0]%nat (perform <$> reused) held).
  exists final.1, final.2, {[MkGrant ApiAdvMgr (ScopeApi carol tenant api)]}.
  split; [unfold final; rewrite <-surjective_pairing; apply play_steps|].
  split; [|set_solver]. apply (bool_decide_eq_true_1 _). vm_compute. reflexivity.
Qed.
End OwnedSample.
