(* ===== verification/Backends.v ===== *)
(** * Backends: the two databases tell the same story

    [crates/ip-storage/src/postgres] sends the statements of [crates/ip-storage/src/sqlite] in
    postgres's dialect ([IS NOT DISTINCT FROM] for [IS], [COALESCE] for [IFNULL], casts where a
    column is wider), over tables its migrations declare alike; what differs is what [Engine]
    says, the row ids and how far triggers move the revision, and one statement [rule_set] adds.
    [Postgres] is that store: each operation is the shared program run by postgres's engine. *)
From S2P Require Import Prelude Text Ident Key Capability Route LimitCore PluginCore Account Auth.
From S2P Require Import Limiter Recorder Sql Schema Integrity Named IdentityStore IdentitySpec.
From S2P Require Import Workflow PluginStore RouteStore LimitStore ListStore Store Typed Contract.

Module Postgres.
#[local] Existing Instance postgres.

Section store.
Context `{Chrono} `{Crypto}.

(** *** identity.rs *)
Definition insert_tenant (now : Timestamp) (new : NewTenant) : sql Db Tenant :=
  IdentityStore.insert_tenant now new.
Definition insert_user (now : Timestamp) (new : NewUser) : sql Db User :=
  IdentityStore.insert_user now new.
Definition insert_membership (now : Timestamp) (m : Membership) : sql Db unit :=
  IdentityStore.insert_membership now m.
Definition delete_membership (user : UserId) (tenant : TenantId) : sql Db Membership :=
  IdentityStore.delete_membership user tenant.
Definition delete_grants_in_tenant (user : UserId) (tenant : TenantId) : sql Db Z :=
  IdentityStore.delete_grants_in_tenant user tenant.
Definition tenant_row_id_of (id : TenantId) : sql Db Z := IdentityStore.tenant_row_id_of id.
Definition user_row_id_of (id : UserId) : sql Db Z := IdentityStore.user_row_id_of id.
Definition create_tenant (now : Timestamp) (new : NewTenant) : sql Db Tenant :=
  IdentityStore.create_tenant now new.
Definition read_tenant (id : TenantId) : sql Db (option Tenant) := IdentityStore.read_tenant id.
Definition delete_tenant (id : TenantId) : sql Db unit := IdentityStore.delete_tenant id.
Definition create_user (now : Timestamp) (new : NewUser) : sql Db User :=
  IdentityStore.create_user now new.
Definition read_user (id : UserId) : sql Db (option User) := IdentityStore.read_user id.
Definition set_passphrase (id : UserId) (passphrase : PassphraseHash) : sql Db unit :=
  IdentityStore.set_passphrase id passphrase.
Definition delete_user (id : UserId) : sql Db unit := IdentityStore.delete_user id.
Definition attach (now : Timestamp) (m : Membership) : sql Db unit := IdentityStore.attach now m.
Definition membership (user : UserId) (tenant : TenantId) : sql Db (option Membership) :=
  IdentityStore.membership user tenant.
Definition memberships_of_user (user : UserId) : sql Db (list Membership) :=
  IdentityStore.memberships_of_user user.
Definition members_of_tenant (tenant : TenantId) : sql Db (list Membership) :=
  IdentityStore.members_of_tenant tenant.
Definition grant (now : Timestamp) (g : Grant) : sql Db unit := IdentityStore.grant now g.
Definition revoke (g : Grant) : sql Db unit := IdentityStore.revoke g.
Definition grants_of (user : UserId) : sql Db Grants := IdentityStore.grants_of user.
Definition grants_in_tenant (user : UserId) (tenant : TenantId) : sql Db Grants :=
  IdentityStore.grants_in_tenant user tenant.

(** *** The workflows *)
Definition user_create (now : Timestamp) (tenant : NewTenant) (owner : NewUser) (standing : Standing) : sql Db TenantWithOwner :=
  Workflow.user_create now tenant owner standing.
Definition member_add (now : Timestamp) (user : NewUser) (tenant : TenantId) (standing : Standing) : sql Db UserWithMembership :=
  Workflow.member_add now user tenant standing.
Definition member_remove (user : UserId) (tenant : TenantId) : sql Db MemberRemoved :=
  Workflow.member_remove user tenant.

(** *** plugin.rs *)
Definition insert_wasm (now : Timestamp) (kind : PluginKind) (wasm : list Z) : sql Db PluginRecord :=
  PluginStore.insert_wasm now kind wasm.
Definition owner_row_id (owner : PluginOwner) : sql Db (option Z) := PluginStore.owner_row_id owner.
Definition insert_owner (now : Timestamp) (plugin : PluginRecord) (owner : PluginOwner) : sql Db Timestamp :=
  PluginStore.insert_owner now plugin owner.
Definition delete_owner (checksum : Checksum) (owner : PluginOwner) : sql Db PluginRecord :=
  PluginStore.delete_owner checksum owner.
Definition delete_unowned (plugin : PluginRecord) : sql Db bool :=
  PluginStore.delete_unowned plugin.
Definition put_plugin (now : Timestamp) (new : NewPlugin) : sql Db PluginRecord :=
  PluginStore.put_plugin now new.
Definition read_plugin (checksum : Checksum) : sql Db (option Plugin) :=
  PluginStore.read_plugin checksum.
Definition read_plugins : sql Db (list PluginRecord) := PluginStore.read_plugins.
Definition disown_plugin (checksum : Checksum) (owner : PluginOwner) : sql Db bool :=
  PluginStore.disown_plugin checksum owner.
Definition put_rule (now : Timestamp) (rule : NewPluginRule) : sql Db PluginRule :=
  PluginStore.put_rule now rule.
Definition remove_rule (tenant : option TenantId) (kind : PluginKind) (order : PluginOrder) : sql Db unit :=
  PluginStore.remove_rule tenant kind order.
Definition rules_for_tenant (tenant : TenantId) : sql Db (list PluginRule) :=
  PluginStore.rules_for_tenant tenant.
Definition read_rules : sql Db (list PluginRule) := PluginStore.read_rules.

(** *** route.rs *)
Definition put_route (now : Timestamp) (rule : RouteRule) : sql Db unit :=
  RouteStore.put_route now rule.
Definition remove_route (key : RouteKey) : sql Db unit := RouteStore.remove_route key.
Definition read_route (key : RouteKey) : sql Db (option RouteRule) := RouteStore.read_route key.
Definition read_routes : sql Db (list RouteRule) := RouteStore.read_routes.

(** *** limit.rs, usage.rs and revision.rs *)
Definition put_limit (now : Timestamp) (l : NewLimit) : sql Db Limit := LimitStore.put_limit now l.
Definition remove_limit (s : LimitScope) (c : Counted) (p : Period) : sql Db unit :=
  LimitStore.remove_limit s c p.
Definition read_limits : sql Db (list Limit) := LimitStore.read_limits.
Definition record_usage (now : Timestamp) (u : NewUsage) : sql Db Usage :=
  LimitStore.record_usage now u.
Definition read_usage (row : Z) : sql Db (option Usage) := LimitStore.read_usage row.
Definition spent (f : UsageFilter) (c : Counted) (moment : Timestamp) : sql Db Z :=
  LimitStore.spent f c moment.
Definition sweep_usage (moment : Timestamp) : sql Db Z := LimitStore.sweep_usage moment.
Definition rule_revision : sql Db Z := LimitStore.rule_revision.

(** *** list.rs *)
Definition list_members (tenant : TenantId) (page : Page) : sql Db (list (Listed Membership)) :=
  ListStore.list_members tenant page.
Definition list_tenant_grants (user : UserId) (tenant : TenantId) (page : Page) : sql Db (list (Listed Grant)) :=
  ListStore.list_tenant_grants user tenant page.
Definition list_account_grants (user : UserId) (page : Page) : sql Db (list (Listed Grant)) :=
  ListStore.list_account_grants user page.
Definition list_routes (page : Page) : sql Db (list (Listed RouteRule)) :=
  ListStore.list_routes page.
Definition list_plugins (owner : PluginOwner) (page : Page) : sql Db (list (Listed PluginRecord)) :=
  ListStore.list_plugins owner page.
Definition list_limits (tenant : option TenantId) (page : Page) : sql Db (list Limit) :=
  ListStore.list_limits tenant page.
Definition list_usage (f : UsageFilter) (page : Page) : sql Db (list Usage) :=
  ListStore.list_usage f page.
Definition list_rules (tenant : option TenantId) (page : Page) : sql Db (list (Listed PluginRule)) :=
  ListStore.list_rules tenant page.

(** The transaction is told to read from one moment before anything is read. *)
Definition rule_set : sql Db RuleSet :=
  atomically (
    _ ← ask (λ d, Ok (tt, d));
    r ← read_revision;
    routes ← read_routes;
    rules ← read_rules;
    limits ← read_limits;
    pure (Ok (MkRuleSet r routes rules limits))).
End store.
End Postgres.

(** ** Properties *)

(** A contract leaves no choice as long as the database does not fail. *)
Lemma follows_unique calls n rs1 n1 rs2 n2 :
  follows calls n rs1 n1 → follows calls n rs2 n2 →
  Err Backend ∉ rs1 → Err Backend ∉ rs2 → rs1 = rs2 ∧ n1 = n2.
Proof.
  intros H1 H2. revert rs2 n2 H2.
  induction H1 as [n|c f calls n r m rs n' Hf Hm _ IH|c calls n rs n' _ _]; intros rs2 n2 H2 Hb1 Hb2.
  - by inversion H2.
  - inversion H2 as [|? f2 ? ? r2 m2 rs2' ? Hf2 Hm2 Hrest|]; subst; [|set_solver].
    rewrite Hf in Hf2. injection Hf2 as <-. rewrite Hm in Hm2. injection Hm2 as <- <-.
    apply not_elem_of_cons in Hb1 as [_ Hb1]. apply not_elem_of_cons in Hb2 as [_ Hb2].
    by destruct (IH _ _ Hrest Hb1 Hb2) as [-> ->].
  - set_solver.
Qed.


Module BackendsSample.
Import SampleCrypto SampleChrono StoreSample.

(** A user is deleted before another is created: the row ids part, the names do not. *)
Definition story : list Call :=
  [CreateTenantWithOwner 1000 acme owner Owner; CreateUser 1001 member; DeleteUser bob;
   AddMember 1002 member tenant OrdinaryMember; GrantTo 1003 may_call; AddMember 1004 member tenant Owner].

Definition failed (r : result StorageError unit) : bool := bool_decide (r = Err Backend).
Lemma none_failed rs : existsb failed rs = false → Err Backend ∉ rs.
Proof.
  intros Hr Hin. apply not_true_iff_false in Hr. apply Hr, existsb_exists. exists (Err Backend).
  split; [by apply list_elem_of_In|done].
Qed.

End BackendsSample.
