(* ===== verification/Rely.v ===== *)
(** * Rely: a program among others, with what it remembers

    [obeys] says of a program that each of its writes is one a relation allows, whatever it was
    answered.  A program that writes what it read before needs more: that what it read still
    says something of the database by then.  [guarded] is that, for programs that rely on the
    others to change the database by the relation too, and ends in a fact of the result. *)
From S2P Require Import Prelude Text Ident Account Sql.

Section rely.
Context {Db : Type} (R : Db → Db → Prop) `{!PreOrder R}.
Abbreviation statement X := (Db → result DbError (X * Db)).

Fixpoint guarded {A} (p : sql Db A) (Q : result StorageError A → Db → Prop) (d : Db) : Prop :=
  match p with
  | Done _ r => ∀ d', R d d' → Q r d'
  | Ask _ s k => ∀ d', R d d' →
      R d' (answer s d').2 ∧ guarded (k (answer s d').1) Q (answer s d').2 ∧
      guarded (k (Err OtherFailure)) Q d'
  | Atomically _ body k => ∀ d', R d d' →
      (∀ x d1, runs body d' (Ok x) d1 → R d' d1 ∧ guarded (k (Ok x)) Q d1) ∧
      (∀ e d1, runs body d' (Err e) d1 → guarded (k (Err e)) Q d') ∧
      guarded (k (Err Backend)) Q d'
  end.

Lemma guarded_later {A} (p : sql Db A) Q d d' : R d d' → guarded p Q d → guarded p Q d'.
Proof using Type*.
  intros Hd. destruct p; cbn; intros Hp d1 Hd1; apply Hp; by transitivity d'.
Qed.

Lemma step_guarded {A} (p : sql Db A) Q d p' d' :
  guarded p Q d → step p d p' d' → R d d' ∧ guarded p' Q d'.
Proof using Type*.
  destruct p as [r|X s k|X body k]; cbn; [done|..]; intros Hp; destruct (Hp d) as (H1 & H2 & H3); try done.
  - by intros [[-> ->]|[-> ->]].
  - intros [(x & d1 & Hx & [[-> ->]|[-> ->]])|(e & d1 & Hx & -> & ->)]; [by apply H1|done|].
    split; [done|]. by eapply H2.
Qed.

(** Programs that keep to the relation as long as the others do, do. *)
Lemma pool_guarded {A} (ps ps' : list (sql Db A)) Q d d' :
  rtc pool_step (ps, d) (ps', d') → Forall (λ p, guarded p Q d) ps →
  R d d' ∧ Forall (λ p, guarded p Q d') ps'.
Proof using Type*.
  intros Hs. remember (ps, d) as x eqn:Ex. remember (ps', d') as y eqn:Ey.
  revert ps d Ex. induction Hs as [x|x x1 y Hxy _ IH]; intros ps d ->.
  - injection Ey as -> ->. done.
  - inversion Hxy as [before p after ? p1 d1 Hp]; subst. intros Hps.
    apply Forall_app in Hps as [Hb Hps]. apply Forall_cons in Hps as [Hp1 Ha].
    destruct (step_guarded _ _ _ _ _ Hp1 Hp) as [HR Hp'].
    destruct (IH eq_refl _ _ eq_refl) as [HR' Hps']; [|split; [by transitivity d1|done]].
    apply Forall_app. split; [|constructor; [done|]];
      (eapply Forall_impl; [done|]; intros q Hq; by eapply guarded_later).
Qed.

Lemma guarded_bind {A B} (p : sql Db A) (f : A → sql Db B) Q Q' d :
  guarded p Q d → (∀ a d, Q (Ok a) d → guarded (f a) Q' d) → (∀ e d, Q (Err e) d → Q' (Err e) d) →
  guarded (p ≫= f) Q' d.
Proof using Type*.
  intros Hp Hf He. change (p ≫= f) with (sql_bind f p). revert Q d Hp Hf He.
  induction p as [A [a|e]|A X s k IH|A X body _ k IH]; cbn; intros Q d Hp Hf He.
  - by apply Hf, Hp.
  - intros d' Hd. by apply He, Hp.
  - intros d' Hd. destruct (Hp d' Hd) as (? & ? & ?). split_and!; [done|by eapply IH|by eapply IH].
  - intros d' Hd. destruct (Hp d' Hd) as (H1 & H2 & H3). split_and!; [| |by eapply IH].
    + intros x d1 Hx. destruct (H1 x d1 Hx). split; [done|by eapply IH].
    + intros e d1 Hx. eapply IH; [by eapply H2|done|done].
Qed.

Lemma guarded_done {A} (a : A) (Q : result StorageError A → Db → Prop) d :
  (∀ d', R d d' → Q (Ok a) d') → guarded (pure (Ok a)) Q d.
Proof using. done. Qed.

Lemma guarded_weaken {A} (p : sql Db A) (Q Q' : result StorageError A → Db → Prop) d :
  (∀ r d, Q r d → Q' r d) → guarded p Q d → guarded p Q' d.
Proof using.
  intros HQ. revert Q Q' HQ d. induction p as [A r|A X s k IH|A X body _ k IH]; cbn; intros Q Q' HQ d Hp d' Hd.
  - by apply HQ, Hp.
  - destruct (Hp d' Hd) as (? & ? & ?). split_and!; [done|by eapply IH|by eapply IH].
  - destruct (Hp d' Hd) as (H1 & H2 & H3). split_and!; [| |by eapply IH].
    + intros x d1 Hx. destruct (H1 x d1 Hx). split; [done|by eapply IH].
    + intros e d1 Hx. eapply IH; [done|by eapply H2].
Qed.

(** A program whose every write obeys the relation needs nothing of the others. *)
Lemma obeys_guarded {A} (p : sql Db A) d : obeys R p → guarded p (λ _ _, True) d.
Proof using Type*.
  revert d. induction p as [A r|A X s k IH|A X body _ k IH]; cbn; intros d Hp; [done|..]; intros d' _.
  - destruct Hp as [Hs Hk]. split_and!; [by apply answer_obeys|by apply IH|by apply IH].
  - destruct Hp as [Hb Hk]. split_and!; [| |by apply IH].
    + intros x d1 Hx. split; [by eapply runs_obeys|by apply IH].
    + intros e d1 Hx. by apply IH.
Qed.
End rely.
