(* ===== verification/Publication.v ===== *)
(** * Publication: what every cache backend does with a published value

    The trait [Publication] of [crates/ip-cache/src/publication.rs] as a class: what a state
    publishes under a topic, and what publishing and reading promise of it.  A call that fails
    may have been done all the same, when only its reply was lost on the way.  The feed of the
    rules ([Feed]) is proved against the class; the standalone cache discharges it here and the
    cluster cache in [Cluster]. *)
From S2P Require Import Prelude Text Ident Cache Sled CacheTrait.

(** How new what is published is; nothing is older than the first revision. *)
Definition as_of (p : option Published) : Z :=
  match p with Some p => Cache.revision p | None => -1 end.

(** Revisions up to here are told apart by every backend. *)
Definition exact_revision : Z := 2 ^ 53.

Class Publication (St : Type) : Type := {
  pub_ok : St → Prop;
  pub_at : St → list Z → option Published;
  k_publish : CacheKey → Z → list Z → St → result CacheError bool * St;
  k_published : CacheKey → St → result CacheError (option Published) * St;
  (** A publication lands only over something older, and up to [exact_revision] always does. *)
  k_publish_ok : ∀ topic r value s landed s', pub_ok s → is_u64 r →
    k_publish topic r value s = (Ok landed, s') →
    pub_ok s' ∧
    (landed = true → as_of (pub_at s (key_bytes topic)) < r) ∧
    (r ≤ exact_revision → as_of (pub_at s (key_bytes topic)) < r → landed = true) ∧
    ∀ b, pub_at s' b =
      if decide (b = key_bytes topic ∧ landed = true) then Some (MkPublished r value)
      else pub_at s b;
  (** One that failed left things as they were, or landed. *)
  k_publish_err : ∀ topic r value s e s', pub_ok s → is_u64 r →
    k_publish topic r value s = (Err e, s') →
    pub_ok s' ∧
    ((∀ b, pub_at s' b = pub_at s b) ∨
     as_of (pub_at s (key_bytes topic)) < r ∧
     ∀ b, pub_at s' b = if decide (b = key_bytes topic) then Some (MkPublished r value) else pub_at s b);
  k_published_ok : ∀ topic s r s', pub_ok s → k_published topic s = (r, s') →
    (∀ o, r = Ok o → o = pub_at s (key_bytes topic)) ∧ pub_ok s' ∧ ∀ b, pub_at s' b = pub_at s b
}.

Section sled.
Context {db : Type} `{!Sled db}.

(** The outcome of a call that may fail. *)
Definition outcome {A} (d : db) (r : result CacheError (A * db)) : result CacheError A * db :=
  settled d (Some r).

Lemma publish_turn_elsewhere topic r value (d : db) a d' b :
  publish_turn topic r value d = Ok (a, d') → b ≠ key_bytes topic →
  published (view d') !! b = published (view d) !! b.
Proof using.
  intros Ht Hb. unfold publish_turn in Ht.
  apply bind_ok in Ht as ([current d2] & H1%atomically_ok & Ht). injection H1 as <- Hv.
  apply bind_ok in Ht as (newer & Hn & Ht). destruct newer.
  - injection Ht as <- <-. by rewrite Hv.
  - apply bind_ok in Ht as ([sw d3] & H2%atomically_ok & Ht). rewrite <-Hv in H2.
    unfold publish_swap in H2. rewrite bool_decide_eq_true_2 in H2 by done.
    injection H2 as <- H2. injection Ht as <- <-. rewrite <-H2. cbn. by rewrite lookup_insert_ne.
Qed.

(** One turn of the loop is enough when calls follow one another. *)
#[export] Program Instance sled_publication : Publication db := {|
  pub_ok _ := True;
  pub_at d b := publication_of (view d) b;
  k_publish topic r value d := settled d (Sled.publish 1 topic r value d);
  k_published topic d := outcome d (published_now topic d)
|}.
Next Obligation.
  intros topic r value d landed d' _ Hr Hp%settled_ok. cbn [Sled.publish] in Hp.
  destruct (publish_turn topic r value d) as [[[a|] d1]|] eqn:Ht; [|done|done].
  injection Hp as -> ->. pose proof (λ b, publish_turn_elsewhere topic r value d _ _ b Ht) as He.
  apply publish_turn_ok in Ht as (newer & Hn & [= ->] & Hpub).
  apply as_new_revision in Hn as ->; [|done]. rewrite negb_involutive.
  change (as_of (publication_of (view d) (key_bytes topic))) with (revision_at (view d) (key_bytes topic)).
  split; [done|]. split; [lia|]. split; [lia|]. intros b. unfold publication_of. case_decide as Hb.
  - destruct Hb as [-> Hl]. rewrite Hpub, Hl. cbn [negb mbind option_bind]. by rewrite decode_encode_published.
  - destruct (decide (b = key_bytes topic)) as [->|Hne]; [|by rewrite He].
    rewrite Hpub. destruct (_ <? r); [by destruct Hb|done].
Qed.
Next Obligation.
  intros topic r value d e d' _ _ Hp. cbn [Sled.publish] in Hp. split; [done|]. left. intros b.
  destruct (publish_turn topic r value d) as [[[a|] d1]|]; cbn in Hp; congruence.
Qed.
Next Obligation.
  intros topic d [o|e] d' _ Hp; cycle 1.
  { split; [done|]. split; [done|]. intros b. unfold outcome in Hp.
    destruct (published_now topic d) as [[]|]; cbn in Hp; congruence. }
  unfold outcome in Hp. apply settled_ok in Hp. injection Hp as Hp. unfold published_now in Hp.
  apply bind_ok in Hp as ([st d1] & H1%atomically_ok & Hp). injection H1 as <- Hv.
  apply bind_ok in Hp as (p & Hp & [= <- <-]). unfold publication_of. rewrite <-Hv. split; [|done].
  intros o' [= <-].
  destruct (published (view d) !! key_bytes topic) as [e|]; cbn in *; [|by injection Hp as <-].
  destruct (decode_published e); cbn in *; [by injection Hp as <-|done].
Qed.
End sled.
