(* ===== verification/Cluster.v ===== *)
(** * Cluster: the cache every node shares

    Models [crates/ip-cache/src/cluster.rs]: every operation of [RedisCache] as the one command
    or script it sends, the scripts transcribed from their Lua.  The server and the crate that
    talks to it are the class [Redis]: a keyspace of strings and hashes with deadlines, the
    commands the source uses with what their documentation says of them, and a connection that
    can fail before a command was done or after.

    [redis_cache] and [redis_publication] discharge the classes [Cache] and [Publication], so
    that everything proved of the verifier, the logins, the response cache and the feed of the
    rules holds of a cluster too.  The counters are proved here: redis counts in signed 64-bit
    numbers and Lua in doubles, so what they promise has bounds [Counters] does not know. *)
From S2P Require Import Prelude Text Ident Cache Sled CacheTrait Publication.

(** ** The server *)

Inductive RedisValue : Type :=
  | StringValue (bytes : list Z)
  | HashValue (fields : gmap (list Z) (list Z)).
#[export] Instance RedisValue_eq_dec : EqDecision RedisValue.
Proof. solve_decision. Defined.

(** What stands under each key, and until when. *)
Abbreviation Keyspace := (gmap (list Z) (RedisValue * option Z)).

(** What a command or a script does: it may be refused, part of it done. *)
Definition script (A : Type) : Type := Keyspace → result CacheError A * Keyspace.
#[export] Instance script_ret : MRet script := λ A a m, (Ok a, m).
#[export] Instance script_bind : MBind script := λ A B f p m,
  match p m with (Ok a, m) => f a m | (Err e, m) => (Err e, m) end.

(** Numbers as the client writes them. *)
Definition decimal (n : Z) : list Z := as_bytes (dec n).

(** A deadline lies in the 63 bits of a signed number of milliseconds. *)
Definition timed (now ms : Z) : Prop := 0 < ms < i64_max ∧ now + ms ≤ i64_max.

(** The keys that are there at a moment. *)
Definition live (lasts : Z → Z → bool) (now : Z) (m : Keyspace) : Keyspace :=
  filter (λ e, match e.2.2 with Some t => lasts t now | None => true end = true) m.

Class Redis (server : Type) : Type := {
  keyspace : server → Keyspace;
  (** Whether what has a deadline is still there at a moment: redis says to the millisecond. *)
  lasts : Z → Z → bool;
  lasts_before : ∀ d t, t < d → lasts d t = true;
  lasts_over : ∀ d t, lasts d t = true → t ≤ d;
  lasts_shorter : ∀ d t t', t ≤ t' → lasts d t' = true → lasts d t = true;
  (** *** Commands *)
  GET : list Z → script (option (list Z));
  SET : list Z → list Z → bool → option Z → Z → script bool;
  DEL : list Z → script Z;
  HGET : list Z → list Z → script (option (list Z));
  HSET : list Z → gmap (list Z) (list Z) → script unit;
  HMGET : list Z → list Z → list Z → script (option Z * option (list Z));
  INCRBY : list Z → Z → script Z;
  PTTL : list Z → Z → script Z;
  PEXPIRE : list Z → Z → Z → script unit;
  GET_ok : ∀ k m o m', GET k m = (Ok o, m') → m' = m ∧
    match m !! k with
    | None => o = None
    | Some (StringValue v, _) => o = Some v
    | Some (HashValue _, _) => False
    end;
  GET_err : ∀ k m e m', GET k m = (Err e, m') → m' = m;
  (** [SET key value [NX] [PX ms]]: a key that was there keeps an [NX] from being set. *)
  SET_ok : ∀ k v nx px now m set m', SET k v nx px now m = (Ok set, m') →
    set = negb (nx && bool_decide (is_Some (m !! k))) ∧
    (set = true → ∀ ms, px = Some ms → timed now ms) ∧
    m' = if set then <[k := (StringValue v, Z.add now <$> px)]> m else m;
  SET_err : ∀ k v nx px now m e m', SET k v nx px now m = (Err e, m') → m' = m;
  DEL_ok : ∀ k m n m', DEL k m = (Ok n, m') →
    n = (if bool_decide (is_Some (m !! k)) then 1 else 0) ∧ m' = delete k m;
  DEL_err : ∀ k m e m', DEL k m = (Err e, m') → m' = m;
  HGET_ok : ∀ k f m o m', HGET k f m = (Ok o, m') → m' = m ∧
    match m !! k with
    | None => o = None
    | Some (HashValue h, _) => o = h !! f
    | Some (StringValue _, _) => False
    end;
  HGET_err : ∀ k f m e m', HGET k f m = (Err e, m') → m' = m;
  HSET_ok : ∀ k fs m u m', HSET k fs m = (Ok u, m') →
    match m !! k with
    | None => m' = <[k := (HashValue fs, None)]> m
    | Some (HashValue h, d) => m' = <[k := (HashValue (fs ∪ h), d)]> m
    | Some (StringValue _, _) => False
    end;
  HSET_err : ∀ k fs m e m', HSET k fs m = (Err e, m') → m' = m;
  (** Read as a number and as bytes. *)
  HMGET_ok : ∀ k f g m n v m', HMGET k f g m = (Ok (n, v), m') → m' = m ∧
    match m !! k with
    | None => n = None ∧ v = None
    | Some (HashValue h, _) => v = h !! g ∧ (h !! f = None → n = None) ∧
        (∀ i, is_u64 i → h !! f = Some (decimal i) → n = Some i)
    | Some (StringValue _, _) => False
    end;
  HMGET_err : ∀ k f g m e m', HMGET k f g m = (Err e, m') → m' = m;
  (** A key that is not there counts as zero; its deadline is not touched. *)
  INCRBY_ok : ∀ k by_ m n m', INCRBY k by_ m = (Ok n, m') → n ≤ i64_max ∧
    match m !! k with
    | None => n = by_ ∧ m' = <[k := (StringValue (decimal n), None)]> m
    | Some (StringValue v, d) =>
        ∃ i, v = decimal i ∧ n = i + by_ ∧ m' = <[k := (StringValue (decimal n), d)]> m
    | Some (HashValue _, _) => False
    end;
  INCRBY_err : ∀ k by_ m e m', INCRBY k by_ m = (Err e, m') → m' = m;
  (** Negative where there is no deadline. *)
  PTTL_ok : ∀ k now m n m', PTTL k now m = (Ok n, m') → m' = m ∧
    match m !! k with
    | Some (_, Some _) => 0 ≤ n
    | _ => n < 0
    end;
  PTTL_err : ∀ k now m e m', PTTL k now m = (Err e, m') → m' = m;
  (** A deadline that is over drops the key. *)
  PEXPIRE_ok : ∀ k ms now m u m', PEXPIRE k ms now m = (Ok u, m') →
    match m !! k with
    | Some (v, _) =>
        if 0 <? ms then timed now ms ∧ m' = <[k := (v, Some (now + ms))]> m else m' = delete k m
    | None => m' = m
    end;
  PEXPIRE_err : ∀ k ms now m e m', PEXPIRE k ms now m = (Err e, m') → m' = m;
  (** *** Lua *)
  (** [tonumber]: a double, which is a whole number where the text is one. *)
  tonumber : list Z → option Z;
  tonumber_exact : ∀ n, 0 ≤ n ≤ exact_revision → tonumber (decimal n) = Some n;
  tonumber_monotone : ∀ n n', 0 ≤ n ≤ n' → n' ≤ u64_max →
    ∃ x x', tonumber (decimal n) = Some x ∧ tonumber (decimal n') = Some x' ∧ x ≤ x';
  (** *** The connection *)
  (** Sends a command or a script, which is done in one step at the moment [now] of the server,
      on the keys that are there then. *)
  ask : ∀ {A : Type}, script A → Z → server → result CacheError A * server;
  ask_ok : ∀ {A} (f : script A) now d a d', ask f now d = (Ok a, d') →
    f (live lasts now (keyspace d)) = (Ok a, keyspace d');
  (** An error: it was not done, or its reply was lost, or it was refused. *)
  ask_err : ∀ {A} (f : script A) now d e d', ask f now d = (Err e, d') →
    keyspace d' = keyspace d ∨ keyspace d' = (f (live lasts now (keyspace d))).2
}.

(** ** cluster.rs *)

Section cluster.
Context {server : Type} `{!Redis server}.
(** The prefix the cache was opened under. *)
Context (prefix : option str).

Definition named_key (k : CacheKey) : list Z := as_bytes (scoped prefix k).

(** [millis]. *)
Definition millis (ttl : Ttl) : Z := Z.min (as_millis (val ttl)) i64_max.

Definition get (k : CacheKey) : Z → server → result CacheError (option (list Z)) * server :=
  ask (GET (named_key k)).

Definition put (k : CacheKey) (value : list Z) (ttl : option Ttl) (now : Z)
    : server → result CacheError unit * server :=
  ask (SET (named_key k) value false (millis <$> ttl) now ≫= λ _, mret tt) now.

Definition claim (k : CacheKey) (ttl : option Ttl) (now : Z) : server → result CacheError bool * server :=
  ask (SET (named_key k) [] true (millis <$> ttl) now) now.

Definition remove (k : CacheKey) : Z → server → result CacheError bool * server :=
  ask (dropped ← DEL (named_key k); mret (0 <? dropped)).

(** *** The scripts *)

Definition REVISION : list Z := as_bytes #"revision".
Definition VALUE : list Z := as_bytes #"value".

(** An error of the script, or a reply that is not what was asked for. *)
Definition refused {A} : script A := λ m, (Err BackendFailed, m).

(** [current and tonumber(current) >= tonumber(ARGV[1])]: comparing with what is no number is
    an error of the script. *)
Definition not_older (current : option (list Z)) (revision : list Z) : script bool :=
  match current with
  | None => mret false
  | Some current =>
      match tonumber current, tonumber revision with
      | Some held, Some new => mret (new <=? held)
      | _, _ => refused
      end
  end.

(** [PUBLISH]; announcing on the channel keeps nothing under any key. *)
Definition PUBLISH (topic revision value : list Z) : script Z :=
  current ← HGET topic REVISION;
  stale ← not_older current revision;
  if (stale : bool) then mret 0
  else
    _ ← HSET topic (<[REVISION := revision]> {[ VALUE := value ]});
    mret 1.

(** [COUNT]. *)
Definition COUNT (key : list Z) (by_ ms now : Z) : script Z :=
  total ← INCRBY key by_;
  left ← PTTL key now;
  _ ← (if left <? 0 then PEXPIRE key ms now else mret tt);
  mret total.

(** [SEED]. *)
Definition SEED (key from : list Z) (ms now : Z) : script Z :=
  started ← SET key from true (Some ms) now;
  held ← (if (started : bool) then mret (Some from) else GET key);
  match held ≫= tonumber with
  | Some n => mret n
  | None => refused
  end.

Definition count (k : CacheKey) (by_ : Z) (ttl : Ttl) (now : Z) : server → result CacheError Z * server :=
  ask (COUNT (named_key k) by_ (millis ttl) now) now.

Definition seed (k : CacheKey) (from : Z) (ttl : Ttl) (now : Z) : server → result CacheError Z * server :=
  ask (SEED (named_key k) (decimal from) (millis ttl) now) now.

(** The reply read as a number. *)
Definition counted (k : CacheKey) : Z → server → result CacheError (option Z) * server :=
  ask (held ← GET (named_key k);
       match held with
       | None => mret None
       | Some held =>
           match parse_unsigned u64_max held with
           | Some n => mret (Some n)
           | None => refused
           end
       end).

Definition publish (topic : CacheKey) (revision : Z) (value : list Z) (now : Z)
    : server → result CacheError bool * server :=
  ask (landed ← PUBLISH (named_key topic) (decimal revision) value; mret (landed =? 1)) now.

Definition published (topic : CacheKey) : Z → server → result CacheError (option Published) * server :=
  ask ('(revision, value) ← HMGET (named_key topic) REVISION VALUE;
       mret (match revision, value with
             | Some revision, Some value => Some (MkPublished revision value)
             | _, _ => None
             end)).
End cluster.

(** ** What is there when *)

Section redis_ok.
Context {server : Type} `{!Redis server} (prefix : option str).

Definition there (e : RedisValue * option Z) (now : Z) : bool :=
  match e.2 with Some t => lasts t now | None => true end.

Lemma lookup_live (now : Z) (m : Keyspace) b :
  live lasts now m !! b = m !! b ≫= λ e, if there e now then Some e else None.
Proof using.
  unfold live. rewrite map_lookup_filter. destruct (m !! b) as [e|]; [|done]. cbn.
  change (match e.2 with Some t => lasts t now | None => true end) with (there e now).
  case_guard as Hg; destruct (there e now); done.
Qed.

Lemma there_before e now later : now ≤ later → there e later = true → there e now = true.
Proof using. unfold there. destruct e.2; [by apply lasts_shorter|done]. Qed.

Lemma live_live (now later : Z) (m : Keyspace) :
  now ≤ later → live lasts later (live lasts now m) = live lasts later m.
Proof using.
  intros Hle. apply map_eq. intros b. rewrite !lookup_live. destruct (m !! b) as [e|]; [|done]. cbn.
  destruct (there e now) eqn:Hn; [done|]. destruct (there e later) eqn:Hl; [|done].
  by rewrite (there_before _ _ _ Hle Hl) in Hn.
Qed.

Lemma live_insert (now : Z) (m : Keyspace) k e b :
  live lasts now (<[k := e]> m) !! b
  = if decide (b = k) then if there e now then Some e else None else live lasts now m !! b.
Proof using.
  rewrite !lookup_live. case_decide; subst; [by rewrite lookup_insert_eq|by rewrite lookup_insert_ne].
Qed.

Lemma live_delete (now : Z) (m : Keyspace) k b :
  live lasts now (delete k m) !! b = if decide (b = k) then None else live lasts now m !! b.
Proof using.
  rewrite !lookup_live. case_decide; subst; [by rewrite lookup_delete_eq|by rewrite lookup_delete_ne].
Qed.

(** *** Keys *)

(** The bytes a key is stored under, from its own. *)
Definition under (b : list Z) : list Z :=
  match prefix with Some p => as_bytes p ++ as_bytes #":" ++ b | None => b end.

Lemma named_key_under k : named_key prefix k = under (key_bytes k).
Proof using. unfold named_key, scoped, under. destruct prefix; [by rewrite !as_bytes_app|done]. Qed.

#[local] Instance under_inj : Inj (=) (=) under.
Proof using. intros b b'. unfold under. destruct prefix; [|done]. by intros ?%app_inv_head%app_inv_head. Qed.

Lemma decide_under {A} b b' (x y : A) :
  (if decide (under b = under b') then x else y) = if decide (b = b') then x else y.
Proof using. repeat case_decide; try done; [by apply (inj under) in H|congruence]. Qed.

(** *** The cache *)

(** What stands under a key for the cache.  A hash is nothing [get] can read, and is there. *)
Definition found (m : Keyspace) (b : list Z) : option (list Z) :=
  (λ e : RedisValue * option Z, match e.1 with StringValue v => v | HashValue _ => [] end)
  <$> m !! under b.

Definition held_at (d : server) (t : Z) (b : list Z) : option (list Z) :=
  found (live lasts t (keyspace d)) b.

Lemma held_at_same (d d' : server) now t b :
  keyspace d' = keyspace d ∨ keyspace d' = live lasts now (keyspace d) → now ≤ t →
  held_at d' t b = held_at d t b.
Proof using. intros [E|E] Hle; unfold held_at; rewrite E; [done|]. by rewrite live_live. Qed.

Lemma expiry_millis now ttl :
  0 ≤ now → timed now (millis ttl) → expiry now (Some ttl) = now + millis ttl.
Proof using.
  unfold timed, millis, expiry. intros Hn [Hm Hle].
  assert (as_millis (val ttl) ≤ i64_max) as Hs by lia. rewrite Z.min_l in * by done.
  unfold try_unsigned, sat_add. unfold_bounds.
  replace (0 <=? as_millis (val ttl)) with true by lia.
  replace (as_millis (val ttl) <=? 2 ^ 64 - 1) with true by lia. cbn [andb from_option id]. unfold_bounds. lia.
Qed.

(** Whether what is set at [now] is still there at [t]. *)
Definition remains (now : Z) (ttl : option Ttl) (t : Z) : bool :=
  match ttl with Some _ => lasts (expiry now ttl) t | None => true end.

(** An entry set now is there as long as its ttl says. *)
Lemma set_there now v ttl t :
  0 ≤ now → (∀ ms, millis <$> ttl = Some ms → timed now ms) →
  there (StringValue v, Z.add now <$> (millis <$> ttl)) t = remains now ttl t.
Proof using.
  intros Hn Hms. destruct ttl as [ttl|]; [|done]. unfold remains. by rewrite expiry_millis by auto.
Qed.

#[export, program] Instance redis_cache : Cache server := {|
  cache_ok _ := True;
  held := held_at;
  k_get := get prefix;
  k_put := put prefix;
  k_claim := claim prefix;
  k_remove := remove prefix;
  stays := remains
|}.
Next Obligation. intros now [ttl|] t Ht; [by apply lasts_before|done]. Qed.
Next Obligation. intros now ttl t. apply lasts_over. Qed.
Next Obligation.
  intros d now later b Hle. unfold held_at, found. rewrite !lookup_live.
  destruct (keyspace d !! under b) as [e|]; [|done]. cbn.
  destruct (there e later) eqn:Hl; [|done]. by rewrite (there_before _ _ _ Hle Hl).
Qed.
Next Obligation.
  intros k now d o d' _ _ (Em & Ho)%ask_ok%GET_ok. rewrite named_key_under in Ho. split.
  - unfold held_at, found. destruct (live lasts now (keyspace d) !! _) as [[[v|h] dl]|]; by subst.
  - split; [done|]. intros t b Ht. apply (held_at_same _ _ now); auto.
Qed.
Next Obligation.
  intros k v ttl now d d' _ Hn Hp%ask_ok. split; [done|]. intros t b Ht.
  unfold mbind, script_bind in Hp.
  destruct (SET _ _ _ _ _ _) as [[set|] m] eqn:Hs; [|done]. injection Hp as ->.
  apply SET_ok in Hs as (-> & Hms & Em). cbn [andb negb] in *. unfold held_at, found.
  rewrite Em, live_insert, named_key_under, decide_under. case_decide; [|by rewrite live_live].
  rewrite set_there by auto. by destruct (remains _ _ _).
Qed.
Next Obligation.
  intros k ttl now d taken d' _ Hn (Et & Hms & Em)%ask_ok%SET_ok. rewrite named_key_under in *.
  split; [|split; [done|]].
  - rewrite Et. unfold held_at, found. by destruct (live lasts now (keyspace d) !! _).
  - intros t b Ht. unfold held_at, found. rewrite Em. destruct taken.
    + rewrite live_insert, decide_under, live_live by done. rewrite set_there by auto.
      repeat case_decide; try naive_solver. by destruct (remains _ _ _).
    + rewrite live_live by done. case_decide; naive_solver.
Qed.
Next Obligation.
  intros k now d dropped d' _ _ Hr%ask_ok. unfold mbind, script_bind in Hr.
  destruct (DEL _ _) as [[n|] m] eqn:Hd; [|done]. injection Hr as <- ->.
  apply DEL_ok in Hd as [-> Em]. rewrite named_key_under in *. split; [|split; [done|]].
  - unfold held_at, found. by destruct (live lasts now (keyspace d) !! _).
  - intros t b Ht. unfold held_at, found. rewrite Em, live_delete, decide_under, live_live by done.
    by case_decide.
Qed.

(** *** Publications *)

(** What is published under a key: a hash that stays, with a revision and a value. *)
Definition hashed (m : Keyspace) (b : list Z) : option Published :=
  match m !! under b with
  | Some (HashValue h, None) =>
      revision ← h !! REVISION ≫= parse_unsigned u64_max;
      value ← h !! VALUE;
      Some (MkPublished revision value)
  | _ => None
  end.

(** Every hash is one [PUBLISH] wrote. *)
Definition clean (m : Keyspace) : Prop := ∀ b h dl, m !! under b = Some (HashValue h, dl) →
  dl = None ∧ ∃ r v, is_u64 r ∧ h !! REVISION = Some (decimal r) ∧ h !! VALUE = Some v.

Lemma clean_live now m : clean m → clean (live lasts now m).
Proof using.
  intros Hm b h dl. rewrite lookup_live. destruct (m !! under b) as [e|] eqn:Eb; [|done]. cbn.
  destruct (there e now); [|done]. intros [= ->]. by eapply Hm.
Qed.

Lemma hashed_live now m b : hashed (live lasts now m) b = hashed m b.
Proof using.
  unfold hashed. rewrite lookup_live. destruct (m !! under b) as [[[v|h] [dl|]]|]; cbn; try done.
  all: by destruct (lasts dl now).
Qed.

Lemma decimal_dec n : decimal n = dec n.
Proof using.
  assert (∀ i, 0 ≤ i → ascii_text (dec i)) as Hpos.
  { intros i Hi. eapply Forall_impl; [by apply dec_digits|].
    intros c. unfold is_ascii_digit, in_range. cbn. lia. }
  apply as_bytes_ascii. destruct (Z_lt_ge_dec n 0) as [Hn|Hn]; [|apply Hpos; lia].
  unfold dec. replace (n <? 0) with true by lia. constructor; [lia|].
  specialize (Hpos (- n) ltac:(lia)). unfold dec in Hpos. by replace (- n <? 0) with false in Hpos by lia.
Qed.
#[local] Instance decimal_inj : Inj (=) (=) decimal.
Proof using. intros n n'. rewrite !decimal_dec. apply (inj dec). Qed.

Lemma parse_decimal n : is_u64 n → parse_unsigned u64_max (decimal n) = Some n.
Proof using. intros Hn. rewrite decimal_dec. by apply parse_unsigned_dec. Qed.

(** What [PUBLISH] wrote under a key. *)
Definition written (r : Z) (value : list Z) (h : gmap (list Z) (list Z)) : Prop :=
  h !! REVISION = Some (decimal r) ∧ h !! VALUE = Some value.

Lemma hashed_written m b r value h :
  is_u64 r → written r value h → m !! under b = Some (HashValue h, None) →
  hashed m b = Some (MkPublished r value).
Proof using.
  intros Hr [E1 E2] Eb. unfold hashed. rewrite Eb, E1. cbn [mbind option_bind].
  by rewrite parse_decimal, E2.
Qed.

(** The script lands only over something older and leaves all else alone. *)
Lemma PUBLISH_lands b r value m res m' :
  clean m → is_u64 r → PUBLISH (under b) (decimal r) value m = (res, m') →
  (m' = m ∧ (∀ n, res = Ok n → n = 0 ∧ (r ≤ exact_revision → r ≤ as_of (hashed m b)))) ∨
  (res = Ok 1 ∧ as_of (hashed m b) < r ∧
   ∃ h, written r value h ∧ m' = <[under b := (HashValue h, None)]> m).
Proof using.
  intros Hm Hr. unfold PUBLISH, mbind, script_bind.
  destruct (HGET _ _ m) as [[current|] m1] eqn:Eg;
    [apply HGET_ok in Eg as [-> Eg]|apply HGET_err in Eg as ->; intros [= <- <-]; by left].
  assert (∀ h dl, m !! under b = Some (HashValue h, dl) →
    ∃ r0 v, dl = None ∧ is_u64 r0 ∧ written r0 v h) as Hhash.
  { intros h dl (-> & r0 & v & ? & ? & ?)%Hm. by exists r0, v. }
  assert (written r value (<[REVISION:=decimal r]> {[VALUE := value]})) as Hfresh
    by (split; [by rewrite lookup_insert_eq|by rewrite lookup_insert_ne, lookup_singleton_eq]).
  assert (∀ res m', match HSET (under b) (<[REVISION:=decimal r]> {[VALUE := value]}) m with
    | (Ok _, m) => (mret 1 : script Z) m | (Err e, m) => (Err e, m) end = (res, m') →
    as_of (hashed m b) < r →
    (m' = m ∧ (∀ n, res = Ok n → n = 0 ∧ (r ≤ exact_revision → r ≤ as_of (hashed m b)))) ∨
    (res = Ok 1 ∧ as_of (hashed m b) < r ∧
     ∃ h, written r value h ∧ m' = <[under b := (HashValue h, None)]> m)) as Hset.
  { clear Eg. intros res' m2 Hs Hlt.
    destruct (HSET _ _ m) as [[u|] m1] eqn:Es; injection Hs as <- <-;
      [|apply HSET_err in Es as ->; by left].
    right. split; [done|]. split; [done|]. apply HSET_ok in Es.
    destruct (m !! under b) as [[[v|h] dl]|] eqn:Eb; [done| |by eexists].
    destruct (Hhash h dl eq_refl) as (r0 & v & -> & _). eexists. split; [|done].
    split; (erewrite lookup_union_Some_l; [done|]); apply Hfresh. }
  destruct (m !! under b) as [[[v|h] dl]|] eqn:Eb; [done|..]; subst current; cbn [not_older]; cycle 1.
  { intros Hs. apply (Hset _ _ Hs). unfold hashed. rewrite Eb. cbn. destruct Hr; lia. }
  destruct (Hhash h dl eq_refl) as (r0 & v & -> & Hr0 & Hw). pose proof (hashed_written m b _ _ _ Hr0 Hw Eb) as Eh.
  rewrite (proj1 Hw). unfold not_older. rewrite Eh in *. cbn [as_of Cache.revision] in *.
  destruct (Z_le_gt_dec r r0) as [Hle|Hgt].
  - destruct (tonumber_monotone r r0) as (x & x' & -> & -> & Hx); [destruct Hr; lia|apply Hr0|].
    unfold mret, script_ret. replace (x <=? x') with true by lia. intros [= <- <-]. left. split; [done|]. by intros n [= <-].
  - destruct (tonumber_monotone r0 r) as (x' & x & Ex' & Ex & Hx); [destruct Hr0; lia|apply Hr|].
    rewrite Ex, Ex'. unfold mret at 1, script_ret at 1. destruct (x <=? x') eqn:Elt; cycle 1.
    { intros Hs. apply (Hset _ _ Hs). lia. }
    intros [= <- <-]. left. split; [done|]. intros n [= <-]. split; [done|]. intros Hexact.
    rewrite tonumber_exact in Ex by (destruct Hr; lia). rewrite tonumber_exact in Ex' by (destruct Hr0; lia).
    injection Ex as <-. injection Ex' as <-. lia.
Qed.

Lemma clean_written b r value h m :
  clean m → is_u64 r → written r value h → clean (<[under b := (HashValue h, None)]> m).
Proof using.
  intros Hm Hr [E1 E2] b' h' dl. destruct (decide (under b' = under b)) as [->|Hne].
  - rewrite lookup_insert_eq. intros [= <- <-]. eauto 10.
  - rewrite lookup_insert_ne by done. apply Hm.
Qed.

Lemma hashed_insert b b' r value h m :
  is_u64 r → written r value h →
  hashed (<[under b := (HashValue h, None)]> m) b'
  = if decide (b' = b) then Some (MkPublished r value) else hashed m b'.
Proof using.
  intros Hr Hw. case_decide as Hb.
  - subst. eapply hashed_written; [done..|]. by rewrite lookup_insert_eq.
  - unfold hashed. rewrite lookup_insert_ne; [done|]. by intros ?%(inj under).
Qed.

(** What a call of [publish] does, whether its reply arrived or not. *)
Definition publishes (topic : CacheKey) (r : Z) (value : list Z) (m m' : Keyspace) : Prop :=
  clean m' ∧ as_of (hashed m (key_bytes topic)) < r ∧
  ∀ b, hashed m' b = if decide (b = key_bytes topic) then Some (MkPublished r value) else hashed m b.

Lemma publish_effect topic r value (d : server) now res d' :
  clean (keyspace d) → is_u64 r → publish prefix topic r value now d = (res, d') →
  clean (keyspace d') ∧
  (((∀ b, hashed (keyspace d') b = hashed (keyspace d) b) ∧ res ≠ Ok true ∧
    (res = Ok false → r ≤ exact_revision → r ≤ as_of (hashed (keyspace d) (key_bytes topic)))) ∨
   (publishes topic r value (keyspace d) (keyspace d') ∧ res ≠ Ok false)).
Proof using.
  intros Hc Hr Hp. pose proof (clean_live now _ Hc) as Hl.
  assert (∀ res' m', (PUBLISH (under (key_bytes topic)) (decimal r) value ≫= λ landed, mret (landed =? 1))
      (live lasts now (keyspace d)) = (res', m') → clean m' ∧
    (((∀ b, hashed m' b = hashed (keyspace d) b) ∧ res' ≠ Ok true ∧
      (res' = Ok false → r ≤ exact_revision → r ≤ as_of (hashed (keyspace d) (key_bytes topic)))) ∨
     (publishes topic r value (keyspace d) m' ∧ res' = Ok true))) as Hrun.
  { intros res' m'. unfold mbind, script_bind.
    destruct (PUBLISH _ _ _ _) as [x m1] eqn:Ep. apply PUBLISH_lands in Ep; [|done..].
    rewrite hashed_live in Ep. destruct Ep as [(-> & Hx)|(-> & Hlt & h & Hw & ->)].
    - intros E. assert (m' = live lasts now (keyspace d)) as -> by (by destruct x; injection E as <- <-).
      split; [done|]. left. split; [intros b; apply hashed_live|].
      destruct x as [n|]; injection E as <-; [|done]. by destruct (Hx n eq_refl) as [-> ?].
    - intros [= <- <-]. split; [by eapply clean_written|]. right. split; [|done].
      split; [by eapply clean_written|]. split; [done|]. intros b.
      erewrite hashed_insert by done. by rewrite hashed_live. }
  unfold publish in Hp. rewrite named_key_under in Hp. destruct res as [landed|e].
  - apply ask_ok, Hrun in Hp as [? [(? & ? & ?)|[? [= ->]]]]; split; auto 10.
  - apply ask_err in Hp as [->| ->]; [split; [done|]; left; split; [done|]; by split|].
    destruct (Hrun _ _ (surjective_pairing _)) as [Hc' [(? & _)|[? _]]]; (split; [done|]); [left; by split|right; by split].
Qed.

Lemma published_reads topic (d : server) now res d' :
  clean (keyspace d) → published prefix topic now d = (res, d') →
  (∀ o, res = Ok o → o = hashed (keyspace d) (key_bytes topic)) ∧
  (keyspace d' = keyspace d ∨ keyspace d' = live lasts now (keyspace d)).
Proof using.
  intros Hc Hp. unfold published in Hp. rewrite named_key_under in Hp.
  set (m := live lasts now (keyspace d)) in *.
  assert (∀ res' m', ('(revision, value) ← HMGET (under (key_bytes topic)) REVISION VALUE;
      mret (match revision, value with
            | Some revision, Some value => Some (MkPublished revision value)
            | _, _ => None
            end)) m = (res', m') →
    (∀ o, res' = Ok o → o = hashed m (key_bytes topic)) ∧ m' = m) as Hrun.
  { intros res' m'. unfold mbind, script_bind.
    destruct (HMGET _ _ _ m) as [[[n v]|] m1] eqn:Eh;
      [|apply HMGET_err in Eh as ->; intros [= <- <-]; done].
    apply HMGET_ok in Eh as [-> Eh]. intros [= <- <-]. split; [|done]. intros o [= <-].
    unfold hashed. destruct (m !! under (key_bytes topic)) as [[[s|h] dl]|] eqn:Eb; [done|..].
    - destruct (clean_live now _ Hc _ _ _ Eb) as (-> & r & v' & Hr & E1 & E2).
      destruct Eh as (-> & _ & Hn). rewrite E2, (Hn r Hr E1), E1. cbn [mbind option_bind].
      by rewrite parse_decimal.
    - by destruct Eh as [-> ->]. }
  rewrite <-(hashed_live now). fold m. destruct res as [o|e].
  - destruct (Hrun _ _ (ask_ok _ _ _ _ _ Hp)) as [? E]. split; [done|]. by right.
  - split; [done|]. apply ask_err in Hp as [->| ->]; [by left|]. right.
    exact (proj2 (Hrun _ _ (surjective_pairing _))).
Qed.

(** The server's clock is its own: nothing published ever runs out. *)
#[export] Program Instance redis_publication (clock : server → Z) : Publication server := {|
  pub_ok d := clean (keyspace d);
  pub_at d b := hashed (keyspace d) b;
  k_publish topic r value d := publish prefix topic r value (clock d) d;
  k_published topic d := published prefix topic (clock d) d
|}.
Next Obligation.
  intros clock topic r value d landed d' Hc Hr Hp.
  destruct (publish_effect _ _ _ _ _ _ _ Hc Hr Hp) as [Hc' [(Hsame & Hno & Hx)|[(_ & Hlt & Hat) Hno]]].
  - destruct landed; [done|]. split_and!; [done|done| |].
    + intros Hexact Hlt. specialize (Hx eq_refl Hexact). lia.
    + intros b. rewrite Hsame. case_decide; naive_solver.
  - destruct landed; [|done]. split_and!; [done..|]. intros b. rewrite Hat. repeat case_decide; naive_solver.
Qed.
Next Obligation.
  intros clock topic r value d e d' Hc Hr Hp.
  destruct (publish_effect _ _ _ _ _ _ _ Hc Hr Hp) as [Hc' [(Hsame & _)|[(_ & Hlt & Hat) _]]]; auto.
Qed.
Next Obligation.
  intros clock topic d r d' Hc Hp. apply published_reads in Hp as [Hr Hk]; [|done]. split; [done|].
  destruct Hk as [->| ->]; [done|]. split; [by apply clean_live|]. intros b. apply hashed_live.
Qed.

(** ** Nodes that share a server *)

(** What nodes ask of the cache. *)
Inductive Call : Type :=
  | Get (k : CacheKey)
  | Put (k : CacheKey) (value : list Z) (ttl : option Ttl)
  | Claim (k : CacheKey) (ttl : option Ttl)
  | Remove (k : CacheKey)
  | Count (k : CacheKey) (by_ : Z) (ttl : Ttl)
  | Counted (k : CacheKey)
  | Seed (k : CacheKey) (from : Z) (ttl : Ttl)
  | Publish (k : CacheKey) (revision : Z) (value : list Z)
  | ReadPublished (k : CacheKey).

Definition after (c : Call) (now : Z) (d : server) : server :=
  match c with
  | Get k => (get prefix k now d).2
  | Put k value ttl => (put prefix k value ttl now d).2
  | Claim k ttl => (claim prefix k ttl now d).2
  | Remove k => (remove prefix k now d).2
  | Count k by_ ttl => (count prefix k by_ ttl now d).2
  | Counted k => (counted prefix k now d).2
  | Seed k from ttl => (seed prefix k from ttl now d).2
  | Publish k revision value => (publish prefix k revision value now d).2
  | ReadPublished k => (published prefix k now d).2
  end.

(** Calls that leave what stands under a key alone: those under other keys, those that only
    read, and those that only ever start what is not there. *)
Definition spares (k : CacheKey) (c : Call) : Prop :=
  match c with
  | Get _ | Claim _ _ | Counted _ | Seed _ _ _ | ReadPublished _ => True
  | Put k' _ _ | Remove k' | Count k' _ _ | Publish k' _ _ => key_bytes k' ≠ key_bytes k
  end.

(** Calls of any nodes, as the server gets to them; each may fail on its way or its way back. *)
Inductive calls (P : Call → Prop) : Z → server → Z → server → Prop :=
  | calls_none now d : calls P now d now d
  | calls_wait now d t d1 t' : calls P now d t d1 → t ≤ t' → calls P now d t' d1
  | calls_more now d t d1 c : calls P now d t d1 → P c → calls P now d t (after c t d1).

(** A script that only touches one key, or nothing that is there. *)
Definition keeps (b : list Z) {A} (f : script A) : Prop :=
  ∀ m e, m !! b = Some e → (f m).2 !! b = Some e.

Lemma script_keeps_ret b {A} (a : A) : keeps b (mret a).
Proof using. by intros m e. Qed.
Lemma keeps_refused b {A} : keeps b (@refused A).
Proof using. by intros m e. Qed.
Lemma script_keeps_bind b {A B} (f : script A) (g : A → script B) :
  keeps b f → (∀ a, keeps b (g a)) → keeps b (f ≫= g).
Proof using.
  intros Hf Hg m e Hm. specialize (Hf m e Hm). unfold mbind, script_bind.
  destruct (f m) as [[a|] m1]; [by apply Hg|done].
Qed.
Lemma keeps_ask {A} (f : script A) now (d : server) b e :
  keeps b f → keyspace d !! b = Some e → there e now = true →
  keyspace (ask f now d).2 !! b = Some e.
Proof using.
  intros Hf Hb Ht. assert (live lasts now (keyspace d) !! b = Some e) as Hl
    by (rewrite lookup_live, Hb; cbn; by rewrite Ht).
  specialize (Hf _ _ Hl). destruct (ask f now d) as [[a|x] d'] eqn:Ha; cbn [snd].
  - apply ask_ok in Ha. by rewrite Ha in Hf.
  - by apply ask_err in Ha as [->| ->].
Qed.

Lemma keeps_GET b k : keeps b (GET k).
Proof using.
  intros m e Hm. destruct (GET k m) as [[o|] m'] eqn:E; cbn [snd];
    [apply GET_ok in E as [-> _]|apply GET_err in E as ->]; done.
Qed.
Lemma keeps_SET b k v nx px now : nx = true ∨ b ≠ k → keeps b (SET k v nx px now).
Proof using.
  intros Hk m e Hm. destruct (SET k v nx px now m) as [[set|] m'] eqn:E; cbn [snd];
    [apply SET_ok in E as (Hset & _ & ->)|by apply SET_err in E as ->].
  destruct set; [|done]. destruct (decide (b = k)) as [->|Hne]; [|by rewrite lookup_insert_ne].
  destruct Hk as [->|]; [|done]. by rewrite Hm in Hset.
Qed.
Lemma keeps_DEL b k : b ≠ k → keeps b (DEL k).
Proof using.
  intros Hk m e Hm. destruct (DEL k m) as [[n|] m'] eqn:E; cbn [snd];
    [apply DEL_ok in E as [_ ->]; by rewrite lookup_delete_ne|by apply DEL_err in E as ->].
Qed.
Lemma keeps_HGET b k f : keeps b (HGET k f).
Proof using.
  intros m e Hm. destruct (HGET k f m) as [[o|] m'] eqn:E; cbn [snd];
    [apply HGET_ok in E as [-> _]|apply HGET_err in E as ->]; done.
Qed.
Lemma keeps_HSET b k fs : b ≠ k → keeps b (HSET k fs).
Proof using.
  intros Hk m e Hm. destruct (HSET k fs m) as [[u|] m'] eqn:E; cbn [snd];
    [apply HSET_ok in E|by apply HSET_err in E as ->].
  destruct (m !! k) as [[[v|h] dl]|]; [done|..]; subst; by rewrite lookup_insert_ne.
Qed.
Lemma keeps_HMGET b k f g : keeps b (HMGET k f g).
Proof using.
  intros m e Hm. destruct (HMGET k f g m) as [[[n v]|] m'] eqn:E; cbn [snd];
    [apply HMGET_ok in E as [-> _]|apply HMGET_err in E as ->]; done.
Qed.
Lemma keeps_INCRBY b k by_ : b ≠ k → keeps b (INCRBY k by_).
Proof using.
  intros Hk m e Hm. destruct (INCRBY k by_ m) as [[n|] m'] eqn:E; cbn [snd];
    [apply INCRBY_ok in E as [_ E]|by apply INCRBY_err in E as ->].
  destruct (m !! k) as [[[v|h] dl]|]; [destruct E as (i & _ & _ & ->)|done|destruct E as [_ ->]];
    by rewrite lookup_insert_ne.
Qed.
Lemma keeps_PTTL b k now : keeps b (PTTL k now).
Proof using.
  intros m e Hm. destruct (PTTL k now m) as [[n|] m'] eqn:E; cbn [snd];
    [apply PTTL_ok in E as [-> _]|apply PTTL_err in E as ->]; done.
Qed.
Lemma keeps_PEXPIRE b k ms now : b ≠ k → keeps b (PEXPIRE k ms now).
Proof using.
  intros Hk m e Hm. destruct (PEXPIRE k ms now m) as [[u|] m'] eqn:E; cbn [snd];
    [apply PEXPIRE_ok in E|by apply PEXPIRE_err in E as ->].
  destruct (m !! k) as [[v dl]|]; [|by subst]. destruct (0 <? ms); [destruct E as [_ ->]|subst].
  - by rewrite lookup_insert_ne.
  - by rewrite lookup_delete_ne.
Qed.

Create HintDb keeping.
#[local] Hint Resolve script_keeps_ret keeps_refused script_keeps_bind keeps_GET keeps_SET keeps_DEL keeps_HGET
  keeps_HSET keeps_HMGET keeps_INCRBY keeps_PTTL keeps_PEXPIRE : keeping.

(** What spares a key leaves what stands under it for as long as it is there. *)
Lemma spares_keeps k c now (d : server) e :
  spares k c → keyspace d !! under (key_bytes k) = Some e → there e now = true →
  keyspace (after c now d) !! under (key_bytes k) = Some e.
Proof using.
  intros Hs Hb Ht.
  assert (∀ k', key_bytes k' ≠ key_bytes k → under (key_bytes k) ≠ named_key prefix k') as Hne.
  { intros k' Hk' E. rewrite named_key_under in E. by apply (inj under) in E. }
  destruct c as [k'|k' v ttl|k' ttl|k'|k' by_ ttl|k'|k' from ttl|k' r v|k']; cbn [spares after] in *;
    (apply keeps_ask; [|done..]); unfold COUNT, SEED, PUBLISH, not_older.
  all: repeat first [apply script_keeps_bind; [|intros ?] | case_match | solve [auto with keeping]].
Qed.

Lemma calls_keep k now (d : server) t d' e :
  calls (spares k) now d t d' → keyspace d !! under (key_bytes k) = Some e → there e t = true →
  keyspace d' !! under (key_bytes k) = Some e.
Proof using.
  induction 1 as [|now d t d1 t' Hc IH Hle|now d t d1 c Hc IH Hs]; [done|..]; intros Hb Ht.
  - apply IH; [done|]. by eapply there_before.
  - apply spares_keeps; [done| |done]. by apply IH.
Qed.

(** What stands under a key now, and is there at a moment. *)
Definition stands (d : server) (k : CacheKey) (t : Z) (e : RedisValue * option Z) : Prop :=
  keyspace d !! under (key_bytes k) = Some e ∧ there e t = true.

Lemma stands_live d k t e : stands d k t e → live lasts t (keyspace d) !! under (key_bytes k) = Some e.
Proof using. intros [E Ht]. rewrite lookup_live, E. cbn. by rewrite Ht. Qed.

Lemma held_stands d k t : is_Some (held_at d t (key_bytes k)) → ∃ e, stands d k t e.
Proof using.
  unfold held_at, found. rewrite fmap_is_Some, lookup_live. intros [e He].
  destruct (keyspace d !! _) as [e'|] eqn:E; [|done]. cbn in He.
  destruct (there e' t) eqn:Ht; [|done]. by exists e'.
Qed.

Lemma calls_stand k now d t d' e : calls (spares k) now d t d' → stands d k t e → stands d' k t e.
Proof using. intros Hc [E Ht]. split; [|done]. by eapply calls_keep. Qed.

(** The script of a count: what was there grows, and keeps the deadline it had. *)
Lemma COUNT_adds key by_ ms now m n m' :
  COUNT key by_ ms now m = (Ok n, m') →
  (∀ e, m' !! key = Some e → ∃ dl, e = (StringValue (decimal n), Some dl)) ∧
  (∀ i dl, m !! key = Some (StringValue (decimal i), Some dl) →
     n = i + by_ ∧ m' !! key = Some (StringValue (decimal n), Some dl)).
Proof using.
  unfold COUNT, mbind, script_bind.
  destruct (INCRBY key by_ m) as [[total|] m1] eqn:Ei; [|done]. apply INCRBY_ok in Ei as [_ Ei].
  assert (∃ o, m1 !! key = Some (StringValue (decimal total), o) ∧
    ∀ i dl, m !! key = Some (StringValue (decimal i), Some dl) → total = i + by_ ∧ o = Some dl) as (o & Em1 & Hadd).
  { destruct (m !! key) as [[[v|h] o]|]; [|done|].
    - destruct Ei as (i & -> & -> & ->). rewrite lookup_insert_eq. exists o. split; [done|].
      intros i' dl [= ->%(inj decimal) ->]. done.
    - destruct Ei as [-> ->]. rewrite lookup_insert_eq. by exists None. }
  destruct (PTTL key now m1) as [[left|] m2] eqn:Ep; [|done]. apply PTTL_ok in Ep as [-> Ep].
  rewrite Em1 in Ep. destruct o as [dl|].
  - replace (left <? 0) with false by lia. intros [= <- <-]. split.
    + intros e. rewrite Em1. intros [= <-]. eauto.
    + intros i dl' Hm. destruct (Hadd i dl' Hm) as [? [= <-]]. done.
  - replace (left <? 0) with true by lia.
    destruct (PEXPIRE key ms now m1) as [[u|] m3] eqn:Ex; [|done]. intros [= <- <-].
    apply PEXPIRE_ok in Ex. rewrite Em1 in Ex. split; [|intros i dl Hm; by destruct (Hadd i dl Hm) as [_ ?]].
    intros e. destruct (0 <? ms); [destruct Ex as [_ ->]; rewrite lookup_insert_eq; intros [= <-]; eauto|].
    subst. by rewrite lookup_delete_eq.
Qed.

(** A seed answers what it leaves under the key, whoever put it there. *)
Lemma SEED_reads key from ms now m n m' :
  SEED key from ms now m = (Ok n, m') →
  (∃ v dl, m' !! key = Some (StringValue v, dl) ∧ tonumber v = Some n) ∧
  (∀ e, m !! key = Some e → m' !! key = Some e).
Proof using.
  unfold SEED, mbind, script_bind.
  destruct (SET key from true (Some ms) now m) as [[set|] m1] eqn:Es; [|done].
  apply SET_ok in Es as (Eset & _ & Em). destruct set; subst m1.
  - unfold mret at 1, script_ret at 1. cbn [option_bind].
    destruct (tonumber from) as [x|] eqn:Ex; [|done]. intros [= <- <-]. rewrite lookup_insert_eq. split; [eauto|].
    intros e He. rewrite He in Eset. done.
  - destruct (GET key m) as [[v|] m2] eqn:Eg; [|done]. apply GET_ok in Eg as [-> Eg].
    destruct (m !! key) as [[[s|h] dl]|] eqn:Ek; [|done|by rewrite bool_decide_eq_false_2 in Eset by by intros []].
    subst v. cbn [option_bind]. destruct (tonumber s) as [x|] eqn:Ex; [|done]. intros [= <- <-]. rewrite Ek. eauto.
Qed.

(** ** Properties *)

(** Of all the nodes that share a cluster cache, one at most claims a key: once a claim was
    answered as taken, no other claim of the key is until its ttl is over, whatever the nodes
    ask of the cache in between that does not put or remove the key itself, and whichever of
    their calls fail before or after the server did them. *)
Theorem claim_once (k : CacheKey) (ttl : Ttl) (ttl' : option Ttl) (now t : Z) (d d1 d2 d3 : server)
    (r : result CacheError bool) :
  0 ≤ now → claim prefix k (Some ttl) now d = (Ok true, d1) → calls (spares k) now d1 t d2 →
  t < expiry now (Some ttl) → claim prefix k ttl' t d2 = (r, d3) → r ≠ Ok true.
Proof using.
  intros Hn (_ & Hms & Em)%ask_ok%SET_ok Hc Ht Hr ->. rewrite named_key_under in Em.
  assert (stands d1 k t (StringValue [], Some (expiry now (Some ttl)))) as Hs.
  { split; [|by apply lasts_before]. rewrite Em, lookup_insert_eq.
    by rewrite expiry_millis by auto. }
  apply (calls_stand _ _ _ _ _ _ Hc), stands_live in Hs.
  apply ask_ok, SET_ok in Hr as (Et & _). rewrite named_key_under, Hs in Et. done.
Qed.

(** Nodes lose no count to one another: while a count stands, what a node adds is added to all
    that was counted before, and nobody gives it longer than who started it did. *)
Theorem counts_add (k : CacheKey) (by_ by' : Z) (ttl ttl' : Ttl) (now t n n' : Z) (d d1 d2 d3 : server) :
  count prefix k by_ ttl now d = (Ok n, d1) → calls (spares k) now d1 t d2 →
  is_Some (held_at d1 t (key_bytes k)) → count prefix k by' ttl' t d2 = (Ok n', d3) →
  n' = n + by' ∧ ∃ dl, stands d1 k t (StringValue (decimal n), Some dl) ∧
    stands d3 k t (StringValue (decimal n'), Some dl).
Proof using.
  intros [Hd1 _]%ask_ok%COUNT_adds Hc (e & Hs)%held_stands Hr. rewrite named_key_under in Hd1.
  destruct (Hd1 e) as [dl ->]; [apply Hs|].
  pose proof (stands_live _ _ _ _ (calls_stand _ _ _ _ _ _ Hc Hs)) as Hl.
  apply ask_ok, COUNT_adds in Hr as [_ Hr]. rewrite named_key_under in Hr.
  destruct (Hr n dl Hl) as [-> Hd3]. split; [done|]. exists dl. split; [done|]. split; [done|]. apply Hs.
Qed.

(** However many nodes seed a count at once, the first decides: while it stands, every later
    seed is answered what the first was. *)
Theorem seeds_agree (k : CacheKey) (from from' : Z) (ttl ttl' : Ttl) (now t n n' : Z)
    (d d1 d2 d3 : server) :
  seed prefix k from ttl now d = (Ok n, d1) → calls (spares k) now d1 t d2 →
  is_Some (held_at d1 t (key_bytes k)) → seed prefix k from' ttl' t d2 = (Ok n', d3) → n' = n.
Proof using.
  intros [(v & dl & Hd1 & Hn) _]%ask_ok%SEED_reads Hc (e & Hs)%held_stands Hr.
  rewrite named_key_under in Hd1. rewrite (proj1 Hs) in Hd1. injection Hd1 as ->.
  pose proof (stands_live _ _ _ _ (calls_stand _ _ _ _ _ _ Hc Hs)) as Hl.
  apply ask_ok, SEED_reads in Hr as [(v' & dl' & Hd3 & Hn') Hkeep]. rewrite named_key_under in *.
  rewrite (Hkeep _ Hl) in Hd3. injection Hd3 as <- <-. congruence.
Qed.
End redis_ok.

(** ** A server in memory *)

Module ClusterSample.
(** Doubles: fifty-three bits of a whole number, rounded. *)
Definition double (n : Z) : Z :=
  if n <=? exact_revision then n
  else let unit := 2 ^ (Z.log2 n - 52) in (n + unit / 2) / unit * unit.

Lemma double_range n : exact_revision < n → 2 ^ Z.log2 n ≤ double n ≤ 2 ^ (Z.log2 n + 1).
Proof.
  intros Hn. unfold double. replace (n <=? exact_revision) with false by lia.
  assert (0 < n) as H0 by (unfold exact_revision in Hn; lia).
  destruct (Z.log2_spec n H0) as [Hlo Hhi].
  assert (53 ≤ Z.log2 n) as He by (apply (Z.log2_le_mono (2 ^ 53)); unfold exact_revision in Hn; lia).
  remember (2 ^ (Z.log2 n - 52)) as u eqn:Eu.
  assert (0 < u) as Hu by (subst; apply Z.pow_pos_nonneg; lia).
  assert (2 ^ Z.log2 n = 2 ^ 52 * u) as E1 by (subst; rewrite <-Z.pow_add_r by lia; f_equal; lia).
  assert (2 ^ (Z.log2 n + 1) = 2 ^ 53 * u) as E2 by (subst; rewrite <-Z.pow_add_r by lia; f_equal; lia).
  assert (0 ≤ u / 2 < u) as Hhalf by (split; [apply Z.div_pos; lia|apply Z.div_lt; lia]).
  replace (Z.succ (Z.log2 n)) with (Z.log2 n + 1) in Hhi by lia. rewrite E1, E2 in *. split.
  - apply Z.mul_le_mono_nonneg_r; [lia|]. apply Z.div_le_lower_bound; lia.
  - apply Z.mul_le_mono_nonneg_r; [lia|].
    enough ((n + u / 2) / u < 2 ^ 53 + 1) by lia. apply Z.div_lt_upper_bound; lia.
Qed.

Lemma double_monotone n n' : 0 ≤ n ≤ n' → double n ≤ double n'.
Proof.
  intros Hn. destruct (Z_le_gt_dec n' exact_revision) as [Hs|Hs].
  { unfold double. rewrite !(proj2 (Z.leb_le _ _)) by lia. lia. }
  pose proof (double_range n' ltac:(lia)) as [Hlo' _].
  destruct (Z_le_gt_dec n exact_revision) as [Hs1|Hs1].
  { unfold double at 1. rewrite (proj2 (Z.leb_le _ _)) by lia. transitivity (2 ^ Z.log2 n'); [|done].
    transitivity (2 ^ 53); [done|]. apply Z.pow_le_mono_r; [lia|].
    apply (Z.log2_le_mono (2 ^ 53)). unfold exact_revision in *. lia. }
  destruct (double_range n ltac:(lia)) as [_ Hhi].
  destruct (Z.eq_dec (Z.log2 n) (Z.log2 n')) as [E|E].
  - unfold double. replace (n <=? exact_revision) with false by lia.
    replace (n' <=? exact_revision) with false by lia. rewrite E.
    assert (0 < 2 ^ (Z.log2 n' - 52)) as Hu.
    { apply Z.pow_pos_nonneg; [lia|]. pose proof (Z.log2_le_mono (2 ^ 53) n' ltac:(unfold exact_revision in *; lia)) as H53.
      change (Z.log2 (2 ^ 53)) with 53 in H53. lia. }
    apply Z.mul_le_mono_nonneg_r; [lia|]. apply Z.div_le_mono; lia.
  - pose proof (Z.log2_le_mono n n' ltac:(lia)). etrans; [exact Hhi|]. etrans; [|exact Hlo'].
    apply Z.pow_le_mono_r; lia.
Qed.

Definition settable (now : Z) (px : option Z) : bool :=
  match px with
  | Some ms => (0 <? ms) && (ms <? i64_max) && (now + ms <=? i64_max)
  | None => true
  end.
Definition present (m : Keyspace) (k : list Z) : bool := bool_decide (is_Some (m !! k)).

(** The whole number a text spells, and no other text. *)
Definition number_in (v : list Z) : option Z :=
  let n := match v with
           | 45 :: ds => Z.opp <$> parse_digits 0 ds
           | _ => parse_digits 0 v
           end in
  i ← n; if decide (v = decimal i) then Some i else None.

Lemma number_in_ok v i : number_in v = Some i → v = decimal i.
Proof.
  unfold number_in. destruct (match v with [] => _ | _ => _ end) as [n|]; [|done]. cbn.
  case_decide; [|done]. by intros [= <-].
Qed.

(** The commands, as their documentation has them. *)
Definition get_in (k : list Z) : script (option (list Z)) := λ m,
  match m !! k with
  | None => (Ok None, m)
  | Some (StringValue v, _) => (Ok (Some v), m)
  | Some _ => (Err BackendFailed, m)
  end.
Definition set_in (k v : list Z) (nx : bool) (px : option Z) (now : Z) : script bool := λ m,
  if negb (settable now px) then (Err BackendFailed, m)
  else if nx && present m k then (Ok false, m)
  else (Ok true, <[k := (StringValue v, Z.add now <$> px)]> m).
Definition hget_in (k f : list Z) : script (option (list Z)) := λ m,
  match m !! k with
  | None => (Ok None, m)
  | Some (HashValue h, _) => (Ok (h !! f), m)
  | Some _ => (Err BackendFailed, m)
  end.
Definition hset_in (k : list Z) (fs : gmap (list Z) (list Z)) : script unit := λ m,
  match m !! k with
  | None => (Ok tt, <[k := (HashValue fs, None)]> m)
  | Some (HashValue h, d) => (Ok tt, <[k := (HashValue (fs ∪ h), d)]> m)
  | Some _ => (Err BackendFailed, m)
  end.
Definition hmget_in (k f g : list Z) : script (option Z * option (list Z)) := λ m,
  match m !! k with
  | None => (Ok (None, None), m)
  | Some (HashValue h, _) => (Ok (h !! f ≫= parse_unsigned u64_max, h !! g), m)
  | Some _ => (Err BackendFailed, m)
  end.
Definition incrby_in (k : list Z) (by_ : Z) : script Z := λ m,
  match m !! k with
  | None => if by_ <=? i64_max then (Ok by_, <[k := (StringValue (decimal by_), None)]> m)
            else (Err BackendFailed, m)
  | Some (StringValue v, d) =>
      match number_in v with
      | Some i => if i + by_ <=? i64_max
                  then (Ok (i + by_), <[k := (StringValue (decimal (i + by_)), d)]> m)
                  else (Err BackendFailed, m)
      | None => (Err BackendFailed, m)
      end
  | Some _ => (Err BackendFailed, m)
  end.
Definition pttl_in (k : list Z) (now : Z) : script Z := λ m,
  (Ok (match m !! k with Some (_, Some d) => Z.max 0 (d - now) | _ => -1 end), m).
Definition pexpire_in (k : list Z) (ms now : Z) : script unit := λ m,
  match m !! k with
  | Some (v, _) =>
      if 0 <? ms
      then if settable now (Some ms) then (Ok tt, <[k := (v, Some (now + ms))]> m)
           else (Err BackendFailed, m)
      else (Ok tt, delete k m)
  | None => (Ok tt, m)
  end.

#[export] Program Instance memory : Redis Keyspace := {|
  keyspace m := m;
  lasts d t := t <? d;
  GET := get_in;
  SET := set_in;
  DEL k m := (Ok (if present m k then 1 else 0), delete k m);
  HGET := hget_in;
  HSET := hset_in;
  HMGET := hmget_in;
  INCRBY := incrby_in;
  PTTL := pttl_in;
  PEXPIRE := pexpire_in;
  tonumber v := double <$> parse_unsigned u64_max v;
  ask := λ A (f : script A) now m, f (live (λ d t, t <? d) now m)
|}.
Next Obligation. intros. by apply Z.ltb_lt. Qed.
Next Obligation. intros d t Ht%Z.ltb_lt. lia. Qed.
Next Obligation. intros d t t' Hle Ht%Z.ltb_lt. apply Z.ltb_lt. lia. Qed.
Next Obligation. intros k m o m'. unfold get_in, hget_in, hset_in, hmget_in, incrby_in. destruct (m !! k) as [[[] ?]|]; by intros [= <- <-]. Qed.
Next Obligation. intros k m e m'. unfold get_in, hget_in, hset_in, hmget_in, incrby_in. destruct (m !! k) as [[[] ?]|]; congruence. Qed.
Next Obligation.
  intros k v nx px now m set m'. unfold set_in. destruct (settable now px) eqn:Hp; cbn [negb]; [|done].
  fold (present m k). destruct (nx && present m k); intros [= <- <-]; split_and!; try done.
  intros _ ms ->. cbn in Hp. unfold timed. lia.
Qed.
Next Obligation. intros k v nx px now m e m'. unfold set_in, incrby_in, pexpire_in. repeat case_match; congruence. Qed.
Next Obligation. by intros k m n m' [= <- <-]. Qed.
Next Obligation. by intros k m e m' [=]. Qed.
Next Obligation. intros k f m o m'. unfold get_in, hget_in, hset_in, hmget_in, incrby_in. destruct (m !! k) as [[[] ?]|]; by intros [= <- <-]. Qed.
Next Obligation. intros k f m e m'. unfold get_in, hget_in, hset_in, hmget_in, incrby_in. destruct (m !! k) as [[[] ?]|]; congruence. Qed.
Next Obligation. intros k fs m u m'. unfold get_in, hget_in, hset_in, hmget_in, incrby_in. destruct (m !! k) as [[[] ?]|]; by intros [= <- <-]. Qed.
Next Obligation. intros k fs m e m'. unfold get_in, hget_in, hset_in, hmget_in, incrby_in. destruct (m !! k) as [[[] ?]|]; congruence. Qed.
Next Obligation.
  intros k f g m n v m'. unfold get_in, hget_in, hset_in, hmget_in, incrby_in. destruct (m !! k) as [[[] ?]|]; intros [= <- <- <-]; [|done].
  split; [done|]. split; [done|]. split; [by intros ->|]. intros i Hi ->. cbn. by apply parse_decimal.
Qed.
Next Obligation. intros k f g m e m'. unfold get_in, hget_in, hset_in, hmget_in, incrby_in. destruct (m !! k) as [[[] ?]|]; congruence. Qed.
Next Obligation.
  intros k by_ m n m'. unfold get_in, hget_in, hset_in, hmget_in, incrby_in. destruct (m !! k) as [[[v|h] d]|]; [|done|].
  - destruct (number_in v) as [i|] eqn:Hv; [|done]. apply number_in_ok in Hv as ->.
    destruct (Z.leb_spec (i + by_) i64_max); [|done]. intros [= <- <-]. split; [done|]. by exists i.
  - destruct (Z.leb_spec by_ i64_max); [|done]. by intros [= <- <-].
Qed.
Next Obligation. intros k by_ m e m'. unfold set_in, incrby_in, pexpire_in. repeat case_match; congruence. Qed.
Next Obligation. intros k now m n m' [= <- <-]. split; [done|]. destruct (m !! k) as [[? []]|]; lia. Qed.
Next Obligation. by intros k now m e m' [=]. Qed.
Next Obligation.
  intros k ms now m u m'. unfold pexpire_in. destruct (m !! k) as [[v d]|]; [|by intros [= _ <-]].
  destruct (0 <? ms) eqn:Hm; [|by intros [= _ <-]]. destruct (settable now (Some ms)) eqn:Hs; [|done].
  intros [= _ <-]. split; [|done]. cbn in Hs. unfold timed. lia.
Qed.
Next Obligation. intros k ms now m e m'. unfold set_in, incrby_in, pexpire_in. repeat case_match; congruence. Qed.
Next Obligation.
  intros n Hn. cbn. rewrite parse_decimal by (unfold exact_revision in Hn; unfold_bounds; lia). cbn.
  unfold double. by replace (n <=? exact_revision) with true by lia.
Qed.
Next Obligation.
  intros n n' Hn Hn'. exists (double n), (double n'). cbn. rewrite !parse_decimal by (unfold is_u64; lia).
  split; [done|]. split; [done|]. by apply double_monotone.
Qed.
Next Obligation. done. Qed.
Next Obligation. intros A f now d e d' Hf. cbn in *. right. by rewrite Hf. Qed.

Definition nonce : CacheKey := MkCacheKey #"ip:system:nonce" System.
Definition other : CacheKey := MkCacheKey #"ip:resp:aa" Response.
Definition minute : Ttl := Memory.minute.
Definition claimed : Keyspace := (claim None nonce (Some minute) 1000 ∅).2.
(** In between, another node puts an answer and one claims the nonce and loses. *)
Definition meanwhile : Keyspace :=
  after None (Claim nonce None) 3000 (after None (Put other [1] None) 2000 claimed).

Lemma meanwhile_calls : calls None (spares nonce) 1000 claimed 3000 meanwhile.
Proof.
  apply calls_more; [|done]. apply (calls_wait _ _ _ _ 2000); [|lia].
  apply calls_more; [|vm_compute; discriminate]. apply (calls_wait _ _ _ _ 1000); [constructor|lia].
Qed.

Lemma claim_once_witness :
  (claim None nonce (Some minute) 1000 (∅ : Keyspace)).1 = Ok true ∧
  (claim None nonce (Some minute) 4000 meanwhile).1 ≠ Ok true.
Proof.
  split; [vm_compute; reflexivity|].
  apply (claim_once None nonce minute (Some minute) 1000 4000 ∅ claimed meanwhile
           (claim None nonce (Some minute) 4000 meanwhile).2).
  - lia.
  - vm_compute. reflexivity.
  - apply (calls_wait _ _ _ _ 3000); [apply meanwhile_calls|lia].
  - vm_compute. reflexivity.
  - apply surjective_pairing.
Defined.

(** Lua answers with a double: a count past the numbers a double tells apart is stored as it is
    and answered rounded. *)
Lemma seed_rounds :
  (seed None nonce (exact_revision + 3) minute 1000 (∅ : Keyspace)).1 = Ok (exact_revision + 4).
Proof. vm_compute. reflexivity. Qed.
End ClusterSample.
