(* ===== verification/Nodes.v ===== *)
(** * Nodes: verifiers that share a cluster cache

    [RequestVerifier::verify] of [Auth] over the cluster cache of [Cluster], by two nodes with
    anything in between that nodes ask of the cache. *)
From S2P Require Import Prelude Text Ident Key Capability Cache Sled CacheTrait Publication Cluster.
From S2P Require Import LimitCore Account Auth.

Section nodes.
Context `{Crypto} {server : Type} `{!Redis server} (prefix : option str).
#[local] Instance shared : Cache server := redis_cache prefix.

(** A nonce is spent by a claim that was answered as taken. *)
Lemma verify_claims {store : Storage} nonce_ttl r origin now (d : server) who d' :
  verify nonce_ttl r origin now d = (Ok who, d') →
  claim prefix (nonce_key r) (Some nonce_ttl) now d = (Ok true, d').
Proof using.
  intros [_ Hs]%verify_Ok. unfold spend in Hs. rewrite nonce_key_new in Hs.
  cbn [k_claim shared redis_cache] in Hs.
  destruct (claim prefix (nonce_key r) (Some nonce_ttl) now d) as [[[]|e] d1]; [|done..].
  by injection Hs as ->.
Qed.

(** C5: a request is accepted by one node of a cluster at most: once a node accepted it, no node
    accepts a request by that user for that tenant with the same nonce, from anywhere, however
    signed and whatever that node's store says, until the nonce is forgotten; and this whatever
    the nodes ask of the shared cache in between, as long as nobody overwrites the nonce itself,
    and whichever of their calls fail before the server did them or after. *)
Theorem cluster_replay_refused {store store' : Storage} (nonce_ttl ttl' : Ttl) (r r' : SignedRequest)
    (origin origin' : IpAddr) (now t : Z) (d d1 d2 d3 : server) (who : Identity)
    (res : result AuthError Identity) :
  0 ≤ now → verify (H0 := store) nonce_ttl r origin now d = (Ok who, d1) →
  calls prefix (spares (nonce_key r)) now d1 t d2 → t < expiry now (Some nonce_ttl) →
  req_tenant r' = req_tenant r → req_user r' = req_user r → req_nonce r' = req_nonce r →
  verify (H0 := store') ttl' r' origin' t d2 = (res, d3) → is_ok res = false.
Proof using.
  intros Hn Hv Hc Ht Et Eu En Hv'. destruct res as [who'|]; [|done].
  apply verify_claims in Hv, Hv'.
  assert (nonce_key r' = nonce_key r) as Hk by (unfold nonce_key, nonce_id; by rewrite Et, Eu, En).
  rewrite Hk in Hv'. by destruct (claim_once _ _ _ _ _ _ _ _ _ _ _ Hn Hv Hc Ht Hv').
Qed.
End nodes.

(** ** Sample values *)
Module NodesSample.
Import SampleCrypto SampleChrono ClusterSample.
#[export] Existing Instance AuthSample.storage.
#[local] Instance shared_memory : Cache Keyspace := redis_cache None.

Definition request : SignedRequest := AuthSample.signed AuthSample.nonce.
Definition accepted : Keyspace :=
  (verify Memory.minute request AuthSample.home 1000 (∅ : Keyspace)).2.
(** Another node puts an answer in the meantime. *)
Definition between : Keyspace := after None (Put other [1] None) 2000 accepted.

Lemma cluster_replay_refused_witness :
  (verify Memory.minute request AuthSample.home 1000 (∅ : Keyspace)).1 = Ok AuthSample.who ∧
  is_ok (verify Memory.minute request AuthSample.home 2000 between).1 = false.
Proof.
  split; [vm_compute; reflexivity|].
  apply (cluster_replay_refused None Memory.minute Memory.minute request request AuthSample.home
           AuthSample.home 1000 2000 ∅ accepted between
           (verify Memory.minute request AuthSample.home 2000 between).2 AuthSample.who).
  - lia.
  - vm_compute. reflexivity.
  - apply calls_more; [|vm_compute; discriminate]. apply (calls_wait _ _ _ _ 1000); [constructor|lia].
  - vm_compute. reflexivity.
  - reflexivity.
  - reflexivity.
  - reflexivity.
  - apply surjective_pairing.
Defined.
End NodesSample.
