(* ===== verification/Manage.v ===== *)
(** * Manage: who is calling the management api

    Models [src/auth.rs], [src/cookie.rs] and [src/manage.rs]: the headers a signed request
    carries and that they are taken off, the cookie a session travels in, and [Manager], the
    caller of an endpoint, established from one or the other, with what it may do.

    What the request says besides its headers (its method and the address of its peer) is read
    from [Parts]; [Manager::allows] is a program on the store, since endpoints run it between
    their other statements. *)
From S2P Require Import Prelude Text Ident Key Capability LimitCore PluginCore Account Cache.
From S2P Require Import CacheTrait Auth Login RespCache Gate Sql Schema Named IdentityStore.

(** [http::request::Parts], as far as it is read. *)
Record Parts `{HttpLib} : Type := MkParts {
  parts_method : str; parts_headers : HeaderMap; parts_peer : option IpAddr
}.

Definition UNAUTHORIZED : Z := 401.
Definition FORBIDDEN : Z := 403.
Definition NOT_FOUND : Z := 404.
Definition CONFLICT : Z := 409.
Definition UNPROCESSABLE_ENTITY : Z := 422.
Definition TOO_MANY_REQUESTS : Z := 429.
Definition INTERNAL_SERVER_ERROR : Z := 500.

(** ** auth.rs *)

Definition HEADER_TENANT : str := #"x-ip-tnid".
Definition HEADER_USER : str := #"x-ip-userid".
Definition HEADER_SIGNATURE : str := #"x-ip-signature".
Definition HEADER_NONCE : str := #"x-ip-nonce".
Definition SIGNING : list str := [HEADER_TENANT; HEADER_USER; HEADER_SIGNATURE; HEADER_NONCE].

Section auth.
Context `{HttpLib} `{Crypto}.

Definition header (p : Parts) (name : str) : option str := get (parts_headers p) name ≫= to_str.

Definition signed_request (p : Parts) : option SignedRequest :=
  tenant ← header p HEADER_TENANT ≫= λ raw, ok (new_ident raw);
  user ← header p HEADER_USER ≫= λ raw, ok (new_ident raw);
  nonce ← header p HEADER_NONCE ≫= λ raw, ok (new_nonce raw);
  signature ← header p HEADER_SIGNATURE ≫= λ raw, ok (Signature_from_hex raw);
  Some (MkSigned tenant user nonce signature).

Definition consume_signing_headers (p : Parts) : Parts :=
  MkParts _ (parts_method p) (fold_left (λ h n, h_remove n h) SIGNING (parts_headers p))
    (parts_peer p).

(** An absent peer is [Ipv4Addr::UNSPECIFIED]. *)
Definition origin (p : Parts) : IpAddr := default (V4 0 0 0 0) (parts_peer p).

Context `{Storage} {St : Type} `{!Cache St} (nonce_ttl : Ttl).

(** [FromRequestParts for Authenticated]: who signed and everything it was granted, the parts
    the handlers go on with, and the cache after it. *)
Definition authenticated (p : Parts) (now : Z) (s : St) : result Z Authority * Parts * St :=
  match signed_request p with
  | None => (Err UNAUTHORIZED, p, s)
  | Some r =>
      let p' := consume_signing_headers p in
      match verify nonce_ttl r (origin p') now s with
      | (Err _, s) => (Err UNAUTHORIZED, p', s)
      | (Ok who, s) => (map_err (λ _, UNAUTHORIZED) (Auth.authority who), p', s)
      end
  end.
End auth.

(** ** cookie.rs *)

Definition NAME : str := #"ip_session".
Definition COOKIE : str := #"cookie".

(** [set], [clear] and the text their header is made of. *)
Definition cookie_text (start : str) : str := start ++ #"; Path=/; HttpOnly; Secure; SameSite=Strict".
Definition set_cookie (token : str) (seconds : Z) : str :=
  cookie_text (NAME ++ #"=" ++ token ++ #"; Max-Age=" ++ dec seconds).
Definition clear_cookie : str := cookie_text (NAME ++ #"=; Max-Age=0").

Definition is_session_cookie (pair : str * str) : bool := bool_decide (trim pair.1 = NAME).

(** [cookie::token]. *)
Definition token `{HttpLib} (h : HeaderMap) : option str :=
  let pairs := get_all h COOKIE ≫= λ v,
    match to_str v with
    | Some text => omap (split_once (ch "=")) (split_on (Z.eqb (ch ";")) text)
    | None => []
    end in
  pair ← List.find is_session_cookie pairs;
  let found := trim pair.2 in
  if is_empty found then None else Some found.

(** ** manage.rs *)

Definition CSRF_HEADER : str := #"x-ip-csrf".

Inductive Proof : Type := BySession | BySignature.
#[export] Instance Proof_eq_dec : EqDecision Proof.
Proof. solve_decision. Defined.

Record Manager : Type := MkManager {
  mgr_user : UserId; mgr_kind : AccountKind; mgr_proof : Proof
}.

Definition is_session (m : Manager) : bool := bool_decide (mgr_proof m = BySession).
Definition is_system_administrator (m : Manager) : bool :=
  bool_decide (mgr_kind m = SystemAdministrator).

(** The role the scope asks about: none for someone outside the tenant it names. *)
Definition role_at `{Engine} `{Chrono} (m : Manager) (s : CapabilityScope) : sql Db (option Role) :=
  match scope_tenant s with
  | Some tenant =>
      found ← membership (mgr_user m) tenant;
      pure (Ok (match found with
                | Some held => Some (role_of (mgr_kind m) (member_standing held) tenant)
                | None => None
                end))
  | None => pure (Ok (Some Member))
  end.

(** [Manager::allows]. *)
Definition manager_allows `{Engine} `{Chrono} (m : Manager) (c : Capability) (s : CapabilityScope)
    : sql Db bool :=
  if is_system_administrator m then pure (Ok true)
  else
    role ← role_at m s;
    match role with
    | None => pure (Ok false)
    | Some role =>
        granted ← grants_of (mgr_user m);
        pure (Ok (implies role c s || holds granted c s))
    end.

Definition changes_something (method : str) : bool :=
  negb (bool_decide (method ∈ [ #"GET"; #"HEAD"; #"OPTIONS"])).

Section manager.
Context `{HttpLib} `{Crypto} `{TokenCodec} `{Argon2} `{Storage} {St : Type} `{!Cache St}.
Context (nonce_ttl : Ttl) (logins : Logins).

Definition guard_csrf (m : Manager) (p : Parts) : result Z unit :=
  if bool_decide (mgr_proof m = BySession) && changes_something (parts_method p)
     && is_empty (get_all (parts_headers p) CSRF_HEADER)
  then Err FORBIDDEN else Ok tt.

(** [Manager::of]. *)
Definition manager_of (user : UserId) (proof : Proof) : result Z Manager :=
  match store_user user with
  | Err _ => Err INTERNAL_SERVER_ERROR
  | Ok None => Err UNAUTHORIZED
  | Ok (Some stored) => Ok (MkManager (user_id stored) (user_kind stored) proof)
  end.

(** [FromRequestParts for Manager], at the moment [at_] of the server's clock and [now] of the
    cache's. *)
Definition manager_from (p : Parts) (at_ now : Z) (s : St) : result Z Manager * Parts * St :=
  match signed_request p with
  | Some r =>
      let p' := consume_signing_headers p in
      match verify nonce_ttl r (origin p') now s with
      | (Err _, s) => (Err UNAUTHORIZED, p', s)
      | (Ok who, s) => (manager_of (who_user who) BySignature, p', s)
      end
  | None =>
      match token (parts_headers p) with
      | None => (Err UNAUTHORIZED, p, s)
      | Some token =>
          match session_of logins token at_ now s with
          | (Err _, s) => (Err UNAUTHORIZED, p, s)
          | (Ok session, s) =>
              (m ← manager_of (session_user session) BySession;
               _ ← guard_csrf m p;
               Ok m, p, s)
          end
      end
  end.
End manager.
