(* ===== verification/Web.v ===== *)
(** * Web: what the endpoints of the management api are written in

    An endpoint runs store calls and cache calls one after the other and answers whatever they
    report.  [act] is a program on a server's state, the database and the cache, made of the
    programs of the stores ([call]) and of cache calls ([on_cache]); it is run, failing
    statements included, by the same [runs] as a store's own programs.  With it, what
    [src/routes/mod.rs] shares between the endpoints: answers, spellings and pages. *)
From S2P Require Import Prelude Text Ident Key Capability LimitCore PluginCore Account Cache.
From S2P Require Import Sql Schema Named IdentityStore ListStore Manage.

(** ** Programs of a server *)
Section server.
Context {St : Type}.

Definition Server : Type := Db * St.
Abbreviation act := (sql Server).

(** A statement of the store, with the cache aside. *)
Definition beside {X} (s : Db → result DbError (X * Db)) (v : Server) : result DbError (X * Server) :=
  match s v.1 with Ok (x, d) => Ok (x, (d, v.2)) | Err e => Err e end.

Fixpoint on_store {A} (p : sql Db A) : act A :=
  match p with
  | Done _ r => Done _ r
  | Ask _ s k => Ask _ (beside s) (λ r, on_store (k r))
  | Atomically _ body k => Atomically _ (on_store body) (λ r, on_store (k r))
  end.

(** A call of the cache, which may fail as the database may. *)
Definition on_cache {X} (f : St → result CacheError X * St) : act (result CacheError X) :=
  Ask _ (λ v, Ok ((f v.2).1, (v.1, (f v.2).2)))
    (λ r, Done _ (Ok (match r with Ok x => x | Err _ => Err BackendFailed end))).

(** A call of the store, with what it reported as a value. *)
Definition call {A} (p : sql Db A) : act (result StorageError A) := attempt (on_store p).

Definition answer_with {A} (a : A) : act A := pure (Ok a).

(** *** What they do *)

Lemma exec_on_store {A} (p : sql Db A) d c :
  exec (on_store p) (d, c) = ((exec p d).1, ((exec p d).2, c)).
Proof.
  revert d. induction p as [A r|A X s k IH|A X body IHb k IH]; intros d; cbn; [done|..].
  - unfold answer, beside. cbn. destruct (s d) as [[x d']|e]; cbn; apply IH.
  - rewrite IHb. destruct (exec body d) as [[x|e] d']; cbn; apply IH.
Qed.

Lemma exec_call {A} (p : sql Db A) d c :
  exec (call p) (d, c) = (Ok (exec p d).1, ((exec p d).2, c)).
Proof. unfold call. by rewrite exec_attempt, exec_on_store. Qed.

Lemma exec_on_cache {X} (f : St → result CacheError X * St) d c :
  exec (on_cache f) (d, c) = (Ok (f c).1, (d, (f c).2)).
Proof. done. Qed.

Lemma runs_on_store {A} (p : sql Db A) d c r v :
  runs (on_store p) (d, c) r v ↔ ∃ d', v = (d', c) ∧ runs p d r d'.
Proof.
  revert d r v. induction p as [A r0|A X s k IH|A X body IHb k IH]; intros d r v; cbn.
  - naive_solver.
  - unfold answer, beside. cbn. destruct (s d) as [[x d']|e]; cbn; rewrite !IH; naive_solver.
  - setoid_rewrite IHb. setoid_rewrite IH. split.
    + intros [(x & ? & (d1 & -> & Hb) & [Hk|Hk])|(e & ? & (d1 & -> & Hb) & Hk)].
      * apply IH in Hk as (d' & -> & Hk). naive_solver.
      * naive_solver.
      * naive_solver.
    + intros (d' & -> & [(x & d1 & Hb & [Hk|Hk])|(e & d1 & Hb & Hk)]).
      * left. exists x, (d1, c). split; [naive_solver|]. left. apply IH. eauto.
      * left. exists x, (d1, c). split; [naive_solver|]. right. eauto.
      * right. exists e, (d1, c). split; naive_solver.
Qed.

Lemma runs_call {A} (p : sql Db A) d c r v :
  runs (call p) (d, c) r v ↔ ∃ r0 d', r = Ok r0 ∧ v = (d', c) ∧ runs p d r0 d'.
Proof. unfold call. rewrite runs_attempt. setoid_rewrite runs_on_store. naive_solver. Qed.

(** A cache call never touches the database. *)
Lemma runs_on_cache {X} (f : St → result CacheError X * St) v r v' :
  runs (on_cache f) v r v' → v'.1 = v.1.
Proof. by intros [[_ ->]|[_ ->]]. Qed.
End server.
Arguments Server : clear implicits.
Abbreviation act St := (sql (Server St)).

(** ** Answers *)

(** The body of an answer: nothing, a text, an error spelled out, or a view as json. *)
Inductive Body (V : Type) : Type :=
  | NoBody
  | Said (text : str)
  | WhyStorage (e : StorageError)
  | WhyCore (e : CoreError)
  | Json (v : V).
Arguments NoBody {V}.
Arguments Said {V} text.
Arguments WhyStorage {V} e.
Arguments WhyCore {V} e.
Arguments Json {V} v.

(** [Response<Body>]: the headers are those the handlers set themselves. *)
Record Response (V : Type) : Type := MkAnswer {
  code : Z; sets : list (str * str); body : Body V
}.
Arguments MkAnswer {V} code sets body.
Arguments code {V} r : rename.
Arguments sets {V} r : rename.
Arguments body {V} r : rename.

Definition OK : Z := 200.
Definition CREATED : Z := 201.
Definition NO_CONTENT : Z := 204.

Definition status {V} (c : Z) : Response V := MkAnswer c [] NoBody.
Definition said {V} (c : Z) (text : str) : Response V := MkAnswer c [] (Said text).
Definition shown {V} (c : Z) (v : V) : Response V := MkAnswer c [] (Json v).
Definition unprocessable {V} (e : CoreError) : Response V := MkAnswer UNPROCESSABLE_ENTITY [] (WhyCore e).

Definition store_refusal {V} (e : StorageError) : Response V :=
  match e with
  | Conflict _ | InUse _ => MkAnswer CONFLICT [] (WhyStorage e)
  | NotFound _ => status NOT_FOUND
  | _ => status INTERNAL_SERVER_ERROR
  end.

(** The answer of a yes or no from the store: a refusal, or nothing when it is a yes. *)
Definition refusal_of {V} (r : result StorageError bool) : option (Response V) :=
  match r with
  | Ok true => None
  | Ok false => Some (status FORBIDDEN)
  | Err e => Some (store_refusal e)
  end.

(** ** Spellings *)

Definition TENANT_CAPABILITIES : list Capability := [UserMgr; SysAgent; Observer].
Definition CAPABILITIES : list Capability :=
  [TenantMgr; UserMgr; ApiAccess; ApiAdvMgr; LimitMgr; SysAgent; Observer].

Definition api_capability_name (c : Capability) : str :=
  match c with
  | TenantMgr => #"tenant_mgr"
  | UserMgr => #"user_mgr"
  | ApiAccess => #"api_access"
  | ApiAdvMgr => #"api_adv_mgr"
  | LimitMgr => #"limit_mgr"
  | SysAgent => #"sys_agent"
  | Observer => #"observer"
  end.

Definition capability_named (name : str) : option Capability :=
  List.find (λ c, bool_decide (api_capability_name c = name)) CAPABILITIES.

Definition api_standing_name (s : Standing) : str :=
  match s with Owner => #"owner" | OrdinaryMember => #"member" end.

(** A name is read back as the capability it was shown for. *)
Lemma capability_named_name c : capability_named (api_capability_name c) = Some c.
Proof. by destruct c. Qed.

Lemma capability_named_Some name c : capability_named name = Some c → name = api_capability_name c.
Proof. intros [_ E]%find_elem_of. by apply bool_decide_eq_true in E. Qed.

(** ** Pages *)

(** What the query string of a list says. *)
Record PageQuery : Type := MkPageQuery {
  query_limit : option Z; query_offset : option Z; query_after : option Z
}.

(** [FromRequestParts for Paged], once the query string is read. *)
Definition paged `{Chrono} {V} (q : PageQuery) : result (Response V) Page :=
  after ← match query_after q with
          | Some seconds => Some <$> map_err unprocessable (from_unix_seconds seconds)
          | None => Ok None
          end;
  Ok (new_page (default DEFAULT_PAGE_LIMIT (query_limit q)) (default 0 (query_offset q)) after).
