(* ===== verification/Feed.v ===== *)
(** * Feed: every node's copy of the rules

    Models [src/rules.rs].  After a change to the rules their whole set is published in the
    cache under the revision storage stamped it with ([publish], [after_change]); a publication
    that failed is made good later ([heal]); and a node puts what is published in force
    ([published], [reload]).  The programs read the database in statements of their own, so
    anything may happen between what a publisher read and what it writes.

    Shown: whatever store calls and publishers interleave, on any number of nodes, what is
    published is never newer than storage, and at storage's revision it is storage's rules; a
    healed cache is at that revision; and a node that reloads from it serves what storage
    holds. *)
From S2P Require Import Prelude Text Ident Key Capability Route Dispatch Table LimitCore PluginCore.
From S2P Require Import Account Auth Cache Sled Limiter Chains Sql Rely Schema Integrity Named.
From S2P Require Import IdentityStore IdentitySpec PluginStore RouteStore LimitStore ListStore Store.
From S2P Require Import Revision Publication Manage Web.

Inductive FeedError : Type :=
  | FeedStorage (e : StorageError)
  | FeedCache (e : CacheError)
  | Encode
  | Decode
  | FeedTable (e : RouteError)
  | FeedChains (e : ChainError)
  | FeedRule (e : CoreError).

(** One plugin rule on the wire. *)
Record Placed : Type := MkWire {
  wire_checksum : Checksum; wire_kind : PluginKind; wire_order : PluginOrder; wire_scope : PluginScope
}.

Record Snapshot : Type := MkSnapshot {
  snap_routes : list RouteRule; snap_rules : list Placed; snap_limits : list Limit
}.

(** [From<&PluginRule> for Placed] and back, through the rule's own checks. *)
Definition placed_of (r : PluginRule) : Placed :=
  MkWire (rule_checksum r) (rule_kind r) (rule_order r) (rule_scope r).
Definition rule_of_placed (p : Placed) : result CoreError PluginRule :=
  plugin_rule (wire_checksum p) (wire_kind p) (wire_order p) (wire_scope p).

(** [serde_json] on a snapshot: what was written is read back. *)
Class SnapshotCodec : Type := {
  write_snapshot : Snapshot → option (list Z);
  read_snapshot : list Z → option Snapshot;
  read_written : ∀ s b, write_snapshot s = Some b → read_snapshot b = Some s
}.

(** What a gateway serves requests by; [Gateway::replace] puts a new one in its place. *)
Record Routing : Type := MkRouting {
  routing_table : RoutingTable; routing_chains : PluginChains; routing_limits : list Limit
}.

Section feed.
Context `{Engine} `{Chrono} `{Crypto} `{SnapshotCodec} {St : Type} `{!Publication St}.
(** What [RuleFeed::new] makes: the topic. *)
Context (topic : CacheKey).

Definition snapshot_of (set : RuleSet) : Snapshot :=
  MkSnapshot (set_routes set) (placed_of <$> set_rules set) (set_limits set).

(** [RuleFeed::publish]. *)
Definition publish : act St (result FeedError Z) :=
  found ← call rule_set;
  match found with
  | Err e => answer_with (Err (FeedStorage e))
  | Ok set =>
      match write_snapshot (snapshot_of set) with
      | None => answer_with (Err Encode)
      | Some encoded =>
          landed ← on_cache (k_publish topic (set_revision set) encoded);
          answer_with (match landed with
                       | Ok _ => Ok (set_revision set)
                       | Err e => Err (FeedCache e)
                       end)
      end
  end.

(** [RuleFeed::after_change]: a failure is left for healing. *)
Definition after_change : act St unit := _ ← publish; answer_with tt.

(** A publication read back as a set. *)
Definition set_published (p : Published) : result FeedError RuleSet :=
  snapshot ← ok_or Decode (read_snapshot (pub_value p));
  rules ← map_err FeedRule (try_map rule_of_placed (snap_rules snapshot));
  Ok (MkRuleSet (Cache.revision p) (snap_routes snapshot) rules (snap_limits snapshot)).

(** [RuleFeed::published]. *)
Definition published : act St (result FeedError (option RuleSet)) :=
  found ← on_cache (k_published topic);
  answer_with (match found with
               | Err e => Err (FeedCache e)
               | Ok None => Ok None
               | Ok (Some p) => Some <$> set_published p
               end).

(** [RuleFeed::heal]: whether the cache was behind. *)
Definition heal : act St (result FeedError bool) :=
  stored ← call rule_revision;
  match stored with
  | Err e => answer_with (Err (FeedStorage e))
  | Ok stored =>
      found ← on_cache (k_published topic);
      match found with
      | Err e => answer_with (Err (FeedCache e))
      | Ok found =>
          if match found with Some p => stored <=? Cache.revision p | None => false end
          then answer_with (Ok false)
          else
            done ← publish;
            answer_with (match done with Ok _ => Ok true | Err e => Err e end)
      end
  end.

(** ** Reloader *)

Context (host_load : Checksum → list Z → option str) (configured : list RouteRule).

(** The wasm [PluginChains::from_rules] reads of a plugin. *)
Definition wasm_in (d : Db) (c : Checksum) : result StorageError (option (list Z)) :=
  match (exec (read_plugin c) d).1 with
  | Ok (Some p) => Ok (Some (plugin_wasm p))
  | Ok None => Ok None
  | Err e => Err e
  end.

(** [Reloader::reload]: the set is built before anything is replaced.  Reading the wasm of the
    rules is one statement here; the wasm under a checksum is never another. *)
Definition reload (serving : Routing) : act St (result FeedError (option Z) * Routing) :=
  found ← published;
  match found with
  | Err e => answer_with (Err e, serving)
  | Ok None => answer_with (Ok None, serving)
  | Ok (Some set) =>
      match assemble configured (set_routes set) with
      | Err e => answer_with (Err (FeedTable e), serving)
      | Ok table =>
          built ← call (select (λ d, Chains.from_rules (wasm_in d) host_load (set_rules set)));
          answer_with (match built with
                       | Err e => (Err (FeedChains (ChainStorage e)), serving)
                       | Ok (Err e) => (Err (FeedChains e), serving)
                       | Ok (Ok chains) =>
                           (Ok (Some (set_revision set)), MkRouting table chains (set_limits set))
                       end)
      end
  end.
End feed.

(** ** What is published says of storage *)
Section honest.
Context `{Engine} `{Chrono} `{Crypto} `{SnapshotCodec} {St : Type} `{!Publication St}.
Context (topic : CacheKey).

(** What is published is not newer than storage, and at storage's revision it is its rules. *)
Definition honest (v : Server St) : Prop := pub_ok v.2 ∧ ∀ p, pub_at v.2 (key_bytes topic) = Some p →
  Cache.revision p ≤ Schema.revision v.1 ∧
  (Cache.revision p = Schema.revision v.1 →
   ∃ set, (exec rule_set v.1).1 = Ok set ∧ write_snapshot (snapshot_of set) = Some (pub_value p)).

(** A set some publisher read of this database, or of one before it. *)
Definition remembered (set : RuleSet) (v : Server St) : Prop :=
  is_u64 (set_revision set) ∧ set_revision set ≤ Schema.revision v.1 ∧
  (set_revision set = Schema.revision v.1 → (exec rule_set v.1).1 = Ok set).

(** What stores and publishers do to a server. *)
Definition moves (v v' : Server St) : Prop :=
  tracked v.1 v'.1 ∧ (sound v.1 → honest v → honest v').

#[export] Instance moves_preorder : PreOrder moves.
Proof.
  split; [done|]. intros u v w [Ht Hh] [Ht' Hh']. split; [by transitivity v.1|].
  intros Hs Hu. apply Hh'; [by apply (Ht Hs)|by apply Hh].
Qed.

Lemma moves_sound v v' : moves v v' → sound v.1 → sound v'.1.
Proof. intros [Ht _] Hs. by apply (Ht Hs). Qed.

Lemma honest_store d d' (c : St) : sound d → tracked d d' → honest (d, c) → honest (d', c).
Proof.
  intros Hs Ht [Hk Hh]. split; [done|]. intros p Hp. destruct (Hh p Hp) as [Hle Heq]. cbn [fst] in *.
  destruct (Ht Hs) as (_ & Hr & Hsame). split; [lia|]. intros E.
  destruct Heq as (set & Hset & Hw); [lia|]. exists set. split; [|done]. rewrite <-Hset.
  apply rule_set_of; [apply Hsame|]; lia.
Qed.

Lemma remembered_later set v v' : sound v.1 → moves v v' → remembered set v → remembered set v'.
Proof.
  intros Hs [Ht _] (Hu & Hle & Heq). destruct (Ht Hs) as (_ & Hr & Hsame). split; [done|].
  split; [lia|]. intros E. rewrite <-Heq by lia. apply rule_set_of; [apply Hsame|]; lia.
Qed.

(** A store call moves a server, whatever it writes. *)
Lemma on_store_moves {A} (p : sql Db A) : obeys tracked p → obeys moves (on_store p).
Proof.
  induction p as [A r|A X s k IH|A X body IHb k IH]; cbn; [done|..].
  - intros [Hs Hk]. split; [|intros r; by apply IH]. intros [d c] x [d' c']. unfold beside. cbn.
    destruct (s d) as [[y d1]|e] eqn:E; [|done]. intros [= -> -> ->]. apply Hs in E. split; [done|].
    intros Hd. by apply honest_store.
  - intros [Hb Hk]. split; [by apply IHb|]. intros r. by apply IH.
Qed.

Lemma performs_moves (c : Call) : obeys moves (on_store (perform c)).
Proof. apply on_store_moves. by apply (perform_obeys tracked False True True tracked_writes). Qed.

(** *** Reading the rules *)

Lemma strict_rule_set_body :
  strict (r ← read_revision; routes ← read_routes; rules ← read_rules; limits ← read_limits;
          pure (Ok (MkRuleSet r routes rules limits))).
Proof.
  unfold read_revision, read_routes, read_rules, read_limits.
  repeat first [apply strict_bind|apply strict_select|apply strict_pure|intros ?].
Qed.

Lemma obeys_rule_set_body (R : Db → Db → Prop) `{!Reflexive R} :
  obeys R (r ← read_revision; routes ← read_routes; rules ← read_rules; limits ← read_limits;
           pure (Ok (MkRuleSet r routes rules limits))).
Proof.
  unfold read_revision, read_routes, read_rules, read_limits.
  repeat first [apply obeys_bind|apply (obeys_select R)|apply obeys_pure|intros ?].
Qed.

Lemma rule_set_exec d : exec rule_set d = ((exec rule_set d).1, d).
Proof.
  pose proof (runs_exec rule_set d) as Hr. apply reads_runs in Hr; [|apply obeys_atom, obeys_rule_set_body, _].
  by destruct (exec rule_set d) as [r d1]; cbn in *; subst.
Qed.

(** A set is stamped with the revision it was read at, and its rules pass their own checks. *)
Lemma rule_set_ok d set :
  (exec rule_set d).1 = Ok set →
  set_revision set = Schema.revision d ∧ is_u64 (set_revision set) ∧
  (exec read_routes d).1 = Ok (set_routes set) ∧ (exec read_rules d).1 = Ok (set_rules set) ∧
  (exec read_limits d).1 = Ok (set_limits set).
Proof.
  unfold rule_set, read_revision, read_routes, read_rules, read_limits. sql_run.
  destruct (try_unsigned u64_max (Schema.revision d)) as [r|] eqn:Er; [|done]. cbn [ok_or]. sql_run.
  destruct (gather_all _ _) as [routes|]; [|done]. sql_run.
  destruct (try_map rule_read _) as [rules|]; [|done]. sql_run.
  destruct (try_map _ (limits_newest_first d)) as [limits|]; [|done]. intros [= <-]. cbn.
  apply try_unsigned_Some in Er as [-> Hr]. split; [done|]. split; [done|]. done.
Qed.

Lemma placed_back (r : PluginRule) :
  check_order (rule_order r) (rule_scope r) = Ok tt → rule_of_placed (placed_of r) = Ok r.
Proof. intros Hc. unfold rule_of_placed, plugin_rule. cbn. rewrite Hc. by destruct r. Qed.

Lemma rules_read_checked d rules r :
  (exec read_rules d).1 = Ok rules → r ∈ rules → check_order (rule_order r) (rule_scope r) = Ok tt.
Proof.
  unfold read_rules. sql_run. destruct (try_map _ _) as [l|] eqn:E; [|done]. intros [= ->] Hr.
  apply try_map_ok in E. apply list_elem_of_lookup in Hr as [i Hi].
  destruct (Forall2_lookup_r _ _ _ _ _ E Hi) as (b & _ & Hb).
  unfold rule_read, rule_of_row in Hb.
  repeat (apply bind_ok in Hb as (? & _ & Hb)). unfold stored, plugin_rule in Hb.
  destruct (check_order _ _) as [[]|] eqn:Ec; [|done]. injection Hb as <-. done.
Qed.

(** What was published of a set reads back as the set. *)
Lemma set_published_back d set p :
  (exec rule_set d).1 = Ok set → write_snapshot (snapshot_of set) = Some (pub_value p) →
  Cache.revision p = set_revision set → set_published p = Ok set.
Proof.
  intros Hset Hw Hr. apply rule_set_ok in Hset as (_ & _ & _ & Hrules & _).
  unfold set_published. rewrite (read_written _ _ Hw). cbn [ok_or mbind result_bind snap_rules snapshot_of].
  assert (try_map rule_of_placed (placed_of <$> set_rules set) = Ok (set_rules set)) as ->.
  { assert (∀ r, r ∈ set_rules set → check_order (rule_order r) (rule_scope r) = Ok tt) as Hc
      by (intros r; by apply (rules_read_checked d)).
    clear Hrules. induction (set_rules set) as [|r l IH]; [done|]. rewrite fmap_cons. cbn [try_map].
    rewrite placed_back by (apply Hc; set_solver). cbn [mbind result_bind].
    rewrite IH; [done|]. intros r' Hr'. apply Hc. set_solver. }
  cbn. rewrite Hr. by destruct set.
Qed.

(** *** A publisher among others *)

(** What a call of the cache does to the publications is all it can do to honesty. *)
Lemma moves_cache d (c c' : St) :
  (honest (d, c) → honest (d, c')) → moves (d, c) (d, c').
Proof. intros Hh. split; [done|]. by intros _. Qed.

Lemma honest_same d (c c' : St) :
  pub_ok c' → (∀ b, pub_at c' b = pub_at c b) → honest (d, c) → honest (d, c').
Proof. intros Hk E [_ Hh]. split; [done|]. intros p Hp. apply Hh. cbn in *. by rewrite <-E. Qed.

(** A remembered set may be published whenever the cache takes it. *)
Lemma honest_publish d c c' set encoded r :
  remembered set (d, c) → write_snapshot (snapshot_of set) = Some encoded →
  k_publish topic (set_revision set) encoded c = (r, c') → honest (d, c) → honest (d, c').
Proof.
  intros (Hu & Hle & Heq) Hw Hp [Hk Hh].
  assert (∀ landed : bool, pub_ok c' →
    (∀ b, pub_at c' b = if decide (b = key_bytes topic ∧ landed = true)
                        then Some (MkPublished (set_revision set) encoded) else pub_at c b) →
    honest (d, c')) as Hland.
  { intros landed Hk' Hat. split; [done|]. intros p Ep. cbn in *. rewrite Hat in Ep.
    case_decide as Hd; [|by apply Hh]. injection Ep as <-. cbn. split; [done|].
    intros E. exists set. split; [|done]. by apply Heq. }
  destruct r as [landed|e].
  - apply k_publish_ok in Hp as (Hk' & _ & _ & Hat); [|done..]. by apply (Hland landed).
  - apply k_publish_err in Hp as [Hk' [Hat|[_ Hat]]]; [|..|done|done]; [by eapply honest_same|].
    apply (Hland true); [done|]. intros b. rewrite Hat. repeat case_decide; naive_solver.
Qed.

Definition known (v : Server St) (r : result StorageError (result StorageError RuleSet)) : Prop :=
  ∀ set, r = Ok (Ok set) → remembered set v.

Lemma guarded_rule_set v :
  sound v.1 → guarded moves (call rule_set) (λ r v, sound v.1 ∧ known v r) v.
Proof.
  intros Hs. unfold call, rule_set, atomically. cbn [on_store attempt guarded].
  intros [d c] Hv. pose proof (moves_sound _ _ Hv Hs) as Hd. split; [|split].
  - intros set v1 (d1 & -> & Hr)%runs_on_store.
    pose proof (reads_runs _ _ _ _ (obeys_rule_set_body eq) Hr) as ->. split; [done|].
    apply strict_runs in Hr as [Hr|]; [|done|apply strict_rule_set_body].
    assert ((exec rule_set d).1 = Ok set) as Hset.
    { unfold rule_set. rewrite exec_atomically, Hr. done. }
    intros v2 Hv2. split; [by eapply moves_sound|]. intros set' [= <-].
    eapply remembered_later; [|done|]; [done|]. apply rule_set_ok in Hset as Hok.
    destruct Hok as (E & Hu & _). split; [done|]. cbn. split; [lia|]. done.
  - intros e v1 _ v2 Hv2. split; [by eapply moves_sound|]. done.
  - intros v2 Hv2. split; [by eapply moves_sound|]. done.
Qed.

Lemma guarded_cache {X} (f : St → result CacheError X * St) (Q : result StorageError (result CacheError X) → Server St → Prop) v :
  (∀ d c, moves v (d, c) → moves (d, c) (d, (f c).2) ∧
     (∀ v2, moves (d, (f c).2) v2 → Q (Ok (f c).1) v2) ∧
     (∀ v2, moves (d, c) v2 → Q (Ok (Err BackendFailed)) v2)) →
  guarded moves (on_cache f) Q v.
Proof. intros Hf [d c] Hv. apply (Hf d c Hv). Qed.

(** Whether anything at all comes of it, a program that publishes what it just read moves a
    server as stores do. *)
Lemma guarded_publish v : sound v.1 → guarded moves (publish topic) (λ _ v, sound v.1) v.
Proof.
  intros Hs. eapply guarded_bind; [apply _|by apply guarded_rule_set| |by intros e v' []].
  intros [set|e] v1 [Hs1 Hk].
  2: { intros v2 Hv2. by eapply moves_sound. }
  destruct (write_snapshot (snapshot_of set)) as [encoded|] eqn:Hw.
  2: { intros v2 Hv2. by eapply moves_sound. }
  eapply (guarded_bind moves _ _ (λ _ v, sound v.1)); [| |done].
  - apply guarded_cache. intros d c Hv. pose proof (moves_sound _ _ Hv Hs1) as Hd.
    pose proof (remembered_later _ _ _ Hs1 Hv (Hk set eq_refl)) as Hm.
    assert (moves (d, c) (d, (k_publish topic (set_revision set) encoded c).2)) as Hmv.
    { apply moves_cache. eapply honest_publish; [done|done|]. apply surjective_pairing. }
    split; [done|]. split; intros v2 Hv2; by eapply moves_sound.
  - intros a v2 Hs2 v3 Hv3. by eapply moves_sound.
Qed.

Lemma guarded_heal v : sound v.1 → guarded moves (heal topic) (λ _ v, sound v.1) v.
Proof.
  intros Hs. eapply (guarded_bind moves _ _ (λ _ v, sound v.1)); [| |done].
  { eapply (guarded_weaken moves _ (λ _ v, sound v.1)); [done|].
    intros [d c] Hv. pose proof (moves_sound _ _ Hv Hs) as Hd. unfold answer, beside. cbn.
    split; [done|]. split; intros v2 Hv2; by eapply moves_sound. }
  intros [stored|e] v1 Hs1; [|intros v2 Hv2; by eapply moves_sound].
  eapply (guarded_bind moves _ _ (λ _ v, sound v.1)); [| |done].
  { apply guarded_cache. intros d c Hv. pose proof (moves_sound _ _ Hv Hs1) as Hd.
    assert (moves (d, c) (d, (k_published topic c).2)) as Hmv.
    { apply moves_cache. intros [Hk Hh]. destruct (k_published topic c) as [r c'] eqn:E; cbn.
      apply k_published_ok in E as (_ & Hk' & E); [|done]. by eapply honest_same. }
    split; [done|]. split; intros v2 Hv2; by eapply moves_sound. }
  intros [found|e] v2 Hs2; [|intros v3 Hv3; by eapply moves_sound].
  destruct (match found with Some _ => _ | None => _ end); [intros v3 Hv3; by eapply moves_sound|].
  eapply (guarded_bind moves _ _ (λ _ v, sound v.1)); [by apply guarded_publish| |done].
  intros a v3 Hs3 v4 Hv4. by eapply moves_sound.
Qed.

(** ** Properties *)

(** What nodes run: a call of the stores, the publication after a change, or healing. *)
Inductive Job : Type := Calls (c : Call) | Publishes | Heals.
Definition job (j : Job) : act St unit :=
  match j with
  | Calls c => on_store (perform c)
  | Publishes => after_change topic
  | Heals => _ ← heal topic; answer_with tt
  end.

Lemma job_guarded j v : sound v.1 → guarded moves (job j) (λ _ _, True) v.
Proof.
  intros Hs. destruct j; cbn [job].
  - apply obeys_guarded; [apply _|apply performs_moves].
  - eapply (guarded_bind moves _ _ (λ _ v, sound v.1)); [by apply guarded_publish|done..].
  - eapply (guarded_bind moves _ _ (λ _ v, sound v.1)); [by apply guarded_heal|done..].
Qed.

(** C13: no node ever reads rules that storage does not have: while any number of nodes run any
    calls of the stores, publish and heal, all of it interleaved statement by statement and any
    statement or cache call failing, what is published never stands at a revision storage has
    not reached, and when it stands at storage's revision it reads back as exactly the routes,
    plugin rules and limits storage holds. *)
Theorem published_current (jobs : list Job) v ps v' p :
  sound v.1 → honest v → rtc pool_step (job <$> jobs, v) (ps, v') →
  pub_at v'.2 (key_bytes topic) = Some p →
  Cache.revision p ≤ Schema.revision v'.1 ∧
  (Cache.revision p = Schema.revision v'.1 →
   ∃ set, (exec rule_set v'.1).1 = Ok set ∧ set_published p = Ok set).
Proof.
  intros Hs Hh Hst Hp. eapply (pool_guarded moves _ _ (λ _ _, True)) in Hst as [[_ Hm] _].
  - destruct (proj2 (Hm Hs Hh) p Hp) as [Hle Heq]. split; [done|]. intros E.
    destruct (Heq E) as (set & Hset & Hw). exists set. split; [done|].
    eapply set_published_back; [done..|]. apply rule_set_ok in Hset as [-> _]. done.
  - apply Forall_fmap, Forall_true. intros j. by apply job_guarded.
Qed.

(** Publishing over something older. *)
Lemma publish_exec d c set encoded :
  (exec rule_set d).1 = Ok set → write_snapshot (snapshot_of set) = Some encoded →
  pub_ok c → set_revision set ≤ exact_revision →
  is_ok (k_publish topic (set_revision set) encoded c).1 = true →
  as_of (pub_at c (key_bytes topic)) < set_revision set →
  ∃ c', exec (publish topic) (d, c) = (Ok (Ok (set_revision set)), (d, c')) ∧ pub_ok c' ∧
    pub_at c' (key_bytes topic) = Some (MkPublished (set_revision set) encoded).
Proof.
  intros Hset Hw Hk Hexact Hpub Hlt. apply rule_set_ok in Hset as Hok. destruct Hok as (Er & Hu & _).
  unfold publish. rewrite exec_bind, exec_call, rule_set_exec. cbn [fst snd]. rewrite Hset, Hw.
  rewrite exec_bind, exec_on_cache.
  destruct (k_publish topic (set_revision set) encoded c) as [[landed|] c'] eqn:Ek; [|done].
  apply k_publish_ok in Ek as (Hk' & _ & Hland & Hat); [|done..]. exists c'. split; [done|]. split; [done|].
  rewrite Hat, decide_True; [done|]. split; [done|]. by apply Hland.
Qed.

(** Healing catches the cache up: run on a cache that answers, over rules that can be read
    and written out, it succeeds without touching storage, says whether the cache was behind,
    and leaves published exactly the rules storage holds, at storage's revision. *)
Theorem heal_catches_up (d : Db) (c : St) set encoded :
  honest (d, c) → (exec rule_set d).1 = Ok set →
  write_snapshot (snapshot_of set) = Some encoded → set_revision set ≤ exact_revision →
  is_ok (k_published topic c).1 = true →
  is_ok (k_publish topic (set_revision set) encoded (k_published topic c).2).1 = true →
  ∃ c' p, exec (heal topic) (d, c)
    = (Ok (Ok (as_of (pub_at c (key_bytes topic)) <? Schema.revision d)), (d, c')) ∧
    pub_at c' (key_bytes topic) = Some p ∧ Cache.revision p = Schema.revision d ∧
    set_published p = Ok set ∧ honest (d, c').
Proof.
  intros [Hk Hh] Hset Hw Hexact Hread Hpub. apply rule_set_ok in Hset as Hok. destruct Hok as (Er & Hu & _).
  unfold heal. rewrite exec_bind, exec_call.
  assert (exec rule_revision d = (Ok (Schema.revision d), d)) as ->.
  { unfold rule_revision, read_revision. sql_run. rewrite <-Er.
    by rewrite (proj2 (try_unsigned_Some u64_max (set_revision set) (set_revision set)) (conj eq_refl Hu)). }
  cbn [fst snd]. rewrite exec_bind, exec_on_cache.
  destruct (k_published topic c) as [[o|] c1] eqn:Ek; [|done].
  apply k_published_ok in Ek as (Ho & Hk1 & Hsame); [|done]. rewrite (Ho o eq_refl). clear Ho.
  cbn [fst snd]. rewrite <-Er.
  assert (∀ b : bool, b = (as_of (pub_at c (key_bytes topic)) <? set_revision set) →
    match pub_at c (key_bytes topic) with Some p => set_revision set <=? Cache.revision p | None => false end
    = negb b) as E.
  { intros b ->. unfold is_u64 in Hu. destruct (pub_at c (key_bytes topic)); cbn [as_of]; lia. }
  destruct (as_of (pub_at c (key_bytes topic)) <? set_revision set) eqn:Elt;
    rewrite (E _ eq_refl); cbn [negb].
  - destruct (publish_exec d c1 set encoded) as (c' & Ep & Hk' & Hat); [done..|rewrite Hsame; lia|].
    exists c', (MkPublished (set_revision set) encoded). rewrite exec_bind, Ep. split; [done|].
    split; [done|]. split; [done|]. split; [by eapply set_published_back|]. split; [done|].
    intros p. cbn [snd]. rewrite Hat. intros [= <-]. cbn. split; [lia|]. eauto.
  - destruct (pub_at c (key_bytes topic)) as [p|] eqn:Ep; [|unfold is_u64, as_of in *; lia].
    destruct (Hh p Ep) as [Hle Heq]. cbn [fst as_of] in *.
    destruct Heq as (set' & Hset' & Hw'); [lia|]. rewrite Hset in Hset'. injection Hset' as <-.
    exists c1, p. split; [done|]. rewrite Hsame. split; [done|]. split; [lia|].
    split; [eapply set_published_back; [done..|]; lia|]. split; [done|]. intros p'. cbn [snd].
    rewrite Hsame, Ep. intros [= <-]. cbn. eauto.
Qed.

(** A node that reloads from a cache at storage's revision serves what a node built from
    storage at that moment would: the table of the configured routes and the stored ones, the
    chains of the stored plugin rules over the stored wasm, and the stored limits; and when
    these cannot be built it reports so and goes on serving what it served. *)
Theorem reload_serves_storage host_load (configured : list RouteRule) (serving : Routing)
    (d : Db) (c : St) p :
  honest (d, c) → pub_at c (key_bytes topic) = Some p → Cache.revision p = Schema.revision d →
  is_ok (k_published topic c).1 = true →
  ∃ routes rules limits r serving' c',
    (exec read_routes d).1 = Ok routes ∧ (exec read_rules d).1 = Ok rules ∧
    (exec read_limits d).1 = Ok limits ∧
    exec (reload topic host_load configured serving) (d, c) = (Ok (r, serving'), (d, c')) ∧
    match assemble configured routes, Chains.from_rules (wasm_in d) host_load rules with
    | Ok table, Ok chains =>
        r = Ok (Some (Schema.revision d)) ∧ serving' = MkRouting table chains limits
    | _, _ => is_ok r = false ∧ serving' = serving
    end.
Proof.
  intros Hh Ep Er Hread. destruct (proj2 Hh p Ep) as [_ Heq]. destruct (Heq Er) as (set & Hset & Hw).
  cbn [fst] in *. apply rule_set_ok in Hset as Hok. destruct Hok as (Es & _ & Hro & Hru & Hli).
  assert (set_published p = Ok set) as Hback by (eapply set_published_back; [done..|congruence]).
  unfold reload, published.
  destruct (k_published topic c) as [[o|] c1] eqn:Ek; [|done].
  apply k_published_ok in Ek as Hk; [|by apply Hh]. destruct Hk as [Ho _]. rewrite (Ho o eq_refl) in Ek. clear Ho.
  exists (set_routes set), (set_rules set), (set_limits set).
  rewrite !exec_bind, exec_on_cache, Ek. cbn [fst snd]. rewrite Ep, Hback. cbn [fmap result_fmap exec answer_with pure].
  destruct (assemble configured (set_routes set)) as [table|e].
  2: { eexists _, _, _. repeat (split; [done|]). done. }
  rewrite exec_bind, exec_call, exec_select. cbn [fst snd].
  destruct (Chains.from_rules _ _ _) as [chains|e]; eexists _, _, _;
    repeat (split; [done|]); [by rewrite Es|done].
Qed.

(** C15: whatever publications were lost, a node comes to serve what storage holds: from any honest
    cache, once the cache answers and the rules can be written out, one healing and one reload
    leave storage alone and put in force the table of the configured routes and the stored ones,
    the chains of the stored plugin rules and the stored limits; a set that cannot be built
    leaves the node serving what it served. *)
Theorem node_converges host_load (configured : list RouteRule) (serving : Routing) (d : Db) (c : St)
    set encoded :
  honest (d, c) → (exec rule_set d).1 = Ok set →
  write_snapshot (snapshot_of set) = Some encoded → set_revision set ≤ exact_revision →
  is_ok (k_published topic c).1 = true →
  is_ok (k_publish topic (set_revision set) encoded (k_published topic c).2).1 = true →
  is_ok (k_published topic (exec (heal topic) (d, c)).2.2).1 = true →
  ∃ routes rules limits r serving' c',
    (exec read_routes d).1 = Ok routes ∧ (exec read_rules d).1 = Ok rules ∧
    (exec read_limits d).1 = Ok limits ∧
    exec (_ ← heal topic; reload topic host_load configured serving) ((d, c) : Server St)
      = (Ok (r, serving'), (d, c')) ∧
    match assemble configured routes, Chains.from_rules (wasm_in d) host_load rules with
    | Ok table, Ok chains =>
        r = Ok (Some (Schema.revision d)) ∧ serving' = MkRouting table chains limits
    | _, _ => is_ok r = false ∧ serving' = serving
    end.
Proof.
  intros Hh Hset Hw Hexact Hread Hpub Hagain.
  destruct (heal_catches_up d c set encoded) as (c1 & p & He & Hp & Hr & _ & Hh1); [done..|].
  rewrite He in Hagain. cbn [snd] in Hagain.
  assert (exec (_ ← heal topic; reload topic host_load configured serving) ((d, c) : Server St)
    = exec (reload topic host_load configured serving) (d, c1)) as -> by (by rewrite exec_bind, He).
  by apply (reload_serves_storage host_load configured serving d c1 p).
Qed.
End honest.

Module FeedSample.
Import SampleCrypto SampleChrono StoreSample Memory.

Definition feed_topic : CacheKey := default resp_key (ok (new_cache_key System #"rules")).

#[export] Instance Placed_eq_dec : EqDecision Placed.
Proof. solve_decision. Defined.
#[export] Instance Snapshot_eq_dec : EqDecision Snapshot.
Proof. solve_decision. Defined.

Definition held_set : RuleSet := default (MkRuleSet 0 [] [] []) (ok (exec rule_set held).1).

(** A codec that knows the one snapshot it is used with. *)
#[export, program] Instance one_snapshot : SnapshotCodec := {|
  write_snapshot s := if decide (s = snapshot_of held_set) then Some [1] else None;
  read_snapshot b := if decide (b = [1]) then Some (snapshot_of held_set) else None
|}.
Next Obligation. intros s b. cbv beta. case_decide; [|done]. intros [= <-]. by subst. Qed.

Lemma held_set_read : (exec rule_set held).1 = Ok held_set.
Proof.
  unfold held_set. assert (is_ok (exec rule_set held).1 = true) as Hok by (vm_compute; reflexivity).
  by destruct (exec rule_set held).1.
Qed.
Lemma held_set_written : write_snapshot (snapshot_of held_set) = Some [1].
Proof. cbn. by rewrite decide_True. Qed.

Definition healed : Server View := (exec (heal feed_topic) (held, empty_view)).2.

Lemma nothing_honest : honest feed_topic (held, empty_view).
Proof.
  split; [done|]. intros p Hp. assert (pub_at empty_view (key_bytes feed_topic) = None) as E by (vm_compute; reflexivity).
  cbn [snd] in Hp. by rewrite E in Hp.
Qed.
Lemma empty_reads : is_ok (k_published feed_topic empty_view).1 = true.
Proof. vm_compute. reflexivity. Qed.

Lemma heal_catches_up_witness :
  (as_of (pub_at empty_view (key_bytes feed_topic)) <? Schema.revision held) = true ∧
  ∃ c' p, exec (heal feed_topic) (held, empty_view)
    = (Ok (Ok (as_of (pub_at empty_view (key_bytes feed_topic)) <? Schema.revision held)), (held, c')) ∧
    pub_at c' (key_bytes feed_topic) = Some p ∧ Cache.revision p = Schema.revision held ∧
    set_published p = Ok held_set ∧ honest feed_topic (held, c').
Proof.
  split; [vm_compute; reflexivity|].
  apply (heal_catches_up feed_topic held empty_view held_set [1]).
  - apply nothing_honest.
  - apply held_set_read.
  - apply held_set_written.
  - vm_compute. discriminate.
  - apply empty_reads.
  - vm_compute. reflexivity.
Defined.

Definition filled : View := healed.2.
Definition first_published : Published := MkPublished 5 [1].

Lemma filled_publishes : pub_at filled (key_bytes feed_topic) = Some first_published.
Proof. vm_compute. reflexivity. Qed.
Lemma filled_honest : honest feed_topic (held, filled).
Proof.
  split; [done|]. intros p Hp. cbn [fst snd] in *. rewrite filled_publishes in Hp. injection Hp as <-.
  assert (Schema.revision held = 5) as E by (vm_compute; reflexivity). cbn. split; [lia|].
  intros _. exists held_set. split; [apply held_set_read|apply held_set_written].
Qed.

(** A publisher reads the rules, their tenant goes, and only then does the publication land. *)
Definition racing : list Job := [Publishes; Calls (DeleteTenant tenant)].
Definition raced : list (act View unit) * Server View :=
  play [0; 1; 0; 0]%nat (job feed_topic <$> racing) (held, empty_view).

Lemma published_current_witness :
  pub_at raced.2.2 (key_bytes feed_topic) = Some first_published ∧
  bool_decide (Cache.revision first_published < Schema.revision raced.2.1) = true ∧
  Cache.revision first_published ≤ Schema.revision raced.2.1.
Proof.
  split; [vm_compute; reflexivity|]. split; [vm_compute; reflexivity|].
  apply (published_current feed_topic racing (held, empty_view) raced.1 raced.2 first_published).
  - apply held_sound.
  - apply nothing_honest.
  - rewrite <-surjective_pairing. apply play_steps.
  - vm_compute. reflexivity.
Defined.

Definition nothing_served : Routing := MkRouting ∅ (MkPluginChains [] ∅) [].
Definition loads (c : Checksum) (wasm : list Z) : option str := None.

Lemma reload_serves_storage_witness :
  ∃ routes rules limits r serving' c',
    (exec read_routes held).1 = Ok routes ∧ (exec read_rules held).1 = Ok rules ∧
    (exec read_limits held).1 = Ok limits ∧
    exec (reload feed_topic loads [] nothing_served) (held, filled) = (Ok (r, serving'), (held, c')) ∧
    match assemble [] routes, Chains.from_rules (wasm_in held) loads rules with
    | Ok table, Ok chains =>
        r = Ok (Some (Schema.revision held)) ∧ serving' = MkRouting table chains limits
    | _, _ => is_ok r = false ∧ serving' = nothing_served
    end.
Proof.
  apply (reload_serves_storage feed_topic loads [] nothing_served held filled first_published).
  - apply filled_honest.
  - apply filled_publishes.
  - vm_compute. reflexivity.
  - vm_compute. reflexivity.
Defined.

Lemma node_converges_witness :
  ∃ routes rules limits r serving' c',
    (exec read_routes held).1 = Ok routes ∧ (exec read_rules held).1 = Ok rules ∧
    (exec read_limits held).1 = Ok limits ∧
    exec (_ ← heal feed_topic; reload feed_topic loads [] nothing_served) (held, empty_view)
      = (Ok (r, serving'), (held, c')) ∧
    match assemble [] routes, Chains.from_rules (wasm_in held) loads rules with
    | Ok table, Ok chains =>
        r = Ok (Some (Schema.revision held)) ∧ serving' = MkRouting table chains limits
    | _, _ => is_ok r = false ∧ serving' = nothing_served
    end.
Proof.
  apply (node_converges feed_topic loads [] nothing_served held empty_view held_set [1]).
  - apply nothing_honest.
  - apply held_set_read.
  - apply held_set_written.
  - vm_compute. discriminate.
  - apply empty_reads.
  - vm_compute. reflexivity.
  - vm_compute. reflexivity.
Defined.
End FeedSample.
