(* ===== verification/Follow.v ===== *)
(** * Follow: a node that keeps in step with what is published

    Models [Reloader::keep_following] and [reload_until_it_lands] of [src/src/rules.rs] with
    the receiver [Publication::follow] gives them ([crates/ip-cache/src/publication.rs],
    [standalone.rs], [cluster.rs]): a watch channel that starts at the revision published when
    following began, with that value already seen, and that announcements move on.  Publishers,
    the task that announces, and the loop interleave as a step relation; a reload is one step
    here, and what it puts in force is [reload] of [Feed]. *)
From S2P Require Import Prelude Text Ident Cache.

(** Where the loop is: waiting for a change, reloading, or waiting to try again. *)
Inductive Doing : Type := Idle | Loading | Retrying.

(** [standing] is the newest revision published, if any, [coming] the announcements still on
    their way, [heard] the value of the channel and [news] whether it was seen, and [applied] the
    revision this node serves. *)
Record Follow : Type := MkFollow {
  standing : option Z;
  coming : list Z;
  heard : Z;
  news : bool;
  applied : Z;
  doing : Doing
}.

Definition revision_of (o : option Z) : Z := default 0 o.

(** [follow]: the channel starts at what is published now, or zero, and that is seen. *)
Definition follow (published : option Z) (applied : Z) : Follow :=
  MkFollow published [] (revision_of published) false applied Idle.

(** [announce] on the channel. *)
Definition hear (f : Follow) (revision : Z) (coming : list Z) : Follow :=
  let '(newer, heard) := announce (heard f) revision in
  MkFollow (standing f) coming heard (newer || news f) (applied f) (doing f).

Definition set_doing (f : Follow) (news : bool) (d : Doing) : Follow :=
  MkFollow (standing f) (coming f) (heard f) news (applied f) d.

(** One step of the publishers, of the task that announces, or of the loop.  [unread] says whether
    reading what is published may fail once a subscription is made again. *)
Inductive follow_step (unread : Prop) (f : Follow) : Follow → Prop :=
  (** A publication lands, which announces it. *)
  | publishes r : revision_of (standing f) < r →
      follow_step unread f (MkFollow (Some r) (coming f ++ [r]) (heard f) (news f) (applied f) (doing f))
  | announces r rest : coming f = r :: rest → follow_step unread f (hear f r rest)
  (** A lost subscription: what was on its way is gone, and what is published is announced. *)
  | resubscribes : follow_step unread f (hear f (revision_of (standing f)) [])
  (** One after which nothing could be read: nothing is announced. *)
  | resubscribes_unread : unread →
      follow_step unread f (MkFollow (standing f) [] (heard f) (news f) (applied f) (doing f))
  (** [changed] and [borrow_and_update] at the top of the loop. *)
  | wakes : doing f = Idle → news f = true →
      follow_step unread f (set_doing f false (if heard f <=? applied f then Idle else Loading))
  (** [reload] answers with the revision it put in force. *)
  | reloads r : doing f = Loading → standing f = Some r →
      follow_step unread f (MkFollow (standing f) (coming f) (heard f) (news f) r Idle)
  (** [reload] finds nothing published. *)
  | reloads_nothing : doing f = Loading → standing f = None → follow_step unread f (set_doing f (news f) Idle)
  | reload_fails : doing f = Loading → follow_step unread f (set_doing f (news f) Retrying)
  (** The wait is over, or there is news. *)
  | tries_again : doing f = Retrying → follow_step unread f (set_doing f (news f) Loading)
  | tries_at_news : doing f = Retrying → news f = true → follow_step unread f (set_doing f false Loading).

(** What was published since is heard or on its way, and what was heard is applied, unseen or
    being seen to. *)
Record in_step (f : Follow) : Prop := {
  revisions_count : 0 ≤ revision_of (standing f) ∧ 0 ≤ applied f;
  coming_published : Forall (λ r, r ≤ revision_of (standing f)) (coming f);
  heard_published : heard f ≤ revision_of (standing f);
  newest_comes : heard f < revision_of (standing f) → revision_of (standing f) ∈ coming f;
  heard_seen_to : applied f < heard f → news f = true ∨ doing f ≠ Idle
}.

Lemma hear_in_step f r rest :
  in_step f → r ≤ revision_of (standing f) →
  Forall (λ r, r ≤ revision_of (standing f)) rest →
  (r < revision_of (standing f) → heard f < revision_of (standing f) → revision_of (standing f) ∈ rest) →
  in_step (hear f r rest).
Proof.
  intros [H0 H1 H2 H3 H4] Hr Hrest Hnew. unfold hear, announce.
  destruct (Z.ltb_spec (heard f) r) as [Hlt|Hge]; split; cbn -[revision_of] in *; try done.
  - intros. apply Hnew; lia.
  - by left.
  - intros. apply Hnew; lia.
Qed.

Lemma follow_step_in_step f f' : follow_step False f f' → in_step f → in_step f'.
Proof.
  intros Hs Hf. pose proof Hf as [H0 H1 H2 H3 H4].
  destruct Hs as [r Hr|r rest Hc| |[]|Hd Hn|r Hd Hst|Hd Hst|Hd|Hd|Hd Hn].
  - split; cbn in *; [lia| |lia| |done].
    + apply Forall_app. split; [|by constructor]. eapply Forall_impl; [done|]. cbn. lia.
    + intros _. apply elem_of_app. right. by apply list_elem_of_singleton.
  - rewrite Hc in H1. apply Forall_cons in H1 as [Hr Hrest]. apply hear_in_step; try done.
    intros Hlt Hh. specialize (H3 Hh). rewrite Hc in H3. apply elem_of_cons in H3 as [?|?]; [lia|done].
  - apply hear_in_step; [done|done|by constructor|lia].
  - split; cbn -[revision_of]; try done. intros Hlt. right.
    destruct (Z.leb_spec (heard f) (applied f)); [lia|done].
  - split; cbn -[revision_of]; try done; rewrite Hst in *; cbn in *; lia.
  - split; cbn -[revision_of]; try done. rewrite Hst in *. cbn in *. lia.
  - split; cbn -[revision_of]; try done. by right.
  - split; cbn -[revision_of]; try done. by right.
  - split; cbn -[revision_of]; try done. by right.
Qed.

(** C16: a node that follows ends up serving what is published: however publications,
    announcements, lost subscriptions and failing reloads interleave, whenever its loop has
    nothing left to do and no announcement is on its way, the revision it serves is not behind
    the newest published, provided it was not behind when it began to follow and what is
    published can be read whenever a subscription is made again. *)
Theorem following_keeps_up (published : option Z) (started : Z) (f : Follow) :
  0 ≤ revision_of published ≤ started → rtc (follow_step False) (follow published started) f →
  doing f = Idle → news f = false → coming f = [] → revision_of (standing f) ≤ applied f.
Proof.
  intros Hp Hs Hd Hn Hc. assert (in_step (follow published started)) as Hf
    by (split; cbn -[revision_of]; [lia|by constructor|lia..]).
  assert (in_step f) as [_ _ H2 H3 H4].
  { clear Hd Hn Hc. induction Hs as [|f1 f2 f3 H12 _ IH]; [done|]. apply IH. by eapply follow_step_in_step. }
  rewrite Hc in H3. destruct (Z_lt_le_dec (heard f) (revision_of (standing f))) as [Hlt|Hle].
  { by apply H3, elem_of_nil in Hlt. }
  destruct (Z_lt_le_dec (applied f) (heard f)) as [Hlt|]; [|lia]. by destruct (H4 Hlt); congruence.
Qed.

(** ** How long it waits *)

(** A [Duration] is its nanoseconds. *)
Definition SECOND : Z := 10 ^ 9.
Definition HEAL_EVERY : Z := 30 * SECOND.
Definition HEAL_JITTER : Z := 10 * SECOND.
Definition RELOAD_SPREAD : Z := 2 * SECOND.
Definition RETRY_FIRST : Z := SECOND.
Definition RETRY_MOST : Z := 60 * SECOND.
Definition RESUBSCRIBE_FIRST : Z := SECOND.
Definition RESUBSCRIBE_MOST : Z := 30 * SECOND.

(** [jitter], with the eight bytes drawn, if any could be. *)
Definition jitter (most : Z) (drawn : option (list Z)) : Z :=
  match drawn with
  | None => most / 2
  | Some bytes =>
      let most := Z.max (Z.min (most / 10 ^ 6) u64_max) 1 in
      (of_be_bytes (reverse bytes) mod most) * 10 ^ 6
  end.

(** [(wait * 2).min(most)], of a reload that failed and of a subscription that was lost. *)
Definition next_wait (most wait : Z) : Z := Z.min (wait * 2) most.

(** A jitter never exceeds what it is given to spread over, whatever was drawn. *)
Theorem jitter_within (most : Z) (drawn : option (list Z)) : 0 ≤ most → 0 ≤ jitter most drawn ≤ most.
Proof.
  intros Hm. destruct drawn as [bytes|]; cbn [jitter].
  2: { split; [apply Z.div_pos; lia|]. apply Z.div_le_upper_bound; lia. }
  set (ms := Z.max (Z.min (most / 10 ^ 6) u64_max) 1).
  pose proof (Z.mod_pos_bound (of_be_bytes (reverse bytes)) ms ltac:(subst ms; lia)) as Hb.
  pose proof (Z.mul_div_le most (10 ^ 6) ltac:(lia)).
  pose proof (Z.div_pos most (10 ^ 6) Hm ltac:(lia)). split; [lia|].
  destruct (Z_lt_le_dec (most / 10 ^ 6) 1); [|subst ms; nia].
  assert (ms = 1) as E by (subst ms; unfold_bounds; lia). nia.
Qed.

(** Waits double from the first and stay at the most. *)
Theorem waits_double (first most : Z) (n : nat) :
  0 < first ≤ most → Nat.iter n (next_wait most) first = Z.min (first * 2 ^ Z.of_nat n) most.
Proof.
  intros Hf. induction n as [|n IH]; [cbn; lia|]. rewrite Nat.iter_succ, IH. unfold next_wait.
  rewrite Nat2Z.inj_succ, Z.pow_succ_r by lia. pose proof (Z.pow_pos_nonneg 2 (Z.of_nat n)). nia.
Qed.

(** ** Sample values *)

Module FollowSample.
(** A node that serves revision 4 follows where 4 is published; 5 is published, a first reload
    fails, 6 is published, and the second reload lands. *)
Definition caught_up : Follow := MkFollow (Some 6) [] 6 false 6 Idle.

Lemma caught_up_steps : rtc (follow_step False) (follow (Some 4) 4) caught_up.
Proof.
  eapply rtc_l; [apply (publishes _ _ 5); done|].
  eapply rtc_l; [by apply (announces _ _ 5 [])|]. eapply rtc_l; [by apply wakes|].
  eapply rtc_l; [by apply reload_fails|]. eapply rtc_l; [apply (publishes _ _ 6); done|].
  eapply rtc_l; [by apply (announces _ _ 6 [])|]. eapply rtc_l; [by apply tries_at_news|].
  eapply rtc_l; [by apply (reloads _ _ 6)|]. apply rtc_refl.
Qed.

Lemma following_keeps_up_witness : revision_of (standing caught_up) ≤ applied caught_up.
Proof.
  apply (following_keeps_up (Some 4) 4 caught_up).
  - cbn. lia.
  - exact caught_up_steps.
  - reflexivity.
  - reflexivity.
  - reflexivity.
Defined.

(** Nothing was heard of revision 5 being new, or something newer is published. *)
Definition missed (f : Follow) : Prop :=
  (standing f = Some 5 ∧ coming f = [] ∧ heard f = 5 ∧ news f = false ∧ applied f = 4 ∧
   doing f = Idle) ∨ ∃ r, standing f = Some r ∧ 5 < r.

Lemma missed_step f f' : follow_step True f f' → missed f → missed f'.
Proof.
  intros Hstep [(E1 & E2 & E3 & E4 & E5 & E6)|(r & E & Hr)].
  - destruct Hstep; cbn in *; rewrite ?E1, ?E2, ?E3, ?E4, ?E5, ?E6 in *; try congruence.
    + right. eexists. split; [done|]. cbn in *. lia.
    + by left.
    + by left.
  - right. destruct Hstep; cbn in *; try (unfold hear, announce; cbn; eauto; fail); eauto.
    rewrite E in *. cbn in *. eexists. split; [done|]. lia.
Qed.

(** A node that read revision 4 and begins to follow once 5 is published: the value the channel
    starts with counts as seen, so the loop waits, with nothing on its way, and serves 4. *)
Lemma change_before_following_missed :
  let f := follow (Some 5) 4 in
  doing f = Idle ∧ news f = false ∧ coming f = [] ∧ applied f < revision_of (standing f) ∧
  ∀ f', rtc (follow_step True) f f' → applied f' = 4 ∨ ∃ r, standing f' = Some r ∧ 5 < r.
Proof.
  split_and!; try (cbn; lia || done). cbn zeta. intros f' Hs.
  assert (missed f') as [(_ & _ & _ & _ & ? & _)|?]; [|by left|by right].
  assert (missed (follow (Some 5) 4)) as Hm by (left; done).
  induction Hs as [|f1 f2 f3 H12 _ IH]; [done|]. by apply IH, (missed_step f1).
Qed.

(** A node that serves revision 4 loses its subscription as 5 is published, and what is published
    cannot be read once it has subscribed again: the loop waits, and serves 4. *)
Lemma lost_announcement_missed :
  ∃ f, rtc (follow_step True) (follow (Some 4) 4) f ∧ doing f = Idle ∧ news f = false ∧ coming f = [] ∧
    applied f < revision_of (standing f).
Proof.
  exists (MkFollow (Some 5) [] 4 false 4 Idle). split; [|done].
  eapply rtc_l; [by apply (publishes _ _ 5)|]. eapply rtc_l; [by apply resubscribes_unread|]. apply rtc_refl.
Qed.
End FollowSample.
