(* ===== verification/Startup.v ===== *)
(** * Startup: what a node serves before it follows, and what it sweeps

    Models the part of [AppState::open] of [src/src/state.rs] that puts the first rules in force:
    the cache is healed, the revision is read, then the routes, the plugin rules with the wasm
    they name, and the limits, each in a statement of its own ([RoutingTable::load],
    [PluginChains::load], [Limits::new]).  Also [Sweeper] of [src/src/usage.rs].

    Shown: a node that starts while others change the rules starts at a revision storage has
    reached, and if storage is still there it serves exactly what storage holds; so whatever it
    serves stale, the revision it follows from says so. *)
From S2P Require Import Prelude Text Ident Key Capability Route Dispatch Table Config LimitCore.
From S2P Require Import PluginCore Account Auth Cache Sled Limiter Chains Recorder Host Sql Rely Schema.
From S2P Require Import Integrity Named IdentityStore IdentitySpec PluginStore RouteStore LimitStore.
From S2P Require Import ListStore Store Revision Publication Manage Web Feed.

(** The failures of opening. *)
Inductive StartupError : Type :=
  | StartAuth (e : AuthError)
  | StartStorage (e : StorageError)
  | StartCache (e : CacheError)
  | StartRouting (e : BuildError)
  | StartUpstream (detail : str)
  | StartPlugin (e : PluginError)
  | StartChains (e : ChainError)
  | UnsupportedBackend (backend feature : str).

(** What [AppState] keeps of the rules. *)
Record Opened : Type := MkOpened {
  started_at : Z;
  opened_routing : Routing;
  opened_configured : list RouteRule
}.

Section startup.
Context `{Engine} `{Chrono} `{Crypto} `{SnapshotCodec} {St : Type} `{!Publication St} {ul : UrlLib}.
Context (topic : CacheKey) (host_load : Checksum → list Z → option str).
(** Whether the wasm engine and the upstream client can be made. *)
Context (host_new : result PluginError unit) (upstream_new : result str unit).

(** [PluginChains::load].  Reading the wasm of the rules is one statement, as in [reload]. *)
Definition load_chains : act St (result ChainError PluginChains) :=
  found ← call read_rules;
  match found with
  | Err e => answer_with (Err (ChainStorage e))
  | Ok rules =>
      built ← call (select (λ d, Chains.from_rules (wasm_in d) host_load rules));
      answer_with (match built with Err e => Err (ChainStorage e) | Ok built => built end)
  end.

(** [AppState::open], from healing to the limits. *)
Definition open_rules (config : Config) : act St (result StartupError Opened) :=
  _ ← heal topic;
  found ← call rule_revision;
  match found with
  | Err e => answer_with (Err (StartStorage e))
  | Ok started =>
      found ← call read_routes;
      match (dynamic ← map_err BuildStorage found; build config dynamic),
            configured_rules config, host_new with
      | Err e, _, _ => answer_with (Err (StartRouting e))
      | Ok _, Err e, _ => answer_with (Err (StartRouting (BuildConfig e)))
      | Ok _, Ok _, Err e => answer_with (Err (StartPlugin e))
      | Ok table, Ok configured, Ok _ =>
          built ← load_chains;
          match built, upstream_new with
          | Err e, _ => answer_with (Err (StartChains e))
          | Ok _, Err e => answer_with (Err (StartUpstream e))
          | Ok chains, Ok _ =>
              found ← call read_limits;
              answer_with (match found with
                | Err e => Err (StartStorage e)
                | Ok limits => Ok (MkOpened started (MkRouting table chains limits) configured)
                end)
          end
      end
  end.

(** ** What was read still says of storage *)

(** Storage has reached this revision, and if it has not moved past it this holds of it. *)
Definition since (started : Z) (P : Db → Prop) (v : Server St) : Prop :=
  sound v.1 ∧ started ≤ Schema.revision v.1 ∧ (started = Schema.revision v.1 → P v.1).

(** What a change that leaves the rules alone leaves true. *)
Definition lasting (P : Db → Prop) : Prop :=
  ∀ d d', sound d → tracked d d' → rules_in d' = rules_in d → P d → P d'.

Abbreviation moves := (Feed.moves topic).

Lemma since_later started P v v' : lasting P → moves v v' → since started P v → since started P v'.
Proof.
  intros HP [Ht _] (Hs & Hle & Heq). destruct (Ht Hs) as (Hs' & Hr & Hsame).
  split; [done|]. split; [lia|]. intros E. apply (HP v.1 v'.1); [done|done|apply Hsame; lia|apply Heq; lia].
Qed.

(** A statement of the stores that only reads: others come first, or it fails. *)
Lemma guarded_read {X A} (f : Db → X) (g : X → result StorageError A) Q v :
  (∀ d c, moves v (d, c) → ∀ v', moves (d, c) v' → Q (Ok (g (f d))) v') →
  (∀ e v', moves v v' → Q (Ok (Err e)) v') →
  guarded moves (call (x ← select f; pure (g x))) Q v.
Proof.
  intros Hok Herr [d c] Hv. unfold answer, beside. cbn. split; [done|]. split.
  - intros v' Hv'. by apply (Hok d c).
  - intros v' Hv'. apply Herr. by transitivity (d, c).
Qed.

Lemma guarded_started v :
  sound v.1 →
  guarded moves (call rule_revision) (λ r v, ∀ n, r = Ok (Ok n) → since n (λ _, True) v) v.
Proof.
  intros Hs. apply guarded_read; [|done]. intros d c Hv v' Hv' n [= Hn].
  apply ok_or_ok, try_unsigned_Some in Hn as [-> _]. pose proof (moves_sound _ _ _ Hv Hs) as Hd.
  apply (since_later _ _ (d, c)); [done|done|]. split; [done|]. cbn. lia.
Qed.

(** Rules read after the revision are storage's for as long as the revision stands. *)
Lemma guarded_fresh {X A} (f : Db → X) (g : X → result StorageError A) started P v :
  (∀ d d', rules_in d' = rules_in d → f d' = f d) → lasting P → since started P v →
  guarded moves (call (x ← select f; pure (g x)))
    (λ r v, ∀ a, r = Ok (Ok a) → since started (λ d, P d ∧ g (f d) = Ok a) v) v.
Proof.
  intros Hf HP Hv. apply guarded_read; [|done]. intros d c Hm v' Hv' a [= Ha].
  apply (since_later _ _ (d, c)); [|done|].
  - intros d1 d2 Hs Ht E [Hd Hg]. split; [by eapply HP|]. by rewrite (Hf _ _ E).
  - destruct (since_later _ _ _ _ HP Hm Hv) as (? & ? & ?). by split_and!; auto.
Qed.

(** The chains were built over wasm that storage held meanwhile. *)
Definition chains_since (rules : list PluginRule) (chains : PluginChains) (d : Db) : Prop :=
  ∃ earlier, sound earlier ∧ tracked earlier d ∧ rules_in d = rules_in earlier ∧
    Chains.from_rules (wasm_in earlier) host_load rules = Ok chains.

Lemma chains_since_lasting rules chains : lasting (chains_since rules chains).
Proof.
  intros d d' Hs Ht E (e & He & Hte & Ee & Hc). exists e. split_and!; [done| |congruence|done].
  by transitivity d.
Qed.

Definition stored_routes (routes : list RouteRule) (d : Db) : Prop := (exec read_routes d).1 = Ok routes.
Definition stored_rules (rules : list PluginRule) (d : Db) : Prop := (exec read_rules d).1 = Ok rules.
Definition stored_limits (limits : list Limit) (d : Db) : Prop := (exec read_limits d).1 = Ok limits.

(** What a node serves is what storage holds. *)
Definition serves (config : Config) (o : Opened) (d : Db) : Prop :=
  ∃ routes rules, stored_routes routes d ∧ stored_rules rules d ∧
    stored_limits (routing_limits (opened_routing o)) d ∧
    build config routes = Ok (routing_table (opened_routing o)) ∧
    chains_since rules (routing_chains (opened_routing o)) d.

Lemma lasting_true : lasting (λ _, True).
Proof. done. Qed.

Lemma lasting_and P Q : lasting P → lasting Q → lasting (λ d, P d ∧ Q d).
Proof. intros HP HQ d d' Hs Ht E [HPd HQd]. split; [by eapply HP|by eapply HQ]. Qed.

Lemma routes_of d d' :
  rules_in d' = rules_in d → sort_by joined_le (routes_joined d') = sort_by joined_le (routes_joined d).
Proof. by intros [= -> _ _]. Qed.
Lemma rules_of d d' :
  rules_in d' = rules_in d → sort_by rule_order_le (rules_joined d') = sort_by rule_order_le (rules_joined d).
Proof. by intros [= _ -> _]. Qed.
Lemma limits_of d d' : rules_in d' = rules_in d → limits_newest_first d' = limits_newest_first d.
Proof. unfold limits_newest_first. by intros [= _ _ ->]. Qed.

Lemma routes_lasting routes : lasting (stored_routes routes).
Proof. intros d d' _ _ E. unfold stored_routes, read_routes. sql_run. by rewrite (routes_of d d'). Qed.
Lemma rules_lasting rules : lasting (stored_rules rules).
Proof. intros d d' _ _ E. unfold stored_rules, read_rules. sql_run. by rewrite (rules_of d d'). Qed.
Lemma limits_lasting limits : lasting (stored_limits limits).
Proof. intros d d' _ _ E. unfold stored_limits, read_limits. sql_run. by rewrite (limits_of d d'). Qed.

Lemma guarded_chains started P v :
  lasting P → since started P v →
  guarded moves load_chains (λ r v, ∀ chains, r = Ok (Ok chains) →
    ∃ rules, since started (λ d, (P d ∧ stored_rules rules d) ∧ chains_since rules chains d) v) v.
Proof.
  intros HP Hv. unfold load_chains. eapply guarded_bind; [apply _| | |done].
  { apply (guarded_fresh _ _ started P v rules_of HP Hv). }
  intros [rules|e] v1 Hr; [|by intros v2 Hv2 chains [=]]. specialize (Hr rules eq_refl).
  assert (lasting (λ d, P d ∧ stored_rules rules d)) as HP'
    by (by apply lasting_and, rules_lasting).
  eapply (guarded_bind moves _ _ (λ r v, ∀ chains, r = Ok (Ok (Ok chains)) →
    since started (λ d, (P d ∧ stored_rules rules d) ∧ chains_since rules chains d) v)).
  - apply (guarded_read (λ d, Chains.from_rules (wasm_in d) host_load rules) Ok); [|done].
    intros d c Hm v' Hv' chains [= Hc]. apply (since_later _ _ (d, c)); [|done|].
    { apply lasting_and; [done|apply chains_since_lasting]. }
    destruct (since_later _ _ _ _ HP' Hm Hr) as (Hd & ? & ?). split; [done|]. split; [done|].
    intros E. split; [by auto|]. by exists d.
  - intros [built|e] v2 Hb v3 Hv3 chains [=]; subst. exists rules. eapply since_later; [|done|by apply Hb].
    apply lasting_and; [done|apply chains_since_lasting].
  - done.
Qed.

Lemma serves_lasting config o : lasting (serves config o).
Proof.
  intros d d' Hs Ht E (routes & rules & Hro & Hru & Hli & Hb & Hch). exists routes, rules. split_and!; [..|done|].
  - by apply (routes_lasting _ d d').
  - by apply (rules_lasting _ d d').
  - by apply (limits_lasting _ d d').
  - by apply (chains_since_lasting _ _ d d').
Qed.

Lemma guarded_open config v :
  sound v.1 →
  guarded moves (open_rules config)
    (λ r v, ∀ o, r = Ok (Ok o) → since (started_at o) (serves config o) v) v.
Proof.
  intros Hs. unfold open_rules.
  eapply (guarded_bind moves _ _ (λ _ v, sound v.1)); [by apply guarded_heal| |done].
  intros _ v1 Hs1. eapply guarded_bind; [apply _|by apply guarded_started| |done].
  intros [started|e] v2 Hst; [|by intros v3 Hv3 o [=]]. specialize (Hst started eq_refl).
  eapply guarded_bind; [apply _| | |done].
  { apply (guarded_fresh _ _ started _ v2 routes_of lasting_true Hst). }
  intros [routes|e] v3 Hro.
  2:{ change (map_err BuildStorage (Err e) ≫= λ dynamic, build config dynamic)
        with (Err (BuildStorage e) : result BuildError RoutingTable). by intros v4 Hv4 o [=]. }
  change (map_err BuildStorage (Ok routes) ≫= λ dynamic, build config dynamic) with (build config routes).
  specialize (Hro routes eq_refl).
  assert (lasting (stored_routes routes)) as HP1 by apply routes_lasting.
  assert (since started (stored_routes routes) v3) as Hro'
    by (destruct Hro as (? & ? & Hx); split_and!; [done..|]; intros E; by apply Hx). clear Hro.
  destruct (build config routes) as [table|e] eqn:Hb; [|by intros v4 Hv4 o [=]].
  destruct (configured_rules config) as [configured|e]; [|by intros v4 Hv4 o [=]].
  destruct host_new as [[]|e]; [|by intros v4 Hv4 o [=]].
  eapply guarded_bind; [apply _|by apply (guarded_chains started _ v3 HP1 Hro')| |done].
  intros [chains|e] v4 Hc; [|by intros v5 Hv5 o [=]].
  destruct upstream_new as [[]|e]; [|by intros v5 Hv5 o [=]].
  destruct (Hc chains eq_refl) as (rules & Hru). clear Hc.
  eapply guarded_bind; [apply _| | |done].
  { eapply (guarded_fresh _ _ started _ v4 limits_of); [|exact Hru].
    apply lasting_and; [apply lasting_and; [done|apply rules_lasting]|].
    apply chains_since_lasting. }
  intros [limits|e] v5 Hl; [|by intros v6 Hv6 o [=]]. specialize (Hl limits eq_refl).
  intros v6 Hv6 o [= <-]. apply (since_later _ _ v5); [apply serves_lasting|done|].
  destruct Hl as (? & ? & Hl). split_and!; [done..|]. intros E.
  destruct (Hl E) as [[[? ?] ?] ?]. by exists routes, rules.
Qed.

(** ** Properties *)

(** A node that starts among the jobs of every other. *)
Definition starting (config : Config) : act St (option (result StartupError Opened)) :=
  o ← open_rules config; answer_with (Some o).
Definition beside_it (j : Job) : act St (option (result StartupError Opened)) :=
  _ ← job topic j; answer_with None.

(** C14: a node that starts while others run any calls of the stores, publish and heal, all
    interleaved statement by statement and failing anywhere, starts at a revision storage has
    reached; and as long as storage has not moved past that revision, the node serves the table
    of its configuration and the stored routes, the chains of the stored plugin rules, and the
    stored limits: what it serves is stale only when the revision it follows from says so. *)
Theorem startup_current (config : Config) (jobs : list Job) v ps v' o :
  sound v.1 → rtc pool_step (starting config :: (beside_it <$> jobs), v) (ps, v') →
  pure (Ok (Some (Ok o))) ∈ ps →
  started_at o ≤ Schema.revision v'.1 ∧
  (started_at o = Schema.revision v'.1 → serves config o v'.1).
Proof.
  intros Hs Hst Ho.
  eapply (pool_guarded moves _ _ (λ r v, ∀ o, r = Ok (Some (Ok o)) → since (started_at o) (serves config o) v))
    in Hst as [_ Hps].
  - rewrite Forall_forall in Hps. by destruct (Hps _ Ho v' (reflexivity v') o eq_refl) as (_ & ? & ?).
  - constructor.
    + eapply guarded_bind; [apply _|by apply guarded_open| |done].
      intros o' v1 Hv1 v2 Hv2 o2 [= ->]. eapply since_later; [apply serves_lasting|done|by apply Hv1].
    + apply Forall_fmap, Forall_true. intros j.
      eapply (guarded_bind moves _ _ (λ _ _, True)); [by apply job_guarded| |done].
      intros _ v1 _ v2 Hv2 o2 [=].
Qed.
End startup.

(** ** Sweeping *)

(** [Sweeper]: the seconds of its two durations. *)
Record Sweeper : Type := MkSweeper { sweeper_retention : Z; sweeper_every : Z }.

(** [Sweeper::new]. *)
Definition new_sweeper (config : UsageConfig) : option Sweeper :=
  retention ← retention config; Some (MkSweeper retention (sweep_every config)).

Section sweep.
Context `{Engine} `{Chrono} `{Crypto}.

(** [Sweeper::sweep]. *)
Definition sweep (s : Sweeper) (now : Timestamp) : sql Db Z :=
  let kept := default i64_max (try_unsigned i64_max (sweeper_retention s)) in
  match from_unix_seconds (now - kept) with
  | Err e => pure (Err (StoredValue e))
  | Ok moment => sweep_usage moment
  end.

(** A sweep removes exactly the usage recorded longer ago than the retention, reports how
    many rows went, and touches nothing else; a retention that reaches back before any moment a
    timestamp can hold removes nothing and is reported.  No row within its keeping is lost. *)
Theorem sweep_exact (s : Sweeper) (now : Timestamp) (d : Db) :
  is_u64 (sweeper_retention s) → earliest ≤ now ≤ latest → now - i64_max < earliest →
  let kept := filter (λ r, ¬ ug_at r < now - sweeper_retention s) (rows (usage d)) in
  exec (sweep s now) d =
  if now - sweeper_retention s <? earliest
  then (Err (StoredValue (TimestampOutOfRange
          (now - Z.min (sweeper_retention s) i64_max))), d)
  else (Ok (Z.of_nat (length (rows (usage d)) - length kept)),
        with_usage (MkTable kept (issued (usage d))) d).
Proof.
  intros Hu Hnow Hmax. cbn zeta. unfold sweep.
  assert (default i64_max (try_unsigned i64_max (sweeper_retention s))
    = Z.min (sweeper_retention s) i64_max) as ->.
  { unfold is_u64, try_unsigned in *. unfold_bounds.
    destruct (0 <=? _) eqn:?, (sweeper_retention s <=? _) eqn:?; cbn; lia. }
  unfold from_unix_seconds. destruct (Z.ltb_spec (now - sweeper_retention s) earliest) as [Hlt|Hge].
  - by rewrite (proj2 (Z.leb_gt _ _)) by lia.
  - unfold is_u64 in Hu. replace (Z.min _ _) with (sweeper_retention s) by lia.
    rewrite !(proj2 (Z.leb_le _ _)) by lia. cbn [andb]. unfold sweep_usage, delete_from_usage. sql_run.
    unfold keep. do 3 f_equal.
    pose proof (filter_app_complement (λ r, ug_at r < now - sweeper_retention s) (rows (usage d))) as Hl.
    apply Permutation_length in Hl. rewrite length_app in Hl. lia.
Qed.
End sweep.

(** ** Sample values *)

Module StartupSample.
Import SampleCrypto SampleChrono StoreSample Memory FeedSample Config.ConfigSample.

(** A node starts over a held database and an empty cache: it heals the cache, reads the
    revision and the routes; meanwhile a grant is taken back and a use recorded; then it reads
    the rest. *)
Definition meanwhile : list Job := [Calls (RevokeFrom may_call); Calls (RecordUsage 2000 used)].
Definition started : list (act View (option (result StartupError Opened))) * Server View :=
  play [0; 0; 0; 0; 0; 0; 1; 1; 1; 2; 2; 2; 0; 0; 0]%nat
    (starting feed_topic loads (Ok tt) (Ok tt) (config secret [draw; llm])
       :: (beside_it feed_topic <$> meanwhile)) (held, empty_view).
Definition first : act View (option (result StartupError Opened)) :=
  default (answer_with None) (started.1 !! 0%nat).
Definition nothing_opened : Opened := MkOpened 0 nothing_served [].
Definition opened_by (r : result StorageError (option (result StartupError Opened))) : option Opened :=
  match r with Ok (Some (Ok o)) => Some o | _ => None end.
Definition opened : Opened := default nothing_opened (opened_by (exec first started.2).1).

Definition ends {A} (p : act View A) : bool := match p with Done _ _ => true | _ => false end.
Lemma ends_exec {A} (p : act View A) v : ends p = true → p = pure (exec p v).1.
Proof. by destruct p. Qed.

Lemma ended_opened {A} (ps : list (act View (option A))) (v : Server View) (p : act View (option A)) a :
  p = default (answer_with None) (ps !! 0%nat) → ends p = true → (exec p v).1 = Ok (Some a) →
  pure (Ok (Some a)) ∈ ps.
Proof.
  intros -> He E. apply (ends_exec _ v) in He. rewrite E in He. rewrite <-He. clear He.
  destruct (ps !! 0%nat) as [p|] eqn:Hp; [by eapply list_elem_of_lookup_2|]. by cbn in E.
Qed.

Lemma opened_by_Some r : match opened_by r with Some _ => true | None => false end = true →
  r = Ok (Some (Ok (default nothing_opened (opened_by r)))).
Proof. by destruct r as [[[o|]|]|]. Qed.

Lemma started_opened : pure (Ok (Some (Ok opened))) ∈ started.1.
Proof.
  apply (ended_opened started.1 started.2 first).
  - reflexivity.
  - vm_compute. reflexivity.
  - apply opened_by_Some. vm_compute. reflexivity.
Qed.

Lemma startup_current_witness :
  started_at opened = Schema.revision started.2.1 ∧
  serves loads (config secret [draw; llm]) opened started.2.1.
Proof.
  assert (started_at opened = Schema.revision started.2.1) as E by (vm_compute; reflexivity).
  split; [exact E|]. revert E.
  apply (startup_current feed_topic loads (Ok tt) (Ok tt) (config secret [draw; llm]) meanwhile (held, empty_view)
    started.1 started.2 opened).
  - apply held_sound.
  - rewrite <-surjective_pairing. apply play_steps.
  - exact started_opened.
Defined.

(** Of the two uses of [used_twice] one is past a retention of an hour. *)
Definition used_twice : Db := (run [RecordUsage 2000 used; RecordUsage 9000 used] migrated).2.
Definition hourly : Sweeper := MkSweeper 3600 60.
Lemma sweep_exact_witness :
  (exec (sweep hourly 9100) used_twice).1 = Ok 1 ∧
  let kept := filter (λ r, ¬ ug_at r < 9100 - sweeper_retention hourly) (rows (usage used_twice)) in
  exec (sweep hourly 9100) used_twice =
  if 9100 - sweeper_retention hourly <? earliest
  then (Err (StoredValue (TimestampOutOfRange (9100 - Z.min (sweeper_retention hourly) i64_max))),
        used_twice)
  else (Ok (Z.of_nat (length (rows (usage used_twice)) - length kept)),
        with_usage (MkTable kept (issued (usage used_twice))) used_twice).
Proof.
  split; [vm_compute; reflexivity|]. apply (sweep_exact hourly 9100 used_twice).
  - cbn. unfold_bounds. lia.
  - vm_compute. split; discriminate.
  - vm_compute. reflexivity.
Defined.
End StartupSample.
