(* ===== verification/Open.v ===== *)
(** * Open: the backends, the caches and the sessions a configuration asks for

    Models [AppState::open] of [src/src/state.rs] as a whole: [open_store] and [open_cache],
    what [Startup.open_rules] puts in force, and what is built after the rules are: the answers'
    lifetime, the nonces' and [Logins::new] of [crates/ip-auth/src/login.rs].

    [sqlx], [sled] and the redis client decide whether a backend opens, and [argon2] hashes, so
    these are arguments; what was compiled into the build is the record [Features].

    Shown: a node that opens runs on the backends its configuration names and holds every level of
    its cache, every answer, nonce and session to exactly the sizes and lifetimes written there;
    what was not compiled in is refused before storage or the cache is touched. *)
From S2P Require Import Prelude Text Ident Key Capability Route Dispatch Table Config LimitCore.
From S2P Require Import PluginCore Account Auth Login Cache Sled Limiter RespCache Chains Recorder Host.
From S2P Require Import Sql Rely Schema Integrity Named IdentityStore IdentitySpec PluginStore RouteStore.
From S2P Require Import LimitStore ListStore Store Revision Publication Manage Web Feed Startup.

(** The cargo features that compile a backend in. *)
Record Features : Type := MkFeatures {
  standalone_storage : bool;
  fast_storage : bool;
  standalone_cache : bool;
  cluster_cache : bool
}.

(** [Stores]: the backend that was opened, and where. *)
Inductive Stores : Type :=
  | SqliteStore (path : str)
  | PostgresStore (url : str).

(** The cache that was opened, and the limits it was given. *)
Inductive OpenedCache : Type :=
  | OpenedSled (path : str) (limits : LevelLimits)
  | OpenedRedis (url : str).

Definition cache_limits (c : OpenedCache) : LevelLimits :=
  match c with OpenedSled _ limits => limits | OpenedRedis _ => no_limits end.

(** [LevelLimits::with_response], [with_semantic], [with_system]. *)
Definition with_response (limit : MaxBytes) (l : LevelLimits) : LevelLimits :=
  MkLimits (Some limit) (limit_semantic l) (limit_system l).
Definition with_semantic (limit : MaxBytes) (l : LevelLimits) : LevelLimits :=
  MkLimits (limit_response l) (Some limit) (limit_system l).
Definition with_system (limit : MaxBytes) (l : LevelLimits) : LevelLimits :=
  MkLimits (limit_response l) (limit_semantic l) (Some limit).

(** One [if let Some(bytes)] of [open_cache]. *)
Definition limiting (with_ : MaxBytes → LevelLimits → LevelLimits) (bytes : option Z) (l : LevelLimits)
    : result CacheError LevelLimits :=
  match bytes with
  | None => Ok l
  | Some bytes => limit ← new_max_bytes bytes; Ok (with_ limit l)
  end.

(** What [AppState] keeps that [Opened] does not. *)
Record AppState : Type := MkAppState {
  app_stores : Stores;
  app_cache : OpenedCache;
  app_rules : Opened;
  app_responses : option Ttl;
  app_nonce_ttl : Ttl;
  app_logins : Logins;
  app_session_seconds : Z;
  app_listen : SocketAddr
}.

(** [RecheckLimit::default]. *)
Definition quarter_hour : Ttl := MkRefined (check := check_span) (15 * 60 * 10 ^ 9) eq_refl.
Definition default_recheck : RecheckLimit := new_recheck_limit MAX_RECHECK_ATTEMPTS quarter_hour.

Section open.
Context `{Engine} `{Chrono} `{Crypto} `{SnapshotCodec} {St : Type} `{!Publication St} {ul : UrlLib}.
Context (topic : CacheKey) (host_load : Checksum → list Z → option str).
Context (host_new : result PluginError unit) (upstream_new : result str unit).
Context (sqlite_open postgres_open : str → result StorageError unit).
Context (sled_open redis_connect : str → result CacheError unit).
Context (hash : Passphrase → result AuthError PassphraseHash).
Context (built : Features).

Definition open_store (config : StorageConfig) : result StartupError Stores :=
  match config with
  | Sqlite path =>
      if standalone_storage built
      then _ ← map_err StartStorage (sqlite_open path); Ok (SqliteStore path)
      else Err (UnsupportedBackend #"sqlite" #"standalone-storage")
  | Postgres url =>
      if fast_storage built
      then _ ← map_err StartStorage (postgres_open (expose url)); Ok (PostgresStore (expose url))
      else Err (UnsupportedBackend #"postgres" #"fast-storage")
  end.

Definition open_cache (config : CacheConfig) : result StartupError OpenedCache :=
  match config with
  | SledCache path _ response_max_bytes semantic_max_bytes system_max_bytes =>
      if standalone_cache built then
        limits ← map_err StartCache (limiting with_response response_max_bytes no_limits);
        limits ← map_err StartCache (limiting with_semantic semantic_max_bytes limits);
        limits ← map_err StartCache (limiting with_system system_max_bytes limits);
        _ ← map_err StartCache (sled_open path);
        Ok (OpenedSled path limits)
      else Err (UnsupportedBackend #"sled" #"standalone-cache")
  | RedisCache url _ =>
      if cluster_cache built
      then _ ← map_err StartCache (redis_connect (expose url)); Ok (OpenedRedis (expose url))
      else Err (UnsupportedBackend #"redis" #"cluster-cache")
  end.

(** [Logins::new], given what the random source filled in. *)
Definition new_logins (tokens : SessionTokens) (drawn : option (bytes ID_BYTES)) : result AuthError Logins :=
  id ← generate drawn;
  unknowable ← new_passphrase id;
  absent ← hash unknowable;
  Ok (MkLogins tokens absent default_recheck).

(** [SessionTokens::new] of the settings of the file. *)
Definition tokens_named (settings : JwtConfig) : SessionTokens :=
  MkTokensOf (Config.issuer settings) (as_bytes (expose (jwt_secret settings))) (jwt_ttl settings * 10 ^ 9).

(** [AppState::open], once the rules are in force. *)
Definition finish (config : Config) (drawn : option (bytes ID_BYTES)) (stores : Stores)
    (cache : OpenedCache) (rules : Opened) : result StartupError AppState :=
  responses ← match response_ttl (Config.cache config) with
    | None => Ok None
    | Some ttl => ttl ← map_err StartCache (ttl_seconds ttl); Ok (Some ttl)
    end;
  nonce ← map_err StartCache (ttl_seconds (nonce_ttl (auth config)));
  logins ← map_err StartAuth (new_logins (tokens_named (jwt (auth config))) drawn);
  Ok (MkAppState stores cache rules responses nonce logins (jwt_ttl (jwt (auth config))) (listen config)).

(** [AppState::open]. *)
Definition open_state (config : Config) (drawn : option (bytes ID_BYTES)) : act St (result StartupError AppState) :=
  match (stores ← open_store (storage config); cache ← open_cache (Config.cache config);
         Ok (stores, cache)) with
  | Err e => answer_with (Err e)
  | Ok (stores, cache) =>
      opened ← open_rules topic host_load host_new upstream_new config;
      answer_with (rules ← opened; finish config drawn stores cache rules)
  end.

(** ** What a configuration asks for *)

(** The bytes it allows a level. *)
Definition allowed_bytes (config : CacheConfig) (level : CacheLevel) : option Z :=
  match config, level with
  | SledCache _ _ bytes _ _, Cache.Response => bytes
  | SledCache _ _ _ bytes _, Cache.Semantic => bytes
  | SledCache _ _ _ _ bytes, Cache.System => bytes
  | RedisCache _ _, _ => None
  end.

(** Whether this build has the backends it names. *)
Definition stores_built (config : StorageConfig) : bool :=
  match config with Sqlite _ => standalone_storage built | Postgres _ => fast_storage built end.
Definition cache_built (config : CacheConfig) : bool :=
  match config with SledCache _ _ _ _ _ => standalone_cache built | RedisCache _ _ => cluster_cache built end.

(** Where it says they are. *)
Definition stores_named (config : StorageConfig) : Stores :=
  match config with Sqlite path => SqliteStore path | Postgres url => PostgresStore (expose url) end.
Definition cache_named (config : CacheConfig) (limits : LevelLimits) : OpenedCache :=
  match config with
  | SledCache path _ _ _ _ => OpenedSled path limits
  | RedisCache url _ => OpenedRedis (expose url)
  end.

Lemma open_store_ok config stores :
  open_store config = Ok stores → stores_built config = true ∧ stores = stores_named config.
Proof. destruct config as [path|url]; cbn; case_if; intros Ho; [|done| |done]; inv_ok; done. Qed.

Lemma limiting_ok with_ bytes l l' :
  limiting with_ bytes l = Ok l' →
  match bytes with None => l' = l | Some n => ∃ limit : MaxBytes, val limit = n ∧ l' = with_ limit l end.
Proof.
  destruct bytes as [n|]; cbn; [|by intros [= <-]]. intros Hl. inv_ok.
  eexists. split; [|done]. by eapply refine_ok.
Qed.

Lemma open_cache_ok config opened :
  open_cache config = Ok opened →
  cache_built config = true ∧ opened = cache_named config (cache_limits opened) ∧
  ∀ level, val <$> limit_of (cache_limits opened) level = allowed_bytes config level.
Proof.
  destruct config as [path ttl r m y|url ttl]; cbn [open_cache]; case_if; intros Ho; [|done| |done]; inv_ok.
  - split; [done|]. split; [done|]. cbn [cache_limits].
    repeat match goal with Hl : limiting _ _ _ = Ok _ |- _ => apply limiting_ok in Hl end.
    destruct r, m, y; repeat match goal with Hl : ∃ _, _ ∧ _ |- _ => destruct Hl as (? & <- & ?) end;
      subst; by intros [].
  - split; [done|]. split; [done|]. by intros [].
Qed.

Lemma ttl_seconds_ok n t : ttl_seconds n = Ok t → val t = n * 10 ^ 9 ∧ 0 < n.
Proof. intros [_ E]%refine_ok. pose proof (ttl_pos t). split; [done|]. lia. Qed.

(** A drawn session id is a passphrase, so only the random source and the hasher can fail. *)
Lemma new_logins_drawn tokens drawn :
  new_logins tokens drawn = Err Random ∨
  ∃ p, new_logins tokens drawn = (absent ← hash p; Ok (MkLogins tokens absent default_recheck)).
Proof.
  unfold new_logins. destruct drawn as [b|]; [|by left]. right. cbn [generate ok_or].
  destruct (new_passphrase (hex_encode (val b))) as [p|e] eqn:Hp.
  - exists p. unfold generate. cbn. by rewrite Hp.
  - apply refine_err in Hp. unfold check_passphrase in Hp. rewrite hex_encode_len, bytes_length in Hp. done.
Qed.

Lemma new_logins_ok tokens drawn l :
  new_logins tokens drawn = Ok l → Login.tokens l = tokens ∧ recheck_limit l = default_recheck.
Proof. unfold new_logins. intros Hl. by inv_ok. Qed.

(** What is built once the rules are in force is what the file says. *)
Lemma finish_built config drawn stores cache rules s :
  finish config drawn stores cache rules = Ok s →
  app_stores s = stores ∧ app_cache s = cache ∧ app_rules s = rules ∧
  val <$> app_responses s = (λ ttl, ttl * 10 ^ 9) <$> response_ttl (Config.cache config) ∧
  (val (app_nonce_ttl s) = nonce_ttl (auth config) * 10 ^ 9 ∧ 0 < nonce_ttl (auth config)) ∧
  tokens (app_logins s) = tokens_named (jwt (auth config)) ∧
  app_session_seconds s = session_ttl (tokens (app_logins s)) / 10 ^ 9 ∧
  recheck_limit (app_logins s) = default_recheck.
Proof.
  unfold finish. intros Hf. apply bind_ok in Hf as (x & Hx & Hf). apply bind_ok in Hf as (n & Hn & Hf).
  apply bind_ok in Hf as (l & Hl & [= <-]). apply map_err_ok, ttl_seconds_ok in Hn as Hn'.
  apply map_err_ok, new_logins_ok in Hl as (Htok & Hre). cbn.
  destruct Hn' as [Hn1 Hn2]. split_and!; try done.
  - destruct (response_ttl _) as [ttl|]; [|by injection Hx as <-].
    apply bind_ok in Hx as (t & Ht & [= <-]). apply map_err_ok, ttl_seconds_ok in Ht as [Ht _]. cbn. by rewrite Ht.
  - rewrite Htok. cbn [session_ttl tokens_named]. by rewrite Z.div_mul.
Qed.

(** ** Properties *)

(** A node that opens serves the rules that [open_rules] read, with its storage and its cache
    on the backends and the paths or urls its configuration names, both compiled into this
    build; every level of the cache is held to the bytes written for it and to no others; answers,
    nonces and sessions live for exactly the seconds written for them, which are not none; the
    tokens are issued and signed with the issuer and the secret of the file; and wrong
    passphrases are counted by the default limit. *)
Theorem opened_as_configured (config : Config) drawn (v v' : Server St) (s : AppState) :
  exec (open_state config drawn) v = (Ok (Ok s), v') →
  exec (open_rules topic host_load host_new upstream_new config) v = (Ok (Ok (app_rules s)), v') ∧
  (stores_built (storage config) = true ∧ app_stores s = stores_named (storage config)) ∧
  (cache_built (Config.cache config) = true ∧
   app_cache s = cache_named (Config.cache config) (cache_limits (app_cache s)) ∧
   ∀ level, val <$> limit_of (cache_limits (app_cache s)) level =
     allowed_bytes (Config.cache config) level) ∧
  (val <$> app_responses s = (λ ttl, ttl * 10 ^ 9) <$> response_ttl (Config.cache config) ∧
   val (app_nonce_ttl s) = nonce_ttl (auth config) * 10 ^ 9 ∧ 0 < nonce_ttl (auth config)) ∧
  (tokens (app_logins s) = tokens_named (jwt (auth config)) ∧
   app_session_seconds s = session_ttl (tokens (app_logins s)) / 10 ^ 9 ∧
   recheck_limit (app_logins s) = default_recheck).
Proof.
  unfold open_state. generalize (open_rules topic host_load host_new upstream_new config) as p. intros p.
  destruct (open_store (storage config)) as [stores|e] eqn:Hs; [|done].
  destruct (open_cache (Config.cache config)) as [opened|e] eqn:Hc; [|done]. cbn.
  rewrite exec_bind.
  destruct (exec p v) as [[[rules|e]|e] v1]; [|by cbn; intros [=]..].
  cbn. intros [= Hf <-]. apply finish_built in Hf as (<- & <- & <- & Hr & Hn & Ht & Hl).
  split; [done|]. split; [by apply open_store_ok|]. split; [by apply open_cache_ok|]. done.
Qed.

(** A backend that was not compiled in, and a level allowed no bytes at all, are refused, and
    storage and the cache are left as they were. *)
Theorem unbuilt_refused (config : Config) drawn (v : Server St) :
  stores_built (storage config) = false ∨ cache_built (Config.cache config) = false ∨
  (∃ level, allowed_bytes (Config.cache config) level = Some 0) →
  ∃ e, exec (open_state config drawn) v = (Ok (Err e), v).
Proof.
  intros Hr. unfold open_state.
  destruct (open_store (storage config)) as [stores|e] eqn:Hs; [|by exists e].
  destruct (open_cache (Config.cache config)) as [opened|e] eqn:Hc; [|by exists e].
  apply open_store_ok in Hs as [Hs _]. apply open_cache_ok in Hc as (Hc & _ & Hl).
  destruct Hr as [?|[?|[level Ha]]]; [congruence..|]. specialize (Hl level). rewrite Ha in Hl.
  destruct (limit_of _ level) as [limit|]; [|done]. injection Hl as Hl. pose proof (max_bytes_pos limit). lia.
Qed.
End open.

(** ** Sample values *)

Module OpenSample.
Import SampleCrypto SampleChrono StoreSample Memory FeedSample Config.ConfigSample.

Definition everything : Features := MkFeatures true true true true.
Definition limited : Config :=
  MkConfig listening (Sqlite #"prism.db") (SledCache #"cache" (Some 60) (Some 4096) None (Some 512))
    (MkAuthConfig (MkJwtConfig #"prism" (MkSecret secret) default_jwt_ttl) default_nonce_ttl)
    (MkTelemetryConfig Info None f64_one) default_usage [draw; llm].
Definition drawn : bytes ID_BYTES := MkRefined (check := check_bytes 16) (repeat 7 16) eq_refl.
Definition open_with (built : Features) : act View (result StartupError AppState) :=
  open_state feed_topic loads (Ok tt) (Ok tt) (λ _, Ok tt) (λ _, Ok tt) (λ _, Ok tt) (λ _, Ok tt)
    (λ _, Ok StoreSample.hash) built limited (Some drawn).

Definition is_open {A} (r : result StorageError (result StartupError A)) : bool :=
  match r with Ok (Ok _) => true | _ => false end.

Lemma opened_as_configured_witness :
  ∃ s v, exec (open_with everything) (held, empty_view) = (Ok (Ok s), v) ∧
  (cache_built everything (Config.cache limited) = true ∧
   app_cache s = cache_named (Config.cache limited) (cache_limits (app_cache s)) ∧
   ∀ level, val <$> limit_of (cache_limits (app_cache s)) level =
     allowed_bytes (Config.cache limited) level).
Proof.
  assert (is_open (exec (open_with everything) (held, empty_view)).1 = true) as Ho by (vm_compute; reflexivity).
  destruct (exec (open_with everything) (held, empty_view)) as [[[s|e]|e] v] eqn:E; [|discriminate Ho..].
  exists s, v. split; [exact eq_refl|].
  apply (opened_as_configured feed_topic loads (Ok tt) (Ok tt) (λ _, Ok tt) (λ _, Ok tt) (λ _, Ok tt)
    (λ _, Ok tt) (λ _, Ok StoreSample.hash) everything limited (Some drawn) (held, empty_view) v s E).
Defined.
End OpenSample.
