(* ===== verification/TenantRoutes.v ===== *)
(** * TenantRoutes: the endpoints that manage tenants

    Models [src/routes/tenant.rs].  The body of a request is taken as deserialized; hashing the
    passphrase and drawing the key are arguments. *)
From S2P Require Import Prelude Text Ident Key Capability LimitCore PluginCore Account Cache Auth.
From S2P Require Import Login Sql Schema Named IdentityStore Workflow LimitStore Publication.
From S2P Require Import Manage Web Feed.

Record NewTenantRequest : Type := MkNewTenantRequest {
  ask_tenant : str; ask_owner : str; ask_passphrase : str
}.
Record TenantView : Type := MkTenantView { view_tenant : str; view_created_at : Timestamp }.
Record CreatedTenant : Type := MkCreatedTenant {
  made_tenant : str; made_owner : str; made_created_at : Timestamp
}.

Section tenant.
Context `{Engine} `{Chrono} `{Crypto} `{SnapshotCodec} {St : Type} `{!Publication St}.
Context (topic : CacheKey).

(** [TenantMgr] is held against an account. *)
Definition tenant_mgr_scope (m : Manager) : CapabilityScope := ScopeUser (mgr_user m).

Definition tenant_mgr_refusal {V} (m : Manager) : act St (option (Response V)) :=
  allowed ← call (manager_allows m TenantMgr (tenant_mgr_scope m));
  answer_with (refusal_of allowed).

(** Whether the caller may see one tenant at all. *)
Definition reaches (m : Manager) (tenant : TenantId) : sql Db bool :=
  allowed ← manager_allows m TenantMgr (tenant_mgr_scope m);
  if (allowed : bool) then pure (Ok true)
  else
    held ← membership (mgr_user m) tenant;
    pure (Ok (match held with Some _ => true | None => false end)).

Definition created_tenant (c : TenantWithOwner) : CreatedTenant :=
  MkCreatedTenant (val (tenant_id (with_tenant c))) (val (user_id (with_owner c)))
    (tenant_created_at (with_tenant c)).
Definition tenant_view (t : Tenant) : TenantView := MkTenantView (val (tenant_id t)) (tenant_created_at t).

Definition create (hash : Passphrase → option PassphraseHash) (drawn : option TnKey)
    (now : Timestamp) (m : Manager) (r : NewTenantRequest) : act St (Response CreatedTenant) :=
  refused ← tenant_mgr_refusal m;
  match refused with
  | Some refusal => answer_with refusal
  | None =>
      match new_ident (ask_tenant r), new_ident (ask_owner r) with
      | Ok tenant, Ok owner =>
          match new_passphrase (ask_passphrase r) with
          | Err _ => answer_with (status UNPROCESSABLE_ENTITY)
          | Ok passphrase =>
              match hash passphrase, drawn with
              | Some passphrase, Some key =>
                  created ← call (user_create now (MkNewTenant tenant key)
                    (MkNewUser owner passphrase Regular) Owner);
                  answer_with (match created with
                               | Ok created => shown CREATED (created_tenant created)
                               | Err e => store_refusal e
                               end)
              | _, _ => answer_with (status INTERNAL_SERVER_ERROR)
              end
          end
      | _, _ => answer_with (status UNPROCESSABLE_ENTITY)
      end
  end.

Definition read (m : Manager) (tenant : str) : act St (Response TenantView) :=
  match new_ident tenant with
  | Err _ => answer_with (status NOT_FOUND)
  | Ok tenant =>
      allowed ← call (reaches m tenant);
      match refusal_of allowed with
      | Some refusal => answer_with refusal
      | None =>
          found ← call (read_tenant tenant);
          answer_with (match found with
                       | Ok (Some tenant) => shown OK (tenant_view tenant)
                       | Ok None => status NOT_FOUND
                       | Err e => store_refusal e
                       end)
      end
  end.

Definition remove (m : Manager) (tenant : str) : act St (Response unit) :=
  refused ← tenant_mgr_refusal m;
  match refused with
  | Some refusal => answer_with refusal
  | None =>
      match new_ident tenant with
      | Err _ => answer_with (status NOT_FOUND)
      | Ok tenant =>
          removed ← call (delete_tenant tenant);
          match removed with
          | Ok _ => _ ← after_change topic; answer_with (status NO_CONTENT)
          | Err e => answer_with (store_refusal e)
          end
      end
  end.
End tenant.
