(* ===== verification/MemberRoutes.v ===== *)
(** * MemberRoutes: who is in a tenant

    Models [src/routes/member.rs]: listing a tenant's members, putting an existing account into
    a tenant and taking one out. *)
From S2P Require Import Prelude Text Ident Key Capability LimitCore PluginCore Account Cache Auth.
From S2P Require Import Sql Schema Named IdentityStore Workflow ListStore Manage Web.

Record MemberView : Type := MkMemberView {
  member_view_user : str; member_view_standing : str; member_view_at : option Timestamp
}.
Record DetachedView : Type := MkDetachedView {
  detached_user : str; detached_tenant : str; detached_revoked : Z
}.

Definition member_view (m : Membership) : MemberView :=
  MkMemberView (val (member_user m)) (api_standing_name (member_standing m)) None.
Definition listed_member (l : Listed Membership) : MemberView :=
  MkMemberView (val (member_user (item l))) (api_standing_name (member_standing (item l)))
    (Some (listed_at l)).
Definition detached_view (r : MemberRemoved) : DetachedView :=
  MkDetachedView (val (member_user (removed_membership r))) (val (member_tenant (removed_membership r)))
    (removed_revoked r).

Section member.
Context `{Engine} `{Chrono} {St : Type}.

Definition user_mgr_refusal {V} (m : Manager) (tenant : TenantId) : act St (option (Response V)) :=
  allowed ← call (manager_allows m UserMgr (ScopeTenant (mgr_user m) tenant));
  answer_with (refusal_of allowed).

Definition list_of_tenant (m : Manager) (tenant : str) (page : Page) : act St (Response (list MemberView)) :=
  match new_ident tenant with
  | Err _ => answer_with (status NOT_FOUND)
  | Ok tenant =>
      refused ← user_mgr_refusal m tenant;
      match refused with
      | Some refusal => answer_with refusal
      | None =>
          found ← call (list_members tenant page);
          answer_with (match found with
                       | Ok members => shown OK (map listed_member members)
                       | Err e => store_refusal e
                       end)
      end
  end.

Definition attach (now : Timestamp) (m : Manager) (tenant user : str) : act St (Response MemberView) :=
  match new_ident tenant, new_ident user with
  | Ok tenant, Ok user =>
      refused ← user_mgr_refusal m tenant;
      match refused with
      | Some refusal => answer_with refusal
      | None =>
          account ← call (read_user user);
          match account with
          | Err e => answer_with (store_refusal e)
          | Ok None => answer_with (status NOT_FOUND)
          | Ok (Some account) =>
              if decide (user_kind account = SystemAdministrator)
              then answer_with
                (said CONFLICT #"a system administrator holds every tenant already and joins none")
              else
                held ← call (membership user tenant);
                match held with
                | Err e => answer_with (store_refusal e)
                | Ok (Some held) =>
                    if decide (member_standing held = Owner)
                    then answer_with (said CONFLICT #"the account owns this tenant")
                    else answer_with (status NO_CONTENT)
                | Ok None =>
                    let joined := MkMembership user tenant OrdinaryMember in
                    attached ← call (IdentityStore.attach now joined);
                    answer_with (match attached with
                                 | Ok _ => shown CREATED (member_view joined)
                                 | Err e => store_refusal e
                                 end)
                end
          end
      end
  | _, _ => answer_with (status NOT_FOUND)
  end.

Definition detach (m : Manager) (tenant user : str) : act St (Response DetachedView) :=
  match new_ident tenant, new_ident user with
  | Ok tenant, Ok user =>
      refused ← user_mgr_refusal m tenant;
      match refused with
      | Some refusal => answer_with refusal
      | None =>
          held ← call (membership user tenant);
          match held with
          | Err e => answer_with (store_refusal e)
          | Ok None => answer_with (status NOT_FOUND)
          | Ok (Some held) =>
              if decide (member_standing held = Owner)
              then answer_with (said CONFLICT #"an owner leaves only with its tenant")
              else
                removed ← call (member_remove user tenant);
                answer_with (match removed with
                             | Ok removed => shown OK (detached_view removed)
                             | Err e => store_refusal e
                             end)
          end
      end
  | _, _ => answer_with (status NOT_FOUND)
  end.
End member.
