(* ===== verification/UserRoutes.v ===== *)
(** * UserRoutes: the endpoints that manage accounts

    Models [src/routes/user.rs].  An account is shown with the tenants the caller manages it in,
    and removed only by a caller that sees all of them. *)
From S2P Require Import Prelude Text Ident Key Capability LimitCore PluginCore Account Cache Auth.
From S2P Require Import Login Sql Schema Named IdentityStore Workflow LimitStore Publication.
From S2P Require Import Manage Web Feed.

Record NewUserRequest : Type := MkNewUserRequest {
  new_user_named : str; new_user_tenant : str; new_user_says : str
}.
Record Attachment : Type := MkAttachment { attached_tenant : str; attached_standing : str }.
Record UserView : Type := MkUserView {
  view_user : str; view_kind : str; view_user_at : Timestamp; view_tenants : list Attachment
}.

Definition kind_name (k : AccountKind) : str :=
  match k with
  | SystemAdministrator => #"system_administrator"
  | Regular => #"regular"
  end.
Definition attachment (m : Membership) : Attachment :=
  MkAttachment (val (member_tenant m)) (api_standing_name (member_standing m)).
Definition user_view (u : User) (shown : list Membership) : UserView :=
  MkUserView (val (user_id u)) (kind_name (user_kind u)) (user_created_at u) (map attachment shown).

(** What one caller may be shown of one account, and how many attachments it has in all. *)
Record Seen : Type := MkSeen { seen_shown : list Membership; seen_attached : nat }.

Section user.
Context `{Engine} `{Chrono} `{Crypto} `{SnapshotCodec} {St : Type} `{!Publication St}.
Context (topic : CacheKey).

Definition user_mgr_scope (m : Manager) (tenant : TenantId) : CapabilityScope :=
  ScopeTenant (mgr_user m) tenant.

(** The loop of [found]: the attachments in a tenant the caller manages users in. *)
Fixpoint managed (m : Manager) (attached : list Membership) : sql Db (list Membership) :=
  match attached with
  | [] => pure (Ok [])
  | held :: attached =>
      allowed ← manager_allows m UserMgr (user_mgr_scope m (member_tenant held));
      others ← managed m attached;
      pure (Ok (if (allowed : bool) then held :: others else others))
  end.

Definition found (m : Manager) (user : UserId) : sql Db (option (User * Seen)) :=
  stored ← read_user user;
  match stored with
  | None => pure (Ok None)
  | Some stored =>
      attached ← memberships_of_user user;
      if is_system_administrator m || bool_decide (mgr_user m = user)
      then pure (Ok (Some (stored, MkSeen attached (length attached))))
      else
        seen ← managed m attached;
        pure (Ok (match seen with
                  | [] => None
                  | _ => Some (stored, MkSeen seen (length attached))
                  end))
  end.

Definition create (hash : Passphrase → option PassphraseHash) (now : Timestamp) (m : Manager)
    (r : NewUserRequest) : act St (Response UserView) :=
  match new_ident (new_user_named r), new_ident (new_user_tenant r) with
  | Ok user, Ok tenant =>
      allowed ← call (manager_allows m UserMgr (user_mgr_scope m tenant));
      match refusal_of allowed with
      | Some refusal => answer_with refusal
      | None =>
          match new_passphrase (new_user_says r) with
          | Err _ => answer_with (status UNPROCESSABLE_ENTITY)
          | Ok passphrase =>
              match hash passphrase with
              | None => answer_with (status INTERNAL_SERVER_ERROR)
              | Some passphrase =>
                  added ← call (member_add now (MkNewUser user passphrase Regular) tenant
                    OrdinaryMember);
                  answer_with (match added with
                               | Ok added =>
                                   shown CREATED (user_view (added_user added) [added_membership added])
                               | Err e => store_refusal e
                               end)
              end
          end
      end
  | _, _ => answer_with (status UNPROCESSABLE_ENTITY)
  end.

Definition read (m : Manager) (user : str) : act St (Response UserView) :=
  match new_ident user with
  | Err _ => answer_with (status NOT_FOUND)
  | Ok user =>
      seen ← call (found m user);
      answer_with (match seen with
                   | Ok (Some (stored, seen)) => shown OK (user_view stored (seen_shown seen))
                   | Ok None => status NOT_FOUND
                   | Err e => store_refusal e
                   end)
  end.

Definition owns (m : Membership) : bool := bool_decide (member_standing m = Owner).

Definition remove (m : Manager) (user : str) : act St (Response unit) :=
  match new_ident user with
  | Err _ => answer_with (status NOT_FOUND)
  | Ok user =>
      if decide (mgr_user m = user)
      then answer_with (said FORBIDDEN #"an account does not remove itself")
      else
        seen ← call (found m user);
        match seen with
        | Err e => answer_with (store_refusal e)
        | Ok None => answer_with (status NOT_FOUND)
        | Ok (Some (stored, seen)) =>
            if decide (user_kind stored = SystemAdministrator)
            then answer_with (said FORBIDDEN #"a system administrator is not removed over the api")
            else if decide (length (seen_shown seen) ≠ seen_attached seen)
            then answer_with (said FORBIDDEN #"the account is in tenants the caller does not manage")
            else
              match List.find owns (seen_shown seen) with
              | Some owned =>
                  answer_with (said CONFLICT
                    (#"the account owns " ++ val (member_tenant owned) ++ #", which must go first"))
              | None =>
                  removed ← call (delete_user user);
                  match removed with
                  | Ok _ => _ ← after_change topic; answer_with (status NO_CONTENT)
                  | Err e => answer_with (store_refusal e)
                  end
              end
        end
  end.
End user.
