(* ===== verification/GrantRoutes.v ===== *)
(** * GrantRoutes: handing capabilities out and taking them back

    Models [src/routes/grant.rs]: the grants a member holds inside a tenant, set by whoever
    administers the tenant, and those held against an account, set by the system administrator. *)
From S2P Require Import Prelude Text Ident Key Capability LimitCore PluginCore Account Cache Auth.
From S2P Require Import Sql Schema Named IdentityStore ListStore Manage Web.

Record GrantView : Type := MkGrantView {
  grant_view_capability : str; grant_view_api : option str; grant_view_at : option Timestamp
}.
Definition grant_view (g : Grant) : GrantView :=
  MkGrantView (api_capability_name (grant_capability g)) (val <$> scope_api (grant_scope g)) None.
Definition listed_view (l : Listed Grant) : GrantView :=
  MkGrantView (grant_view_capability (grant_view (item l))) (grant_view_api (grant_view (item l)))
    (Some (listed_at l)).

(** Which grant a request names. *)
Record NamedBy : Type := MkNamedBy { by_tenant : TenantId; by_user : UserId; by_grant : Grant }.

(** [named]: a path whose parts do not fit together is refused. *)
Definition named {V} (tenant user capability : str) (api : option str)
    : result (Response V) NamedBy :=
  match new_ident tenant, new_ident user with
  | Ok tenant, Ok user =>
      match capability_named capability with
      | None => Err (status NOT_FOUND)
      | Some capability =>
          scope ← match api with
                  | None => Ok (ScopeTenant user tenant)
                  | Some api =>
                      match new_ident api with
                      | Ok api => Ok (ScopeApi user tenant api)
                      | Err _ => Err (status NOT_FOUND)
                      end
                  end;
          grant ← map_err unprocessable (new_grant capability scope);
          Ok (MkNamedBy tenant user grant)
      end
  | _, _ => Err (status NOT_FOUND)
  end.

(** The grants that rest on the one named, in the order a [HashSet] would be read. *)
Definition dependents (revoked : Grant) (held : Grants) : list Grant :=
  filter (λ other, prerequisite (grant_capability other) = Some (grant_capability revoked) ∧
                   grant_scope other = grant_scope revoked) (elements held).

Section grant.
Context `{Engine} `{Chrono} {St : Type}.

(** Whether the caller owns the tenant or is the system administrator. *)
Definition administers (m : Manager) (tenant : TenantId) : sql Db bool :=
  if is_system_administrator m then pure (Ok true)
  else
    held ← membership (mgr_user m) tenant;
    pure (Ok (match held with
              | Some held => bool_decide (member_standing held = Owner)
              | None => false
              end)).

Definition list_in_tenant (m : Manager) (tenant user : str) (page : Page)
    : act St (Response (list GrantView)) :=
  match new_ident tenant, new_ident user with
  | Ok tenant, Ok user =>
      refused ← (if decide (mgr_user m = user) then answer_with None
                 else allowed ← call (administers m tenant); answer_with (refusal_of allowed));
      match refused with
      | Some refusal => answer_with refusal
      | None =>
          found ← call (list_tenant_grants user tenant page);
          answer_with (match found with
                       | Ok grants => shown OK (map listed_view grants)
                       | Err e => store_refusal e
                       end)
      end
  | _, _ => answer_with (status NOT_FOUND)
  end.

(** What the member already holds, once the caller is known to administer the tenant and the
    member to be one grants mean something to. *)
Definition member_grants (m : Manager) (n : NamedBy) : act St (result (Response unit) Grants) :=
  allowed ← call (administers m (by_tenant n));
  match refusal_of allowed with
  | Some refusal => answer_with (Err refusal)
  | None =>
      held ← call (membership (by_user n) (by_tenant n));
      match held with
      | Err e => answer_with (Err (store_refusal e))
      | Ok None => answer_with (Err (status NOT_FOUND))
      | Ok (Some held) =>
          if decide (member_standing held = Owner)
          then answer_with
            (Err (said CONFLICT #"an owner holds every capability in its tenant already"))
          else
            found ← call (grants_in_tenant (by_user n) (by_tenant n));
            answer_with (map_err store_refusal found)
      end
  end.

Definition grant (now : Timestamp) (m : Manager) (n : NamedBy) : act St (Response unit) :=
  held ← member_grants m n;
  match held with
  | Err refusal => answer_with refusal
  | Ok held =>
      match prerequisite (grant_capability (by_grant n)) with
      | Some first =>
          if negb (holds held first (grant_scope (by_grant n)))
          then answer_with (said CONFLICT (#"grant " ++ api_capability_name first ++ #" first"))
          else
            granted ← call (IdentityStore.grant now (by_grant n));
            answer_with (match granted with Ok _ => status NO_CONTENT | Err e => store_refusal e end)
      | None =>
          granted ← call (IdentityStore.grant now (by_grant n));
          answer_with (match granted with Ok _ => status NO_CONTENT | Err e => store_refusal e end)
      end
  end.

Definition revoke (m : Manager) (n : NamedBy) : act St (Response unit) :=
  held ← member_grants m n;
  match held with
  | Err refusal => answer_with refusal
  | Ok held =>
      match dependents (by_grant n) held with
      | dependent :: _ =>
          answer_with (said CONFLICT
            (#"revoke " ++ api_capability_name (grant_capability dependent) ++ #" first"))
      | [] =>
          revoked ← call (IdentityStore.revoke (by_grant n));
          answer_with (match revoked with Ok _ => status NO_CONTENT | Err e => store_refusal e end)
      end
  end.

(** [grant_in_tenant], [grant_on_api], [revoke_in_tenant] and [revoke_on_api]. *)
Definition grant_at (now : Timestamp) (m : Manager) (tenant user capability : str)
    (api : option str) : act St (Response unit) :=
  match named tenant user capability api with
  | Ok n => grant now m n
  | Err refusal => answer_with refusal
  end.
Definition revoke_at (m : Manager) (tenant user capability : str) (api : option str)
    : act St (Response unit) :=
  match named tenant user capability api with
  | Ok n => revoke m n
  | Err refusal => answer_with refusal
  end.

(** ** Against an account *)

Definition list_on_account (m : Manager) (user : str) (page : Page)
    : act St (Response (list GrantView)) :=
  match new_ident user with
  | Err _ => answer_with (status NOT_FOUND)
  | Ok user =>
      if negb (is_system_administrator m) && bool_decide (mgr_user m ≠ user)
      then answer_with (status FORBIDDEN)
      else
        found ← call (list_account_grants user page);
        answer_with (match found with
                     | Ok grants => shown OK (map listed_view grants)
                     | Err e => store_refusal e
                     end)
  end.

Definition account_grant (m : Manager) (user capability : str)
    : act St (result (Response unit) Grant) :=
  if negb (is_system_administrator m) then answer_with (Err (status FORBIDDEN))
  else
    match new_ident user, capability_named capability with
    | Ok user, Some capability =>
        match new_grant capability (ScopeUser user) with
        | Err e => answer_with (Err (unprocessable e))
        | Ok grant =>
            account ← call (read_user user);
            answer_with (match account with
                         | Err e => Err (store_refusal e)
                         | Ok None => Err (status NOT_FOUND)
                         | Ok (Some account) =>
                             if decide (user_kind account = SystemAdministrator)
                             then Err (said CONFLICT
                               #"a system administrator holds every capability already")
                             else Ok grant
                         end)
        end
    | _, _ => answer_with (Err (status NOT_FOUND))
    end.

Definition grant_on_account (now : Timestamp) (m : Manager) (user capability : str)
    : act St (Response unit) :=
  named ← account_grant m user capability;
  match named with
  | Err refusal => answer_with refusal
  | Ok g =>
      granted ← call (IdentityStore.grant now g);
      answer_with (match granted with Ok _ => status NO_CONTENT | Err e => store_refusal e end)
  end.

Definition revoke_on_account (m : Manager) (user capability : str) : act St (Response unit) :=
  named ← account_grant m user capability;
  match named with
  | Err refusal => answer_with refusal
  | Ok g =>
      revoked ← call (IdentityStore.revoke g);
      answer_with (match revoked with Ok _ => status NO_CONTENT | Err e => store_refusal e end)
  end.
End grant.
