(* ===== verification/RouteRoutes.v ===== *)
(** * RouteRoutes: the endpoints that manage routing rules

    Models [src/routes/route.rs].  Rules are global, so only the system administrator manages
    them; the rules of the configuration file are an argument.  A body is what reading it as
    json came to: the value, or the status the rejection answers. *)
From S2P Require Import Prelude Text Ident Key Capability Route LimitCore PluginCore Account Cache.
From S2P Require Import Sql Schema Named IdentityStore RouteStore LimitStore ListStore Publication.
From S2P Require Import Manage Web Feed.

Record RouteView : Type := MkRouteView {
  route_source : str; route_shadowed : bool; route_view_at : option Timestamp; route_viewed : RouteRule
}.

(** Whether one of these rules routes the key. *)
Definition claims (rules : list RouteRule) (key : RouteKey) : bool :=
  existsb (λ rule, bool_decide (rule_key rule = key)) rules.

Definition configured_view (rule : RouteRule) : RouteView := MkRouteView #"config" false None rule.
Definition stored_view (configured : list RouteRule) (l : Listed RouteRule) : RouteView :=
  MkRouteView #"stored" (claims configured (rule_key (item l))) (Some (listed_at l)) (item l).

Section route.
Context `{Engine} `{Chrono} `{Crypto} `{SnapshotCodec} {St : Type} `{!Publication St}.
Context (topic : CacheKey) (configured : list RouteRule).

(** The configured rules of a page, and the page of stored rules behind them when it has room. *)
Definition configured_page (page : Page) : list RouteRule :=
  match page_after page with Some _ => [] | None => configured end.
Definition route_views (page : Page) : list RouteView :=
  map configured_view
    (take (Z.to_nat (page_limit page)) (drop (Z.to_nat (page_offset page)) (configured_page page))).
Definition stored_page (page : Page) : option Page :=
  let room := page_limit page - Z.of_nat (length (route_views page)) in
  if room =? 0 then None
  else
    let skipped := Z.max 0 (page_offset page - Z.of_nat (length (configured_page page))) in
    Some (new_page (default u32_max (try_unsigned u32_max room))
            (default u32_max (try_unsigned u32_max skipped)) (page_after page)).

Definition list_all (m : Manager) (page : Page) : act St (Response (list RouteView)) :=
  if negb (is_system_administrator m) then answer_with (status FORBIDDEN)
  else
    match stored_page page with
    | None => answer_with (shown OK (route_views page))
    | Some rest =>
        stored ← call (list_routes rest);
        answer_with (match stored with
                     | Ok stored => shown OK (route_views page ++ map (stored_view configured) stored)
                     | Err e => store_refusal e
                     end)
    end.

Definition put (now : Timestamp) (m : Manager) (body : result Z RouteRule) : act St (Response unit) :=
  if negb (is_system_administrator m) then answer_with (status FORBIDDEN)
  else
    match body with
    | Err rejection => answer_with (status rejection)
    | Ok rule =>
        let path := path (key_endpoint (rule_key rule)) in
        if is_reserved path
        then answer_with (said UNPROCESSABLE_ENTITY (val path ++ #" belongs to the gateway itself"))
        else if claims configured (rule_key rule)
        then answer_with (said CONFLICT
          (#"the configuration routes " ++ show_endpoint (key_endpoint (rule_key rule)) ++ #" already"))
        else
          stored ← call (put_route now rule);
          match stored with
          | Ok _ => _ ← after_change topic; answer_with (status NO_CONTENT)
          | Err e => answer_with (store_refusal e)
          end
    end.

Definition remove (m : Manager) (body : result Z RouteKey) : act St (Response unit) :=
  if negb (is_system_administrator m) then answer_with (status FORBIDDEN)
  else
    match body with
    | Err rejection => answer_with (status rejection)
    | Ok key =>
        removed ← call (remove_route key);
        match removed with
        | Ok _ => _ ← after_change topic; answer_with (status NO_CONTENT)
        | Err e => answer_with (store_refusal e)
        end
    end.
End route.
