(* ===== verification/LimitRoutes.v ===== *)
(** * LimitRoutes: the endpoints that manage limits

    Models [src/routes/limit.rs].  A limit over a whole tenant is the system administrator's to
    set; a tenant's owner sets those that name an account, inside its own tenant.  A body is
    what reading it as json came to: the value, or the status the rejection answers. *)
From S2P Require Import Prelude Text Ident Key Capability LimitCore PluginCore Account Cache Auth.
From S2P Require Import Limiter Sql Schema Named IdentityStore LimitStore ListStore Publication.
From S2P Require Import Manage Web Feed.

Record LimitView : Type := MkLimitView {
  lv_tenant : str; lv_user : option str; lv_api : option str; lv_counted : Counted;
  lv_period : Period; lv_allowance : Z; lv_at : Timestamp
}.
Definition limit_view (l : Limit) : LimitView :=
  MkLimitView (val (limit_tenant (scope l))) (val <$> limit_user (scope l)) (val <$> limit_api (scope l))
    (counted l) (period l) (val (allowance l)) (created_at l).

(** A limit as a caller sets it, and as it names one to remove. *)
Record Setting : Type := MkSetting {
  set_tenant : str; set_user : option str; set_api : option str; set_counted : Counted;
  set_period : Period; set_allowance : option Z
}.

(** [map(T::new).transpose()]. *)
Definition new_optional {kind} (raw : option str) : result CoreError (option (ident kind)) :=
  match raw with
  | Some raw => i ← new_ident raw; Ok (Some i)
  | None => Ok None
  end.

(** [Setting::scope]. *)
Definition setting_scope {V} (s : Setting) : result (Response V) LimitScope :=
  tenant ← map_err unprocessable (new_ident (set_tenant s));
  user ← map_err unprocessable (new_optional (set_user s));
  api ← map_err unprocessable (new_optional (set_api s));
  Ok (MkScope tenant user api).

(** The limit a body names, and the scope it applies to. *)
Definition named_setting {V} (body : result Z Setting) : result (Response V) (Setting * LimitScope) :=
  match body with
  | Err rejection => Err (status rejection)
  | Ok setting => scope ← setting_scope setting; Ok (setting, scope)
  end.

Definition owns (m : Membership) : bool := bool_decide (member_standing m = Owner).

Section limit.
Context `{Engine} `{Chrono} `{Crypto} `{SnapshotCodec} {St : Type} `{!Publication St}.
Context (topic : CacheKey).

(** The tenant this caller owns, or a refusal when it owns none. *)
Definition owned_by {V} (m : Manager) : act St (result (Response V) TenantId) :=
  memberships ← call (memberships_of_user (mgr_user m));
  answer_with (match memberships with
               | Err e => Err (store_refusal e)
               | Ok memberships =>
                   match List.find owns memberships with
                   | Some held => Ok (member_tenant held)
                   | None => Err (status FORBIDDEN)
                   end
               end).

(** Which tenant this caller may read, or none for every tenant. *)
Definition reading {V} (m : Manager) (named : option TenantId)
    : act St (result (Response V) (option TenantId)) :=
  if is_system_administrator m then answer_with (Ok named)
  else
    owned ← owned_by m;
    answer_with (match owned with
                 | Err refusal => Err refusal
                 | Ok owned =>
                     match named with
                     | Some named => if decide (named ≠ owned) then Err (status FORBIDDEN)
                                     else Ok (Some owned)
                     | None => Ok (Some owned)
                     end
                 end).

(** Whether this caller may set the limit on the scope. *)
Definition may_set {V} (m : Manager) (s : LimitScope) : act St (result (Response V) unit) :=
  if is_system_administrator m then answer_with (Ok tt)
  else
    match limit_user s with
    | None => answer_with (Err (said FORBIDDEN
        #"a limit over a whole tenant is the system administrator's to set"))
    | Some _ =>
        owned ← owned_by m;
        answer_with (match owned with
                     | Err refusal => Err refusal
                     | Ok owned => if decide (owned = limit_tenant s) then Ok tt
                                   else Err (status FORBIDDEN)
                     end)
    end.

Definition list_limits_of (m : Manager) (tenant : option str) (page : Page)
    : act St (Response (list LimitView)) :=
  match new_optional tenant with
  | Err e => answer_with (unprocessable e)
  | Ok named =>
      read ← reading m named;
      match read with
      | Err refusal => answer_with refusal
      | Ok read =>
          listed ← call (list_limits read page);
          answer_with (match listed with
                       | Ok listed => shown OK (map limit_view listed)
                       | Err e => store_refusal e
                       end)
      end
  end.

Definition put (now : Timestamp) (m : Manager) (body : result Z Setting) : act St (Response LimitView) :=
  match named_setting body with
  | Err refusal => answer_with refusal
  | Ok (setting, s) =>
      may ← may_set m s;
      match may with
      | Err refusal => answer_with refusal
      | Ok _ =>
          match set_allowance setting with
          | None => answer_with (said UNPROCESSABLE_ENTITY #"a limit says how much it allows")
          | Some allowance =>
              match new_allowance allowance with
              | Err e => answer_with (unprocessable e)
              | Ok allowance =>
                  stored ← call (put_limit now
                    (MkNewLimit s (set_counted setting) (set_period setting) allowance));
                  match stored with
                  | Ok l => _ ← after_change topic; answer_with (shown CREATED (limit_view l))
                  | Err e => answer_with (store_refusal e)
                  end
              end
          end
      end
  end.

Definition remove (m : Manager) (body : result Z Setting) : act St (Response unit) :=
  match named_setting body with
  | Err refusal => answer_with refusal
  | Ok (setting, s) =>
      may ← may_set m s;
      match may with
      | Err refusal => answer_with refusal
      | Ok _ =>
          removed ← call (remove_limit s (set_counted setting) (set_period setting));
          match removed with
          | Ok _ => _ ← after_change topic; answer_with (status NO_CONTENT)
          | Err e => answer_with (store_refusal e)
          end
      end
  end.
End limit.
