(* ===== verification/PluginRoutes.v ===== *)
(** * PluginRoutes: the endpoints that manage plugins and the chains they run in

    Models [src/routes/plugin.rs].  Who calls decides whose plugins and which chain: the system
    administrator's are the global ones, a tenant owner's its tenant's.  Compiling uploaded wasm
    in a host of its own is an argument: it loads, it is refused with a reason, or the check
    itself did not finish.  A body is what reading it as json came to. *)
From S2P Require Import Prelude Text Ident Key Capability LimitCore PluginCore Account Cache Auth.
From S2P Require Import Sql Schema Named IdentityStore PluginStore LimitStore ListStore Publication.
From S2P Require Import Manage Web Feed LimitRoutes.

Record PluginView : Type := MkPluginView {
  pv_checksum : str; pv_kind : str; pv_size : Z; pv_at : Timestamp
}.
Record RuleView : Type := MkRuleView {
  rv_checksum : str; rv_kind : str; rv_order : Z; rv_user : option str; rv_api : option str;
  rv_at : option Timestamp
}.
(** Where a plugin is placed in the caller's chain. *)
Record Placement : Type := MkPlacement {
  pm_checksum : str; pm_order : PluginOrder; pm_user : option str; pm_api : option str
}.

Section views.
Context `{Crypto}.
Definition plugin_view (r : PluginRecord) : PluginView :=
  MkPluginView (plugin_hex (plugin_checksum r)) (kind_name (plugin_kind r)) (plugin_length r)
    (plugin_created_at r).
Definition listed_plugin (l : Listed PluginRecord) : PluginView :=
  let view := plugin_view (item l) in
  MkPluginView (pv_checksum view) (pv_kind view) (pv_size view) (listed_at l).
Definition rule_view (r : PluginRule) : RuleView :=
  let '(user, api) := match rule_scope r with
                      | GlobalScope => (None, None)
                      | TenantScope _ user api => (val <$> user, val <$> api)
                      end in
  MkRuleView (plugin_hex (rule_checksum r)) (kind_name (rule_kind r)) (val (rule_order r)) user api None.
Definition listed_rule (l : Listed PluginRule) : RuleView :=
  let view := rule_view (item l) in
  MkRuleView (rv_checksum view) (rv_kind view) (rv_order view) (rv_user view) (rv_api view)
    (Some (listed_at l)).
End views.

(** A plugin the caller's chain does not own reads as one that is not there. *)
Definition unknown_plugin {V} : Response V :=
  said UNPROCESSABLE_ENTITY #"your chain holds no plugin under that checksum".

Section plugin.
Context `{Engine} `{Chrono} `{Crypto} `{SnapshotCodec} {St : Type} `{!Publication St}.
Context (topic : CacheKey) (compile : list Z → result (option str) unit).

(** Whose plugins the caller manages, or what it is told when it manages none. *)
Definition owner_of {V} (m : Manager) : act St (result (Response V) PluginOwner) :=
  if is_system_administrator m then answer_with (Ok GlobalOwner)
  else
    memberships ← call (memberships_of_user (mgr_user m));
    answer_with (match memberships with
                 | Err e => Err (store_refusal e)
                 | Ok memberships =>
                     match List.find owns memberships with
                     | Some held => Ok (TenantOwner (member_tenant held))
                     | None => Err (status FORBIDDEN)
                     end
                 end).

Definition compile_refusal {V} (wasm : list Z) : option (Response V) :=
  match compile wasm with
  | Ok _ => None
  | Err (Some error) => Some (said UNPROCESSABLE_ENTITY error)
  | Err None => Some (status INTERNAL_SERVER_ERROR)
  end.

Definition list_plugins_of (m : Manager) (page : Page) : act St (Response (list PluginView)) :=
  owner ← owner_of m;
  match owner with
  | Err refusal => answer_with refusal
  | Ok owner =>
      listed ← call (list_plugins owner page);
      answer_with (match listed with
                   | Ok listed => shown OK (map listed_plugin listed)
                   | Err e => store_refusal e
                   end)
  end.

Definition upload (now : Timestamp) (m : Manager) (kind : option str) (wasm : list Z)
    : act St (Response PluginView) :=
  owner ← owner_of m;
  match owner with
  | Err refusal => answer_with refusal
  | Ok owner =>
      match kind_from_str <$> kind with
      | Some (Ok kind) =>
          match compile_refusal wasm with
          | Some refusal => answer_with refusal
          | None =>
              stored ← call (put_plugin now (MkNewPlugin kind wasm owner));
              answer_with (match stored with
                           | Ok record => shown CREATED (plugin_view record)
                           | Err e => store_refusal e
                           end)
          end
      | _ => answer_with (said UNPROCESSABLE_ENTITY #"name the plugin's kind as ?kind=")
      end
  end.

Definition disown (m : Manager) (checksum : str) : act St (Response unit) :=
  owner ← owner_of m;
  match owner with
  | Err refusal => answer_with refusal
  | Ok owner =>
      match Checksum_from_hex checksum with
      | Err _ => answer_with (status NOT_FOUND)
      | Ok checksum =>
          disowned ← call (disown_plugin checksum owner);
          answer_with (match disowned with
                       | Ok _ => status NO_CONTENT
                       | Err e => store_refusal e
                       end)
      end
  end.

Definition list_rules_of (m : Manager) (page : Page) : act St (Response (list RuleView)) :=
  owner ← owner_of m;
  match owner with
  | Err refusal => answer_with refusal
  | Ok owner =>
      listed ← call (list_rules (owner_tenant owner) page);
      answer_with (match listed with
                   | Ok listed => shown OK (map listed_rule listed)
                   | Err e => store_refusal e
                   end)
  end.

(** The scope a placement means in the owner's chain. *)
Definition placement_scope {V} (owner : PluginOwner) (p : Placement)
    : act St (result (Response V) PluginScope) :=
  match owner with
  | GlobalOwner =>
      match pm_user p, pm_api p with
      | None, None => answer_with (Ok GlobalScope)
      | _, _ => answer_with (Err (said UNPROCESSABLE_ENTITY
          #"a global rule runs for every flow, so it names no user and no api"))
      end
  | TenantOwner tenant =>
      match new_optional (pm_user p), new_optional (pm_api p) with
      | Ok user, Ok api =>
          match user with
          | None => answer_with (Ok (TenantScope tenant user api))
          | Some named =>
              held ← call (membership named tenant);
              answer_with (match held with
                           | Ok (Some _) => Ok (TenantScope tenant user api)
                           | Ok None => Err (said UNPROCESSABLE_ENTITY
                               (val named ++ #" is not in " ++ val tenant))
                           | Err e => Err (store_refusal e)
                           end)
          end
      | _, _ => answer_with (Err (status UNPROCESSABLE_ENTITY))
      end
  end.

Definition place_rule (now : Timestamp) (m : Manager) (body : result Z Placement)
    : act St (Response RuleView) :=
  owner ← owner_of m;
  match owner with
  | Err refusal => answer_with refusal
  | Ok owner =>
      match body with
      | Err rejection => answer_with (status rejection)
      | Ok placement =>
          scope ← placement_scope owner placement;
          match scope with
          | Err refusal => answer_with refusal
          | Ok scope =>
              match Checksum_from_hex (pm_checksum placement) with
              | Err _ => answer_with unknown_plugin
              | Ok checksum =>
                  match new_plugin_rule checksum (pm_order placement) scope with
                  | Err e => answer_with (unprocessable e)
                  | Ok rule =>
                      placed ← call (put_rule now rule);
                      match placed with
                      | Ok placed => _ ← after_change topic; answer_with (shown CREATED (rule_view placed))
                      | Err (NotFound EPlugin) => answer_with unknown_plugin
                      | Err e => answer_with (store_refusal e)
                      end
                  end
              end
          end
      end
  end.

Definition remove_rule_at (m : Manager) (kind : str) (order : PluginOrder) : act St (Response unit) :=
  owner ← owner_of m;
  match owner with
  | Err refusal => answer_with refusal
  | Ok owner =>
      match kind_from_str kind with
      | Err _ => answer_with (status NOT_FOUND)
      | Ok kind =>
          removed ← call (remove_rule (owner_tenant owner) kind order);
          match removed with
          | Ok _ => _ ← after_change topic; answer_with (status NO_CONTENT)
          | Err e => answer_with (store_refusal e)
          end
      end
  end.
End plugin.
