(* ===== verification/UsageRoutes.v ===== *)
(** * UsageRoutes: reading what was spent

    Models [src/routes/usage.rs]: the system administrator reads every tenant's usage, anyone
    else that of the tenant it names and observes. *)
From S2P Require Import Prelude Text Ident Key Capability Route LimitCore PluginCore Account Cache.
From S2P Require Import Limiter Recorder Sql Schema Named IdentityStore LimitStore ListStore.
From S2P Require Import Manage Web LimitRoutes.

Record UsageView : Type := MkUsageView {
  uv_trace : str; uv_turn : option str; uv_tenant : str; uv_user : str; uv_api : str;
  uv_model : option str; uv_input : Z; uv_output : Z; uv_served : Served; uv_served_by : option str;
  uv_latency : Z; uv_at : Timestamp
}.
Definition usage_view `{Crypto} (u : Usage) : UsageView :=
  let n := usage_new u in
  MkUsageView (hex_encode (val (u_trace n))) (val <$> u_turn n) (val (u_tenant n)) (val (u_user n))
    (val (u_api n)) (val <$> u_model n) (val (tokens_input (u_tokens n))) (val (tokens_output (u_tokens n)))
    (u_served n) (show_replica <$> u_served_by n) (u_latency n) (usage_at u).

(** What a caller narrows the list to. *)
Record Narrowing : Type := MkNarrowing {
  by_tenant : option str; by_user : option str; by_api : option str
}.

Section usage.
Context `{Engine} `{Chrono} `{Crypto} {St : Type}.

(** What this caller may read, narrowed by what it asked for. *)
Definition filter_for {V} (m : Manager) (n : Narrowing) : act St (result (Response V) UsageFilter) :=
  match (tenant ← map_err unprocessable (new_optional (by_tenant n));
         user ← map_err unprocessable (new_optional (by_user n));
         api ← map_err unprocessable (new_optional (by_api n));
         Ok (MkUsageFilter tenant user api)) with
  | Err refusal => answer_with (Err refusal)
  | Ok f =>
      if is_system_administrator m then answer_with (Ok f)
      else
        match filter_tenant f with
        | None => answer_with (Err (said UNPROCESSABLE_ENTITY #"name the tenant to read the usage of"))
        | Some named =>
            allowed ← call (manager_allows m Observer (ScopeTenant (mgr_user m) named));
            answer_with (match refusal_of allowed with
                         | Some refusal => Err refusal
                         | None => Ok f
                         end)
        end
  end.

Definition list_usage_of (m : Manager) (n : Narrowing) (page : Page) : act St (Response (list UsageView)) :=
  f ← filter_for m n;
  match f with
  | Err refusal => answer_with refusal
  | Ok f =>
      listed ← call (list_usage f page);
      answer_with (match listed with
                   | Ok listed => shown OK (map usage_view listed)
                   | Err e => store_refusal e
                   end)
  end.
End usage.
