(* ===== verification/KeyRoutes.v ===== *)
(** * KeyRoutes: showing a caller its keys

    Models [src/routes/key.rs].  A key is shown to a session alone, and only once the passphrase
    was given again; a lock reached on the way ends the session.  The handlers write nothing to
    the store, so each is a function of one database and of the cache, at the moment [at_] of the
    server's clock and [now] of the cache's.  A body is what reading it as json came to. *)
From S2P Require Import Prelude Text Ident Key Capability Route LimitCore PluginCore Account Cache.
From S2P Require Import CacheTrait Auth Login RespCache Gate Sql Schema Named IdentityStore Access.
From S2P Require Import Manage Web.

Record UserKeyRequest : Type := MkUserKeyRequest { uk_tenant : str; uk_passphrase : str }.
Record TenantKeyRequest : Type := MkTenantKeyRequest { tk_passphrase : str }.
Record KeyView : Type := MkKeyView { kv_tenant : str; kv_user : option str; kv_key : str }.

Definition SET_COOKIE : str := #"set-cookie".
Definition RETRY_AFTER : str := #"retry-after".
Definition CACHE_CONTROL : str := #"cache-control".

Definition not_for_signed_requests {V} : Web.Response V :=
  said FORBIDDEN #"keys are shown to a logged in session alone".

(** A key as the web ui is handed it, kept out of every cache on the way. *)
Definition shown_key (view : KeyView) : Web.Response KeyView :=
  MkAnswer OK [(CACHE_CONTROL, #"no-store")] (Json view).

Definition owning (m : Membership) : bool := bool_decide (member_standing m = Owner).

Section key.
Context `{Engine} `{Chrono} `{HttpLib} `{Crypto} `{TokenCodec} `{Argon2} {St : Type} `{!Cache St}.
Context (logins : Logins) (d : Db) (at_ now : Z).
#[local] Instance here : Storage := stored_in d.

(** Ends the session a lock was reached in, and says when asking again can work. *)
Definition locked {V} (h : HeaderMap) (s : St) : Web.Response V * St :=
  let s := match token h with
           | None => s
           | Some token =>
               match session_of logins token at_ now s with
               | (Ok session, s) => (end_session session at_ now s).2
               | (Err _, s) => s
               end
           end in
  (MkAnswer TOO_MANY_REQUESTS
     [(SET_COOKIE, clear_cookie); (RETRY_AFTER, dec (whole_seconds (window (recheck_limit logins))))]
     (Said #"too many wrong passphrases; log in again later"), s).

(** Asks the caller for its passphrase again, and answers what it is told when that fails. *)
Definition recheck_refusal {V} (m : Manager) (h : HeaderMap) (passphrase : str) (s : St)
    : option (Web.Response V) * St :=
  match new_passphrase passphrase with
  | Err _ => (Some (Web.status UNPROCESSABLE_ENTITY), s)
  | Ok passphrase =>
      match recheck logins (mgr_user m) passphrase now s with
      | (Ok _, s) => (None, s)
      | (Err RecheckRefused, s) => (Some (said FORBIDDEN #"passphrase does not match"), s)
      | (Err RecheckLocked, s) => let '(r, s) := locked h s in (Some r, s)
      | (Err _, s) => (Some (Web.status INTERNAL_SERVER_ERROR), s)
      end
  end.

(** Shows the caller the key it signs with inside one tenant it is in. *)
Definition user_key (m : Manager) (h : HeaderMap) (body : result Z UserKeyRequest) (s : St)
    : Web.Response KeyView * St :=
  if negb (is_session m) then (not_for_signed_requests, s)
  else
    match body with
    | Err rejection => (Web.status rejection, s)
    | Ok request =>
        match new_ident (uk_tenant request) with
        | Err _ => (Web.status NOT_FOUND, s)
        | Ok tenant =>
            match (exec (membership (mgr_user m) tenant) d).1 with
            | Err e => (store_refusal e, s)
            | Ok None => (Web.status NOT_FOUND, s)
            | Ok (Some _) =>
                match recheck_refusal m h (uk_passphrase request) s with
                | (Some refusal, s) => (refusal, s)
                | (None, s) =>
                    match (exec (read_tenant tenant) d).1 with
                    | Err e => (store_refusal e, s)
                    | Ok None => (Web.status NOT_FOUND, s)
                    | Ok (Some stored) =>
                        (shown_key (MkKeyView (val tenant) (Some (val (mgr_user m)))
                          (hex_encode (val (derive (mgr_user m) (tenant_key stored))))), s)
                    end
                end
            end
        end
    end.

(** Shows a tenant's owner the key of the tenant it owns, which every key in it derives from. *)
Definition owner_key (m : Manager) (h : HeaderMap) (body : result Z TenantKeyRequest) (s : St)
    : Web.Response KeyView * St :=
  if negb (is_session m) then (not_for_signed_requests, s)
  else
    match body with
    | Err rejection => (Web.status rejection, s)
    | Ok request =>
        match (exec (memberships_of_user (mgr_user m)) d).1 with
        | Err e => (store_refusal e, s)
        | Ok memberships =>
            match List.find owning memberships with
            | None => (Web.status FORBIDDEN, s)
            | Some owned =>
                match recheck_refusal m h (tk_passphrase request) s with
                | (Some refusal, s) => (refusal, s)
                | (None, s) =>
                    match (exec (read_tenant (member_tenant owned)) d).1 with
                    | Err e => (store_refusal e, s)
                    | Ok None => (Web.status NOT_FOUND, s)
                    | Ok (Some stored) =>
                        (shown_key (MkKeyView (val (member_tenant owned)) None
                          (TnKey_to_hex (tenant_key stored))), s)
                    end
                end
            end
        end
    end.
End key.
