(* ===== verification/Front.v ===== *)
(** * Front: the endpoints a server answers by itself, and the way to all others

    Models the handlers of [src/routes/mod.rs]: logging in and out, who the session belongs to,
    who signed a request, and [proxy], which carries everything that is not the server's own
    through the gateway.  [traced] and the router's table are axum's. *)
From S2P Require Import Prelude Text Ident Key Capability Route Dispatch Table LimitCore Limiter.
From S2P Require Import PluginCore Account Cache CacheTrait Auth Login Sse RespCache Chains Measure.
From S2P Require Import Gate Recorder Flow Sql Schema Named IdentityStore Access Manage Web KeyRoutes.

Record Credentials : Type := MkCredentials { cred_user : str; cred_passphrase : str }.

(** ** Sessions *)
Section sessions.
Context `{Engine} `{Chrono} `{HttpLib} `{Crypto} `{TokenCodec} `{Argon2} {St : Type} `{!Cache St}.
Context (logins : Logins) (session_seconds : Z).

(** [login], with what the session's id is drawn from. *)
Definition login (d : Db) (at_ : Z) (drawn : option (bytes ID_BYTES)) (c : Credentials)
    : Web.Response unit :=
  match (user ← ok (new_ident (cred_user c));
         passphrase ← ok (new_passphrase (cred_passphrase c));
         ok (log_in (H2 := stored_in d) logins user passphrase at_ drawn)) with
  | None => Web.status UNAUTHORIZED
  | Some token => MkAnswer NO_CONTENT [(SET_COOKIE, set_cookie token session_seconds)] NoBody
  end.

(** [logout]. *)
Definition logout (h : HeaderMap) (at_ now : Z) (s : St) : Web.Response unit * St :=
  if is_empty (get_all h CSRF_HEADER) then (Web.status FORBIDDEN, s)
  else
    match token h with
    | None => (Web.status UNAUTHORIZED, s)
    | Some token =>
        match session_of logins token at_ now s with
        | (Err _, s) => (Web.status UNAUTHORIZED, s)
        | (Ok session, s) =>
            match end_session session at_ now s with
            | (Err _, s) => (Web.status INTERNAL_SERVER_ERROR, s)
            | (Ok _, s) => (MkAnswer NO_CONTENT [(SET_COOKIE, clear_cookie)] NoBody, s)
            end
        end
    end.
End sessions.

(** What a page draws its menu from. *)
Record Reach : Type := MkReach {
  reach_tenant : str; reach_standing : str; reach_capabilities : list str
}.
Record Whose : Type := MkWhose {
  whose_user : str; whose_system_administrator : bool; whose_tenants : list Reach
}.

Section session.
Context `{Engine} `{Chrono} {St : Type}.

(** The inner loop: what the caller holds in one tenant, of the capabilities left to ask about. *)
Fixpoint held_in (m : Manager) (tenant : TenantId) (asked : list Capability) : sql Db (list str) :=
  match asked with
  | [] => pure (Ok [])
  | capability :: asked =>
      allowed ← manager_allows m capability (ScopeTenant (mgr_user m) tenant);
      others ← held_in m tenant asked;
      pure (Ok (if (allowed : bool) then api_capability_name capability :: others else others))
  end.

(** The outer loop, over the caller's attachments. *)
Fixpoint reaching (m : Manager) (attached : list Membership) : sql Db (list Reach) :=
  match attached with
  | [] => pure (Ok [])
  | held :: attached =>
      capabilities ← held_in m (member_tenant held) TENANT_CAPABILITIES;
      others ← reaching m attached;
      pure (Ok (MkReach (val (member_tenant held)) (api_standing_name (member_standing held))
                  capabilities :: others))
  end.

(** [session]: any failure of the store is the server's own. *)
Definition session (m : Manager) : act St (Web.Response Whose) :=
  attached ← call (memberships_of_user (mgr_user m));
  match attached with
  | Err _ => answer_with (Web.status INTERNAL_SERVER_ERROR)
  | Ok attached =>
      tenants ← call (reaching m attached);
      answer_with (match tenants with
                   | Err _ => Web.status INTERNAL_SERVER_ERROR
                   | Ok tenants => shown OK
                       (MkWhose (val (mgr_user m)) (is_system_administrator m) tenants)
                   end)
  end.
End session.

(** ** Who signed *)

Definition role_name (r : Role) : str :=
  match r with
  | SysAdmin => #"sysadmin"
  | TenantAdmin _ => #"tenant_admin"
  | Member => #"member"
  end.
Record WhoAmI : Type := MkWhoAmI { am_user : str; am_tenant : str; am_role : str }.
Definition whoami (a : Auth.Authority) : Web.Response WhoAmI :=
  let identity := auth_identity a in
  shown OK (MkWhoAmI (val (who_user identity)) (val (who_tenant identity)) (role_name (who_role identity))).

(** ** The proxy *)

Definition HEADER_TURN : str := #"x-ip-turn".

(** [turn_of]: the turn the caller marked, and the headers without the mark. *)
Definition turn_of `{HttpLib} (h : HeaderMap) : option TurnId * HeaderMap :=
  match get h HEADER_TURN with
  | None => (None, h)
  | Some marked => (to_str marked ≫= λ raw, ok (new_ident raw), h_remove HEADER_TURN h)
  end.

(** What [proxy] answers: what the gateway carried back, or a refusal. *)
Inductive Answered `{HttpLib} : Type :=
  | Carried (r : Leaving)
  | Turned (code : Z) (reason : option str) (retry : option str).

(** [refuse], at the moment it is answered. *)
Definition refuse `{HttpLib} (e : GatewayError) (now : Timestamp) : Answered :=
  Turned (Gate.status e) (public_reason e) (dec <$> retry_after e now).

Section proxy.
Context `{HttpLib} `{Crypto} `{Chrono} `{Measure.Json} `{Storage} {W K C : Type} `{!Cache K} `{!Counters C}.
Context (header_plugin : Processor → HeaderMap → W → result ProcessorError HeaderMap * W).
Context (body_plugin : Processor → Sse.processor W).
Context (upstream : Request → W → result str Gate.Response * W).
Context (into_values : gmap (Counted * Period) Limit → list Limit).
Context (usage_spent : UsageFilter → Counted → Timestamp → result unit Z).
Context (gw : Gateway) (m : Moments) (nonce_ttl : Ttl) (listen : SocketAddr) (trace : TraceId).
#[local] Abbreviation State := (Node (W := W) (K := K) (C := C)).

(** The request as the gateway is handed it, and the context it is handed it in. *)
Definition context_of (a : Auth.Authority) (turn : option TurnId) : RequestContext :=
  MkContext a Http listen trace turn.
Definition into_gateway (p : Parts) (uri : Uri) (h : HeaderMap) (body : GatewayBody) : Request :=
  MkRequest (parts_method p) uri h body.

(** [proxy] with its extractor: authenticated at [now] of the cache's clock, refused at
    [refused] of the server's. *)
Definition proxy (p : Parts) (uri : Uri) (body : GatewayBody) (now : Z) (refused : Timestamp) (n : State)
    : option (Answered * State) :=
  let '(a, p, k) := authenticated nonce_ttl p now (kept n) in
  let n := set_kept n k in
  match a with
  | Err code => Some (Turned code None None, n)
  | Ok authority =>
      let '(turn, h) := turn_of (parts_headers p) in
      match handle header_plugin body_plugin upstream into_values usage_spent gw m
              (context_of authority turn) (into_gateway p uri h body) n with
      | None => None
      | Some (Ok leaving, n) => Some (Carried leaving, n)
      | Some (Err e, n) => Some (refuse e refused, n)
      end
  end.
End proxy.
