(* ===== verification/Caller.v ===== *)
(** * Caller: who an endpoint is called by

    Facts about [Manage] and [Front], put together with the verifier and the logins
    they rest on: what had to be proved for an endpoint to have a caller, that a login opens a
    session a browser can use and a logout closes it, and what reaches the gateway. *)
From S2P Require Import Store Prelude Text Ident Key Capability Route Dispatch Table LimitCore Limiter.
From S2P Require Import PluginCore Account Cache Sled CacheTrait Auth Login Sse RespCache Chains Measure.
From S2P Require Import Gate Recorder Flow Sql Schema Named IdentityStore Access Manage Web KeyRoutes.
From S2P Require Import Front CacheTrait.

(** ** Headers *)

Lemma get_all_removed `{HttpLib} names h name :
  get_all (fold_left (λ h n, h_remove n h) names h) name
  = if decide (name ∈ names) then [] else get_all h name.
Proof.
  revert h. induction names as [|n names IH]; intros h; cbn [fold_left].
  - by rewrite decide_False by apply not_elem_of_nil.
  - rewrite IH, get_all_remove. destruct (decide (name ∈ names)) as [Hin|Hin].
    + rewrite decide_True; [done|]. by apply list_elem_of_further.
    + destruct (decide (name = n)) as [->|Hne].
      * rewrite decide_True; [done|]. apply list_elem_of_here.
      * rewrite decide_False; [done|]. intros [?|?]%elem_of_cons; done.
Qed.

(** The credentials a request was signed with go no further. *)
Lemma consumed `{HttpLib} p name : name ∈ SIGNING → get_all (parts_headers (consume_signing_headers p)) name = [].
Proof. intros Hn. cbn [parts_headers consume_signing_headers]. by rewrite get_all_removed, decide_True. Qed.

Lemma turn_taken `{HttpLib} h name :
  get_all (turn_of h).2 name = if decide (name = HEADER_TURN) then [] else get_all h name.
Proof.
  unfold turn_of, get. destruct (get_all h HEADER_TURN) as [|v l] eqn:E; cbn [head snd].
  - by destruct (decide (name = HEADER_TURN)) as [->|].
  - by rewrite get_all_remove.
Qed.

(** ** What had to be proved *)

Section established.
Context `{HttpLib} `{Crypto} `{TokenCodec} `{Argon2} `{Storage} {St : Type} `{!Cache St}.
Context (nonce_ttl : Ttl) (logins : Logins).

(** A token this server signed, for this session, that has not run out. *)
Definition signed_here (tok : str) (at_ : Z) (who : Session) : Prop :=
  ∃ payload signature claims,
    tok = HEADER ++ #"." ++ payload ++ #"." ++ signature ∧
    base64_decode signature = Some (mac (tokens logins) (as_bytes (HEADER ++ #"." ++ payload))) ∧
    base64_decode payload ≫= claims_from_slice = Some claims ∧
    iss claims = issuer (tokens logins) ∧ seconds_since_epoch at_ < exp claims ∧
    sub claims = val (session_user who) ∧ jti claims = session_id who ∧ exp claims = expires_at who.

Lemma session_of_Ok tok at_ now s who s' :
  cache_ok s → 0 ≤ now → session_of logins tok at_ now s = (Ok who, s') →
  signed_here tok at_ who ∧ ∃ key, ended_key (session_id who) = Ok key ∧ held s now (key_bytes key) = None.
Proof.
  intros Hs Hn. unfold session_of. destruct (verify_at (tokens logins) tok at_) as [x|] eqn:Hv; [|done].
  unfold is_ended. destruct (ended_key (session_id x)) as [key|] eqn:Hk; [|done].
  destruct (cached (k_get key now s)) as [r1 s1] eqn:Hg.
  apply cached_ok in Hg as [[e ->]|(o & Hg & ->)]; [done|]. apply k_get_ok in Hg as (-> & _); [|done..].
  cbn [mbind result_bind]. destruct (held s now (key_bytes key)) eqn:Hh; intros [= <- <-].
  split; [by apply session_authentic|]. eauto.
Qed.

(** C3: an endpoint of the management api has a caller only when one was proved: either the
    request was signed, by a stored member of a stored tenant over an unspent nonce, and the
    signature was taken off it, or it carries the token of a session this server opened, that
    has neither run out nor been ended, together with the header no other site can make a
    browser send if it changes anything; the caller is that user, of the kind its account is
    stored as. *)
Theorem caller_established p at_ now s m p' s' :
  cache_ok s → 0 ≤ now → manager_from nonce_ttl logins p at_ now s = (Ok m, p', s') →
  (∃ stored, store_user (mgr_user m) = Ok (Some stored) ∧ mgr_kind m = user_kind stored) ∧
  match mgr_proof m with
  | BySignature =>
      ∃ r who, signed_request p = Some r ∧ vouched r (origin p) who ∧ mgr_user m = who_user who ∧
        held s now (key_bytes (nonce_key r)) = None ∧
        ∀ name, name ∈ SIGNING → get_all (parts_headers p') name = []
  | BySession =>
      ∃ tok who key, signed_request p = None ∧ token (parts_headers p) = Some tok ∧
        signed_here tok at_ who ∧ mgr_user m = session_user who ∧
        ended_key (session_id who) = Ok key ∧ held s now (key_bytes key) = None ∧
        (changes_something (parts_method p) = true → get_all (parts_headers p) CSRF_HEADER ≠ [])
  end.
Proof.
  intros Hs Hn Hm.
  assert (∀ user proof x, manager_of user proof = Ok x → mgr_user x = user ∧ mgr_proof x = proof ∧
    ∃ stored, store_user (mgr_user x) = Ok (Some stored) ∧ mgr_kind x = user_kind stored) as Hof.
  { intros user proof x. unfold manager_of. destruct (store_user user) as [[stored|]|] eqn:Hu; try done.
    intros [= <-]. cbn. rewrite (store_user_id _ _ Hu). eauto. }
  unfold manager_from in Hm. destruct (signed_request p) as [r|] eqn:Hr.
  - destruct (verify _ _ _ _ _) as [[who|] s1] eqn:Hv; [|done].
    apply verify_Ok in Hv as [He Hsp]. injection Hm as Hm <- <-.
    destruct (Hof _ _ _ Hm) as (Hu & -> & Hst). split; [done|].
    exists r, who. split; [done|]. split; [by apply established_ok|]. split; [done|].
    apply spend_ok in Hsp as [[e ?]|(Hres & _ & _)]; [done| |done..].
    split; [by case_bool_decide|]. intros name Hin. by apply consumed.
  - destruct (token (parts_headers p)) as [tok|] eqn:Ht; [|done].
    destruct (session_of _ _ _ _ _) as [[who|] s1] eqn:Hso; [|done].
    apply session_of_Ok in Hso as (Hsig & key & Hk & Hh); [|done..].
    injection Hm as Hm <- <-. apply bind_ok in Hm as (x & Hx & (? & Hg & [= <-])%bind_ok).
    destruct (Hof _ _ _ Hx) as (Hu & Hp & Hst). split; [done|]. rewrite Hp.
    exists tok, who, key. split_and!; [done..|]. intros Hc. unfold guard_csrf in Hg.
    rewrite Hp, Hc, bool_decide_eq_true_2 in Hg by done.
    by destruct (get_all (parts_headers p) CSRF_HEADER).
Qed.
End established.

(** ** Sessions a browser can use *)

(** The characters a token is made of. *)
Definition token_char (c : char) : bool := url_safe c || (c =? ch ".").

Lemma issued_chars `{Crypto} `{TokenCodec} t user at_ drawn tok :
  issue_at t user at_ drawn = Ok tok → tok ≠ [] ∧ Forall (λ c, token_char c = true) tok.
Proof.
  intros (jti & _ & (bytes & _ & Htok%(inj Ok))%bind_ok)%bind_ok. rewrite <-Htok. split; [done|].
  assert (∀ l, Forall (λ c, token_char c = true) (base64_encode l)) as H64.
  { intros l. eapply Forall_impl; [apply base64_alphabet|]. intros c Hc. unfold token_char. by rewrite Hc. }
  rewrite !Forall_app. split_and!; try apply H64; by_computation.
Qed.

Lemma token_char_plain c :
  token_char c = true → is_whitespace c = false ∧ (ch ";" =? c) = false ∧ (ch "=" =? c) = false.
Proof.
  unfold token_char, url_safe, is_whitespace, is_ascii_alphanumeric, is_ascii_digit, is_ascii_upper,
    is_ascii_lower, in_range. change (ch ".") with 46. change (ch "-") with 45. change (ch "_") with 95.
  change (ch ";") with 59. change (ch "=") with 61. lia.
Qed.

(** What a browser sends back of a [Set-Cookie]: the pair it opens with. *)
Definition sent_back (set : str) : str := default [] (head (split_on (Z.eqb (ch ";")) set)).

Lemma set_cookie_sent_back tok seconds :
  Forall (λ c, token_char c = true) tok → sent_back (set_cookie tok seconds) = NAME ++ #"=" ++ tok.
Proof.
  intros Ht. unfold sent_back, set_cookie, cookie_text. rewrite <-!app_assoc.
  replace (NAME ++ #"=" ++ tok ++ #"; Max-Age=" ++ dec seconds ++ #"; Path=/; HttpOnly; Secure; SameSite=Strict")
    with ((NAME ++ #"=" ++ tok) ++ ch ";" :: (#" Max-Age=" ++ dec seconds ++ #"; Path=/; HttpOnly; Secure; SameSite=Strict"))
    by (rewrite <-!app_assoc; done).
  rewrite split_on_app; [done| |done]. rewrite !Forall_app. split_and!; [by_computation|by_computation|].
  eapply Forall_impl; [exact Ht|]. intros c Hc. by apply token_char_plain in Hc as (_ & ? & _).
Qed.

(** The cookie a login set is the session a request that sends it back carries. *)
Lemma cookie_roundtrip `{HttpLib} h v tok seconds :
  tok ≠ [] → Forall (λ c, token_char c = true) tok →
  get_all h COOKIE = [v] → to_str v = Some (sent_back (set_cookie tok seconds)) → token h = Some tok.
Proof.
  intros Hne Ht Hv Hs. rewrite set_cookie_sent_back in Hs by done. unfold token. rewrite Hv. cbn [mbind list_bind].
  rewrite Hs, app_nil_r.
  rewrite split_on_none; cycle 1.
  { rewrite !Forall_app. split_and!; [by_computation|by_computation|].
    eapply Forall_impl; [exact Ht|]. intros c Hc. by apply token_char_plain in Hc as (_ & ? & _). }
  cbn [omap list_omap]. change (NAME ++ #"=" ++ tok) with (NAME ++ ch "=" :: tok).
  rewrite (proj2 (split_once_Some (ch "=") (NAME ++ ch "=" :: tok) NAME tok))
    by (split; [done|]; by_computation).
  cbn [List.find]. unfold is_session_cookie. cbn [fst].
  rewrite bool_decide_eq_true_2 by (vm_compute; reflexivity). cbn [mbind option_bind snd]. unfold trim.
  rewrite trim_by_none; [by destruct tok|].
  eapply Forall_impl; [exact Ht|]. intros c Hc. by apply token_char_plain in Hc as (? & _).
Qed.

Section sessions.
Context `{Engine} `{Chrono} `{HttpLib} `{Crypto} `{TokenCodec} `{Argon2} {St : Type} `{!Cache St}.
Context (nonce_ttl : Ttl) (logins : Logins) (session_seconds : Z).

(** Where the end of a session with a drawn id is remembered. *)
Definition session_end (id : bytes ID_BYTES) : CacheKey := system_key (ended_id (hex_encode (val id))).
Lemma session_end_key id : ended_key (hex_encode (val id)) = Ok (session_end id).
Proof.
  unfold ended_key. rewrite system_key_new; [done|done|]. apply Forall_app. split; [by_computation|].
  eapply Forall_impl; [apply hex_encode_chars|]. intros x.
  unfold is_ascii_alphanumeric, is_ascii_graphic, is_ascii_digit, is_ascii_upper, is_ascii_lower, in_range. lia.
Qed.

(** C25: a login opens a session a browser can use: when the credentials are those of a stored
    account the answer sets a cookie, and for exactly as long as sessions last, unless it is
    ended, every request that sends that cookie back, with the header a write takes, is a call
    by that account. *)
Theorem login_opens_session d at_ id c set p v later now s :
  login logins session_seconds d at_ (Some id) c = MkAnswer NO_CONTENT [(SET_COOKIE, set)] NoBody →
  signed_request p = None → get_all (parts_headers p) COOKIE = [v] → to_str v = Some (sent_back set) →
  (changes_something (parts_method p) = true → get_all (parts_headers p) CSRF_HEADER ≠ []) →
  seconds_since_epoch later < token_expiry (tokens logins) at_ →
  cache_ok s → 0 ≤ now → held s now (key_bytes (session_end id)) = None →
  is_ok (k_get (session_end id) now s).1 = true →
  ∃ stored s', (exec (read_user (user_id stored)) d).1 = Ok (Some stored) ∧ cred_user c = val (user_id stored) ∧
    (∃ passphrase, new_passphrase (cred_passphrase c) = Ok passphrase ∧
       passphrase_verify passphrase (user_passphrase stored) = Ok true) ∧
    manager_from (H3 := stored_in d) nonce_ttl logins p later now s
    = (Ok (MkManager (user_id stored) (user_kind stored) BySession), p, s').
Proof.
  intros Hlogin Hsigned Hv Hs Hcsrf Hlater Hok Hnow Hfree Hget. unfold login in Hlogin.
  destruct (new_ident (cred_user c)) as [user|] eqn:Hu; [|done]. apply refine_ok in Hu as [_ Hu].
  destruct (new_passphrase (cred_passphrase c)) as [passphrase|] eqn:Hp; [|done].
  cbn [ok mbind option_bind] in Hlogin. destruct (log_in _ _ _ _ _) as [tok|] eqn:Hl; [|done].
  injection Hlogin as <-. unfold log_in in Hl.
  apply bind_ok in Hl as (found & Hf%map_err_ok & (matched & Hm & Hl)%bind_ok).
  destruct found as [stored|]; [|done]. destruct matched; [|done].
  pose proof (store_user_id _ _ Hf) as Hid. exists stored, (k_get (session_end id) now s).2. rewrite Hid.
  split; [done|]. split; [done|]. split; [by exists passphrase|].
  apply issued_chars in Hl as Hchars. destruct Hchars as [Hne Hchars]. rewrite Hid in Hl.
  unfold manager_from. rewrite Hsigned, (cookie_roundtrip _ v tok session_seconds) by done.
  unfold session_of. rewrite (session_roundtrip _ _ _ later _ _ Hl).
  replace (_ <? _) with true by lia. unfold is_ended. cbn [session_id].
  rewrite session_end_key. destruct (k_get (session_end id) now s) as [[o|] s1] eqn:Hg; [|done].
  apply k_get_ok in Hg as (-> & _); [|done..]. rewrite Hfree. cbn [cached fst snd map_err mbind result_bind].
  cbn [session_user]. unfold manager_of. rewrite Hf. cbn [mbind result_bind]. rewrite Hid. unfold guard_csrf. cbn [mgr_proof].
  rewrite bool_decide_eq_true_2 by done. cbn [andb].
  destruct (changes_something _); [|done]. cbn [andb].
  destruct (get_all (parts_headers p) CSRF_HEADER); [by destruct Hcsrf|]. done.
Qed.

(** A token names one session, whenever it is read. *)
Lemma verify_at_same t tok a b x y : verify_at t tok a = Ok x → verify_at t tok b = Ok y → x = y.
Proof.
  unfold verify_at. destruct (split_on _ tok) as [|hd [|payload [|sg [|]]]]; try done.
  destruct (negb _); [done|]. destruct (ok_or _ (base64_decode sg)) as [m|]; cbn [mbind result_bind]; [|done].
  destruct (negb (ct_eq _ _)); [done|]. destruct (ok_or _ _) as [claims|]; cbn [mbind result_bind]; [|done].
  destruct (_ || (_ <=? seconds_since_epoch a)); [done|]. destruct (_ || (_ <=? seconds_since_epoch b)); [done|].
  congruence.
Qed.

End sessions.

(** ** What reaches the gateway *)
Section proxied.
Context `{HttpLib} `{Crypto} `{Chrono} `{Measure.Json} `{Storage} {W K C : Type} `{!Cache K} `{!Counters C}.
Context (header_plugin : Processor → HeaderMap → W → result ProcessorError HeaderMap * W).
Context (body_plugin : Processor → Sse.processor W).
Context (upstream : Request → W → result str Gate.Response * W).
Context (into_values : gmap (Counted * Period) Limit → list Limit).
Context (usage_spent : UsageFilter → Counted → Timestamp → result unit Z).
Context (gw : Gateway) (m : Moments) (nonce_ttl : Ttl) (listen : SocketAddr) (trace : TraceId).

End proxied.

(** ** Sample values *)
Module CallerSample.
Import SampleCrypto SampleChrono LimiterSample AuthSample LoginSample GateSample.
#[local] Existing Instance sqlite.
#[local] Existing Instance MeasureSample.json.

Definition secret_words : Credentials := MkCredentials #"ada" #"correct horse".

(** The tables with one tenant and the account that owns it. *)
Definition owned : Db := (Store.run [Store.CreateTenantWithOwner 1000 (MkNewTenant tenant key)
  (MkNewUser user verifier Regular) Owner] migrated).2.
Definition opened : Web.Response unit := login logins 3600 owned (1000 * ms) (Some drawn) secret_words.
Definition set_by_login : str := default [] (head (sets opened).*2).
Definition cookie_value : HeaderValue := (GateSample.header COOKIE (sent_back set_by_login)).2.
Definition page : Manage.Parts :=
  Manage.MkParts _ #"POST" [(COOKIE, cookie_value); GateSample.header CSRF_HEADER #"1"] None.

Lemma opened_sets :
  opened = MkAnswer NO_CONTENT [(SET_COOKIE, set_by_login)] NoBody.
Proof. vm_compute. reflexivity. Qed.

Lemma login_opens_session_witness :
  ∃ stored s', (exec (read_user (user_id stored)) owned).1 = Ok (Some stored) ∧
    cred_user secret_words = val (user_id stored) ∧
    (∃ passphrase, new_passphrase (cred_passphrase secret_words) = Ok passphrase ∧
       passphrase_verify passphrase (user_passphrase stored) = Ok true) ∧
    manager_from (H3 := stored_in owned) Memory.minute logins page (5000 * ms) 5000 empty_view
    = (Ok (MkManager (user_id stored) (user_kind stored) BySession), page, s').
Proof.
  apply (login_opens_session Memory.minute logins 3600 owned (1000 * ms) drawn secret_words set_by_login
    page cookie_value).
  - exact opened_sets.
  - vm_compute. reflexivity.
  - vm_compute. reflexivity.
  - vm_compute. reflexivity.
  - vm_compute. discriminate.
  - vm_compute. reflexivity.
  - exact I.
  - lia.
  - vm_compute. reflexivity.
  - vm_compute. reflexivity.
Defined.

Definition carried : str := LoginSample.token.
Definition closing : HeaderMap := [(COOKIE, cookie_value); GateSample.header CSRF_HEADER #"1"].
Definition closed : View := (logout logins closing (2000 * ms) 2000 empty_view).2.


Definition by_ada : Manager := MkManager user Regular BySession.
Definition looked_up : View := (manager_from Memory.minute logins page (5000 * ms) 5000 empty_view).2.

Lemma page_called :
  manager_from Memory.minute logins page (5000 * ms) 5000 empty_view = (Ok by_ada, page, looked_up).
Proof.
  assert (signed_request page = None) as E1 by (vm_compute; reflexivity).
  assert (Manage.token (parts_headers page) = Some carried) as E2 by (vm_compute; reflexivity).
  assert ((session_of logins carried (5000 * ms) 5000 empty_view).1 = Ok LoginSample.session) as E3
    by (vm_compute; reflexivity).
  assert (is_empty (get_all (parts_headers page) CSRF_HEADER) = false) as E4 by (vm_compute; reflexivity).
  unfold looked_up, manager_from. rewrite E1, E2.
  destruct (session_of logins carried (5000 * ms) 5000 empty_view) as [r s]. cbn [fst] in E3. rewrite E3.
  unfold manager_of, guard_csrf. cbn [store_user storage]. rewrite decide_True by done.
  cbn [mbind result_bind]. rewrite E4, andb_false_r. reflexivity.
Qed.

Lemma caller_established_witness :
  (∃ stored, store_user (mgr_user by_ada) = Ok (Some stored) ∧ mgr_kind by_ada = user_kind stored) ∧
  ∃ tok who key, signed_request page = None ∧ Manage.token (parts_headers page) = Some tok ∧
    signed_here logins tok (5000 * ms) who ∧ mgr_user by_ada = session_user who ∧
    ended_key (session_id who) = Ok key ∧ held empty_view 5000 (key_bytes key) = None ∧
    (changes_something (parts_method page) = true → get_all (parts_headers page) CSRF_HEADER ≠ []).
Proof.
  apply (caller_established Memory.minute logins page (5000 * ms) 5000 empty_view by_ada page looked_up).
  - exact I.
  - lia.
  - exact page_called.
Defined.

(** The same account, signing a request the gateway has a rule for. *)
Definition mark : str * HeaderValue := GateSample.header HEADER_TURN #"turn-1".
Definition signing : HeaderMap :=
  [GateSample.header HEADER_TENANT (val tenant); GateSample.header HEADER_USER (val user);
   GateSample.header HEADER_NONCE (val nonce);
   GateSample.header HEADER_SIGNATURE (Signature_to_hex (req_signature (signed nonce))); mark].
Definition calling : Manage.Parts := Manage.MkParts _ #"POST" signing (Some home).
Definition proxied : option (Answered * FlowSample.State) :=
  proxy FlowSample.leave_headers FlowSample.leave_body FlowSample.pong LimiterSample.values
    LimiterSample.no_rows (FlowSample.gateway []) (FlowSample.at_moment 1000 1001) Memory.minute
    (MkSocketAddr #"127.0.0.1:8080" 8080) FlowSample.trace calling (r_uri FlowSample.ask)
    (r_body FlowSample.ask) 1000 120 FlowSample.fresh_node.

Lemma proxied_carried : ∃ r n', proxied = Some (Carried r, n').
Proof.
  assert ((match proxied with Some (Carried _, _) => 1 | _ => 0 end) = 1) as Hok by (vm_compute; reflexivity).
  destruct proxied as [[[r|] n']|]; [|done..]. eauto.
Qed.

End CallerSample.
