(* ===== verification/Admin.v ===== *)
(** * Admin: creating the system administrator

    Models [src/admin.rs]: the one account no endpoint creates.  What the terminal or the pipe
    gave is an argument, and so is hashing the passphrase; opening the store is the database the
    program runs on. *)
From S2P Require Import Prelude Text Ident Capability LimitCore Account Auth Login Sql Schema.
From S2P Require Import IdentityStore.

Inductive StartupError : Type :=
  | Usage (detail : str)
  | StartupAuth (e : AuthError)
  | StartupStorage (e : StorageError).

(** [confirmed]: what was typed twice at a terminal. *)
Definition confirmed (first again : str) : result StartupError Passphrase :=
  if negb (bool_decide (first = again)) then Err (Usage #"the passphrases do not match")
  else map_err StartupAuth (new_passphrase first).

(** [read_passphrase]: what was piped in, without the newline a shell ends it with. *)
Definition newline (c : char) : bool := (c =? 13) || (c =? 10).
Definition trim_end_newlines (s : str) : str := reverse (drop_while newline (reverse s)).
Definition read_passphrase (raw : str) : result StartupError Passphrase :=
  map_err StartupAuth (new_passphrase (trim_end_newlines raw)).

Definition create_sysadmin `{Engine} (hash : Passphrase → result AuthError PassphraseHash)
    (now : Timestamp) (user : UserId) (passphrase : Passphrase) : sql Db (result StartupError unit) :=
  match hash passphrase with
  | Err e => pure (Ok (Err (StartupAuth e)))
  | Ok hashed =>
      created ← attempt (create_user now (MkNewUser user hashed SystemAdministrator));
      pure (Ok (match created with Ok _ => Ok tt | Err e => Err (StartupStorage e) end))
  end.
