(* ===== verification/Policy.v ===== *)
(** * Policy: what the management api lets whom do

    The contract of the endpoints of the management api ([TenantRoutes], [UserRoutes],
    [MemberRoutes], [GrantRoutes], [RouteRoutes], [LimitRoutes], [PluginRoutes] and
    [UsageRoutes]) on the named tables: [permits] says which call of the stores a caller may
    cause in which state.  Every run of every endpoint, with any of its statements failing,
    does one permitted call or nothing.  From that, what holds of the tables however the api is
    used: [well_run].

    An endpoint reads and writes in statements of its own, so what is said of one request is
    said of requests that follow one another; what a race can do is shown in [Governed]. *)
From S2P Require Import TenantRoutes UserRoutes MemberRoutes GrantRoutes RouteRoutes LimitRoutes.
From S2P Require Import PluginRoutes UsageRoutes.
From S2P Require Import Prelude Text Ident Key Capability Route LimitCore PluginCore Account.
From S2P Require Import Cache Sled CacheTrait Auth Login Limiter Recorder Sql Schema Integrity.
From S2P Require Import Named IdentityStore IdentitySpec Workflow PluginStore RouteStore LimitStore.
From S2P Require Import ListStore Store Revision Typed Contract Access Publication Manage Web Feed.

(** ** The policy *)

(** The user is in the tenant, with that standing. *)
Definition in_tenant (n : Named) (u : UserId) (t : TenantId) (s : Standing) : Prop :=
  ∃ b, b ∈ n_members n ∧ is_member u t b ∧ nm_standing b = standing_name s.
Definition granted_in (n : Named) (g : Grant) : Prop := names_of_grant g ∈ grant_names <$> n_grants n.
Definition has_kind (n : Named) (u : UserId) (k : AccountKind) : Prop :=
  ∃ b, b ∈ n_users n ∧ nu_id b = val u ∧ nu_kind b = account_kind_name k.

Definition is_admin (m : Manager) : Prop := mgr_kind m = SystemAdministrator.

(** Who manages tenants, who the users of a tenant, and who hands out what in it. *)
Definition manages_tenants (n : Named) (m : Manager) : Prop :=
  is_admin m ∨ granted_in n (MkGrant TenantMgr (ScopeUser (mgr_user m))).
Definition manages_users (n : Named) (m : Manager) (t : TenantId) : Prop :=
  is_admin m ∨ in_tenant n (mgr_user m) t Owner ∨
  (∃ s, in_tenant n (mgr_user m) t s) ∧ granted_in n (MkGrant UserMgr (ScopeTenant (mgr_user m) t)).
Definition administers (n : Named) (m : Manager) (t : TenantId) : Prop :=
  is_admin m ∨ in_tenant n (mgr_user m) t Owner.

(** Whom grants are handed to: inside a tenant its ordinary members, against an account any but
    a system administrator. *)
Definition may_hold (n : Named) (s : CapabilityScope) : Prop :=
  match scope_tenant s with
  | Some t => in_tenant n (scope_user s) t OrdinaryMember
  | None => has_kind n (scope_user s) Regular
  end.
Definition hands_out (n : Named) (m : Manager) (s : CapabilityScope) : Prop :=
  match scope_tenant s with Some t => administers n m t | None => is_admin m end.

(** Who sets a limit: one over a whole tenant binds every account in it. *)
Definition sets_limit (n : Named) (m : Manager) (s : LimitScope) : Prop :=
  is_admin m ∨ is_Some (limit_user s) ∧ in_tenant n (mgr_user m) (limit_tenant s) Owner.

(** Whose chain it is: the global one the system administrator's, and only that. *)
Definition manages_chain (n : Named) (m : Manager) (t : option TenantId) : Prop :=
  match t with
  | None => is_admin m
  | Some t => ¬ is_admin m ∧ in_tenant n (mgr_user m) t Owner
  end.

(** The calls of the stores a caller may cause, on a server with these rules configured. *)
Definition permits (configured : list RouteRule) (n : Named) (m : Manager) (c : Call) : Prop :=
  match c with
  | CreateTenantWithOwner _ _ owner standing =>
      manages_tenants n m ∧ new_user_kind owner = Regular ∧ standing = Owner
  | DeleteTenant _ => manages_tenants n m
  | AddMember _ new tenant standing =>
      manages_users n m tenant ∧ new_user_kind new = Regular ∧ standing = OrdinaryMember
  | Attach _ joins =>
      manages_users n m (member_tenant joins) ∧ member_standing joins = OrdinaryMember ∧
      has_kind n (member_user joins) Regular ∧
      ∀ s, ¬ in_tenant n (member_user joins) (member_tenant joins) s
  | RemoveMember user tenant => manages_users n m tenant ∧ in_tenant n user tenant OrdinaryMember
  | DeleteUser user =>
      user ≠ mgr_user m ∧ has_kind n user Regular ∧
      (∀ t, ¬ in_tenant n user t Owner) ∧ (∀ t s, in_tenant n user t s → manages_users n m t) ∧
      (is_admin m ∨ ∃ t s, in_tenant n user t s)
  | GrantTo _ g =>
      well_scoped g ∧ hands_out n m (grant_scope g) ∧ may_hold n (grant_scope g) ∧
      ∀ first, prerequisite (grant_capability g) = Some first →
        granted_in n (MkGrant first (grant_scope g))
  | RevokeFrom g =>
      hands_out n m (grant_scope g) ∧ may_hold n (grant_scope g) ∧
      ∀ c, prerequisite c = Some (grant_capability g) → ¬ granted_in n (MkGrant c (grant_scope g))
  | PutRoute _ rule =>
      is_admin m ∧ is_reserved (path (key_endpoint (rule_key rule))) = false ∧
      rule_key rule ∉ rule_key <$> configured
  | RemoveRoute _ => is_admin m
  | PutLimit _ l => sets_limit n m (nl_scope l)
  | RemoveLimit s _ _ => sets_limit n m s
  | PutPlugin _ new => manages_chain n m (owner_tenant (new_plugin_owner new))
  | DisownPlugin _ owner => manages_chain n m (owner_tenant owner)
  | PutRule _ rule =>
      manages_chain n m (plugin_scope_tenant (new_scope rule)) ∧
      match new_scope rule with
      | TenantScope t (Some u) _ => ∃ s, in_tenant n u t s
      | _ => True
      end
  | RemoveRule t _ _ => manages_chain n m t
  | _ => False
  end.

(** ** The endpoints *)

(** A request, as a path, a method and a body name it; what it draws and when it is served. *)
Inductive Asked : Type :=
  | PostTenant (r : TenantRoutes.NewTenantRequest) (drawn : option TnKey)
  | GetTenant (tenant : str)
  | DeleteTenantAt (tenant : str)
  | PostUser (r : UserRoutes.NewUserRequest)
  | GetUser (user : str)
  | DeleteUserAt (user : str)
  | GetMembers (tenant : str) (page : Page)
  | PutMember (tenant user : str)
  | DeleteMember (tenant user : str)
  | GetGrants (tenant user : str) (page : Page)
  | PutGrant (tenant user capability : str) (api : option str)
  | DeleteGrant (tenant user capability : str) (api : option str)
  | GetAccountGrants (user : str) (page : Page)
  | PutAccountGrant (user capability : str)
  | DeleteAccountGrant (user capability : str)
  | GetRoutes (page : Page)
  | PutRoutingRule (body : result Z RouteRule)
  | DeleteRoutingRule (body : result Z RouteKey)
  | GetLimits (tenant : option str) (page : Page)
  | SetLimit (body : result Z Setting)
  | UnsetLimit (body : result Z Setting)
  | GetPlugins (page : Page)
  | PostPlugin (kind : option str) (wasm : list Z)
  | DeletePlugin (checksum : str)
  | GetRules (page : Page)
  | PostRule (body : result Z Placement)
  | DeleteRule (kind : str) (order : PluginOrder)
  | GetUsage (n : Narrowing) (page : Page).

(** A body is in memory, so its length is a [usize]. *)
Definition fits (q : Asked) : Prop :=
  match q with PostPlugin _ wasm => size_of wasm ≤ u64_max | _ => True end.

Section served.
Context `{Engine} `{Chrono} `{Crypto} `{SnapshotCodec} {St : Type} `{!Publication St}.
Context (topic : CacheKey) (hash : Passphrase → option PassphraseHash).
Context (configured : list RouteRule) (compile : list Z → result (option str) unit).

(** An endpoint, with the code it answers. *)
Definition coded {V} (p : act St (Response V)) : act St Z := r ← p; answer_with (code r).

Definition serve (now : Timestamp) (m : Manager) (q : Asked) : act St Z :=
  match q with
  | PostTenant r drawn => coded (TenantRoutes.create hash drawn now m r)
  | GetTenant tenant => coded (TenantRoutes.read m tenant)
  | DeleteTenantAt tenant => coded (TenantRoutes.remove topic m tenant)
  | PostUser r => coded (UserRoutes.create hash now m r)
  | GetUser user => coded (UserRoutes.read m user)
  | DeleteUserAt user => coded (UserRoutes.remove topic m user)
  | GetMembers tenant page => coded (MemberRoutes.list_of_tenant m tenant page)
  | PutMember tenant user => coded (MemberRoutes.attach now m tenant user)
  | DeleteMember tenant user => coded (MemberRoutes.detach m tenant user)
  | GetGrants tenant user page => coded (GrantRoutes.list_in_tenant m tenant user page)
  | PutGrant tenant user capability api => coded (GrantRoutes.grant_at now m tenant user capability api)
  | DeleteGrant tenant user capability api => coded (GrantRoutes.revoke_at m tenant user capability api)
  | GetAccountGrants user page => coded (GrantRoutes.list_on_account m user page)
  | PutAccountGrant user capability => coded (GrantRoutes.grant_on_account now m user capability)
  | DeleteAccountGrant user capability => coded (GrantRoutes.revoke_on_account m user capability)
  | GetRoutes page => coded (list_all configured m page)
  | PutRoutingRule body => coded (RouteRoutes.put topic configured now m body)
  | DeleteRoutingRule body => coded (RouteRoutes.remove topic m body)
  | GetLimits tenant page => coded (list_limits_of m tenant page)
  | SetLimit body => coded (LimitRoutes.put topic now m body)
  | UnsetLimit body => coded (LimitRoutes.remove topic m body)
  | GetPlugins page => coded (list_plugins_of m page)
  | PostPlugin kind wasm => coded (upload compile now m kind wasm)
  | DeletePlugin checksum => coded (PluginRoutes.disown m checksum)
  | GetRules page => coded (list_rules_of m page)
  | PostRule body => coded (place_rule topic now m body)
  | DeleteRule kind order => coded (remove_rule_at topic m kind order)
  | GetUsage n page => coded (list_usage_of m n page)
  end.
End served.

(** ** What the endpoints read *)

(** A program that only reads answers what it would alone, or that the database failed. *)
Lemma reads_answers {A} (p : sql Db A) d r d' :
  reads p → runs p d r d' → d' = d ∧ (r = (exec p d).1 ∨ r = Err Backend).
Proof.
  revert d. induction p as [A r0|A X s k IH|A X body _ k IH]; intros d; cbn; [|..|done].
  - intros _ [-> ->]. auto.
  - intros (He & Hs & Hk). assert ((answer s d).2 = d) as Ed.
    { unfold answer. destruct (s d) as [[x d1]|] eqn:E; [by apply Hs in E|done]. }
    destruct (answer s d) as [x d1]; cbn in *; subst d1. intros [Hr|Hr]; [by apply IH|].
    rewrite He in Hr. destruct Hr as [-> ->]. auto.
Qed.

Lemma exec_reads {A} (p : sql Db A) d : reads p → exec p d = ((exec p d).1, d).
Proof.
  intros Hp. pose proof (runs_exec p d) as Hr. apply reads_answers in Hr as [E _]; [|done].
  rewrite <-E at 3. apply surjective_pairing.
Qed.

Create HintDb policy.
Ltac reading :=
  cbv beta zeta;
  lazymatch goal with
  | |- reads (pure _) => apply reads_pure
  | |- reads (select _) => apply reads_select
  | |- reads (_ ≫= _) => apply reads_bind; [reading|intros ?; reading]
  | |- reads (match ?o with Some _ => _ | None => _ end) => destruct o; reading
  | |- reads (if ?b then _ else _) => destruct b; reading
  | |- _ => auto with policy
  end.

Section reads.
Context `{Engine} `{Chrono} `{Crypto}.

Lemma reads_membership u t : reads (membership u t).
Proof. unfold membership. reading. Qed.
Lemma reads_grants_of u : reads (grants_of u).
Proof. unfold grants_of. reading. Qed.
Lemma reads_grants_in u t : reads (grants_in_tenant u t).
Proof. unfold grants_in_tenant. reading. Qed.
Lemma reads_user u : reads (read_user u).
Proof. unfold read_user. reading. Qed.
Lemma reads_tenant t : reads (read_tenant t).
Proof. unfold read_tenant. reading. Qed.
Lemma reads_memberships u : reads (memberships_of_user u).
Proof. unfold memberships_of_user. reading. Qed.
#[local] Hint Resolve reads_membership reads_grants_of reads_user reads_memberships : policy.
Lemma reads_allows m c s : reads (manager_allows m c s).
Proof. unfold manager_allows, role_at. reading. Qed.
#[local] Hint Resolve reads_allows : policy.
Lemma reads_reaches m t : reads (TenantRoutes.reaches m t).
Proof. unfold TenantRoutes.reaches. reading. Qed.
Lemma reads_administers m t : reads (GrantRoutes.administers m t).
Proof. unfold GrantRoutes.administers. reading. Qed.
Lemma reads_managed m l : reads (UserRoutes.managed m l).
Proof. induction l as [|h l IH]; cbn [UserRoutes.managed]; reading. Qed.
#[local] Hint Resolve reads_managed : policy.
Lemma reads_found m u : reads (UserRoutes.found m u).
Proof. unfold UserRoutes.found. reading. Qed.
Lemma reads_list_members t page : reads (list_members t page).
Proof. unfold list_members. reading. Qed.
Lemma reads_list_tenant_grants u t page : reads (list_tenant_grants u t page).
Proof. unfold list_tenant_grants. reading. Qed.
Lemma reads_list_account_grants u page : reads (list_account_grants u page).
Proof. unfold list_account_grants. reading. Qed.
Lemma reads_list_routes page : reads (list_routes page).
Proof. unfold list_routes. reading. Qed.
Lemma reads_list_limits t page : reads (list_limits t page).
Proof. unfold list_limits. reading. Qed.
Lemma reads_list_plugins o page : reads (list_plugins o page).
Proof. unfold list_plugins, owner_row_id, tenant_row_id_of. destruct (owner_tenant o); reading. Qed.
Lemma reads_list_rules t page : reads (list_rules t page).
Proof. unfold list_rules. reading. Qed.
Lemma reads_list_usage f page : reads (list_usage f page).
Proof. unfold list_usage. reading. Qed.
End reads.
#[export] Hint Resolve reads_membership reads_grants_of reads_grants_in reads_user reads_tenant
  reads_memberships reads_allows reads_reaches reads_administers reads_found reads_list_members
  reads_list_tenant_grants reads_list_account_grants reads_list_routes reads_list_limits reads_list_plugins
  reads_list_rules reads_list_usage : policy.

(** *** By name *)
Section read_as.
Context `{Engine} `{Chrono} `{Crypto}.

Lemma standing_read name s : Account.standing name = Ok s → name = standing_name s.
Proof. unfold Account.standing. repeat case_bool_decide; by intros [= <-]. Qed.
Lemma kind_read name k : account_kind name = Ok k → name = account_kind_name k.
Proof. unfold account_kind. repeat case_bool_decide; by intros [= <-]. Qed.

Lemma membership_some d u t held :
  (exec (membership u t) d).1 = Ok (Some held) → in_tenant (named_of d) u t (member_standing held).
Proof.
  unfold membership. sql_run. destruct (List.find _ _) as [b|] eqn:E; [|done]. cbn.
  destruct (Account.standing (nm_standing b)) as [s|] eqn:Es; [|done]. intros [= <-].
  apply find_elem_of in E as [Hb Hm]. exists b. split; [done|]. apply standing_read in Es.
  by apply andb_true_iff in Hm as [?%bool_decide_eq_true ?%bool_decide_eq_true].
Qed.

Lemma membership_none d u t s :
  (exec (membership u t) d).1 = Ok None → ¬ in_tenant (named_of d) u t s.
Proof.
  unfold membership. sql_run. destruct (List.find _ _) as [b|] eqn:E.
  { cbn. by destruct (Account.standing (nm_standing b)). }
  intros _ (b & Hb & [Ht Hu] & _). apply list_elem_of_In in Hb. apply (List.find_none _ _ E) in Hb.
  by rewrite !bool_decide_eq_true_2 in Hb.
Qed.

Lemma user_some d u a : (exec (read_user u) d).1 = Ok (Some a) → has_kind (named_of d) u (user_kind a).
Proof.
  unfold read_user. sql_run. destruct (user_named u d) as [e|] eqn:E; [|done]. cbn.
  destruct (user_of_entry u e) as [x|] eqn:Ex; [|done]. intros [= ->].
  apply bind_ok in Ex as (p & _ & (k & Hk%kind_read & (at_ & _ & [= <-])%bind_ok)%bind_ok).
  apply find_elem_of in E as [He Hid%bool_decide_eq_true]. exists (named_user e). cbn.
  split; [|done]. apply list_elem_of_fmap. eauto.
Qed.

Lemma user_regular d u a :
  (exec (read_user u) d).1 = Ok (Some a) → user_kind a ≠ SystemAdministrator →
  has_kind (named_of d) u Regular.
Proof. intros Hu%user_some Hk. by destruct (user_kind a). Qed.
Lemma membership_ordinary d u t held :
  (exec (membership u t) d).1 = Ok (Some held) → member_standing held ≠ Owner →
  in_tenant (named_of d) u t OrdinaryMember.
Proof. intros Hm%membership_some Hs. by destruct (member_standing held). Qed.

Lemma grants_read d (P : NamedGrant → Prop) `{∀ b, Decision (P b)} u l g :
  try_map (grant_read u) (filter P (grants_joined d)) = Ok l → (∀ b, P b → ng_user b = val u) →
  g ∈ l → granted_in (named_of d) g.
Proof.
  intros Hl HP Hg. apply try_map_ok in Hl. apply list_elem_of_lookup in Hg as [i Hi].
  destruct (Forall2_lookup_r _ _ _ _ _ Hl Hi) as (b & Hb & Hr).
  apply list_elem_of_lookup_2, list_elem_of_filter in Hb as [Hu Hb]. apply HP in Hu.
  apply grant_row_roundtrip in Hr as (Eu & _ & [= Et Ea Ec]).
  apply list_elem_of_fmap. exists b. split; [|done]. unfold grant_names, names_of_grant. congruence.
Qed.

Lemma grants_of_read d u gs g : (exec (grants_of u) d).1 = Ok gs → g ∈ gs → granted_in (named_of d) g.
Proof.
  unfold grants_of. sql_run. destruct (try_map _ _) as [l|] eqn:E; [|done]. cbn. intros [= <-] Hg.
  apply elem_of_list_to_set in Hg. by eapply grants_read.
Qed.

Lemma grants_in_read d u t gs g :
  (exec (grants_in_tenant u t) d).1 = Ok gs → well_scoped g → scope_user (grant_scope g) = u →
  scope_tenant (grant_scope g) = Some t → g ∈ gs ↔ granted_in (named_of d) g.
Proof.
  unfold grants_in_tenant. sql_run. destruct (try_map _ _) as [l|] eqn:E; [|done]. cbn.
  intros [= <-] Hg Hu Ht. unfold grants_from_iter. rewrite elem_of_list_to_set. split.
  - intros Hin. eapply grants_read; [exact E| |done]. by intros b [].
  - intros (b & Hn & Hb)%list_elem_of_fmap. apply try_map_ok in E.
    injection Hn as Eu Et Ea Ec.
    assert (b ∈ filter (λ g, ng_user g = val u ∧ ng_tenant g = Some (val t)) (grants_joined d)) as Hf.
    { apply list_elem_of_filter. split; [|done]. rewrite <-Eu, <-Et, Hu, Ht. done. }
    apply list_elem_of_lookup in Hf as [i Hi]. destruct (Forall2_lookup_l _ _ _ _ _ E Hi) as (g' & Hg' & Hr).
    apply list_elem_of_lookup_2 in Hg'. replace g with g'; [done|].
    enough (grant_read u b = Ok g) as Hr' by congruence. apply grant_row_roundtrip.
    split; [done|]. split; [done|]. unfold grant_row. congruence.
Qed.

Lemma not_admin m : is_system_administrator m = false → mgr_kind m ≠ SystemAdministrator.
Proof. unfold is_system_administrator. by case_bool_decide. Qed.
Lemma admin m : is_system_administrator m = true → is_admin m.
Proof. unfold is_system_administrator. by case_bool_decide. Qed.

(** What [Manager::allows] said yes to. *)
Lemma allows_read d m c s :
  (exec (manager_allows m c s) d).1 = Ok true →
  is_admin m ∨
  match scope_tenant s with
  | Some t =>
      (c ≠ TenantMgr ∧ in_tenant (named_of d) (mgr_user m) t Owner) ∨
      ((∃ st, in_tenant (named_of d) (mgr_user m) t st) ∧ granted_in (named_of d) (MkGrant c s))
  | None => granted_in (named_of d) (MkGrant c s)
  end.
Proof.
  unfold manager_allows. destruct (is_system_administrator m) eqn:Ea; [left; by apply admin|].
  apply not_admin in Ea. unfold role_at. destruct (scope_tenant s) as [t|] eqn:Et.
  - rewrite !exec_bind. pose proof (membership_some d (mgr_user m) t) as Hm.
    destruct (exec (membership (mgr_user m) t) d) as [[[held|]|] d1] eqn:E; try done. cbn in Hm.
    specialize (Hm held eq_refl).
    rewrite exec_reads in E by auto with policy. injection E as _ <-.
    sql_run. pose proof (grants_of_read d (mgr_user m)) as Hg.
    destruct (exec (grants_of (mgr_user m)) d) as [[gs|] d2]; [|done]. cbn. intros [= Hor].
    apply orb_true_iff in Hor as [Hi|Hh]; right.
    + left. unfold role_of in Hi. destruct (mgr_kind m); [done|].
      destruct (member_standing held) eqn:Es; [|done]. cbn in Hi.
      apply andb_true_iff in Hi as [[Hc _]%andb_true_iff _]. by apply bool_decide_eq_true in Hc.
    + right. split; [eauto|]. apply holds_iff in Hh as [_ [Hin _]%Forall_cons]. by eapply Hg.
  - sql_run. pose proof (grants_of_read d (mgr_user m)) as Hg.
    destruct (exec (grants_of (mgr_user m)) d) as [[gs|] d2]; [|done]. cbn. intros [= Hh].
    right. apply holds_iff in Hh as [_ [Hin _]%Forall_cons]. by eapply Hg.
Qed.

Lemma allows_users d m t :
  (exec (manager_allows m UserMgr (ScopeTenant (mgr_user m) t)) d).1 = Ok true →
  manages_users (named_of d) m t.
Proof. intros [?|[[_ ?]|?]]%allows_read; [by left|right; by left|right; by right]. Qed.

Lemma allows_tenants d m :
  (exec (manager_allows m TenantMgr (TenantRoutes.tenant_mgr_scope m)) d).1 = Ok true →
  manages_tenants (named_of d) m.
Proof. by intros ?%allows_read. Qed.

Lemma administers_read d m t :
  (exec (GrantRoutes.administers m t) d).1 = Ok true → administers (named_of d) m t.
Proof.
  unfold GrantRoutes.administers. destruct (is_system_administrator m) eqn:Ea; [left; by apply admin|].
  rewrite exec_bind. pose proof (membership_some d (mgr_user m) t) as Hm.
  destruct (exec (membership (mgr_user m) t) d) as [[[held|]|] d1]; try done. cbn in *.
  intros [= Hs%bool_decide_eq_true]. right. rewrite <-Hs. by apply Hm.
Qed.

(** Every attachment of an account is among those read. *)
Lemma memberships_read d u l t s :
  (exec (memberships_of_user u) d).1 = Ok l → in_tenant (named_of d) u t s →
  ∃ held, held ∈ l ∧ member_tenant held = t ∧ member_standing held = s.
Proof.
  unfold memberships_of_user. sql_run. destruct (try_map _ _) as [l'|] eqn:E; [|done]. intros [= ->].
  intros (b & Hb & [Ht Hu] & Hs). apply try_map_ok in E.
  assert (b ∈ sort_by (λ a b, lex_leb (nm_tenant a) (nm_tenant b))
            (filter (λ m, nm_user m = val u) (members_joined d))) as Hf.
  { rewrite sort_by_perm. apply list_elem_of_filter. done. }
  apply list_elem_of_lookup in Hf as [i Hi]. destruct (Forall2_lookup_l _ _ _ _ _ E Hi) as (h & Hh & Hr).
  apply list_elem_of_lookup_2 in Hh. exists h. split; [done|].
  rewrite Ht, stored_id, Hs, stored_standing in Hr. injection Hr as <-. done.
Qed.

Lemma memberships_back d u l held :
  (exec (memberships_of_user u) d).1 = Ok l → held ∈ l →
  in_tenant (named_of d) u (member_tenant held) (member_standing held).
Proof.
  unfold memberships_of_user. sql_run. destruct (try_map _ _) as [l'|] eqn:E; [|done]. intros [= ->] Hh.
  apply try_map_ok in E. apply list_elem_of_lookup in Hh as [i Hi].
  destruct (Forall2_lookup_r _ _ _ _ _ E Hi) as (b & Hb & Hr).
  apply list_elem_of_lookup_2 in Hb. rewrite sort_by_perm in Hb.
  apply list_elem_of_filter in Hb as [Hu Hb].
  apply bind_ok in Hr as (t & Ht & (s & Hs%standing_read & [= <-])%bind_ok). cbn.
  exists b. split; [done|]. split; [|done]. split; [|done].
  unfold stored in Ht. destruct (new_ident (nm_tenant b)) eqn:En; [|done]. injection Ht as ->.
  apply refine_ok in En as [_ <-]. done.
Qed.

Lemma managed_read d m l shown :
  (exec (UserRoutes.managed m l) d).1 = Ok shown →
  (length shown ≤ length l)%nat ∧
  (∀ held, held ∈ shown → held ∈ l ∧ manages_users (named_of d) m (member_tenant held)) ∧
  (length shown = length l → shown = l).
Proof.
  revert shown. induction l as [|h l IH]; intros shown; cbn [UserRoutes.managed].
  - intros [= <-]. set_solver.
  - rewrite exec_bind, exec_reads by auto with policy.
    destruct (exec (manager_allows m UserMgr _) d).1 as [allowed|] eqn:Ea; [|done].
    rewrite exec_bind, exec_reads by apply reads_managed.
    destruct (exec (UserRoutes.managed m l) d).1 as [others|]; [|done].
    destruct (IH others eq_refl) as (Hlen & Hin & Hall). rewrite exec_pure. intros [= <-].
    destruct allowed; cbn [length].
    + split; [lia|]. split; [|intros E; f_equal; apply Hall; lia].
      intros held [->|Hh]%elem_of_cons; [|naive_solver set_solver]. split; [set_solver|]. by apply allows_users.
    + split; [lia|]. split; [|lia]. intros held Hh. destruct (Hin held Hh). set_solver.
Qed.

(** What a caller that sees a whole account knows of it. *)
Lemma found_read d m u stored seen :
  (exec (UserRoutes.found m u) d).1 = Ok (Some (stored, seen)) → u ≠ mgr_user m →
  length (UserRoutes.seen_shown seen) = UserRoutes.seen_attached seen →
  has_kind (named_of d) u (user_kind stored) ∧
  (∀ t s, in_tenant (named_of d) u t s →
     (∃ held, held ∈ UserRoutes.seen_shown seen ∧ member_tenant held = t ∧ member_standing held = s) ∧
     manages_users (named_of d) m t) ∧
  (is_admin m ∨ ∃ t s, in_tenant (named_of d) u t s).
Proof.
  intros Hf Hu Hlen. unfold UserRoutes.found in Hf. rewrite exec_bind, exec_reads in Hf by auto with policy.
  destruct (exec (read_user u) d).1 as [[a|]|] eqn:Ea; [|done..].
  rewrite exec_bind, exec_reads in Hf by auto with policy.
  destruct (exec (memberships_of_user u) d).1 as [l|] eqn:El; [|done].
  pose proof (memberships_read d u l) as Hl.
  rewrite (bool_decide_eq_false_2 (mgr_user m = u)), orb_false_r in Hf by congruence.
  apply user_some in Ea. destruct (is_system_administrator m) eqn:Ead.
  - injection Hf as <- <-. apply admin in Ead. split; [done|]. split; [|by left].
    intros t s Hin. split; [by apply Hl|by left].
  - rewrite exec_bind, exec_reads in Hf by apply reads_managed.
    destruct (exec (UserRoutes.managed m l) d).1 as [shown|] eqn:Em; [|done].
    apply managed_read in Em as (_ & Hin & Hall). rewrite exec_pure in Hf.
    destruct shown as [|h shown]; [done|]. injection Hf as <- <-. cbn [UserRoutes.seen_shown UserRoutes.seen_attached] in *.
    specialize (Hall Hlen). subst l. split; [done|]. split.
    + intros t s Ht. destruct (Hl t s El Ht) as (held & Hh & <- & <-). split; [by eauto|]. by apply Hin.
    + right. exists (member_tenant h), (member_standing h). eapply memberships_back; [done|set_solver].
Qed.
End read_as.

(** ** Every endpoint keeps to the policy *)
Section permitted.
Context `{Engine} `{Chrono} `{Crypto} `{SnapshotCodec} {St : Type} `{!Publication St}.
Context (topic : CacheKey) (hash : Passphrase → option PassphraseHash).
Context (configured : list RouteRule) (compile : list Z → result (option str) unit).

(** What a caller may have made of a database: nothing, or what one permitted call does. *)
Definition kept_to (m : Manager) (d d' : Db) : Prop :=
  d' = d ∨ ∃ c r, permits configured (named_of d) m c ∧ admissible c ∧ exec (perform c) d = (r, d').

(** *** Running an endpoint *)

Lemma runs_call_bind {A B} (p : sql Db A) (f : result StorageError A → act St B) d c r v :
  runs (call p ≫= f) (d, c) r v → ∃ r0 d1, runs p d r0 d1 ∧ runs (f r0) (d1, c) r v.
Proof using.
  intros [(a & v1 & Hc & Hf)|(e & Hc & _)]%runs_seq; apply runs_call in Hc as (r0 & d1 & E & -> & Hp).
  - injection E as ->. eauto.
  - done.
Qed.

Lemma runs_read_bind {A B} (p : sql Db A) (f : result StorageError A → act St B) d c r v :
  reads p → runs (call p ≫= f) (d, c) r v →
  runs (f (exec p d).1) (d, c) r v ∨ runs (f (Err Backend)) (d, c) r v.
Proof using.
  intros Hp (r0 & d1 & Hr & Hf)%runs_call_bind. apply reads_answers in Hr as [-> [->| ->]]; auto.
Qed.

Lemma runs_answered {A} (a : A) (v v' : Server St) r : runs (answer_with a) v r v' → v' = v.
Proof using. by intros [_ ->]. Qed.

Lemma runs_coded {V} (p : act St (Response V)) v r v' :
  runs (coded p) v r v' → ∃ r0, runs p v r0 v'.
Proof using. intros [(a & v1 & Hp & [_ ->])|(e & Hp & _)]%runs_seq; eauto. Qed.

(** Publishing only reads the database. *)
Lemma runs_after_change d c r v : runs (after_change (St := St) topic) (d, c) r v → v.1 = d.
Proof.
  assert (∀ r v, runs (publish topic) (d, c) r v → v.1 = d) as Hpub.
  { clear r v. intros r v (r0 & d1 & Hr & Hf)%runs_call_bind.
    apply reads_runs in Hr as ->; [|apply obeys_atom, obeys_rule_set_body, _].
    destruct r0 as [set|]; [|by apply runs_answered in Hf as ->].
    destruct (write_snapshot _); [|by apply runs_answered in Hf as ->].
    apply runs_seq in Hf as [(a & v1 & Hc & [_ ->])|(e & Hc & _)]; by apply runs_on_cache in Hc. }
  intros [(a & v1 & Hp & [_ ->])|(e & Hp & _)]%runs_seq; by eapply Hpub.
Qed.

Lemma runs_done {A} (p : sql Db A) d r d' : runs p d r d' → ∃ r', runs (done p) d r' d'.
Proof using. intros Hp. destruct r as [a|e]; eexists; apply runs_seq; [left|right]; naive_solver. Qed.

(** The one call an endpoint made. *)
Lemma caused {A} (p : sql Db A) m c d r d' :
  perform c = done p → runs p d r d' → permits configured (named_of d) m c → admissible c → kept_to m d d'.
Proof using.
  intros E Hr Hp Ha. apply runs_done in Hr as [r' Hr]. rewrite <-E in Hr.
  apply one_write_runs in Hr as [Hr|[-> _]]; [right; eauto|by left|apply perform_one_write].
Qed.

(** Takes a run of an endpoint apart at its next read or guard. *)
Ltac endpoint :=
  cbv beta iota in *;
  lazymatch goal with
  | R : runs (answer_with _) _ _ _ |- _ => apply runs_answered in R as ->; by left
  | R : runs (answer_with _ ≫= _) _ _ _ |- _ =>
      apply runs_seq in R as [(? & ? & R1 & R)|(? & R1 & _)];
      [destruct R1 as [[= ->] ->]|by destruct R1]
  | R : runs (match ?x with _ => _ end) _ _ _ |- _ => destruct x eqn:?
  end.

Lemma refusal_none {V} r : refusal_of (V := V) r = None → r = Ok true.
Proof using. by destruct r as [[]|]. Qed.

(** A guard that asks the store a question, in the two ways endpoints write one. *)
Lemma runs_guard {V B} (p : sql Db bool) (f : option (Response V) → act St B) d c r v :
  reads p → runs ((allowed ← call p; answer_with (refusal_of allowed)) ≫= f) (d, c) r v →
  (∃ refusal, runs (f (Some refusal)) (d, c) r v) ∨
  ((exec p d).1 = Ok true ∧ runs (f None) (d, c) r v).
Proof using.
  intros Hp [(a & v1 & Hg & Hf)|(e & Hg & _)]%runs_seq; (apply runs_read_bind in Hg; [|done]).
  - destruct Hg as [[[= ->] ->]|[[= ->] ->]]; [|left; eauto].
    destruct (refusal_of _) eqn:E; [left; eauto|]. apply refusal_none in E. auto.
  - by destruct Hg as [[]|[]].
Qed.

Lemma runs_allowed {V B} (p : sql Db bool) (g : Response V → act St B) (k : act St B) d c r v :
  reads p →
  runs (call p ≫= λ a, match refusal_of a with Some refusal => g refusal | None => k end) (d, c) r v →
  (∃ refusal, runs (g refusal) (d, c) r v) ∨ ((exec p d).1 = Ok true ∧ runs k (d, c) r v).
Proof using.
  intros Hp Hr. apply runs_read_bind in Hr as [Hg|Hg]; [|left; eexists; exact Hg|done].
  destruct (refusal_of _) eqn:E; [left; eauto|]. apply refusal_none in E. auto.
Qed.

(** *** The endpoints that change something *)
#[local] Hint Resolve allows_tenants allows_users administers_read : policy.

(** The last call of an endpoint, answered whatever it reported. *)
Ltac last_call R Hp :=
  apply runs_call_bind in R as (? & ? & Hp & R); try (apply runs_answered in R as ->); cbn [fst].

(** A call whose success is published, whatever it is answered with. *)
Lemma runs_then_publish {A V} (p : sql Db A) (k : result StorageError A → act St (Response V)) d c r v :
  runs (call p ≫= k) (d, c) r v →
  (∀ a, ∃ done, k (Ok a) = (_ ← after_change topic; answer_with done)) →
  (∀ e, ∃ refusal, k (Err e) = answer_with refusal) → ∃ r0, runs p d r0 v.1.
Proof.
  intros (r0 & d1 & Hp & Hr)%runs_call_bind Hok Herr. exists r0. replace v.1 with d1; [done|].
  destruct r0 as [a|e]; [|destruct (Herr e) as [x E]; rewrite E in Hr; by apply runs_answered in Hr as ->].
  destruct (Hok a) as [x E]. rewrite E in Hr.
  apply runs_seq in Hr as [(? & v1 & Hc & Hr)|(? & Hc & _)]; [|by apply runs_after_change in Hc].
  apply runs_answered in Hr as ->. by apply runs_after_change in Hc.
Qed.
Ltac published_call R Hp :=
  apply runs_then_publish in R as [? Hp]; [|by intros ?; eexists|by intros []; eexists].

Lemma tenant_create_kept now m q drawn d c r v :
  moment now → runs (TenantRoutes.create (St := St) hash drawn now m q) (d, c) r v → kept_to m d v.1.
Proof.
  intros Hn Hr. apply runs_guard in Hr as [[refusal Hr]|[Hok Hr]]; [|..|auto with policy];
    repeat endpoint. last_call Hr Hp.
  eapply (caused _ m (CreateTenantWithOwner _ _ _ _)); [reflexivity|done|..]; [|done].
  split; [|done]. by apply allows_tenants.
Qed.

Lemma tenant_remove_kept m tenant d c r v :
  runs (TenantRoutes.remove (St := St) topic m tenant) (d, c) r v → kept_to m d v.1.
Proof.
  intros Hr. apply runs_guard in Hr as [[refusal Hr]|[Hok Hr]]; [|..|auto with policy];
    repeat endpoint. published_call Hr Hp.
  eapply (caused _ m (DeleteTenant _)); [reflexivity|done|..]; [|done]. by apply allows_tenants.
Qed.

Lemma user_create_kept now m q d c r v :
  moment now → runs (UserRoutes.create (St := St) hash now m q) (d, c) r v → kept_to m d v.1.
Proof.
  intros Hn Hr. unfold UserRoutes.create in Hr. do 2 (endpoint; [|endpoint]).
  apply runs_allowed in Hr as [[refusal Hr]|[Hok Hr]]; [|..|auto with policy]; repeat endpoint.
  last_call Hr Hp. eapply (caused _ m (AddMember _ _ _ _)); [reflexivity|done|..]; [|done].
  split; [|done]. by apply allows_users.
Qed.

Lemma attach_kept now m tenant user d c r v :
  moment now → runs (MemberRoutes.attach (St := St) now m tenant user) (d, c) r v → kept_to m d v.1.
Proof.
  intros Hn Hr. unfold MemberRoutes.attach in Hr. do 2 (endpoint; [|endpoint]).
  apply runs_guard in Hr as [[refusal Hr]|[Hok Hr]]; [|..|auto with policy]; repeat endpoint.
  apply runs_read_bind in Hr as [Hr|Hr]; [|..|auto with policy]; repeat endpoint.
  apply runs_read_bind in Hr as [Hr|Hr]; [|..|auto with policy]; repeat endpoint.
  last_call Hr Hp. eapply (caused _ m (Attach _ _)); [reflexivity|done|..]; [|done].
  split; [by apply allows_users|]. split; [done|]. split.
  - by eapply user_regular.
  - intros s. by apply membership_none.
Qed.

Lemma detach_kept m tenant user d c r v :
  runs (MemberRoutes.detach (St := St) m tenant user) (d, c) r v → kept_to m d v.1.
Proof.
  intros Hr. unfold MemberRoutes.detach in Hr. do 2 (endpoint; [|endpoint]).
  apply runs_guard in Hr as [[refusal Hr]|[Hok Hr]]; [|..|auto with policy]; repeat endpoint.
  apply runs_read_bind in Hr as [Hr|Hr]; [|..|auto with policy]; repeat endpoint.
  last_call Hr Hp. eapply (caused _ m (RemoveMember _ _)); [reflexivity|done|..]; [|done].
  split; [by apply allows_users|]. by eapply membership_ordinary.
Qed.

Lemma user_remove_kept m user d c r v :
  runs (UserRoutes.remove (St := St) topic m user) (d, c) r v → kept_to m d v.1.
Proof.
  intros Hr. unfold UserRoutes.remove in Hr. endpoint; [|endpoint]. endpoint; [endpoint|].
  apply runs_read_bind in Hr as [Hr|Hr]; [|..|auto with policy]; repeat endpoint.
  published_call Hr Hp. eapply (caused _ m (DeleteUser _)); [reflexivity|done|..]; [|done].
  edestruct found_read as (Hk & Hin & Hor); [done|congruence|by apply dec_stable|].
  split; [congruence|]. split; [by destruct (user_kind _)|]. split; [|split; [|done]].
  - intros t Ht. destruct (Hin t Owner Ht) as [(held & Hh & _ & Hs) _].
    match goal with F : List.find _ _ = None |- _ => apply find_None_Forall in F as Hno end.
    rewrite Forall_forall in Hno. specialize (Hno held Hh). unfold UserRoutes.owns in Hno.
    by rewrite bool_decide_eq_true_2 in Hno.
  - intros t st Ht. by apply (Hin t st).
Qed.

(** What [member_grants] let through. *)
Lemma member_grants_kept m n d c r v :
  runs (GrantRoutes.member_grants (St := St) m n) (d, c) r v →
  v = (d, c) ∧ ∀ held, r = Ok (Ok held) →
    administers (named_of d) m (GrantRoutes.by_tenant n) ∧
    in_tenant (named_of d) (GrantRoutes.by_user n) (GrantRoutes.by_tenant n) OrdinaryMember ∧
    (exec (grants_in_tenant (GrantRoutes.by_user n) (GrantRoutes.by_tenant n)) d).1 = Ok held.
Proof.
  intros Hr. unfold GrantRoutes.member_grants in Hr.
  assert (∀ (refusal : result (Response unit) Grants) r v, runs (answer_with refusal) (d, c) r v → v = (d, c) ∧ r = Ok refusal) as Hans
    by (by intros ? ? ? [-> ->]).
  apply runs_allowed in Hr as [[refusal Hr]|[Hok Hr]]; [|..|auto with policy].
  { apply Hans in Hr as [-> ->]. split; [done|]. by intros held [= ]. }
  apply runs_read_bind in Hr as [Hr|Hr]; [|..|auto with policy].
  2: { apply Hans in Hr as [-> ->]. split; [done|]. by intros held [= ]. }
  destruct (exec (membership _ _) d).1 as [[held|]|] eqn:Em.
  2, 3: apply Hans in Hr as [-> ->]; split; [done|]; by intros held' [= ].
  case_decide as Hs; [apply Hans in Hr as [-> ->]; split; [done|]; by intros held' [= ]|].
  apply runs_read_bind in Hr as [Hr|Hr]; [|..|auto with policy];
    apply Hans in Hr as [-> ->]; (split; [done|]); [|by intros held' [= ]].
  destruct (exec (grants_in_tenant _ _) d).1; intros held' [= ->].
  split; [by apply administers_read|]. split; [by eapply membership_ordinary|done].
Qed.

(** A path names a grant [Grant::new] takes, for the tenant and the user it spells. *)
Lemma named_ok {V} tenant user capability api n :
  GrantRoutes.named (V := V) tenant user capability api = Ok n →
  well_scoped (GrantRoutes.by_grant n) ∧
  scope_user (grant_scope (GrantRoutes.by_grant n)) = GrantRoutes.by_user n ∧
  scope_tenant (grant_scope (GrantRoutes.by_grant n)) = Some (GrantRoutes.by_tenant n).
Proof using.
  unfold GrantRoutes.named. destruct (new_ident tenant) as [t|]; [|done].
  destruct (new_ident user) as [u|]; [|done]. destruct (capability_named capability) as [k|]; [|done].
  intros (s & Hs & (g & Hg & [= <-])%bind_ok)%bind_ok. cbn.
  destruct (new_grant k s) as [g'|] eqn:E; [|done]. injection Hg as ->.
  unfold new_grant in E. case_bool_decide; [done|]. injection E as <-. cbn. unfold well_scoped. cbn.
  split; [done|]. destruct api as [a|]; [|by injection Hs as <-].
  destruct (new_ident a); [|done]. by injection Hs as <-.
Qed.

Lemma grant_kept now m tenant user capability api d c r v :
  moment now → runs (GrantRoutes.grant_at (St := St) now m tenant user capability api) (d, c) r v →
  kept_to m d v.1.
Proof.
  intros Hn Hr. unfold GrantRoutes.grant_at in Hr.
  destruct (GrantRoutes.named _ _ _ _) as [n|] eqn:En; [|endpoint].
  apply named_ok in En as (Hw & Hu & Ht).
  apply runs_seq in Hr as [(held & v1 & Hg & Hr)|(e & Hg & _)];
    apply member_grants_kept in Hg as [-> Hheld]; [|by left].
  destruct held as [held|]; [|endpoint]. destruct (Hheld held eq_refl) as (Ha & Hm & Hgs).
  assert (∀ first, prerequisite (grant_capability (GrantRoutes.by_grant n)) = Some first →
    holds held first (grant_scope (GrantRoutes.by_grant n)) = true →
    granted_in (named_of d) (MkGrant first (grant_scope (GrantRoutes.by_grant n)))) as Hfirst.
  { intros first Hp [Hk [Hin _]%Forall_cons]%holds_iff. by eapply grants_in_read. }
  assert (∀ r0 d1, runs (IdentityStore.grant now (GrantRoutes.by_grant n)) d r0 d1 →
    (∀ first, prerequisite (grant_capability (GrantRoutes.by_grant n)) = Some first →
       holds held first (grant_scope (GrantRoutes.by_grant n)) = true) → kept_to m d d1) as Hgrant.
  { intros r0 d1 Hp Hh. eapply (caused _ m (GrantTo _ _)); [reflexivity|done|..]; [|done].
    split; [done|]. unfold hands_out, may_hold. rewrite Ht, Hu. split_and!; [done..|]. eauto. }
  destruct (prerequisite _) as [first|] eqn:Ep.
  - destruct (holds held first _) eqn:Eh; cbn [negb] in Hr; [|endpoint].
    last_call Hr Hp. eapply Hgrant; [done|]. by intros first' [= <-].
  - last_call Hr Hp. by eapply Hgrant.
Qed.

Lemma revoke_kept m tenant user capability api d c r v :
  runs (GrantRoutes.revoke_at (St := St) m tenant user capability api) (d, c) r v → kept_to m d v.1.
Proof.
  intros Hr. unfold GrantRoutes.revoke_at in Hr.
  destruct (GrantRoutes.named _ _ _ _) as [n|] eqn:En; [|endpoint].
  apply named_ok in En as (Hw & Hu & Ht).
  apply runs_seq in Hr as [(held & v1 & Hg & Hr)|(e & Hg & _)];
    apply member_grants_kept in Hg as [-> Hheld]; [|by left].
  destruct held as [held|]; [|endpoint]. destruct (Hheld held eq_refl) as (Ha & Hm & Hgs).
  destruct (GrantRoutes.dependents _ _) as [|g l] eqn:Ed; [|endpoint].
  last_call Hr Hp. eapply (caused _ m (RevokeFrom _)); [reflexivity|done|..]; [|done].
  unfold permits, hands_out, may_hold. rewrite Ht, Hu. split_and!; [done..|]. intros k Hk Hin.
  eapply grants_in_read in Hin; [|done|..|done|done];
    [|unfold well_scoped; cbn; by rewrite <-(prerequisite_scope _ _ Hk)].
  assert (MkGrant k (grant_scope (GrantRoutes.by_grant n)) ∈ GrantRoutes.dependents (GrantRoutes.by_grant n) held) as Hd.
  { apply list_elem_of_filter. split; [done|]. by apply elem_of_elements. }
  rewrite Ed in Hd. set_solver.
Qed.

Lemma account_grant_kept m user capability d c r v :
  runs (GrantRoutes.account_grant (St := St) m user capability) (d, c) r v →
  v = (d, c) ∧ ∀ g, r = Ok (Ok g) →
    well_scoped g ∧ is_admin m ∧ scope_tenant (grant_scope g) = None ∧
    has_kind (named_of d) (scope_user (grant_scope g)) Regular.
Proof.
  intros Hr. unfold GrantRoutes.account_grant in Hr.
  destruct (is_system_administrator m) eqn:Ea; cbn [negb] in Hr; [|by destruct Hr as [-> ->]].
  destruct (new_ident user) as [u|]; [|by destruct Hr as [-> ->]].
  destruct (capability_named capability) as [k|]; [|by destruct Hr as [-> ->]].
  destruct (new_grant k (ScopeUser u)) as [g|] eqn:Eg; [|by destruct Hr as [-> ->]].
  apply runs_read_bind in Hr as [Hr|Hr]; [|by destruct Hr as [-> ->]|auto with policy].
  destruct Hr as [-> ->]. split; [done|]. intros g'.
  destruct (exec (read_user u) d).1 as [[a|]|] eqn:Eu; [|done..]. case_decide; intros [= <-].
  unfold new_grant in Eg. case_bool_decide; [done|]. injection Eg as <-. cbn.
  split; [done|]. split; [by apply admin|]. split; [done|]. by eapply user_regular.
Qed.

(** The two account endpoints ask for no prerequisite: what is held against an account has and
    is none. *)
Lemma account_scope_alone g :
  well_scoped g → scope_tenant (grant_scope g) = None →
  prerequisite (grant_capability g) = None ∧ ∀ k, prerequisite k ≠ Some (grant_capability g).
Proof using.
  unfold well_scoped. destruct g as [k []]; cbn; try done. destruct k; try done.
  intros _ _. split; [done|]. by intros [].
Qed.

Lemma account_grants_kept now m user capability d c r v :
  moment now → runs (GrantRoutes.grant_on_account (St := St) now m user capability) (d, c) r v →
  kept_to m d v.1.
Proof.
  intros Hn [(g & v1 & Hg & Hr)|(e & Hg & _)]%runs_seq; apply account_grant_kept in Hg as [-> Hok]; [|by left].
  destruct g as [g|]; [|endpoint]. destruct (Hok g eq_refl) as (Hw & Ha & Ht & Hk).
  last_call Hr Hp. eapply (caused _ m (GrantTo _ _)); [reflexivity|done|..]; [|done].
  cbn. unfold hands_out, may_hold. rewrite Ht. split_and!; [done..|].
  by rewrite (proj1 (account_scope_alone g Hw Ht)).
Qed.

Lemma account_revokes_kept m user capability d c r v :
  runs (GrantRoutes.revoke_on_account (St := St) m user capability) (d, c) r v → kept_to m d v.1.
Proof.
  intros [(g & v1 & Hg & Hr)|(e & Hg & _)]%runs_seq; apply account_grant_kept in Hg as [-> Hok]; [|by left].
  destruct g as [g|]; [|endpoint]. destruct (Hok g eq_refl) as (Hw & Ha & Ht & Hk).
  last_call Hr Hp. eapply (caused _ m (RevokeFrom _)); [reflexivity|done|..]; [|done].
  cbn. unfold hands_out, may_hold. rewrite Ht. split_and!; [done..|].
  intros k Hkp. by destruct (proj2 (account_scope_alone g Hw Ht) k).
Qed.

(** An endpoint that only reads. *)
Lemma tenant_read_kept m tenant d c r v :
  runs (TenantRoutes.read (St := St) m tenant) (d, c) r v → kept_to m d v.1.
Proof.
  intros Hr. unfold TenantRoutes.read in Hr. endpoint; [|endpoint].
  apply runs_allowed in Hr as [[refusal Hr]|[Hok Hr]]; [|..|auto with policy]; [endpoint|].
  apply runs_read_bind in Hr as [Hr|Hr]; [|..|auto with policy]; endpoint.
Qed.
Lemma user_read_kept m user d c r v :
  runs (UserRoutes.read (St := St) m user) (d, c) r v → kept_to m d v.1.
Proof.
  intros Hr. unfold UserRoutes.read in Hr. endpoint; [|endpoint].
  apply runs_read_bind in Hr as [Hr|Hr]; [|..|auto with policy]; endpoint.
Qed.
Lemma member_list_kept m tenant page d c r v :
  runs (MemberRoutes.list_of_tenant (St := St) m tenant page) (d, c) r v → kept_to m d v.1.
Proof.
  intros Hr. unfold MemberRoutes.list_of_tenant in Hr. endpoint; [|endpoint].
  apply runs_guard in Hr as [[refusal Hr]|[Hok Hr]]; [|..|auto with policy]; [endpoint|].
  apply runs_read_bind in Hr as [Hr|Hr]; [|..|auto with policy]; endpoint.
Qed.
Lemma grant_list_kept m tenant user page d c r v :
  runs (GrantRoutes.list_in_tenant (St := St) m tenant user page) (d, c) r v → kept_to m d v.1.
Proof.
  intros Hr. unfold GrantRoutes.list_in_tenant in Hr. do 2 (endpoint; [|endpoint]).
  destruct (decide (mgr_user m = _)).
  - endpoint. apply runs_read_bind in Hr as [Hr|Hr]; [|..|auto with policy]; endpoint.
  - apply runs_guard in Hr as [[refusal Hr]|[Hok Hr]]; [|..|auto with policy]; [endpoint|].
    apply runs_read_bind in Hr as [Hr|Hr]; [|..|auto with policy]; endpoint.
Qed.
Lemma account_list_kept m user page d c r v :
  runs (GrantRoutes.list_on_account (St := St) m user page) (d, c) r v → kept_to m d v.1.
Proof.
  intros Hr. unfold GrantRoutes.list_on_account in Hr. endpoint; [|endpoint]. endpoint; [endpoint|].
  apply runs_read_bind in Hr as [Hr|Hr]; [|..|auto with policy]; endpoint.
Qed.

(** *** Rules, limits and plugins *)

(** The tenant an account was found to own. *)
Lemma owned_read d u l held :
  (exec (memberships_of_user u) d).1 = Ok l → List.find LimitRoutes.owns l = Some held →
  in_tenant (named_of d) u (member_tenant held) Owner.
Proof.
  intros Hl [Hh Ho%bool_decide_eq_true]%find_elem_of. rewrite <-Ho. by eapply memberships_back.
Qed.

Lemma owned_by_kept {V} m d c r v :
  runs (owned_by (V := V) (St := St) m) (d, c) r v →
  v = (d, c) ∧ ∀ t, r = Ok (Ok t) → in_tenant (named_of d) (mgr_user m) t Owner.
Proof.
  intros Hr. apply runs_read_bind in Hr as [[-> ->]|[-> ->]]; [|done|auto with policy].
  split; [done|]. intros t. destruct (exec _ d).1 as [l|] eqn:El; [|done].
  destruct (List.find _ _) as [held|] eqn:Ef; intros [= <-]. by eapply owned_read.
Qed.

Lemma owner_of_kept {V} m d c r v :
  runs (owner_of (V := V) (St := St) m) (d, c) r v →
  v = (d, c) ∧ ∀ owner, r = Ok (Ok owner) → manages_chain (named_of d) m (owner_tenant owner).
Proof.
  unfold owner_of. destruct (is_system_administrator m) eqn:Ea.
  { intros [-> ->]. split; [done|]. intros owner [= <-]. by apply admin. }
  intros Hr. apply runs_read_bind in Hr as [[-> ->]|[-> ->]]; [|done|auto with policy].
  split; [done|]. intros owner. destruct (exec _ d).1 as [l|] eqn:El; [|done].
  destruct (List.find _ _) as [held|] eqn:Ef; intros [= <-]. split; [by apply not_admin|].
  by eapply owned_read.
Qed.

Lemma may_set_kept {V} m s d c r v :
  runs (may_set (V := V) (St := St) m s) (d, c) r v →
  v = (d, c) ∧ ∀ x, r = Ok (Ok x) → sets_limit (named_of d) m s.
Proof.
  unfold may_set. destruct (is_system_administrator m) eqn:Ea.
  { intros [-> ->]. split; [done|]. intros _ _. left. by apply admin. }
  destruct (limit_user s) as [u|] eqn:Eu; [|by intros [-> ->]].
  intros [(o & v1 & Ho & [-> ->])|(e & Ho & ->)]%runs_seq; apply owned_by_kept in Ho as [-> Ho]; [|done].
  split; [done|]. intros x. destruct o as [t|]; [|done]. case_decide as Et; intros [= ].
  right. split; [by rewrite Eu|]. rewrite <-Et. by apply Ho.
Qed.

Lemma placement_kept {V} m owner p d c r v :
  manages_chain (named_of d) m (owner_tenant owner) →
  runs (placement_scope (V := V) (St := St) owner p) (d, c) r v →
  v = (d, c) ∧ ∀ s, r = Ok (Ok s) →
    manages_chain (named_of d) m (plugin_scope_tenant s) ∧
    match s with TenantScope t (Some u) _ => ∃ st, in_tenant (named_of d) u t st | _ => True end.
Proof.
  intros Ho. unfold placement_scope. destruct owner as [|tenant].
  { destruct (pm_user p); [by intros [-> ->]|]. destruct (pm_api p); [by intros [-> ->]|].
    intros [-> ->]. split; [done|]. by intros s [= <-]. }
  destruct (new_optional (pm_user p)) as [user|]; [|by intros [-> ->]].
  destruct (new_optional (pm_api p)) as [api|]; [|by intros [-> ->]].
  destruct user as [named|]; [|intros [-> ->]; split; [done|]; by intros s [= <-]].
  intros Hr. apply runs_read_bind in Hr as [[-> ->]|[-> ->]]; [|done|auto with policy].
  split; [done|]. intros s. destruct (exec _ d).1 as [[held|]|] eqn:Em; intros [= <-].
  split; [done|]. exists (member_standing held). by apply membership_some.
Qed.

(** Goes on past a part of an endpoint that only reads. *)
Ltac part lem R H :=
  apply runs_seq in R as [(? & ? & H & R)|(? & H & _)]; apply lem in H as [-> H]; [|by left];
  lazymatch type of R with runs (match ?x with _ => _ end) _ _ _ => destruct x; [|endpoint] end.

Lemma route_list_kept m page d c r v :
  runs (list_all (St := St) configured m page) (d, c) r v → kept_to m d v.1.
Proof.
  intros Hr. unfold list_all in Hr. endpoint; [endpoint|]. endpoint; [|endpoint].
  apply runs_read_bind in Hr as [Hr|Hr]; [|..|auto with policy]; endpoint.
Qed.

Lemma claims_in rules key : claims rules key = false → key ∉ rule_key <$> rules.
Proof using.
  intros Hc (rule & E & Hr)%list_elem_of_fmap. apply not_true_iff_false in Hc. apply Hc, existsb_exists.
  exists rule. split; [by apply list_elem_of_In|]. by apply bool_decide_eq_true.
Qed.

Lemma route_put_kept now m body d c r v :
  moment now → runs (RouteRoutes.put (St := St) topic configured now m body) (d, c) r v → kept_to m d v.1.
Proof.
  intros Hn Hr. unfold RouteRoutes.put in Hr. repeat endpoint. published_call Hr Hp.
  eapply (caused _ m (PutRoute _ _)); [reflexivity|done|..]; [|done].
  split; [apply admin; by apply negb_false_iff|]. split; [done|]. by apply claims_in.
Qed.

Lemma route_remove_kept m body d c r v :
  runs (RouteRoutes.remove (St := St) topic m body) (d, c) r v → kept_to m d v.1.
Proof.
  intros Hr. unfold RouteRoutes.remove in Hr. repeat endpoint. published_call Hr Hp.
  eapply (caused _ m (RemoveRoute _)); [reflexivity|done|..]; [|done]. apply admin. by apply negb_false_iff.
Qed.

Lemma reading_kept {V} m named d c r v :
  runs (LimitRoutes.reading (V := V) (St := St) m named) (d, c) r v →
  v = (d, c) ∧ ∀ o, r = Ok (Ok o) → is_admin m ∨ ∃ t, o = Some t ∧ in_tenant (named_of d) (mgr_user m) t Owner.
Proof.
  unfold LimitRoutes.reading. destruct (is_system_administrator m) eqn:Ea.
  { intros [-> ->]. split; [done|]. intros o _. left. by apply admin. }
  intros [(o & v1 & Ho & [-> ->])|(e & Ho & ->)]%runs_seq; apply owned_by_kept in Ho as [-> Ho]; [|done].
  split; [done|]. intros x. destruct o as [t|]; [|done]. specialize (Ho t eq_refl).
  destruct named as [named|]; [case_decide|]; intros [= <-]; eauto.
Qed.

Lemma limit_list_kept m tenant page d c r v :
  runs (list_limits_of (St := St) m tenant page) (d, c) r v → kept_to m d v.1.
Proof.
  intros Hr. unfold list_limits_of in Hr. endpoint; [|endpoint]. part @reading_kept Hr Ho.
  apply runs_read_bind in Hr as [Hr|Hr]; [|..|auto with policy]; endpoint.
Qed.

Lemma limit_put_kept now m body d c r v :
  moment now → runs (LimitRoutes.put (St := St) topic now m body) (d, c) r v → kept_to m d v.1.
Proof.
  intros Hn Hr. unfold LimitRoutes.put in Hr. endpoint; [|endpoint]. endpoint. part @may_set_kept Hr Hm.
  repeat endpoint. published_call Hr Hp. eapply (caused _ m (PutLimit _ _)); [reflexivity|done|..]; [|done].
  by eapply Hm.
Qed.

Lemma limit_remove_kept m body d c r v :
  runs (LimitRoutes.remove (St := St) topic m body) (d, c) r v → kept_to m d v.1.
Proof.
  intros Hr. unfold LimitRoutes.remove in Hr. endpoint; [|endpoint]. endpoint. part @may_set_kept Hr Hm.
  published_call Hr Hp. eapply (caused _ m (RemoveLimit _ _ _)); [reflexivity|done|..]; [|done].
  by eapply Hm.
Qed.

Lemma plugin_list_kept m page d c r v :
  runs (list_plugins_of (St := St) m page) (d, c) r v → kept_to m d v.1.
Proof.
  intros Hr. unfold list_plugins_of in Hr. part @owner_of_kept Hr Ho.
  apply runs_read_bind in Hr as [Hr|Hr]; [|..|auto with policy]; endpoint.
Qed.
Lemma rule_list_kept m page d c r v :
  runs (list_rules_of (St := St) m page) (d, c) r v → kept_to m d v.1.
Proof.
  intros Hr. unfold list_rules_of in Hr. part @owner_of_kept Hr Ho.
  apply runs_read_bind in Hr as [Hr|Hr]; [|..|auto with policy]; endpoint.
Qed.

Lemma upload_kept now m kind wasm d c r v :
  moment now → size_of wasm ≤ u64_max →
  runs (upload (St := St) compile now m kind wasm) (d, c) r v → kept_to m d v.1.
Proof.
  intros Hn Hw Hr. unfold upload in Hr. part @owner_of_kept Hr Ho. repeat endpoint. last_call Hr Hp.
  eapply (caused _ m (PutPlugin _ _)); [reflexivity|done|..]; [|done]. by apply Ho.
Qed.

Lemma disown_kept m checksum d c r v :
  runs (PluginRoutes.disown (St := St) m checksum) (d, c) r v → kept_to m d v.1.
Proof.
  intros Hr. unfold PluginRoutes.disown in Hr. part @owner_of_kept Hr Ho. repeat endpoint. last_call Hr Hp.
  eapply (caused _ m (DisownPlugin _ _)); [reflexivity|done|..]; [|done]. by apply Ho.
Qed.

Lemma place_rule_kept now m body d c r v :
  moment now → runs (place_rule (St := St) topic now m body) (d, c) r v → kept_to m d v.1.
Proof.
  intros Hn Hr. unfold place_rule in Hr. part @owner_of_kept Hr Ho. endpoint; [|endpoint].
  specialize (Ho _ eq_refl). apply runs_seq in Hr as [(? & ? & Hs & Hr)|(? & Hs & _)];
    apply (placement_kept m) in Hs as [-> Hs]; try done; [|by left].
  repeat endpoint. apply runs_then_publish in Hr as [? Hp];
    [|by intros ?; eexists|intros e; destruct e as [[] | | | | | ]; by eexists].
  eapply (caused _ m (PutRule _ _)); [reflexivity|done|..]; [|done].
  match goal with E : new_plugin_rule _ _ _ = Ok _ |- _ => apply bind_ok in E as (? & _ & [= <-]) end.
  by apply Hs.
Qed.

Lemma remove_rule_kept m kind order d c r v :
  runs (remove_rule_at (St := St) topic m kind order) (d, c) r v → kept_to m d v.1.
Proof.
  intros Hr. unfold remove_rule_at in Hr. part @owner_of_kept Hr Ho. repeat endpoint. published_call Hr Hp.
  eapply (caused _ m (RemoveRule _ _ _)); [reflexivity|done|..]; [|done]. by apply Ho.
Qed.

(** What a caller may read of what was spent. *)
Lemma filter_for_kept {V} m n d c r v :
  runs (filter_for (V := V) (St := St) m n) (d, c) r v →
  v = (d, c) ∧ ∀ f, r = Ok (Ok f) → is_admin m ∨
    ∃ t, filter_tenant f = Some t ∧
      (exec (manager_allows m Observer (ScopeTenant (mgr_user m) t)) d).1 = Ok true.
Proof.
  unfold filter_for. destruct (mbind _ _) as [f|]; [|by intros [-> ->]].
  destruct (is_system_administrator m) eqn:Ea.
  { intros [-> ->]. split; [done|]. intros g _. left. by apply admin. }
  destruct (filter_tenant f) as [t|] eqn:Et; [|by intros [-> ->]].
  intros Hr. apply runs_read_bind in Hr as [[-> ->]|[-> ->]]; [|done|auto with policy].
  split; [done|]. intros g. destruct (refusal_of _) eqn:Er; [done|]. intros [= <-].
  apply refusal_none in Er. eauto.
Qed.

Lemma usage_list_kept m n page d c r v :
  runs (list_usage_of (St := St) m n page) (d, c) r v → kept_to m d v.1.
Proof.
  intros Hr. unfold list_usage_of in Hr. part @filter_for_kept Hr Ho.
  apply runs_read_bind in Hr as [Hr|Hr]; [|..|auto with policy]; endpoint.
Qed.

Lemma serve_kept now m q d c r v :
  moment now → fits q → runs (serve topic hash configured compile now m q) (d, c) r v → kept_to m d v.1.
Proof.
  intros Hn Hq. destruct q; cbn [serve]; intros [? Hr]%runs_coded;
    eauto using tenant_create_kept, tenant_read_kept, tenant_remove_kept, user_create_kept,
      user_read_kept, user_remove_kept, member_list_kept, attach_kept, detach_kept, grant_list_kept,
      grant_kept, revoke_kept, account_list_kept, account_grants_kept, account_revokes_kept,
      route_list_kept, route_put_kept, route_remove_kept, limit_list_kept, limit_put_kept,
      limit_remove_kept, plugin_list_kept, upload_kept, disown_kept, rule_list_kept, place_rule_kept,
      remove_rule_kept, usage_list_kept.
Qed.
End permitted.
