(* ===== verification/Governed.v ===== *)
(** * Governed: what holds of the tables however the management api is used

    [well_run] is what the endpoints are written to keep, on the named tables: a tenant has one
    owner and an account owns one tenant at most, a system administrator is in no tenant and
    holds no grant, what is granted inside a tenant is granted to its ordinary members, and
    nothing is granted without what it rests on.  It is kept by every call [permits] lets a
    caller cause, so by every sequence of requests, failures included. *)
From S2P Require Import TenantRoutes UserRoutes MemberRoutes GrantRoutes RouteRoutes LimitRoutes.
From S2P Require Import PluginRoutes UsageRoutes.
From S2P Require Import Prelude Text Ident Key Capability Route LimitCore PluginCore Account.
From S2P Require Import Cache Sled CacheTrait Auth Login Limiter Recorder Sql Schema Integrity.
From S2P Require Import Named IdentityStore IdentitySpec Workflow PluginStore RouteStore LimitStore.
From S2P Require Import ListStore Store Revision Typed Contract Access Publication Manage Web Feed.
From S2P Require Import Admin Policy.

Definition member_key (b : NamedMember) : str * str := (nm_tenant b, nm_user b).
Definition is_owner (b : NamedMember) : Prop := nm_standing b = standing_name Owner.
Definition is_ordinary (b : NamedMember) : Prop := nm_standing b = standing_name OrdinaryMember.
Definition is_sysadmin (u : NamedUser) : Prop := nu_kind u = account_kind_name SystemAdministrator.

Record well_run (n : Named) : Prop := MkWellRun {
  (** Names name one row, and members are of tenants and accounts that are there. *)
  wr_users : NoDup (nu_id <$> n_users n);
  wr_members : NoDup (member_key <$> n_members n);
  wr_tenant : ∀ b, b ∈ n_members n → nm_tenant b ∈ nt_id <$> n_tenants n;
  wr_user : ∀ b, b ∈ n_members n → nm_user b ∈ nu_id <$> n_users n;
  wr_holder : ∀ g, g ∈ n_grants n → ng_user g ∈ nu_id <$> n_users n;
  (** A tenant has an owner, and only one; an account owns one tenant at most. *)
  wr_owned : ∀ t, t ∈ n_tenants n → ∃ b, b ∈ n_members n ∧ nm_tenant b = nt_id t ∧ is_owner b;
  wr_one_owner : ∀ a b, a ∈ n_members n → b ∈ n_members n → is_owner a → is_owner b →
    nm_tenant a = nm_tenant b ∨ nm_user a = nm_user b → a = b;
  (** A system administrator is in no tenant and holds no grant. *)
  wr_admin_out : ∀ u b, u ∈ n_users n → is_sysadmin u → b ∈ n_members n → nm_user b ≠ nu_id u;
  wr_admin_bare : ∀ u g, u ∈ n_users n → is_sysadmin u → g ∈ n_grants n → ng_user g ≠ nu_id u;
  (** What is granted inside a tenant is granted to one of its ordinary members, and rests on
      what it asks for. *)
  wr_grants : ∀ g t, g ∈ n_grants n → ng_tenant g = Some t →
    ∃ b, b ∈ n_members n ∧ member_key b = (t, ng_user g) ∧ is_ordinary b;
  wr_first : ∀ g first, granted_in n g → prerequisite (grant_capability g) = Some first →
    granted_in n (MkGrant first (grant_scope g))
}.

(** ** Names *)

Lemma no_user_row n u : has_user u n = false → val u ∉ nu_id <$> n_users n.
Proof. unfold has_user. by case_bool_decide. Qed.
Lemma no_tenant_row n t : has_tenant t n = false → val t ∉ nt_id <$> n_tenants n.
Proof. unfold has_tenant. by case_bool_decide. Qed.

Lemma put_member_new tenant user standing at_ l :
  (tenant, user) ∉ member_key <$> l →
  put_member tenant user standing at_ l = l ++ [MkNamedMember tenant user standing at_].
Proof. intros Hk. unfold put_member. by rewrite bool_decide_eq_false_2. Qed.

(** One row under a key. *)
Lemma member_unique n a b :
  well_run n → a ∈ n_members n → b ∈ n_members n → member_key a = member_key b → a = b.
Proof.
  intros Hn Ha Hb E. apply list_elem_of_lookup in Ha as [i Hi]. apply list_elem_of_lookup in Hb as [j Hj].
  enough (i = j) by congruence. eapply (NoDup_lookup (member_key <$> n_members n)); [apply Hn|..];
    rewrite list_lookup_fmap; [by rewrite Hi|by rewrite Hj, E].
Qed.
Lemma user_unique n a b : well_run n → a ∈ n_users n → b ∈ n_users n → nu_id a = nu_id b → a = b.
Proof.
  intros Hn Ha Hb E. apply list_elem_of_lookup in Ha as [i Hi]. apply list_elem_of_lookup in Hb as [j Hj].
  enough (i = j) by congruence. eapply (NoDup_lookup (nu_id <$> n_users n)); [apply Hn|..];
    rewrite list_lookup_fmap; [by rewrite Hi|by rewrite Hj, E].
Qed.

Lemma standing_names : standing_name Owner ≠ standing_name OrdinaryMember.
Proof. done. Qed.
Lemma kind_names : account_kind_name Regular ≠ account_kind_name SystemAdministrator.
Proof. done. Qed.

(** An account that is not a system administrator is not one under any row. *)
Lemma regular_not_admin n u r :
  well_run n → has_kind n u Regular → r ∈ n_users n → nu_id r = val u → ¬ is_sysadmin r.
Proof.
  intros Hn (x & Hx & Hid & Hk) Hr Hu Ha. assert (r = x) as -> by (eapply user_unique; try done; congruence).
  unfold is_sysadmin in Ha. rewrite Hk in Ha. by apply kind_names.
Qed.

Lemma NoDup_fmap_filter {A B} (f : A → B) (P : A → Prop) `{∀ x, Decision (P x)} l :
  NoDup (f <$> l) → NoDup (f <$> filter P l).
Proof. intros Hn. eapply sublist_NoDup; [done|]. apply fmap_sublist, sublist_filter. Qed.

Lemma NoDup_fmap_snoc {A B} (f : A → B) l x : NoDup (f <$> l) → f x ∉ f <$> l → NoDup (f <$> l ++ [x]).
Proof.
  intros Hn Hx. rewrite fmap_app. apply NoDup_app. split; [done|]. split; [|apply NoDup_singleton].
  intros y Hy ->%list_elem_of_singleton. done.
Qed.

(** ** Accounts and tenants that come into being *)

Lemma well_run_create_user n u passphrase kind at_ :
  well_run n → has_user u n = false →
  well_run (on_users (λ l, l ++ [MkNamedUser (val u) passphrase kind at_]) n).
Proof.
  intros Hn Hu%no_user_row. constructor; cbn.
  - apply NoDup_fmap_snoc; [apply Hn|done].
  - apply Hn.
  - apply Hn.
  - intros b Hb. rewrite fmap_app. apply elem_of_app. left. by apply (wr_user n).
  - intros g Hg. rewrite fmap_app. apply elem_of_app. left. by apply (wr_holder n).
  - apply Hn.
  - apply Hn.
  - intros r b [Hr|Hr]%elem_of_app Ha Hb; [by apply (wr_admin_out n)|].
    apply list_elem_of_singleton in Hr as ->. cbn. intros E. apply Hu. rewrite <-E. by apply (wr_user n).
  - intros r g [Hr|Hr]%elem_of_app Ha Hg; [by apply (wr_admin_bare n)|].
    apply list_elem_of_singleton in Hr as ->. cbn. intros E. apply Hu. rewrite <-E. by apply (wr_holder n).
  - apply Hn.
  - apply Hn.
Qed.

(** A member who was not in, and is no system administrator. *)
Lemma well_run_join n t u at_ :
  well_run n → has_tenant t n = true → has_kind n u Regular →
  (val t, val u) ∉ member_key <$> n_members n →
  well_run (on_members (put_member (val t) (val u) (standing_name OrdinaryMember) at_) n).
Proof.
  intros Hn Ht Hu Hk. unfold on_members, with_n_identity. rewrite put_member_new by done.
  assert (val t ∈ nt_id <$> n_tenants n) as Ht' by (unfold has_tenant in Ht; by apply bool_decide_eq_true in Ht).
  assert (val u ∈ nu_id <$> n_users n) as Hu'
    by (destruct Hu as (x & Hx & <- & _); apply list_elem_of_fmap; eauto).
  constructor; cbn.
  - apply Hn.
  - apply NoDup_fmap_snoc; [apply Hn|done].
  - intros b [Hb|Hb]%elem_of_app; [by apply (wr_tenant n)|]. by apply list_elem_of_singleton in Hb as ->.
  - intros b [Hb|Hb]%elem_of_app; [by apply (wr_user n)|]. by apply list_elem_of_singleton in Hb as ->.
  - apply Hn.
  - intros x Hx. destruct (wr_owned n Hn x Hx) as (b & Hb & ?). exists b. split; [|done]. apply elem_of_app. by left.
  - intros a b [Ha|Ha]%elem_of_app [Hb|Hb]%elem_of_app Oa Ob; [by apply (wr_one_owner n)|..];
      first [apply list_elem_of_singleton in Ha as ->|apply list_elem_of_singleton in Hb as ->]; done.
  - intros r b Hr Ha [Hb|Hb]%elem_of_app; [by apply (wr_admin_out n)|].
    apply list_elem_of_singleton in Hb as ->. cbn. intros E. by eapply (regular_not_admin n u r).
  - apply Hn.
  - intros g x Hg Hx. destruct (wr_grants n Hn g x Hg Hx) as (b & Hb & ?). exists b. split; [|done]. apply elem_of_app. by left.
  - apply Hn.
Qed.

(** A tenant together with the account that owns it, both new. *)
Lemma well_run_found n t u key passphrase at_ :
  well_run n → has_tenant t n = false → has_user u n = false →
  well_run (with_n_identity (n_tenants n ++ [MkNamedTenant (val t) key at_])
    (n_users n ++ [MkNamedUser (val u) passphrase (account_kind_name Regular) at_])
    (n_members n ++ [MkNamedMember (val t) (val u) (standing_name Owner) at_]) (n_grants n) n).
Proof.
  intros Hn Ht%no_tenant_row Hu. apply no_user_row in Hu as Hu'.
  pose proof (well_run_create_user n u passphrase (account_kind_name Regular) at_ Hn Hu) as Hn1.
  assert (∀ b, b ∈ n_members n → nm_tenant b ≠ val t ∧ nm_user b ≠ val u) as Hnew.
  { intros b Hb. split; intros E; [apply Ht|apply Hu']; rewrite <-E; [by apply (wr_tenant n)|by apply (wr_user n)]. }
  constructor; cbn.
  - apply Hn1.
  - apply NoDup_fmap_snoc; [apply Hn|]. intros (b & [= E _] & Hb)%list_elem_of_fmap. by destruct (Hnew b Hb).
  - intros b Hb. rewrite fmap_app. apply elem_of_app. apply elem_of_app in Hb as [Hb|Hb];
      [left; by apply (wr_tenant n)|right; by apply list_elem_of_singleton in Hb as ->; apply list_elem_of_here].
  - intros b Hb. rewrite fmap_app. apply elem_of_app. apply elem_of_app in Hb as [Hb|Hb];
      [left; by apply (wr_user n)|right; by apply list_elem_of_singleton in Hb as ->; apply list_elem_of_here].
  - apply Hn1.
  - intros x [Hx|Hx]%elem_of_app.
    + destruct (wr_owned n Hn x Hx) as (b & Hb & ?). exists b. split; [|done]. apply elem_of_app. by left.
    + apply list_elem_of_singleton in Hx as ->. eexists. split; [apply elem_of_app; right; apply list_elem_of_here|done].
  - intros a b [Ha|Ha]%elem_of_app [Hb|Hb]%elem_of_app Oa Ob;
      try apply list_elem_of_singleton in Ha as ->; try apply list_elem_of_singleton in Hb as ->; cbn.
    + by apply (wr_one_owner n).
    + destruct (Hnew a Ha). intros [?|?]; done.
    + destruct (Hnew b Hb). intros [E|E]; by symmetry in E.
    + done.
  - intros r b Hr Ha [Hb|Hb]%elem_of_app; [by apply (wr_admin_out _ Hn1)|].
    apply list_elem_of_singleton in Hb as ->. cbn. intros E. apply elem_of_app in Hr as [Hr|Hr].
    + apply Hu'. rewrite E. by apply list_elem_of_fmap_2.
    + apply list_elem_of_singleton in Hr as ->. by apply kind_names in Ha.
  - apply Hn1.
  - intros g x Hg Hx. destruct (wr_grants n Hn g x Hg Hx) as (b & Hb & ?). exists b.
    split; [|done]. apply elem_of_app. by left.
  - apply Hn.
Qed.

(** ** What goes *)

(** Grants that go by holder and tenant go with what rests on them. *)
Lemma first_filter n n' (P : NamedGrant → Prop) `{∀ g, Decision (P g)} :
  n_grants n' = filter P (n_grants n) →
  (∀ a b, ng_user a = ng_user b → ng_tenant a = ng_tenant b → P a → P b) →
  well_run n → ∀ g first, granted_in n' g → prerequisite (grant_capability g) = Some first →
    granted_in n' (MkGrant first (grant_scope g)).
Proof.
  intros E HP Hn g first Hg Hf. unfold granted_in in *. rewrite E in *.
  apply list_elem_of_fmap in Hg as (a & Ea & [HPa Ha]%list_elem_of_filter).
  assert (granted_in n g) as Hg by (apply list_elem_of_fmap; eauto).
  apply (wr_first n Hn g first Hg) in Hf as (b & Eb & Hb)%list_elem_of_fmap.
  apply list_elem_of_fmap. exists b. split; [done|]. apply list_elem_of_filter. split; [|done].
  injection Ea as Eu Et _ _. injection Eb as Fu Ft _ _. apply (HP a b); congruence.
Qed.

(** Members and accounts that go: what is left is as it was, for as long as no owner goes
    without its tenant and no account before its places and grants. *)
Lemma well_run_less n n' (keeps : NamedMember → Prop) (P : NamedGrant → Prop)
    `{∀ b, Decision (keeps b), ∀ g, Decision (P g)} :
  well_run n →
  n_members n' = filter keeps (n_members n) → n_grants n' = filter P (n_grants n) →
  (∀ t, t ∈ n_tenants n' → t ∈ n_tenants n) → (∀ u, u ∈ n_users n' → u ∈ n_users n) →
  NoDup (nu_id <$> n_users n') →
  (∀ b, b ∈ n_members n' → nm_tenant b ∈ nt_id <$> n_tenants n' ∧ nm_user b ∈ nu_id <$> n_users n') →
  (∀ g, g ∈ n_grants n' → ng_user g ∈ nu_id <$> n_users n') →
  (∀ b, b ∈ n_members n → is_owner b → (∃ t, t ∈ n_tenants n' ∧ nt_id t = nm_tenant b) → keeps b) →
  (∀ g b, P g → ng_tenant g = Some (nm_tenant b) → nm_user b = ng_user g → keeps b) →
  (∀ a b, ng_user a = ng_user b → ng_tenant a = ng_tenant b → P a → P b) →
  well_run n'.
Proof.
  intros Hn Em Eg Ht Hu Hnd Hb Hg Ho Hh HP.
  assert (∀ b, b ∈ n_members n' → b ∈ n_members n) as Hbn by (rewrite Em; by intros b [_ ?]%list_elem_of_filter).
  assert (∀ g, g ∈ n_grants n' → g ∈ n_grants n) as Hgn by (rewrite Eg; by intros g [_ ?]%list_elem_of_filter).
  constructor.
  - done.
  - rewrite Em. apply NoDup_fmap_filter, Hn.
  - intros b Hin. by apply Hb.
  - intros b Hin. by apply Hb.
  - done.
  - intros t Hin. destruct (wr_owned n Hn t (Ht t Hin)) as (b & Hbin & E & Hown). exists b.
    split; [|done]. rewrite Em. apply list_elem_of_filter. split; [|done]. eauto.
  - intros a b Ha Hin. apply (wr_one_owner n Hn); auto.
  - intros u b Hin Ha Hbin. apply (wr_admin_out n Hn); auto.
  - intros u g Hin Ha Hgin. apply (wr_admin_bare n Hn); auto.
  - intros g t Hin E. destruct (wr_grants n Hn g t (Hgn g Hin) E) as (b & Hbin & [= E1 E2] & Hord).
    exists b. split; [|by unfold member_key; rewrite E1, E2]. rewrite Em. apply list_elem_of_filter. split; [|done].
    rewrite Eg in Hin. apply list_elem_of_filter in Hin as [HPg _]. apply (Hh g b); congruence.
  - by apply (first_filter n n' P).
Qed.

Lemma well_run_drop_tenant n t : well_run n → well_run (drop_tenant t n).
Proof.
  intros Hn. apply (well_run_less n _ (λ x, nm_tenant x ≠ t) (λ x, ng_tenant x ≠ Some t)); try done; cbn.
  - by intros x [_ ?]%list_elem_of_filter.
  - apply Hn.
  - intros b [Hb Hin]%list_elem_of_filter. split; [|by apply (wr_user n)].
    apply (wr_tenant n Hn) in Hin as (x & E & Hx)%list_elem_of_fmap. rewrite E in *.
    apply list_elem_of_fmap_2, list_elem_of_filter. done.
  - intros g [_ Hg]%list_elem_of_filter. by apply (wr_holder n).
  - intros b _ _ (x & [Hx _]%list_elem_of_filter & <-). done.
  - intros g b Hg E _ <-. done.
  - congruence.
Qed.

Lemma well_run_drop_user n u :
  well_run n → (∀ b, b ∈ n_members n → nm_user b = u → ¬ is_owner b) → well_run (drop_user u n).
Proof.
  intros Hn Ho. apply (well_run_less n _ (λ x, nm_user x ≠ u) (λ x, ng_user x ≠ u)); try done; cbn.
  - by intros x [_ ?]%list_elem_of_filter.
  - apply NoDup_fmap_filter, Hn.
  - intros b [Hb Hin]%list_elem_of_filter. split; [by apply (wr_tenant n)|].
    apply (wr_user n Hn) in Hin as (x & E & Hx)%list_elem_of_fmap. rewrite E in *.
    apply list_elem_of_fmap_2, list_elem_of_filter. done.
  - intros g [Hg Hin]%list_elem_of_filter.
    apply (wr_holder n Hn) in Hin as (x & E & Hx)%list_elem_of_fmap. rewrite E in *.
    apply list_elem_of_fmap_2, list_elem_of_filter. done.
  - intros b Hb Hown _ E. by destruct (Ho b).
  - intros g b Hg _ ->. done.
  - congruence.
Qed.

Lemma well_run_leave n user tenant :
  well_run n → in_tenant n user tenant OrdinaryMember →
  well_run (with_n_identity (n_tenants n) (n_users n)
    (filter (λ m, ¬ is_member user tenant m) (n_members n))
    (filter (λ g, ¬ holds_in user tenant g) (n_grants n)) n).
Proof.
  intros Hn (m & Hm & [Et Eu] & Es).
  apply (well_run_less n _ (λ m, ¬ is_member user tenant m) (λ g, ¬ holds_in user tenant g)); try done; cbn.
  - apply Hn.
  - intros b [_ Hb]%list_elem_of_filter. split; [by apply (wr_tenant n)|by apply (wr_user n)].
  - intros g [_ Hg]%list_elem_of_filter. by apply (wr_holder n).
  - intros b Hb Hown _ [Ft Fu]. apply standing_names. rewrite <-Es, <-Hown. f_equal.
    apply (member_unique n); try done. unfold member_key. congruence.
  - intros g b Hg E1 E2 [Ft Fu]. apply Hg. split; congruence.
  - unfold holds_in. intros a b -> ->. done.
Qed.

(** ** What is granted and taken back *)

Lemma same_capability a b : capability_name a = capability_name b → a = b.
Proof. intros E. assert (capability (capability_name b) = Ok a) as Ha by (by apply capability_ok).
  assert (capability (capability_name b) = Ok b) as Hb by (by apply capability_ok). congruence.
Qed.

(** Two grants of one name: the same capability, and scopes that name other grants alike. *)
Lemma same_names g g' :
  names_of_grant g = names_of_grant g' →
  grant_capability g = grant_capability g' ∧
  ∀ c, names_of_grant (MkGrant c (grant_scope g)) = names_of_grant (MkGrant c (grant_scope g')).
Proof.
  intros [= Eu Et Ea Ec]. split; [by apply same_capability|].
  intros c. unfold names_of_grant. cbn. congruence.
Qed.

Lemma well_run_grant n g b :
  well_run n → may_hold n (grant_scope g) → has_user (scope_user (grant_scope g)) n = true →
  (∀ first, prerequisite (grant_capability g) = Some first → granted_in n (MkGrant first (grant_scope g))) →
  grant_names b = names_of_grant g → well_run (on_grants (λ l, l ++ [b]) n).
Proof.
  intros Hn Hh Hu Hf Eb. injection Eb as Eu Et Ea Ec.
  unfold has_user in Hu. apply bool_decide_eq_true in Hu.
  constructor; cbn; try apply Hn.
  - intros x [Hx|Hx]%elem_of_app; [by apply (wr_holder n)|]. apply list_elem_of_singleton in Hx as ->. by rewrite Eu.
  - intros r x Hr Ha [Hx|Hx]%elem_of_app; [by apply (wr_admin_bare n)|].
    apply list_elem_of_singleton in Hx as ->. rewrite Eu. unfold may_hold in Hh.
    destruct (scope_tenant (grant_scope g)) as [t|].
    + destruct Hh as (m & Hm & [_ <-] & _). by apply (wr_admin_out n).
    + intros E. by apply (regular_not_admin n (scope_user (grant_scope g)) r).
  - intros x t [Hx|Hx]%elem_of_app; [by apply (wr_grants n)|]. apply list_elem_of_singleton in Hx as ->.
    rewrite Et. unfold may_hold in Hh. destruct (scope_tenant (grant_scope g)) as [t'|]; [|done].
    intros [= <-]. destruct Hh as (m & Hm & [Mt Mu] & Ms). exists m. split; [done|]. split; [|done].
    unfold member_key. congruence.
  - unfold granted_in. cbn. intros g' first Hg' Hp. rewrite fmap_app in *. apply elem_of_app. left.
    apply elem_of_app in Hg' as [Hg'|Hg']; [by apply (wr_first n)|].
    apply list_elem_of_singleton in Hg'. change (names_of_grant g' = grant_names b) in Hg'.
    assert (names_of_grant g' = names_of_grant g) as [Hc Hs]%same_names
      by (rewrite Hg'; unfold grant_names, names_of_grant; congruence).
    rewrite Hs. apply Hf. by rewrite <-Hc.
Qed.

Lemma well_run_revoke n g :
  well_run n →
  (∀ c, prerequisite c = Some (grant_capability g) → ¬ granted_in n (MkGrant c (grant_scope g))) →
  well_run (on_grants (filter (λ x, grant_names x ≠ names_of_grant g)) n).
Proof.
  intros Hn Hno. constructor; cbn; try apply Hn.
  - intros x [_ Hx]%list_elem_of_filter. by apply (wr_holder n).
  - intros r x Hr Ha [_ Hx]%list_elem_of_filter. by apply (wr_admin_bare n).
  - intros x t [_ Hx]%list_elem_of_filter. by apply (wr_grants n).
  - unfold granted_in. cbn. intros g' first (x & Ex & [_ Hx]%list_elem_of_filter)%list_elem_of_fmap Hp.
    assert (granted_in n g') as Hg' by (apply list_elem_of_fmap; eauto).
    apply (wr_first n Hn _ _ Hg') in Hp as Hq. apply list_elem_of_fmap in Hq as (y & Ey & Hy).
    apply list_elem_of_fmap. exists y. split; [done|]. apply list_elem_of_filter. split; [|done].
    intros E. rewrite <-Ey in E. apply same_names in E as [Ec Es]. cbn in *.
    apply (Hno (grant_capability g')); [by rewrite <-Ec|].
    unfold granted_in. rewrite <-Es. by destruct g'.
Qed.

(** ** Every permitted call keeps the tables well run *)

Lemma fresh_member n u t : well_run n → has_user u n = false → (t, val u) ∉ member_key <$> n_members n.
Proof.
  intros Hn Hu%no_user_row (b & [= _ E] & Hb)%list_elem_of_fmap. apply Hu. rewrite E. by apply (wr_user n).
Qed.

Lemma absent_member n u t :
  well_run n → (∀ b, b ∈ n_members n → ∃ s, nm_standing b = standing_name s) →
  (∀ s, ¬ in_tenant n u t s) → (val t, val u) ∉ member_key <$> n_members n.
Proof.
  intros Hn Hs Hno (b & [= Et Eu] & Hb)%list_elem_of_fmap. destruct (Hs b Hb) as [s E].
  apply (Hno s). exists b. done.
Qed.

(** Calls on other things leave who is who alone. *)
Definition same_identity (d d' : Db) : Prop :=
  tenants d' = tenants d ∧ users d' = users d ∧ memberships d' = memberships d ∧ grants d' = grants d.
#[export] Instance same_identity_preorder : PreOrder same_identity.
Proof. split; unfold same_identity; [done|]. intros d e f (?&?&?&?) (?&?&?&?). split_and!; congruence. Qed.

Lemma same_identity_writes `{Engine} `{Chrono} `{Crypto} : allowed_writes same_identity False True False.
Proof.
  split; try done; intros; intros d x d' Hs;
    unfold upsert_route, delete_from_routes, insert_into_route_targets, delete_from_route_targets,
      insert_plugin_once, delete_from_plugins, insert_owner_once, delete_from_plugin_owners,
      insert_into_plugin_rules, delete_from_plugin_rules, upsert_limit, delete_from_limits,
      insert_into_usage, delete_from_usage in Hs; unfold same_identity; aside; done.
Qed.

Lemma well_run_same d d' : same_identity d d' → well_run (named_of d) → well_run (named_of d').
Proof.
  intros (Et & Eu & Em & Eg) Hn. assert (n_tenants (named_of d') = n_tenants (named_of d)) as E1 by (cbn; by rewrite Et).
  assert (n_users (named_of d') = n_users (named_of d)) as E2 by (cbn; by rewrite Eu).
  assert (n_members (named_of d') = n_members (named_of d)) as E3 by (cbn; by rewrite Et, Eu, Em).
  assert (n_grants (named_of d') = n_grants (named_of d)) as E4 by (cbn; by rewrite Et, Eu, Eg).
  destruct Hn. unfold granted_in in *. split; unfold granted_in; rewrite ?E1, ?E2, ?E3, ?E4; done.
Qed.

Section permitted.
Context `{Engine} `{Chrono} `{Crypto} `{SnapshotCodec} {St : Type} `{!Publication St}.
Context (topic : CacheKey) (hash : Passphrase → option PassphraseHash).
Context (configured : list RouteRule) (compile : list Z → result (option str) unit).

Lemma aside_well_run c d r d' :
  ¬ on_identity c → well_run (named_of d) → runs (perform c) d r d' → well_run (named_of d').
Proof.
  intros Hc Hn Hr. eapply well_run_same; [|done]. eapply (runs_obeys same_identity); [|exact Hr].
  by apply (perform_obeys same_identity False True False same_identity_writes).
Qed.

Lemma permitted_well_run n m c f r n' :
  well_run n → readable n → permits configured n m c → spec_of c = Some f → f n = (r, n') → well_run n'.
Proof.
  intros Hn Hrd. destruct c; intros Hp; try done; intros [= <-]; cbn in Hp.
  - unfold spec_delete_tenant. destruct (has_tenant _ _); intros [= _ <-]; [|done].
    by apply well_run_drop_tenant.
  - unfold spec_delete_user. destruct (has_user _ _); intros [= _ <-]; [|done].
    apply well_run_drop_user; [done|]. destruct Hp as (_ & _ & Ho & _). intros b Hb E Hown.
    destruct (proj1 (Forall_forall _ _) (read_members n Hrd) b Hb) as ((t & Et) & _).
    apply (Ho t). by exists b.
  - destruct Hp as (_ & Hs & Hk & Hno). unfold spec_attach. rewrite Hs.
    destruct (has_tenant _ _) eqn:Ht; cbn [negb]; [|by intros [= _ <-]].
    destruct (has_user _ _); cbn [negb]; intros [= _ <-]; [|done].
    apply well_run_join; [done..|]. apply absent_member; [done| |done]. intros b Hb.
    by destruct (proj1 (Forall_forall _ _) (read_members n Hrd) b Hb) as (_ & _ & ? & _).
  - destruct Hp as (_ & _ & Hh & Hf). unfold spec_grant, scope_known.
    destruct (has_user _ _) eqn:Hu; cbn [negb]; [|by intros [= _ <-]].
    destruct (match scope_tenant _ with Some _ => _ | None => _ end); [|by intros [= _ <-]].
    case_bool_decide; intros [= _ <-]; [done|]. by apply (well_run_grant n g).
  - destruct Hp as (_ & _ & Hno). unfold spec_revoke. destruct (scope_known _ _); [|by intros [= _ <-]].
    case_bool_decide; intros [= _ <-]; [|done]. by apply well_run_revoke.
  - destruct Hp as (_ & Hk & ->). unfold spec_user_create, all_or_none, and_then, spec_create_tenant.
    destruct (has_tenant _ _) eqn:Ht; [by intros [= _ <-]|]. unfold spec_create_user.
    change (has_user (new_user_id owner) (on_tenants _ n)) with (has_user (new_user_id owner) n).
    destruct (has_user _ _) eqn:Hu; [by intros [= _ <-]|]. unfold spec_attach. cbn [member_tenant member_user].
    destruct (negb (has_tenant _ _)); [by intros [= _ <-]|].
    destruct (negb (has_user _ _)); intros [= _ <-]; [done|].
    unfold on_members, on_users, on_tenants, with_n_identity. cbn. rewrite Hk.
    rewrite put_member_new by (by apply fresh_member). by apply well_run_found.
  - destruct Hp as (_ & Hk & ->). unfold spec_member_add, all_or_none, and_then, spec_create_user.
    destruct (has_user _ _) eqn:Hu; [by intros [= _ <-]|]. unfold spec_attach. cbn [member_tenant member_user].
    destruct (has_tenant _ _) eqn:Ht; cbn [negb]; [|by intros [= _ <-]].
    destruct (has_user _ (on_users _ n)); cbn [negb]; intros [= _ <-]; [|done].
    apply well_run_join; [by apply well_run_create_user|done| |by apply (fresh_member n)].
    eexists. split; [apply elem_of_app; right; apply list_elem_of_here|]. by rewrite Hk.
  - destruct Hp as [_ Hm]. unfold spec_member_remove. case_bool_decide; intros [= _ <-]; [done|].
    by apply well_run_leave.
Qed.

(** A call of a caller that may cause it, or none. *)
Lemma kept_well_run m d d' :
  sound d → typed d → well_run (named_of d) → kept_to configured m d d' →
  sound d' ∧ typed d' ∧ well_run (named_of d').
Proof.
  intros Hd Ht Hn [->|(c & r & Hp & Ha & E)]; [done|].
  pose proof (runs_exec (perform c) d) as Hr. rewrite E in Hr. cbn in Hr.
  split; [by eapply perform_intact|]. split; [by eapply perform_typed|].
  destruct (spec_of c) as [f|] eqn:Hf; [|apply (aside_well_run c d r); [destruct c; cbn; (done || tauto)|done..]].
  destruct (perform_follows c f d r d' Hd Ht Ha Hf Hr) as [Hs|[_ Hs]]; [|by rewrite Hs].
  eapply permitted_well_run; [done|by apply typed_readable|done..].
Qed.

Lemma sysadmin_well_run hashing now user passphrase d r d' :
  moment now → sound d → typed d → well_run (named_of d) →
  runs (create_sysadmin hashing now user passphrase) d r d' →
  sound d' ∧ typed d' ∧ well_run (named_of d').
Proof.
  intros Hm Hd Ht Hn Hr. unfold create_sysadmin in Hr.
  destruct (hashing passphrase) as [hashed|e]; [|by destruct Hr as [_ ->]].
  set (new := MkNewUser user hashed SystemAdministrator) in *.
  assert (∃ r0, runs (create_user now new) d r0 d') as [r0 Hc].
  { apply runs_seq in Hr as [(? & ? & Hc & [_ ->])|(? & Hc & _)]; apply runs_attempt in Hc as (? & _ & ?); eauto. }
  apply runs_done in Hc as [r1 Hc].
  change (done (create_user now new)) with (perform (CreateUser now new)) in Hc.
  assert (admissible (CreateUser now new)) as Ha by done.
  split; [by eapply perform_intact|]. split; [by eapply perform_typed|].
  edestruct (perform_follows (CreateUser now new)) as [Hs|Hs]; [done..|reflexivity|exact Hc| |by destruct Hs as [_ Hs]; rewrite Hs].
  unfold spec_create_user in Hs. destruct (has_user _ _) eqn:Hu; apply (f_equal snd) in Hs; cbn [snd] in Hs;
    rewrite <-Hs; [done|].
  by apply (well_run_create_user (named_of d) (new_user_id new)).
Qed.

(** What a server does to its database: a request of the management api served for a caller at
    a moment, with any of its statements failing, an administrator created on the machine
    itself, or any call that is not on who is who, as recording and sweeping usage. *)
Inductive manages : Server St → Server St → Prop :=
  | manages_request now m q v r v' :
      moment now → fits q → runs (serve topic hash configured compile now m q) v r v' → manages v v'
  | manages_admin hashing now user passphrase d c r d' :
      moment now → runs (create_sysadmin hashing now user passphrase) d r d' → manages (d, c) (d', c)
  | manages_aside call d c c' r d' :
      ¬ on_identity call → admissible call → runs (perform call) d r d' → manages (d, c) (d', c').

Lemma manages_well_run v v' :
  manages v v' → sound v.1 → typed v.1 → well_run (named_of v.1) →
  sound v'.1 ∧ typed v'.1 ∧ well_run (named_of v'.1).
Proof.
  intros [now m q [d c] r v1 Hm Hq Hr|hashing now user passphrase d c r d1 Hm Hr|call d c c' r d1 Hc Ha Hr] Hd Ht Hn.
  - apply (kept_well_run m d); [done..|]. by eapply serve_kept.
  - by eapply sysadmin_well_run.
  - split; [by eapply perform_intact|]. split; [by eapply perform_typed|]. by eapply aside_well_run.
Qed.

(** C6: however the management api is used, a tenant that exists has exactly one owner, no
    account owns two tenants, a system administrator is in no tenant and holds no grant,
    everything granted inside a tenant is granted to one of its ordinary members, and no grant is
    there without the one it rests on: all this holds of the tables after any sequence of
    requests by any callers, whichever statements fail, with administrators created and usage
    recorded in between. *)
Theorem management_well_run v v' :
  sound v.1 → typed v.1 → well_run (named_of v.1) → rtc manages v v' → well_run (named_of v'.1).
Proof.
  intros Hd Ht Hn Hs. enough (sound v'.1 ∧ typed v'.1 ∧ well_run (named_of v'.1)) by tauto.
  induction Hs as [v|v v1 v' Hs _ IH]; [done|].
  destruct (manages_well_run v v1 Hs Hd Ht Hn) as (? & ? & ?). by apply IH.
Qed.

(** C2: no endpoint goes past the policy: whatever the management api is asked, by whom and with
    whichever statement failing, the database is left as it was or has had exactly one call of
    the stores done to it, whole, and one that the caller was permitted in the state the request
    found: tenants by their managers, a tenant's users by its user managers, grants by whoever
    administers the tenant, accounts only by callers that manage every tenant they are in,
    routing rules by the system administrator, limits and plugins by the system administrator or
    by a tenant's owner inside its own tenant. *)
Theorem management_permitted now m q d c r v :
  moment now → fits q → runs (serve topic hash configured compile now m q) (d, c) r v →
  v.1 = d ∨ ∃ call r0, permits configured (named_of d) m call ∧ exec (perform call) d = (r0, v.1).
Proof.
  intros Hm Hq Hr.
  destruct (serve_kept topic hash configured compile now m q d c r v Hm Hq Hr) as [->|(call & r0 & Hp & _ & E)]; eauto.
Qed.
End permitted.

Lemma well_run_migrated : well_run (named_of migrated).
Proof.
  constructor; [apply NoDup_nil_2|apply NoDup_nil_2|..]; unfold granted_in; cbn; intros; exfalso;
    by eapply not_elem_of_nil.
Qed.

Module GovernedSample.
Import SampleCrypto SampleChrono StoreSample Memory FeedSample.

Definition hashed (p : Passphrase) : option PassphraseHash := Some hash.
Definition root : UserId := MkRefined (check := validate_id "user id") #"root" eq_refl.
Definition passphrase : Passphrase := MkRefined (check := check_passphrase) #"correct horse staple" eq_refl.
Definition by_root : Manager := MkManager root SystemAdministrator BySession.
Definition by_owner : Manager := MkManager user Regular BySession.

(** The administrator is created, then a tenant with its owner, who takes a member in and
    lets the member manage users. *)
Definition start : Server View := (migrated, empty_view).
Definition installed : Server View :=
  ((exec (create_sysadmin (λ _, Ok hash) 1000 root passphrase) migrated).2, empty_view).
Definition compiles (wasm : list Z) : result (option str) unit := Ok tt.
Abbreviation served := (serve feed_topic hashed [] compiles).
Definition after (now : Timestamp) (m : Manager) (q : Asked) (v : Server View) : Server View :=
  (exec (served now m q) v).2.
Definition found_acme : Asked :=
  PostTenant (TenantRoutes.MkNewTenantRequest (val tenant) (val user) #"correct horse staple") (Some key).
Definition take_in_bob : Asked :=
  PostUser (UserRoutes.MkNewUserRequest (val bob) (val tenant) #"correct horse staple").
Definition trust_bob : Asked := PutGrant (val tenant) (val bob) #"user_mgr" None.
Definition founded : Server View := after 1001 by_root found_acme installed.
Definition joined : Server View := after 1002 by_owner take_in_bob founded.
Definition trusted : Server View := after 1003 by_owner trust_bob joined.

Abbreviation manages_here := (manages feed_topic hashed [] compiles).
Lemma asked now m q v : moment now → fits q → manages_here v (after now m q v).
Proof. intros Hm Hq. eapply (manages_request feed_topic hashed [] compiles now m q); [done..|]. apply runs_exec. Qed.

Lemma management_well_run_witness :
  length (n_grants (named_of trusted.1)) = 1%nat ∧ well_run (named_of trusted.1).
Proof.
  split; [vm_compute; reflexivity|].
  apply (management_well_run feed_topic hashed [] compiles start).
  - apply sound_migrated.
  - apply typed_migrated.
  - apply well_run_migrated.
  - apply (rtc_l _ _ installed); [|apply (rtc_l _ _ founded); [|apply (rtc_l _ _ joined)]].
    + eapply (manages_admin feed_topic hashed [] compiles (λ _, Ok hash) 1000 root passphrase); [|apply runs_exec].
      vm_compute. reflexivity.
    + apply asked; [vm_compute; reflexivity|done].
    + apply asked; [vm_compute; reflexivity|done].
    + apply rtc_once, asked; [vm_compute; reflexivity|done].
Defined.

(** What holds after the first three of them. *)
Lemma joined_ok : sound joined.1 ∧ typed joined.1 ∧ well_run (named_of joined.1).
Proof.
  assert (moment 1000 ∧ moment 1001 ∧ moment 1002) as (H0 & H1 & H2) by (split_and!; vm_compute; reflexivity).
  destruct (manages_well_run feed_topic hashed [] compiles start installed) as (? & ? & ?);
    [|apply sound_migrated|apply typed_migrated|apply well_run_migrated|].
  { by eapply (manages_admin feed_topic hashed [] compiles (λ _, Ok hash) 1000 root passphrase); [|apply runs_exec]. }
  destruct (manages_well_run feed_topic hashed [] compiles installed founded) as (? & ? & ?); [by apply asked|done..|].
  by apply (manages_well_run feed_topic hashed [] compiles founded joined); [apply asked|..].
Qed.

Lemma management_permitted_witness :
  trusted.1 = joined.1 ∨
  ∃ call r0, permits [] (named_of joined.1) by_owner call ∧ exec (perform call) joined.1 = (r0, trusted.1).
Proof.
  apply (management_permitted feed_topic hashed [] compiles 1003 by_owner trust_bob joined.1 joined.2
    (exec (served 1003 by_owner trust_bob) joined).1).
  - vm_compute. reflexivity.
  - done.
  - unfold trusted, after. destruct joined as [d c]. cbn [fst snd]. apply runs_exec.
Defined.

(** ** What a race can leave behind *)

(** The owner takes the member out while a grant to the same member is on its way: [grant] has
    read the membership, [detach] takes it away with the member's grants, and then [grant]
    writes its own. *)
Definition racing : list (act View Z) :=
  [served 1003 by_owner trust_bob;
   served 1003 by_owner (DeleteMember (val tenant) (val bob))].
Definition raced : list (act View Z) * Server View :=
  play ([0; 0; 0; 1; 1; 1; 1; 0; 0; 0; 0])%nat racing joined.

(** The grant outlives the membership it rests on, both requests having succeeded. *)
Lemma grant_outlives_detach :
  ∃ ps v, rtc pool_step (racing, joined) (ps, v) ∧ ps = [Done Z (Ok NO_CONTENT); Done Z (Ok OK)] ∧
    (∀ s, ¬ in_tenant (named_of v.1) bob tenant s) ∧
    granted_in (named_of v.1) (MkGrant UserMgr (ScopeTenant bob tenant)).
Proof.
  exists raced.1, raced.2. split; [rewrite <-surjective_pairing; apply play_steps|].
  split; [vm_compute; reflexivity|]. split.
  - intros s (b & Hb & [_ Hu] & _).
    assert (forallb (λ b, bool_decide (nm_user b ≠ val bob)) (n_members (named_of raced.2.1)) = true) as Hall
      by (vm_compute; reflexivity).
    rewrite forallb_forall in Hall. apply list_elem_of_In, Hall in Hb. by apply bool_decide_eq_true in Hb.
  - unfold granted_in. apply (bool_decide_eq_true_1 _). vm_compute. reflexivity.
Qed.
End GovernedSample.
