(* ===== verification/Keys.v ===== *)
(** * Keys: what a key is shown for, and that it works

    Facts about [KeyRoutes], put together with [Login], which checks the passphrase given again,
    and with [Auth], which takes what is signed with the key. *)
From S2P Require Import Prelude Text Ident Key Capability Route LimitCore PluginCore Account Cache Sled.
From S2P Require Import CacheTrait Auth Login RespCache Gate Sql Schema Named IdentityStore Workflow.
From S2P Require Import Store Typed Access Manage Web KeyRoutes Policy Governed.

(** ** Keys that are shown *)
Section keys.
Context `{Engine} `{Chrono} `{HttpLib} `{Crypto} `{TokenCodec} `{Argon2} {St : Type} `{!Cache St}.
Context (logins : Logins) (d : Db).

(** The caller gave the passphrase its account is stored with. *)
Definition gave_passphrase (user : UserId) (typed : str) : Prop :=
  ∃ account passphrase, (exec (read_user user) d).1 = Ok (Some account) ∧
    new_passphrase typed = Ok passphrase ∧ passphrase_verify passphrase (user_passphrase account) = Ok true.

(** Requests signed this way are taken as that user's in that tenant, from wherever the account
    may sign. *)
Definition signs_as (user : UserId) (tenant : TenantId) (sign : Nonce → Signature) : Prop :=
  ∀ nonce origin account, (exec (read_user user) d).1 = Ok (Some account) →
    (user_kind account = SystemAdministrator → is_loopback origin = true) →
    ∃ role, established (H0 := stored_in d) (MkSigned tenant user nonce (sign nonce)) origin
            = Ok (MkIdentity user tenant role).

Lemma recheck_passed user p now s s' :
  recheck (H2 := stored_in d) logins user p now s = (Ok tt, s') →
  ∃ account, (exec (read_user user) d).1 = Ok (Some account) ∧
    passphrase_verify p (user_passphrase account) = Ok true.
Proof.
  unfold recheck. destruct (failed_rechecks _ _ _ _) as [[failed|] s1]; [|done].
  destruct (Nat.leb _ _); [done|]. destruct (map_err _ _) as [stored|] eqn:Hst; [|done].
  apply map_err_ok in Hst. destruct (passphrase_verify _ _) as [matched|] eqn:Hp; [|done].
  destruct (bool_decide (is_Some stored) && matched) eqn:Hm.
  - apply andb_true_iff in Hm as [[account ->]%bool_decide_eq_true ->]. eauto.
  - destruct (take_slot _ _ _ _ _) as [[[]|] s2]; [|done]. destruct (failed_rechecks _ _ _ _) as [[]  s3]; done.
Qed.

Lemma recheck_gave {V} at_ now m h typed s s' :
  recheck_refusal (V := V) logins d at_ now m h typed s = (None, s') → gave_passphrase (mgr_user m) typed.
Proof.
  unfold recheck_refusal. destruct (new_passphrase typed) as [p|] eqn:Hp; [|done].
  destruct (recheck _ _ _ _ _) as [[[]|e] s1] eqn:Hr.
  - intros _. apply recheck_passed in Hr as (account & ? & ?). by exists account, p.
  - by destruct e.
Qed.

Lemma recheck_shows_nothing {V} at_ now m h typed s refusal s' v :
  recheck_refusal (V := V) logins d at_ now m h typed s = (Some refusal, s') → body refusal ≠ Json v.
Proof.
  unfold recheck_refusal. destruct (new_passphrase _); [|by intros [= <- _]].
  destruct (recheck _ _ _ _ _) as [[?|[]] ?]; try done; by intros [= <- _].
Qed.
Lemma store_shows_nothing {V} e (v : V) : body (store_refusal e) ≠ Json v.
Proof. by destruct e. Qed.

(** C24: a key is shown only to who it is for, and it works: [user_key] answers with a key only
    when the caller holds a session, is in the tenant it named and gave its account's passphrase
    again; no cache may keep the answer; and what is shown reads back as a key whose signatures
    the verifier takes as that caller's in that tenant. *)
Theorem user_key_shown at_ now m h ask s r s' v :
  user_key logins d at_ now m h ask s = (r, s') → body r = Json v →
  ∃ request tenant key, ask = Ok request ∧ uk_tenant request = val tenant ∧ is_session m = true ∧
    (∃ standing, in_tenant (named_of d) (mgr_user m) tenant standing) ∧
    gave_passphrase (mgr_user m) (uk_passphrase request) ∧ sets r = [(CACHE_CONTROL, #"no-store")] ∧
    kv_tenant v = val tenant ∧ kv_user v = Some (val (mgr_user m)) ∧
    UtKey_from_hex (kv_key v) = Ok key ∧ signs_as (mgr_user m) tenant (of_user key).
Proof.
  unfold user_key. destruct (is_session m); cbn [negb]; [|by intros [= <- _]].
  destruct ask as [request|]; [|by intros [= <- _]].
  destruct (new_ident (uk_tenant request)) as [tenant|] eqn:Ht; [|by intros [= <- _]].
  apply refine_ok in Ht as [_ Ht].
  destruct (exec (membership (mgr_user m) tenant) d).1 as [[held|]|e] eqn:Hm;
    [|by intros [= <- _]|intros [= <- _] []%store_shows_nothing].
  destruct (recheck_refusal _ _ _ _ _ _ _ _) as [[refusal|] s1] eqn:Hre.
  { intros [= <- _] Hb. by eapply recheck_shows_nothing in Hre. }
  apply recheck_gave in Hre.
  destruct (exec (read_tenant tenant) d).1 as [[stored|]|e] eqn:Hst;
    [|by intros [= <- _]|intros [= <- _] []%store_shows_nothing].
  intros [= <- _] [= <-]. exists request, tenant, (derive (mgr_user m) (tenant_key stored)).
  split_and!; try done; try apply decode_hex_encode.
  { exists (member_standing held). by apply membership_some. }
  intros nonce origin account Hacc Hloop. eexists. apply (established_ok (H0 := stored_in d)).
  exists account, stored, held. split_and!; try done. by left.
Qed.

(** The one membership an account has in a tenant, as it is read. *)
Lemma membership_reads user tenant standing :
  well_run (named_of d) → in_tenant (named_of d) user tenant standing →
  (exec (membership user tenant) d).1 = Ok (Some (MkMembership user tenant standing)).
Proof.
  intros Hn (b & Hb & [Ht Hu] & Hs). unfold membership. sql_run.
  destruct (List.find _ _) as [x|] eqn:E; cycle 1.
  { apply list_elem_of_In, (List.find_none _ _ E) in Hb. by rewrite !bool_decide_eq_true_2 in Hb. }
  apply find_elem_of in E as [Hx [?%bool_decide_eq_true ?%bool_decide_eq_true]%andb_true_iff].
  assert (x = b) as -> by (apply (member_unique (named_of d)); try done; unfold member_key; congruence).
  cbn. by rewrite Hs, stored_standing.
Qed.

(** The key of a tenant, which every key in it derives from, is shown only to a session of
    the account that owns the tenant, once it gave its passphrase again, and requests it signs
    with the key are taken as the owner's. *)
Theorem tenant_key_shown at_ now m h ask s r s' v :
  well_run (named_of d) → owner_key logins d at_ now m h ask s = (r, s') → body r = Json v →
  ∃ request tenant key, ask = Ok request ∧ is_session m = true ∧
    in_tenant (named_of d) (mgr_user m) tenant Owner ∧
    gave_passphrase (mgr_user m) (tk_passphrase request) ∧ sets r = [(CACHE_CONTROL, #"no-store")] ∧
    kv_tenant v = val tenant ∧ kv_user v = None ∧ TnKey_from_hex (kv_key v) = Ok key ∧
    signs_as (mgr_user m) tenant (of_tenant_owner key).
Proof.
  intros Hn. unfold owner_key. destruct (is_session m); cbn [negb]; [|by intros [= <- _]].
  destruct ask as [request|]; [|by intros [= <- _]].
  destruct (exec (memberships_of_user (mgr_user m)) d).1 as [memberships|e] eqn:Hm;
    [|intros [= <- _] []%store_shows_nothing].
  destruct (List.find owning memberships) as [owned|] eqn:Hf; [|by intros [= <- _]].
  apply (owned_read _ _ _ _ Hm) in Hf. pose proof (membership_reads _ _ _ Hn Hf) as Hone.
  destruct (recheck_refusal _ _ _ _ _ _ _ _) as [[refusal|] s1] eqn:Hre.
  { intros [= <- _] Hb. by eapply recheck_shows_nothing in Hre. }
  apply recheck_gave in Hre.
  destruct (exec (read_tenant (member_tenant owned)) d).1 as [[stored|]|e] eqn:Hst;
    [|by intros [= <- _]|intros [= <- _] []%store_shows_nothing].
  intros [= <- _] [= <-]. exists request, (member_tenant owned), (tenant_key stored).
  split_and!; try done; try apply decode_hex_encode.
  intros nonce origin account Hacc Hloop. eexists. apply (established_ok (H0 := stored_in d)).
  eexists account, stored, _. split_and!; try done. by right.
Qed.
End keys.

(** ** Sample values *)
Module KeysSample.
Import SampleCrypto SampleChrono AuthSample LoginSample GateSample.
#[local] Existing Instance sqlite.

Definition tables : Db := GovernedSample.joined.1.
Definition by_ada : Manager := MkManager user Regular BySession.
Definition nothing : HeaderMap := no_headers.
Definition own_key : Web.Response KeyView * View :=
  user_key logins tables (5000 * ms) 5000 by_ada nothing (Ok (MkUserKeyRequest #"acme" #"correct horse")) empty_view.
Definition root_key : Web.Response KeyView * View :=
  owner_key logins tables (5000 * ms) 5000 by_ada nothing (Ok (MkTenantKeyRequest #"correct horse")) empty_view.

Definition shows (r : Web.Response KeyView) : bool := match body r with Json _ => true | _ => false end.
Lemma shows_view r : shows r = true → ∃ v, body r = Json v.
Proof. unfold shows. destruct (body r); try done. eauto. Qed.

Lemma user_key_shown_witness :
  ∃ v, body own_key.1 = Json v ∧
  ∃ request tenant key, Ok (MkUserKeyRequest #"acme" #"correct horse") = @Ok Z _ request ∧
    uk_tenant request = val tenant ∧ is_session by_ada = true ∧
    (∃ standing, in_tenant (named_of tables) (mgr_user by_ada) tenant standing) ∧
    gave_passphrase tables (mgr_user by_ada) (uk_passphrase request) ∧
    sets own_key.1 = [(CACHE_CONTROL, #"no-store")] ∧
    kv_tenant v = val tenant ∧ kv_user v = Some (val (mgr_user by_ada)) ∧
    UtKey_from_hex (kv_key v) = Ok key ∧ signs_as tables (mgr_user by_ada) tenant (of_user key).
Proof.
  destruct (shows_view own_key.1) as [v Hv]; [vm_compute; reflexivity|]. exists v. split; [exact Hv|].
  apply (user_key_shown logins tables (5000 * ms) 5000 by_ada nothing
    (Ok (MkUserKeyRequest #"acme" #"correct horse")) empty_view own_key.1 own_key.2 v).
  - apply surjective_pairing.
  - exact Hv.
Defined.

Lemma tenant_key_shown_witness :
  ∃ v, body root_key.1 = Json v ∧
  ∃ request tenant key, Ok (MkTenantKeyRequest #"correct horse") = @Ok Z _ request ∧ is_session by_ada = true ∧
    in_tenant (named_of tables) (mgr_user by_ada) tenant Owner ∧
    gave_passphrase tables (mgr_user by_ada) (tk_passphrase request) ∧
    sets root_key.1 = [(CACHE_CONTROL, #"no-store")] ∧
    kv_tenant v = val tenant ∧ kv_user v = None ∧ TnKey_from_hex (kv_key v) = Ok key ∧
    signs_as tables (mgr_user by_ada) tenant (of_tenant_owner key).
Proof.
  destruct (shows_view root_key.1) as [v Hv]; [vm_compute; reflexivity|]. exists v. split; [exact Hv|].
  apply (tenant_key_shown logins tables (5000 * ms) 5000 by_ada nothing
    (Ok (MkTenantKeyRequest #"correct horse")) empty_view root_key.1 root_key.2 v).
  - apply GovernedSample.joined_ok.
  - apply surjective_pairing.
  - exact Hv.
Defined.
End KeysSample.
