(* ===== verification/Confined.v ===== *)
(** * Confined: what a tenant's caller can read

    Facts about [LimitRoutes], [UsageRoutes] and [PluginRoutes]: what a caller other than the
    system administrator is shown is its own tenant's, and for an account that owns a tenant the
    first tenant found is the only one, as the chain of plugins it manages takes for granted. *)
From S2P Require Import TenantRoutes UserRoutes MemberRoutes GrantRoutes RouteRoutes LimitRoutes.
From S2P Require Import PluginRoutes UsageRoutes.
From S2P Require Import Prelude Text Ident Key Capability Route LimitCore PluginCore Account.
From S2P Require Import Cache Sled CacheTrait Auth Login Limiter Recorder Sql Schema Integrity.
From S2P Require Import Named IdentityStore IdentitySpec Workflow PluginStore RouteStore LimitStore.
From S2P Require Import ListStore Store Revision Typed Contract Access Publication Manage Web Feed.
From S2P Require Import Policy Governed.

(** Who reads what a tenant spent. *)
Definition observes (n : Named) (m : Manager) (t : TenantId) : Prop :=
  in_tenant n (mgr_user m) t Owner ∨
  (∃ s, in_tenant n (mgr_user m) t s) ∧ granted_in n (MkGrant Observer (ScopeTenant (mgr_user m) t)).


(** Everything read off rows that all have a property. *)
Lemma try_map_all {A B} (f : A → result StorageError B) (P : B → Prop) l ys :
  try_map f l = Ok ys → (∀ x y, x ∈ l → f x = Ok y → P y) → Forall P ys.
Proof.
  intros Hl%try_map_ok HP. apply Forall_forall. intros y Hy. apply list_elem_of_lookup in Hy as [i Hi].
  destruct (Forall2_lookup_r _ _ _ _ _ Hl Hi) as (x & Hx & Hf). apply (HP x y); [|done].
  by eapply list_elem_of_lookup_2.
Qed.

Section confined.
Context `{Engine} `{Chrono} `{Crypto} `{SnapshotCodec} {St : Type} `{!Publication St}.

Lemma usage_listed d f page l t :
  (exec (list_usage f page) d).1 = Ok l → filter_tenant f = Some t →
  Forall (λ u, uv_tenant u = val t) (map usage_view l).
Proof.
  unfold list_usage. sql_run. destruct (try_map _ _) as [l'|] eqn:El; [|done]. intros [= ->] Ht.
  apply Forall_fmap. eapply try_map_all; [exact El|]. intros x y [Hm _]%page_of_in%list_elem_of_filter Hy.
  destruct Hm as [Hm _]. rewrite Ht in Hm. unfold recorded in Hy.
  apply bind_ok in Hy as (? & _ & (? & _ & (tenant & Htn & Hy)%bind_ok)%bind_ok).
  do 9 apply bind_ok in Hy as (? & _ & Hy). injection Hy as <-. cbn. rewrite <-Hm.
  by apply map_err_ok, refine_ok in Htn as [_ ?].
Qed.

Lemma limits_listed d page l t :
  (exec (list_limits (Some t) page) d).1 = Ok l → Forall (λ v, lv_tenant v = val t) (map limit_view l).
Proof.
  unfold list_limits. sql_run. destruct (try_map _ _) as [l'|] eqn:El; [|done]. intros [= ->].
  apply Forall_fmap. eapply try_map_all; [exact El|]. intros x y [Hm _]%page_of_in%list_elem_of_filter Hy.
  apply bool_decide_eq_true in Hm. unfold limit_read in Hy.
  apply bind_ok in Hy as (tenant & Htn & Hy). do 7 apply bind_ok in Hy as (? & _ & Hy).
  injection Hy as <-. cbn. rewrite <-Hm. by apply map_err_ok, refine_ok in Htn as [_ ?].
Qed.

(** A refusal shows nothing. *)
Definition silent {V} (r : Response V) : Prop := ∀ v, body r ≠ Json v.
Lemma store_silent {V} e : silent (V := V) (store_refusal e).
Proof using. by destruct e. Qed.
Lemma refusal_silent {V} r refusal : refusal_of (V := V) r = Some refusal → silent refusal.
Proof using. destruct r as [[]|e]; intros [= <-]; [done|apply store_silent]. Qed.
Lemma unprocessed_silent {V A} (r : result CoreError A) refusal :
  map_err (unprocessable (V := V)) r = Err refusal → silent refusal.
Proof using. destruct r; by intros [= <-]. Qed.

Lemma filter_for_silent {V} m n d c refusal v :
  runs (filter_for (V := V) (St := St) m n) (d, c) (Ok (Err refusal)) v → silent refusal.
Proof.
  unfold filter_for. destruct (mbind _ _) as [f|e] eqn:Ef.
  2: { intros [[= ->] _]. apply bind_err in Ef as [Ef|(? & _ & [Ef|(? & _ & [Ef|(? & _ & ?)]%bind_err)]%bind_err)];
       [by apply unprocessed_silent in Ef..|done]. }
  destruct (is_system_administrator m); [by intros [[= ] _]|].
  destruct (filter_tenant f); [|by intros [[= ->] _]].
  intros Hr. apply runs_read_bind in Hr as [[Hr _]|[Hr _]]; [..|auto with policy];
    (destruct (refusal_of _) as [r0|] eqn:E; [|done]); injection Hr as ->; by apply refusal_silent in E.
Qed.

Lemma reading_silent {V} m named d c refusal v :
  runs (LimitRoutes.reading (V := V) (St := St) m named) (d, c) (Ok (Err refusal)) v → silent refusal.
Proof.
  unfold LimitRoutes.reading. destruct (is_system_administrator m); [by intros [[= ] _]|].
  intros [(o & v1 & Ho & [Hr _])|(e & _ & ?)]%runs_seq; [|done]. destruct o as [t|x].
  { destruct named; [case_decide|]; by simplify_eq. }
  simplify_eq. apply runs_read_bind in Ho as [[Ho _]|[Ho _]]; [..|auto with policy].
  - destruct (exec _ d).1; [destruct (List.find _ _)|]; simplify_eq; [done|apply store_silent].
  - by simplify_eq.
Qed.

(** C38: no tenant's figures are shown to another: what was spent is shown to the system
    administrator or else, row for row, is that of one tenant, whose owner the caller is or in
    which it is a member granted to observe. *)
Theorem usage_confined m n page d c r v views :
  runs (list_usage_of (St := St) m n page) (d, c) (Ok r) v → body r = Json views →
  is_admin m ∨ ∃ t, observes (named_of d) m t ∧ Forall (λ u, uv_tenant u = val t) views.
Proof.
  intros Hr Hb. apply runs_seq in Hr as [(f & v1 & Hf & Hr)|(e & _ & ?)]; [|done].
  destruct f as [f|refusal]; cycle 1.
  { apply filter_for_silent in Hf. destruct Hr as [[= ->] _]. by destruct (Hf views). }
  apply filter_for_kept in Hf as [-> Hf]. destruct (Hf f eq_refl) as [Ha|(t & Ht & Hall)]; [by left|].
  apply runs_read_bind in Hr as [Hr|Hr]; [..|auto with policy]; destruct Hr as [->%(inj Ok) _]; [|done].
  destruct (exec _ d).1 as [l|e] eqn:El; [|by apply store_silent in Hb]. injection Hb as <-.
  apply allows_read in Hall as [Ha|[[_ Ho]|Hg]]; [by left|right; exists t..].
  - split; [by left|]. by eapply usage_listed.
  - split; [by right|]. by eapply usage_listed.
Qed.

(** The limits a caller is shown are every tenant's for the system administrator and
    otherwise those of the one tenant it owns, whichever it named. *)
Theorem limits_confined m named page d c r v views :
  runs (list_limits_of (St := St) m named page) (d, c) (Ok r) v → body r = Json views →
  is_admin m ∨ ∃ t, in_tenant (named_of d) (mgr_user m) t Owner ∧ Forall (λ u, lv_tenant u = val t) views.
Proof.
  intros Hr Hb. unfold list_limits_of in Hr. destruct (new_optional named) as [o|]; [|by destruct Hr as [[= ->] _]].
  apply runs_seq in Hr as [(read & v1 & Hf & Hr)|(e & _ & ?)]; [|done].
  destruct read as [read|refusal]; cycle 1.
  { apply reading_silent in Hf. destruct Hr as [[= ->] _]. by destruct (Hf views). }
  apply reading_kept in Hf as [-> Hf]. destruct (Hf read eq_refl) as [Ha|(t & -> & Hown)]; [by left|].
  apply runs_read_bind in Hr as [Hr|Hr]; [..|auto with policy]; destruct Hr as [->%(inj Ok) _]; [|done].
  destruct (exec _ d).1 as [l|e] eqn:El; [|by apply store_silent in Hb]. injection Hb as <-.
  right. exists t. split; [done|]. by eapply limits_listed.
Qed.

(** A tenant's owner manages the chain of its own tenant and no other: on the tables the
    management api keeps, the first tenant [owner_of] finds an account to own is the only one it
    owns, so whoever owns a tenant is answered with exactly that tenant's chain, and whoever owns
    none is turned away. *)
Theorem chain_is_own m d c :
  sound d → typed d → well_run (named_of d) → mgr_kind m = Regular →
  (∀ t, in_tenant (named_of d) (mgr_user m) t Owner →
     exec (owner_of (V := unit) (St := St) m) (d, c) = (Ok (Ok (TenantOwner t)), (d, c))) ∧
  ((∀ t, ¬ in_tenant (named_of d) (mgr_user m) t Owner) →
     exec (owner_of (V := unit) (St := St) m) (d, c) = (Ok (Err (status FORBIDDEN)), (d, c))).
Proof.
  intros Hd Ht Hn Hk. unfold owner_of, is_system_administrator. rewrite Hk, bool_decide_eq_false_2 by done.
  rewrite exec_bind, exec_call, (exec_reads (memberships_of_user _)) by auto with policy.
  assert (∃ l, (exec (memberships_of_user (mgr_user m)) d).1 = Ok l) as [l El].
  { destruct (identity_reads_back d Hd Ht) as (_ & _ & _ & Hl & _). apply Hl. }
  cbn [fst snd]. rewrite El. cbn [exec answer_with pure]. split.
  - intros t Hown. destruct (memberships_read d _ _ _ _ El Hown) as (held & Hh & <- & Hs).
    destruct (List.find LimitRoutes.owns l) as [x|] eqn:Ef; cycle 1.
    { apply find_None_Forall in Ef. rewrite Forall_forall in Ef. specialize (Ef held Hh). unfold LimitRoutes.owns in Ef.
      by rewrite bool_decide_eq_true_2 in Ef. }
    apply (owned_read _ _ _ _ El) in Ef. destruct Ef as (a & Ha & [Et Eu] & Es), Hown as (b & Hb & [Ft Fu] & Fs).
    assert (a = b) as -> by (apply (wr_one_owner (named_of d) Hn); try done; right; congruence).
    do 4 f_equal. apply (inj val). congruence.
  - intros Hno. destruct (List.find LimitRoutes.owns l) as [x|] eqn:Ef; [|done].
    by apply (owned_read _ _ _ _ El), Hno in Ef.
Qed.
End confined.

(** ** Sample values *)
Module ConfinedSample.
Import SampleCrypto SampleChrono StoreSample GovernedSample FeedSample Memory.

(** What an endpoint answered, when nothing broke. *)
Definition answer_of {V} (x : result StorageError (Response V) * Server View) : Response V :=
  match x.1 with Ok r => r | Err _ => status INTERNAL_SERVER_ERROR end.
Lemma answer_runs {V} (p : act View (Response V)) v :
  is_ok (exec p v).1 = true → runs p v (Ok (answer_of (exec p v))) (exec p v).2.
Proof. intros Hok. pose proof (runs_exec p v) as Hr. by destruct (exec p v) as [[r|e] v']. Qed.

(** The owner of a tenant reads what it spent. *)
Definition asks : act View (Response (list UsageView)) :=
  list_usage_of by_owner (MkNarrowing (Some (val tenant)) None None) default_page.
Definition spent : Response (list UsageView) := answer_of (exec asks (held, empty_view)).
Lemma asks_run : runs asks (held, empty_view) (Ok spent) (exec asks (held, empty_view)).2.
Proof. refine (answer_runs asks (held, empty_view) _). vm_compute. reflexivity. Qed.
Definition rows_shown (r : Response (list UsageView)) : nat := match body r with Json l => length l | _ => 0 end.
Lemma shown_rows r : rows_shown r = 1%nat → ∃ views, body r = Json views ∧ length views = 1%nat.
Proof. unfold rows_shown. destruct (body r); try done. eauto. Qed.

Lemma usage_confined_witness :
  ∃ views, (body spent = Json views ∧ length views = 1%nat) ∧
  (is_admin by_owner ∨ ∃ t, observes (named_of held) by_owner t ∧ Forall (λ u, uv_tenant u = val t) views).
Proof.
  destruct (shown_rows spent) as [views Hv]; [vm_compute; reflexivity|]. exists views. split; [exact Hv|].
  apply (usage_confined by_owner (MkNarrowing (Some (val tenant)) None None) default_page held empty_view
    spent (exec asks (held, empty_view)).2 views).
  - exact asks_run.
  - apply Hv.
Defined.

Lemma owner_in : in_tenant (named_of joined.1) (mgr_user by_owner) tenant Owner.
Proof.
  apply (membership_some joined.1 (mgr_user by_owner) tenant (MkMembership user tenant Owner)).
  vm_compute. reflexivity.
Qed.

Lemma chain_is_own_witness :
  exec (owner_of (V := unit) (St := View) by_owner) (joined.1, empty_view)
  = (Ok (Ok (TenantOwner tenant)), (joined.1, empty_view)).
Proof.
  refine (proj1 (chain_is_own by_owner joined.1 empty_view _ _ _ _) tenant _).
  - apply joined_ok.
  - apply joined_ok.
  - apply joined_ok.
  - reflexivity.
  - exact owner_in.
Defined.
End ConfinedSample.
